(* ===== verification/_CoqProject ===== *)
-Q . S2P
Prelude.v
CxxLib.v
LUrlParser.v
LUrlParserFacts.v
WebUtility.v
WebUtilityFacts.v
FiberFuture.v
FiberToken.v
ExceptionTrace.v
HttpMessage.v
Pool.v
HttpCache.v
HttpClient.v
HttpSystem.v
HttpClientFacts.v
CxxMap.v
HttpServer.v
HttpServerFacts.v
ServerLifecycle.v
HttpSetup.v
Json.v
JsonFacts.v
JsonDump.v
JsonLexer.v
JsonParser.v
JsonGrammar.v
JsonWp.v
JsonStrings.v
JsonNumbers.v
JsonLexerFacts.v
JsonDom.v
JsonParserFacts.v
JsonParse.v
JsonFloat.v
JsonFloatFacts.v
JsonRoundtrip.v
JsonPosition.v
JsonDiagnostics.v
Json2Sql.v
Json2SqlFacts.v
ExampleServer.v
Gregorian.v
SociPgsql.v
SociPgsqlFacts.v
Fleet.v
Channel.v
ChannelWait.v
WaitStuff.v
WaitStuffFacts.v
WaitAllSimple.v
FlagWait.v
ServerMain.v
ClientRounds.v
Syslog.v
SyslogFacts.v
Logger.v
LoggerFacts.v
