(* ===== verification/Prelude.v ===== *)
(** * jkit: a verification development

    jkit is a C++ toolkit on Boost.Asio, Boost.Beast and Boost.Fiber: an HTTP
    client with a cache of connections, an HTTP server, helpers to run and await
    fibers, builders of SQL text from JSON and conversions for database columns
    (with the JSON library they use).  This library models its code as
    executable definitions and proves what makes each part correct.  Sources are
    named by their path in the repository.

    ** The parts and their files

    - [Prelude] (byte strings, outcomes of C++ code, tactics, hints), [CxxLib]
      (what the code uses of std::string, strtol, atoi), [CxxMap]
      (std::map with string keys as a list in key order), [Fleet] (sums over
      lists of program counters, for the interleaving systems).
    - [LUrlParser], [LUrlParserFacts]: common/LUrlParser.cpp.  Each block of
      [ParseURL] is a definition ([read_scheme], [read_user_password],
      [read_host], ...); the facts compare [ParseURL] with a grammar of URLs.
    - [WebUtility], [WebUtilityFacts]: common/web_utility.hpp, with the modules
      [CaseInsensitiveHash], [Percent] and [kkurl] (query strings, MIME types).
    - [FiberFuture]: common/fiber/impl/use_fiber_future.hpp, the completion
      handlers that fill the promise of an asynchronous operation, over the
      shared state of boost::fibers::future.  [FiberToken]:
      common/fiber/use_fiber_future.hpp and the objects around the handlers (the
      token and its allocator, the shared promise objects, the async results,
      the executor with dispatch, post and defer).
    - [ExceptionTrace]: common/exception_trace.hpp over the info containers that
      copies of a boost::exception share.
    - [HttpMessage]: what client and server use of a Beast message, as the class
      [HttpResponse] with its laws, and a concrete instance.
    - [Pool], [HttpCache]: the lists of connections in
      http/multi_client_http.cpp.  A list of shared pointers is a heap of
      records and a list of locations, so that a connection that a request holds
      and the list entry are the same object.  Each critical section of
      [HttpCache] is a definition; the network, the clock and TLS answer through
      an argument ([net_env], [io_env]).
    - [HttpClient]: [MultiClientHttp::init], both [h1_req] and [h2_req].
      [HttpSystem]: any number of requests interleaving at their critical
      sections, over the interface [ConnCache] that both HTTP/1 caches
      implement.  [HttpClientFacts]: the theorems.
    - [HttpServer], [HttpServerFacts]: requests and sessions of
      http/http_api_server.cpp.  boost::regex is a parameter, which may throw.  A user function
      maps the context to a context and to how it ended (normally, with a
      standard exception, with another one).
    - [ServerLifecycle]: [accept], [start] and [stop] of the same file, as an
      interleaving system with the counter of sessions.  [HttpSetup]: the socket
      options of the server and the threads of the connection cache.
    - [Json], [JsonFacts]: the values and the compact serialiser of
      third_party/include/json.hpp, as far as the SQL builders call them, with the
      buffer of the strings.  [JsonDump]: a reference printer, and the shape of
      values.  [JsonFloat], [JsonFloatFacts]: the text of a floating-point number
      (the Grisu2 conversion of the same file, on the 64 bits of a double), and
      the correctly rounding [strtod].  [JsonLexer], [JsonParser]: the classes
      lexer, parser and json_sax_dom_parser behind json::parse, member function by
      member function, as state passing over the records [lexer], [parser] and
      [json_sax_dom_parser]; pointers into the value under construction are paths
      from its root, a handler is an instance of the class [SAX], and the class
      [CFloat] is what they use of [double], of which [JsonFloat] is the
      instance.  [JsonGrammar]: the grammar of
      RFC 8259, written down without the machines.  [JsonWp] (weakest
      preconditions), [JsonStrings], [JsonNumbers], [JsonLexerFacts] (the lexer
      against the grammar), [JsonDom] (values with a hole), [JsonParserFacts] (the
      parser as a machine), [JsonParse], [JsonRoundtrip]: the proofs.
      [JsonPosition], [JsonDiagnostics]: the positions and texts of syntax errors.
      [Json2Sql], [Json2SqlFacts]: db/json2sql.cpp and db/json2sql.h.
    - [Gregorian], [SociPgsql], [SociPgsqlFacts]: db/soci_pgsql.hpp, the type
      conversions (with the calendar of boost.date_time and the UUID texts of
      boost.uuid they call) as instances of the class [TypeConversion], and
      [DBHelper] over the interface [ConnectionPool], which is SOCI's.
    - [Channel]: third_party/include/boost/fiber/buffered_channel.hpp as the
      interface [Channel] with its laws (a bounded queue that can be closed) and
      the ring buffer that implements it.  [ChannelWait]: its queues of suspended
      fibers.  [WaitStuff], [WaitStuffFacts]:
      common/fiber/wait_stuff.hpp, the functions over a channel.
      [WaitAllSimple]: its [wait_all_simple], over the interface [Barrier].
      [FlagWait]: its [Done] and common/fiber/fiber_frame_context.hpp.
    - [Syslog], [SyslogFacts]: the syslog backend of common/logger.cpp.
      [Logger], [LoggerFacts]: the sinks, formatters and log functions of
      common/logger.cpp and common/logger.h, with the stream buffer that cuts
      long messages; the core of Boost.Log is the interface [LogCore].
    - [ExampleServer]: the programs of examples/http as compositions of the
      parts: the session of the server against the request of the client.
      [ClientRounds]: the rounds of requests of the sample clients.
      [ServerMain]: [main] of the sample server, from [FlagWait] and
      [ServerLifecycle].

    ** What the theorems show

    - URLs: the parser accepts exactly the grammar and returns the parts of its
      only derivation; what each error code means; the range of [GetPort].
    - Web utilities: the key laws of the case-insensitive multimap; encoding and
      decoding round-trip where they do, and a text for which they do not;
      [parse_query_string] computes the split into parameters, and built query
      strings parse back to their parameters in some order.
    - Futures: the future yields the value or the error of the completion, for
      every signature; a state is assigned once; operations of one token do not
      meet, whatever the order in which their posted completions run; traced
      exceptions carry their frames and code.
    - Client: under every interleaving no connection is shared, each held
      connection is listed, marked and leads to the right peer; a call is a run of
      that system; results on every branch, HTTP/2 included; reuse, purge and
      verification.
    - Server: [handle_request] on every branch; the resource called is the least
      that matches, unless one that is too complex to match comes first; functions
      only see safe paths; a session answers each request in order, and nothing
      follows a final answer; the counter is exact, [stop] waits for the sessions
      and its wait ends; three ways in which stopping goes wrong.
    - SQL: the text of every statement, for every JSON value and every condition;
      when a string survives as a literal; the JSON helpers.
    - JSON: the serialiser computes the reference printer and throws exactly when
      a string is not UTF-8; a finite double is written without a failed assertion
      and read back to the same 64 bits. json::parse returns a value exactly for
      the texts of the grammar, and the value the grammar gives; it throws at a
      position inside the text otherwise, and always ends. What dump writes, parse
      reads back, with null for the numbers that are not finite, and what parse
      returns, dump can write. For a syntax error, the tokens before it determine
      what was expected and in what, and the next one what was found; byte, line
      and column are those of the text that was read, with the one exception there
      is.
    - Database: a value written to a column comes back, for each type, where it
      does; no two live session pointers share a session; what a restart breaks.
    - Waiting: every run ends within a bound, with what each function promises,
      the first in the order of the pushes for those that wait for one; the ring
      buffer is a bounded queue; its queues of suspended fibers implement the
      channel in which an operation that has to wait is not enabled, so no wakeup
      is lost; a caller that waits for ever when the decrement of [nchannel] is
      torn between threads; [wait_all_simple] comes back when all functions have
      returned, and only then.
    - Logging: a reader recovers what was logged from a syslog packet; a call
      formats only what some sink wants and writes to those sinks, in an order
      that is left open; where the files go.
    - Composition: the sample client gets the response that the session of the
      sample server wrote, and both ends agree on whether the connection lives;
      the rounds of requests end with nothing left running, or wait for ever when
      a request throws; [main] of the sample server never returns, and the server
      goes on serving.

    ** Bounds and fuel

    Recursion is structural except for the digits of an [int] in [Syslog] (fuel
    10, the digits of 2^31) and two loops on 64-bit integers in [Json]:
    [count_digits] has fuel 5 (each turn removes four digits of at most twenty)
    and [fill_digits] fuel 10 (two digits a turn); the serialiser of integers is
    proved to print the decimal text of every 64-bit value, so that neither runs
    out. A session is run over the list of turns its peer takes. Runs of the
    interleaving systems have no fuel: their length is bounded by a measure (six
    steps a function and one in [WaitStuffFacts], two and one where the caller
    waits for futures, four a function and three in [WaitAllSimple], six a waiter
    and four a setter in [FlagWait], three a request and five in [ClientRounds]).
    The reference printer of [JsonDump] has fuel 20 for the digits of a 64-bit
    integer, proved enough; UUIDs are read over their sixteen bytes. The loops of
    the JSON lexer have as fuel the characters left and one or two, the loop of
    the parser the characters left and two; a loop that ran out would be undefined
    behaviour, which the theorem on parse excludes for every text. The loops of
    the float conversion have as fuel 64 for normalising a significand (a shift a
    turn), 10 for rounding the last digit (it is decreased each turn) and 20 for
    the digits of the fraction (the distance grows tenfold each turn); running out
    would be undefined behaviour, which the theorem on [dump_float] excludes for
    all doubles. A run at a channel with [n] fibers has at most [n + 3] steps an
    operation and one a fiber ([ChannelWait]). Machine integers are [Z] with
    [wrap_u] and [wrap_s] written where the code wraps; characters are signed, as
    on x86-64.

    ** What is not modelled

    The console output and the check of the arguments of the sample clients; the
    rotation of log files, which is Boost.Log's; the branches of
    impl/use_fiber_future.hpp for compilers without variadic templates, which are
    not compiled; of json.hpp the texts of the exceptions other than syntax
    errors, parser callbacks, the other input adapters, the binary formats and the
    printing of floating-point types that are not IEEE doubles; the timed and
    non-blocking operations of the channel, which nothing calls; the rest of
    third_party/. Code whose source is not in the repository (SOCI, the core of
    Boost.Log, the fiber barrier and condition variable, boost.regex,
    boost.format, the path functions of boost.filesystem, nghttp2) is an interface
    or an argument with its documented behaviour as laws, and an instance shows
    that the laws can hold; the C library's [strtod] is modelled as rounding
    correctly. The suspension of a fiber is a step that is not enabled, which
    [ChannelWait] justifies for the channel; the scheduler is left out. *)
From stdpp Require Import prelude strings.
From Stdlib Require Import Ascii ZArith Lia.

(** ** Byte strings

    A [std::string] is a list of bytes; a byte is an [ascii]. *)

Abbreviation str := (list ascii).

Definition lit (s : string) : str := String.list_ascii_of_string s.

(** Unsigned and signed value of a [char] (x86-64 Linux: [char] is signed). *)
Definition uchar (c : ascii) : Z := Z.of_N (N_of_ascii c).

Definition schar (c : ascii) : Z := if (uchar c <? 128)%Z then uchar c else (uchar c - 256)%Z.

(** [static_cast<char>(z)]: the low eight bits. *)
Definition char_of_Z (z : Z) : ascii := ascii_of_N (Z.to_N (z mod 256)).

Definition NUL : ascii := Ascii.zero.

(** Membership of a byte in a string, as the boolean the code tests. *)
Definition has_char (c : ascii) (s : str) : bool := existsb (Ascii.eqb c) s.

(** ** Machine integers *)

(** Reduction of an integer to [w] bits, unsigned and two's complement. *)
Definition wrap_u (w z : Z) : Z := (z mod 2 ^ w)%Z.

Definition wrap_s (w z : Z) : Z := ((z + 2 ^ (w - 1)) mod 2 ^ w - 2 ^ (w - 1))%Z.

Definition clamp (lo hi z : Z) : Z := Z.max lo (Z.min hi z).

(** ** Outcomes of C++ code: a value, a thrown exception, undefined behaviour *)

Inductive outcome (E A : Type) : Type :=
| Ret (a : A)
| Throw (e : E)
| Undef.
Arguments Ret {E A} a.
Arguments Throw {E A} e.
Arguments Undef {E A}.

Definition obind {E A B} (m : outcome E A) (k : A -> outcome E B) : outcome E B :=
  match m with
  | Ret a => k a
  | Throw e => Throw e
  | Undef => Undef
  end.

Declare Scope cxx_scope.
Delimit Scope cxx_scope with cxx.
Notation "'let!' x ':=' m 'in' k" := (obind m (fun x => k))
  (at level 10, x binder, m at level 200, k at level 200) : cxx_scope.

(** A loop whose body may throw, over a vector. *)
Fixpoint omap {E A B} (f : A -> outcome E B) (l : list A) : outcome E (list B) :=
  match l with
  | [] => Ret []
  | x :: l' => obind (f x) (fun y => obind (omap f l') (fun ys => Ret (y :: ys)))
  end.

(** ** Scanning

    A C string pointer is the list of the bytes from it to the terminating
    NUL, which is not in the list.  [scan stop p] is the loop
    that advances [q] while [*q] is not NUL and not a stop byte, started at [q = p]: the bytes passed and the
    pointer it ends at. *)
Fixpoint scan (stop : ascii -> bool) (p : str) : str * str :=
  match p with
  | [] => ([], [])
  | c :: p' =>
      if stop c then ([], p)
      else let '(taken, rest) := scan stop p' in (c :: taken, rest)
  end.

(** The bytes of [std::string::c_str()] a C function sees: up to the first NUL. *)
Definition c_str (s : str) : str := fst (scan (Ascii.eqb NUL) s).

(** [*p], with the NUL at the end of the string. *)
Definition deref (p : str) : ascii := match p with [] => NUL | c :: _ => c end.

(** The pointer after the byte [c] when [*p] is [c]. *)
Definition eat (c : ascii) (p : str) : option str :=
  match p with
  | d :: p' => if Ascii.eqb d c then Some p' else None
  | [] => None
  end.

(** No byte of [s] satisfies [P]. *)
Fixpoint none (P : ascii -> bool) (s : str) : bool :=
  match s with
  | [] => true
  | c :: s' => negb (P c) && none P s'
  end.

(** ** Automation *)

#[global] Arguments Ascii.eqb : simpl never.
#[global] Arguments eat : simpl never.

Create HintDb jkit discriminated.

(** Case analysis on the eight bits of a byte. *)
Ltac byte_cases c := destruct c as [[] [] [] [] [] [] [] []].

(** Turn the boolean tests of the code into propositions. *)
Ltac unbool :=
  cbv beta in *;
  repeat match goal with
  | H : andb _ _ = true |- _ => apply andb_prop in H; destruct H
  | H : orb _ _ = false |- _ => apply orb_false_elim in H; destruct H
  | H : negb _ = true |- _ => apply negb_true_iff in H
  | H : negb _ = false |- _ => apply negb_false_iff in H
  | H : Ascii.eqb _ _ = true |- _ => apply Ascii.eqb_eq in H
  | H : Ascii.eqb _ _ = false |- _ => apply Ascii.eqb_neq in H
  | H : (_ =? _)%Z = true |- _ => apply Z.eqb_eq in H
  | H : (_ =? _)%Z = false |- _ => apply Z.eqb_neq in H
  | H : (_ <? _)%Z = true |- _ => apply Z.ltb_lt in H
  | H : (_ <? _)%Z = false |- _ => apply Z.ltb_ge in H
  | H : (_ <=? _)%Z = true |- _ => apply Z.leb_le in H
  | H : (_ <=? _)%Z = false |- _ => apply Z.leb_gt in H
  | H : (_ =? _)%nat = true |- _ => apply Nat.eqb_eq in H
  | H : (_ =? _)%nat = false |- _ => apply Nat.eqb_neq in H
  | H : (_ <? _)%nat = true |- _ => apply Nat.ltb_lt in H
  | H : (_ <? _)%nat = false |- _ => apply Nat.ltb_ge in H
  end.

(** Case analysis on every comparison of bytes in sight. *)
Ltac char_tests :=
  simpl in *; try done;
  repeat (match goal with
          | |- context [Ascii.eqb ?a ?b] => destruct (Ascii.eqb_spec a b)
          | H : context [Ascii.eqb ?a ?b] |- _ => destruct (Ascii.eqb_spec a b)
          end; simpl in *; try subst; try done).

(** Split the scrutinee of the first [match] of the goal, keeping its equation. *)
Ltac case_code :=
  match goal with
  | |- context [match ?x with _ => _ end] => destruct x eqn:?
  end.

(** ** Lemmas on outcomes *)

Lemma obind_Ret {E A B} (m : outcome E A) (k : A -> outcome E B) b :
  obind m k = Ret b <-> exists a, m = Ret a /\ k a = Ret b.
Proof. destruct m; simpl; naive_solver. Qed.

Lemma omap_ret {E A B} (f : A -> outcome E B) (g : A -> B) l :
  (forall x, x ∈ l -> f x = Ret (g x)) -> omap f l = Ret (map g l).
Proof.
  induction l as [|x l IH]; intros H; [done|]. simpl.
  rewrite (H x) by set_solver. simpl. rewrite IH by set_solver. done.
Qed.

(** ** Lemmas on bytes *)

Lemma uchar_range c : (0 <= uchar c < 256)%Z.
Proof.
  unfold uchar. split; [lia|].
  change 256%Z with (Z.of_N 256). apply N2Z.inj_lt, N_ascii_bounded.
Qed.

Lemma schar_range c : (-128 <= schar c < 128)%Z.
Proof. unfold schar. pose proof (uchar_range c). destruct (Z.ltb_spec (uchar c) 128); lia. Qed.

Lemma char_of_Z_uchar c : char_of_Z (uchar c) = c.
Proof.
  unfold char_of_Z. rewrite Z.mod_small by apply uchar_range.
  unfold uchar. rewrite N2Z.id. apply ascii_N_embedding.
Qed.

Lemma char_of_Z_schar c : char_of_Z (schar c) = c.
Proof.
  unfold schar. destruct (uchar c <? 128)%Z; [apply char_of_Z_uchar|].
  unfold char_of_Z. rewrite <- (Z_mod_plus_full _ 1 256).
  replace (uchar c - 256 + 1 * 256)%Z with (uchar c) by lia. apply char_of_Z_uchar.
Qed.

Lemma has_char_false c s : has_char c s = false <-> c ∉ s.
Proof.
  unfold has_char. rewrite <- not_true_iff_false, existsb_exists.
  split; intros H Hc; apply H.
  - exists c. split; [by apply list_elem_of_In|apply Ascii.eqb_refl].
  - destruct Hc as (d & Hd & E). apply Ascii.eqb_eq in E. subst. by apply list_elem_of_In.
Qed.

(** ** Lemmas on scanning *)

Lemma scan_app_id stop p taken rest : scan stop p = (taken, rest) -> p = taken ++ rest.
Proof.
  revert taken rest. induction p as [|c p IH]; simpl; intros taken rest H; simplify_eq/=; auto.
  destruct (stop c); [by simplify_eq/=|].
  destruct (scan stop p) as [t r]. simplify_eq/=. by rewrite <- (IH _ _ eq_refl).
Qed.

Lemma scan_none stop p taken rest : scan stop p = (taken, rest) -> none stop taken = true.
Proof.
  revert taken rest. induction p as [|c p IH]; simpl; intros taken rest H; simplify_eq/=; auto.
  destruct (stop c) eqn:E; [by simplify_eq/=|].
  destruct (scan stop p) as [t r]. simplify_eq/=. by rewrite E, (IH _ _ eq_refl).
Qed.

Lemma scan_stop stop p taken c rest : scan stop p = (taken, c :: rest) -> stop c = true.
Proof.
  revert taken. induction p as [|d p IH]; simpl; intros taken H; [simplify_eq/=|].
  destruct (stop d) eqn:E; [by simplify_eq/=|].
  destruct (scan stop p) as [t r]. simplify_eq/=. eauto.
Qed.

(** The scan stops exactly where a stop byte follows a part without any. *)
Lemma scan_app stop s p :
  none stop s = true -> (p = [] \/ stop (deref p) = true) -> scan stop (s ++ p) = (s, p).
Proof.
  intros Hs Hp. induction s as [|c s IH]; simpl in *.
  - destruct p as [|c p]; [done|]. destruct Hp as [|Hp]; [done|]. simpl in *. by rewrite Hp.
  - unbool. rewrite H. by rewrite IH.
Qed.

Lemma scan_all stop s : none stop s = true -> scan stop s = (s, []).
Proof. intros H. rewrite <- (app_nil_r s) at 1. apply scan_app; auto. Qed.

Lemma eat_Some c p r : eat c p = Some r <-> p = c :: r.
Proof.
  destruct p as [|d p]; unfold eat; [naive_solver|].
  destruct (Ascii.eqb_spec d c); naive_solver.
Qed.

Lemma eat_cons c p : eat c (c :: p) = Some p.
Proof. by apply eat_Some. Qed.

Lemma eat_ne c p : deref p <> c -> eat c p = None.
Proof. destruct p as [|d p]; [done|]. unfold eat. simpl. by destruct (Ascii.eqb_spec d c). Qed.

Lemma eat_None c p : eat c p = None -> c <> NUL -> deref p <> c.
Proof.
  destruct p as [|d p]; unfold eat; simpl; [congruence|].
  destruct (Ascii.eqb_spec d c); congruence.
Qed.

Lemma none_app stop s1 s2 : none stop (s1 ++ s2) = none stop s1 && none stop s2.
Proof. induction s1 as [|c s1 IH]; simpl; [done|]. by rewrite IH, andb_assoc. Qed.

Lemma none_impl (P Q : ascii -> bool) s :
  (forall c, Q c = true -> P c = true) -> none P s = true -> none Q s = true.
Proof.
  intros HPQ. induction s as [|c s IH]; simpl; [done|]. intros H. unbool.
  destruct (Q c) eqn:E; [apply HPQ in E; congruence|]. simpl. auto.
Qed.

Lemma forallb_none (P Q : ascii -> bool) s :
  (forall c, P c = true -> Q c = false) -> forallb P s = true -> none Q s = true.
Proof.
  intros HPQ. induction s as [|c s IH]; simpl; [done|]. intros [Hc Hs]%andb_prop.
  rewrite (HPQ c Hc). simpl. auto.
Qed.

Lemma none_spec P s : none P s = true <-> forall c, c ∈ s -> P c = false.
Proof.
  induction s as [|c s IH]; simpl; [set_solver|].
  rewrite andb_true_iff, negb_true_iff, IH. set_solver.
Qed.

Lemma c_str_no_nul s : none (Ascii.eqb NUL) (c_str s) = true.
Proof. unfold c_str. destruct (scan _ s) eqn:E. by eapply scan_none. Qed.

Lemma c_str_id s : none (Ascii.eqb NUL) s = true -> c_str s = s.
Proof. intros H. unfold c_str. by rewrite scan_all. Qed.

#[export] Hint Resolve c_str_no_nul c_str_id scan_all scan_none scan_app_id : jkit.
