(* ===== verification/CxxLib.v ===== *)
(** * The parts of the C and C++ standard libraries the sources use

    [<cctype>] in the "C" locale, [strtol]/[atoi] as glibc computes them on a
    64-bit [long], and the operations of [std::string] with positions of type
    [size_t] (an integer below [2 ^ 64], [npos] being [2 ^ 64 - 1]). *)
From stdpp Require Import prelude strings.
From Stdlib Require Import Ascii ZArith Lia.
From S2P Require Import Prelude.

Local Open Scope Z_scope.

(** ** <cctype> *)

Definition is_upper (c : ascii) : bool := (65 <=? uchar c) && (uchar c <=? 90).

Definition is_lower (c : ascii) : bool := (97 <=? uchar c) && (uchar c <=? 122).

Definition is_digit (c : ascii) : bool := (48 <=? uchar c) && (uchar c <=? 57).

(** [isalpha]; bytes above 127 are not letters of the "C" locale. *)
Definition isalpha (c : ascii) : bool := is_upper c || is_lower c.

Definition tolower (c : ascii) : ascii := if is_upper c then char_of_Z (uchar c + 32) else c.

(** Blank, tab, newline, vertical tab, form feed, carriage return. *)
Definition isspace (c : ascii) : bool := (uchar c =? 32) || ((9 <=? uchar c) && (uchar c <=? 13)).

(** Value of a digit of a base up to 36. *)
Definition digit_value (c : ascii) : option Z :=
  if is_digit c then Some (uchar c - 48)
  else if is_upper c then Some (uchar c - 55)
  else if is_lower c then Some (uchar c - 87)
  else None.

(** ** strtol and atoi *)

Fixpoint skip_space (p : str) : str :=
  match p with
  | c :: p' => if isspace c then skip_space p' else p
  | [] => []
  end.

(** The digits of [base] at [p], accumulated on [acc]. *)
Fixpoint read_digits (base acc : Z) (p : str) : Z :=
  match p with
  | c :: p' =>
      match digit_value c with
      | Some d => if d <? base then read_digits base (acc * base + d) p' else acc
      | None => acc
      end
  | [] => acc
  end.

(** In base 16 an optional [0x] or [0X]; a [0x] with no digit after it reads as 0. *)
Definition skip_0x (base : Z) (p : str) : str :=
  match p with
  | "0"%char :: x :: p' => if (base =? 16) && Ascii.eqb (tolower x) "x" then p' else p
  | _ => p
  end.

Definition LONG_MAX : Z := 2 ^ 63 - 1.

Definition LONG_MIN : Z := - 2 ^ 63.

Definition strtol (base : Z) (s : str) : Z :=
  match skip_space (c_str s) with
  | "-"%char :: p => clamp LONG_MIN LONG_MAX (- read_digits base 0 (skip_0x base p))
  | "+"%char :: p => clamp LONG_MIN LONG_MAX (read_digits base 0 (skip_0x base p))
  | p => clamp LONG_MIN LONG_MAX (read_digits base 0 (skip_0x base p))
  end.

(** glibc: [(int) strtol(s, NULL, 10)]. *)
Definition atoi (s : str) : Z := wrap_s 32 (strtol 10 s).

(** The number a string of decimal digits denotes. *)
Definition decimal_value (s : str) : Z := fold_left (fun a c => a * 10 + (uchar c - 48))%Z s 0%Z.

(** ** std::string *)

(** The exceptions of the standard library that the sources can meet. *)
Inductive std_exception : Type :=
| out_of_range
| invalid_argument.

Definition npos : Z := 2 ^ 64 - 1.

Definition str_size (s : str) : Z := Z.of_nat (length s).

(** [s.substr(pos, n)]. *)
Definition substr (s : str) (pos n : Z) : outcome std_exception str :=
  if str_size s <? pos then Throw out_of_range
  else Ret (take (Z.to_nat (Z.min n (str_size s - pos))) (drop (Z.to_nat pos) s)).

(** [s.find(c)]: the first position of [c] from position [i] on. *)
Fixpoint find_from (i : Z) (c : ascii) (s : str) : Z :=
  match s with
  | [] => npos
  | d :: s' => if Ascii.eqb d c then i else find_from (i + 1) c s'
  end.

Definition find_char (s : str) (c : ascii) : Z := find_from 0 c s.

(** [s.find(t)] for a string [t]: whether it is found at all is what the callers ask. *)
Fixpoint is_prefix (t s : str) : bool :=
  match t, s with
  | [], _ => true
  | c :: t', d :: s' => Ascii.eqb c d && is_prefix t' s'
  | _ :: _, [] => false
  end.

Fixpoint contains (s t : str) : bool :=
  is_prefix t s || match s with [] => false | _ :: s' => contains s' t end.

(** The suffix from the last [c], [None] when there is none ([rfind] is [npos]). *)
Fixpoint from_last (c : ascii) (s : str) : option str :=
  match s with
  | [] => None
  | d :: s' =>
      match from_last c s' with
      | Some r => Some r
      | None => if Ascii.eqb d c then Some s else None
      end
  end.

(** ** Facts *)

Lemma tolower_idemp c : tolower (tolower c) = tolower c.
Proof. byte_cases c; reflexivity. Qed.

Lemma tolower_not_upper c : is_upper (tolower c) = false.
Proof. byte_cases c; reflexivity. Qed.

Lemma tolower_id c : is_upper c = false -> tolower c = c.
Proof. unfold tolower. by intros ->. Qed.

Lemma map_tolower_idemp s : map tolower (map tolower s) = map tolower s.
Proof. induction s as [|c s IH]; simpl; [done|]. by rewrite tolower_idemp, IH. Qed.

Lemma clamp_id lo hi z : lo <= z <= hi -> clamp lo hi z = z.
Proof. unfold clamp. lia. Qed.

Lemma clamp_range lo hi z : lo <= hi -> lo <= clamp lo hi z <= hi.
Proof. unfold clamp. lia. Qed.

Lemma wrap_s_id w z : 0 < w -> - 2 ^ (w - 1) <= z < 2 ^ (w - 1) -> wrap_s w z = z.
Proof.
  intros Hw Hz. unfold wrap_s.
  assert (2 ^ w = 2 * 2 ^ (w - 1)) by (rewrite <- Z.pow_succ_r by lia; f_equal; lia).
  rewrite Z.mod_small; lia.
Qed.

Lemma wrap_s_range w z : 0 < w -> - 2 ^ (w - 1) <= wrap_s w z < 2 ^ (w - 1).
Proof.
  intros Hw. unfold wrap_s.
  assert (2 ^ w = 2 * 2 ^ (w - 1)) by (rewrite <- Z.pow_succ_r by lia; f_equal; lia).
  assert (0 < 2 ^ (w - 1)) by (apply Z.pow_pos_nonneg; lia).
  pose proof (Z.mod_pos_bound (z + 2 ^ (w - 1)) (2 ^ w)). lia.
Qed.

Lemma strtol_range base s : LONG_MIN <= strtol base s <= LONG_MAX.
Proof.
  unfold strtol. destruct (skip_space (c_str s)) as [|c p];
    [apply clamp_range; done|].
  byte_cases c; apply clamp_range; done.
Qed.

Lemma read_digits_app base acc s p :
  forallb (fun c => match digit_value c with Some d => d <? base | None => false end) s = true ->
  read_digits base acc (s ++ p) = read_digits base (read_digits base acc s) p.
Proof.
  revert acc. induction s as [|c s IH]; intros acc H; simpl in *; [done|].
  unbool. destruct (digit_value c); [|done]. rewrite H. by apply IH.
Qed.

Lemma find_from_npos i c s : 0 <= i -> i + str_size s <= npos ->
  find_from i c s = npos -> has_char c s = false.
Proof.
  unfold str_size. revert i. induction s as [|d s IH]; intros i Hi Hs H; simpl in *; [done|].
  destruct (Ascii.eqb d c) eqn:E; [lia|].
  unfold has_char. simpl. rewrite Ascii.eqb_sym, E. simpl. eapply IH; [| |exact H]; lia.
Qed.

Lemma find_from_scan i c s : 0 <= i -> i + str_size s <= npos ->
  find_from i c s <> npos ->
  exists a b, s = a ++ c :: b /\ has_char c a = false /\ find_from i c s = i + str_size a.
Proof.
  unfold str_size. revert i. induction s as [|d s IH]; intros i Hi Hs H; simpl in *; [done|].
  destruct (Ascii.eqb d c) eqn:E.
  - apply Ascii.eqb_eq in E. subst. exists [], s. repeat split. simpl. lia.
  - destruct (IH (i + 1)) as (a & b & -> & Ha & Hf); [lia|lia|done|].
    exists (d :: a), b. repeat split.
    + unfold has_char. simpl. by rewrite Ascii.eqb_sym, E.
    + simpl. rewrite Hf. lia.
Qed.

Lemma str_size_app a b : str_size (a ++ b) = str_size a + str_size b.
Proof. unfold str_size. rewrite length_app. lia. Qed.

Lemma str_size_cons c b : str_size (c :: b) = 1 + str_size b.
Proof. unfold str_size. simpl length. lia. Qed.

Lemma str_size_nil : str_size [] = 0.
Proof. done. Qed.

Lemma str_size_nonneg a : 0 <= str_size a.
Proof. unfold str_size. lia. Qed.

Lemma str_size_zero a : (str_size a =? 0) = true <-> a = [].
Proof. unfold str_size. rewrite Z.eqb_eq. destruct a; simpl length; split; intros; done || lia. Qed.
Create Rewrite HintDb str_size.
#[export] Hint Rewrite str_size_app str_size_cons str_size_nil : str_size.

(** Equations and inequalities between sizes of strings and positions. *)
Ltac str_size_lia :=
  autorewrite with str_size in *;
  repeat match goal with
         | |- context [str_size ?s] =>
             lazymatch goal with H : 0 <= str_size s |- _ => fail | _ => pose proof (str_size_nonneg s) end
         | _ : context [str_size ?s] |- _ =>
             lazymatch goal with H : 0 <= str_size s |- _ => fail | _ => pose proof (str_size_nonneg s) end
         end;
  unfold npos in *; lia.

Lemma substr_mid a b c pos n :
  pos = str_size a -> n = str_size b -> substr (a ++ b ++ c) pos n = Ret b.
Proof.
  intros -> ->. unfold substr, str_size. rewrite !length_app.
  destruct (Z.ltb_spec (Z.of_nat (length a + (length b + length c))) (Z.of_nat (length a))); [lia|].
  f_equal. rewrite Nat2Z.id, drop_app_length, Z.min_l by lia.
  rewrite Nat2Z.id. by apply take_app_length.
Qed.

(** A count that reaches the end takes the whole suffix. *)
Lemma substr_end a b pos n : pos = str_size a -> str_size b <= n -> substr (a ++ b) pos n = Ret b.
Proof.
  intros -> Hn. unfold substr, str_size in *. rewrite length_app.
  destruct (Z.ltb_spec (Z.of_nat (length a + length b)) (Z.of_nat (length a))); [lia|].
  f_equal. rewrite Nat2Z.id, drop_app_length, Z.min_r by lia.
  apply take_ge. lia.
Qed.
