(* ===== verification/LUrlParser.v ===== *)
(** * common/LUrlParser.h, common/LUrlParser.cpp: the URL parser

    [ParseURL] walks a C string; the model walks the list of the bytes left
    before the terminating NUL.  Each block of the function is a definition:
    it returns either the error code the block returns with, or the fields
    it read and the pointer it ends at. *)
From stdpp Require Import prelude strings.
From Stdlib Require Import Ascii ZArith Lia.
From S2P Require Import Prelude CxxLib.

Inductive LUrlParserError : Type :=
| LUrlParserError_Ok
| LUrlParserError_Uninitialized
| LUrlParserError_NoUrlCharacter
| LUrlParserError_InvalidSchemeName
| LUrlParserError_NoDoubleSlash
| LUrlParserError_NoAtSign
| LUrlParserError_UnexpectedEndOfLine
| LUrlParserError_NoSlash.

#[global] Instance LUrlParserError_eq_dec : EqDecision LUrlParserError.
Proof. solve_decision. Defined.

Record clParseURL : Type := mk_clParseURL {
  m_ErrorCode : LUrlParserError;
  m_Scheme : str;
  m_Host : str;
  m_Port : str;
  m_Path : str;
  m_Query : str;
  m_Fragment : str;
  m_UserName : str;
  m_Password : str;
}.

(** The constructors: default, and from an error code; every string is empty. *)
Definition clParseURL_of_error (e : LUrlParserError) : clParseURL :=
  mk_clParseURL e [] [] [] [] [] [] [] [].

Definition clParseURL_default : clParseURL := clParseURL_of_error LUrlParserError_Uninitialized.

Definition IsValid (u : clParseURL) : bool :=
  bool_decide (m_ErrorCode u = LUrlParserError_Ok).

Definition scheme_char (c : ascii) : bool :=
  isalpha c || Ascii.eqb c "+" || Ascii.eqb c "-" || Ascii.eqb c ".".

Definition IsSchemeValid (SchemeName : str) : bool := forallb scheme_char SchemeName.

(** [OutPort] is the pointed-to integer, [None] for a null pointer. *)
Definition GetPort (u : clParseURL) (OutPort : option Z) : bool * option Z :=
  if negb (IsValid u) then (false, OutPort)
  else
    let Port := atoi (m_Port u) in
    if (Port <=? 0)%Z || (65535 <? Port)%Z then (false, OutPort)
    else (true, match OutPort with Some _ => Some Port | None => None end).

(** The scheme: up to the first colon, valid, lower-cased, colon skipped. *)
Definition read_scheme (cur : str) : LUrlParserError + (str * str) :=
  match scan (Ascii.eqb ":") cur with
  | (_, []) => inl LUrlParserError_NoUrlCharacter
  | (scheme, _ :: rest) =>
      if negb (IsSchemeValid scheme) then inl LUrlParserError_InvalidSchemeName
      else inr (map tolower scheme, rest)
  end.

Definition skip_double_slash (cur : str) : LUrlParserError + str :=
  match eat "/" cur with
  | None => inl LUrlParserError_NoDoubleSlash
  | Some cur1 =>
      match eat "/" cur1 with
      | None => inl LUrlParserError_NoDoubleSlash
      | Some cur2 => inr cur2
      end
  end.

(** [bHasUserName]: an at sign comes before any slash. *)
Fixpoint has_user_name (p : str) : bool :=
  match p with
  | [] => false
  | c :: p' =>
      if Ascii.eqb c "@" then true
      else if Ascii.eqb c "/" then false
      else has_user_name p'
  end.

(** User name, password, and the pointer after the at sign. *)
Definition read_user_password (cur : str) : LUrlParserError + (str * str * str) :=
  if has_user_name cur then
    let '(user, cur1) := scan (fun c => Ascii.eqb c ":" || Ascii.eqb c "@") cur in
    let '(password, cur2) :=
      match eat ":" cur1 with
      | Some cur1' => scan (fun c => Ascii.eqb c "@") cur1'
      | None => ([], cur1)
      end in
    match eat "@" cur2 with
    | Some cur3 => inr (user, password, cur3)
    | None => inl LUrlParserError_NoAtSign
    end
  else inr ([], [], cur).

(** The host name: through the closing bracket of an IPv6 address, otherwise
    up to a colon or a slash. *)
Fixpoint read_host (bHasBracket : bool) (p : str) : str * str :=
  match p with
  | [] => ([], [])
  | c :: p' =>
      if bHasBracket && Ascii.eqb c "]" then ([c], p')
      else if negb bHasBracket && (Ascii.eqb c ":" || Ascii.eqb c "/") then ([], p)
      else let '(host, rest) := read_host bHasBracket p' in (c :: host, rest)
  end.

Definition read_port (cur : str) : str * str :=
  match eat ":" cur with
  | Some cur' => scan (fun c => Ascii.eqb c "/") cur'
  | None => ([], cur)
  end.

(** The query and the fragment that may follow the path. *)
Definition read_query (cur : str) : str * str :=
  match eat "?" cur with
  | Some cur' => scan (fun c => Ascii.eqb c "#") cur'
  | None => ([], cur)
  end.

Definition read_fragment (cur : str) : str :=
  match eat "#" cur with
  | Some cur' => cur'
  | None => []
  end.

(** Path, query and fragment, or nothing at the end of the string. *)
Definition read_path_query_fragment (cur : str) : LUrlParserError + (str * str * str) :=
  if (length cur =? 0)%nat then inr ([], [], [])
  else
    match eat "/" cur with
    | None => inl LUrlParserError_NoSlash
    | Some cur1 =>
        let '(path, cur2) := scan (fun c => Ascii.eqb c "#" || Ascii.eqb c "?") cur1 in
        let '(query, cur3) := read_query cur2 in
        inr (path, query, read_fragment cur3)
    end.

Definition ParseURL (URL : str) : clParseURL :=
  match read_scheme (c_str URL) with
  | inl e => clParseURL_of_error e
  | inr (scheme, cur1) =>
  match skip_double_slash cur1 with
  | inl e => clParseURL_of_error e
  | inr cur2 =>
  match read_user_password cur2 with
  | inl e => clParseURL_of_error e
  | inr (user, password, cur3) =>
  let '(host, cur4) := read_host (Ascii.eqb (deref cur3) "[") cur3 in
  let '(port, cur5) := read_port cur4 in
  match read_path_query_fragment cur5 with
  | inl e => clParseURL_of_error e
  | inr (path, query, fragment) =>
      mk_clParseURL LUrlParserError_Ok scheme host port path query fragment user password
  end end end end.

Example parse_full :
  ParseURL (lit "HTTP://joe:pw@[::1]:8080/a/b?x=1#top") =
  mk_clParseURL LUrlParserError_Ok (lit "http") (lit "[::1]") (lit "8080") (lit "a/b")
    (lit "x=1") (lit "top") (lit "joe") (lit "pw").
Proof. reflexivity. Qed.
