(* ===== verification/LUrlParserFacts.v ===== *)
(** * Correctness of the URL parser

    A grammar of the URLs the parser accepts ([url_parts], [url_wf], [render])
    and the proof that [ParseURL] accepts exactly that language and returns the
    parts; the classification of the error codes; the port helper. *)
From stdpp Require Import prelude strings.
From Stdlib Require Import Ascii ZArith Lia.
From S2P Require Import Prelude CxxLib LUrlParser.

(** ** The grammar *)

Record url_parts : Type := {
  up_scheme : str;
  up_user : option (str * option str);       (* user name, password *)
  up_host : str;
  up_port : option str;
  up_tail : option (str * option str * option str);   (* path, query, fragment *)
}.

Definition opt_render (pre : ascii) (o : option str) : str :=
  match o with Some s => pre :: s | None => [] end.

Definition render_user (u : option (str * option str)) : str :=
  match u with
  | Some (name, password) => name ++ opt_render ":" password ++ ["@"%char]
  | None => []
  end.

Definition render_tail (t : option (str * option str * option str)) : str :=
  match t with
  | Some (path, query, fragment) =>
      "/"%char :: path ++ opt_render "?" query ++ opt_render "#" fragment
  | None => []
  end.

Definition render (p : url_parts) : str :=
  up_scheme p ++ lit "://" ++ render_user (up_user p) ++
  up_host p ++ opt_render ":" (up_port p) ++ render_tail (up_tail p).

Definition is_any (cs : str) (c : ascii) : bool := existsb (Ascii.eqb c) cs.

(** A host: a name, a bracketed address, or an unclosed bracket that runs to
    the end of the URL. *)
Inductive host_wf (port : option str) (tail : option (str * option str * option str)) : str -> Prop :=
| host_name h : deref h <> "["%char -> none (is_any (lit ":/")) h = true -> host_wf port tail h
| host_bracket b : none (is_any (lit "]")) b = true -> host_wf port tail ("["%char :: b ++ ["]"%char])
| host_open b : none (is_any (lit "]")) b = true -> port = None -> tail = None ->
    host_wf port tail ("["%char :: b).

(** User and password; without them no at sign may come before the first slash. *)
Definition user_wf (p : url_parts) : Prop :=
  match up_user p with
  | Some (name, password) =>
      none (is_any (lit ":@/")) name = true /\ none (is_any (lit "@/")) (default [] password) = true
  | None =>
      none (is_any (lit "@"))
        (fst (scan (Ascii.eqb "/") (up_host p ++ opt_render ":" (up_port p)))) = true
  end.

Definition tail_wf (t : option (str * option str * option str)) : Prop :=
  match t with
  | Some (path, query, fragment) =>
      none (is_any (lit "#?")) path = true /\ none (is_any (lit "#")) (default [] query) = true
  | None => True
  end.

Record url_wf (p : url_parts) : Prop := {
  wf_scheme : forallb scheme_char (up_scheme p) = true;
  wf_user : user_wf p;
  wf_host : host_wf (up_port p) (up_tail p) (up_host p);
  wf_port : none (is_any (lit "/")) (default [] (up_port p)) = true;
  wf_tail : tail_wf (up_tail p);
  wf_nul : none (Ascii.eqb NUL) (render p) = true;
}.

(** What a well-formed URL parses to. *)
Definition result_of (p : url_parts) : clParseURL :=
  let user := default ([], None) (up_user p) in
  let '(path, query, fragment) := default ([], None, None) (up_tail p) in
  mk_clParseURL LUrlParserError_Ok (map tolower (up_scheme p)) (up_host p)
    (default [] (up_port p)) path (default [] query) (default [] fragment)
    (fst user) (default [] (snd user)).

(** ** Each block against its part of the grammar *)

Lemma scheme_char_not_colon s : forallb scheme_char s = true -> none (Ascii.eqb ":") s = true.
Proof. apply forallb_none. intros c. by byte_cases c. Qed.

Lemma read_scheme_spec cur scheme rest :
  read_scheme cur = inr (scheme, rest) <->
  exists s, cur = s ++ ":"%char :: rest /\ forallb scheme_char s = true /\ scheme = map tolower s.
Proof.
  unfold read_scheme, IsSchemeValid. split.
  - destruct (scan _ cur) as [t [|c r]] eqn:E; [done|].
    destruct (forallb scheme_char t) eqn:Ht; [|done]. intros [= <- <-].
    exists t. pose proof (scan_stop _ _ _ _ _ E) as Hc. apply Ascii.eqb_eq in Hc. subst c.
    by rewrite (scan_app_id _ _ _ _ E).
  - intros (s & -> & Hs & ->).
    rewrite scan_app by eauto using scheme_char_not_colon. by rewrite Hs.
Qed.

Lemma skip_double_slash_spec cur rest :
  skip_double_slash cur = inr rest <-> cur = lit "//" ++ rest.
Proof.
  unfold skip_double_slash. split.
  - destruct (eat "/" cur) eqn:E; [|done]. apply eat_Some in E. subst.
    destruct (eat "/" _) eqn:E; [|done]. apply eat_Some in E. subst. by intros [= <-].
  - by intros ->.
Qed.

Lemma has_user_name_scan p : has_user_name p = has_char "@" (fst (scan (Ascii.eqb "/") p)).
Proof.
  induction p as [|c p IH]; [done|]. simpl has_user_name. simpl scan.
  rewrite (Ascii.eqb_sym "/" c).
  destruct (Ascii.eqb_spec c "@") as [->|Hc].
  - simpl. destruct (scan _ p). reflexivity.
  - destruct (Ascii.eqb_spec c "/"); [done|]. rewrite IH.
    destruct (scan _ p) as [t r]. unfold has_char. simpl fst. simpl.
    destruct (Ascii.eqb_spec "@" c); [congruence|done].
Qed.

Lemma has_user_name_app s p :
  none (is_any (lit "@/")) s = true -> has_user_name (s ++ p) = has_user_name p.
Proof.
  induction s as [|c s IH]; simpl; [done|]. intros H. unbool.
  destruct (Ascii.eqb_spec c "@"); [done|]. destruct (Ascii.eqb_spec c "/"); [done|]. auto.
Qed.

Lemma has_user_name_at s p :
  none (is_any (lit "@/")) s = true -> has_user_name (s ++ "@"%char :: p) = true.
Proof. intros H. by rewrite has_user_name_app. Qed.

(** An at sign found before a slash splits the string there. *)
Lemma has_user_name_split p :
  has_user_name p = true -> exists s r, p = s ++ "@"%char :: r /\ none (is_any (lit "@/")) s = true.
Proof.
  induction p as [|c p IH]; simpl; [done|].
  destruct (Ascii.eqb_spec c "@") as [->|Hat]; [by exists [], p|].
  destruct (Ascii.eqb_spec c "/") as [->|Hsl]; [done|]. intros H.
  destruct (IH H) as (s & r & -> & Hs). exists (c :: s), r. split; [done|]. simpl.
  destruct (Ascii.eqb_spec c "@"); [done|]. destruct (Ascii.eqb_spec c "/"); done.
Qed.

(** The part before the at sign is a user name, or a user name, a colon and a password. *)
Lemma split_user s :
  none (is_any (lit "@/")) s = true ->
  exists name pw, s = name ++ opt_render ":" pw /\
    none (is_any (lit ":@/")) name = true /\ none (is_any (lit "@/")) (default [] pw) = true.
Proof.
  induction s as [|c s IH]; simpl; intros H; [by exists [], None|].
  apply andb_prop in H as [Hc Hs]. destruct (IH Hs) as (name & pw & -> & Hn & Hp).
  destruct (Ascii.eqb_spec c ":") as [->|Hcol].
  - by exists [], (Some (name ++ opt_render ":" pw)).
  - exists (c :: name), pw. split; [done|]. split; [|done].
    apply andb_true_intro; split; [|exact Hn].
    char_tests.
Qed.

Lemma none_weaken (cs ds : str) s :
  (forall c, c ∈ ds -> c ∈ cs) -> none (is_any cs) s = true -> none (is_any ds) s = true.
Proof.
  intros Hsub. apply none_impl. intros c. unfold is_any. rewrite !existsb_exists.
  intros (d & Hd & E). exists d. split; [|done]. rewrite <- list_elem_of_In in *. auto.
Qed.

(** Reading back a rendered user name and password. *)
Lemma read_user_render name pw rest :
  none (is_any (lit ":@/")) name = true -> none (is_any (lit "@/")) (default [] pw) = true ->
  read_user_password (render_user (Some (name, pw)) ++ rest) = inr (name, default [] pw, rest).
Proof.
  intros Hn Hp. unfold read_user_password, render_user.
  assert (Hn' : none (is_any (lit "@/")) name = true) by (revert Hn; apply none_weaken; set_solver).
  replace ((name ++ opt_render ":" pw ++ ["@"%char]) ++ rest)
    with (name ++ opt_render ":" pw ++ "@"%char :: rest) by (by rewrite <- !app_assoc).
  assert (has_user_name (name ++ opt_render ":" pw ++ "@"%char :: rest) = true) as ->.
  { rewrite has_user_name_app by done. destruct pw; simpl in *; [|done]. by apply has_user_name_at. }
  rewrite scan_app; [| |right; by destruct pw].
  - destruct pw as [pw|]; [|done]. cbn [opt_render app default] in *.
    rewrite eat_cons, scan_app; [by rewrite eat_cons| |by right].
    revert Hp. apply none_impl. intros c. char_tests.
  - revert Hn. apply none_impl. intros c. char_tests.
Qed.

Lemma read_user_spec cur name pw rest :
  read_user_password cur = inr (name, pw, rest) <->
  (exists pw', cur = render_user (Some (name, pw')) ++ rest /\ pw = default [] pw' /\
     none (is_any (lit ":@/")) name = true /\ none (is_any (lit "@/")) pw = true) \/
  (cur = rest /\ name = [] /\ pw = [] /\ has_user_name cur = false).
Proof.
  split.
  - intros H. destruct (has_user_name cur) eqn:E.
    + left. destruct (has_user_name_split cur E) as (s & r & -> & Hs).
      destruct (split_user s Hs) as (n & p & -> & Hn & Hp).
      replace ((n ++ opt_render ":" p) ++ "@"%char :: r) with (render_user (Some (n, p)) ++ r) in *
        by (simpl; by rewrite <- !app_assoc).
      rewrite read_user_render in H by done. simplify_eq. eauto 10.
    + right. unfold read_user_password in H. rewrite E in H. by simplify_eq.
  - intros [(pw' & -> & -> & Hn & Hp)|(-> & -> & -> & H)]; [by apply read_user_render|].
    unfold read_user_password. by rewrite H.
Qed.

Lemma read_user_suffix cur name pw rest :
  read_user_password cur = inr (name, pw, rest) -> exists u, cur = u ++ rest.
Proof.
  intros [(pw' & -> & _)|(-> & _)]%read_user_spec; [by eexists|]. by exists [].
Qed.

(** The error code for a missing at sign is never returned. *)
Lemma read_user_never_fails cur e : read_user_password cur <> inl e.
Proof.
  intros H. destruct (has_user_name cur) eqn:E.
  - destruct (has_user_name_split cur E) as (s & r & -> & Hs).
    destruct (split_user s Hs) as (n & p & -> & Hn & Hp).
    replace ((n ++ opt_render ":" p) ++ "@"%char :: r) with (render_user (Some (n, p)) ++ r) in *
      by (simpl; by rewrite <- !app_assoc).
    by rewrite read_user_render in H.
  - unfold read_user_password in H. by rewrite E in H.
Qed.

Lemma read_host_name p : read_host false p = scan (is_any (lit ":/")) p.
Proof.
  induction p as [|c p IH]; [done|]. cbn [read_host scan]. simpl andb. simpl negb.
  rewrite IH. unfold is_any. simpl. by rewrite orb_false_r.
Qed.

Lemma read_host_close b rest :
  none (is_any (lit "]")) b = true ->
  read_host true (b ++ "]"%char :: rest) = (b ++ ["]"%char], rest).
Proof.
  induction b as [|c b IH]; simpl; [done|]. intros H. unbool.
  destruct (Ascii.eqb_spec c "]"); [done|]. by rewrite IH.
Qed.

Lemma read_host_open b : none (is_any (lit "]")) b = true -> read_host true b = (b, []).
Proof.
  induction b as [|c b IH]; simpl; [done|]. intros H. unbool.
  destruct (Ascii.eqb_spec c "]"); [done|]. by rewrite IH.
Qed.

Lemma read_host_spec cur host rest :
  read_host (Ascii.eqb (deref cur) "[") cur = (host, rest) ->
  cur = host ++ rest /\
  ((deref host <> "["%char /\ none (is_any (lit ":/")) host = true /\
    (rest = [] \/ is_any (lit ":/") (deref rest) = true)) \/
   (exists b, host = "["%char :: b ++ ["]"%char] /\ none (is_any (lit "]")) b = true) \/
   (exists b, host = "["%char :: b /\ none (is_any (lit "]")) b = true /\ rest = [])).
Proof.
  destruct (Ascii.eqb_spec (deref cur) "[") as [Hb|Hb].
  - destruct cur as [|c cur]; [done|]. simpl in Hb. subst c. simpl.
    destruct (scan (is_any (lit "]")) cur) as [b r] eqn:E.
    pose proof (scan_none _ _ _ _ E) as Hb. rewrite (scan_app_id _ _ _ _ E).
    destruct r as [|d r].
    + rewrite app_nil_r, read_host_open by done. intros [= <- <-].
      split; [by rewrite app_nil_r|]. right; right. eauto.
    + pose proof (scan_stop _ _ _ _ _ E) as Hd. simpl in Hd. rewrite orb_false_r in Hd.
      apply Ascii.eqb_eq in Hd. subst d. rewrite read_host_close by done. intros [= <- <-].
      split; [simpl; by rewrite <- app_assoc|]. right; left. eauto.
  - rewrite read_host_name. intros E. pose proof (scan_app_id _ _ _ _ E) as Hcur.
    split; [done|]. left. split; [|split; [by eapply scan_none|]].
    + subst cur. by destruct host.
    + destruct rest; [by left|right]. by eapply scan_stop.
Qed.

Lemma read_host_render p rest :
  host_wf (up_port p) (up_tail p) (up_host p) ->
  rest = opt_render ":" (up_port p) ++ render_tail (up_tail p) ->
  read_host (Ascii.eqb (deref (up_host p ++ rest)) "[") (up_host p ++ rest) = (up_host p, rest).
Proof.
  intros Hh ->. destruct Hh as [h Hd Hn|b Hb|b Hb Hp Ht].
  - assert (Ascii.eqb (deref (h ++ opt_render ":" (up_port p) ++ render_tail (up_tail p))) "[" = false)
      as ->.
    { apply Ascii.eqb_neq. destruct h as [|c h]; [|done].
      by destruct (up_port p), (up_tail p) as [[[??]?]|]. }
    rewrite read_host_name. apply scan_app; [done|].
    destruct (up_port p), (up_tail p) as [[[??]?]|]; simpl; auto.
  - simpl. rewrite <- app_assoc. simpl. by rewrite read_host_close.
  - rewrite Hp, Ht. simpl. by rewrite app_nil_r, read_host_open.
Qed.

Lemma read_port_spec cur port rest :
  read_port cur = (port, rest) ->
  exists po, cur = opt_render ":" po ++ rest /\ port = default [] po /\
    none (is_any (lit "/")) port = true /\
    (rest = [] \/ deref rest = "/"%char \/ (po = None /\ deref rest <> ":"%char)).
Proof.
  unfold read_port. destruct (eat ":" cur) as [cur'|] eqn:E.
  - apply eat_Some in E as ->. intros H. exists (Some port). simpl.
    rewrite (scan_app_id _ _ _ _ H). repeat split.
    + eapply none_impl; [|by eapply scan_none]. intros c. char_tests.
    + destruct rest as [|c rest]; [by left|]. right; left.
      pose proof (scan_stop _ _ _ _ _ H). unbool. done.
  - intros [= <- <-]. exists None. simpl. apply eat_None in E; [|done]. auto 10.
Qed.

Lemma read_port_render po tail :
  none (is_any (lit "/")) (default [] po) = true ->
  read_port (opt_render ":" po ++ render_tail tail) = (default [] po, render_tail tail).
Proof.
  intros H. destruct po as [port|]; cbn [opt_render app default] in *.
  - unfold read_port. rewrite eat_cons. apply scan_app.
    + revert H. apply none_impl. intros c. char_tests.
    + destruct tail as [[[??]?]|]; auto.
  - unfold read_port. rewrite eat_ne; [done|]. by destruct tail as [[[??]?]|].
Qed.

Lemma read_tail_spec cur path query fragment :
  read_path_query_fragment cur = inr (path, query, fragment) ->
  exists t, cur = render_tail t /\ tail_wf t /\
    (path, query, fragment) =
    (let '(p, q, f) := default ([], None, None) t in (p, default [] q, default [] f)).
Proof.
  unfold read_path_query_fragment. destruct cur as [|c cur]; simpl length; simpl Nat.eqb.
  { intros [= <- <- <-]. by exists None. }
  destruct (eat "/" (c :: cur)) as [cur1|] eqn:E; [|done]. apply eat_Some in E. simplify_eq.
  destruct (scan _ cur1) as [p cur2] eqn:Ep. unfold read_query, read_fragment.
  rewrite (scan_app_id _ _ _ _ Ep).
  assert (Hp : none (is_any (lit "#?")) p = true).
  { eapply none_impl; [|by eapply scan_none]. intros d. char_tests. }
  destruct (eat "?" cur2) as [cur2'|] eqn:E2.
  - apply eat_Some in E2. subst cur2. destruct (scan _ cur2') as [q cur3] eqn:Eq.
    rewrite (scan_app_id _ _ _ _ Eq).
    assert (Hq : none (is_any (lit "#")) q = true).
    { eapply none_impl; [|by eapply scan_none]. intros d. char_tests. }
    destruct (eat "#" cur3) as [f|] eqn:E3; intros [= <- <- <-].
    + apply eat_Some in E3. subst cur3. by exists (Some (p, Some q, Some f)).
    + exists (Some (p, Some q, None)). simpl. destruct cur3 as [|d r]; [done|].
      apply scan_stop in Eq. unbool. subst d. by rewrite eat_cons in E3.
  - destruct (eat "#" cur2) as [f|] eqn:E3; intros [= <- <- <-].
    + apply eat_Some in E3. subst cur2. by exists (Some (p, None, Some f)).
    + exists (Some (p, None, None)). simpl. destruct cur2 as [|d r]; [done|].
      apply scan_stop in Ep. apply orb_prop in Ep as [Ep|Ep]; unbool; subst d.
      * by rewrite eat_cons in E3.
      * by rewrite eat_cons in E2.
Qed.

Lemma read_tail_render t :
  tail_wf t ->
  read_path_query_fragment (render_tail t) =
  inr (let '(p, q, f) := default ([], None, None) t in (p, default [] q, default [] f)).
Proof.
  destruct t as [[[p q] f]|]; [|done]. intros [Hp Hq]. cbn [tail_wf render_tail default] in *.
  unfold read_path_query_fragment. simpl length. simpl Nat.eqb. rewrite eat_cons.
  rewrite scan_app; [|revert Hp; apply none_impl; intros c; char_tests|destruct q, f; auto].
  unfold read_query. destruct q as [q|]; cbn [opt_render app default] in *.
  - rewrite eat_cons, scan_app; [|revert Hq; apply none_impl; intros c; char_tests|destruct f; auto].
    by destruct f.
  - rewrite eat_ne by (by destruct f). by destruct f.
Qed.

(** ** The parser against the grammar *)

(** Before the first slash the tail adds nothing. *)
Lemma scan_slash_tail s t : fst (scan (Ascii.eqb "/") (s ++ render_tail t)) = fst (scan (Ascii.eqb "/") s).
Proof.
  induction s as [|c s IH]; simpl.
  - by destruct t as [[[??]?]|].
  - destruct (Ascii.eqb "/" c); [done|].
    destruct (scan _ (s ++ _)), (scan _ s). simpl in *. by subst.
Qed.

Lemma no_user_has_user_name p :
  up_user p = None ->
  (user_wf p <->
   has_user_name (up_host p ++ opt_render ":" (up_port p) ++ render_tail (up_tail p)) = false).
Proof.
  intros Hu. unfold user_wf. rewrite Hu, has_user_name_scan, app_assoc, scan_slash_tail.
  rewrite has_char_false, none_spec. split.
  - intros H Hin. specialize (H _ Hin). by char_tests.
  - intros H c Hc. unfold is_any. simpl. destruct (Ascii.eqb_spec c "@"); [by subst|done].
Qed.

(** The errors of each block. *)
Lemma read_scheme_error cur e :
  read_scheme cur = inl e ->
  (e = LUrlParserError_NoUrlCharacter /\ has_char ":" cur = false) \/
  (e = LUrlParserError_InvalidSchemeName /\
   exists s rest, cur = s ++ ":"%char :: rest /\ has_char ":" s = false /\ forallb scheme_char s = false).
Proof.
  unfold read_scheme, IsSchemeValid. destruct (scan _ cur) as [s [|c rest]] eqn:E.
  - intros [= <-]. left. split; [done|]. rewrite (scan_app_id _ _ _ _ E), app_nil_r.
    apply has_char_false. intros Hin. apply scan_none in E. rewrite none_spec in E.
    specialize (E _ Hin). by char_tests.
  - destruct (forallb scheme_char s) eqn:Hs; [done|]. intros [= <-]. right. split; [done|].
    pose proof (scan_stop _ _ _ _ _ E) as Hc. unbool. subst c.
    exists s, rest. split; [by rewrite (scan_app_id _ _ _ _ E)|]. split; [|done].
    apply has_char_false. intros Hin. apply scan_none in E. rewrite none_spec in E.
    specialize (E _ Hin). by char_tests.
Qed.

Lemma skip_double_slash_error cur e :
  skip_double_slash cur = inl e -> e = LUrlParserError_NoDoubleSlash /\ is_prefix (lit "//") cur = false.
Proof.
  unfold skip_double_slash. destruct cur as [|c [|d cur]]; unfold eat; char_tests; naive_solver.
Qed.

Lemma read_tail_error cur e :
  read_path_query_fragment cur = inl e ->
  e = LUrlParserError_NoSlash /\ cur <> [] /\ deref cur <> "/"%char.
Proof.
  unfold read_path_query_fragment. destruct cur as [|c cur]; [done|]. simpl length. simpl Nat.eqb.
  destruct (eat "/" (c :: cur)) eqn:E; [by repeat case_match|].
  intros [= <-]. by apply eat_None in E.
Qed.

Lemma IsValid_error e : IsValid (clParseURL_of_error e) = true -> e = LUrlParserError_Ok.
Proof. unfold IsValid. apply bool_decide_eq_true. Qed.

(** A grammar parse of the bytes left to read, rebuilt from the five blocks. *)
Lemma ParseURL_sound URL :
  IsValid (ParseURL URL) = true ->
  exists p, url_wf p /\ c_str URL = render p /\ ParseURL URL = result_of p.
Proof.
  pose proof (c_str_no_nul URL) as Hnul. unfold ParseURL. generalize dependent (c_str URL).
  intros s Hnul.
  destruct (read_scheme s) as [e|[scheme cur1]] eqn:E1.
  { intros ->%IsValid_error. apply read_scheme_error in E1. naive_solver. }
  apply read_scheme_spec in E1 as (sch & -> & Hsch & ->).
  destruct (skip_double_slash cur1) as [e|cur2] eqn:E2.
  { intros ->%IsValid_error. apply skip_double_slash_error in E2. naive_solver. }
  apply skip_double_slash_spec in E2 as ->.
  destruct (read_user_password cur2) as [e|[[name pw] cur3]] eqn:E3.
  { by apply read_user_never_fails in E3. }
  destruct (read_host _ cur3) as [host cur4] eqn:E4. apply read_host_spec in E4 as [-> Hhost].
  destruct (read_port cur4) as [port cur5] eqn:E5.
  apply read_port_spec in E5 as (po & -> & -> & Hpo & _).
  destruct (read_path_query_fragment cur5) as [e|[[path query] fragment]] eqn:E6.
  { intros ->%IsValid_error. apply read_tail_error in E6. naive_solver. }
  apply read_tail_spec in E6 as (t & -> & Ht & Hpqf). intros _.
  assert (Hhw : host_wf po t host).
  { destruct Hhost as [(H1 & H2 & _)|[(b & -> & Hb)|(b & -> & Hb & Hr)]];
      [by constructor|by constructor|].
    apply app_nil in Hr as [Hr1 Hr2]. constructor; [done|by destruct po|by destruct t as [[[??]?]|]]. }
  apply read_user_spec in E3 as [(pw' & -> & -> & Hn & Hp)|(-> & -> & -> & Hno)].
  - exists (Build_url_parts sch (Some (name, pw')) host po t). split; [|split].
    + split; simpl; try done.
    + done.
    + unfold result_of. simpl. destruct t as [[[??]?]|]; by simplify_eq/=.
  - exists (Build_url_parts sch None host po t). split; [|split].
    + split; try done. by apply no_user_has_user_name.
    + done.
    + unfold result_of. simpl. destruct t as [[[??]?]|]; by simplify_eq/=.
Qed.

Lemma ParseURL_complete URL p : url_wf p -> c_str URL = render p -> ParseURL URL = result_of p.
Proof.
  intros Hwf Hu. destruct Hwf as [Hs Hus Hh Hp Ht _]. unfold ParseURL. rewrite Hu. unfold render.
  assert (read_scheme (up_scheme p ++ lit "://" ++ render_user (up_user p) ++
    up_host p ++ opt_render ":" (up_port p) ++ render_tail (up_tail p)) =
    inr (map tolower (up_scheme p), lit "//" ++ render_user (up_user p) ++
    up_host p ++ opt_render ":" (up_port p) ++ render_tail (up_tail p))) as ->.
  { apply read_scheme_spec. by exists (up_scheme p). }
  rewrite (proj2 (skip_double_slash_spec _ _)) by reflexivity.
  set (rest := up_host p ++ _).
  assert (read_user_password (render_user (up_user p) ++ rest) =
    inr (fst (default ([], None) (up_user p)), default [] (snd (default ([], None) (up_user p))), rest))
    as ->.
  { destruct (up_user p) as [[name pw]|] eqn:Eu; simpl.
    - unfold user_wf in Hus. rewrite Eu in Hus. destruct Hus. by apply read_user_render.
    - apply read_user_spec. right. repeat split. by apply no_user_has_user_name. }
  unfold rest. rewrite (read_host_render p _ Hh eq_refl), read_port_render, read_tail_render by done.
  unfold result_of. by destruct (default _ (up_tail p)) as [[??]?].
Qed.

(** ** The port *)

Lemma read_digits_decimal acc s :
  forallb is_digit s = true ->
  read_digits 10 acc s = fold_left (fun a c => a * 10 + (uchar c - 48))%Z s acc.
Proof.
  revert acc. induction s as [|c s IH]; intros acc; simpl; [done|]. intros [Hc Hs]%andb_prop.
  unfold digit_value. rewrite Hc. unfold is_digit in Hc. unbool.
  destruct (Z.ltb_spec (uchar c - 48) 10); [by apply IH|lia].
Qed.

Lemma decimal_value_nonneg acc s :
  forallb is_digit s = true -> (0 <= acc)%Z ->
  (0 <= fold_left (fun a c => a * 10 + (uchar c - 48)) s acc)%Z.
Proof.
  revert acc. induction s as [|c s IH]; intros acc; simpl; [done|]. intros [Hc Hs]%andb_prop Ha.
  apply IH; [done|]. unfold is_digit in Hc. unbool. lia.
Qed.

Lemma strtol_decimal s :
  forallb is_digit s = true -> strtol 10 s = clamp LONG_MIN LONG_MAX (decimal_value s).
Proof.
  intros Hs. unfold strtol.
  rewrite c_str_id by (revert Hs; apply forallb_none; intros c; by byte_cases c).
  assert (skip_space s = s) as ->.
  { destruct s as [|c s]; [done|]. simpl in *. apply andb_prop in Hs as [Hc _].
    byte_cases c; done. }
  assert (Hv : read_digits 10 0 (skip_0x 10 s) = decimal_value s).
  { unfold decimal_value. rewrite <- (read_digits_decimal 0 s Hs). f_equal. 
    destruct s as [|c [|d s]]; [done| |]; byte_cases c; done. }
  destruct s as [|c s]; [done|]. simpl in Hs. apply andb_prop in Hs as [Hc _].
  rewrite <- Hv. byte_cases c; done.
Qed.

Lemma atoi_decimal s :
  forallb is_digit s = true -> (decimal_value s < 2 ^ 31)%Z -> atoi s = decimal_value s.
Proof.
  intros Hs Hv. assert (0 <= decimal_value s)%Z by (by apply decimal_value_nonneg).
  unfold atoi. rewrite strtol_decimal, clamp_id by (done || (unfold LONG_MIN, LONG_MAX; lia)).
  apply wrap_s_id; lia.
Qed.

(** ** Properties *)

(** C6. [ParseURL] accepts exactly the URLs of the grammar, and what it returns
    is the parts of the (only) way the grammar derives the URL: scheme in lower
    case, user name, password, host, port, path, query and fragment, each
    without its delimiters.  Bytes after an embedded NUL are not seen. *)
Theorem ParseURL_refines_grammar URL r :
  (ParseURL URL = r /\ IsValid r = true) <->
  (exists p, url_wf p /\ c_str URL = render p /\ r = result_of p).
Proof.
  split.
  - intros [<- Hv]. by apply ParseURL_sound.
  - intros (p & Hwf & Hu & ->). rewrite (ParseURL_complete _ _ Hwf Hu). split; [done|].
    unfold IsValid, result_of. by destruct (default _ (up_tail p)) as [[??]?].
Qed.

(** C32. The error code says what is wrong with the URL: no colon; an invalid
    byte before the first colon; no double slash after it; or a bracketed host
    followed by a byte that is neither a colon nor a slash.  The codes
    [Uninitialized], [NoAtSign] and [UnexpectedEndOfLine] are never returned,
    and a result with an error has every string empty. *)
Theorem ParseURL_error_codes URL :
  match m_ErrorCode (ParseURL URL) with
  | LUrlParserError_Ok => exists p, url_wf p /\ c_str URL = render p
  | LUrlParserError_NoUrlCharacter => has_char ":" (c_str URL) = false
  | LUrlParserError_InvalidSchemeName =>
      exists s rest, c_str URL = s ++ ":"%char :: rest /\ has_char ":" s = false /\
        forallb scheme_char s = false
  | LUrlParserError_NoDoubleSlash =>
      exists s rest, c_str URL = s ++ ":"%char :: rest /\ forallb scheme_char s = true /\
        is_prefix (lit "//") rest = false
  | LUrlParserError_NoSlash =>
      exists pre b c rest, c_str URL = pre ++ "["%char :: b ++ "]"%char :: c :: rest /\
        has_char "]" b = false /\ c <> ":"%char /\ c <> "/"%char
  | LUrlParserError_Uninitialized | LUrlParserError_NoAtSign
  | LUrlParserError_UnexpectedEndOfLine => False
  end /\
  (IsValid (ParseURL URL) = false ->
   ParseURL URL = clParseURL_of_error (m_ErrorCode (ParseURL URL))).
Proof.
  pose proof (ParseURL_sound URL) as Hok. revert Hok. unfold ParseURL.
  generalize (c_str URL) as s. intros s.
  destruct (read_scheme s) as [e|[scheme cur1]] eqn:E1.
  { apply read_scheme_error in E1 as [[-> H]|[-> H]]; done. }
  apply read_scheme_spec in E1 as (sch & -> & Hsch & ->).
  destruct (skip_double_slash cur1) as [e|cur2] eqn:E2.
  { apply skip_double_slash_error in E2 as [-> H]. simpl. eauto 10. }
  apply skip_double_slash_spec in E2 as ->.
  destruct (read_user_password cur2) as [e|[[name pw] cur3]] eqn:E3.
  { by apply read_user_never_fails in E3. }
  destruct (read_host _ cur3) as [host cur4] eqn:E4. apply read_host_spec in E4 as [-> Hhost].
  destruct (read_port cur4) as [port cur5] eqn:E5.
  apply read_port_spec in E5 as (po & -> & -> & Hpo & Hstop).
  destruct (read_path_query_fragment cur5) as [e|[[path query] fragment]] eqn:E6.
  2:{ intros Hok. split; [|done]. destruct (Hok eq_refl) as (p & Hp & Hr & _). simpl. eauto. }
  apply read_tail_error in E6 as (-> & Hne & Hns). intros _. split; [|done]. simpl.
  destruct cur5 as [|c rest]; [done|]. simpl in *.
  destruct Hstop as [|[|[-> Hc]]]; [done..|]. simpl in *.
  destruct Hhost as [(_ & _ & Hr)|[(b & -> & Hb)|(b & -> & Hb & Hr)]]; [|clear Hpo|done].
  { exfalso. destruct Hr; [done|]. char_tests. }
  apply read_user_suffix in E3 as [u ->].
  exists (sch ++ lit "://" ++ u), b, c, rest. repeat split; [|  |done..].
  - simpl. by rewrite <- !app_assoc.
  - apply has_char_false. intros Hin. rewrite none_spec in Hb. specialize (Hb _ Hin). char_tests.
Qed.

(** C33. [GetPort] answers true only for a port of 1 to 65535 of a successfully
    parsed URL, and then stores it; on failure the integer keeps its value.  A
    port of decimal digits below 2^31 is read exactly.  The comment of the
    declaration calls 0..65535 the range of a valid port; the code refuses 0. *)
Theorem GetPort_spec u out :
  (forall ok out', GetPort u out = (ok, out') ->
    if ok then IsValid u = true /\ (1 <= atoi (m_Port u) <= 65535)%Z /\
               out' = (fun _ => atoi (m_Port u)) <$> out
    else out' = out) /\
  (IsValid u = true -> forallb is_digit (m_Port u) = true -> (decimal_value (m_Port u) < 2 ^ 31)%Z ->
   GetPort u out =
   if bool_decide (1 <= decimal_value (m_Port u) <= 65535)%Z
   then (true, (fun _ => decimal_value (m_Port u)) <$> out) else (false, out)).
Proof.
  unfold GetPort. split.
  - intros ok out'. destruct (IsValid u); simpl; [|by intros [= <- <-]].
    destruct (_ || _) eqn:E; intros [= <- <-]; [done|]. unbool.
    split; [done|]. split; [lia|by destruct out].
  - intros -> Hd Hv. simpl. rewrite atoi_decimal by done.
    destruct (_ || _) eqn:E; case_bool_decide; try (by destruct out).
    + apply orb_prop in E as [E|E]; unbool; lia.
    + unbool; lia.
Qed.
