(* ===== verification/WebUtility.v ===== *)
(** * common/web_utility.hpp: strings of the web

    Case-insensitive comparison and hashing, the case-insensitive multimap,
    percent encoding, content types, and the parsing of request targets and
    query strings. *)
From stdpp Require Import prelude strings.
From Stdlib Require Import Ascii ZArith Lia.
From S2P Require Import Prelude CxxLib.

Local Open Scope Z_scope.

(** ** Case-insensitive keys *)

(** [std::equal] over the first range with a predicate; the ranges have the same length. *)
Fixpoint std_equal (eq : ascii -> ascii -> bool) (s t : str) : bool :=
  match s, t with
  | [], _ => true
  | c :: s', d :: t' => eq c d && std_equal eq s' t'
  | _ :: _, [] => false
  end.

Definition case_insensitive_equal (str1 str2 : str) : bool :=
  (str_size str1 =? str_size str2) &&
  std_equal (fun a b => Ascii.eqb (tolower a) (tolower b)) str1 str2.

Module CaseInsensitiveHash.
Section hash.

(** [std::hash<int>], with values of type [size_t]. *)
Context (hash_int : Z -> Z).

(** One round: [h ^= hash(tolower(c)) + 0x9e3779b9 + (h << 6) + (h >> 2)] on 64 bits. *)
Definition mix (h : Z) (c : ascii) : Z :=
  Z.lxor h
    (wrap_u 64 (wrap_u 64 (wrap_u 64 (wrap_u 64 (hash_int (schar (tolower c))) + 0x9e3779b9)
       + wrap_u 64 (Z.shiftl h 6)) + Z.shiftr h 2)).

Definition hash (s : str) : Z := fold_left mix s 0.

End hash.
End CaseInsensitiveHash.

(** [CaseInsensitiveMultimap], a [std::unordered_multimap]: the entries as they were
    emplaced; the container keeps no order, so that only the entries up to
    permutation are its contents. *)
Abbreviation multimap := (list (str * str)).

Definition emplace (m : multimap) (k v : str) : multimap := m ++ [(k, v)].

(** The values an [equal_range(k)] spans. *)
Definition equal_range (m : multimap) (k : str) : list str :=
  snd <$> filter (fun e => Is_true (case_insensitive_equal k (fst e))) m.

(** ** Percent encoding *)

Module Percent.

Definition hex_chars : str := lit "0123456789ABCDEF".

(** [hex_chars[i]]: a read of the literal, its terminating NUL included. *)
Definition hex_char (i : Z) : outcome std_exception ascii :=
  match (hex_chars ++ [NUL]) !! Z.to_nat i with
  | Some c => if i <? 0 then Undef else Ret c
  | None => Undef
  end.

(** The test of the second branch, on the signed [chr]. *)
Definition escaped (chr : ascii) : bool :=
  Ascii.eqb chr "!" || Ascii.eqb chr "#" || Ascii.eqb chr "$" ||
  ((schar "&" <=? schar chr) && (schar chr <=? schar ",")) ||
  ((schar "/" <=? schar chr) && (schar chr <=? schar ";")) ||
  Ascii.eqb chr "=" || Ascii.eqb chr "?" || Ascii.eqb chr "@" ||
  Ascii.eqb chr "[" || Ascii.eqb chr "]".

Local Open Scope cxx_scope.

Definition encode_char (chr : ascii) : outcome std_exception str :=
  if Ascii.eqb chr " " then Ret ["+"%char]
  else if escaped chr then
    let! hi := hex_char (Z.shiftr (schar chr) 4) in
    let! lo := hex_char (Z.land (schar chr) 15) in
    Ret ["%"%char; hi; lo]
  else Ret [chr].

Definition encode (value : str) : outcome std_exception str :=
  let! parts := omap encode_char value in Ret (concat parts).

(** The loop at index [i] is the call on the suffix from [i]; [i + 2 < size] says
    that two bytes follow. *)
Fixpoint decode (value : str) : str :=
  match value with
  | [] => []
  | chr :: rest =>
      match Ascii.eqb chr "%", rest with
      | true, a :: b :: rest' => char_of_Z (strtol 16 [a; b]) :: decode rest'
      | _, _ => (if Ascii.eqb chr "+" then " "%char else chr) :: decode rest
      end
  end.

End Percent.

(** ** namespace kkurl *)

Module kkurl.

(** [boost::beast::iequals]: a fast loop over equal bytes, then a slow one that
    folds case.  The slow loop loads the byte after each pair it compares before it
    counts down, so that its last load is one past the end of both views; the byte
    is not looked at, and where the views end in a [std::string] or a literal it is
    the NUL.  The load is left out. *)
Fixpoint iequals_slow (lhs rhs : str) : bool :=
  match lhs, rhs with
  | a :: lhs', b :: rhs' => Ascii.eqb (tolower a) (tolower b) && iequals_slow lhs' rhs'
  | _, _ => true
  end.

Fixpoint iequals_fast (lhs rhs : str) : bool :=
  match lhs, rhs with
  | a :: lhs', b :: rhs' =>
      if Ascii.eqb a b then iequals_fast lhs' rhs' else iequals_slow lhs rhs
  | _, _ => true
  end.

Definition iequals (lhs rhs : str) : bool :=
  (str_size rhs =? str_size lhs) && iequals_fast lhs rhs.

(** The extensions in the order they are tried. *)
Definition mime_table : list (str * str) :=
  [(lit ".htm", lit "text/html"); (lit ".html", lit "text/html");
   (lit ".php", lit "text/html"); (lit ".css", lit "text/css");
   (lit ".txt", lit "text/plain"); (lit ".js", lit "application/javascript");
   (lit ".json", lit "application/json"); (lit ".xml", lit "application/xml");
   (lit ".swf", lit "application/x-shockwave-flash"); (lit ".flv", lit "video/x-flv");
   (lit ".png", lit "image/png"); (lit ".jpe", lit "image/jpeg");
   (lit ".jpeg", lit "image/jpeg"); (lit ".jpg", lit "image/jpeg");
   (lit ".gif", lit "image/gif"); (lit ".bmp", lit "image/bmp");
   (lit ".ico", lit "image/vnd.microsoft.icon"); (lit ".tiff", lit "image/tiff");
   (lit ".tif", lit "image/tiff"); (lit ".svg", lit "image/svg+xml");
   (lit ".svgz", lit "image/svg+xml")].

Fixpoint first_iequals (ext : str) (table : list (str * str)) : str :=
  match table with
  | [] => lit "application/octet-stream"
  | (e, ty) :: table' => if iequals ext e then ty else first_iequals ext table'
  end.

Definition mime_type (path : str) : str :=
  let ext := match from_last "." path with None => [] | Some e => e end in
  first_iequals ext mime_table.

Local Open Scope cxx_scope.

(** The new values of [path] and [query_string]; the function returns true. *)
Definition parse_target (target path query_string : str) :
    outcome std_exception (bool * str * str) :=
  let query_start := find_char target "?" in
  if negb (query_start =? npos) then
    let! path' := substr target 0 query_start in
    let! query' := substr target (query_start + 1) npos in
    Ret (true, path', query')
  else Ret (true, target, query_string).

(** The variables of the loop of [parse_query_string]. *)
Record query_state : Type := mk_query_state {
  q_result : multimap;
  name_pos : Z;
  name_end_pos : Z;
  value_pos : Z;
}.

(** Minus one converted to [size_t] is [npos]. *)
Definition query_init : query_state := mk_query_state [] 0 npos npos.

(** The body of the loop at index [c]. *)
Definition query_step (qs : str) (c : Z) (chr : ascii) (st : query_state) :
    outcome std_exception query_state :=
  if Ascii.eqb chr "&" then
    let! name := substr qs (name_pos st)
      (wrap_u 64 ((if name_end_pos st =? npos then c else name_end_pos st) - name_pos st)) in
    let! result :=
      (if negb (str_size name =? 0) then
         let! value := (if value_pos st =? npos then Ret []
                        else substr qs (value_pos st) (wrap_u 64 (c - value_pos st))) in
         Ret (emplace (q_result st) name (Percent.decode value))
       else Ret (q_result st)) in
    Ret (mk_query_state result (c + 1) npos npos)
  else if Ascii.eqb chr "=" then
    Ret (mk_query_state (q_result st) (name_pos st) c (c + 1))
  else Ret st.

Fixpoint query_loop (qs : str) (c : Z) (rest : str) (st : query_state) :
    outcome std_exception query_state :=
  match rest with
  | [] => Ret st
  | chr :: rest' => let! st' := query_step qs c chr st in query_loop qs (c + 1) rest' st'
  end.

(** What follows the loop: the last parameter. *)
Definition query_last (qs : str) (st : query_state) : outcome std_exception multimap :=
  if name_pos st <? str_size qs then
    let! name := substr qs (name_pos st) (wrap_u 64 (name_end_pos st - name_pos st)) in
    if negb (str_size name =? 0) then
      let! value := (if str_size qs <=? value_pos st then Ret []
                     else substr qs (value_pos st) npos) in
      Ret (emplace (q_result st) name (Percent.decode value))
    else Ret (q_result st)
  else Ret (q_result st).

Definition parse_query_string (query_string : str) : outcome std_exception multimap :=
  if str_size query_string =? 0 then Ret []
  else
    let! st := query_loop query_string 0 query_string query_init in
    query_last query_string st.

End kkurl.

Example encode_example : Percent.encode (lit "a b/c%") = Ret (lit "a+b%2Fc%").
Proof. reflexivity. Qed.

Example decode_example : Percent.decode (lit "a+b%2fc%4") = lit "a b/c%4".
Proof. reflexivity. Qed.

Example query_example :
  kkurl.parse_query_string (lit "a=1&b=x%20y&=z&c&d==e&") =
  Ret [(lit "a", lit "1"); (lit "b", lit "x y"); (lit "c", []); (lit "d=", lit "e")].
Proof. vm_compute. reflexivity. Qed.
