(* ===== verification/WebUtilityFacts.v ===== *)
(** * Properties of the web utilities

    Case-insensitive equality is an equivalence that the hash respects; percent
    decoding undoes encoding on text without a percent sign; the index arithmetic
    of the query parser computes the split it is meant to. *)
From stdpp Require Import prelude strings.
From Stdlib Require Import Ascii ZArith Lia.
From S2P Require Import Prelude CxxLib WebUtility.

Local Open Scope Z_scope.

(** ** Specifications *)

(** The pieces of [s] between the bytes [c]. *)
Fixpoint split_on (c : ascii) (s : str) : list str :=
  match s with
  | [] => [[]]
  | d :: s' =>
      if Ascii.eqb d c then [] :: split_on c s'
      else match split_on c s' with
           | seg :: segs => (d :: seg) :: segs
           | [] => [[d]]
           end
  end.

(** What precedes and what follows the last [c]. *)
Fixpoint split_last (c : ascii) (s : str) : option (str * str) :=
  match s with
  | [] => None
  | d :: s' =>
      match split_last c s' with
      | Some (a, b) => Some (d :: a, b)
      | None => if Ascii.eqb d c then Some ([], s') else None
      end
  end.

(** A parameter: the name before the last equals sign, the value after it,
    decoded; no entry for an empty name. *)
Definition query_entry (seg : str) : multimap :=
  let '(name, value) := default (seg, []) (split_last "=" seg) in
  match name with
  | [] => []
  | _ => [(name, Percent.decode value)]
  end.

Definition query_spec (qs : str) : multimap := concat (query_entry <$> split_on "&" qs).

(** The delimiters of URLs and of query strings, and the blank. *)
Definition delimiter (c : ascii) : bool := has_char c (lit " !#$&'()*,/:;=?@[]").

(** ** Case-insensitive equality and hashing *)

Lemma std_equal_tolower s t :
  length s = length t ->
  std_equal (fun a b => Ascii.eqb (tolower a) (tolower b)) s t = true <-> map tolower s = map tolower t.
Proof.
  revert t. induction s as [|c s IH]; intros [|d t]; simpl; intros Hl; try done.
  rewrite andb_true_iff, IH, Ascii.eqb_eq by lia.
  split; [by intros [-> ->]|]. intros H. by injection H.
Qed.

Lemma case_insensitive_equal_spec s t :
  case_insensitive_equal s t = true <-> map tolower s = map tolower t.
Proof.
  unfold case_insensitive_equal, str_size. rewrite andb_true_iff, Z.eqb_eq. split.
  - intros [Hl H]. apply std_equal_tolower; [lia|done].
  - intros H. assert (length s = length t)
      by (by rewrite <- (length_map tolower s), H, length_map).
    split; [lia|]. by apply std_equal_tolower.
Qed.

Definition ci_equiv (s t : str) : Prop := case_insensitive_equal s t = true.

#[global] Instance ci_equiv_equivalence : Equivalence ci_equiv.
Proof.
  unfold ci_equiv. split.
  - intros s. by apply case_insensitive_equal_spec.
  - intros s t. rewrite !case_insensitive_equal_spec. congruence.
  - intros s t u. rewrite !case_insensitive_equal_spec. congruence.
Qed.

Lemma hash_map_tolower hash_int s h :
  fold_left (CaseInsensitiveHash.mix hash_int) (map tolower s) h =
  fold_left (CaseInsensitiveHash.mix hash_int) s h.
Proof.
  revert h. induction s as [|c s IH]; intros h; [done|]. simpl. rewrite IH.
  unfold CaseInsensitiveHash.mix. by rewrite tolower_idemp.
Qed.

#[global] Instance hash_proper hash_int :
  Proper (ci_equiv ==> eq) (CaseInsensitiveHash.hash hash_int).
Proof.
  intros s t H%case_insensitive_equal_spec. unfold CaseInsensitiveHash.hash.
  by rewrite <- (hash_map_tolower _ s), H, hash_map_tolower.
Qed.

#[global] Instance equal_range_proper m : Proper (ci_equiv ==> eq) (equal_range m).
Proof.
  intros s t H%case_insensitive_equal_spec. unfold equal_range. f_equal.
  apply list_filter_iff. intros e. rewrite !Is_true_true, !case_insensitive_equal_spec. by rewrite H.
Qed.

Lemma shiftr_lt h n : 0 <= n -> 0 <= h < 2 ^ 64 -> 0 <= Z.shiftr h n < 2 ^ 64.
Proof.
  intros Hn [Hh1 Hh2]. rewrite Z.shiftr_div_pow2 by done.
  assert (0 < 2 ^ n) by (apply Z.pow_pos_nonneg; lia).
  split; [by apply Z.div_pos|]. apply Z.div_lt_upper_bound; [done|]. nia.
Qed.

(** The exclusive or of two 64-bit values is one. *)
Lemma lxor_lt a b : 0 <= a < 2 ^ 64 -> 0 <= b < 2 ^ 64 -> 0 <= Z.lxor a b < 2 ^ 64.
Proof.
  intros [Ha1 Ha2] [Hb1 Hb2].
  assert (0 <= Z.lxor a b) by (apply Z.lxor_nonneg; lia). split; [done|].
  destruct (Z.eq_dec (Z.lxor a b) 0) as [->|]; [lia|].
  apply Z.log2_lt_pow2; [lia|].
  pose proof (Z.log2_lxor a b Ha1 Hb1).
  assert (forall x, 0 <= x < 2 ^ 64 -> Z.log2 x < 64) as Hlog.
  { intros x Hx. destruct (Z.eq_dec x 0) as [->|]; [done|]. apply Z.log2_lt_pow2; lia. }
  pose proof (Hlog a). pose proof (Hlog b). lia.
Qed.

Lemma mix_range hash_int h c :
  0 <= h < 2 ^ 64 -> 0 <= CaseInsensitiveHash.mix hash_int h c < 2 ^ 64.
Proof.
  intros Hh. unfold CaseInsensitiveHash.mix. apply lxor_lt; [done|].
  unfold wrap_u. by apply Z.mod_pos_bound.
Qed.

Lemma fold_mix_range hash_int s h :
  0 <= h < 2 ^ 64 -> 0 <= fold_left (CaseInsensitiveHash.mix hash_int) s h < 2 ^ 64.
Proof.
  revert h. induction s as [|c s IH]; intros h Hh; [done|]. simpl. apply IH. by apply mix_range.
Qed.

(** ** Percent encoding *)

(** What an escaped byte becomes, and that both digits are read inside the table. *)
Lemma encode_char_total chr :
  exists e, Percent.encode_char chr = Ret e /\
    (chr <> "%"%char -> forall rest, Percent.decode (e ++ rest) = chr :: Percent.decode rest) /\
    none delimiter e = true.
Proof. byte_cases chr; eexists; (split; [reflexivity|]); (split; [|reflexivity]); done. Qed.

Lemma encode_total s :
  exists e, Percent.encode s = Ret e /\
    ("%"%char ∉ s -> Percent.decode e = s) /\
    none delimiter e = true.
Proof.
  induction s as [|c s IH]; [by exists []|].
  destruct IH as (e & He & Hd & Hn). destruct (encode_char_total c) as (f & Hf & Hfd & Hfn).
  unfold Percent.encode in *. simpl. rewrite Hf. simpl.
  apply obind_Ret in He as (parts & -> & [= <-]). simpl.
  exists (f ++ concat parts). split; [done|]. split.
  - rewrite not_elem_of_cons. intros [Hc Hs]. rewrite Hfd by done. by rewrite Hd.
  - by rewrite none_app, Hfn, Hn.
Qed.


(** ** The query parser *)

Lemma split_on_none c s : none (fun d => Ascii.eqb d c) s = true -> split_on c s = [s].
Proof.
  induction s as [|d s IH]; simpl; [done|]. intros H. apply andb_prop in H as [Hd Hs].
  apply negb_true_iff in Hd. by rewrite Hd, IH.
Qed.

Lemma split_on_app c s rest :
  none (fun d => Ascii.eqb d c) s = true -> split_on c (s ++ c :: rest) = s :: split_on c rest.
Proof.
  induction s as [|d s IH]; simpl; [by rewrite Ascii.eqb_refl|]. intros H.
  apply andb_prop in H as [Hd Hs]. apply negb_true_iff in Hd. by rewrite Hd, IH.
Qed.

Lemma split_last_snoc c s d :
  split_last c (s ++ [d]) =
  if Ascii.eqb d c then Some (s, [])
  else match split_last c s with Some (a, b) => Some (a, b ++ [d]) | None => None end.
Proof.
  induction s as [|e s IH]; simpl; [by destruct (Ascii.eqb d c)|].
  rewrite IH. destruct (Ascii.eqb d c); [done|].
  destruct (split_last c s) as [[a b]|]; [done|]. by destruct (Ascii.eqb e c).
Qed.

Lemma split_last_Some c s a b : split_last c s = Some (a, b) -> s = a ++ c :: b.
Proof.
  revert a b. induction s as [|d s IH]; simpl; intros a b H; [done|].
  destruct (split_last c s) as [[a' b']|].
  - simplify_eq. simpl. f_equal. by apply IH.
  - destruct (Ascii.eqb_spec d c); by simplify_eq.
Qed.

Lemma split_last_unique c a b :
  none (fun d => Ascii.eqb d c) b = true -> split_last c (a ++ c :: b) = Some (a, b).
Proof.
  intros Hb. induction a as [|d a IH]; simpl; [|by rewrite IH].
  assert (split_last c b = None) as ->.
  { induction b as [|d b IH]; simpl in *; [done|]. apply andb_prop in Hb as [Hd Hb].
    apply negb_true_iff in Hd. by rewrite IH, Hd. }
  by rewrite Ascii.eqb_refl.
Qed.

Module loop.
Import kkurl.
Section loop.
Context (qs : str) (Hqs : str_size qs < npos).

(** The loop has consumed [before ++ cur], where [cur] is the current parameter:
    its start and the position of its last equals sign are in the variables. *)
Record query_inv (before cur rest : str) (st : query_state) : Prop := {
  inv_qs : qs = before ++ cur ++ rest;
  inv_cur : none (fun d => Ascii.eqb d "&") cur = true;
  inv_name : name_pos st = str_size before;
  inv_eq : match split_last "=" cur with
           | None => name_end_pos st = npos /\ value_pos st = npos
           | Some (name, _) =>
               name_end_pos st = str_size before + str_size name /\
               value_pos st = str_size before + str_size name + 1
           end;
}.

Lemma wrap_sub_id a b : 0 <= b -> b <= a < npos -> wrap_u 64 (a - b) = a - b.
Proof. intros. unfold wrap_u, npos in *. apply Z.mod_small. lia. Qed.


(** Without an equals sign the parameter is a name; with one, the positions
    delimit the name and the value. *)
Lemma read_name before cur rest st stop :
  query_inv before cur rest st ->
  (stop = str_size before + str_size cur \/ (rest = [] /\ stop = npos)) ->
  substr qs (name_pos st)
    (wrap_u 64 ((if name_end_pos st =? npos then stop else name_end_pos st) - name_pos st)) =
  Ret (fst (default (cur, []) (split_last "=" cur))).
Proof.
  intros [E _ Hn Heq] Hstop. rewrite Hn.
  pose proof (str_size_nonneg before). pose proof (str_size_nonneg cur).
  pose proof (str_size_nonneg rest).
  pose proof Hqs as Hq. rewrite E, !str_size_app in Hq.
  destruct (split_last "=" cur) as [[n v]|] eqn:Es; simpl; destruct Heq as [He Hv]; rewrite He.
  - apply split_last_Some in Es as ->. rewrite str_size_app, str_size_cons in *.
    pose proof (str_size_nonneg n). pose proof (str_size_nonneg v).
    destruct (Z.eqb_spec (str_size before + str_size n) npos); [lia|].
    rewrite wrap_sub_id by lia. rewrite E. rewrite <- !app_assoc. apply substr_mid; lia.
  - rewrite Z.eqb_refl. rewrite E. destruct Hstop as [->|[-> ->]].
    + rewrite wrap_sub_id by lia. apply substr_mid; lia.
    + rewrite app_nil_r. apply substr_end; [done|].
      unfold wrap_u, npos in *. rewrite Z.mod_small; lia.
Qed.

Lemma read_value before cur rest st :
  query_inv before cur rest st ->
  (if value_pos st =? npos then Ret []
   else substr qs (value_pos st)
          (wrap_u 64 (str_size before + str_size cur - value_pos st))) =
  Ret (snd (default (cur, []) (split_last "=" cur))).
Proof.
  intros [E _ Hn Heq].
  pose proof (str_size_nonneg before). pose proof (str_size_nonneg rest).
  pose proof Hqs as Hq. rewrite E, !str_size_app in Hq.
  destruct (split_last "=" cur) as [[n v]|] eqn:Es; simpl; destruct Heq as [He Hv]; rewrite Hv;
    [|by rewrite Z.eqb_refl].
  apply split_last_Some in Es as ->. rewrite str_size_app, str_size_cons in *.
  pose proof (str_size_nonneg n). pose proof (str_size_nonneg v).
  destruct (Z.eqb_spec (str_size before + str_size n + 1) npos); [lia|].
  rewrite wrap_sub_id by lia. rewrite E.
  replace (before ++ (n ++ "="%char :: v) ++ rest) with ((before ++ n ++ ["="%char]) ++ v ++ rest)
    by (by rewrite <- !app_assoc).
  apply substr_mid; str_size_lia.
Qed.

Lemma read_last_value before cur st :
  query_inv before cur [] st ->
  (if str_size qs <=? value_pos st then Ret [] else substr qs (value_pos st) npos) =
  Ret (snd (default (cur, []) (split_last "=" cur))).
Proof.
  intros [E _ Hn Heq]. rewrite app_nil_r in E.
  pose proof (str_size_nonneg before). pose proof Hqs as Hq.
  destruct (split_last "=" cur) as [[n v]|] eqn:Es; simpl; destruct Heq as [He Hv]; rewrite Hv.
  - apply split_last_Some in Es as ->.
    assert (E' : qs = (before ++ n ++ ["="%char]) ++ v) by (by rewrite E, <- !app_assoc).
    rewrite E, !str_size_app, str_size_cons in *.
    pose proof (str_size_nonneg n). pose proof (str_size_nonneg v).
    destruct (Z.leb_spec (str_size before + (str_size n + (1 + str_size v)))
                (str_size before + str_size n + 1)).
    + destruct v; [done|]. str_size_lia.
    + rewrite E'. apply substr_end; str_size_lia.
  - destruct (Z.leb_spec (str_size qs) npos); [done|lia].
Qed.

Lemma query_entry_emplace r cur :
  r ++ query_entry cur =
  let '(name, value) := default (cur, []) (split_last "=" cur) in
  if negb (str_size name =? 0) then emplace r name (Percent.decode value) else r.
Proof.
  unfold query_entry. destruct (default _ _) as [[|c name] value]; simpl; [by rewrite app_nil_r|].
  destruct (Z.eqb_spec (str_size (c :: name)) 0) as [Hz|]; [|done]. str_size_lia.
Qed.

Lemma ampersand_step before cur rest st :
  query_inv before cur ("&"%char :: rest) st ->
  query_step qs (str_size before + str_size cur) "&" st =
  Ret (mk_query_state (q_result st ++ query_entry cur) (str_size before + str_size cur + 1) npos npos).
Proof.
  intros Hinv. unfold query_step. rewrite Ascii.eqb_refl.
  rewrite (read_name _ _ _ _ _ Hinv) by (by left). simpl obind.
  rewrite query_entry_emplace. rewrite (read_value _ _ _ _ Hinv).
  destruct (default _ _) as [name value]. simpl. by destruct (str_size name =? 0).
Qed.

(** After the loop, the last parameter. *)
Lemma query_last_correct before cur st :
  query_inv before cur [] st -> query_last qs st = Ret (q_result st ++ query_entry cur).
Proof.
  intros Hinv. unfold query_last. pose proof Hinv as [E _ Hn _]. rewrite app_nil_r in E.
  destruct (Z.ltb_spec (name_pos st) (str_size qs)).
  - pose proof (read_name _ _ _ _ npos Hinv (or_intror (conj eq_refl eq_refl))) as Hr.
    assert (Hsame : (if name_end_pos st =? npos then npos else name_end_pos st) = name_end_pos st)
      by (destruct (Z.eqb_spec (name_end_pos st) npos); congruence).
    rewrite Hsame in Hr. rewrite Hr. simpl obind.
    rewrite (read_last_value _ _ _ Hinv), query_entry_emplace.
    destruct (default _ _) as [name value]. simpl. by destruct (str_size name =? 0).
  - rewrite Hn, E, str_size_app in *.
    destruct cur as [|c cur]; [by rewrite app_nil_r|]. str_size_lia.
Qed.

(** A byte of the current parameter; an equals sign moves its end. *)
Lemma plain_step before cur chr rest st :
  query_inv before cur (chr :: rest) st -> chr <> "&"%char ->
  exists st', query_step qs (str_size before + str_size cur) chr st = Ret st' /\
    q_result st' = q_result st /\ query_inv before (cur ++ [chr]) rest st'.
Proof.
  intros [E Hcur Hn Heq] Hamp. unfold query_step. destruct (Ascii.eqb_spec chr "&"); [done|].
  assert (none (fun d => Ascii.eqb d "&") (cur ++ [chr]) = true).
  { rewrite none_app, Hcur. simpl. by destruct (Ascii.eqb_spec chr "&"). }
  destruct (Ascii.eqb_spec chr "=") as [->|Heqs]; eexists; (split; [done|]); (split; [done|]);
    split; simpl; rewrite ?split_last_snoc; try done; try (by rewrite E, <- !app_assoc).
  destruct (Ascii.eqb_spec chr "="); [done|]. destruct (split_last "=" cur) as [[??]|]; done.
Qed.

Lemma query_loop_correct rest : forall before cur st,
  query_inv before cur rest st ->
  (let! st' := query_loop qs (str_size before + str_size cur) rest st in query_last qs st')%cxx =
  Ret (q_result st ++ concat (query_entry <$> split_on "&" (cur ++ rest))).
Proof.
  induction rest as [|chr rest IH]; intros before cur st Hinv.
  - rewrite app_nil_r, split_on_none by apply Hinv. simpl. rewrite app_nil_r.
    by apply (query_last_correct before).
  - simpl query_loop. destruct (Ascii.eqb_spec chr "&") as [->|Hamp].
    + rewrite (ampersand_step _ _ _ _ Hinv). simpl obind. pose proof Hinv as [E Hcur Hn Heq].
      rewrite split_on_app by done. rewrite fmap_cons. simpl concat.
      assert (query_inv (before ++ cur ++ ["&"%char]) [] rest
        (mk_query_state (q_result st ++ query_entry cur) (str_size before + str_size cur + 1) npos npos))
        as Hinv'.
      { split; simpl; [by rewrite E, <- !app_assoc|done|str_size_lia|done]. }
      specialize (IH _ _ _ Hinv'). simpl in IH. rewrite app_assoc, <- IH. f_equal. f_equal.
      str_size_lia.
    + destruct (plain_step _ _ _ _ _ Hinv Hamp) as (st' & -> & Hr & Hinv').
      simpl obind. rewrite <- Hr. specialize (IH _ _ _ Hinv').
      rewrite <- app_assoc in IH. simpl in IH. rewrite <- IH. f_equal. f_equal. str_size_lia.
Qed.
End loop.
End loop.

Lemma parse_query_string_spec qs :
  str_size qs < npos -> kkurl.parse_query_string qs = Ret (query_spec qs).
Proof.
  intros Hqs. unfold kkurl.parse_query_string. destruct (str_size qs =? 0) eqn:E.
  - apply str_size_zero in E. by subst.
  - apply (loop.query_loop_correct qs Hqs qs [] []). by split.
Qed.

(** ** Properties *)

(** The key equality of the multimap is an equivalence, equal keys hash
    alike whatever [std::hash<int>] is, and the hash is a 64-bit value: what
    [std::unordered_multimap] requires of its two function objects. *)
Theorem case_insensitive_key_laws hash_int :
  Equivalence ci_equiv /\
  (forall s t, case_insensitive_equal s t = true ->
     CaseInsensitiveHash.hash hash_int s = CaseInsensitiveHash.hash hash_int t) /\
  (forall s, 0 <= CaseInsensitiveHash.hash hash_int s < 2 ^ 64).
Proof.
  split; [apply _|]. split.
  - intros s t H. by apply hash_proper.
  - intros s. apply fold_mix_range. lia.
Qed.

(** A percent sign with two letters that read as hexadecimal digits. *)
Lemma encode_keeps_percent a b :
  has_char a (lit "ABCDEFabcdef") = true -> has_char b (lit "ABCDEFabcdef") = true ->
  Percent.encode ["%"%char; a; b] = Ret ["%"%char; a; b] /\
  length (Percent.decode ["%"%char; a; b]) = 1%nat.
Proof.
  intros Ha Hb. unfold has_char in *. simpl in *.
  repeat (apply orb_prop in Ha as [->%Ascii.eqb_eq|Ha]); [..|done];
    repeat (apply orb_prop in Hb as [->%Ascii.eqb_eq|Hb]); done.
Qed.

(** C38. [encode] never reads outside its table of digits, leaves no delimiter
    of a URL or a query in its result, and [decode] gives back any text that
    has no percent sign.  It does not escape the percent sign itself: a text of a
    percent sign and two letters that read as hexadecimal digits is left as it
    is, and [decode] turns its three bytes into one. *)
Theorem Percent_roundtrip s :
  (exists e, Percent.encode s = Ret e /\ none delimiter e = true /\
     ("%"%char ∉ s -> Percent.decode e = s)) /\
  forall a b, has_char a (lit "ABCDEFabcdef") = true -> has_char b (lit "ABCDEFabcdef") = true ->
    Percent.encode ["%"%char; a; b] = Ret ["%"%char; a; b] /\
    length (Percent.decode ["%"%char; a; b]) = 1%nat.
Proof.
  split; [|apply encode_keeps_percent]. destruct (encode_total s) as (e & He & Hd & Hn). eauto.
Qed.

Lemma Percent_roundtrip_witness :
  Percent.encode (lit "%fF") = Ret (lit "%fF") /\ length (Percent.decode (lit "%fF")) = 1%nat.
Proof. apply (proj2 (Percent_roundtrip []) "f"%char "F"%char); reflexivity. Defined.

(** C20. The positions [parse_query_string] keeps compute the intended split:
    parameters between ampersands, each cut at its last equals sign, the value
    percent-decoded, parameters with an empty name dropped.  No [substr] of it
    throws.  The bound is the one [std::string::max_size] guarantees. *)
Theorem parse_query_string_correct qs :
  str_size qs < npos -> kkurl.parse_query_string qs = Ret (query_spec qs).
Proof. apply parse_query_string_spec. Qed.

Lemma parse_query_string_correct_witness :
  str_size (lit "x=1%2B1&&=q&y=a=b&z") < npos /\
  kkurl.parse_query_string (lit "x=1%2B1&&=q&y=a=b&z") =
  Ret [(lit "x", lit "1+1"); (lit "y=a", lit "b"); (lit "z", [])].
Proof.
  assert (str_size (lit "x=1%2B1&&=q&y=a=b&z") < npos) as H by reflexivity.
  split; [exact H|]. exact (parse_query_string_correct _ H).
Defined.

(** A query string for a list of parameters: the values are percent-encoded. *)
Definition encoded (v : str) : str :=
  match Percent.encode v with Ret e => e | _ => [] end.

Definition parameter (e : str * str) : str := fst e ++ ("="%char :: encoded (snd e)).

Fixpoint query_of (l : multimap) : str :=
  match l with
  | [] => []
  | [e] => parameter e
  | e :: l' => parameter e ++ ("&"%char :: query_of l')
  end.

Definition parameter_wf (e : str * str) : Prop :=
  fst e <> [] /\ ("&"%char ∉ fst e) /\ ("%"%char ∉ snd e).

Lemma encoded_spec v : "%"%char ∉ v ->
  Percent.decode (encoded v) = v /\ none delimiter (encoded v) = true.
Proof. intros Hv. unfold encoded. destruct (encode_total v) as (e & -> & Hd & Hn). auto. Qed.

Lemma none_char c s : c ∉ s -> none (fun d => Ascii.eqb d c) s = true.
Proof.
  intros H. apply none_spec. intros d Hd. apply Ascii.eqb_neq. by intros ->.
Qed.

Lemma parameter_no_ampersand e :
  parameter_wf e -> none (fun d => Ascii.eqb d "&") (parameter e) = true.
Proof.
  intros (_ & Hk & Hv). unfold parameter. rewrite none_app, none_char by done. simpl.
  destruct (encoded_spec _ Hv) as [_ Hn]. revert Hn. apply none_impl. intros d.
  by destruct (Ascii.eqb_spec d "&") as [->|].
Qed.

Lemma query_entry_parameter e : parameter_wf e -> query_entry (parameter e) = [e].
Proof.
  intros (Hne & Hk & Hv). destruct e as [k v]. unfold query_entry, parameter. simpl in *.
  destruct (encoded_spec _ Hv) as [Hd Hn]. rewrite split_last_unique.
  - simpl. rewrite Hd. by destruct k.
  - revert Hn. apply none_impl. intros d. by destruct (Ascii.eqb_spec d "=") as [->|].
Qed.

Lemma query_spec_query_of l : Forall parameter_wf l -> query_spec (query_of l) = l.
Proof.
  unfold query_spec. induction 1 as [|e [|e' l] He Hl IH]; [done| |].
  - simpl. rewrite split_on_none by (by apply parameter_no_ampersand). simpl.
    by rewrite query_entry_parameter.
  - cbn [query_of] in *. rewrite split_on_app by (by apply parameter_no_ampersand).
    rewrite fmap_cons. simpl concat. rewrite query_entry_parameter by done. simpl. by rewrite IH.
Qed.

(** C19. A query string built from parameters whose names are not empty and hold no
    ampersand, with the values percent-encoded and the names as they are, parses
    to exactly these parameters, each as often as it was given, provided no value
    holds a percent sign (the encoder leaves it alone).  The multimap gives them
    in no particular order. *)
Theorem query_string_roundtrip l :
  Forall parameter_wf l -> str_size (query_of l) < npos ->
  exists params, kkurl.parse_query_string (query_of l) = Ret params /\ params ≡ₚ l.
Proof. intros Hl Hs. exists l. rewrite parse_query_string_spec by done. by rewrite query_spec_query_of. Qed.

Lemma query_string_roundtrip_witness :
  exists params, kkurl.parse_query_string (lit "q=a%26b+c&q=&n=%31") = Ret params /\
    params ≡ₚ [(lit "q", lit "a&b c"); (lit "q", []); (lit "n", lit "1")].
Proof.
  apply (query_string_roundtrip [(lit "q", lit "a&b c"); (lit "q", []); (lit "n", lit "1")]).
  - repeat (apply Forall_cons; split; [split; [done|]; simpl; rewrite !not_elem_of_cons;
      repeat split; try done; apply not_elem_of_nil|]). apply Forall_nil; done.
  - reflexivity.
Defined.

(** ** Request targets and content types *)

Lemma parse_target_cut target path query :
  str_size target < npos ->
  exists path' query', kkurl.parse_target target path query = Ret (true, path', query') /\
    has_char "?" path' = false /\
    (if has_char "?" target then target = path' ++ "?"%char :: query'
     else path' = target /\ query' = query).
Proof.
  intros Hs. unfold kkurl.parse_target.
  destruct (Z.eqb_spec (find_char target "?") npos) as [E|E]; simpl.
  - apply find_from_npos in E; [|lia..]. exists target, query. by rewrite E.
  - apply find_from_scan in E as (a & b & -> & Ha & Hf); [|lia..]. unfold find_char. rewrite Hf.
    exists a, b.
    rewrite (substr_mid [] a ("?"%char :: b)) by str_size_lia. simpl obind.
    change (a ++ "?"%char :: b) with (a ++ ["?"%char] ++ b) at 1.
    rewrite (app_assoc a ["?"%char] b), substr_end by str_size_lia. simpl.
    repeat split; [done|]. unfold has_char at 1. rewrite existsb_app. simpl. by rewrite orb_true_r.
Qed.

(** [parse_target] cuts the target at its first question mark: the path has
    none, and path, question mark and query string make up the target again.
    Without one the whole target is the path and the caller's query string is
    left as it was.  It always answers true. *)
Theorem parse_target_spec target path query :
  str_size target < npos ->
  exists path' query', kkurl.parse_target target path query = Ret (true, path', query') /\
    has_char "?" path' = false /\
    (if has_char "?" target then target = path' ++ "?"%char :: query'
     else path' = target /\ query' = query).
Proof. apply parse_target_cut. Qed.

Lemma parse_target_spec_witness :
  str_size (lit "/a?b?c") < npos /\
  exists path' query', kkurl.parse_target (lit "/a?b?c") [] [] = Ret (true, path', query') /\
    has_char "?" path' = false /\
    (if has_char "?" (lit "/a?b?c") then lit "/a?b?c" = path' ++ "?"%char :: query'
     else path' = lit "/a?b?c" /\ query' = []).
Proof.
  assert (str_size (lit "/a?b?c") < npos) as H by reflexivity.
  split; [exact H|]. exact (parse_target_spec (lit "/a?b?c") [] [] H).
Defined.

Lemma iequals_spec s t : kkurl.iequals s t = true <-> map tolower s = map tolower t.
Proof.
  rewrite <- case_insensitive_equal_spec. unfold kkurl.iequals, case_insensitive_equal.
  rewrite (Z.eqb_sym (str_size t)). destruct (Z.eqb_spec (str_size s) (str_size t)) as [Hl|]; [|done].
  simpl. enough (kkurl.iequals_fast s t =
    std_equal (fun a b => Ascii.eqb (tolower a) (tolower b)) s t) as -> by done.
  assert (Hl' : length s = length t) by (unfold str_size in Hl; lia). clear Hl.
  assert (Hslow : forall s t, length s = length t -> kkurl.iequals_slow s t =
    std_equal (fun a b => Ascii.eqb (tolower a) (tolower b)) s t).
  { clear. induction s as [|c s IH]; intros [|d t] Hl; simpl in *; try done. by rewrite IH by lia. }
  revert t Hl'. induction s as [|c s IH]; intros [|d t] Hl; simpl in *; try done.
  destruct (Ascii.eqb_spec c d) as [->|].
  - rewrite Ascii.eqb_refl. apply IH. lia.
  - by rewrite Hslow by lia.
Qed.

Lemma first_iequals_lower ext ext' table :
  map tolower ext = map tolower ext' ->
  kkurl.first_iequals ext table = kkurl.first_iequals ext' table.
Proof.
  intros H. induction table as [|[e ty] table IH]; simpl; [done|]. rewrite IH.
  enough (kkurl.iequals ext e = kkurl.iequals ext' e) as -> by done.
  apply eq_true_iff_eq. rewrite !iequals_spec. by rewrite H.
Qed.

(** The extension: from the last dot on. *)
Definition extension (path : str) : str := default [] (from_last "." path).

(** The content type depends on the path only through its extension, and on
    the extension only up to case; an extension of the table, in any case, gives
    the type of the table, every other path gives [application/octet-stream]. *)
Theorem mime_type_spec path :
  (forall e ty, (e, ty) ∈ kkurl.mime_table -> map tolower (extension path) = e ->
     kkurl.mime_type path = ty) /\
  ((forall e ty, (e, ty) ∈ kkurl.mime_table -> map tolower (extension path) <> e) ->
     kkurl.mime_type path = lit "application/octet-stream").
Proof.
  assert (kkurl.mime_type path = kkurl.first_iequals (extension path) kkurl.mime_table) as ->.
  { unfold kkurl.mime_type, extension. by destruct (from_last _ path). }
  split.
  - intros e ty Hin He.
    assert (map tolower e = e) as Hlow by (rewrite <- He; apply map_tolower_idemp).
    rewrite (first_iequals_lower _ e) by (by rewrite Hlow).
    clear He Hlow. unfold kkurl.mime_table in *.
    repeat (apply elem_of_cons in Hin as [[= -> ->]|Hin]; [reflexivity|]). by apply elem_of_nil in Hin.
  - assert (Hlow : Forall (fun e => map tolower (fst e) = fst e) kkurl.mime_table)
      by (repeat constructor).
    intros Hno. induction kkurl.mime_table as [|[e ty] table IH]; simpl; [done|].
    apply Forall_cons in Hlow as [He Hlow]. simpl in He.
    destruct (kkurl.iequals (extension path) e) eqn:E.
    + apply iequals_spec in E. rewrite He in E. by destruct (Hno e ty); [left|].
    + apply IH; [done|]. intros e' ty' Hin. apply (Hno e' ty'). by right.
Qed.
