(* ===== verification/FiberFuture.v ===== *)
(** * common/fiber/use_fiber_future.hpp and impl/use_fiber_future.hpp: the completion token

    [use_future] turns the completion handler of an asynchronous operation into
    a promise and hands the matching future to the caller.  The promise and the
    future of boost.fiber point to one shared state; the model keeps the shared
    states in a heap and passes the heap along. *)
From stdpp Require Import prelude gmap strings.
From Stdlib Require Import Ascii ZArith Lia.
From S2P Require Import Prelude.

(** ** Error codes and exceptions *)

(** [boost::system::error_code]: it converts to true when its value is not 0. *)
Record error_code : Type := mk_error_code {
  ec_category : string;
  ec_value : Z;
}.

#[global] Instance error_code_eq_dec : EqDecision error_code.
Proof. solve_decision. Defined.

Definition ec_failed (ec : error_code) : bool := negb (ec_value ec =? 0)%Z.

Definition ec_ok : error_code := mk_error_code "system" 0.

Inductive exception : Type :=
| system_error (ec : error_code)
| broken_promise
| promise_already_satisfied
| future_already_retrieved
| promise_uninitialized
| future_uninitialized
| user_exception (what : str).

#[global] Instance exception_eq_dec : EqDecision exception.
Proof. solve_decision. Defined.

(** What running a piece of code gives: a value, an exception, the fiber
    suspended at a wait, or undefined behaviour. *)
Inductive result (A : Type) : Type :=
| Value (a : A)
| Exn (e : exception)
| Block
| Stuck.
Arguments Value {A} a.
Arguments Exn {A} e.
Arguments Block {A}.
Arguments Stuck {A}.

Section future.
Context {R : Type}.

(** ** The shared state of a promise and its future *)

Record shared_state : Type := mk_shared_state {
  ready_ : bool;
  except_ : option exception;
  storage_ : option R;
}.

Definition fresh_state : shared_state := mk_shared_state false None None.

(** The shared states allocated so far. *)
Abbreviation heap := (gmap nat shared_state).

Definition M (A : Type) : Type := heap -> result A * heap.

Definition ret {A} (a : A) : M A := fun h => (Value a, h).

Definition throw {A} (e : exception) : M A := fun h => (Exn e, h).

Definition bind {A B} (m : M A) (k : A -> M B) : M B := fun h =>
  match m h with
  | (Value a, h') => k a h'
  | (Exn e, h') => (Exn e, h')
  | (Block, h') => (Block, h')
  | (Stuck, h') => (Stuck, h')
  end.

(** [try { m } catch (...) { handler(std::current_exception()) }]. *)
Definition try_catch {A} (m : M A) (handler : exception -> M A) : M A := fun h =>
  match m h with
  | (Exn e, h') => handler e h'
  | r => r
  end.

(** [set_value_] and [set_exception_]: a ready state throws, another becomes ready. *)
Definition state_set_value (l : nat) (value : R) : M unit := fun h =>
  match h !! l with
  | None => (Stuck, h)
  | Some s =>
      if ready_ s then (Exn promise_already_satisfied, h)
      else (Value tt, <[l := mk_shared_state true (except_ s) (Some value)]> h)
  end.

Definition state_set_exception (l : nat) (e : exception) : M unit := fun h =>
  match h !! l with
  | None => (Stuck, h)
  | Some s =>
      if ready_ s then (Exn promise_already_satisfied, h)
      else (Value tt, <[l := mk_shared_state true (Some e) (storage_ s)]> h)
  end.

(** [owner_destroyed_]. *)
Definition state_owner_destroyed (l : nat) : M unit := fun h =>
  match h !! l with
  | None => (Stuck, h)
  | Some s => if ready_ s then (Value tt, h) else state_set_exception l broken_promise h
  end.

(** [get_]: waits for the state to be ready, rethrows its exception or returns its value. *)
Definition state_get (l : nat) : M R := fun h =>
  match h !! l with
  | None => (Stuck, h)
  | Some s =>
      if negb (ready_ s) then (Block, h)
      else match except_ s, storage_ s with
           | Some e, _ => (Exn e, h)
           | None, Some v => (Value v, h)
           | None, None => (Stuck, h)
           end
  end.

(** ** Promise and future *)

Record promise : Type := mk_promise { obtained_ : bool; future_ : option nat }.

Record future : Type := mk_future { state_ : option nat }.

(** [promise_base]'s constructor allocates the shared state. *)
Definition promise_new : M promise := fun h =>
  let l := fresh (dom h) in
  (Value (mk_promise false (Some l)), <[l := fresh_state]> h).

(** The promise after the call and the future. *)
Definition promise_get_future (p : promise) : M (promise * future) :=
  if obtained_ p then throw future_already_retrieved
  else match future_ p with
       | None => throw promise_uninitialized
       | Some l => ret (mk_promise true (Some l), mk_future (Some l))
       end.

Definition promise_set_value (p : promise) (value : R) : M unit :=
  match future_ p with
  | None => throw promise_uninitialized
  | Some l => state_set_value l value
  end.

Definition promise_set_exception (p : promise) (e : exception) : M unit :=
  match future_ p with
  | None => throw promise_uninitialized
  | Some l => state_set_exception l e
  end.

(** [~promise_base]. *)
Definition promise_destroy (p : promise) : M unit :=
  match future_ p with
  | Some l => if obtained_ p then state_owner_destroyed l else ret tt
  | None => ret tt
  end.

(** [future::get] empties the future before it waits: the future afterwards, and the read. *)
Definition future_get (f : future) : future * M R :=
  match state_ f with
  | None => (f, throw future_uninitialized)
  | Some l => (mk_future None, state_get l)
  end.

(** ** Completion handlers of use_future *)

(** [promise_invoke_and_set]: the result of the function object, or the exception it throws. *)
Definition promise_invoke_and_set {Args} (p : promise) (f : Args -> M R) (args : Args) : M unit :=
  try_catch (bind (f args) (promise_set_value p)) (promise_set_exception p).

(** [promise_invoker::operator()]: runs [f_] and stores what it throws. *)
Definition promise_invoker (p_ : promise) (f_ : M unit) : M unit :=
  try_catch f_ (promise_set_exception p_).

(** [promise_executor::dispatch] invokes at once; [post] and [defer] give the
    same function object to the system executor. *)
Definition promise_executor_dispatch (p_ : promise) (f : M unit) : M unit := promise_invoker p_ f.

(** [create_promise] of a handler under construction. *)
Definition create_promise : M promise := promise_new.

(** The handlers of the completion signatures [void(T)], [void(error_code, T)] and
    [void(exception_ptr, T)]. *)
Definition promise_handler_1 (p_ : promise) (arg : R) : M unit := promise_set_value p_ arg.

Definition promise_handler_ec_1 (p_ : promise) (ec : error_code) (arg : R) : M unit :=
  if ec_failed ec then promise_set_exception p_ (system_error ec) else promise_set_value p_ arg.

Definition promise_handler_ex_1 (p_ : promise) (ex : option exception) (arg : R) : M unit :=
  match ex with
  | Some e => promise_set_exception p_ e
  | None => promise_set_value p_ arg
  end.

(** [packaged_handler::operator()]: the handler of [use_future(f)]. *)
Definition packaged_handler {Args} (p_ : promise) (function_ : Args -> M R) (args : Args) : M unit :=
  promise_invoke_and_set p_ function_ args.

(** [asio_handler_invoke]: the executor of the handler dispatches the call. *)
Definition asio_handler_invoke (p_ : promise) (call : M unit) : M unit :=
  promise_executor_dispatch p_ call.

(** Starting an operation: the handler is built from the token, the async result
    takes its future, and both the handler's promise and the future come out. *)
Definition async_initiate : M (promise * future) :=
  bind create_promise promise_get_future.

End future.
Arguments shared_state : clear implicits.
Arguments M : clear implicits.

Abbreviation heap R := (gmap nat (shared_state R)).

(** The signatures without a value, [void()], [void(error_code)], [void(exception_ptr)]:
    the future is a [future<void>]. *)
Definition promise_handler_0 (p_ : promise) : M unit unit := promise_set_value p_ tt.

Definition promise_handler_ec_0 (p_ : promise) (ec : error_code) : M unit unit :=
  if ec_failed ec then promise_set_exception p_ (system_error ec) else promise_set_value p_ tt.

Definition promise_handler_ex_0 (p_ : promise) (ex : option exception) : M unit unit :=
  match ex with
  | Some e => promise_set_exception p_ e
  | None => promise_set_value p_ tt
  end.

(** The signatures with two and more values, forwarded as the tuple [Ts]. *)
Definition promise_handler_n {Ts} (p_ : promise) (args : Ts) : M Ts unit := promise_set_value p_ args.

Definition promise_handler_ec_n {Ts} (p_ : promise) (ec : error_code) (args : Ts) : M Ts unit :=
  if ec_failed ec then promise_set_exception p_ (system_error ec) else promise_set_value p_ args.

Definition promise_handler_ex_n {Ts} (p_ : promise) (ex : option exception) (args : Ts) : M Ts unit :=
  match ex with
  | Some e => promise_set_exception p_ e
  | None => promise_set_value p_ args
  end.

(** A completion: its signature and its arguments. *)
Inductive completion : Type -> Type :=
| Done0 : completion unit
| DoneEc0 (ec : error_code) : completion unit
| DoneEx0 (ex : option exception) : completion unit
| Done1 {A} (arg : A) : completion A
| DoneEc1 {A} (ec : error_code) (arg : A) : completion A
| DoneEx1 {A} (ex : option exception) (arg : A) : completion A
| DoneN {Ts} (args : Ts) : completion Ts
| DoneEcN {Ts} (ec : error_code) (args : Ts) : completion Ts
| DoneExN {Ts} (ex : option exception) (args : Ts) : completion Ts.

(** [promise_handler_selector]: the signature picks the handler. *)
Definition promise_handler_selector {R} (p_ : promise) (c : completion R) : M R unit :=
  match c in completion T return M T unit with
  | Done0 => promise_handler_0 p_
  | DoneEc0 ec => promise_handler_ec_0 p_ ec
  | DoneEx0 ex => promise_handler_ex_0 p_ ex
  | Done1 arg => promise_handler_1 p_ arg
  | DoneEc1 ec arg => promise_handler_ec_1 p_ ec arg
  | DoneEx1 ex arg => promise_handler_ex_1 p_ ex arg
  | DoneN args => promise_handler_n p_ args
  | DoneEcN ec args => promise_handler_ec_n p_ ec args
  | DoneExN ex args => promise_handler_ex_n p_ ex args
  end.

(** ** A whole operation: start it, complete it, read the future *)

(** The operation is started, its completion is delivered through the
    handler's executor, and the caller reads the future. *)
Definition use_future_run {R} (c : completion R) : M R R :=
  bind async_initiate (fun '(p, f) =>
    bind (asio_handler_invoke p (promise_handler_selector p c)) (fun _ => snd (future_get f))).

(** The same with [use_future(function)]. *)
Definition use_future_package_run {R Args} (function : Args -> M R R) (args : Args) : M R R :=
  bind async_initiate (fun '(p, f) =>
    bind (asio_handler_invoke p (packaged_handler p function args)) (fun _ => snd (future_get f))).

(** ** Lemmas *)

(** What a completion means for the caller: an error code that says failure or a
    non-null exception pointer is thrown, otherwise the arguments are the value. *)
Definition completion_result {R} (c : completion R) : result R :=
  match c in completion T return result T with
  | Done0 => Value tt
  | DoneEc0 ec => if ec_failed ec then Exn (system_error ec) else Value tt
  | DoneEx0 ex => match ex with Some e => Exn e | None => Value tt end
  | Done1 arg => Value arg
  | DoneEc1 ec arg => if ec_failed ec then Exn (system_error ec) else Value arg
  | DoneEx1 ex arg => match ex with Some e => Exn e | None => Value arg end
  | DoneN args => Value args
  | DoneEcN ec args => if ec_failed ec then Exn (system_error ec) else Value args
  | DoneExN ex args => match ex with Some e => Exn e | None => Value args end
  end.


(** A promise whose future was handed out and whose state is at [l]. *)
Abbreviation obtained l := (mk_promise true (Some l)).

Section facts.
Context {R : Type}.
Implicit Types (h : heap R) (p : promise) (f : future).

Lemma async_initiate_spec h :
  exists l, h !! l = None /\
    async_initiate h = (Value (mk_promise true (Some l), mk_future (Some l)), <[l := fresh_state]> h).
Proof.
  exists (fresh (dom h)). split; [|done].
  apply not_elem_of_dom. apply is_fresh.
Qed.

(** The shared state that holds a result. *)
Definition state_of (r : result R) : shared_state R :=
  match r with
  | Value v => mk_shared_state true None (Some v)
  | Exn e => mk_shared_state true (Some e) None
  | _ => fresh_state
  end.


Lemma set_value_fresh h l v :
  h !! l = Some fresh_state ->
  state_set_value l v h = (Value tt, <[l := state_of (Value v)]> h).
Proof. intros Hl. unfold state_set_value. by rewrite Hl. Qed.

Lemma set_exception_fresh h l e :
  h !! l = Some fresh_state ->
  state_set_exception l e h = (Value tt, <[l := state_of (Exn e)]> h).
Proof. intros Hl. unfold state_set_exception. by rewrite Hl. Qed.

(** Reading a state that holds a result. *)
Lemma state_get_of h l r :
  h !! l = Some (state_of r) -> r <> Stuck -> state_get l h = (r, h).
Proof. intros Hl Hr. unfold state_get. rewrite Hl. by destruct r. Qed.

End facts.

Lemma selector_fresh {R} (h : heap R) l (c : completion R) :
  h !! l = Some fresh_state ->
  promise_handler_selector (obtained l) c h = (Value tt, <[l := state_of (completion_result c)]> h).
Proof.
  intros Hl. destruct c; simpl;
    unfold promise_handler_0, promise_handler_1, promise_handler_n,
      promise_handler_ec_0, promise_handler_ec_1, promise_handler_ec_n,
      promise_handler_ex_0, promise_handler_ex_1, promise_handler_ex_n,
      promise_set_value, promise_set_exception;
    repeat case_match; simplify_eq/=;
    first [by apply set_value_fresh | by apply set_exception_fresh].
Qed.

(** A completion through the handler's executor, on a state not yet ready. *)
Lemma invoke_fresh {R} (h : heap R) l (c : completion R) :
  h !! l = Some fresh_state ->
  asio_handler_invoke (obtained l) (promise_handler_selector (obtained l) c) h =
  (Value tt, <[l := state_of (completion_result c)]> h).
Proof.
  intros Hl. unfold asio_handler_invoke, promise_executor_dispatch, promise_invoker, try_catch.
  by rewrite selector_fresh.
Qed.

Lemma completion_result_not_stuck {R} (c : completion R) :
  completion_result c <> Stuck /\ completion_result c <> Block.
Proof. destruct c; simpl; repeat case_match; done. Qed.

(** Completing again throws and changes nothing. *)
Lemma selector_ready {R} (h : heap R) l s (c : completion R) :
  h !! l = Some s -> ready_ s = true ->
  promise_handler_selector (obtained l) c h = (Exn promise_already_satisfied, h).
Proof.
  intros Hl Hr. destruct c; simpl;
    unfold promise_handler_0, promise_handler_1, promise_handler_n,
      promise_handler_ec_0, promise_handler_ec_1, promise_handler_ec_n,
      promise_handler_ex_0, promise_handler_ex_1, promise_handler_ex_n,
      promise_set_value, promise_set_exception, state_set_value, state_set_exception; simpl;
    repeat case_match; simplify_eq/=; congruence.
Qed.

(** ** Properties *)

(** C10. An operation started with [use_future] gives its caller exactly what it
    completes with: the value of a successful completion, a [system_error] that
    carries a failed error code, or the exception of a non-null exception
    pointer; for each of the nine completion signatures. *)
Theorem use_future_delivers {R} (c : completion R) (h : heap R) :
  exists h', use_future_run c h = (completion_result c, h').
Proof.
  unfold use_future_run, bind at 1. destruct (async_initiate_spec h) as (l & Hl & ->).
  unfold bind. rewrite invoke_fresh by apply lookup_insert_eq. simpl.
  rewrite (state_get_of _ _ (completion_result c)); [by eexists|by apply lookup_insert_eq|].
  apply completion_result_not_stuck.
Qed.

(** With [use_future(function)] the future receives what the function returns
    on the completion's arguments, or the exception it throws. *)
Theorem use_future_package_delivers {R Args} (function : Args -> R + exception) (args : Args) (h : heap R) :
  exists h',
    use_future_package_run
      (fun a => match function a with inl v => ret v | inr e => throw e end) args h =
    (match function args with inl v => Value v | inr e => Exn e end, h').
Proof.
  unfold use_future_package_run, bind at 1. destruct (async_initiate_spec h) as (l & Hl & ->).
  unfold bind, asio_handler_invoke, promise_executor_dispatch, promise_invoker, packaged_handler,
    promise_invoke_and_set, bind, try_catch.
  destruct (function args) as [v|e]; unfold ret, throw, promise_set_value, promise_set_exception; simpl.
  - rewrite set_value_fresh by apply lookup_insert_eq. simpl.
    rewrite (state_get_of _ _ (Value v)); [by eexists|by apply lookup_insert_eq|done].
  - rewrite set_exception_fresh by apply lookup_insert_eq. simpl.
    rewrite (state_get_of _ _ (Exn e)); [by eexists|by apply lookup_insert_eq|done].
Qed.

(** The future of a started operation stays blocked until a completion; a
    handler destroyed without completing breaks the promise; the first completion
    decides, and a second one throws [promise_already_satisfied] and changes
    nothing, also when it goes through the handler's executor. *)
Theorem future_single_assignment {R} (h : heap R) (c1 c2 : completion R) :
  exists l h0, async_initiate h = (Value (obtained l, mk_future (Some l)), h0) /\
    state_get l h0 = (Block, h0) /\
    (exists h1, promise_destroy (obtained l) h0 = (Value tt, h1) /\
       state_get l h1 = (Exn broken_promise, h1)) /\
    (exists h1, promise_handler_selector (obtained l) c1 h0 = (Value tt, h1) /\
       state_get l h1 = (completion_result c1, h1) /\
       promise_handler_selector (obtained l) c2 h1 = (Exn promise_already_satisfied, h1) /\
       asio_handler_invoke (obtained l) (promise_handler_selector (obtained l) c2) h1 =
         (Exn promise_already_satisfied, h1) /\
       promise_destroy (obtained l) h1 = (Value tt, h1)).
Proof.
  destruct (async_initiate_spec h) as (l & Hl & Hi). exists l, (<[l := fresh_state]> h).
  set (h0 := <[l := fresh_state]> h) in *.
  assert (Hf : h0 !! l = Some fresh_state) by apply lookup_insert_eq.
  split; [done|]. split; [by apply (state_get_of _ _ Block)|]. split.
  - exists (<[l := state_of (Exn broken_promise)]> h0).
    unfold promise_destroy, state_owner_destroyed. simpl. rewrite Hf. simpl.
    rewrite set_exception_fresh by done. split; [done|].
    by apply state_get_of; [apply lookup_insert_eq|].
  - set (h1 := <[l := state_of (completion_result c1)]> h0). exists h1.
    assert (H1 : h1 !! l = Some (state_of (completion_result c1))) by apply lookup_insert_eq.
    destruct (completion_result_not_stuck c1) as [Hs Hb].
    assert (Hr : ready_ (state_of (completion_result c1)) = true) by (by destruct (completion_result c1)).
    split; [by apply selector_fresh|]. split; [by apply state_get_of|].
    pose proof (selector_ready _ _ _ c2 H1 Hr) as H2. split; [done|]. split.
    + unfold asio_handler_invoke, promise_executor_dispatch, promise_invoker, try_catch.
      rewrite H2. unfold promise_set_exception, state_set_exception. simpl. by rewrite H1, Hr.
    + unfold promise_destroy, state_owner_destroyed. simpl. by rewrite H1, Hr.
Qed.
