(* ===== verification/FiberToken.v ===== *)
(** * common/fiber/use_fiber_future.hpp: tokens, handlers and their executor

    FiberFuture.v models what a handler does to its promise.  Here the objects
    around it: the token [use_future] with its allocator, the handlers built from
    it, which share one promise object through a pointer, the async results that
    take the future, and the executor of a handler, which runs a function at once
    ([dispatch]) or leaves it to the system executor ([post], [defer]). *)
From stdpp Require Import prelude gmap strings.
From Stdlib Require Import Ascii ZArith Lia.
From S2P Require Import Prelude FiberFuture.

(** ** The token *)

Record use_future_t (A : Type) : Type := mk_use_future_t { allocator_ : A }.
Arguments mk_use_future_t {A} _.
Arguments allocator_ {A} _.

Record packaged_token (F A : Type) : Type := mk_packaged_token {
  pt_function : F;
  pt_allocator : A;
}.
Arguments mk_packaged_token {F A} _ _.
Arguments pt_function {F A} _.
Arguments pt_allocator {F A} _.

(** [operator[]] and [rebind] name another allocator, whatever the token has. *)
Definition subscript {A B} (u : use_future_t A) (allocator : B) : use_future_t B := mk_use_future_t allocator.

Definition rebind {A B} (u : use_future_t A) (allocator : B) : use_future_t B := mk_use_future_t allocator.

Definition get_allocator {A} (u : use_future_t A) : A := allocator_ u.

(** [use_future(f)]. *)
Definition use_future_call {F A} (u : use_future_t A) (f : F) : packaged_token F A :=
  mk_packaged_token f (allocator_ u).

Section token.
Context {R : Type}.

(** ** The objects of the running program *)

(** The shared states, the promise objects the handlers point to, and what the
    system executor still has to run: a [promise_invoker], which is the pointer
    to a promise and a function. *)
Record world : Type := mk_world {
  w_states : heap R;
  w_promises : gmap nat promise;
  w_posted : list (nat * M R unit);
}.

Definition W (A : Type) : Type := world -> result A * world.

Definition wret {A} (a : A) : W A := fun w => (Value a, w).

Definition wbind {A B} (m : W A) (k : A -> W B) : W B := fun w =>
  match m w with
  | (Value a, w') => k a w'
  | (Exn e, w') => (Exn e, w')
  | (Block, w') => (Block, w')
  | (Stuck, w') => (Stuck, w')
  end.

(** Code that touches the shared states only. *)
Definition lift {A} (m : M R A) : W A := fun w =>
  let '(r, h) := m (w_states w) in (r, mk_world h (w_promises w) (w_posted w)).

(** The promise object behind a pointer. *)
Definition load_promise (p_ : nat) : W promise := fun w =>
  match w_promises w !! p_ with
  | Some p => (Value p, w)
  | None => (Stuck, w)
  end.

Definition store_promise (p_ : nat) (p : promise) : W unit := fun w =>
  (Value tt, mk_world (w_states w) (<[p_ := p]> (w_promises w)) (w_posted w)).

(** ** Handlers *)

(** [promise_handler] and [packaged_handler]: the pointer and the allocator. *)
Record handler (A : Type) : Type := mk_handler {
  h_p : nat;
  h_allocator : A;
}.
Arguments mk_handler {A} _ _.
Arguments h_p {A} _.
Arguments h_allocator {A} _.

(** [create_promise]: a new promise object with its shared state. *)
Definition create_promise_object : W nat :=
  wbind (lift create_promise) (fun p w =>
    let p_ := fresh (dom (w_promises w)) in
    (Value p_, mk_world (w_states w) (<[p_ := p]> (w_promises w)) (w_posted w))).

Definition promise_handler_new {A} (u : use_future_t A) : W (handler A) :=
  wbind create_promise_object (fun p_ => wret (mk_handler p_ (get_allocator u))).

(** The handler of a packaged token also has the function. *)
Definition packaged_handler_new {F A} (t : packaged_token F A) : W (handler A * F) :=
  wbind create_promise_object (fun p_ =>
    wret (mk_handler p_ (pt_allocator t), pt_function t)).

(** [get_future] of the promise behind a handler's pointer. *)
Definition handler_get_future {A} (h : handler A) : W future :=
  wbind (load_promise (h_p h)) (fun p =>
    wbind (lift (promise_get_future p)) (fun '(p', f) =>
      wbind (store_promise (h_p h) p') (fun _ => wret f))).

(** [promise_async_result] and [packaged_async_result]: the constructor takes
    the future and [get] moves it out, leaving an empty one. *)
Definition async_result_new {A} (h : handler A) : W future := handler_get_future h.

Definition async_result_get (future_ : future) : future * future := (future_, mk_future None).

(** ** The executor of a handler *)

(** A copy of the pointer; two executors are equal when the pointers are. *)
Definition get_executor {A} (h : handler A) : nat := h_p h.

Definition executor_eqb (a b : nat) : bool := bool_decide (a = b).

(** Running a [promise_invoker]. *)
Definition run_invoker (p_ : nat) (f : M R unit) : W unit :=
  wbind (load_promise p_) (fun p => lift (promise_invoker p f)).

Definition executor_dispatch (p_ : nat) (f : M R unit) : W unit := run_invoker p_ f.

(** The system executor keeps the invoker until one of its threads runs it. *)
Definition system_post (p_ : nat) (f : M R unit) : W unit := fun w =>
  (Value tt, mk_world (w_states w) (w_promises w) (w_posted w ++ [(p_, f)])).

Definition executor_post (p_ : nat) (f : M R unit) : W unit := system_post p_ f.

Definition executor_defer (p_ : nat) (f : M R unit) : W unit := system_post p_ f.

(** ** Operations *)

(** What completes an operation: the arguments of its signature, for the plain
    token, or the outcome of the packaged function on them. *)
Inductive operation : Type :=
| Plain (c : completion R)
| Packaged (Args : Type) (function : Args -> R + exception) (args : Args).

(** The call of the completion handler. *)
Definition handler_call (p : promise) (o : operation) : M R unit :=
  match o with
  | Plain c => promise_handler_selector p c
  | Packaged _ function args =>
      packaged_handler p (fun a => match function a with inl v => ret v | inr e => throw e end) args
  end.

(** How the completion reaches the handler. *)
Inductive via : Type := ViaDispatch | ViaPost | ViaDefer.

(** An operation under way: its handler, the call its completion makes, and the
    future its caller got. *)
Record started (A : Type) : Type := mk_started {
  st_handler : handler A;
  st_call : operation;
  st_future : future;
}.
Arguments mk_started {A} _ _ _.
Arguments st_handler {A} _.
Arguments st_call {A} _.
Arguments st_future {A} _.

(** The handler is built from [use_future] or from [use_future(function)], then
    the async result from the handler, and its [get] is the caller's future. *)
Definition build_handler {A} (u : use_future_t A) (o : operation) : W (handler A * operation) :=
  match o with
  | Plain c => wbind (promise_handler_new u) (fun h => wret (h, Plain c))
  | Packaged Args function args =>
      wbind (packaged_handler_new (use_future_call u function)) (fun '(h, function_) =>
        wret (h, Packaged Args function_ args))
  end.

Definition initiate {A} (u : use_future_t A) (o : operation) : W (started A) :=
  wbind (build_handler u o) (fun '(h, call) =>
    wbind (async_result_new h) (fun f => wret (mk_started h call (async_result_get f).1))).

Definition complete {A} (s : started A) (v : via) : W unit :=
  wbind (load_promise (h_p (st_handler s))) (fun p =>
    let ex := get_executor (st_handler s) in
    match v with
    | ViaDispatch => executor_dispatch ex (handler_call p (st_call s))
    | ViaPost => executor_post ex (handler_call p (st_call s))
    | ViaDefer => executor_defer ex (handler_call p (st_call s))
    end).

Fixpoint initiate_all {A} (u : use_future_t A) (ops : list operation) : W (list (started A)) :=
  match ops with
  | [] => wret []
  | o :: ops' => wbind (initiate u o) (fun s =>
      wbind (initiate_all u ops') (fun ss => wret (s :: ss)))
  end.

Fixpoint complete_all {A} (ss : list (started A)) (vs : list via) : W unit :=
  match ss, vs with
  | s :: ss', v :: vs' => wbind (complete s v) (fun _ => complete_all ss' vs')
  | _, _ => wret tt
  end.

(** The threads of the system executor run what was posted, in some order. *)
Fixpoint run_all (tasks : list (nat * M R unit)) : W unit :=
  match tasks with
  | [] => wret tt
  | (p_, f) :: tasks' => wbind (run_invoker p_ f) (fun _ => run_all tasks')
  end.

End token.
Arguments world : clear implicits.
Arguments operation : clear implicits.
Arguments started : clear implicits.
Arguments W : clear implicits.
Arguments mk_handler {A} _ _.
Arguments h_p {A} _.
Arguments h_allocator {A} _.
Arguments mk_started {R A} _ _ _.
Arguments st_handler {R A} _.
Arguments st_call {R A} _.
Arguments st_future {R A} _.

(** ** Lemmas *)

Section facts.
Context {R A : Type}.
Implicit Types (w : world R) (h : heap R) (o : operation R).

(** What an operation means for its caller. *)
Definition operation_result o : result R :=
  match o with
  | Plain c => completion_result c
  | Packaged _ function args => match function args with inl v => Value v | inr e => Exn e end
  end.

Lemma operation_result_ready o : ready_ (state_of (operation_result o)) = true /\
  operation_result o <> Stuck.
Proof.
  destruct o as [c|T f a]; simpl.
  - destruct (completion_result_not_stuck c) as [? ?]. by destruct (completion_result c).
  - by destruct (f a).
Qed.

(** The invoker of a handler call, on a state not yet ready. *)
Lemma invoker_fresh h l o :
  h !! l = Some fresh_state ->
  promise_invoker (obtained l) (handler_call (obtained l) o) h =
    (Value tt, <[l := state_of (operation_result o)]> h).
Proof.
  intros Hl. destruct o as [c|T f a]; [by apply invoke_fresh|].
  unfold promise_invoker, handler_call, packaged_handler, promise_invoke_and_set, bind, try_catch,
    promise_set_value, promise_set_exception. simpl.
  destruct (f a) as [v|e]; unfold ret, throw; simpl.
  - by rewrite set_value_fresh.
  - by rewrite set_exception_fresh.
Qed.

(** An operation under way in a world: its promise, whose future was taken, and
    the shared state. *)
Record under_way w (s : started R A) (l : nat) : Prop := {
  uw_promise : w_promises w !! h_p (st_handler s) = Some (obtained l);
  uw_future : st_future s = mk_future (Some l);
}.

Lemma initiate_spec (u : use_future_t A) o w :
  exists p_ l, w_promises w !! p_ = None /\ w_states w !! l = None /\
    initiate u o w = (Value (mk_started (mk_handler p_ (allocator_ u)) o (mk_future (Some l))),
      mk_world (<[l := fresh_state]> (w_states w)) (<[p_ := obtained l]> (w_promises w)) (w_posted w)).
Proof.
  exists (fresh (dom (w_promises w))), (fresh (dom (w_states w))).
  split; [apply not_elem_of_dom, is_fresh|]. split; [apply not_elem_of_dom, is_fresh|].
  destruct o as [c|T f a]; unfold initiate, build_handler, promise_handler_new, packaged_handler_new,
    create_promise_object, async_result_new, handler_get_future, wbind, lift, create_promise, promise_new,
    load_promise, store_promise, wret; simpl; rewrite lookup_insert_eq; simpl; by rewrite insert_insert_eq.
Qed.

(** Starting several operations: each has a promise and a shared state of its own. *)
Record fleet_started (u : use_future_t A) (ops : list (operation R)) w (ss : list (started R A)) (ls : list nat) w1
    : Prop := {
  fs_calls : st_call <$> ss = ops;
  fs_allocator s : s ∈ ss -> h_allocator (st_handler s) = allocator_ u;
  fs_posted : w_posted w1 = w_posted w;
  fs_under_way : Forall2 (under_way w1) ss ls;
  fs_states : NoDup ls;
  fs_promises : NoDup ((fun s => h_p (st_handler s)) <$> ss);
  fs_fresh l : l ∈ ls -> w_states w1 !! l = Some fresh_state;
  fs_old_state l x : w_states w !! l = Some x -> w_states w1 !! l = Some x /\ l ∉ ls;
  fs_old_promise p_ x : w_promises w !! p_ = Some x ->
    w_promises w1 !! p_ = Some x /\ p_ ∉ (fun s => h_p (st_handler s)) <$> ss;
}.

Lemma initiate_all_spec u ops w : exists ss ls w1,
  initiate_all u ops w = (Value ss, w1) /\ fleet_started u ops w ss ls w1.
Proof.
  revert w. induction ops as [|o ops IH]; intros w; simpl.
  { exists [], [], w. split; [done|]. split; simpl; try done; try constructor; set_solver. }
  unfold wbind at 1. destruct (initiate_spec u o w) as (p_ & l & Hp & Hl & ->).
  set (w' := mk_world _ _ _). destruct (IH w') as (ss & ls & w1 & E & [F1 F2 F3 F4 F5 F6 F7 F8 F9]).
  unfold wbind. rewrite E. eexists (_ :: ss), (l :: ls), w1. split; [done|].
  destruct (F8 l fresh_state) as [Hl1 Hl2]; [apply lookup_insert_eq|].
  destruct (F9 p_ (obtained l)) as [Hp1 Hp2]; [apply lookup_insert_eq|].
  split; simpl; [by rewrite <- F1| |done| |by constructor|by constructor| | |].
  - intros s [->|Hs]%elem_of_cons; [done|by apply F2].
  - by constructor.
  - intros k [->|Hk]%elem_of_cons; [done|by apply F7].
  - intros k x Hk. assert (k <> l) by (intros ->; congruence).
    destruct (F8 k x) as [H1 H2]; [by simpl; rewrite lookup_insert_ne|]. split; [done|set_solver].
  - intros k x Hk. assert (k <> p_) by (intros ->; congruence).
    destruct (F9 k x) as [H1 H2]; [by simpl; rewrite lookup_insert_ne|]. split; [done|set_solver].
Qed.

(** ** Completions *)

(** An operation with its shared state, and what its handler gives to an executor. *)
Abbreviation job := (started R A * nat)%type.

Definition task (j : job) : nat * M R unit :=
  (h_p (st_handler j.1), handler_call (obtained j.2) (st_call j.1)).

(** The states after the jobs have run. *)
Fixpoint settle (js : list job) h : heap R :=
  match js with
  | [] => h
  | j :: js' => settle js' (<[j.2 := state_of (operation_result (st_call j.1))]> h)
  end.

Lemma settle_other js h l : l ∉ js.*2 -> settle js h !! l = h !! l.
Proof.
  revert h. induction js as [|j js IH]; intros h Hl; simpl in *; [done|].
  rewrite IH by set_solver. apply lookup_insert_ne. set_solver.
Qed.

Lemma settle_job js h j : NoDup js.*2 -> j ∈ js ->
  settle js h !! j.2 = Some (state_of (operation_result (st_call j.1))).
Proof.
  revert h. induction js as [|i js IH]; intros h Hn Hj; simpl in *; [by apply elem_of_nil in Hj|].
  apply NoDup_cons in Hn as [Hi Hn]. apply elem_of_cons in Hj as [->|Hj]; [|by apply IH].
  rewrite settle_other by done. apply lookup_insert_eq.
Qed.

(** Jobs that can run: their promise is there and their state is not ready. *)
Definition runnable w (j : job) : Prop :=
  w_promises w !! h_p (st_handler j.1) = Some (obtained j.2) /\ w_states w !! j.2 = Some fresh_state.

Lemma run_task w j : runnable w j ->
  run_invoker (task j).1 (task j).2 w =
    (Value tt, mk_world (settle [j] (w_states w)) (w_promises w) (w_posted w)).
Proof.
  intros [Hp Hf]. unfold run_invoker, wbind, load_promise, task. simpl. rewrite Hp.
  unfold lift. by rewrite invoker_fresh.
Qed.

(** Running a job leaves the others runnable. *)
Lemma runnable_other w i j posted : i.2 <> j.2 -> runnable w j ->
  runnable (mk_world (settle [i] (w_states w)) (w_promises w) posted) j.
Proof. intros Hne [Hp Hf]. split; simpl; [done|]. by rewrite lookup_insert_ne. Qed.

Lemma run_all_spec js w : NoDup js.*2 -> Forall (runnable w) js ->
  run_all (task <$> js) w = (Value tt, mk_world (settle js (w_states w)) (w_promises w) (w_posted w)).
Proof.
  revert w. induction js as [|j js IH]; intros w Hn Hr; simpl in *; [by destruct w|].
  apply NoDup_cons in Hn as [Hj Hn]. apply Forall_cons in Hr as [Hr Hrs].
  unfold wbind. change (h_p _) with (task j).1. change (handler_call _ _) with (task j).2.
  rewrite run_task by done. rewrite IH; [done|done|].
  apply Forall_forall. intros i Hi. rewrite Forall_forall in Hrs.
  apply runnable_other; [|by apply Hrs]. intros E. apply Hj. rewrite E. by apply list_elem_of_fmap_2.
Qed.

(** The jobs completed at once, and those left to the system executor. *)
Definition at_once (v : via) : bool := match v with ViaDispatch => true | _ => false end.

Fixpoint jobs_via (now : bool) (js : list job) (vs : list via) : list job :=
  match js, vs with
  | j :: js', v :: vs' =>
      if Bool.eqb (at_once v) now then j :: jobs_via now js' vs' else jobs_via now js' vs'
  | _, _ => []
  end.

Lemma complete_spec w j v : runnable w j ->
  complete j.1 v w =
    (Value tt, if at_once v then mk_world (settle [j] (w_states w)) (w_promises w) (w_posted w)
               else mk_world (w_states w) (w_promises w) (w_posted w ++ [task j])).
Proof.
  intros [Hp Hf]. unfold complete, wbind, load_promise. rewrite Hp.
  destruct v; simpl; [|done..]. by apply (run_task w j).
Qed.

Lemma complete_all_spec js vs w :
  length vs = length js -> NoDup js.*2 -> Forall (runnable w) js ->
  complete_all js.*1 vs w =
    (Value tt, mk_world (settle (jobs_via true js vs) (w_states w)) (w_promises w)
                 (w_posted w ++ (task <$> jobs_via false js vs))).
Proof.
  revert vs w. induction js as [|j js IH]; intros [|v vs] w Hlen Hn Hr; simpl in *; try done.
  { rewrite app_nil_r. by destruct w. }
  apply NoDup_cons in Hn as [Hj Hn]. apply Forall_cons in Hr as [Hr Hrs].
  unfold wbind. rewrite complete_spec by done. rewrite IH; [|lia|done|].
  - destruct (at_once v); simpl; [done|]. by rewrite <- app_assoc.
  - destruct (at_once v); [|done]. apply Forall_forall. intros i Hi. rewrite Forall_forall in Hrs.
    apply runnable_other; [|by apply Hrs]. intros E. apply Hj. rewrite E. by apply list_elem_of_fmap_2.
Qed.

Lemma jobs_via_sublist now js vs : sublist (jobs_via now js vs) js.
Proof.
  revert vs. induction js as [|j js IH]; intros [|v vs]; simpl; [constructor|apply sublist_nil_l..|].
  destruct (Bool.eqb _ _); constructor; apply IH.
Qed.

Lemma jobs_via_NoDup now js vs : NoDup js.*2 -> NoDup (jobs_via now js vs).*2.
Proof. intros Hn. eapply sublist_NoDup; [exact Hn|]. apply fmap_sublist, jobs_via_sublist. Qed.

(** Which of the two lists a job is in. *)
Lemma jobs_via_elem now js vs i j v :
  js !! i = Some j -> vs !! i = Some v -> NoDup js.*2 ->
  if Bool.eqb (at_once v) now then j ∈ jobs_via now js vs else j.2 ∉ (jobs_via now js vs).*2.
Proof.
  revert vs i. induction js as [|k js IH]; intros [|u vs] [|i] Hj Hv Hn; simplify_eq/=;
    apply NoDup_cons in Hn as [Hk Hn].
  - destruct (Bool.eqb _ _); [set_solver|]. intros Hin. apply Hk.
    eapply sublist_subseteq; [|exact Hin]. apply fmap_sublist, jobs_via_sublist.
  - specialize (IH vs i Hj Hv Hn). assert (j.2 <> k.2).
    { intros E. apply Hk. rewrite <- E. apply list_elem_of_fmap_2. by eapply list_elem_of_lookup_2. }
    destruct (Bool.eqb (at_once v) now), (Bool.eqb (at_once u) now); set_solver.
Qed.

Lemma jobs_settle now js vs h i j v :
  js !! i = Some j -> vs !! i = Some v -> NoDup js.*2 ->
  settle (jobs_via now js vs) h !! j.2 =
    if Bool.eqb (at_once v) now then Some (state_of (operation_result (st_call j.1))) else h !! j.2.
Proof.
  intros Hj Hv Hn. pose proof (jobs_via_elem now js vs i j v Hj Hv Hn) as He.
  destruct (Bool.eqb _ _); [|by apply settle_other].
  apply settle_job; [by apply jobs_via_NoDup|done].
Qed.

(** The jobs of the operations started. *)
Lemma started_jobs u ops w ss ls w1 :
  fleet_started u ops w ss ls w1 ->
  let js := zip ss ls in js.*1 = ss /\ NoDup js.*2 /\ Forall (runnable w1) js /\ length js = length ops.
Proof.
  intros [F1 _ _ F4 F5 _ F7 _ _] js. assert (Hl : length ss = length ls) by by eapply Forall2_length.
  assert (H1 : js.*1 = ss) by (apply fst_zip; lia).
  split; [done|]. split; [by unfold js; rewrite snd_zip by lia|]. split.
  - apply Forall_forall. intros [s l] Hin. apply list_elem_of_lookup in Hin as [i Hi].
    apply lookup_zip_Some in Hi as [Hs Hi]. destruct (Forall2_lookup_lr _ _ _ _ _ _ F4 Hs Hi) as [Hp _].
    split; [done|]. apply F7. by eapply list_elem_of_lookup_2.
  - rewrite <- (length_fmap fst), H1, <- F1. symmetry. apply length_fmap.
Qed.

(** The posted jobs run in any order, after the dispatched ones: the states of
    a job before and after. *)
Lemma jobs_outcome js vs w order :
  length vs = length js -> NoDup js.*2 -> Forall (runnable w) js ->
  order ≡ₚ (task <$> jobs_via false js vs) ->
  let w2 := mk_world (settle (jobs_via true js vs) (w_states w)) (w_promises w)
              (task <$> jobs_via false js vs) in
  exists w3, run_all order w2 = (Value tt, w3) /\
  forall i j v, js !! i = Some j -> vs !! i = Some v ->
    w_states w2 !! j.2 = Some (if at_once v then state_of (operation_result (st_call j.1)) else fresh_state) /\
    w_states w3 !! j.2 = Some (state_of (operation_result (st_call j.1))).
Proof.
  intros Hlen Hn Hr Ho w2. apply Permutation_map_inv in Ho as (js' & -> & Hp).
  assert (Hn' : NoDup js'.*2) by (rewrite <- Hp; by apply jobs_via_NoDup).
  assert (H2 : forall i j v, js !! i = Some j -> vs !! i = Some v ->
    w_states w2 !! j.2 = Some (if at_once v then state_of (operation_result (st_call j.1)) else fresh_state)).
  { intros i j v Hj Hv. simpl. rewrite (jobs_settle true js vs _ i j v Hj Hv Hn).
    destruct (at_once v); simpl; [done|]. rewrite Forall_forall in Hr. apply Hr. by eapply list_elem_of_lookup_2. }
  rewrite run_all_spec; [|done|].
  - eexists. split; [done|]. intros i j v Hj Hv. split; [by eapply H2|]. simpl.
    pose proof (jobs_via_elem false js vs i j v Hj Hv Hn) as He.
    destruct (at_once v) eqn:Ev; simpl in He.
    + rewrite settle_other by by rewrite <- Hp. etrans; [exact (H2 i j v Hj Hv)|]. by rewrite Ev.
    + apply settle_job; [done|]. by rewrite <- Hp.
  - apply Forall_forall. intros j Hj. rewrite <- Hp in Hj.
    assert (Hin : j ∈ js) by (eapply sublist_subseteq; [apply jobs_via_sublist|exact Hj]).
    apply list_elem_of_lookup in Hin as [i Hi].
    destruct (lookup_lt_is_Some_2 vs i) as [v Hv]; [rewrite Hlen; by eapply lookup_lt_Some|].
    rewrite Forall_forall in Hr. destruct (Hr j) as [Hpr _]; [by eapply list_elem_of_lookup_2|].
    split; [done|]. rewrite (H2 i j v Hi Hv). destruct (at_once v) eqn:Ev; [|done].
    pose proof (jobs_via_elem false js vs i j v Hi Hv Hn) as He. rewrite Ev in He. simpl in He.
    destruct He. by apply list_elem_of_fmap_2.
Qed.

(** ** Property *)

(** C24. Operations started with one token, plain or with [use_future(function)],
    completed through the executors of their handlers: each handler has the
    allocator of the token and an executor of its own; a completion that is
    dispatched is seen by its future at once, and one that is posted or deferred
    leaves its future waiting until the system executor has run it; whatever the
    order in which the posted completions run, every future then gives what its
    own operation completed with. *)
Theorem token_operations (u : use_future_t A) (ops : list (operation R)) (vs : list via) w :
  w_posted w = [] -> length vs = length ops ->
  exists ss w1 w2, initiate_all u ops w = (Value ss, w1) /\ complete_all ss vs w1 = (Value tt, w2) /\
    Forall (fun s => h_allocator (st_handler s) = get_allocator u) ss /\
    (forall i j s t, ss !! i = Some s -> ss !! j = Some t ->
       executor_eqb (get_executor (st_handler s)) (get_executor (st_handler t)) = bool_decide (i = j)) /\
    forall order, order ≡ₚ w_posted w2 ->
      exists w3, run_all order w2 = (Value tt, w3) /\
      forall i s o v, ss !! i = Some s -> ops !! i = Some o -> vs !! i = Some v ->
        ((future_get (st_future s)).2 (w_states w2)).1 = (if at_once v then operation_result o else Block) /\
        ((future_get (st_future s)).2 (w_states w3)).1 = operation_result o.
Proof.
  intros Hw Hlen. destruct (initiate_all_spec u ops w) as (ss & ls & w1 & E & F).
  destruct (started_jobs _ _ _ _ _ _ F) as (H1 & Hn & Hr & Hjs).
  destruct F as [F1 F2 F3 F4 _ F6 _ _ _]. rewrite <- Hlen in Hjs.
  pose proof (complete_all_spec (zip ss ls) vs w1 (eq_sym Hjs) Hn Hr) as Hc.
  rewrite H1, F3, Hw in Hc. simpl in Hc.
  eexists ss, w1, _. split; [done|]. split; [exact Hc|]. split; [by apply Forall_forall|]. split.
  { intros i j s t Hs Ht. unfold executor_eqb, get_executor. apply bool_decide_ext. split; [|naive_solver].
    intros Eq. apply (NoDup_lookup _ i j (h_p (st_handler s)) F6); rewrite list_lookup_fmap.
    - by rewrite Hs.
    - rewrite Ht. simpl. by rewrite Eq. }
  intros order Ho. destruct (jobs_outcome _ vs w1 order (eq_sym Hjs) Hn Hr Ho) as (w3 & Hrun & Hst).
  exists w3. split; [exact Hrun|]. intros i s o v Hs Hopi Hv.
  destruct (lookup_lt_is_Some_2 ls i) as [l Hl].
  { rewrite <- (Forall2_length _ _ _ F4). by eapply lookup_lt_Some. }
  destruct (Forall2_lookup_lr _ _ _ _ _ _ F4 Hs Hl) as [_ ->].
  destruct (Hst i (s, l) v) as [Hb Ha]; [by apply lookup_zip_Some|done|]. simpl in *.
  assert (Hso : st_call s = o).
  { rewrite <- F1, list_lookup_fmap, Hs in Hopi. by injection Hopi. }
  rewrite Hso in *. destruct (operation_result_ready o) as [_ Hne].
  rewrite (state_get_of _ l (operation_result o) Ha Hne). split; [|done].
  destruct (at_once v); [by rewrite (state_get_of _ l (operation_result o) Hb Hne)|].
  by rewrite (state_get_of _ l Block Hb).
Qed.

End facts.

(** Two operations: a posted read of three bytes and a packaged function that throws. *)
Definition sample_ops : list (operation Z) :=
  [Plain (DoneEc1 ec_ok 3%Z); Packaged bool (fun b => if b then inl 1%Z else inr broken_promise) false].

Lemma token_operations_witness : exists ss w1 w2,
  initiate_all (rebind (subscript (mk_use_future_t tt) true) 7) sample_ops (mk_world ∅ ∅ []) = (Value ss, w1) /\
  complete_all ss [ViaPost; ViaDispatch] w1 = (Value tt, w2) /\
  exists w3, run_all (w_posted w2) w2 = (Value tt, w3) /\
  forall s, ss !! 0 = Some s ->
    ((future_get (st_future s)).2 (w_states w2)).1 = Block /\
    ((future_get (st_future s)).2 (w_states w3)).1 = Value 3%Z.
Proof.
  destruct (token_operations (rebind (subscript (mk_use_future_t tt) true) 7) sample_ops [ViaPost; ViaDispatch]
    (mk_world ∅ ∅ []) eq_refl eq_refl) as (ss & w1 & w2 & Hi & Hc & _ & _ & Ho).
  exists ss, w1, w2. split; [exact Hi|]. split; [exact Hc|].
  destruct (Ho (w_posted w2) (Permutation_refl _)) as (w3 & Hr & Hf). exists w3. split; [exact Hr|].
  intros s Hs. exact (Hf 0 s (Plain (DoneEc1 ec_ok 3%Z)) ViaPost Hs eq_refl eq_refl).
Defined.
