(* ===== verification/ExceptionTrace.v ===== *)
(** * common/exception_trace.hpp: exceptions with a stack trace and an error code

    The infos of a boost::exception live in a container that its copies share;
    the containers are kept in a heap.  An exception that does not derive from
    boost::exception has no container until it is wrapped. *)
From stdpp Require Import prelude gmap list.
From Stdlib Require Import ZArith.

Section trace.
Context {E frame : Type}.

(** The infos the program attaches: [traced] and [global_error_code]. *)
Record error_info_container : Type := mk_container {
  traced : option (list frame);
  global_error_code : option Z;
}.

Abbreviation containers := (gmap nat error_info_container).

(** An exception that derives from boost::exception, with its [data_]. *)
Record boost_exception : Type := mk_boost_exception {
  ex_value : E;
  data_ : option nat;
}.

(** What is thrown: any type, or one that derives from boost::exception. *)
Inductive thrown_type : Type :=
| not_derived (e : E)
| derived (x : boost_exception).

(** [enable_error_info]: a wrapper without infos, or a copy, which shares them. *)
Definition enable_error_info (e : thrown_type) : boost_exception :=
  match e with
  | not_derived v => mk_boost_exception v None
  | derived x => x
  end.

(** [x << info]: the container is created when there is none, and changed in place. *)
Definition set_info (info : error_info_container -> error_info_container) (x : boost_exception) (h : containers) :
    boost_exception * containers :=
  match data_ x with
  | None =>
      let l := fresh (dom h) in
      (mk_boost_exception (ex_value x) (Some l), <[l := info (mk_container None None)]> h)
  | Some l => (x, alter info l h)
  end.

Definition set_trace (t : list frame) (c : error_info_container) : error_info_container :=
  mk_container (Some t) (global_error_code c).

Definition set_code (error_code : Z) (c : error_info_container) : error_info_container :=
  mk_container (traced c) (Some error_code).

(** [stacktrace(0, 5)]: the first five frames of the calls under way. *)
Definition stacktrace (calls : list frame) : list frame := take 5 calls.

(** The exception that is thrown; the heap of the containers goes along. *)
Definition throw_with_trace_code (calls : list frame) (e : thrown_type) (error_code : Z) (h : containers) :
    boost_exception * containers :=
  let '(x, h1) := set_info (set_trace (stacktrace calls)) (enable_error_info e) h in
  set_info (set_code error_code) x h1.

Definition throw_with_trace (calls : list frame) (e : thrown_type) (h : containers) : boost_exception * containers :=
  set_info (set_trace (stacktrace calls)) (enable_error_info e) h.

(** The exception in the pointer is a copy of the same exception. *)
Definition make_with_trace (calls : list frame) (e : thrown_type) (h : containers) : boost_exception * containers :=
  set_info (set_trace (stacktrace calls)) (enable_error_info e) h.

Definition make_with_trace_code (calls : list frame) (e : thrown_type) (error_code : Z) (h : containers) :
    boost_exception * containers :=
  let '(x, h1) := set_info (set_trace (stacktrace calls)) (enable_error_info e) h in
  set_info (set_code error_code) x h1.

(** [get_error_info] of both infos. *)
Definition infos (x : boost_exception) (h : containers) : error_info_container :=
  match data_ x with
  | Some l => default (mk_container None None) (h !! l)
  | None => mk_container None None
  end.

(** An exception whose container exists. *)
Definition valid (x : boost_exception) (h : containers) : Prop :=
  forall l, data_ x = Some l -> is_Some (h !! l).

Definition shares (x y : boost_exception) : Prop := data_ x = data_ y /\ data_ x <> None.

Lemma set_info_spec info x h :
  valid x h ->
  let '(y, h') := set_info info x h in
  infos y h' = info (infos x h) /\ valid y h' /\ ex_value y = ex_value x /\ data_ y <> None /\
  forall z, valid z h -> valid z h' /\
    infos z h' = if decide (shares z x) then info (infos z h) else infos z h.
Proof.
  intros Hx. unfold set_info, infos, valid, shares in *. destruct (data_ x) as [l|] eqn:Ed; simpl.
  - destruct (Hx l eq_refl) as [c Hc]. rewrite Ed. split; [by rewrite lookup_alter_eq, Hc|].
    split; [intros k [= <-]; rewrite lookup_alter_eq, Hc; by eexists|]. split; [done|]. split; [done|].
    intros z Hz. split.
    { intros k Hk. rewrite lookup_alter. destruct (Hz k Hk) as [d Hd]. case_decide; subst; rewrite Hd; by eexists. }
    destruct (data_ z) as [k|] eqn:Ez; [|case_decide; naive_solver].
    destruct (Hz k eq_refl) as [d Hd]. rewrite lookup_alter. case_decide as E1.
    + subst k. rewrite Hd. case_decide as E2; [done|]. destruct E2. naive_solver.
    + rewrite Hd. case_decide as E2; [|done]. destruct E2 as [[= ->] _]. done.
  - set (l := fresh (dom h)). assert (Hl : h !! l = None) by apply not_elem_of_dom, is_fresh. clearbody l.
    rewrite lookup_insert_eq. split; [done|]. split; [intros k [= <-]; rewrite lookup_insert_eq; by eexists|].
    split; [done|]. split; [done|]. intros z Hz. split.
    { intros k Hk. rewrite lookup_insert. case_decide; [by eexists|by apply Hz]. }
    case_decide as E1; [naive_solver|]. destruct (data_ z) as [k|] eqn:Ez; [|done].
    rewrite lookup_insert_ne; [done|]. intros ->. destruct (Hz k eq_refl). congruence.
Qed.

(** What the helpers throw carries the first five frames of the stack, the code
    given, or for [throw_with_trace] the code it had; and an exception that is
    thrown again changes the infos of every copy of it, of the one in the hand of
    the caller too, and of no other exception. *)
Theorem traced_exceptions calls e error_code h :
  valid (enable_error_info e) h ->
  (let '(x, h') := throw_with_trace_code calls e error_code h in
   infos x h' = mk_container (Some (take 5 calls)) (Some error_code)) /\
  (let '(x, h') := throw_with_trace calls e h in
   infos x h' = mk_container (Some (take 5 calls)) (global_error_code (infos (enable_error_info e) h)) /\
   forall z, valid z h ->
     infos z h' = if decide (shares z (enable_error_info e))
                  then mk_container (Some (take 5 calls)) (global_error_code (infos z h)) else infos z h).
Proof.
  intros Hv. unfold throw_with_trace_code, throw_with_trace.
  pose proof (set_info_spec (set_trace (stacktrace calls)) (enable_error_info e) h Hv) as H1.
  destruct (set_info _ _ h) as [x h1]. destruct H1 as (Hi & Hv1 & _ & _ & Hz). split.
  - pose proof (set_info_spec (set_code error_code) x h1 Hv1) as H2.
    destruct (set_info _ x h1) as [y h2]. destruct H2 as (-> & _). by rewrite Hi.
  - split; [exact Hi|]. intros z Hvz. destruct (Hz z Hvz) as [_ ->]. done.
Qed.

End trace.
