(* ===== verification/HttpMessage.v ===== *)
(** * The HTTP messages of boost.beast, as the sources use them

    [StrRequest] and [StrResponse] are beast's [http::request<string_body>] and
    [http::response<string_body>].  What the sources rely on is stated as two
    type classes, with the laws beast documents; [simple_response] and
    [simple_request] are instances that show the laws can hold together. *)
From stdpp Require Import prelude strings.
From Stdlib Require Import Ascii ZArith Lia.
From S2P Require Import Prelude CxxLib.

Local Open Scope Z_scope.

(** ** Status codes *)

Module status.
Definition continue_ : Z := 100.
Definition no_content : Z := 204.
Definition not_modified : Z := 304.
Definition bad_request : Z := 400.
Definition not_found : Z := 404.
Definition request_timeout : Z := 408.
Definition connection_closed_without_response : Z := 444.
Definition network_connect_timeout_error : Z := 599.

(** The enumerators, and [int_to_status]: every other code is [status::unknown]. *)
Definition unknown : Z := 0.
Definition known : list Z :=
  [100; 101; 102; 200; 201; 202; 203; 204; 205; 206; 207; 208; 226; 300; 301; 302; 303; 304; 305; 307; 308;
   400; 401; 402; 403; 404; 405; 406; 407; 408; 409; 410; 411; 412; 413; 414; 415; 416; 417; 421; 422; 423;
   424; 426; 428; 429; 431; 444; 451; 499; 500; 501; 502; 503; 504; 505; 506; 507; 508; 510; 511; 599].
Definition int_to_status (v : Z) : Z := if existsb (Z.eqb v) known then v else unknown.
End status.

(** ** Responses *)

Class HttpResponse (Res : Type) : Type := {
  res_default : Res;
  res_result : Res -> Z;
  set_result : Z -> Res -> Res;
  res_version : Res -> Z;
  set_version : Z -> Res -> Res;
  res_field : Res -> str -> option str;
  set_field : str -> str -> Res -> Res;
  insert_field : str -> str -> Res -> Res;
  res_keep_alive : Res -> bool;
  set_keep_alive : bool -> Res -> Res;
  res_body : Res -> str;
  set_body : str -> Res -> Res;
  res_content_length : Res -> option Z;
  set_content_length : Z -> Res -> Res;
  res_need_eof : Res -> bool;
}.

(** [prepare_payload] of a response with a sized body: it throws when the status
    admits no body, and otherwise sets the content length.  [res_result] is
    [result_int]; the informational test casts the enumerator of the status, not
    its hundreds, to a class, whose enumerator is 1. *)
Definition prepare_payload `{HttpResponse Res} (r : Res) : outcome std_exception Res :=
  let result := status.int_to_status (res_result r) in
  if (0 <? str_size (res_body r)) &&
     ((result =? 1) || (result =? status.no_content) || (result =? status.not_modified))
  then Throw invalid_argument
  else Ret (set_content_length (str_size (res_body r)) r).

(** No enumerator is 1, so that only 204 and 304 with body bytes throw. *)
Lemma prepare_payload_throws `{HttpResponse Res} (r : Res) :
  prepare_payload r =
  if (0 <? str_size (res_body r)) && ((res_result r =? status.no_content) || (res_result r =? status.not_modified))
  then Throw invalid_argument
  else Ret (set_content_length (str_size (res_body r)) r).
Proof.
  unfold prepare_payload, status.int_to_status. generalize (res_result r) as v. intros v.
  destruct (existsb (Z.eqb v) status.known) eqn:E.
  - assert (Hv : v <> 1) by (intros ->; done). by rewrite (proj2 (Z.eqb_neq _ _) Hv).
  - assert (H1 : v <> status.no_content) by (intros ->; done).
    assert (H2 : v <> status.not_modified) by (intros ->; done).
    by rewrite (proj2 (Z.eqb_neq _ _) H1), (proj2 (Z.eqb_neq _ _) H2).
Qed.

(** What a setter sets, and what it leaves alone; a response with a content
    length ends the connection exactly when it does not keep it alive. *)
Class HttpResponseLaws (Res : Type) `{HttpResponse Res} : Prop := {
  result_default : res_result (res_default (Res := Res)) = 200;
  body_default : res_body (res_default (Res := Res)) = [];
  result_set_result s (r : Res) : res_result (set_result s r) = s;
  result_set_version v (r : Res) : res_result (set_version v r) = res_result r;
  result_set_field k v (r : Res) : res_result (set_field k v r) = res_result r;
  result_insert_field k v (r : Res) : res_result (insert_field k v r) = res_result r;
  result_set_keep_alive b (r : Res) : res_result (set_keep_alive b r) = res_result r;
  result_set_body b (r : Res) : res_result (set_body b r) = res_result r;
  result_set_content_length n (r : Res) : res_result (set_content_length n r) = res_result r;
  body_set_body b (r : Res) : res_body (set_body b r) = b;
  body_set_result s (r : Res) : res_body (set_result s r) = res_body r;
  body_set_version v (r : Res) : res_body (set_version v r) = res_body r;
  body_set_field k v (r : Res) : res_body (set_field k v r) = res_body r;
  body_insert_field k v (r : Res) : res_body (insert_field k v r) = res_body r;
  body_set_keep_alive b (r : Res) : res_body (set_keep_alive b r) = res_body r;
  body_set_content_length n (r : Res) : res_body (set_content_length n r) = res_body r;
  length_set_content_length n (r : Res) : res_content_length (set_content_length n r) = Some n;
  length_set_keep_alive b (r : Res) :
    res_content_length (set_keep_alive b r) = res_content_length r;
  keep_alive_set_keep_alive b (r : Res) : res_keep_alive (set_keep_alive b r) = b;
  keep_alive_set_body b (r : Res) : res_keep_alive (set_body b r) = res_keep_alive r;
  keep_alive_set_content_length n (r : Res) :
    res_keep_alive (set_content_length n r) = res_keep_alive r;
  version_set_version v (r : Res) : res_version (set_version v r) = v;
  version_set_field k s (r : Res) : res_version (set_field k s r) = res_version r;
  version_set_keep_alive b (r : Res) : res_version (set_keep_alive b r) = res_version r;
  version_set_body b (r : Res) : res_version (set_body b r) = res_version r;
  version_set_content_length n (r : Res) : res_version (set_content_length n r) = res_version r;
  need_eof_content_length (r : Res) :
    is_Some (res_content_length r) -> res_need_eof r = negb (res_keep_alive r);
}.

Create Rewrite HintDb response.
#[export] Hint Rewrite @result_default @body_default @result_set_result @result_set_version
  @result_set_field @result_insert_field @body_insert_field @result_set_keep_alive @result_set_body @result_set_content_length
  @body_set_body @body_set_result @body_set_version @body_set_field @body_set_keep_alive
  @body_set_content_length @length_set_content_length @length_set_keep_alive
  @keep_alive_set_keep_alive @keep_alive_set_body @keep_alive_set_content_length
  @version_set_version @version_set_field @version_set_keep_alive @version_set_body
  @version_set_content_length using apply _ : response.

(** ** Requests *)

Class HttpRequest (Req : Type) : Type := {
  req_method : Req -> str;   (* method_string *)
  req_verb : Req -> Z;       (* method: the enumerator of http::verb *)
  req_target : Req -> str;
  req_version : Req -> Z;
  req_keep_alive : Req -> bool;
  req_expect : Req -> str;
  req_fields : Req -> list (str * str);
  req_body : Req -> str;
}.

(** ** Instances *)

Record simple_response : Type := mk_simple_response {
  s_result : Z;
  s_version : Z;
  s_fields : list (str * str);
  s_keep_alive : bool;
  s_body : str;
  s_length : option Z;
}.

Fixpoint field_lookup (k : str) (fs : list (str * str)) : option str :=
  match fs with
  | [] => None
  | (k', v) :: fs' => if bool_decide (k = k') then Some v else field_lookup k fs'
  end.

#[global] Instance simple_HttpResponse : HttpResponse simple_response := {|
  res_default := mk_simple_response 200 11 [] true [] None;
  res_result := s_result;
  set_result s r := mk_simple_response s (s_version r) (s_fields r) (s_keep_alive r) (s_body r) (s_length r);
  res_version := s_version;
  set_version v r := mk_simple_response (s_result r) v (s_fields r) (s_keep_alive r) (s_body r) (s_length r);
  res_field r k := field_lookup k (s_fields r);
  set_field k v r :=
    mk_simple_response (s_result r) (s_version r) ((k, v) :: s_fields r) (s_keep_alive r) (s_body r) (s_length r);
  insert_field k v r :=
    mk_simple_response (s_result r) (s_version r) (s_fields r ++ [(k, v)]) (s_keep_alive r) (s_body r) (s_length r);
  res_keep_alive := s_keep_alive;
  set_keep_alive b r := mk_simple_response (s_result r) (s_version r) (s_fields r) b (s_body r) (s_length r);
  res_body := s_body;
  set_body b r := mk_simple_response (s_result r) (s_version r) (s_fields r) (s_keep_alive r) b (s_length r);
  res_content_length := s_length;
  set_content_length n r :=
    mk_simple_response (s_result r) (s_version r) (s_fields r) (s_keep_alive r) (s_body r) (Some n);
  res_need_eof r := match s_length r with Some _ => negb (s_keep_alive r) | None => true end;
|}.

#[global] Instance simple_HttpResponseLaws : HttpResponseLaws simple_response.
Proof. split; try done. intros r [n Hn]. simpl in *. by rewrite Hn. Qed.

Record simple_request : Type := mk_simple_request {
  q_method : str;
  q_verb : Z;
  q_target : str;
  q_version : Z;
  q_keep_alive : bool;
  q_expect : str;
  q_fields : list (str * str);
  q_body : str;
}.

#[global] Instance simple_HttpRequest : HttpRequest simple_request := {|
  req_method := q_method;
  req_verb := q_verb;
  req_target := q_target;
  req_version := q_version;
  req_keep_alive := q_keep_alive;
  req_expect := q_expect;
  req_fields := q_fields;
  req_body := q_body;
|}.
