(* ===== verification/Pool.v ===== *)
(** * Pools of shared connections

    The three lists of [HttpCache] hold shared pointers; the objects they point
    to live in a heap, because a request keeps using a connection after the list
    has dropped it.  The loops of the cache over a list are here, generic in the
    connection: purge, search, update through a pointer, removal, insertion. *)
From stdpp Require Import prelude gmap.
From Stdlib Require Import ZArith Lia.
From S2P Require Import Prelude.

Local Open Scope Z_scope.

Record pool (C : Type) : Type := mk_pool {
  p_heap : gmap nat C;
  p_list : list nat;
}.
Arguments mk_pool {C} p_heap p_list.
Arguments p_heap {C} p.
Arguments p_list {C} p.

Definition pool_empty {C} : pool C := mk_pool ∅ [].

Section pool.
Context {C : Type}.
Implicit Types (p : pool C) (l : nat) (c : C).

(** The erasing loop: drop the pointers whose connection satisfies [dead]. *)
Fixpoint erase_dead (h : gmap nat C) (dead : C -> bool) (ls : list nat) : list nat :=
  match ls with
  | [] => []
  | l :: ls' =>
      match h !! l with
      | Some c => if dead c then erase_dead h dead ls' else l :: erase_dead h dead ls'
      | None => l :: erase_dead h dead ls'
      end
  end.

Definition pool_purge (dead : C -> bool) p : pool C :=
  mk_pool (p_heap p) (erase_dead (p_heap p) dead (p_list p)).

(** The searching loop: the first pointer whose connection satisfies [ok]. *)
Fixpoint first_match (h : gmap nat C) (ok : C -> bool) (ls : list nat) : option nat :=
  match ls with
  | [] => None
  | l :: ls' =>
      match h !! l with
      | Some c => if ok c then Some l else first_match h ok ls'
      | None => first_match h ok ls'
      end
  end.

Definition pool_find (ok : C -> bool) p : option nat := first_match (p_heap p) ok (p_list p).

(** A write through a pointer. *)
Definition pool_update (f : C -> C) l p : pool C := mk_pool (alter f l (p_heap p)) (p_list p).

(** The loop that looks for a pointer and updates the connection when it is listed. *)
Definition pool_update_listed (f : C -> C) l p : pool C :=
  if bool_decide (l ∈ p_list p) then pool_update f l p else p.

(** The loop that erases the first element equal to a pointer. *)
Fixpoint remove_first l (ls : list nat) : list nat :=
  match ls with
  | [] => []
  | l' :: ls' => if bool_decide (l' = l) then ls' else l' :: remove_first l ls'
  end.

Definition pool_remove l p : pool C := mk_pool (p_heap p) (remove_first l (p_list p)).

(** [new] a connection; it is not listed yet. *)
Definition pool_alloc c p : nat * pool C :=
  let l := fresh (dom (p_heap p)) in (l, mk_pool (<[l := c]> (p_heap p)) (p_list p)).

Definition pool_push_back l p : pool C := mk_pool (p_heap p) (p_list p ++ [l]).

(** The list has no pointer twice and every pointer is valid. *)
Record pool_wf p : Prop := {
  wf_nodup : NoDup (p_list p);
  wf_valid : forall l, l ∈ p_list p -> is_Some (p_heap p !! l);
}.

Lemma pool_empty_wf : pool_wf (@pool_empty C).
Proof. split; simpl; [constructor|]. intros l Hl. by apply elem_of_nil in Hl. Qed.

Lemma pool_purge_sub dead p l : l ∈ p_list (pool_purge dead p) -> l ∈ p_list p.
Proof.
  simpl. induction (p_list p) as [|k ls IH]; simpl; [done|].
  destruct (p_heap p !! k) as [c|]; [destruct (dead c)|]; set_solver.
Qed.

Lemma pool_purge_elem dead p l c :
  p_heap p !! l = Some c ->
  (l ∈ p_list (pool_purge dead p) <-> l ∈ p_list p /\ dead c = false).
Proof.
  intros Hc. simpl. induction (p_list p) as [|k ls IH]; simpl; [set_solver|].
  destruct (decide (k = l)) as [->|Hne].
  - rewrite Hc. destruct (dead c) eqn:E; rewrite ?elem_of_cons, IH, ?elem_of_cons; naive_solver.
  - destruct (p_heap p !! k) as [c'|]; [destruct (dead c')|];
      rewrite ?elem_of_cons, IH; naive_solver.
Qed.

Lemma pool_purge_wf dead p : pool_wf p -> pool_wf (pool_purge dead p).
Proof.
  intros [Hn Hv]. split.
  - simpl. clear Hv. induction Hn as [|k ls Hk Hn IH]; simpl; [constructor|].
    assert (k ∉ erase_dead (p_heap p) dead ls).
    { intros H. apply Hk. by apply (pool_purge_sub dead (mk_pool (p_heap p) ls)). }
    destruct (p_heap p !! k) as [c|]; [destruct (dead c)|]; by try constructor.
  - intros l Hl%pool_purge_sub. by apply Hv.
Qed.

Lemma pool_update_wf f l p : pool_wf p -> pool_wf (pool_update f l p).
Proof.
  intros [Hn Hv]. split; [done|]. intros k Hk. simpl.
  rewrite lookup_alter_is_Some. by apply Hv.
Qed.

Lemma pool_update_listed_wf f l p : pool_wf p -> pool_wf (pool_update_listed f l p).
Proof. unfold pool_update_listed. case_bool_decide; [apply pool_update_wf|done]. Qed.

Lemma remove_first_sub l l' ls : l' ∈ remove_first l ls -> l' ∈ ls.
Proof.
  induction ls as [|k ls IH]; simpl; [done|]. case_bool_decide; rewrite ?elem_of_cons; naive_solver.
Qed.

Lemma remove_first_elem l l' ls :
  NoDup ls -> (l' ∈ remove_first l ls <-> l' ∈ ls /\ l' <> l).
Proof.
  induction 1 as [|k ls Hk Hn IH]; simpl; [set_solver|].
  case_bool_decide; subst; rewrite ?elem_of_cons, ?IH; naive_solver.
Qed.

Lemma remove_first_NoDup l ls : NoDup ls -> NoDup (remove_first l ls).
Proof.
  induction 1 as [|k ls Hk Hn IH]; simpl; [constructor|].
  case_bool_decide; [done|]. constructor; [|done]. by intros ?%remove_first_sub.
Qed.

Lemma pool_remove_wf l p : pool_wf p -> pool_wf (pool_remove l p).
Proof.
  intros [Hn Hv]. split; [by apply remove_first_NoDup|].
  intros k Hk. simpl in *. apply Hv. by eapply remove_first_sub.
Qed.

Lemma pool_alloc_fresh c p l p' :
  pool_alloc c p = (l, p') -> p_heap p !! l = None.
Proof. intros [= <- <-]. apply not_elem_of_dom, is_fresh. Qed.

Lemma pool_push_wf l p :
  pool_wf p -> is_Some (p_heap p !! l) -> l ∉ p_list p -> pool_wf (pool_push_back l p).
Proof.
  intros [Hn Hv] Hl Hno. split; simpl.
  - apply NoDup_app. split; [done|]. split; [|apply NoDup_singleton].
    intros k Hk ->%list_elem_of_singleton. done.
  - intros k [Hk| ->%list_elem_of_singleton]%elem_of_app; [by apply Hv|done].
Qed.

(** The search returns a listed connection that satisfies the test, the first one. *)
Lemma pool_find_Some ok p l :
  pool_find ok p = Some l ->
  l ∈ p_list p /\ exists c, p_heap p !! l = Some c /\ ok c = true.
Proof.
  unfold pool_find. induction (p_list p) as [|k ls IH]; simpl; [done|]. intros H.
  destruct (p_heap p !! k) as [c|] eqn:E; [|set_solver].
  destruct (ok c) eqn:Eo; [|set_solver]. simplify_eq. split; [set_solver|]. eauto.
Qed.

Lemma pool_find_None ok p l c :
  pool_find ok p = None -> l ∈ p_list p -> p_heap p !! l = Some c -> ok c = false.
Proof.
  unfold pool_find. induction (p_list p) as [|k ls IH]; simpl; intros H Hl Hc; [set_solver|].
  apply elem_of_cons in Hl as [->|Hl].
  - rewrite Hc in H. by destruct (ok c).
  - apply IH; [|done..]. repeat case_match; done.
Qed.

End pool.

#[export] Hint Resolve pool_empty_wf pool_purge_wf pool_update_wf pool_update_listed_wf
  pool_remove_wf : jkit.
