(* ===== verification/HttpCache.v ===== *)
(** * http/multi_client_http.cpp: the connection cache and the requests

    [HttpCache] keeps three lists of shared connections (plain, TLS, HTTP/2).
    Every block of its methods that runs under a mutex is a definition of its
    own; the methods compose them with what the network answers, which is an
    argument ([net_env], [io_env]). *)
From stdpp Require Import prelude gmap strings.
From Stdlib Require Import Ascii ZArith Lia.
From S2P Require Import Prelude CxxLib FiberFuture HttpMessage Pool.

Local Open Scope Z_scope.

(** ** Arguments and connections (http/multi_client_http.h) *)

Record HttpReqArgument : Type := mk_HttpReqArgument {
  host : str;
  port : str;
  dns_timeout : Z;
  conn_timeout : Z;
  req_timeout : Z;
}.

Definition HttpReqArgument_default : HttpReqArgument := mk_HttpReqArgument [] [] 5 3 6.

Record HttpsReqArgument : Type := mk_HttpsReqArgument {
  base_args : HttpReqArgument;
  handshake_timeout : Z;
  ssl_cert : str;   (* empty: the peer is not verified *)
}.

Definition HttpsReqArgument_default : HttpsReqArgument :=
  mk_HttpsReqArgument HttpReqArgument_default 3 [].

(** [Connection] *)
Record Connection : Type := mk_Connection {
  in_use : bool;
  last_use : Z;   (* in seconds *)
}.

(** The stream of a connection: its pending expiry, and whether it was closed. *)
Record tcp_stream : Type := mk_tcp_stream {
  expires : option Z;
  closed : bool;
}.

(** How the TLS context of a stream verifies the peer, fixed when the stream is made. *)
Inductive verify_mode : Type :=
| verify_none
| verify_peer (authority : str).

Record HttpConnection : Type := mk_HttpConnection {
  h1_args : HttpReqArgument;
  h1_conn : Connection;
  h1_stream : tcp_stream;
}.

Record HttpsConnection : Type := mk_HttpsConnection {
  h1s_args : HttpsReqArgument;
  h1s_conn : Connection;
  h1s_verify : verify_mode;
  h1s_stream : tcp_stream;
}.

Record Http2Connection : Type := mk_Http2Connection {
  h2s_args : HttpsReqArgument;
  h2s_conn : Connection;
  h2s_verify : verify_mode;
}.

Definition m_unuse_timeout : Z := 55.

(** An idle connection, and one unused for longer than the limit. *)
Definition expired (now : Z) (c : Connection) : bool := m_unuse_timeout <? now - last_use c.

Definition same_peer (a b : HttpReqArgument) : bool :=
  bool_decide (host a = host b) && bool_decide (port a = port b).

(** ** What the network answers *)

Abbreviation endpoint := (str * Z)%type.

Record net_env : Type := mk_net_env {
  t_purge : Z;                                      (* clock at the purge *)
  t_find : Z;                                       (* clock at the search *)
  net_resolve : option (error_code * list endpoint);  (* None: the wait timed out *)
  net_connect : error_code;
  net_authority : error_code;                       (* add_certificate_authority *)
  net_sni : bool;                                   (* SSL_set_tlsext_host_name *)
  net_handshake : error_code;
  net_h2_tls : error_code;                          (* configure_tls_context *)
  net_h2_connected : bool;                          (* on_connect before the timeout *)
  t_push : Z;                                       (* clock at the insertion *)
}.

(** [HttpCache::resolve]: the results, [None] for false. *)
Definition resolve (answer : option (error_code * list endpoint)) : option (list endpoint) :=
  match answer with
  | None => None
  | Some (ec, results) => if ec_failed ec then None else Some results
  end.

(** [HttpCache::connect]: dereferences the first result. *)
Definition connect (rr : list endpoint) (ec : error_code) : outcome std_exception bool :=
  match rr with
  | [] => Undef
  | _ :: _ => Ret (negb (ec_failed ec))
  end.

(** [HttpCache::set_ssl]: the verification mode of the context, [None] for false. *)
Definition set_ssl (cert : str) (ec : error_code) : option verify_mode :=
  if negb (str_size cert =? 0) then
    if ec_failed ec then None else Some (verify_peer cert)
  else Some verify_none.

(** ** Plain connections *)

Definition delete_timeout_http_connect (now : Z) (p : pool HttpConnection) : pool HttpConnection :=
  pool_purge (fun c => negb (in_use (h1_conn c)) && expired now (h1_conn c)) p.

(** The search under the lock: an idle connection to the peer is taken over. *)
Definition take_over_http (args : HttpReqArgument) (now : Z) (c : HttpConnection) : HttpConnection :=
  mk_HttpConnection
    (mk_HttpReqArgument (host (h1_args c)) (port (h1_args c))
       (dns_timeout args) (conn_timeout args) (req_timeout args))
    (mk_Connection true now) (h1_stream c).

Definition find_http_connect (args : HttpReqArgument) (now : Z) (p : pool HttpConnection) :
    option (nat * pool HttpConnection) :=
  match pool_find (fun c => negb (in_use (h1_conn c)) && same_peer (h1_args c) args) p with
  | Some l => Some (l, pool_update (take_over_http args now) l p)
  | None => None
  end.

(** The insertion under the lock; [connect] left the connection timeout on the stream. *)
Definition push_http_connect (args : HttpReqArgument) (now : Z) (p : pool HttpConnection) :
    nat * pool HttpConnection :=
  let '(l, p') := pool_alloc
    (mk_HttpConnection args (mk_Connection true now) (mk_tcp_stream (Some (conn_timeout args)) false)) p in
  (l, pool_push_back l p').

Local Open Scope cxx_scope.

(** A null pointer is [None]. *)
Definition get_http_connect (env : net_env) (args : HttpReqArgument) (p : pool HttpConnection) :
    outcome std_exception (option nat * pool HttpConnection) :=
  let p1 := delete_timeout_http_connect (t_purge env) p in
  match find_http_connect args (t_find env) p1 with
  | Some (l, p2) => Ret (Some l, p2)
  | None =>
      match resolve (net_resolve env) with
      | None => Ret (None, p1)
      | Some rr =>
          let! connected := connect rr (net_connect env) in
          if negb connected then Ret (None, p1)
          else let '(l, p2) := push_http_connect args (t_push env) p1 in Ret (Some l, p2)
      end
  end.

Definition give_back_http (now : Z) (c : HttpConnection) : HttpConnection :=
  mk_HttpConnection (h1_args c) (mk_Connection false now)
    (mk_tcp_stream None (closed (h1_stream c))).

Definition release_http_connect (now : Z) (l : nat) (p : pool HttpConnection) : pool HttpConnection :=
  pool_update_listed (give_back_http now) l p.

Definition delete_invalid_http_connect (l : nat) (p : pool HttpConnection) : pool HttpConnection :=
  pool_remove l p.

(** ** TLS connections *)

Definition delete_timeout_https_connect (now : Z) (p : pool HttpsConnection) : pool HttpsConnection :=
  pool_purge (fun c => negb (in_use (h1s_conn c)) && expired now (h1s_conn c)) p.

Definition take_over_args (args old : HttpsReqArgument) : HttpsReqArgument :=
  mk_HttpsReqArgument
    (mk_HttpReqArgument (host (base_args old)) (port (base_args old))
       (dns_timeout (base_args args)) (conn_timeout (base_args args)) (req_timeout (base_args args)))
    (handshake_timeout args) (ssl_cert args).

Definition take_over_https (args : HttpsReqArgument) (now : Z) (c : HttpsConnection) : HttpsConnection :=
  mk_HttpsConnection (take_over_args args (h1s_args c)) (mk_Connection true now)
    (h1s_verify c) (h1s_stream c).

Definition find_https_connect (args : HttpsReqArgument) (now : Z) (p : pool HttpsConnection) :
    option (nat * pool HttpsConnection) :=
  match pool_find (fun c => negb (in_use (h1s_conn c)) &&
                            same_peer (base_args (h1s_args c)) (base_args args)) p with
  | Some l => Some (l, pool_update (take_over_https args now) l p)
  | None => None
  end.

(** The handshake timeout is the last one set on the stream. *)
Definition push_https_connect (args : HttpsReqArgument) (verify : verify_mode) (now : Z)
    (p : pool HttpsConnection) : nat * pool HttpsConnection :=
  let '(l, p') := pool_alloc
    (mk_HttpsConnection args (mk_Connection true now) verify
       (mk_tcp_stream (Some (handshake_timeout args)) false)) p in
  (l, pool_push_back l p').

Definition get_https_connect (env : net_env) (args : HttpsReqArgument) (p : pool HttpsConnection) :
    outcome std_exception (option nat * pool HttpsConnection) :=
  let p1 := delete_timeout_https_connect (t_purge env) p in
  match find_https_connect args (t_find env) p1 with
  | Some (l, p2) => Ret (Some l, p2)
  | None =>
      match set_ssl (ssl_cert args) (net_authority env) with
      | None => Ret (None, p1)
      | Some verify =>
          match resolve (net_resolve env) with
          | None => Ret (None, p1)
          | Some rr =>
              if negb (net_sni env) then Ret (None, p1)
              else
                let! connected := connect rr (net_connect env) in
                if negb connected then Ret (None, p1)
                else if ec_failed (net_handshake env) then Ret (None, p1)
                else let '(l, p2) := push_https_connect args verify (t_push env) p1 in Ret (Some l, p2)
          end
      end
  end.

Definition give_back_https (now : Z) (c : HttpsConnection) : HttpsConnection :=
  mk_HttpsConnection (h1s_args c) (mk_Connection false now) (h1s_verify c)
    (mk_tcp_stream None (closed (h1s_stream c))).

Definition release_https_connect (now : Z) (l : nat) (p : pool HttpsConnection) : pool HttpsConnection :=
  pool_update_listed (give_back_https now) l p.

Definition delete_invalid_https_connect (l : nat) (p : pool HttpsConnection) : pool HttpsConnection :=
  pool_remove l p.

(** ** HTTP/2 sessions: shared by concurrent requests, so [in_use] is not looked at *)

Definition delete_timeout_http2s_connect (now : Z) (p : pool Http2Connection) : pool Http2Connection :=
  pool_purge (fun c => expired now (h2s_conn c)) p.

Definition find_http2s_connect (args : HttpsReqArgument) (now : Z) (p : pool Http2Connection) :
    option (nat * pool Http2Connection) :=
  match pool_find (fun c => same_peer (base_args (h2s_args c)) (base_args args)) p with
  | Some l =>
      Some (l, pool_update (fun c =>
        mk_Http2Connection (take_over_args args (h2s_args c))
          (mk_Connection (in_use (h2s_conn c)) now) (h2s_verify c)) l p)
  | None => None
  end.

Definition push_http2s_connect (args : HttpsReqArgument) (verify : verify_mode) (now : Z)
    (p : pool Http2Connection) : nat * pool Http2Connection :=
  let '(l, p') := pool_alloc (mk_Http2Connection args (mk_Connection true now) verify) p in
  (l, pool_push_back l p').

Definition get_http2s_connect (env : net_env) (args : HttpsReqArgument) (p : pool Http2Connection) :
    option nat * pool Http2Connection :=
  let p1 := delete_timeout_http2s_connect (t_purge env) p in
  match find_http2s_connect args (t_find env) p1 with
  | Some (l, p2) => (Some l, p2)
  | None =>
      match set_ssl (ssl_cert args) (net_authority env) with
      | None => (None, p1)
      | Some verify =>
          if ec_failed (net_h2_tls env) then (None, p1)
          else if negb (net_h2_connected env) then (None, p1)
          else let '(l, p2) := push_http2s_connect args verify (t_push env) p1 in (Some l, p2)
      end
  end.

Definition delete_invalid_http2s_connect (l : nat) (p : pool Http2Connection) : pool Http2Connection :=
  pool_remove l p.
