(* ===== verification/HttpClient.v ===== *)
(** * http/multi_client_http.cpp: the requests of MultiClientHttp

    [h1_req] over a plain and over a TLS connection and [h2_req], each the whole
    function: take a connection from the cache, exchange the messages, and give
    the connection back or drop it.  What the peer and the clock do is an
    argument.  The functions are [noexcept]: a [Throw] ends the process. *)
From stdpp Require Import prelude gmap strings.
From Stdlib Require Import Ascii ZArith Lia.
From S2P Require Import Prelude CxxLib FiberFuture HttpMessage Pool HttpCache.

Local Open Scope Z_scope.
Local Open Scope cxx_scope.

(** ** Error codes the client tells apart *)

Definition beast_error_timeout : error_code := mk_error_code "boost.beast" 1.
Definition asio_error_eof : error_code := mk_error_code "asio.misc" 2.

(** ** The cache object *)

Record HttpCache : Type := mk_HttpCache {
  m_h1_conns : pool HttpConnection;
  m_h1s_conns : pool HttpsConnection;
  m_h2s_conns : pool Http2Connection;
}.

Definition HttpCache_new : HttpCache := mk_HttpCache pool_empty pool_empty pool_empty.

(** [MultiClientHttp::init]: the cache is made once. *)
Definition init (cache : option HttpCache) : option HttpCache :=
  match cache with
  | None => Some HttpCache_new
  | Some c => Some c
  end.

(** ** What the peer does during one exchange *)

Section requests.
Context {Req Res : Type} `{HttpRequest Req} `{HttpResponse Res}.

Record io_env : Type := mk_io_env {
  io_write : error_code;
  io_read : error_code * Res;   (* and what the read left in the response *)
  io_shutdown : error_code;
  t_release : Z;
}.

(** The status of an exchange that failed with [ec]. *)
Definition failed_result (ec : error_code) (res : Res) : Res :=
  if bool_decide (ec = beast_error_timeout)
  then set_result status.request_timeout res
  else set_result status.connection_closed_without_response res.

(** [expires_after] and [close] on the stream of a connection. *)
Definition expires_after_http (timeout : Z) (c : HttpConnection) : HttpConnection :=
  mk_HttpConnection (h1_args c) (h1_conn c) (mk_tcp_stream (Some timeout) (closed (h1_stream c))).

Definition close_http (c : HttpConnection) : HttpConnection :=
  mk_HttpConnection (h1_args c) (h1_conn c) (mk_tcp_stream (expires (h1_stream c)) true).

Definition expires_after_https (timeout : Z) (c : HttpsConnection) : HttpsConnection :=
  mk_HttpsConnection (h1s_args c) (h1s_conn c) (h1s_verify c)
    (mk_tcp_stream (Some timeout) (closed (h1s_stream c))).

(** The exchange over the connection [l] of a plain request. *)
Definition h1_exchange (env : io_env) (args : HttpReqArgument) (l : nat) (p : pool HttpConnection) :
    Res * pool HttpConnection :=
  let p1 := pool_update (expires_after_http (req_timeout args)) l p in
  if ec_failed (io_write env) then
    (failed_result (io_write env) res_default, delete_invalid_http_connect l p1)
  else
    let '(ec, res) := io_read env in
    if ec_failed ec then (failed_result ec res, delete_invalid_http_connect l p1)
    else if res_need_eof res then
      (res, delete_invalid_http_connect l (pool_update close_http l p1))
    else (res, release_http_connect (t_release env) l p1).

(** [MultiClientHttp::h1_req(req, HttpReqArgument)]. *)
Definition h1_req (nenv : net_env) (env : io_env) (args : HttpReqArgument) (cache : option HttpCache) :
    outcome std_exception (Res * option HttpCache) :=
  match cache with
  | None => Undef
  | Some c =>
      let! got := get_http_connect nenv args (m_h1_conns c) in
      let '(res, p) :=
        match got with
        | (None, p1) => (set_result status.network_connect_timeout_error res_default, p1)
        | (Some l, p1) => h1_exchange env args l p1
        end in
      Ret (res, Some (mk_HttpCache p (m_h1s_conns c) (m_h2s_conns c)))
  end.

(** The exchange of a TLS request.  The error of the shutdown is not used. *)
Definition h1s_exchange (env : io_env) (args : HttpsReqArgument) (l : nat) (p : pool HttpsConnection) :
    Res * pool HttpsConnection :=
  let p1 := pool_update (expires_after_https (req_timeout (base_args args))) l p in
  if ec_failed (io_write env) then
    (failed_result (io_write env) res_default, delete_invalid_https_connect l p1)
  else
    let '(ec, res) := io_read env in
    if ec_failed ec then (failed_result ec res, delete_invalid_https_connect l p1)
    else if res_need_eof res then
      let ec' := if bool_decide (io_shutdown env = asio_error_eof)
                 then mk_error_code (ec_category (io_shutdown env)) 0 else io_shutdown env in
      (res, delete_invalid_https_connect l p1)
    else (res, release_https_connect (t_release env) l p1).

(** [MultiClientHttp::h1_req(req, HttpsReqArgument)]. *)
Definition h1s_req (nenv : net_env) (env : io_env) (args : HttpsReqArgument) (cache : option HttpCache) :
    outcome std_exception (Res * option HttpCache) :=
  match cache with
  | None => Undef
  | Some c =>
      let! got := get_https_connect nenv args (m_h1s_conns c) in
      let '(res, p) :=
        match got with
        | (None, p1) => (set_result status.network_connect_timeout_error res_default, p1)
        | (Some l, p1) => h1s_exchange env args l p1
        end in
      Ret (res, Some (mk_HttpCache (m_h1_conns c) p (m_h2s_conns c)))
  end.

(** ** HTTP/2 *)

(** A header of the nghttp2 header map, with its no-index flag. *)
Record h2_header : Type := mk_h2_header {
  hd_name : str;
  hd_value : str;
  hd_sensitive : bool;
}.

(** The header loop; only the exact spelling "Authorization" is marked. *)
Definition h2_header_of (field : str * str) : h2_header :=
  if bool_decide (field.1 = lit "Authorization")
  then mk_h2_header field.1 field.2 true
  else mk_h2_header field.1 field.2 false.

Definition h2_headers (req : Req) : list h2_header := map h2_header_of (req_fields req).

Definition h2_uri (conn : Http2Connection) (req : Req) : str :=
  lit "https://" ++ host (base_args (h2s_args conn)) ++ lit ":" ++
  port (base_args (h2s_args conn)) ++ req_target req.

(** The callbacks the session runs while the request waits. *)
Inductive h2_event : Type :=
| OnResponse (status_code : Z) (header : list (str * str))
| OnData (data : str).

(** What the callbacks share with the request: [res], [tmp_body], whether
    [on_data] is registered and whether the promise is set. *)
Record h2_state : Type := mk_h2_state {
  h2_res : Res;
  h2_tmp_body : str;
  h2_on_data : bool;
  h2_done : bool;
}.

Definition h2_callback (st : h2_state) (e : h2_event) : outcome std_exception h2_state :=
  match e with
  | OnResponse code header =>
      if 999 <? wrap_u 32 code then Throw invalid_argument
      else
        let res := fold_left (fun r kv => insert_field kv.1 kv.2 r) header
                     (set_result (wrap_u 32 code) (h2_res st)) in
        Ret (mk_h2_state res (h2_tmp_body st) true (h2_done st))
  | OnData data =>
      if negb (h2_on_data st) then Ret st
      else if 0 <? str_size data then
        Ret (mk_h2_state (h2_res st) (h2_tmp_body st ++ data) true (h2_done st))
      else Ret (mk_h2_state (h2_res st) (h2_tmp_body st) true true)
  end.

(** The callbacks run in order until the promise is set or no event is left,
    which is the timeout. *)
Fixpoint h2_wait (st : h2_state) (events : list h2_event) : outcome std_exception h2_state :=
  if h2_done st then Ret st
  else match events with
       | [] => Ret st
       | e :: events' => let! st' := h2_callback st e in h2_wait st' events'
       end.

Record h2_env : Type := mk_h2_env {
  h2_submit : str -> str -> str -> list h2_header -> error_code;
  h2_events : list h2_event;   (* in the time the request waits *)
}.

Definition h2_exchange (env : h2_env) (req : Req) (l : nat) (conn : Http2Connection)
    (p : pool Http2Connection) : outcome std_exception (Res * pool Http2Connection) :=
  if ec_failed (h2_submit env (req_method req) (h2_uri conn req) (req_body req) (h2_headers req)) then
    Ret (set_result status.connection_closed_without_response res_default,
         delete_invalid_http2s_connect l p)
  else
    let! st := h2_wait (mk_h2_state res_default [] false false) (h2_events env) in
    if negb (h2_done st) then
      Ret (set_result status.request_timeout (h2_res st), delete_invalid_http2s_connect l p)
    else if str_size (h2_tmp_body st) =? 0 then Ret (h2_res st, p)
    else
      let! res := prepare_payload (set_body (h2_tmp_body st) (h2_res st)) in
      Ret (res, p).

(** [MultiClientHttp::h2_req]. *)
Definition h2_req (nenv : net_env) (env : h2_env) (req : Req) (args : HttpsReqArgument)
    (cache : option HttpCache) : outcome std_exception (Res * option HttpCache) :=
  match cache with
  | None => Undef
  | Some c =>
      let! rp :=
        match get_http2s_connect nenv args (m_h2s_conns c) with
        | (None, p1) => Ret (set_result status.network_connect_timeout_error res_default, p1)
        | (Some l, p1) =>
            match p_heap p1 !! l with
            | None => Undef
            | Some conn => h2_exchange env req l conn p1
            end
        end in
      Ret (rp.1, Some (mk_HttpCache (m_h1_conns c) (m_h1s_conns c) rp.2))
  end.

End requests.
Arguments io_env : clear implicits.
Arguments h2_state : clear implicits.
