(* ===== verification/HttpSystem.v ===== *)
(** * Concurrent requests on the connection cache

    Every fiber that runs [h1_req] goes through the same control points; the
    blocks under the mutex of the cache are the atomic steps, and between them
    any other request may run.  The plain and the TLS cache are two instances
    of one interface, [ConnCache], and the system is proved against it. *)
From stdpp Require Import prelude gmap strings.
From Stdlib Require Import Ascii ZArith Lia.
From S2P Require Import Prelude CxxLib FiberFuture HttpMessage Pool HttpCache HttpClient.

Local Open Scope Z_scope.

(** ** The interface of a cache *)

(** [Sess] is what opening a connection leaves for its insertion. *)
Class ConnCache (Args C Sess : Type) : Type := {
  cc_peer : Args -> HttpReqArgument;
  cc_args : C -> HttpReqArgument;
  cc_conn : C -> Connection;
  cc_purge : Z -> pool C -> pool C;
  cc_find : Args -> Z -> pool C -> option (nat * pool C);
  cc_push : Args -> Sess -> Z -> pool C -> nat * pool C;
  cc_release : Z -> nat -> pool C -> pool C;
  cc_delete : nat -> pool C -> pool C;
}.

(** What the cache promises to the requests. *)
Definition idle `{ConnCache Args C Sess} (c : C) : bool := negb (in_use (cc_conn c)).

Definition goes_to `{ConnCache Args C Sess} (a : Args) (c : C) : bool :=
  same_peer (cc_args c) (cc_peer a).

Class ConnCacheLaws (Args C Sess : Type) `{ConnCache Args C Sess} : Prop := {
  purge_law now (p : pool C) :
    cc_purge now p = pool_purge (fun c => idle c && expired now (cc_conn c)) p;
  find_law a now (p : pool C) : exists f,
    (forall c, cc_conn (f c) = mk_Connection true now /\
               (forall b, goes_to b (f c) = goes_to b c)) /\
    cc_find a now p =
      match pool_find (fun c => idle c && goes_to a c) p with
      | Some l => Some (l, pool_update f l p)
      | None => None
      end;
  push_law a s now (p : pool C) : exists c,
    cc_conn c = mk_Connection true now /\ goes_to a c = true /\
    cc_push a s now p = (let '(l, p') := pool_alloc c p in (l, pool_push_back l p'));
  release_law now l (p : pool C) : exists f,
    (forall c, cc_conn (f c) = mk_Connection false now) /\
    cc_release now l p = pool_update_listed f l p;
  delete_law l (p : pool C) : cc_delete l p = pool_remove l p;
}.

#[global] Instance http_ConnCache : ConnCache HttpReqArgument HttpConnection unit := {|
  cc_peer a := a;
  cc_args := h1_args;
  cc_conn := h1_conn;
  cc_purge := delete_timeout_http_connect;
  cc_find := find_http_connect;
  cc_push a _ := push_http_connect a;
  cc_release := release_http_connect;
  cc_delete := delete_invalid_http_connect;
|}.

#[global] Instance https_ConnCache : ConnCache HttpsReqArgument HttpsConnection verify_mode := {|
  cc_peer := base_args;
  cc_args c := base_args (h1s_args c);
  cc_conn := h1s_conn;
  cc_purge := delete_timeout_https_connect;
  cc_find := find_https_connect;
  cc_push := push_https_connect;
  cc_release := release_https_connect;
  cc_delete := delete_invalid_https_connect;
|}.

Lemma same_peer_refl a : same_peer a a = true.
Proof. unfold same_peer. by rewrite !bool_decide_eq_true_2. Qed.

#[global] Instance http_ConnCacheLaws : ConnCacheLaws HttpReqArgument HttpConnection unit.
Proof.
  split; [done| | | |done].
  - intros a now p. exists (take_over_http a now). done.
  - intros a s now p. eexists. split; [|split]; [| |reflexivity]; [done|apply same_peer_refl].
  - intros now l p. eexists. split; [|reflexivity]. done.
Qed.

#[global] Instance https_ConnCacheLaws : ConnCacheLaws HttpsReqArgument HttpsConnection verify_mode.
Proof.
  split; [done| | | |done].
  - intros a now p. exists (take_over_https a now). done.
  - intros a s now p. eexists. split; [|split]; [| |reflexivity]; [done|apply same_peer_refl].
  - intros now l p. eexists. split; [|reflexivity]. done.
Qed.

(** ** The system *)

Section system.
Context {Args C Sess : Type} `{Laws : ConnCacheLaws Args C Sess}.
Implicit Types (p : pool C) (a : Args) (l : nat) (i : nat).

(** Where a request is in [h1_req]. *)
Inductive pc : Type :=
| PcStart (a : Args)           (* about to purge *)
| PcFind (a : Args)            (* about to search *)
| PcOpen (a : Args)            (* resolving, connecting, shaking hands *)
| PcPush (a : Args) (s : Sess)    (* connected, about to insert *)
| PcUse (a : Args) (l : nat)   (* exchanging messages over [l] *)
| PcDrop (a : Args) (l : nat)  (* about to delete the connection *)
| PcKeep (a : Args) (l : nat)  (* about to release it *)
| PcDone.                      (* returned *)

(** The connection a request holds. *)
Definition holds (q : pc) : option (Args * nat) :=
  match q with
  | PcUse a l | PcDrop a l | PcKeep a l => Some (a, l)
  | _ => None
  end.

Record system : Type := mk_system {
  sys_pool : pool C;
  sys_reqs : gmap nat pc;
}.

(** A write to the stream of a connection changes neither its use nor its peer. *)
Definition stream_write (f : C -> C) : Prop :=
  forall c, cc_conn (f c) = cc_conn c /\ cc_args (f c) = cc_args c.

(** One step of the request at [pc], on the pool. *)
Inductive req_step : pool C -> pc -> pool C -> pc -> Prop :=
| StepPurge now a p : req_step p (PcStart a) (cc_purge now p) (PcFind a)
| StepFound now a p l p' :
    cc_find a now p = Some (l, p') -> req_step p (PcFind a) p' (PcUse a l)
| StepNotFound now a p :
    cc_find a now p = None -> req_step p (PcFind a) p (PcOpen a)
| StepOpenFailed a p : req_step p (PcOpen a) p PcDone
| StepOpened a s p : req_step p (PcOpen a) p (PcPush a s)
| StepPush now a s p l p' :
    cc_push a s now p = (l, p') -> req_step p (PcPush a s) p' (PcUse a l)
| StepStream f a l p :
    stream_write f -> req_step p (PcUse a l) (pool_update f l p) (PcUse a l)
| StepFail a l p : req_step p (PcUse a l) p (PcDrop a l)
| StepDone a l p : req_step p (PcUse a l) p (PcKeep a l)
| StepDrop a l p : req_step p (PcDrop a l) (cc_delete l p) PcDone
| StepKeep now a l p : req_step p (PcKeep a l) (cc_release now l p) PcDone.

(** A new request arrives, or one of the running requests makes a step. *)
Inductive step : system -> system -> Prop :=
| Arrive i a p rs :
    rs !! i = None -> step (mk_system p rs) (mk_system p (<[i := PcStart a]> rs))
| Advance i q p rs p' q' :
    rs !! i = Some q -> req_step p q p' q' ->
    step (mk_system p rs) (mk_system p' (<[i := q']> rs)).

Definition system_init : system := mk_system pool_empty ∅.

Definition reachable : system -> Prop := rtc step system_init.

(** ** The invariant *)

Definition held_ok p a l : Prop :=
  l ∈ p_list p /\
  exists c, p_heap p !! l = Some c /\ in_use (cc_conn c) = true /\ goes_to a c = true.

Record sys_inv (s : system) : Prop := {
  inv_wf : pool_wf (sys_pool s);
  inv_held i q a l :
    sys_reqs s !! i = Some q -> holds q = Some (a, l) -> held_ok (sys_pool s) a l;
  inv_once i j q q' a b l :
    sys_reqs s !! i = Some q -> sys_reqs s !! j = Some q' ->
    holds q = Some (a, l) -> holds q' = Some (b, l) -> i = j;
  inv_used l c :
    l ∈ p_list (sys_pool s) -> p_heap (sys_pool s) !! l = Some c ->
    in_use (cc_conn c) = true ->
    exists i q a, sys_reqs s !! i = Some q /\ holds q = Some (a, l);
}.

(** What one step of a request does to the pool, seen by the others. *)
Record effect (p : pool C) (q : pc) (p' : pool C) (q' : pc) : Prop := {
  eff_wf : pool_wf p';
  eff_held a l : holds q' = Some (a, l) -> held_ok p' a l;
  eff_others b k : held_ok p b k -> (forall a, holds q <> Some (a, k)) -> held_ok p' b k;
  eff_new a b l : holds q' = Some (a, l) -> held_ok p b l -> exists a', holds q = Some (a', l);
  eff_used l c :
    l ∈ p_list p' -> p_heap p' !! l = Some c -> in_use (cc_conn c) = true ->
    (exists a, holds q' = Some (a, l)) \/
    ((forall a, holds q <> Some (a, l)) /\
     exists c', l ∈ p_list p /\ p_heap p !! l = Some c' /\ in_use (cc_conn c') = true);
}.

(** An effect preserves the invariant. *)
Lemma effect_inv p q p' q' rs i :
  rs !! i = Some q -> effect p q p' q' ->
  sys_inv (mk_system p rs) -> sys_inv (mk_system p' (<[i := q']> rs)).
Proof.
  intros Hi [Ewf Eheld Eoth Enew Eused] [Iwf Iheld Ionce Iused]; simpl in *.
  assert (Hother : forall j qj b k, j <> i -> rs !! j = Some qj -> holds qj = Some (b, k) ->
    forall a, holds q <> Some (a, k)).
  { intros j qj b k Hne Hj Hk a Ha. apply Hne. symmetry. by eapply Ionce. }
  split; simpl; [done| | |].
  - intros j qj a l. destruct (decide (i = j)) as [<-|Hne].
    + rewrite lookup_insert_eq. intros [= <-]. apply Eheld.
    + rewrite lookup_insert_ne by done. intros Hj Hl. apply Eoth; [by eapply Iheld|].
      by eapply Hother.
  - assert (Hnew : forall j qj a b l, j <> i -> rs !! j = Some qj ->
      holds q' = Some (a, l) -> holds qj = Some (b, l) -> False).
    { intros j qj a b l Hne Hj Hq' Hqj.
      destruct (Enew a b l Hq') as [a' Ha']; [by eapply Iheld|]. by eapply Hother. }
    intros j k qj qk a b l. rewrite !lookup_insert.
    repeat case_decide; simplify_eq; try done; intros; simplify_eq;
      [exfalso; eapply Hnew; eauto..|by eapply Ionce].
  - intros l c Hl Hc Hu. destruct (Eused l c Hl Hc Hu) as [[a Ha]|[Hno (c' & Hl' & Hc' & Hu')]].
    + exists i, q', a. by rewrite lookup_insert_eq.
    + destruct (Iused l c' Hl' Hc' Hu') as (j & qj & a & Hj & Ha).
      exists j, qj, a. rewrite lookup_insert_ne; [done|]. intros <-. simplify_eq. by eapply Hno.
Qed.

(** A write that changes neither use nor peer, and one that changes the held connection only. *)
Lemma held_ok_update f p l b k :
  held_ok p b k -> (k = l -> forall c, p_heap p !! k = Some c ->
    in_use (cc_conn (f c)) = true /\ goes_to b (f c) = true) ->
  held_ok (pool_update f l p) b k.
Proof.
  intros (Hk & c & Hc & Hu & Hg) Hf. split; [done|]. simpl.
  rewrite lookup_alter. case_decide as E; subst; rewrite Hc; simpl; [|eauto].
  eexists; split; [done|]. by apply Hf.
Qed.

Lemma update_lookup_ne (f : C -> C) p l k :
  k <> l -> p_heap (pool_update f l p) !! k = p_heap p !! k.
Proof. intros. simpl. by rewrite lookup_alter_ne. Qed.

(** Steps that leave the pool alone. *)
Lemma effect_same p q q' :
  pool_wf p -> (forall a l, holds q = Some (a, l) -> held_ok p a l) ->
  holds q' = holds q -> effect p q p q'.
Proof.
  intros Hwf Hq E. split; [done|rewrite E; apply Hq|done|rewrite E; eauto|].
  intros l c Hl Hc Hu. rewrite E. destruct (holds q) as [[a k]|]; [|eauto 10].
  destruct (decide (k = l)) as [->|]; [eauto|]. right. split; [congruence|eauto].
Qed.

Lemma effect_purge now p a : pool_wf p -> effect p (PcStart a) (cc_purge now p) (PcFind a).
Proof.
  intros Hwf. rewrite purge_law. split; [eauto with jkit|done| |done|].
  - intros b k (Hk & c & Hc & Hu & Hg) _. split; [|eauto].
    apply (pool_purge_elem _ _ _ c Hc). split; [done|]. unfold idle. by rewrite Hu.
  - intros l c Hl Hc Hu. right. split; [done|]. exists c. split; [|done]. by eapply pool_purge_sub.
Qed.

Lemma effect_found now p a l p' :
  pool_wf p -> cc_find a now p = Some (l, p') -> effect p (PcFind a) p' (PcUse a l).
Proof.
  intros Hwf. destruct (find_law a now p) as (f & Hf & ->).
  destruct (pool_find _ p) as [k|] eqn:E; [|done]. intros [= -> <-].
  apply pool_find_Some in E as (Hl & c & Hc & [Hi Hg]%andb_prop).
  assert (Hfree : forall b, ~ held_ok p b l).
  { intros b (_ & c' & Hc' & Hu & _). simplify_eq. unfold idle in Hi. by rewrite Hu in Hi. }
  split; [eauto with jkit| | | |].
  - intros b k [= -> ->]. split; [done|]. exists (f c). simpl. rewrite lookup_alter_eq, Hc.
    destruct (Hf c) as [-> ->]. done.
  - intros b k Hb _. apply held_ok_update; [done|]. intros -> . by destruct (Hfree b).
  - intros b b' k [= -> ->] Hb. by destruct (Hfree b').
  - intros k c' Hk Hc' Hu. destruct (decide (l = k)) as [->|Hne]; [left; eauto|].
    rewrite update_lookup_ne in Hc' by done. right. split; [done|]. eauto.
Qed.

Lemma effect_push now p a s l p' :
  pool_wf p -> cc_push a s now p = (l, p') -> effect p (PcPush a s) p' (PcUse a l).
Proof.
  intros Hwf. destruct (push_law a s now p) as (c & Hc & Hg & ->). simpl.
  set (k := fresh _). assert (Hk : p_heap p !! k = None) by apply not_elem_of_dom, is_fresh.
  clearbody k. intros [= -> <-].
  assert (Hno : l ∉ p_list p).
  { intros Hl. destruct (wf_valid _ Hwf l Hl) as [? ?]. simplify_eq. }
  split.
  - apply pool_push_wf; [|by simpl; rewrite lookup_insert_eq|done]. split; [apply Hwf|].
    intros j Hj. simpl. rewrite lookup_insert_is_Some. destruct (decide (l = j)); [by left|].
    right. split; [done|]. by apply (wf_valid _ Hwf).
  - intros b j [= -> ->]. split; [set_solver|]. exists c. simpl. rewrite lookup_insert_eq, Hc. done.
  - intros b j (Hj & c' & Hc' & Hu & Hb) _. split; [set_solver|]. exists c'. simpl.
    rewrite lookup_insert_ne by (intros <-; done). done.
  - intros b b' j [= -> ->] (Hj & _). done.
  - intros j c' Hj Hc' Hu. destruct (decide (l = j)) as [->|Hne]; [left; eauto|].
    simpl in *. rewrite lookup_insert_ne in Hc' by done.
    right. split; [done|]. exists c'. set_solver.
Qed.

Lemma effect_stream f p a l :
  pool_wf p -> held_ok p a l -> stream_write f ->
  effect p (PcUse a l) (pool_update f l p) (PcUse a l).
Proof.
  intros Hwf Hh Hf.
  assert (Hkeep : forall b k, held_ok p b k -> held_ok (pool_update f l p) b k).
  { intros b k Hb. apply held_ok_update; [done|]. intros _ c Hc.
    destruct Hb as (_ & c' & Hc' & Hu & Hg). simplify_eq. unfold goes_to in *.
    destruct (Hf c') as [-> ->]. done. }
  split; [eauto with jkit| |eauto|eauto|].
  - intros b k [= -> ->]. eauto.
  - intros k c Hk Hc Hu. destruct (decide (l = k)) as [->|Hne]; [left; eauto|].
    rewrite update_lookup_ne in Hc by done. right. split; [intros ? [=]; congruence|]. eauto.
Qed.

Lemma effect_drop p a l :
  pool_wf p -> effect p (PcDrop a l) (cc_delete l p) PcDone.
Proof.
  intros Hwf. rewrite delete_law. split; [eauto with jkit|done| |done|].
  - intros b k (Hk & Hc) Hne. split; [|done]. apply remove_first_elem; [apply Hwf|].
    split; [done|]. intros ->. by eapply Hne.
  - intros k c Hk Hc Hu. apply remove_first_elem in Hk as [Hk Hne]; [|apply Hwf].
    right. split; [intros ? [=]; congruence|]. eauto.
Qed.

Lemma effect_keep now p a l :
  pool_wf p -> held_ok p a l -> effect p (PcKeep a l) (cc_release now l p) PcDone.
Proof.
  intros Hwf (Hl & c & Hc & _). destruct (release_law now l p) as (f & Hf & ->).
  unfold pool_update_listed. rewrite bool_decide_eq_true_2 by done.
  split; [eauto with jkit|done| |done|].
  - intros b k Hb Hne. apply held_ok_update; [done|]. intros ->. by destruct (Hne a).
  - intros k c' Hk Hc' Hu. destruct (decide (k = l)) as [->|Hne].
    + simpl in Hc'. rewrite lookup_alter_eq, Hc in Hc'. simplify_eq/=. by rewrite Hf in Hu.
    + rewrite update_lookup_ne in Hc' by done. right. split; [intros ? [=]; congruence|]. eauto.
Qed.

Lemma req_step_effect p q p' q' :
  pool_wf p -> (forall a l, holds q = Some (a, l) -> held_ok p a l) ->
  req_step p q p' q' -> effect p q p' q'.
Proof.
  intros Hwf Hq Hs.
  destruct Hs;
    eauto using effect_same, effect_purge, effect_found, effect_push, effect_stream,
      effect_drop, effect_keep.
Qed.

Lemma step_inv s s' : step s s' -> sys_inv s -> sys_inv s'.
Proof.
  intros [i a p rs Hi|i q p rs p' q' Hi Hs] Hinv.
  - destruct Hinv as [Iwf Iheld Ionce Iused]. split; simpl in *; [done| | |].
    + intros j q b l. rewrite lookup_insert. case_decide; [by intros [= <-]|by apply Iheld].
    + intros j k q q' b b' l. rewrite !lookup_insert.
      repeat case_decide; intros; simplify_eq; try done. by eapply Ionce.
    + intros l c Hl Hc Hu. destruct (Iused l c Hl Hc Hu) as (j & q & b & Hj & Hq).
      exists j, q, b. rewrite lookup_insert_ne; [done|congruence].
  - eapply effect_inv; [done| |done]. apply req_step_effect; [apply Hinv| |done].
    intros a l Ha. by eapply (inv_held _ Hinv).
Qed.

Lemma init_inv : sys_inv system_init.
Proof. split; simpl; [apply pool_empty_wf|done..|]. intros l c Hl. by apply elem_of_nil in Hl. Qed.

Lemma reachable_inv s : reachable s -> sys_inv s.
Proof.
  revert s. apply (rtc_ind_r (R := step) sys_inv system_init); [apply init_inv|].
  intros ? ? _ Hs Hi. by eapply step_inv.
Qed.

End system.
Arguments pc : clear implicits.
Arguments system : clear implicits.
