(* ===== verification/HttpClientFacts.v ===== *)
(** * Theorems on the HTTP client and its connection cache *)
From stdpp Require Import prelude gmap strings.
From Stdlib Require Import Ascii ZArith Lia.
From S2P Require Import Prelude CxxLib FiberFuture HttpMessage Pool HttpCache HttpClient HttpSystem.

Local Open Scope Z_scope.

(** The two systems: the plain and the TLS requests. *)
Abbreviation http_system := (system HttpReqArgument HttpConnection unit).
Abbreviation https_system := (system HttpsReqArgument HttpsConnection verify_mode).

(** What an exchange over [l] does to the other connections: nothing. *)
Definition others_kept {C} (l : nat) (p p' : pool C) : Prop :=
  forall k, k <> l -> (k ∈ p_list p' <-> k ∈ p_list p) /\ p_heap p' !! k = p_heap p !! k.

Lemma others_kept_trans {C} l (p p' p'' : pool C) :
  others_kept l p p' -> others_kept l p' p'' -> others_kept l p p''.
Proof.
  intros H1 H2 k Hk. destruct (H1 k Hk) as [E1 F1], (H2 k Hk) as [E2 F2]. by rewrite E2, F2.
Qed.

Lemma others_kept_update {C} f l (p : pool C) : others_kept l p (pool_update f l p).
Proof. intros k Hk. split; [done|]. simpl. by rewrite lookup_alter_ne. Qed.

Lemma others_kept_update_listed {C} f l (p : pool C) : others_kept l p (pool_update_listed f l p).
Proof. unfold pool_update_listed. case_bool_decide; [apply others_kept_update|done]. Qed.

Lemma others_kept_remove {C} l (p : pool C) : pool_wf p -> others_kept l p (pool_remove l p).
Proof.
  intros [Hn _] k Hk. split; [|done]. simpl. rewrite remove_first_elem by done. naive_solver.
Qed.

Lemma removed_not_listed {C} l (p : pool C) : pool_wf p -> l ∉ p_list (pool_remove l p).
Proof. intros [Hn _]. simpl. rewrite remove_first_elem by done. naive_solver. Qed.

#[export] Hint Resolve others_kept_trans others_kept_update others_kept_update_listed
  others_kept_remove removed_not_listed : jkit.

(** ** The invariant of the cache under every interleaving *)

Section safety.
Context {Args C Sess : Type} `{Laws : ConnCacheLaws Args C Sess}.

(** A request has its connection for itself; the connection goes to the peer
    asked for and stays listed and marked; nothing is marked without a request
    that will give it back. *)
Definition exclusive (s : system Args C Sess) : Prop :=
  NoDup (p_list (sys_pool s)) /\
  (forall i q a l, sys_reqs s !! i = Some q -> holds q = Some (a, l) ->
     held_ok (sys_pool s) a l /\
     forall j q' b, sys_reqs s !! j = Some q' -> holds q' = Some (b, l) -> j = i) /\
  (forall l, l ∈ p_list (sys_pool s) -> exists c, p_heap (sys_pool s) !! l = Some c /\
     (in_use (cc_conn c) = true <->
      exists i q a, sys_reqs s !! i = Some q /\ holds q = Some (a, l))).

Lemma inv_exclusive s : sys_inv s -> exclusive s.
Proof.
  intros [Iwf Iheld Ionce Iused]. split; [apply Iwf|]. split.
  - intros i q a l Hi Hq. split; [by eapply Iheld|]. intros j q' b Hj Hq'. by eapply Ionce.
  - intros l Hl. destruct (wf_valid _ Iwf l Hl) as [c Hc]. exists c. split; [done|].
    split; [by apply Iused|]. intros (i & q & a & Hi & Hq).
    destruct (Iheld i q a l Hi Hq) as (_ & c' & Hc' & Hu & _). congruence.
Qed.

End safety.

(** C1. However the plain and the TLS requests of any number of fibers
    interleave on the cache, no connection is held by two requests, every held
    connection is listed, marked in use and leads to the peer the request asked
    for, and a connection is marked in use only while a request holds it, so
    that none is lost when the requests end. *)
Theorem cache_exclusive :
  (forall s : http_system, reachable s -> exclusive s) /\
  (forall s : https_system, reachable s -> exclusive s).
Proof. split; intros s Hs; by apply inv_exclusive, reachable_inv. Qed.

Definition sample_args : HttpReqArgument := mk_HttpReqArgument (lit "h") (lit "80") 5 3 6.

(** A request that opened its connection, next to one that just arrived. *)
Definition sample_system : http_system :=
  mk_system (push_http_connect sample_args 100 pool_empty).2
    (<[1%nat := PcStart sample_args]> (<[0%nat := PcUse sample_args 0]> ∅)).

Lemma sample_reachable : reachable sample_system.
Proof.
  unfold reachable, system_init, sample_system.
  eapply rtc_l; [by apply (Arrive 0%nat sample_args)|].
  eapply rtc_l; [eapply (Advance 0%nat); [by apply lookup_insert_eq|apply (StepPurge 90)]|].
  rewrite insert_insert_eq.
  eapply rtc_l; [eapply (Advance 0%nat); [by apply lookup_insert_eq|by apply (StepNotFound 90)]|].
  rewrite insert_insert_eq.
  eapply rtc_l; [eapply (Advance 0%nat); [by apply lookup_insert_eq|apply (StepOpened _ tt)]|].
  rewrite insert_insert_eq.
  eapply rtc_l; [eapply (Advance 0%nat); [by apply lookup_insert_eq|]|].
  { apply (StepPush 100 sample_args tt _ 0). vm_compute. reflexivity. }
  rewrite insert_insert_eq. eapply rtc_l; [by apply (Arrive 1%nat sample_args)|].
  apply rtc_refl.
Qed.

Lemma cache_exclusive_witness : exclusive sample_system.
Proof. apply (proj1 cache_exclusive), sample_reachable. Defined.

(** ** Purging *)

(** A purge keeps exactly the connections in use and those used within the
    last 55 seconds; the HTTP/2 purge looks at the time only. *)
Theorem purge_spec now (p1 : pool HttpConnection) (p2 : pool HttpsConnection)
    (p3 : pool Http2Connection) :
  pool_wf p1 -> pool_wf p2 -> pool_wf p3 ->
  (forall l, l ∈ p_list (delete_timeout_http_connect now p1) <->
     exists c, l ∈ p_list p1 /\ p_heap p1 !! l = Some c /\
       (in_use (h1_conn c) = true \/ now - last_use (h1_conn c) <= 55)) /\
  (forall l, l ∈ p_list (delete_timeout_https_connect now p2) <->
     exists c, l ∈ p_list p2 /\ p_heap p2 !! l = Some c /\
       (in_use (h1s_conn c) = true \/ now - last_use (h1s_conn c) <= 55)) /\
  (forall l, l ∈ p_list (delete_timeout_http2s_connect now p3) <->
     exists c, l ∈ p_list p3 /\ p_heap p3 !! l = Some c /\ now - last_use (h2s_conn c) <= 55).
Proof.
  assert (G : forall D (dead : D -> bool) (p : pool D) l, pool_wf p ->
    (l ∈ p_list (pool_purge dead p) <->
     exists c, l ∈ p_list p /\ p_heap p !! l = Some c /\ dead c = false)).
  { intros D dead p l Hwf. split.
    - intros Hl. pose proof (pool_purge_sub _ _ _ Hl) as Hl'.
      destruct (wf_valid _ Hwf l Hl') as [c Hc]. exists c.
      apply (pool_purge_elem dead p l c Hc) in Hl as [_ Hd]. done.
    - intros (c & Hl & Hc & Hd). by apply (pool_purge_elem dead p l c Hc). }
  intros H1 H2 H3. unfold delete_timeout_http_connect, delete_timeout_https_connect,
    delete_timeout_http2s_connect. split_and!; intros l; rewrite G by done;
    unfold expired, m_unuse_timeout; (split; [intros (c & Hl & Hc & Hd)|intros (c & Hl & Hc & Hd)]);
    exists c; (split; [done|]; split; [done|]); try destruct (in_use _); simpl in *;
    rewrite ?Z.ltb_ge in *; naive_solver lia.
Qed.

Definition sample_pool : pool HttpConnection :=
  (push_http_connect sample_args 100 pool_empty).2.

Lemma sample_pool_wf : pool_wf sample_pool.
Proof.
  eapply eff_wf, (effect_push 100 pool_empty sample_args tt _ sample_pool); [apply pool_empty_wf|].
  apply surjective_pairing.
Qed.

Lemma purge_spec_witness :
  0%nat ∈ p_list (delete_timeout_http_connect 1000 sample_pool).
Proof.
  apply (purge_spec 1000 sample_pool pool_empty pool_empty sample_pool_wf pool_empty_wf pool_empty_wf).
  exists (mk_HttpConnection sample_args (mk_Connection true 100) (mk_tcp_stream (Some 3) false)).
  split; [|split; [vm_compute; reflexivity|left; reflexivity]].
  by apply list_elem_of_singleton.
Defined.

(** ** One request: a run of the system *)

Section runs.
Context {Args C Sess : Type} `{Laws : ConnCacheLaws Args C Sess}.

Definition req_run : relation (pool C * pc Args Sess) :=
  fun x y => req_step x.1 x.2 y.1 y.2.

Lemma run_lift i x y (rs : gmap nat (pc Args Sess)) :
  rtc req_run x y -> rs !! i = Some x.2 ->
  rtc step (mk_system x.1 rs) (mk_system y.1 (<[i := y.2]> rs)).
Proof.
  intros Hr. revert rs. induction Hr as [x|x y z Hxy _ IH]; intros rs Hi.
  - rewrite insert_id by done. apply rtc_refl.
  - eapply rtc_l; [by apply (Advance i x.2 x.1 rs y.1 y.2)|].
    rewrite <- (insert_insert_eq rs i z.2 y.2). apply IH. apply lookup_insert_eq.
Qed.

Lemma run_cons (p p' : pool C) (q q' : pc Args Sess) z :
  req_step p q p' q' -> rtc req_run (p', q') z -> rtc req_run (p, q) z.
Proof. intros Hs Hr. by apply rtc_l with (p', q'). Qed.

Lemma run_drop (p : pool C) (a : Args) l :
  rtc req_run (p, PcUse a l) (cc_delete l p, PcDone).
Proof. do 2 (eapply run_cons; [constructor|]). apply rtc_refl. Qed.

Lemma run_keep now (p : pool C) (a : Args) l :
  rtc req_run (p, PcUse a l) (cc_release now l p, PcDone).
Proof.
  eapply run_cons; [apply StepDone|]. eapply run_cons; [apply (StepKeep now)|]. apply rtc_refl.
Qed.

End runs.

(** Taking a connection: a run to the exchange, or to the end without a connection. *)
Definition taken {Args C Sess} `{ConnCache Args C Sess} (a : Args) (p : pool C)
    (got : option nat * pool C) : Prop :=
  rtc req_run (p, PcStart a) (got.2, match got.1 with Some l => PcUse a l | None => PcDone end).

(** The two ways opening a connection ends. *)
Ltac run_open_failed := eapply run_cons; [apply StepOpenFailed|apply rtc_refl].
Ltac run_opened sess now :=
  eapply run_cons; [apply (StepOpened _ sess)|];
  eapply run_cons; [by apply (StepPush now)|apply rtc_refl].

Lemma get_http_connect_run nenv args p got :
  get_http_connect nenv args p = Ret got -> taken args p got.
Proof.
  unfold get_http_connect, taken, connect. intros H.
  eapply run_cons; [apply (StepPurge (t_purge nenv))|].
  destruct (find_http_connect _ _ _) as [[l p2]|] eqn:F.
  { simplify_eq/=. eapply run_cons; [by eapply StepFound|apply rtc_refl]. }
  eapply run_cons; [by eapply StepNotFound|].
  destruct (resolve _) as [[|e rr]|]; simplify_eq/=; [|run_open_failed].
  destruct (ec_failed _); simplify_eq/=; [run_open_failed|].
  run_opened tt (t_push nenv).
Qed.

Lemma get_https_connect_run nenv args p got :
  get_https_connect nenv args p = Ret got -> taken args p got.
Proof.
  unfold get_https_connect, taken, connect. intros H.
  eapply run_cons; [apply (StepPurge (t_purge nenv))|].
  destruct (find_https_connect _ _ _) as [[l p2]|] eqn:F.
  { simplify_eq/=. eapply run_cons; [by eapply StepFound|apply rtc_refl]. }
  eapply run_cons; [by eapply StepNotFound|].
  destruct (set_ssl _ _) as [verify|]; [|simplify_eq/=; run_open_failed].
  destruct (resolve _) as [rr|]; [|simplify_eq/=; run_open_failed].
  destruct (net_sni _); [|simplify_eq/=; run_open_failed].
  destruct rr as [|e rr]; simplify_eq/=.
  destruct (ec_failed (net_connect _)); simplify_eq/=; [run_open_failed|].
  destruct (ec_failed (net_handshake _)); simplify_eq/=; [run_open_failed|].
  run_opened verify (t_push nenv).
Qed.

Section exchanges.
Context {Res : Type} `{HttpResponse Res}.

Lemma run_stream {Args C Sess : Type} `{ConnCacheLaws Args C Sess} f (p : pool C) (a : Args) l z :
  stream_write f -> rtc req_run (pool_update f l p, PcUse a l) z -> rtc req_run (p, PcUse a l) z.
Proof. intros Hf. apply run_cons. by constructor. Qed.

Lemma h1_exchange_run (env : io_env Res) args l p :
  rtc req_run (p, PcUse args l) ((h1_exchange env args l p).2, PcDone).
Proof.
  unfold h1_exchange. apply (run_stream (expires_after_http (req_timeout args))); [by intros c|].
  destruct (ec_failed (io_write env)); [exact (run_drop _ args l)|].
  destruct (io_read env) as [ec res].
  destruct (ec_failed ec); [exact (run_drop _ args l)|]. destruct (res_need_eof res).
  - apply (run_stream close_http); [by intros c|]. exact (run_drop _ args l).
  - exact (run_keep (t_release env) _ args l).
Qed.

Lemma h1s_exchange_run (env : io_env Res) args l p :
  rtc req_run (p, PcUse args l) ((h1s_exchange env args l p).2, PcDone).
Proof.
  unfold h1s_exchange.
  apply (run_stream (expires_after_https (req_timeout (base_args args)))); [by intros c|].
  destruct (ec_failed (io_write env)); [exact (run_drop _ args l)|].
  destruct (io_read env) as [ec res].
  destruct (ec_failed ec); [exact (run_drop _ args l)|]. destruct (res_need_eof res); [exact (run_drop _ args l)|].
  exact (run_keep (t_release env) _ args l).
Qed.

(** C2. A call of [h1_req], plain or TLS, is a run of its request through the
    atomic steps of the system, from its start to its return, whatever the
    other requests are doing; the other two lists of the cache are untouched. *)
Theorem h1_req_is_run nenv (env : io_env Res) c res c' i :
  (forall args rs,
     rs !! i = Some (PcStart args) ->
     h1_req nenv env args (Some c) = Ret (res, c') ->
     exists p, c' = Some (mk_HttpCache p (m_h1s_conns c) (m_h2s_conns c)) /\
       rtc step (mk_system (m_h1_conns c) rs) (mk_system p (<[i := PcDone]> rs))) /\
  (forall args rs,
     rs !! i = Some (PcStart args) ->
     h1s_req nenv env args (Some c) = Ret (res, c') ->
     exists p, c' = Some (mk_HttpCache (m_h1_conns c) p (m_h2s_conns c)) /\
       rtc step (mk_system (m_h1s_conns c) rs) (mk_system p (<[i := PcDone]> rs))).
Proof.
  split; intros args rs Hi; simpl.
  - destruct (get_http_connect _ _ _) as [[[l|] p1]|e|] eqn:E; [|simpl|done..].
    + pose proof (h1_exchange_run env args l p1) as Hx. simpl.
      destruct (h1_exchange _ _ _ _) as [r p]. intros [= <- <-]. exists p. split; [done|].
      apply (run_lift i (m_h1_conns c, PcStart args) (p, PcDone)); [|done].
      etrans; [exact (get_http_connect_run _ _ _ _ E)|done].
    + intros [= <- <-]. exists p1. split; [done|].
      apply (run_lift i (m_h1_conns c, PcStart args) (p1, PcDone)); [|done].
      exact (get_http_connect_run _ _ _ _ E).
  - destruct (get_https_connect _ _ _) as [[[l|] p1]|e|] eqn:E; [|simpl|done..].
    + pose proof (h1s_exchange_run env args l p1) as Hx. simpl.
      destruct (h1s_exchange _ _ _ _) as [r p]. intros [= <- <-]. exists p. split; [done|].
      apply (run_lift i (m_h1s_conns c, PcStart args) (p, PcDone)); [|done].
      etrans; [exact (get_https_connect_run _ _ _ _ E)|done].
    + intros [= <- <-]. exists p1. split; [done|].
      apply (run_lift i (m_h1s_conns c, PcStart args) (p1, PcDone)); [|done].
      exact (get_https_connect_run _ _ _ _ E).
Qed.

End exchanges.

Definition sample_net : net_env :=
  mk_net_env 90 90 (Some (ec_ok, [(lit "10.0.0.1", 80)])) ec_ok ec_ok true ec_ok ec_ok true 100.

Definition sample_response : simple_response := mk_simple_response 200 11 [] true (lit "hi") (Some 2).

Definition sample_io : io_env simple_response :=
  mk_io_env ec_ok (ec_ok, sample_response) ec_ok 101.

Lemma h1_req_is_run_witness : exists p,
  rtc step (mk_system (m_h1_conns HttpCache_new) (<[0%nat := PcStart sample_args]> ∅))
    (mk_system p (<[0%nat := PcDone]> (<[0%nat := PcStart sample_args]> ∅))).
Proof.
  destruct (h1_req sample_net sample_io sample_args (Some HttpCache_new)) as [[r c']|e|] eqn:E.
  - destruct (proj1 (h1_req_is_run sample_net sample_io HttpCache_new r c' 0) sample_args
      (<[0%nat := PcStart sample_args]> ∅) (lookup_insert_eq _ _ _) E) as (p & _ & Hp). by exists p.
  - vm_compute in E. discriminate E.
  - vm_compute in E. discriminate E.
Defined.

(** ** What a request returns, and what it leaves in the cache *)

Section outcomes.
Context {Res : Type} `{HttpResponseLaws Res}.

Definition status_of (ec : error_code) : Z :=
  if bool_decide (ec = beast_error_timeout) then 408 else 444.

Lemma failed_result_status ec (r : Res) : res_result (failed_result ec r) = status_of ec.
Proof.
  unfold failed_result, status_of. case_bool_decide; by rewrite result_set_result.
Qed.

(** After an exchange over [l]: a failure gives 408 or 444 and drops the
    connection; a response that ends the connection drops it; any other leaves
    it idle in the cache, dated by the release. *)
Definition exchange_post {C} (conn : C -> Connection) (env : io_env Res) (l : nat)
    (p : pool C) (r : Res) (p' : pool C) : Prop :=
  pool_wf p' /\ others_kept l p p' /\
  if ec_failed (io_write env) then res_result r = status_of (io_write env) /\ l ∉ p_list p'
  else if ec_failed (io_read env).1 then
    res_result r = status_of (io_read env).1 /\ l ∉ p_list p'
  else r = (io_read env).2 /\
    if res_need_eof r then l ∉ p_list p'
    else l ∈ p_list p' /\ exists c, p_heap p' !! l = Some c /\
           conn c = mk_Connection false (t_release env).

Lemma drop_post {C} (fs : list (C -> C)) l (p : pool C) :
  pool_wf p ->
  let p' := pool_remove l (fold_left (fun q f => pool_update f l q) fs p) in
  pool_wf p' /\ others_kept l p p' /\ l ∉ p_list p'.
Proof.
  revert p. induction fs as [|f fs IH]; intros p Hwf; cbn [fold_left].
  - split_and!; [by apply pool_remove_wf|by apply others_kept_remove|by apply removed_not_listed].
  - destruct (IH (pool_update f l p)) as (Hw & Ho & Hl); [eauto with jkit|].
    split; [done|]. split; [|done]. eauto with jkit.
Qed.

Lemma keep_post {C} (conn : C -> Connection) (f g : C -> C) now l (p : pool C) :
  pool_wf p -> l ∈ p_list p -> (forall c, conn (g c) = mk_Connection false now) ->
  let p' := pool_update_listed g l (pool_update f l p) in
  pool_wf p' /\ others_kept l p p' /\ l ∈ p_list p' /\
  exists c, p_heap p' !! l = Some c /\ conn c = mk_Connection false now.
Proof.
  intros Hwf Hl Hg p'.
  split; [unfold p'; eauto with jkit|]. split; [unfold p'; eauto with jkit|].
  unfold p', pool_update_listed. rewrite bool_decide_eq_true_2 by done. split; [done|].
  destruct (wf_valid _ Hwf l Hl) as [c Hc]. exists (g (f c)). simpl.
  by rewrite !lookup_alter_eq, Hc.
Qed.

Lemma h1_exchange_post (env : io_env Res) args l p r p' :
  pool_wf p -> l ∈ p_list p -> h1_exchange env args l p = (r, p') ->
  exchange_post h1_conn env l p r p'.
Proof.
  intros Hwf Hl. unfold h1_exchange, exchange_post.
  set (f := expires_after_http _). pose proof (drop_post [f] l p Hwf) as (? & ? & ?).
  destruct (ec_failed (io_write env)).
  { intros [= <- <-]. rewrite failed_result_status. done. }
  destruct (io_read env) as [ec res]; simpl. destruct (ec_failed ec).
  { intros [= <- <-]. rewrite failed_result_status. done. }
  destruct (res_need_eof res) eqn:E; intros [= <- <-]; rewrite E.
  - pose proof (drop_post [f; close_http] l p Hwf) as (? & ? & ?). done.
  - destruct (keep_post h1_conn f (give_back_http (t_release env)) (t_release env) l p Hwf Hl) as (? & ? & ? & ?); [|done]. done.
Qed.

Lemma h1s_exchange_post (env : io_env Res) args l p r p' :
  pool_wf p -> l ∈ p_list p -> h1s_exchange env args l p = (r, p') ->
  exchange_post h1s_conn env l p r p'.
Proof.
  intros Hwf Hl. unfold h1s_exchange, exchange_post.
  set (f := expires_after_https _). pose proof (drop_post [f] l p Hwf) as (? & ? & ?).
  destruct (ec_failed (io_write env)).
  { intros [= <- <-]. rewrite failed_result_status. done. }
  destruct (io_read env) as [ec res]; simpl. destruct (ec_failed ec).
  { intros [= <- <-]. rewrite failed_result_status. done. }
  destruct (res_need_eof res) eqn:E; intros [= <- <-]; rewrite E; [done|].
  destruct (keep_post h1s_conn f (give_back_https (t_release env)) (t_release env) l p Hwf Hl) as (? & ? & ? & ?); [|done]. done.
Qed.

(** The connection a run ends with is held. *)
Lemma taken_held {Args C Sess} `{ConnCacheLaws Args C Sess} (a : Args) (p : pool C) got :
  pool_wf p -> taken a p got ->
  pool_wf got.2 /\ forall l, got.1 = Some l -> held_ok got.2 a l.
Proof.
  intros Hwf Ht. unfold taken in Ht.
  assert (G : forall x y, rtc req_run x y ->
    pool_wf x.1 -> (forall b l, holds x.2 = Some (b, l) -> held_ok x.1 b l) ->
    pool_wf y.1 /\ (forall b l, holds y.2 = Some (b, l) -> held_ok y.1 b l)).
  { induction 1 as [x|x y z Hxy _ IH]; [done|]. intros Hx Hh.
    destruct (req_step_effect _ _ _ _ Hx Hh Hxy) as [? ? _ _ _]. by apply IH. }
  destruct (G _ _ Ht Hwf) as [Hw Hl]; [done|]. simpl in *. split; [done|].
  intros l El. rewrite El in Hl. by apply Hl.
Qed.

Lemma get_http_connect_none nenv args p p' :
  get_http_connect nenv args p = Ret (None, p') ->
  p' = delete_timeout_http_connect (t_purge nenv) p.
Proof.
  unfold get_http_connect, connect, push_http_connect.
  destruct (find_http_connect _ _ _) as [[]|]; [done|].
  destruct (resolve _) as [[|]|]; [done| |congruence]. simpl.
  destruct (ec_failed _); simpl; congruence.
Qed.

Lemma get_https_connect_none nenv args p p' :
  get_https_connect nenv args p = Ret (None, p') ->
  p' = delete_timeout_https_connect (t_purge nenv) p.
Proof.
  unfold get_https_connect, connect, push_https_connect.
  destruct (find_https_connect _ _ _) as [[]|]; [done|].
  destruct (set_ssl _ _); [|congruence]. destruct (resolve _) as [rr|]; [|congruence].
  destruct (net_sni _); [|simpl; congruence]. destruct rr; simpl; [done|].
  destruct (ec_failed (net_connect _)); simpl; [congruence|].
  destruct (ec_failed _); simpl; congruence.
Qed.

(** C15. [h1_req], plain and TLS: without a connection the status is 599 and the
    cache is only purged; otherwise the connection leads to the peer asked for,
    and the exchange decides between the response read (the connection back in
    the cache, idle and dated, unless the response ends it) and the statuses
    408 and 444 with the connection dropped; no other connection changes. *)
Theorem h1_req_spec nenv (env : io_env Res) c :
  pool_wf (m_h1_conns c) -> pool_wf (m_h1s_conns c) ->
  (forall args got, get_http_connect nenv args (m_h1_conns c) = Ret got ->
     exists r p', h1_req nenv env args (Some c) =
       Ret (r, Some (mk_HttpCache p' (m_h1s_conns c) (m_h2s_conns c))) /\
       match got.1 with
       | None => res_result r = 599 /\ p' = delete_timeout_http_connect (t_purge nenv) (m_h1_conns c)
       | Some l => held_ok got.2 args l /\ exchange_post h1_conn env l got.2 r p'
       end) /\
  (forall args got, get_https_connect nenv args (m_h1s_conns c) = Ret got ->
     exists r p', h1s_req nenv env args (Some c) =
       Ret (r, Some (mk_HttpCache (m_h1_conns c) p' (m_h2s_conns c))) /\
       match got.1 with
       | None => res_result r = 599 /\ p' = delete_timeout_https_connect (t_purge nenv) (m_h1s_conns c)
       | Some l => held_ok got.2 args l /\ exchange_post h1s_conn env l got.2 r p'
       end).
Proof.
  intros Hwf Hwfs. split; intros args got E.
  - destruct (taken_held _ _ _ Hwf (get_http_connect_run _ _ _ _ E)) as [Hw Hh].
    unfold h1_req. rewrite E. destruct got as [[l|] p1]; simpl in *.
    + specialize (Hh l eq_refl). destruct (h1_exchange env args l p1) as [r p'] eqn:Ex.
      exists r, p'. split; [done|]. split; [done|]. eapply h1_exchange_post; [done|apply Hh|done].
    + eexists _, _. split; [done|]. split; [by rewrite result_set_result|].
      by apply get_http_connect_none in E.
  - destruct (taken_held _ _ _ Hwfs (get_https_connect_run _ _ _ _ E)) as [Hw Hh].
    unfold h1s_req. rewrite E. destruct got as [[l|] p1]; simpl in *.
    + specialize (Hh l eq_refl). destruct (h1s_exchange env args l p1) as [r p'] eqn:Ex.
      exists r, p'. split; [done|]. split; [done|]. eapply h1s_exchange_post; [done|apply Hh|done].
    + eexists _, _. split; [done|]. split; [by rewrite result_set_result|].
      by apply get_https_connect_none in E.
Qed.

(** ** HTTP/2 *)

Context {Req : Type} `{HttpRequest Req}.

Lemma insert_fields_result (header : list (str * str)) (r : Res) :
  res_result (fold_left (fun r kv => insert_field kv.1 kv.2 r) header r) = res_result r.
Proof.
  revert r. induction header as [|kv header IH]; intros r; simpl; [done|].
  by rewrite IH, result_insert_field.
Qed.

(** The data callbacks append the chunks, and the empty one ends the wait. *)
Lemma h2_wait_data (chunks : list str) rest (r : Res) b :
  Forall (fun d => d <> []) chunks ->
  h2_wait (mk_h2_state r b true false) (map OnData chunks ++ OnData [] :: rest) =
    Ret (mk_h2_state r (b ++ concat chunks) true true).
Proof.
  intros Hc. revert b. induction Hc as [|d chunks Hd _ IH]; intros b; simpl.
  - rewrite app_nil_r. by destruct rest.
  - destruct d as [|x d]; [done|].
    replace (0 <? str_size (x :: d)) with true by (symmetry; apply Z.ltb_lt; unfold str_size; simpl; lia).
    simpl. rewrite IH. by rewrite <- app_assoc.
Qed.

(** Status codes that [result] takes, and events without an empty chunk after a
    response: the promise is not set. *)
Definition code_ok (e : h2_event) : Prop :=
  match e with OnResponse code _ => 0 <= code <= 999 | OnData _ => True end.

Definition unfinished (events : list h2_event) : Prop :=
  forall before code header after, events = before ++ OnResponse code header :: after -> OnData [] ∉ after.

Lemma insert_fields_body (header : list (str * str)) (r : Res) :
  res_body (fold_left (fun r kv => insert_field kv.1 kv.2 r) header r) = res_body r.
Proof. revert r. induction header as [|kv header IH]; intros r; simpl; [done|]. by rewrite IH, body_insert_field. Qed.

Lemma unfinished_cons e events : unfinished (e :: events) -> unfinished events.
Proof. intros Hu before code header after ->. by apply (Hu (e :: before) code header). Qed.

Lemma h2_wait_unfinished events (st : h2_state Res) :
  h2_done st = false -> Forall code_ok events -> unfinished events ->
  (h2_on_data st = true -> OnData [] ∉ events) ->
  exists st', h2_wait st events = Ret st' /\ h2_done st' = false /\ res_body (h2_res st') = res_body (h2_res st).
Proof.
  revert st. induction events as [|e events IH]; intros st Hd Hc Hu Ho; simpl; rewrite Hd; [by exists st|].
  apply Forall_cons in Hc as [He Hc]. pose proof (unfinished_cons _ _ Hu) as Hu'.
  destruct e as [code header|data]; simpl.
  - unfold wrap_u. rewrite Z.mod_small, (proj2 (Z.ltb_ge 999 code)) by (simpl in He; lia). simpl.
    match goal with |- context [h2_wait ?x events] => destruct (IH x) as (st' & E & Hd' & Hb); [done|done|done| |] end.
    + intros _. by apply (Hu [] code header).
    + exists st'. split_and!; [exact E|done|]. simpl in Hb. by rewrite Hb, insert_fields_body, body_set_result.
  - destruct (h2_on_data st) eqn:Eo; simpl; [|by apply IH; rewrite ?Eo].
    specialize (Ho eq_refl). apply not_elem_of_cons in Ho as [Hne Ho].
    destruct data as [|c data]; [done|]. replace (0 <? _) with true by (symmetry; apply Z.ltb_lt; unfold str_size; simpl; lia).
    simpl. match goal with |- context [h2_wait ?x events] => destruct (IH x) as (st' & E & Hd' & Hb); [done..|] end.
    exists st'. by split_and!; [exact E|..].
Qed.

(** Data before a response is not seen. *)
Lemma h2_wait_early (early : list str) events (r : Res) :
  h2_wait (mk_h2_state r [] false false) (map OnData early ++ events) = h2_wait (mk_h2_state r [] false false) events.
Proof. by induction early. Qed.

(** The state of the callbacks after the header of the response. *)
Lemma h2_wait_header code header events :
  0 <= code <= 999 ->
  h2_wait (mk_h2_state res_default [] false false) (OnResponse code header :: events) =
  h2_wait (mk_h2_state (fold_left (fun r kv => insert_field kv.1 kv.2 r) header
    (set_result code (res_default (Res := Res)))) [] true false) events.
Proof.
  intros Hcode. simpl. unfold wrap_u. rewrite Z.mod_small by lia.
  replace (999 <? code) with false by (symmetry; apply Z.ltb_ge; lia). done.
Qed.

(** An exchange whose events end with the empty chunk. *)
Lemma h2_exchange_answered (env : h2_env) (req : Req) l conn (p : pool Http2Connection)
    early code header chunks rest :
  ec_failed (h2_submit env (req_method req) (h2_uri conn req) (req_body req) (h2_headers req)) = false ->
  0 <= code <= 999 -> Forall (fun d => d <> []) chunks ->
  h2_events env = map OnData early ++ OnResponse code header :: map OnData chunks ++ OnData [] :: rest ->
  let body := concat chunks in
  let answer := fold_left (fun r kv => insert_field kv.1 kv.2 r) header (set_result code (res_default : Res)) in
  h2_exchange env req l conn p =
  if bool_decide (body = []) then Ret (answer, p)
  else if (code =? 204) || (code =? 304) then Throw invalid_argument
  else Ret (set_content_length (str_size body) (set_body body answer), p).
Proof.
  intros Hs Hcode Hc He body answer. unfold h2_exchange. rewrite Hs, He.
  rewrite h2_wait_early, h2_wait_header, h2_wait_data by done. cbn [obind h2_done negb h2_tmp_body h2_res].
  change ([] ++ concat chunks) with body. case_bool_decide as Eb; [by rewrite Eb|].
  assert (Hsz : 0 < str_size body) by (destruct body; [done|unfold str_size; simpl; lia]).
  rewrite (proj2 (Z.eqb_neq (str_size body) 0)), prepare_payload_throws by lia.
  rewrite body_set_body, result_set_body, (proj2 (Z.ltb_lt 0 (str_size body))) by done.
  rewrite insert_fields_result, result_set_result. simpl.
  unfold status.no_content, status.not_modified. by destruct (_ || _).
Qed.

(** C22. [h2_req] over a session.  The request is submitted with its method, its
    target behind "https://host:port", its body and all its fields, of which only
    "Authorization" is kept out of the compression tables.  When the session refuses it
    the answer is 444, and when no empty chunk follows a response in time it is
    408 without a body; both drop the session.  Otherwise the answer has the status
    of the response, its header fields in order and the chunks before the empty one
    as its body, with their length, and the session stays in the cache; data
    before the response is lost.  A status that admits no body (204, 304) with
    body bytes throws out of the [noexcept] function. *)
Theorem h2_exchange_spec (env : h2_env) (req : Req) l conn (p : pool Http2Connection) :
  let args := base_args (h2s_args conn) in
  let refused := ec_failed (h2_submit env (req_method req)
      (lit "https://" ++ host args ++ lit ":" ++ port args ++ req_target req) (req_body req)
      (map (fun f => mk_h2_header f.1 f.2 (bool_decide (f.1 = lit "Authorization"))) (req_fields req))) in
  (refused = true ->
     h2_exchange env req l conn p = Ret (set_result 444 (res_default : Res), delete_invalid_http2s_connect l p)) /\
  (refused = false -> Forall code_ok (h2_events env) -> unfinished (h2_events env) ->
     exists r : Res, h2_exchange env req l conn p = Ret (r, delete_invalid_http2s_connect l p) /\
       res_result r = 408 /\ res_body r = []) /\
  (forall early code header chunks rest,
     refused = false -> 0 <= code <= 999 -> Forall (fun d => d <> []) chunks ->
     h2_events env = map OnData early ++ OnResponse code header :: map OnData chunks ++ OnData [] :: rest ->
     let body := concat chunks in
     let answer := fold_left (fun r kv => insert_field kv.1 kv.2 r) header (set_result code (res_default : Res)) in
     h2_exchange env req l conn p =
     if bool_decide (body = []) then Ret (answer, p)
     else if (code =? 204) || (code =? 304) then Throw invalid_argument
     else Ret (set_content_length (str_size body) (set_body body answer), p)).
Proof.
  intros args refused.
  assert (Hr : ec_failed (h2_submit env (req_method req) (h2_uri conn req) (req_body req) (h2_headers req)) = refused).
  { unfold refused, h2_headers, h2_uri. do 2 f_equal. apply map_ext. intros f. unfold h2_header_of. by case_bool_decide. }
  split_and!.
  - unfold h2_exchange. rewrite Hr. by intros ->.
  - unfold h2_exchange. rewrite Hr. intros -> Hc Hu.
    destruct (h2_wait_unfinished (h2_events env) (mk_h2_state res_default [] false false))
      as (st & -> & Hd & Hb); [done..|]. simpl. rewrite Hd. eexists. split; [done|].
    by rewrite result_set_result, body_set_result, Hb; simpl; rewrite body_default.
  - intros early code header chunks rest Hf Hcode Hc He. rewrite <- Hr in Hf.
    by apply (h2_exchange_answered env req l conn p early code header chunks rest).
Qed.

End outcomes.

Lemma h1_req_spec_witness : exists r p',
  h1_req sample_net sample_io sample_args (Some HttpCache_new) =
    Ret (r, Some (mk_HttpCache p' pool_empty pool_empty)).
Proof.
  destruct (get_http_connect sample_net sample_args (m_h1_conns HttpCache_new)) as [got|e|] eqn:E.
  - destruct (proj1 (h1_req_spec sample_net sample_io HttpCache_new pool_empty_wf pool_empty_wf)
      sample_args got E) as (r & p' & Hr & _). by exists r, p'.
  - vm_compute in E. discriminate E.
  - vm_compute in E. discriminate E.
Defined.

Definition sample_request : simple_request :=
  mk_simple_request (lit "GET") 2 (lit "/") 11 true [] [(lit "Authorization", lit "k")] [].

Definition sample_h2_conn : Http2Connection :=
  mk_Http2Connection HttpsReqArgument_default (mk_Connection true 100) verify_none.

Definition sample_h2_env : h2_env :=
  mk_h2_env (fun _ _ _ _ => ec_ok)
    (map OnData [lit "early"] ++ OnResponse 200 [(lit "server", lit "x")] :: map OnData [lit "ab"; lit "c"] ++ [OnData []]).

Lemma h2_exchange_spec_witness :
  h2_exchange sample_h2_env sample_request 0 sample_h2_conn pool_empty =
  Ret (set_content_length 3 (set_body (lit "abc") (insert_field (lit "server") (lit "x")
         (set_result 200 (res_default : simple_response)))), pool_empty).
Proof.
  assert (Hd : Forall (fun d : str => d <> []) [lit "ab"; lit "c"]) by (repeat constructor; done).
  exact (proj2 (proj2 (h2_exchange_spec sample_h2_env sample_request 0 sample_h2_conn pool_empty))
    [lit "early"] 200 [(lit "server", lit "x")] [lit "ab"; lit "c"] [] eq_refl ltac:(lia) Hd eq_refl).
Defined.

(** ** Reuse of connections *)

(** C40. When a connection to the peer is listed, idle and used within the last
    55 seconds, the request gets a listed connection, whatever the network
    would answer: nothing is resolved and nothing is opened. *)
Theorem idle_connection_is_reused args tp tf (p : pool HttpConnection) l c :
  pool_wf p -> l ∈ p_list p -> p_heap p !! l = Some c ->
  in_use (h1_conn c) = false -> same_peer (h1_args c) args = true ->
  tp - last_use (h1_conn c) <= 55 ->
  exists k p', k ∈ p_list p /\ held_ok p' args k /\
    forall nenv, t_purge nenv = tp -> t_find nenv = tf ->
      get_http_connect nenv args p = Ret (Some k, p').
Proof.
  intros Hwf Hl Hc Hu Hp Ht.
  set (p1 := delete_timeout_http_connect tp p).
  assert (Hl1 : l ∈ p_list p1).
  { apply (pool_purge_elem _ _ _ c Hc). split; [done|]. rewrite Hu. simpl.
    unfold expired, m_unuse_timeout. apply Z.ltb_ge. lia. }
  destruct (find_http_connect args tf p1) as [[k p']|] eqn:F.
  - exists k, p'. split; [|split].
    + unfold find_http_connect in F. destruct (pool_find _ p1) as [k'|] eqn:E; [|done].
      simplify_eq. apply pool_find_Some in E as [Hk _]. by eapply pool_purge_sub.
    + eapply (eff_held p1 (PcFind args) p' (PcUse args k)); [|done].
      apply (effect_found tf); [|done]. by apply pool_purge_wf.
    + intros nenv <- <-. unfold get_http_connect. fold p1. by rewrite F.
  - unfold find_http_connect in F. destruct (pool_find _ p1) as [k'|] eqn:E; [done|].
    pose proof (pool_find_None _ _ l c E Hl1 Hc) as Hn. simpl in Hn. by rewrite Hu, Hp in Hn.
Qed.

Definition idle_pool : pool HttpConnection := release_http_connect 100 0 sample_pool.

Lemma idle_pool_wf : pool_wf idle_pool.
Proof. apply pool_update_listed_wf, sample_pool_wf. Qed.

Lemma idle_connection_is_reused_witness : exists k p', k ∈ p_list idle_pool /\
  get_http_connect (mk_net_env 155 156 None ec_ok ec_ok true ec_ok ec_ok true 0) sample_args idle_pool =
    Ret (Some k, p').
Proof.
  destruct (idle_connection_is_reused sample_args 155 156 idle_pool 0
    (mk_HttpConnection sample_args (mk_Connection false 100) (mk_tcp_stream None false))
    idle_pool_wf) as (k & p' & Hk & _ & Hg).
  - vm_compute. left.
  - vm_compute. reflexivity.
  - reflexivity.
  - vm_compute. reflexivity.
  - simpl. lia.
  - exists k, p'. split; [exact Hk|]. apply Hg; reflexivity.
Defined.

(** C34. Which verification the TLS connection of a request has: a connection
    opened for the request verifies the peer exactly when the request carries a
    certificate, but a reused one keeps the mode it was opened with, whatever
    certificate the new request carries. *)
Theorem https_verification nenv args (p : pool HttpsConnection) l p' :
  get_https_connect nenv args p = Ret (Some l, p') ->
  exists c, p_heap p' !! l = Some c /\ ssl_cert (h1s_args c) = ssl_cert args /\
    match p_heap p !! l with
    | None => h1s_verify c =
        match ssl_cert args with [] => verify_none | _ => verify_peer (ssl_cert args) end
    | Some old => h1s_verify c = h1s_verify old
    end.
Proof.
  unfold get_https_connect, find_https_connect, connect. set (p1 := delete_timeout_https_connect _ p).
  destruct (pool_find _ p1) as [k|] eqn:E.
  { intros [= -> <-]. apply pool_find_Some in E as (_ & c & Hc & _).
    change (p_heap p1) with (p_heap p) in Hc.
    exists (take_over_https args (t_find nenv) c). simpl. by rewrite lookup_alter_eq, Hc. }
  destruct (set_ssl _ _) as [verify|] eqn:V; [|done].
  destruct (resolve _) as [rr|]; [|done]. destruct (net_sni _); [|done].
  destruct rr as [|e rr]; [done|]. simpl. destruct (ec_failed (net_connect _)); [done|]. simpl.
  destruct (ec_failed (net_handshake _)); [done|].
  set (j := fresh _). assert (Hj : p_heap p !! j = None) by apply not_elem_of_dom, is_fresh.
  clearbody j. intros [= <- <-]. simpl. rewrite Hj, lookup_insert_eq. eexists. split; [done|].
  split; [done|]. simpl. unfold set_ssl in V. destruct (ssl_cert args) as [|x cert].
  - vm_compute in V. congruence.
  - destruct (negb _) eqn:E0 in V; [|done]. destruct (ec_failed _); congruence.
Qed.

(** The first request carries no certificate, the second one does. *)
Definition https_args (cert : str) : HttpsReqArgument := mk_HttpsReqArgument sample_args 3 cert.

Definition unverified_pool : pool HttpsConnection :=
  release_https_connect 101 0 (push_https_connect (https_args []) verify_none 100 pool_empty).2.

Lemma https_verification_witness : exists l p' c,
  get_https_connect sample_net (https_args (lit "CA")) unverified_pool = Ret (Some l, p') /\
  p_heap p' !! l = Some c /\ ssl_cert (h1s_args c) = lit "CA" /\ h1s_verify c = verify_none.
Proof.
  set (p' := pool_update (take_over_https (https_args (lit "CA")) 90) 0 unverified_pool).
  assert (E : get_https_connect sample_net (https_args (lit "CA")) unverified_pool =
    Ret (Some 0%nat, p')) by (vm_compute; reflexivity).
  destruct (https_verification sample_net (https_args (lit "CA")) unverified_pool 0 p' E)
    as (c & Hc & Hs & Hv).
  exists 0%nat, p', c. split; [exact E|]. split; [exact Hc|]. split; [exact Hs|].
  rewrite Hv. vm_compute. reflexivity.
Defined.
