(* ===== verification/CxxMap.v ===== *)
(** * std::map with string keys

    The associative containers of the sources are ordered maps keyed by
    strings: the resources of the server (keyed by the text of a regular
    expression) and the members of a JSON object.  A map is the list of its
    entries in key order. *)
From stdpp Require Import prelude strings.
From Stdlib Require Import Ascii ZArith Lia Sorted.
From S2P Require Import Prelude CxxLib.

Local Open Scope Z_scope.

(** [std::string::operator<] compares the characters as unsigned. *)
Fixpoint str_ltb (s t : str) : bool :=
  match s, t with
  | _, [] => false
  | [], _ :: _ => true
  | c :: s', d :: t' =>
      if uchar c <? uchar d then true
      else if uchar d <? uchar c then false else str_ltb s' t'
  end.

(** [std::map::operator[]] followed by an assignment. *)
Fixpoint map_set {V} (k : str) (v : V) (m : list (str * V)) : list (str * V) :=
  match m with
  | [] => [(k, v)]
  | (k', v') :: m' =>
      if str_ltb k k' then (k, v) :: m
      else if str_ltb k' k then (k', v') :: map_set k v m' else (k, v) :: m'
  end.

(** Keys in strictly increasing order, as a [std::map] keeps them. *)
Definition key_lt {V} (x y : str * V) : Prop := str_ltb x.1 y.1 = true.
Definition ordered {V} (m : list (str * V)) : Prop := StronglySorted key_lt m.

Fixpoint map_get {V} (k : str) (m : list (str * V)) : option V :=
  match m with
  | [] => None
  | (k', v) :: m' => if bool_decide (k = k') then Some v else map_get k m'
  end.

(** [std::map::erase(key)]. *)
Fixpoint map_erase {V} (k : str) (m : list (str * V)) : list (str * V) :=
  match m with
  | [] => []
  | (k', v) :: m' => if bool_decide (k = k') then m' else (k', v) :: map_erase k m'
  end.

(** ** The order *)

Lemma str_ltb_irrefl s : str_ltb s s = false.
Proof. induction s as [|c s IH]; simpl; [done|]. by rewrite Z.ltb_irrefl. Qed.

Lemma uchar_inj c d : uchar c = uchar d -> c = d.
Proof. unfold uchar. intros Hc%N2Z.inj. rewrite <- (ascii_N_embedding c), <- (ascii_N_embedding d). by f_equal. Qed.

Lemma str_ltb_total s t : str_ltb s t = false -> str_ltb t s = false -> s = t.
Proof.
  revert t. induction s as [|c s IH]; intros [|d t]; simpl; try done.
  destruct (Z.ltb_spec (uchar c) (uchar d)); [done|].
  destruct (Z.ltb_spec (uchar d) (uchar c)); [done|]. intros H1 H2.
  f_equal; [apply uchar_inj; lia|by apply IH].
Qed.

Lemma str_ltb_trans s t u : str_ltb s t = true -> str_ltb t u = true -> str_ltb s u = true.
Proof.
  revert t u. induction s as [|c s IH]; intros [|d t] [|e u]; simpl; try done.
  destruct (Z.ltb_spec (uchar c) (uchar d)), (Z.ltb_spec (uchar d) (uchar e)),
    (Z.ltb_spec (uchar d) (uchar c)), (Z.ltb_spec (uchar e) (uchar d)),
    (Z.ltb_spec (uchar c) (uchar e)), (Z.ltb_spec (uchar e) (uchar c)); try done; try lia.
  apply IH.
Qed.

(** ** Lookup, insertion and erasure *)

Lemma map_set_keys {V} k (v : V) m x :
  x ∈ map_set k v m -> x = (k, v) \/ x ∈ m.
Proof.
  induction m as [|[k' v'] m IH]; simpl; [set_solver|].
  destruct (str_ltb k k'); [set_solver|]. destruct (str_ltb k' k); set_solver.
Qed.

Lemma map_set_ordered {V} k (v : V) m : ordered m -> ordered (map_set k v m).
Proof.
  unfold ordered. induction 1 as [|[k' v'] m Hm IH Hk]; simpl; [by repeat constructor|].
  destruct (str_ltb k k') eqn:E.
  { constructor; [by constructor|]. constructor; [done|]. rewrite Forall_forall in *.
    intros y Hy. eapply str_ltb_trans; [done|]. by apply (Hk y). }
  destruct (str_ltb k' k) eqn:E'.
  - constructor; [done|]. rewrite Forall_forall in *. intros y [->|Hy]%map_set_keys; [done|].
    by apply Hk.
  - assert (k = k') as -> by by apply str_ltb_total. by constructor.
Qed.

Lemma map_get_set {V} k k' (v : V) m :
  map_get k' (map_set k v m) = if bool_decide (k' = k) then Some v else map_get k' m.
Proof.
  induction m as [|[j w] m IH]; simpl; [done|].
  destruct (str_ltb k j) eqn:E; simpl; [by repeat case_bool_decide|].
  destruct (str_ltb j k) eqn:E'; simpl.
  - rewrite IH. case_bool_decide; [|done]. case_bool_decide; [|done]. subst.
    by rewrite str_ltb_irrefl in E'.
  - assert (k = j) as -> by by apply str_ltb_total. by repeat case_bool_decide.
Qed.

Lemma map_get_above {V} k (m : list (str * V)) :
  Forall (fun x => str_ltb k x.1 = true) m -> map_get k m = None.
Proof.
  induction 1 as [|[k' v] m Hk _ IH]; simpl in *; [done|]. case_bool_decide; [|done]. subst.
  by rewrite str_ltb_irrefl in Hk.
Qed.

Lemma map_get_erase {V} k k' (m : list (str * V)) :
  ordered m -> map_get k' (map_erase k m) = if bool_decide (k' = k) then None else map_get k' m.
Proof.
  unfold ordered. induction 1 as [|[j w] m Hm IH Hj]; simpl; [by case_bool_decide|].
  destruct (decide (k = j)) as [->|Hne].
  - rewrite (bool_decide_eq_true_2 (j = j)) by done. case_bool_decide; [|done]. subst k'.
    apply map_get_above. eapply Forall_impl; [exact Hj|]. by intros [].
  - rewrite (bool_decide_eq_false_2 (k = j)) by done. simpl. rewrite IH.
    repeat case_bool_decide; congruence.
Qed.

Lemma map_erase_sub {V} k (m : list (str * V)) x : x ∈ map_erase k m -> x ∈ m.
Proof.
  induction m as [|[j w] m IH]; simpl; [done|]. case_bool_decide; set_solver.
Qed.

Lemma map_erase_ordered {V} k (m : list (str * V)) : ordered m -> ordered (map_erase k m).
Proof.
  unfold ordered. induction 1 as [|[j w] m Hm IH Hj]; simpl; [constructor|].
  case_bool_decide; [done|]. constructor; [done|]. rewrite Forall_forall in *.
  intros y Hy%map_erase_sub. by apply Hj.
Qed.

#[export] Hint Resolve map_set_ordered map_erase_ordered : jkit.
