(* ===== verification/HttpServer.v ===== *)
(** * http/http_api_server.cpp: resources, requests and sessions

    The dispatch of a request to a resource function, the default answers, and
    the loop of a session.  Resource functions change the context in place and
    may throw: they are functions on the context that also say how they ended.
    The regular expressions are boost.regex's, a parameter. *)
From stdpp Require Import prelude strings.
From Stdlib Require Import Ascii ZArith Lia.
From S2P Require Import Prelude CxxLib FiberFuture HttpMessage WebUtility CxxMap.

Local Open Scope Z_scope.

(** ** Exceptions *)

Inductive thrown : Type :=
| std_exn (what : str)   (* derived from std::exception *)
| other_exn.             (* anything else *)

(** How a call ended. *)
Inductive flow : Type :=
| Normal
| Raised (e : thrown)
| Undefined.

(** ** The methods of a resource *)

(** [std::map::find] of a [std::map<http::verb, ...>]. *)
Fixpoint verb_find {V} (verb : Z) (m : list (Z * V)) : option V :=
  match m with
  | [] => None
  | (k, v) :: m' => if k =? verb then Some v else verb_find verb m'
  end.

Section server.
Context {Req Res smatch ep : Type} `{HttpRequest Req} `{HttpResponse Res}.

(** The text of the expression, the path: the match, when the whole path matches;
    [inl] is the text of the [std::runtime_error] boost.regex throws when matching
    takes too long. *)
Context (regex_match : str -> str -> str + option smatch).

Record HttpContext : Type := mk_HttpContext {
  remote_endpoint : ep;
  path : str;
  path_params : option smatch;
  query_params : multimap;
  req : Req;
  res : Res;
}.

Definition set_res (f : Res -> Res) (cxt : HttpContext) : HttpContext :=
  mk_HttpContext (remote_endpoint cxt) (path cxt) (path_params cxt) (query_params cxt) (req cxt)
    (f (res cxt)).

Definition set_path (p : str) (cxt : HttpContext) : HttpContext :=
  mk_HttpContext (remote_endpoint cxt) p (path_params cxt) (query_params cxt) (req cxt) (res cxt).

Definition set_path_params (m : smatch) (cxt : HttpContext) : HttpContext :=
  mk_HttpContext (remote_endpoint cxt) (path cxt) (Some m) (query_params cxt) (req cxt) (res cxt).

Definition set_query_params (q : multimap) (cxt : HttpContext) : HttpContext :=
  mk_HttpContext (remote_endpoint cxt) (path cxt) (path_params cxt) q (req cxt) (res cxt).

Definition set_req (r : Req) (cxt : HttpContext) : HttpContext :=
  mk_HttpContext (remote_endpoint cxt) (path cxt) (path_params cxt) (query_params cxt) r (res cxt).

Definition ResourceCall : Type := HttpContext -> HttpContext * flow.

(** The members a derived server may set. *)
Record HttpApiServer : Type := mk_HttpApiServer {
  m_resource : list (str * list (Z * ResourceCall));   (* in key order *)
  m_default_resource : ResourceCall;
  m_bad_resource : str -> ResourceCall;
  m_timeout : Z;
  m_body_limit : Z;
  first_process : ResourceCall;
  last_process : ResourceCall;
}.

(** BOOST_BEAST_VERSION_STRING *)
Definition beast_version : str := lit "Boost.Beast/277".

(** [prepare_payload] on the response of a context. *)
Definition payload (cxt : HttpContext) : HttpContext * flow :=
  match prepare_payload (res cxt) with
  | Ret r => (set_res (fun _ => r) cxt, Normal)
  | Throw _ => (cxt, Raised (std_exn (lit "invalid response body")))
  | Undef => (cxt, Undefined)
  end.

(** The lines the default answers share. *)
Definition plain_answer (status_code : Z) (body : str) : ResourceCall := fun cxt =>
  payload (set_res (fun r =>
    set_body body
      (set_keep_alive false
        (set_field (lit "Content-Type") (lit "text/html")
          (set_field (lit "Server") beast_version
            (set_version (req_version (req cxt)) (set_result status_code r)))))) cxt).

Definition default_resource : ResourceCall := fun cxt =>
  plain_answer status.not_found
    (lit "The '" ++ req_method (req cxt) ++ lit "' resource '" ++ path cxt ++ lit "' was not found.") cxt.

Definition bad_resource (why : str) : ResourceCall := plain_answer status.bad_request why.

(** [HttpApiServer::HttpApiServer]; the virtual functions do nothing. *)
Definition HttpApiServer_new : HttpApiServer :=
  mk_HttpApiServer [] default_resource bad_resource 0 0 (fun cxt => (cxt, Normal)) (fun cxt => (cxt, Normal)).

(** [HttpApiServer::call_resource]: [None] for false; [regex_match] may throw. *)
Fixpoint call_resource (resources : list (str * list (Z * ResourceCall))) (cxt : HttpContext) :
    option (HttpContext * flow) :=
  match resources with
  | [] => None
  | (regex, methods) :: resources' =>
      match verb_find (req_verb (req cxt)) methods with
      | Some fun_ =>
          match regex_match regex (path cxt) with
          | inr (Some sm_res) => Some (fun_ (set_path_params sm_res cxt))
          | inr None => call_resource resources' cxt
          | inl what => Some (cxt, Raised (std_exn what))
          end
      | None => call_resource resources' cxt
      end
  end.

(** The guard on the request target. *)
Definition bad_target (target : str) : bool :=
  match target with
  | [] => true
  | c :: _ => negb (Ascii.eqb c "/") || contains target (lit "..")
  end.

(** What follows a resource function that returned. *)
Definition finish_response (cxt : HttpContext) : HttpContext :=
  set_res (fun r =>
    set_keep_alive (req_keep_alive (req cxt))
      (let r' := set_field (lit "Server") beast_version (set_version (req_version (req cxt)) r) in
       set_content_length (str_size (res_body r')) r')) cxt.

(** The calls inside the try block and their handler. *)
Definition dispatch (srv : HttpApiServer) (cxt : HttpContext) : HttpContext * flow :=
  let '(cxt', fl, found) :=
    match call_resource (m_resource srv) cxt with
    | Some (cxt', fl) => (cxt', fl, true)
    | None => let '(cxt', fl) := m_default_resource srv cxt in (cxt', fl, false)
    end in
  match fl with
  | Raised (std_exn what) => m_bad_resource srv what cxt'
  | Normal => if (found : bool) then (finish_response cxt', Normal) else (cxt', Normal)
  | _ => (cxt', fl)
  end.

(** The text of an exception of the standard library that [handle_request] lets through. *)
Definition what_of (e : std_exception) : str :=
  match e with
  | out_of_range => lit "basic_string::substr"
  | invalid_argument => lit "invalid response body"
  end.

(** The character 34 is the double quote. *)
Definition bad_target_message : str :=
  lit "path must be absolute and not contain " ++ [ascii_of_nat 34] ++ lit ".." ++ [ascii_of_nat 34].

(** [HttpApiServer::handle_request]. *)
Definition handle_request (srv : HttpApiServer) (cxt0 : HttpContext) : HttpContext * flow :=
  let cxt := set_res (fun _ => res_default) cxt0 in
  let target := req_target (req cxt) in
  if bad_target target then
    m_bad_resource srv bad_target_message cxt
  else
    match kkurl.parse_target target (path cxt) [] with
    | Throw e => (cxt, Raised (std_exn (what_of e)))
    | Undef => (cxt, Undefined)
    | Ret (ok, path', query_string) =>
        let cxt1 := set_path path' cxt in
        if negb ok then m_bad_resource srv (lit "parse target failed") cxt1
        else
          match kkurl.parse_query_string query_string with
          | Throw e => (cxt1, Raised (std_exn (what_of e)))
          | Undef => (cxt1, Undefined)
          | Ret params => dispatch srv (set_query_params params cxt1)
          end
    end.

(** ** Sessions *)

Definition http_error_end_of_stream : error_code := mk_error_code "beast.http" 1.

(** What one turn of the loop meets: whether the server still runs, what the
    reads and writes answer, and the request they deliver. *)
Record turn : Type := mk_turn {
  x_running : bool;
  x_header : error_code;
  x_continue : error_code;
  x_body : error_code;
  x_request : Req;
  x_write : error_code;
}.

(** What the session writes. *)
Inductive sent : Type :=
| Continue100
| Answer (r : Res).

(** How a turn ends: with the next one, with [break], with [return], or with an
    exception. *)
Inductive turn_end : Type :=
| NextTurn
| Break
| Return
| Escape (e : thrown)
| UndefinedTurn.

Definition run_call (f : ResourceCall) (k : HttpContext -> HttpContext * list sent * turn_end)
    (cxt : HttpContext) : HttpContext * list sent * turn_end :=
  match f cxt with
  | (cxt', Normal) => k cxt'
  | (cxt', Raised e) => (cxt', [], Escape e)
  | (cxt', Undefined) => (cxt', [], UndefinedTurn)
  end.

(** From the request to the written response. *)
Definition answer_turn (srv : HttpApiServer) (x : turn) (cxt : HttpContext) :
    HttpContext * list sent * turn_end :=
  run_call (first_process srv)
    (run_call (handle_request srv)
      (run_call (last_process srv) (fun cxt' =>
        let close := res_need_eof (res cxt') in
        if ec_failed (x_write x) then (cxt', [], Return)
        else (cxt', [Answer (res cxt')], if (close : bool) then Break else NextTurn))))
    (set_req (x_request x) cxt).

(** The expectation is a header of the request. *)
Definition wants_continue (x : turn) : bool :=
  bool_decide (req_expect (x_request x) = lit "100-continue").

(** One turn of the loop of [HttpApiServer::session]. *)
Definition session_turn (srv : HttpApiServer) (x : turn) (cxt : HttpContext) :
    HttpContext * list sent * turn_end :=
  if bool_decide (x_header x = http_error_end_of_stream) then (cxt, [], Break)
  else if ec_failed (x_header x) then (cxt, [], Return)
  else
    let go (out : list sent) :=
      if ec_failed (x_body x) then (cxt, out, Return)
      else let '(cxt', out', e) := answer_turn srv x cxt in (cxt', out ++ out', e) in
    if wants_continue x then
      if ec_failed (x_continue x) then (cxt, [], Return) else go [Continue100]
    else go [].

(** How a session ends: the stream closed by the server, the function left
    without closing it, an exception, or it still runs when the turns are used up. *)
Inductive session_end : Type :=
| Closed
| Left
| Failed (e : thrown)
| UndefinedSession
| Waiting.

Fixpoint session_loop (srv : HttpApiServer) (turns : list turn) (cxt : HttpContext) :
    list sent * session_end :=
  match turns with
  | [] => ([], Waiting)
  | x :: turns' =>
      if negb (x_running x) then ([], Closed)
      else
        let '(cxt', out, e) := session_turn srv x cxt in
        match e with
        | NextTurn => let '(out', e') := session_loop srv turns' cxt' in (out ++ out', e')
        | Break => (out, Closed)
        | Return => (out, Left)
        | Escape ex => (out, Failed ex)
        | UndefinedTurn => (out, UndefinedSession)
        end
  end.

(** [HttpApiServer::session]: the endpoint of the peer, then the loop; the
    first context holds a default request. *)
Definition session (srv : HttpApiServer) (peer : error_code * ep) (req0 : Req) (turns : list turn) :
    list sent * session_end :=
  let '(ec, endpoint) := peer in
  if ec_failed ec then ([], Left)
  else session_loop srv turns (mk_HttpContext endpoint [] None [] req0 res_default).

End server.
Arguments HttpContext : clear implicits.
Arguments HttpApiServer : clear implicits.
Arguments ResourceCall : clear implicits.
Arguments turn : clear implicits.
Arguments sent : clear implicits.
