(* ===== verification/HttpServerFacts.v ===== *)
(** * Theorems on request handling and sessions of the HTTP server *)
From stdpp Require Import prelude strings.
From Stdlib Require Import Ascii ZArith Lia Sorted.
From S2P Require Import Prelude CxxLib FiberFuture HttpMessage WebUtility WebUtilityFacts CxxMap HttpServer.

Local Open Scope Z_scope.

(** ** Dispatch *)

Section facts.
Context {Req Res smatch ep : Type} `{HttpRequest Req} `{HttpResponseLaws Res}.
Context (regex_match : str -> str -> str + option smatch).
Abbreviation Cxt := (HttpContext Req Res smatch ep).
Abbreviation Call := (ResourceCall Req Res smatch ep).
Implicit Types (cxt : Cxt) (rs : list (str * list (Z * Call))).

(** A resource that answers the request: its expression matches the path and it
    has a function for the method. *)
Definition answers (cxt : Cxt) (r : str * list (Z * Call)) (f : Call) (m : smatch) : Prop :=
  verb_find (req_verb (req cxt)) r.2 = Some f /\ regex_match r.1 (path cxt) = inr (Some m).

(** A resource with a function for the method, whose expression is too complex for
    the path. *)
Definition too_complex (cxt : Cxt) (r : str * list (Z * Call)) (what : str) : Prop :=
  (exists f, verb_find (req_verb (req cxt)) r.2 = Some f) /\ regex_match r.1 (path cxt) = inl what.

(** A resource ends the search: its function is called, or the exception leaves. *)
Definition settles (cxt : Cxt) (r : str * list (Z * Call)) (out : Cxt * flow) : Prop :=
  (exists f m, answers cxt r f m /\ out = f (set_path_params m cxt)) \/
  (exists what, too_complex cxt r what /\ out = (cxt, Raised (std_exn what))).

Lemma call_resource_Some rs cxt out :
  ordered rs -> call_resource regex_match rs cxt = Some out ->
  exists r, r ∈ rs /\ settles cxt r out /\
    forall r' out', r' ∈ rs -> settles cxt r' out' -> r' = r \/ str_ltb r.1 r'.1 = true.
Proof.
  unfold ordered. induction 1 as [|[k ms] rs Hs IH Hk]; simpl; [done|]. intros E.
  assert (Hskip : (forall out', ~ settles cxt (k, ms) out') -> call_resource regex_match rs cxt = Some out ->
    exists r, r ∈ (k, ms) :: rs /\ settles cxt r out /\
      forall r' out', r' ∈ (k, ms) :: rs -> settles cxt r' out' -> r' = r \/ str_ltb r.1 r'.1 = true).
  { intros Hno E'. destruct (IH E') as (r & Hr & Ha & Hl). exists r. split; [set_solver|]. split; [done|].
    intros r' out' [->|Hr']%elem_of_cons Ha'; [by destruct (Hno out')|by eapply Hl]. }
  assert (Hhere : settles cxt (k, ms) out -> exists r, r ∈ (k, ms) :: rs /\ settles cxt r out /\
      forall r' out', r' ∈ (k, ms) :: rs -> settles cxt r' out' -> r' = r \/ str_ltb r.1 r'.1 = true).
  { intros Ha. exists (k, ms). split; [set_solver|]. split; [done|].
    intros r' out' [->|Hr']%elem_of_cons _; [by left|]. right. rewrite Forall_forall in Hk. by apply (Hk r'). }
  unfold settles, answers, too_complex in *. simpl in *.
  destruct (verb_find _ ms) as [f|] eqn:Ef; [|apply Hskip; [naive_solver|done]].
  destruct (regex_match k (path cxt)) as [what|[m|]] eqn:Em; [apply Hhere; naive_solver..|apply Hskip; [naive_solver|done]].
Qed.

Lemma call_resource_None rs cxt r out :
  call_resource regex_match rs cxt = None -> r ∈ rs -> ~ settles cxt r out.
Proof.
  induction rs as [|[k ms] rs IH]; simpl; [set_solver|]. intros E Hr Hs. apply elem_of_cons in Hr as [->|Hr].
  - destruct Hs as [(f & m & [Hf Hm] & _)|(what & [[f Hf] Hm] & _)]; simpl in *; by rewrite Hf, Hm in E.
  - eapply IH; [|done|done]. repeat case_match; done.
Qed.

(** C12. Dispatch: with the resources in the order of the [std::map], the
    function called is that of the least expression, in the order of the
    expressions' text, that matches the path and has a function for the method;
    when there is none nothing is called.  An expression that is too complex for
    boost.regex ends the search like a match, with its exception. *)
Theorem dispatch_least rs cxt :
  ordered rs ->
  match call_resource regex_match rs cxt with
  | None => forall r, r ∈ rs -> (forall f m, ~ answers cxt r f m) /\ (forall what, ~ too_complex cxt r what)
  | Some out => exists r, r ∈ rs /\
      ((exists f m, answers cxt r f m /\ out = f (set_path_params m cxt)) \/
       (exists what, too_complex cxt r what /\ out = (cxt, Raised (std_exn what)))) /\
      forall r', r' ∈ rs -> (exists f' m', answers cxt r' f' m') \/ (exists what', too_complex cxt r' what') ->
        r' = r \/ str_ltb r.1 r'.1 = true
  end.
Proof.
  intros Ho. destruct (call_resource _ rs cxt) as [out|] eqn:E.
  - destruct (call_resource_Some rs cxt out Ho E) as (r & Hr & Ha & Hl). exists r. split; [done|]. split; [done|].
    intros r' Hr' [(f' & m' & Ha')|(what' & Ht)]; (eapply Hl; [done|]); [left; by eexists _, _|right; by eexists].
  - intros r Hr. pose proof (fun out => call_resource_None rs cxt r out E Hr) as Hno. unfold settles in Hno. split; naive_solver.
Qed.

(** ** One request *)

(** A server that keeps the default answers. *)
Definition default_answers (srv : HttpApiServer Req Res smatch ep) : Prop :=
  m_default_resource srv = default_resource /\ m_bad_resource srv = bad_resource.

(** A response that ends the connection with a plain answer. *)
Definition final_answer (code : Z) (body : str) (cxt cxt' : Cxt) : Prop :=
  cxt' = set_res (fun _ => res cxt') cxt /\
  res_result (res cxt') = code /\ res_body (res cxt') = body /\
  res_version (res cxt') = req_version (req cxt) /\
  res_content_length (res cxt') = Some (str_size body) /\
  res_need_eof (res cxt') = true.

Lemma plain_answer_spec code body cxt :
  code <> status.no_content -> code <> status.not_modified ->
  exists cxt', plain_answer code body cxt = (cxt', Normal) /\ final_answer code body cxt cxt'.
Proof.
  intros Hb Hc. unfold plain_answer, payload. simpl. rewrite prepare_payload_throws.
  autorewrite with response.
  rewrite (proj2 (Z.eqb_neq _ _) Hb), (proj2 (Z.eqb_neq _ _) Hc).
  rewrite andb_false_r. eexists. split; [done|]. unfold final_answer. simpl.
  rewrite need_eof_content_length; autorewrite with response; [|done]. done.
Qed.

(** The context a resource function is given for the target [target]. *)
Definition routed (cxt : Cxt) (path' : str) (params : multimap) : Cxt :=
  mk_HttpContext (remote_endpoint cxt) path' (path_params cxt) params (req cxt) res_default.

(** The framing of a response after its resource function. *)
Definition framed (cxt' : Cxt) (body : str) : Prop :=
  res_body (res cxt') = body /\
  res_content_length (res cxt') = Some (str_size body) /\
  res_version (res cxt') = req_version (req cxt') /\
  res_need_eof (res cxt') = negb (req_keep_alive (req cxt')).

Lemma finish_response_framed cxt : framed (finish_response cxt) (res_body (res cxt)).
Proof.
  unfold framed, finish_response. simpl.
  rewrite need_eof_content_length; autorewrite with response; [|done]. done.
Qed.

(** The path and the parameters a target stands for. *)
Lemma target_parts target path0 :
  str_size target < npos ->
  exists path' query', kkurl.parse_target target path0 [] = Ret (true, path', query') /\
    kkurl.parse_query_string query' = Ret (query_spec query') /\
    has_char "?" path' = false /\
    (if has_char "?" target then target = path' ++ "?"%char :: query'
     else path' = target /\ query' = []).
Proof.
  intros Hs. destruct (parse_target_cut target path0 [] Hs) as (p & q & Hp & Hq & Ht).
  exists p, q. split; [done|]. split; [|done]. apply parse_query_string_spec.
  destruct (has_char "?" target).
  - subst. unfold str_size in *. rewrite length_app in Hs. simpl in Hs. lia.
  - destruct Ht as [_ ->]. done.
Qed.

(** [handle_request], branch by branch. *)
Lemma handle_request_cases srv cxt :
  default_answers srv -> str_size (req_target (req cxt)) < npos ->
  let target := req_target (req cxt) in
  if bad_target target then
    exists cxt', handle_request regex_match srv cxt = (cxt', Normal) /\
      final_answer 400 bad_target_message cxt cxt'
  else exists path' query',
    (if has_char "?" target then target = path' ++ "?"%char :: query' else path' = target /\ query' = []) /\
    has_char "?" path' = false /\
    let cxt1 := routed cxt path' (query_spec query') in
    match call_resource regex_match (m_resource srv) cxt1 with
    | None => exists cxt', handle_request regex_match srv cxt = (cxt', Normal) /\
        final_answer 404 (lit "The '" ++ req_method (req cxt) ++ lit "' resource '" ++ path' ++
                          lit "' was not found.") cxt1 cxt'
    | Some (cxt2, Normal) => exists cxt', handle_request regex_match srv cxt = (cxt', Normal) /\
        framed cxt' (res_body (res cxt2)) /\ res_result (res cxt') = res_result (res cxt2) /\
        req cxt' = req cxt2
    | Some (cxt2, Raised (std_exn what)) =>
        exists cxt', handle_request regex_match srv cxt = (cxt', Normal) /\
          final_answer 400 what cxt2 cxt'
    | Some (cxt2, fl) => handle_request regex_match srv cxt = (cxt2, fl)
    end.
Proof.
  intros [Hd Hb] Hs target. unfold handle_request.
  change (req_target (req (set_res _ cxt))) with target. destruct (bad_target target).
  { rewrite Hb. destruct (plain_answer_spec 400 bad_target_message
      (set_res (fun _ => res_default) cxt)) as (c' & Hc & Hf); [done..|]. exists c'. done. }
  destruct (target_parts target (path (set_res (fun _ => res_default) cxt)) Hs)
    as (p & q & Hp & Hq & Hno & Ht).
  exists p, q. split; [done|]. split; [done|]. set (cxt1 := routed cxt p (query_spec q)). rewrite Hp. simpl. rewrite Hq.
  change (set_query_params _ _) with cxt1. unfold dispatch.
  destruct (call_resource _ _ cxt1) as [[cxt2 [|[what|]|]]|]; [| |done..|].
  - eexists. split; [done|]. split; [apply finish_response_framed|].
    simpl. by autorewrite with response.
  - rewrite Hb. by apply plain_answer_spec.
  - rewrite Hd. unfold default_resource.
    destruct (plain_answer_spec status.not_found (lit "The '" ++ req_method (req cxt1) ++
      lit "' resource '" ++ path cxt1 ++ lit "' was not found.") cxt1) as (c' & -> & Hf); [done..|].
    exists c'. done.
Qed.

(** C5. [handle_request] with the default answers, on every branch: a target
    that is empty, relative or holds ".." gets a final 400 and nothing is
    called; a target without resource gets a final 404; a resource function that
    returns has its response framed with the length of its body and the version
    and keep-alive of the request; one that throws a standard exception gives a
    final 400 with the text of the exception; any other exception escapes. *)
Theorem handle_request_spec srv cxt :
  default_answers srv -> str_size (req_target (req cxt)) < npos ->
  let target := req_target (req cxt) in
  if bad_target target then
    exists cxt', handle_request regex_match srv cxt = (cxt', Normal) /\
      final_answer 400 bad_target_message cxt cxt'
  else exists path' query',
    (if has_char "?" target then target = path' ++ "?"%char :: query' else path' = target /\ query' = []) /\
    has_char "?" path' = false /\
    let cxt1 := routed cxt path' (query_spec query') in
    match call_resource regex_match (m_resource srv) cxt1 with
    | None => exists cxt', handle_request regex_match srv cxt = (cxt', Normal) /\
        final_answer 404 (lit "The '" ++ req_method (req cxt) ++ lit "' resource '" ++ path' ++
                          lit "' was not found.") cxt1 cxt'
    | Some (cxt2, Normal) => exists cxt', handle_request regex_match srv cxt = (cxt', Normal) /\
        framed cxt' (res_body (res cxt2)) /\ res_result (res cxt') = res_result (res cxt2) /\
        req cxt' = req cxt2
    | Some (cxt2, Raised (std_exn what)) =>
        exists cxt', handle_request regex_match srv cxt = (cxt', Normal) /\
          final_answer 400 what cxt2 cxt'
    | Some (cxt2, fl) => handle_request regex_match srv cxt = (cxt2, fl)
    end.
Proof. apply handle_request_cases. Qed.

(** ** What a resource function can be given *)

Definition safe_path (p : str) : Prop :=
  (exists p', p = "/"%char :: p') /\ contains p (lit "..") = false /\ has_char "?" p = false.

Lemma contains_app_l s t u : contains (s ++ t) u = false -> contains s u = false.
Proof.
  induction s as [|c s IH]; simpl.
  - destruct t as [|d t], u; simpl; try done.
  - intros [Hp Hc]%orb_false_iff. rewrite IH by done. rewrite orb_false_r.
    clear -Hp. change (is_prefix u ((c :: s) ++ t) = false) in Hp.
    revert Hp. generalize (c :: s) as v. intros v. revert u.
    induction v as [|d v IHv]; intros [|x u]; simpl; try done.
    destruct (Ascii.eqb x d); simpl; [apply IHv|done].
Qed.

Lemma routed_safe target path' query' :
  bad_target target = false -> has_char "?" path' = false ->
  (if has_char "?" target then target = path' ++ "?"%char :: query' else path' = target /\ query' = []) ->
  safe_path path'.
Proof.
  intros Hb Hno Ht. unfold bad_target in Hb. destruct target as [|c target0] eqn:Et; [done|].
  apply orb_false_iff in Hb as [Hc%negb_false_iff%Ascii.eqb_eq Hdd]. subst c.
  rewrite <- Et in Hdd, Ht. split; [|split; [|done]].
  - destruct (has_char "?" target); [|destruct Ht; subst; eauto].
    rewrite Et in Ht. destruct path'; simpl in Ht; simplify_eq; eauto.
  - destruct (has_char "?" target); [|by destruct Ht; subst].
    rewrite Ht in Hdd. by apply contains_app_l in Hdd.
Qed.

(** Two lists of resources that agree on every context with a safe path. *)
Definition agree_on_safe (r r' : str * list (Z * Call)) : Prop :=
  r.1 = r'.1 /\
  Forall2 (fun x y => x.1 = y.1 /\ forall cxt, safe_path (path cxt) -> x.2 cxt = y.2 cxt) r.2 r'.2.

Lemma verb_find_agree v (ms ms' : list (Z * Call)) :
  Forall2 (fun x y => x.1 = y.1 /\ forall cxt, safe_path (path cxt) -> x.2 cxt = y.2 cxt) ms ms' ->
  match verb_find v ms, verb_find v ms' with
  | Some f, Some g => forall cxt, safe_path (path cxt) -> f cxt = g cxt
  | None, None => True
  | _, _ => False
  end.
Proof.
  induction 1 as [|[k f] [k' g] ms ms' [Hk Hf] _ IH]; simpl in *; [done|]. subst.
  by destruct (k' =? v).
Qed.

Lemma call_resource_agree rs rs' cxt :
  Forall2 agree_on_safe rs rs' -> safe_path (path cxt) ->
  call_resource regex_match rs cxt = call_resource regex_match rs' cxt.
Proof.
  intros Ha Hs. induction Ha as [|[k ms] [k' ms'] rs rs' [Hk Hms] _ IH]; simpl in *; [done|]. subst.
  pose proof (verb_find_agree (req_verb (req cxt)) ms ms' Hms) as Hv.
  destruct (verb_find _ ms), (verb_find _ ms'); try done.
  destruct (regex_match k' (path cxt)) as [what|[m|]]; [done| |done]. f_equal. by apply Hv.
Qed.

(** C14. Resource functions are only called with a path that starts with a
    slash, holds no ".." and no question mark: changing what they do on any
    other path changes nothing of the server. *)
Theorem resources_see_safe_paths srv rs' cxt :
  str_size (req_target (req cxt)) < npos ->
  Forall2 agree_on_safe (m_resource srv) rs' ->
  handle_request regex_match srv cxt =
  handle_request regex_match
    (mk_HttpApiServer rs' (m_default_resource srv) (m_bad_resource srv) (m_timeout srv)
       (m_body_limit srv) (first_process srv) (last_process srv)) cxt.
Proof.
  intros Hs Ha. unfold handle_request. change (req_target (req (set_res _ cxt))) with (req_target (req cxt)).
  destruct (bad_target (req_target (req cxt))) eqn:Eb; [done|].
  destruct (target_parts _ (path (set_res (fun _ => res_default) cxt)) Hs) as (p & q & Hp & Hq & Hno & Ht).
  rewrite Hp. simpl. rewrite Hq. unfold dispatch. simpl.
  rewrite (call_resource_agree (m_resource srv) rs'); [done|done|]. simpl. by eapply routed_safe.
Qed.

(** ** Sessions *)

(** Resource functions that end normally or with a standard exception, leave
    the request and the endpoint alone, and do not look at the match of an
    earlier request (which [call_resource] has replaced). *)
Definition good_call (f : Call) : Prop :=
  forall cxt, remote_endpoint (f cxt).1 = remote_endpoint cxt /\
    match (f cxt).2 with Normal | Raised (std_exn _) => True | _ => False end.

Record good_server (srv : HttpApiServer Req Res smatch ep) : Prop := {
  gs_default : default_answers srv;
  gs_first : first_process srv = fun cxt => (cxt, Normal);
  gs_last : last_process srv = fun cxt => (cxt, Normal);
  gs_calls r v f : r ∈ m_resource srv -> (v, f) ∈ r.2 -> good_call f;
}.

Lemma verb_find_in {V} v (m : list (Z * V)) f : verb_find v m = Some f -> exists k, (k, f) ∈ m.
Proof.
  induction m as [|[k g] m IH]; simpl; [done|]. destruct (k =? v).
  - intros [= ->]. exists k. set_solver.
  - intros Hf. destruct (IH Hf) as [j Hj]. exists j. set_solver.
Qed.

(** The outcome of [call_resource] does not depend on the match of an earlier
    request, which it hands on only when an expression is too complex to match. *)
Lemma call_resource_path_params rs cxt m :
  let cxt' := mk_HttpContext (remote_endpoint cxt) (path cxt) m (query_params cxt) (req cxt) (res cxt) in
  call_resource regex_match rs cxt' = call_resource regex_match rs cxt \/
  exists what, call_resource regex_match rs cxt = Some (cxt, Raised (std_exn what)) /\
               call_resource regex_match rs cxt' = Some (cxt', Raised (std_exn what)).
Proof.
  induction rs as [|[k ms] rs IH]; simpl; [by left|].
  destruct (verb_find _ ms); [|done]. destruct (regex_match _ _) as [what|[sm|]]; [|by left|done].
  right. by exists what.
Qed.

Lemma call_resource_good srv cxt out :
  good_server srv -> call_resource regex_match (m_resource srv) cxt = Some out ->
  remote_endpoint out.1 = remote_endpoint cxt /\
  match out.2 with Normal | Raised (std_exn _) => True | _ => False end.
Proof.
  intros Hg. assert (Hin : forall r v f, r ∈ m_resource srv -> (v, f) ∈ r.2 -> good_call f)
    by apply Hg. clear Hg. induction (m_resource srv) as [|[k ms] rs IH]; simpl; [done|].
  assert (Hrs : call_resource regex_match rs cxt = Some out ->
    remote_endpoint out.1 = remote_endpoint cxt /\
    match out.2 with Normal | Raised (std_exn _) => True | _ => False end).
  { apply IH. intros r v f Hr. apply Hin. set_solver. }
  destruct (verb_find _ ms) as [f|] eqn:Ef; [|done].
  destruct (regex_match k (path cxt)) as [what|[m|]]; [by intros [= <-]| |done]. intros [= <-].
  apply verb_find_in in Ef as [v Hv]. exact (Hin (k, ms) v f ltac:(set_solver) Hv (set_path_params m cxt)).
Qed.

(** The answer to a request on a connection, on its own. *)
Definition answer_of srv (endpoint : ep) (q : Req) : Res :=
  res (handle_request regex_match srv (mk_HttpContext endpoint [] None [] q res_default)).1.

Lemma plain_answer_parts code body cxt :
  code <> status.no_content -> code <> status.not_modified ->
  plain_answer code body cxt = (set_res (fun _ => res (plain_answer code body cxt).1) cxt, Normal) /\
  forall cxt', req cxt' = req cxt -> res cxt' = res cxt ->
    res (plain_answer code body cxt').1 = res (plain_answer code body cxt).1.
Proof.
  intros Hb Hc. destruct (plain_answer_spec code body cxt Hb Hc) as (c & Ec & Hf & _).
  rewrite Ec. split; [by rewrite Hf at 1|]. intros cxt' Hq Hr.
  rewrite <- (f_equal fst Ec). unfold plain_answer, payload, set_res, prepare_payload. simpl.
  rewrite Hq, Hr. by destruct (_ && _).
Qed.

Lemma handle_request_isolated srv cxt :
  good_server srv -> str_size (req_target (req cxt)) < npos ->
  exists cxt', handle_request regex_match srv cxt = (cxt', Normal) /\
    remote_endpoint cxt' = remote_endpoint cxt /\
    res cxt' = answer_of srv (remote_endpoint cxt) (req cxt).
Proof.
  intros Hg Hs. destruct (gs_default _ Hg) as [Hd Hb]. unfold answer_of, handle_request.
  set (fresh_cxt := mk_HttpContext _ [] None [] _ _).
  change (req_target (req (set_res _ cxt))) with (req_target (req cxt)).
  change (req_target (req (set_res _ fresh_cxt))) with (req_target (req cxt)).
  destruct (bad_target (req_target (req cxt))).
  { rewrite Hb. unfold bad_resource.
    destruct (plain_answer_parts status.bad_request bad_target_message
      (set_res (fun _ => res_default) cxt)) as [E Hres]; [done..|].
    rewrite E. eexists. split; [done|]. split; [done|]. symmetry. by apply Hres. }
  destruct (target_parts _ (path (set_res (fun _ => res_default) cxt)) Hs) as (p & q & Hp & Hq & _ & _).
  replace (kkurl.parse_target (req_target (req cxt)) (path (set_res (fun _ => res_default) fresh_cxt)) [])
    with (kkurl.parse_target (req_target (req cxt)) (path (set_res (fun _ => res_default) cxt)) [])
    by reflexivity.
  rewrite Hp. simpl. rewrite Hq. set (c1 := set_query_params _ _).
  set (c2 := set_query_params _ _).
  unfold dispatch.
  destruct (call_resource_path_params (m_resource srv) c1 None) as [Hc2|(what & Hc1 & Hc2)];
    change (mk_HttpContext _ _ None _ _ _) with c2 in Hc2; rewrite Hc2.
  2: { rewrite Hc1, Hb. unfold bad_resource.
       destruct (plain_answer_parts status.bad_request what c1) as [E Hres]; [done..|].
       rewrite E. eexists. split; [done|]. split; [done|]. symmetry. by apply Hres. }
  destruct (call_resource _ _ c1) as [[c fl]|] eqn:Ec.
  - destruct (call_resource_good srv c1 (c, fl) Hg Ec) as [He Hfl]. simpl in He, Hfl.
    destruct fl as [|[what|]|]; try done; simpl.
    + by exists (finish_response c).
    + rewrite Hb. unfold bad_resource.
      destruct (plain_answer_parts status.bad_request what c) as [E _]; [done..|].
      rewrite E. eexists. split; [done|]. by split.
  - rewrite Hd. unfold default_resource. change (path c2) with (path c1). change (req c2) with (req c1).
    set (body := lit "The '" ++ _). clearbody body.
    destruct (plain_answer_parts status.not_found body c1) as [E Hres]; [done..|].
    destruct (plain_answer_parts status.not_found body c2) as [E2 _]; [done..|].
    rewrite (Hres c2 eq_refl eq_refl) in E2. rewrite E, E2. eexists. split; [done|]. by split.
Qed.

(** A turn in which the server runs and every read and write succeeds. *)
Definition good_turn (x : turn Req) : Prop :=
  x_running x = true /\ ec_failed (x_header x) = false /\
  ec_failed (x_continue x) = false /\ ec_failed (x_body x) = false /\
  ec_failed (x_write x) = false /\ str_size (req_target (x_request x)) < npos.

(** What a connection is served: the answers, each on its own, up to the first
    that ends the connection. *)
Fixpoint serve srv (endpoint : ep) (turns : list (turn Req)) : list (sent Res) * session_end :=
  match turns with
  | [] => ([], Waiting)
  | x :: turns' =>
      let r := answer_of srv endpoint (x_request x) in
      let out := (if wants_continue x then [Continue100] else []) ++ [Answer r] in
      if res_need_eof r then (out, Closed)
      else let '(out', e) := serve srv endpoint turns' in (out ++ out', e)
  end.

Lemma good_turn_answer srv x cxt :
  good_server srv -> good_turn x ->
  let r := answer_of srv (remote_endpoint cxt) (x_request x) in
  exists cxt', remote_endpoint cxt' = remote_endpoint cxt /\
    session_turn regex_match srv x cxt =
      (cxt', (if wants_continue x then [Continue100] else []) ++ [Answer r],
       if res_need_eof r then Break else NextTurn).
Proof.
  intros Hg (_ & Hh & Hco & Hb & Hw & Hs) r.
  destruct (handle_request_isolated srv (set_req (x_request x) cxt) Hg Hs) as (c & Ec & He & Hr).
  assert (Ha : answer_turn regex_match srv x cxt =
    (c, [Answer r], if res_need_eof r then Break else NextTurn)).
  { unfold answer_turn, run_call. rewrite (gs_first _ Hg), Ec, (gs_last _ Hg), Hw.
    unfold r. by rewrite Hr. }
  exists c. split; [done|]. unfold session_turn. rewrite Hh, Hco, Hb, Ha.
  rewrite bool_decide_eq_false_2 by (intros Hx; by rewrite Hx in Hh).
  by destruct (wants_continue x).
Qed.

(** C3. A session over turns whose reads and writes succeed writes, in order,
    one answer per request, each preceded by a 100 response exactly when the
    request expects one; it closes the stream after the first answer that ends
    the connection and serves nothing after it.  Each answer depends on the
    request and the peer only: nothing leaks from one request of a connection
    to the next, although they share one context. *)
Theorem session_serves srv endpoint req0 turns :
  good_server srv -> Forall good_turn turns ->
  session regex_match srv (ec_ok, endpoint) req0 turns = serve srv endpoint turns.
Proof.
  intros Hg Ht. unfold session. simpl. set (cxt := mk_HttpContext _ _ _ _ _ _).
  change endpoint with (remote_endpoint cxt). clearbody cxt.
  revert cxt. induction Ht as [|x turns Hx _ IH]; intros cxt; simpl; [done|].
  destruct (good_turn_answer srv x cxt Hg Hx) as (cxt' & He & ->).
  destruct Hx as [-> _]. simpl. destruct (res_need_eof _); [done|].
  rewrite IH, He. by destruct (serve _ _ _).
Qed.

(** What one turn writes: no answer, and the session ends, or one answer last. *)
Lemma session_turn_out (srv : HttpApiServer Req Res smatch ep) x cxt cxt' o te :
  session_turn regex_match srv x cxt = (cxt', o, te) ->
  ((forall r, Answer r ∉ o) /\ te <> NextTurn) \/
  exists r pre, o = pre ++ [Answer r] /\ (forall r', Answer r' ∉ pre) /\
    te = if res_need_eof r then Break else NextTurn.
Proof.
  assert (Ha : forall c o e, answer_turn regex_match srv x cxt = (c, o, e) ->
    (o = [] /\ e <> NextTurn) \/
    exists r, o = [Answer r] /\ e = if res_need_eof r then Break else NextTurn).
  { intros c o0 e. unfold answer_turn, run_call.
    repeat case_match; intros [= <- <- <-];
      solve [by left|right; eexists; split; [done|];
        match goal with E : res_need_eof _ = _ |- _ => by rewrite E end]. }
  assert (Hcont : forall r, Answer r ∉ [Continue100 (Res := Res)]) by set_solver.
  assert (Hnil : forall r, Answer r ∉ (@nil (sent Res))) by set_solver.
  destruct (answer_turn regex_match srv x cxt) as [[c o0] e0] eqn:Ea.
  unfold session_turn. rewrite Ea.
  specialize (Ha _ _ _ eq_refl).
  destruct (bool_decide (x_header x = http_error_end_of_stream)); [intros [= <- <- <-]; by left|].
  destruct (ec_failed (x_header x)); [intros [= <- <- <-]; by left|].
  destruct (wants_continue x); [destruct (ec_failed (x_continue x)); [intros [= <- <- <-]; by left|]|];
    (destruct (ec_failed (x_body x)); [intros [= <- <- <-]; by left|]); intros [= <- <- <-];
    destruct Ha as [[-> ?]|(r & -> & ->)];
    first [by left|right; exists r, [Continue100]; by split_and!|right; exists r, []; by split_and!].
Qed.

Lemma app_answer_split (pre : list (sent Res)) r' o' before r after :
  (pre ++ [Answer r']) ++ o' = before ++ Answer r :: after ->
  (forall r0, Answer r0 ∉ pre) ->
  (r = r' /\ after = o') \/ exists b, o' = b ++ Answer r :: after.
Proof.
  revert before. induction pre as [|s pre IH]; intros before; simpl.
  - destruct before as [|t before]; simpl; intros E _; simplify_eq; [by left|right; eauto].
  - destruct before as [|t before]; simpl; intros [= E1 E2] Hno.
    + exfalso. apply (Hno r). set_solver.
    + apply (IH before E2). intros r0 Hr. apply (Hno r0). set_solver.
Qed.

(** Nothing is written after an answer that ends the connection, whatever
    the peer, the resource functions and the derived server do. *)
Theorem session_stops_after_final (srv : HttpApiServer Req Res smatch ep) peer req0 turns out e r before after :
  session regex_match srv peer req0 turns = (out, e) ->
  out = before ++ Answer r :: after -> res_need_eof r = true ->
  after = [] /\ e = Closed.
Proof.
  destruct peer as [ec endpoint]. unfold session. destruct (ec_failed ec).
  { intros [= <- <-]. by destruct before. }
  set (cxt := mk_HttpContext _ _ _ _ _ _). clearbody cxt.
  revert cxt out before. induction turns as [|x turns IH]; intros cxt out before; simpl.
  { intros [= <- <-]. by destruct before. }
  destruct (x_running x); [|by intros [= <- <-]; destruct before]. simpl.
  destruct (session_turn regex_match srv x cxt) as [[cxt' o] te] eqn:Et.
  destruct (session_turn_out srv x cxt cxt' o te Et) as [[Hno Hnext]|(r' & pre & -> & Hpre & ->)].
  - destruct te; try (intros [= <- <-] Ho; exfalso; apply (Hno r); rewrite Ho; set_solver).
    by destruct Hnext.
  - intros Hl Ho Hn. destruct (res_need_eof r') eqn:En.
    + injection Hl as <- <-. rewrite <- (app_nil_r (pre ++ _)) in Ho.
      destruct (app_answer_split pre r' [] before r after Ho Hpre) as [(_ & ->)|(b & Eb)]; [done|].
      by destruct b.
    + destruct (session_loop regex_match srv turns cxt') as [o' e'] eqn:El.
      injection Hl as <- <-.
      destruct (app_answer_split pre r' o' before r after Ho Hpre) as [(-> & _)|(b & Eb)];
        [congruence|]. by apply (IH cxt' o' b El Eb).
Qed.
End facts.

(** ** A server with two resources *)

Definition sample_match (regex p : str) : str + option unit := inr (if bool_decide (regex = p) then Some tt else None).

Definition hello : ResourceCall simple_request simple_response unit unit :=
  fun cxt => (set_res (set_body (lit "hello")) cxt, Normal).

Definition throws : ResourceCall simple_request simple_response unit unit :=
  fun cxt => (cxt, Raised (std_exn (lit "no"))).

Definition sample_resources : list (str * list (Z * ResourceCall simple_request simple_response unit unit)) :=
  map_set (lit "/b") [(2, throws)] (map_set (lit "/a") [(2, hello)] []).

Definition sample_server : HttpApiServer simple_request simple_response unit unit :=
  mk_HttpApiServer sample_resources default_resource bad_resource 0 0
    (fun cxt => (cxt, Normal)) (fun cxt => (cxt, Normal)).

Definition get_request (target : str) : simple_request :=
  mk_simple_request (lit "GET") 2 target 11 true [] [] [].

Definition sample_cxt (target : str) : HttpContext simple_request simple_response unit unit :=
  mk_HttpContext tt (lit "/a") None [] (get_request target) res_default.

Lemma sample_ordered : ordered sample_resources.
Proof. apply map_set_ordered, map_set_ordered. constructor. Qed.

Lemma sample_good : good_server sample_server.
Proof.
  split; try done. intros r v f Hr Hf. vm_compute in Hr.
  apply elem_of_cons in Hr as [->|[->|[]%elem_of_nil]%elem_of_cons];
    apply list_elem_of_singleton in Hf; simplify_eq; by intros cxt.
Qed.

Lemma dispatch_least_witness : exists r f m, r ∈ sample_resources /\
  answers sample_match (sample_cxt []) r f m /\ f (set_path_params m (sample_cxt [])) = hello (set_path_params tt (sample_cxt [])).
Proof.
  destruct (dispatch_least sample_match sample_resources (sample_cxt []) sample_ordered)
    as (r & Hr & [(f & m & Ha & Ho)|(what & [_ Ht] & _)] & _); [|discriminate Ht].
  exists r, f, m. split; [exact Hr|]. split; [exact Ha|]. symmetry. exact Ho.
Defined.

Lemma handle_request_spec_witness : exists cxt',
  handle_request sample_match sample_server (sample_cxt (lit "/a/../b")) = (cxt', Normal) /\
  final_answer 400 bad_target_message (sample_cxt (lit "/a/../b")) cxt'.
Proof.
  exact (handle_request_spec sample_match sample_server (sample_cxt (lit "/a/../b"))
    (gs_default _ sample_good) eq_refl).
Defined.

Lemma resources_see_safe_paths_witness :
  handle_request sample_match sample_server (sample_cxt (lit "/a?x=1")) =
  handle_request sample_match
    (mk_HttpApiServer
       [(lit "/a", [(2, fun cxt => if bool_decide (path cxt = lit "..") then (cxt, Undefined) else hello cxt)]);
        (lit "/b", [(2, throws)])]
       default_resource bad_resource 0 0 (fun cxt => (cxt, Normal)) (fun cxt => (cxt, Normal)))
    (sample_cxt (lit "/a?x=1")).
Proof.
  apply (resources_see_safe_paths sample_match sample_server); [reflexivity|].
  constructor; [split; [reflexivity|]|constructor; [split; [reflexivity|]|constructor]];
    (constructor; [split; [reflexivity|]|constructor]); simpl; [|reflexivity].
  intros cxt [[p' Hp] _]. rewrite Hp. reflexivity.
Defined.

Definition sample_turn (q : simple_request) : turn simple_request :=
  mk_turn true ec_ok ec_ok ec_ok q ec_ok.

(** Three requests: the second is answered 400, which ends the connection. *)
Definition sample_turns : list (turn simple_request) :=
  [sample_turn (get_request (lit "/a")); sample_turn (get_request (lit "/b"));
   sample_turn (get_request (lit "/a"))].

Lemma session_serves_witness :
  session sample_match sample_server (ec_ok, tt) (get_request []) sample_turns =
  serve sample_match sample_server tt sample_turns.
Proof.
  apply (session_serves sample_match sample_server tt (get_request []) sample_turns sample_good).
  repeat constructor.
Defined.

Definition final_response (what : str) : simple_response :=
  mk_simple_response 400 11
    [(lit "Content-Type", lit "text/html"); (lit "Server", beast_version)] false what
    (Some (str_size what)).

Lemma session_stops_after_final_witness : exists out before after,
  session sample_match sample_server (ec_ok, tt) (get_request []) sample_turns = (out, Closed) /\
  out = before ++ Answer (final_response (lit "no")) :: after /\ after = [].
Proof.
  destruct (session sample_match sample_server (ec_ok, tt) (get_request []) sample_turns)
    as [out e] eqn:E.
  assert (Ho : out = firstn 1 out ++ Answer (final_response (lit "no")) :: []).
  { vm_compute in E. injection E as <- <-. vm_compute. reflexivity. }
  destruct (session_stops_after_final sample_match sample_server _ _ _ out e
    (final_response (lit "no")) _ [] E Ho eq_refl) as [_ He].
  exists out, (firstn 1 out), []. rewrite He. split; [reflexivity|]. split; [exact Ho|reflexivity].
Defined.
