(* ===== verification/ServerLifecycle.v ===== *)
(** * http/http_api_server.cpp: accepting, starting and stopping

    The accept fiber, the sessions it spawns and the caller of [start] and
    [stop] run concurrently and share the session counter, the acceptor and the
    running flag.  Every step between two suspension points or critical sections
    is a function on the shared state; the system takes them in any order. *)
From stdpp Require Import prelude.
From Stdlib Require Import ZArith Lia.
From S2P Require Import Prelude.

Local Open Scope Z_scope.

(** ** State *)

(** What [async_accept] can answer, as [accept] tells the answers apart. *)
Inductive accept_result : Type :=
| accepted
| no_descriptors
| operation_aborted
| other_error.

(** Where the accept fiber is. *)
Inductive accept_pc : Type :=
| AccNone                      (* no fiber to join *)
| AccOpen                      (* spawned, about to open the acceptor *)
| AccLoop                      (* about to call async_accept *)
| AccWait                      (* waiting for the completion *)
| AccGot (r : accept_result)   (* completed, the fiber will look at the result *)
| AccSpawned                   (* session spawned, about to count it *)
| AccEnded.                    (* the fiber function returned *)

(** Where the caller of [stop] is. *)
Inductive stop_pc : Type :=
| StIdle                       (* not in [stop] *)
| StClose                      (* the flag is cleared, about to close the acceptor *)
| StJoin                       (* joining the accept fiber *)
| StWait                       (* about to test the counter, under the lock *)
| StBlocked                    (* waiting on the condition variable *)
| StIo                         (* about to stop the io_context *)
| StThreads (i : nat).         (* about to join thread [i] *)

Inductive server_status : Type :=
| Alive
| Terminated        (* std::terminate: an exception left a fiber function *)
| StopThrew         (* std::system_error out of [stop] *)
| UndefinedAccess.  (* m_threads[i] out of range *)

Record lifecycle : Type := mk_lifecycle {
  lc_status : server_status;
  m_running : bool;
  m_session_number : Z;
  acceptor_is_open : bool;
  acc : accept_pc;
  live : nat;                  (* session fibers that have not counted down yet *)
  m_threads : list bool;       (* joinable? *)
  stop_at : stop_pc;
  stops : nat;                 (* calls of [stop] that returned *)
}.

(** A constructed server. *)
Definition lifecycle_new : lifecycle := mk_lifecycle Alive false 0 false AccNone 0 [] StIdle 0.

Definition with_status (st : server_status) (s : lifecycle) : lifecycle :=
  mk_lifecycle st (m_running s) (m_session_number s) (acceptor_is_open s) (acc s) (live s)
    (m_threads s) (stop_at s) (stops s).

Definition with_acc (a : accept_pc) (s : lifecycle) : lifecycle :=
  mk_lifecycle (lc_status s) (m_running s) (m_session_number s) (acceptor_is_open s) a (live s)
    (m_threads s) (stop_at s) (stops s).

Definition with_stop (st : stop_pc) (s : lifecycle) : lifecycle :=
  mk_lifecycle (lc_status s) (m_running s) (m_session_number s) (acceptor_is_open s) (acc s) (live s)
    (m_threads s) st (stops s).

(** ** The accept fiber *)

(** [open], [set_option], [bind], [listen]: they throw when the acceptor is
    open already or the address is taken. *)
Definition accept_open (ok : bool) (s : lifecycle) : lifecycle :=
  if negb (acceptor_is_open s) && ok then
    mk_lifecycle (lc_status s) (m_running s) (m_session_number s) true AccLoop (live s)
      (m_threads s) (stop_at s) (stops s)
  else with_status Terminated s.

(** [async_accept] on a closed acceptor completes at once with bad_descriptor. *)
Definition accept_start (s : lifecycle) : lifecycle :=
  if acceptor_is_open s then with_acc AccWait s else with_acc (AccGot other_error) s.

(** The result decides: spawn a session, try again, leave the loop, or throw. *)
Definition accept_got (r : accept_result) (s : lifecycle) : lifecycle :=
  match r with
  | accepted =>
      mk_lifecycle (lc_status s) (m_running s) (m_session_number s) (acceptor_is_open s) AccSpawned
        (S (live s)) (m_threads s) (stop_at s) (stops s)
  | no_descriptors => with_acc AccLoop s
  | operation_aborted => with_acc AccEnded s
  | other_error => with_status Terminated s
  end.

(** [++m_session_number] under the lock. *)
Definition accept_count (s : lifecycle) : lifecycle :=
  mk_lifecycle (lc_status s) (m_running s) (m_session_number s + 1) (acceptor_is_open s) AccLoop
    (live s) (m_threads s) (stop_at s) (stops s).

(** ** The end of a session fiber: [--m_session_number] under the lock, and the notification *)
Definition session_finished (s : lifecycle) : lifecycle :=
  let n := m_session_number s - 1 in
  let st := if negb (m_running s) && (n =? 0)
            then match stop_at s with StBlocked => StWait | st => st end
            else stop_at s in
  mk_lifecycle (lc_status s) (m_running s) n (acceptor_is_open s) (acc s) (pred (live s))
    (m_threads s) st (stops s).

(** ** [start] and [stop] *)

Section threads.
Context (m_thread_count : nat).

(** [HttpApiServer::start]: assigning to a joinable fiber terminates. *)
Definition start (s : lifecycle) : lifecycle :=
  match acc s with
  | AccNone =>
      mk_lifecycle (lc_status s) true 0 (acceptor_is_open s) AccOpen (live s)
        (m_threads s ++ repeat true m_thread_count) (stop_at s) (stops s)
  | _ => with_status Terminated s
  end.

(** [HttpApiServer::stop], piece by piece. *)
Definition stop_begin (s : lifecycle) : lifecycle :=
  mk_lifecycle (lc_status s) false (m_session_number s) (acceptor_is_open s) (acc s) (live s)
    (m_threads s) StClose (stops s).

(** Closing cancels the pending accept. *)
Definition stop_close (s : lifecycle) : lifecycle :=
  mk_lifecycle (lc_status s) (m_running s) (m_session_number s) false
    (match acc s with AccWait => AccGot operation_aborted | a => a end) (live s)
    (m_threads s) StJoin (stops s).

(** [None]: the join has to wait. *)
Definition stop_join (s : lifecycle) : option lifecycle :=
  match acc s with
  | AccNone => Some (with_stop StWait s)
  | AccEnded => Some (with_stop StWait (with_acc AccNone s))
  | _ => None
  end.

(** The predicate of the wait, under the lock. *)
Definition stop_wait (s : lifecycle) : lifecycle :=
  if m_session_number s =? 0 then with_stop StIo s else with_stop StBlocked s.

(** [m_threads[i].join()]: a thread joined before is not joinable and throws. *)
Definition stop_thread (i : nat) (s : lifecycle) : lifecycle :=
  if bool_decide (i < m_thread_count)%nat then
    match m_threads s !! i with
    | None => with_status UndefinedAccess s
    | Some false => with_status StopThrew s
    | Some true =>
        mk_lifecycle (lc_status s) (m_running s) (m_session_number s) (acceptor_is_open s) (acc s)
          (live s) (<[i := false]> (m_threads s)) (StThreads (S i)) (stops s)
    end
  else
    mk_lifecycle (lc_status s) (m_running s) (m_session_number s) (acceptor_is_open s) (acc s)
      (live s) (m_threads s) StIdle (S (stops s)).

(** ** The system *)

Inductive step : lifecycle -> lifecycle -> Prop :=
| Start s : lc_status s = Alive -> stop_at s = StIdle -> step s (start s)
| Open ok s : lc_status s = Alive -> acc s = AccOpen -> step s (accept_open ok s)
| Accept s : lc_status s = Alive -> acc s = AccLoop -> step s (accept_start s)
| Complete r s :
    lc_status s = Alive -> acc s = AccWait -> r <> operation_aborted ->
    step s (with_acc (AccGot r) s)
| Got r s : lc_status s = Alive -> acc s = AccGot r -> step s (accept_got r s)
| Count s : lc_status s = Alive -> acc s = AccSpawned -> step s (accept_count s)
| Finish s : lc_status s = Alive -> (0 < live s)%nat -> step s (session_finished s)
| StopBegin s : lc_status s = Alive -> stop_at s = StIdle -> step s (stop_begin s)
| StopClose s : lc_status s = Alive -> stop_at s = StClose -> step s (stop_close s)
| StopJoin s s' : lc_status s = Alive -> stop_at s = StJoin -> stop_join s = Some s' -> step s s'
| StopWait s : lc_status s = Alive -> stop_at s = StWait -> step s (stop_wait s)
| StopSpurious s : lc_status s = Alive -> stop_at s = StBlocked -> step s (with_stop StWait s)
| StopIo s : lc_status s = Alive -> stop_at s = StIo -> step s (with_stop (StThreads 0) s)
| StopThread i s : lc_status s = Alive -> stop_at s = StThreads i -> step s (stop_thread i s).

Definition reachable : lifecycle -> Prop := rtc step lifecycle_new.

(** ** Invariants *)

(** A session spawned and not counted yet. *)
Definition uncounted (s : lifecycle) : Z := match acc s with AccSpawned => 1 | _ => 0 end.

(** [stop] is past the join of the accept fiber. *)
Definition joined (st : stop_pc) : bool :=
  match st with StWait | StBlocked | StIo | StThreads _ => true | _ => false end.

(** [stop] is past the wait for the sessions. *)
Definition waited (st : stop_pc) : bool :=
  match st with StIo | StThreads _ => true | _ => false end.

Record inv (s : lifecycle) : Prop := {
  inv_number : m_session_number s = Z.of_nat (live s) - uncounted s;
  inv_running : stop_at s <> StIdle -> m_running s = false;
  inv_joined : joined (stop_at s) = true -> acc s = AccNone;
  inv_waited : waited (stop_at s) = true -> live s = 0%nat;
  inv_none : acc s = AccNone -> joined (stop_at s) = false -> live s = 0%nat;
  inv_blocked : stop_at s = StBlocked -> m_session_number s <> 0;
}.

Lemma inv_new : inv lifecycle_new.
Proof. by split. Qed.

(** The fields of a state, for case analysis. *)
Ltac open_state s :=
  let st := fresh "st" in
  destruct s as [st ? ? ? ? ? ? ? ?]; simpl in *; try subst.

Lemma lifecycle_step_inv s s' : step s s' -> inv s -> inv s'.
Proof.
  intros Hs [In Ir Ij Iw Ino Ib].
  destruct Hs as [s _ Hp|ok s _ Hp|s _ Hp|r s _ Hp _|r s _ Hp|s _ Hp|s _ Hp|s _ Hp|s _ Hp
    |s s' _ Hp Hj|s _ Hp|s _ Hp|s _ Hp|i s _ Hp]; open_state s;
    unfold start, accept_open, accept_start, accept_got, accept_count, session_finished,
      stop_begin, stop_close, stop_join, stop_wait, stop_thread, with_status, with_acc, with_stop,
      uncounted in *; simpl in *;
    repeat (case_match; simpl in *; simplify_eq);
    try (split; unfold uncounted; simpl; intros; simplify_eq; try done; naive_solver lia).
  match goal with x : stop_pc |- _ => destruct x end; split; unfold uncounted; simpl;
    naive_solver lia.
Qed.

Lemma lifecycle_inv s : reachable s -> inv s.
Proof.
  revert s. apply (rtc_ind_r (R := step) inv lifecycle_new); [apply inv_new|].
  intros ? ? _ Hs Hi. by eapply lifecycle_step_inv.
Qed.

(** ** Theorems *)

(** The ends of sessions and the tests of [stop]'s wait, alone. *)
Inductive drain : lifecycle -> lifecycle -> Prop :=
| DrainFinish s : lc_status s = Alive -> (0 < live s)%nat -> drain s (session_finished s)
| DrainTest s : lc_status s = Alive -> stop_at s = StWait -> drain s (stop_wait s).

Lemma drain_step s s' : drain s s' -> step s s'.
Proof. destruct 1; by constructor. Qed.

(** Once the accept fiber is joined, the ends of the sessions bring [stop] past its wait. *)
Lemma stop_drains k s :
  inv s -> lc_status s = Alive -> live s = k -> stop_at s = StWait \/ stop_at s = StBlocked ->
  exists s', rtc drain s s' /\ stop_at s' = StIo /\ live s' = 0%nat.
Proof.
  revert s. induction k as [|k IH]; intros s Hi Ha Hl Hp.
  - assert (Hw : stop_at s = StWait).
    { destruct Hp as [|Hb]; [done|]. pose proof (inv_blocked _ Hi Hb) as Hn.
      rewrite (inv_number _ Hi), Hl in Hn. unfold uncounted in Hn.
      rewrite (inv_joined _ Hi) in Hn by by rewrite Hb. done. }
    exists (stop_wait s). split; [apply rtc_once; by constructor|].
    unfold stop_wait. rewrite (inv_number _ Hi), Hl. unfold uncounted.
    rewrite (inv_joined _ Hi) by by rewrite Hw. done.
  - assert (Hs : drain s (session_finished s)) by (constructor; [done|lia]).
    destruct (IH (session_finished s)) as (s' & Hr & Hs').
    + by eapply lifecycle_step_inv; [apply drain_step|].
    + done.
    + simpl. lia.
    + simpl. destruct Hp as [-> | ->]; destruct (_ && _); auto.
    + exists s'. split; [by eapply rtc_l|done].
Qed.

(** C11. In every interleaving of accepting, sessions and [stop], the counter is
    the number of session fibers, short of one between the spawn and the count;
    [stop] gets past its wait only when no session runs and the accept fiber is
    joined, and it sleeps on the condition variable only while a session is
    still there to wake it up.  It is not stuck in its wait: from every reachable
    state in which it waits for the sessions, their ends alone bring it past. *)
Theorem stop_waits_for_sessions s :
  reachable s ->
  m_session_number s = Z.of_nat (live s) - uncounted s /\
  (waited (stop_at s) = true -> live s = 0%nat /\ m_session_number s = 0 /\ acc s = AccNone) /\
  (stop_at s = StBlocked -> (0 < live s)%nat /\ m_running s = false /\ acc s = AccNone) /\
  (lc_status s = Alive -> stop_at s = StWait \/ stop_at s = StBlocked ->
   exists s', rtc drain s s' /\ stop_at s' = StIo /\ live s' = 0%nat).
Proof.
  intros Hi%lifecycle_inv. pose proof Hi as [In Ir Ij Iw Ino Ib]. split; [done|]. unfold uncounted in *. split_and!.
  - intros Hp. rewrite Iw by done. rewrite Ij in * by by destruct (stop_at s). rewrite In, Iw by done. done.
  - intros Hp. rewrite Hp in *. rewrite Ij, Ir in * by done. specialize (Ib eq_refl). split; [lia|done].
  - intros Ha Hp. by eapply stop_drains.
Qed.

(** The first [m_thread_count] threads are never joined twice. *)
Record once (s : lifecycle) : Prop := {
  once_stops : (stops s <= 1)%nat;
  once_joined : stops s = 1%nat -> m_threads s !! 0%nat = Some false;
  once_first i : stop_at s = StThreads i -> (0 < i)%nat ->
    stops s = 0%nat /\ m_threads s !! 0%nat = Some false;
}.

Lemma step_once s s' : (0 < m_thread_count)%nat -> step s s' -> once s -> once s'.
Proof.
  intros Hn Hs [Hst Hj Hf].
  assert (Hlen : forall x, m_threads s !! 0%nat = Some x ->
    (m_threads s ++ repeat true m_thread_count) !! 0%nat = Some x) by (by intros; apply lookup_app_l_Some).
  destruct Hs as [s _ Hp|ok s _ Hp|s _ Hp|r s _ Hp _|r s _ Hp|s _ Hp|s _ Hp|s _ Hp|s _ Hp
    |s s' _ Hp Hjo|s _ Hp|s _ Hp|s _ Hp|i s _ Hp]; open_state s;
    unfold start, accept_open, accept_start, accept_got, accept_count, session_finished,
      stop_begin, stop_close, stop_join, stop_wait, stop_thread, with_status, with_acc, with_stop in *;
    simpl in *; repeat (case_match; simpl in *; simplify_eq);
    try (split; simpl; intros; simplify_eq; naive_solver lia).
  - (* joining thread i *)
    destruct i as [|i].
    + split; simpl; [done| |].
      * intros ->. by rewrite Hj in H0.
      * intros j [= <-] _. split; [|by rewrite list_lookup_insert_eq by by eapply lookup_lt_Some].
        destruct stops0 as [|[|]]; [done| |lia]. by rewrite Hj in H0.
    + destruct (Hf (S i) eq_refl) as [-> H1]; [lia|]. split; simpl; [lia|done|].
      intros j [= <-] _. split; [done|]. by rewrite list_lookup_insert_ne by done.
  - (* the last thread is joined *)
    case_bool_decide; [done|]. destruct (Hf i eq_refl) as [-> H1]; [lia|].
    split; simpl; [lia|done|done].
Qed.

Lemma reachable_once s : (0 < m_thread_count)%nat -> reachable s -> once s.
Proof.
  intros Hn. revert s. apply (rtc_ind_r (R := step) once lifecycle_new).
  - split; simpl; [lia|done..].
  - intros ? ? _ Hs Hi. by eapply step_once.
Qed.

(** A server can be stopped once: [start] appends its threads to those of
    the first run, which [stop] has joined already, so that the join of the
    second [stop] throws [std::system_error] on the first of them. *)
Lemma second_stop_throws s :
  (0 < m_thread_count)%nat -> reachable s ->
  (stops s <= 1)%nat /\
  (stops s = 1%nat -> forall i, stop_at s = StThreads i ->
     i = 0%nat /\ lc_status (stop_thread i s) = StopThrew).
Proof.
  intros Hn Hr. destruct (reachable_once s Hn Hr) as [Hs Hj Hf]. split; [done|].
  intros H1 [|i] Hp; [|destruct (Hf (S i) Hp); lia]. split; [done|].
  unfold stop_thread. rewrite bool_decide_eq_true_2 by done. by rewrite Hj.
Qed.

(** A connection is accepted, [stop] closes the acceptor before the accept
    fiber runs again, and the fiber calls [async_accept] on the closed acceptor. *)
Definition race_schedule : lifecycle :=
  accept_got other_error (accept_start (accept_count (accept_got accepted
    (stop_close (stop_begin (with_acc (AccGot accepted)
      (accept_start (accept_open true (start lifecycle_new))))))))).

(** [stop] can terminate the process without any failure of the system: when
    a connection has been accepted and the accept fiber has not run yet, closing
    the acceptor makes its next [async_accept] fail with a code that [accept]
    rethrows out of the fiber function. *)
Lemma race_terminates : reachable race_schedule /\ lc_status race_schedule = Terminated.
Proof.
  split; [|done]. unfold reachable, race_schedule.
  eapply rtc_r; [|by apply Got]. eapply rtc_r; [|by apply Accept]. eapply rtc_r; [|by apply Count].
  eapply rtc_r; [|by apply Got]. eapply rtc_r; [|by apply StopClose].
  eapply rtc_r; [|by apply StopBegin]. eapply rtc_r; [|by apply Complete].
  eapply rtc_r; [|by apply Accept]. eapply rtc_r; [|by apply Open].
  apply rtc_once. by apply Start.
Qed.

(** [stop] runs before the accept fiber has opened the acceptor. *)
Definition early_stop : lifecycle :=
  accept_open true (stop_close (stop_begin (start lifecycle_new))).

(** The accept fiber keeps an open acceptor that nobody will close. *)
Definition stuck (s : lifecycle) : Prop :=
  stop_at s = StJoin /\
  (lc_status s = Terminated \/
   acceptor_is_open s = true /\
   match acc s with AccNone | AccOpen | AccEnded | AccGot operation_aborted => False | _ => True end).

Lemma step_stuck s s' : step s s' -> stuck s -> stuck s'.
Proof.
  intros Hs [Hst Hc].
  destruct Hs as [s Ha Hp|ok s Ha Hp|s Ha Hp|r s Ha Hp Hr|r s Ha Hp|s Ha Hp|s Ha Hp|s Ha Hp|s Ha Hp
    |s s' Ha Hp Hjo|s Ha Hp|s Ha Hp|s Ha Hp|i s Ha Hp]; try congruence;
    (destruct Hc as [|[Ho Hc]]; [congruence|]); rewrite ?Hp in Hc; try done;
    unfold stuck, accept_start, accept_got, accept_count, session_finished, stop_join, with_status,
      with_acc in *; rewrite ?Ho; simpl.
  - split; [done|]. by right.
  - split; [done|]. right. split; [done|]. by destruct r.
  - destruct r; simpl; (split; [done|]); auto.
  - auto.
  - rewrite Hst. destruct (_ && _); auto.
  - destruct (acc s); done.
Qed.

(** [stop] called before the accept fiber first runs never returns: it
    closes an acceptor that is not open yet, the fiber opens it afterwards, and
    the join waits for a fiber that only the closing would have ended. *)
Lemma early_stop_waits :
  reachable early_stop /\ forall s, rtc step early_stop s -> stop_at s = StJoin.
Proof.
  split.
  - unfold reachable, early_stop. eapply rtc_r; [|by apply Open]. eapply rtc_r; [|by apply StopClose].
    eapply rtc_r; [|by apply StopBegin]. apply rtc_once. by apply Start.
  - assert (Hk : forall s, rtc step early_stop s -> stuck s).
    { apply (rtc_ind_r (R := step) stuck early_stop).
      - split; [done|]. by right.
      - intros ? ? _ Hs Hi. by eapply step_stuck. }
    intros s Hs. apply (Hk s Hs).
Qed.

(** C39. Three ways in which [stop] does not do its work.  A server can be
    stopped once: [start] appends its threads to those of the first run, which
    [stop] has joined already, so that the join of a second [stop] throws.  When
    a connection has been accepted and the accept fiber has not run yet, closing
    the acceptor makes its next [async_accept] fail with a code that [accept]
    rethrows out of the fiber function, which ends the process.  And [stop] called
    before the accept fiber first runs never returns: it closes an acceptor that
    is not open yet, and joins a fiber that only the closing would have ended. *)
Theorem stop_hazards s :
  (0 < m_thread_count)%nat -> reachable s ->
  ((stops s <= 1)%nat /\
   (stops s = 1%nat -> forall i, stop_at s = StThreads i ->
      i = 0%nat /\ lc_status (stop_thread i s) = StopThrew)) /\
  (reachable race_schedule /\ lc_status race_schedule = Terminated) /\
  (reachable early_stop /\ forall s', rtc step early_stop s' -> stop_at s' = StJoin).
Proof.
  intros Hn Hs. split; [by apply second_stop_throws|]. split; [apply race_terminates|apply early_stop_waits].
Qed.

Lemma step_join s :
  lc_status s = Alive -> stop_at s = StJoin -> acc s = AccEnded ->
  step s (with_stop StWait (with_acc AccNone s)).
Proof. intros Ha Hp He. apply StopJoin; [done..|]. unfold stop_join. by rewrite He. Qed.

End threads.

(** ** Witnesses: one thread *)

(** Started, one connection accepted, [stop] waiting for its session. *)
Definition waiting_state : lifecycle :=
  stop_wait (with_stop StWait (with_acc AccNone
    (accept_got operation_aborted (stop_close (stop_begin (accept_start (accept_count
      (accept_got accepted (with_acc (AccGot accepted)
        (accept_start (accept_open true (start 1 lifecycle_new)))))))))))).

Lemma waiting_reachable : reachable 1 waiting_state.
Proof.
  unfold reachable, waiting_state.
  eapply rtc_r; [|by apply StopWait]. eapply rtc_r; [|by apply step_join].
  eapply rtc_r; [|by apply Got]. eapply rtc_r; [|by apply StopClose].
  eapply rtc_r; [|by apply StopBegin]. eapply rtc_r; [|by apply Accept].
  eapply rtc_r; [|by apply Count]. eapply rtc_r; [|by apply Got].
  eapply rtc_r; [|by apply Complete]. eapply rtc_r; [|by apply Accept].
  eapply rtc_r; [|by apply Open]. apply rtc_once. by apply Start.
Qed.

Lemma stop_waits_for_sessions_witness :
  (0 < live waiting_state)%nat /\ m_session_number waiting_state = 1 /\
  exists s', rtc drain waiting_state s' /\ stop_at s' = StIo /\ live s' = 0%nat.
Proof.
  destruct (stop_waits_for_sessions 1 waiting_state waiting_reachable) as (Hn & _ & Hb & Hd).
  split; [apply Hb; reflexivity|]. split; [rewrite Hn; reflexivity|apply Hd; [reflexivity|right; reflexivity]].
Defined.

(** [start] and [stop] without a connection. *)
Definition run_once (s : lifecycle) : lifecycle :=
  with_stop (StThreads 0) (stop_wait (with_stop StWait (with_acc AccNone
    (accept_got operation_aborted (stop_close (stop_begin
      (accept_start (accept_open true (start 1 s))))))))).

Definition first_stop : lifecycle := stop_thread 1 1 (stop_thread 1 0 (run_once lifecycle_new)).

Ltac run_once_steps :=
  eapply rtc_r; [|by apply StopIo]; eapply rtc_r; [|by apply StopWait];
  eapply rtc_r; [|by apply step_join]; eapply rtc_r; [|by apply Got];
  eapply rtc_r; [|by apply StopClose]; eapply rtc_r; [|by apply StopBegin];
  eapply rtc_r; [|by apply Accept]; eapply rtc_r; [|by apply Open];
  eapply rtc_r; [|by apply Start].

Lemma second_stop_reachable : reachable 1 (run_once first_stop).
Proof.
  unfold reachable, run_once. run_once_steps. unfold first_stop.
  eapply rtc_r; [|by apply StopThread]. eapply rtc_r; [|by apply StopThread].
  unfold run_once. run_once_steps. apply rtc_refl.
Qed.

(** The second [stop] throws. *)
Lemma stop_hazards_witness : lc_status (stop_thread 1 0 (run_once first_stop)) = StopThrew.
Proof.
  destruct (stop_hazards 1 (run_once first_stop) ltac:(lia) second_stop_reachable) as [[_ Hs] _].
  apply (Hs eq_refl 0%nat eq_refl).
Defined.
