(* ===== verification/HttpSetup.v ===== *)
(** * Sockets and threads of the HTTP components

    The helpers of http/http_api_server.cpp that set the options of a connection
    and of the listening socket, and the threads of the connection cache of
    http/multi_client_http.cpp: started by its constructor, stopped and joined by
    its destructor. *)
From stdpp Require Import prelude strings list.
From Stdlib Require Import Ascii ZArith Lia.
From S2P Require Import Prelude.

Local Open Scope Z_scope.

(** ** Socket options *)

Inductive sockopt : Type := SO_KEEPALIVE | TCP_KEEPIDLE | TCP_KEEPINTVL | TCP_KEEPCNT.

#[export] Instance sockopt_eq_dec : EqDecision sockopt.
Proof. solve_decision. Defined.

(** The options of a socket and its descriptor flags. *)
Record socket : Type := mk_socket {
  option_of : sockopt -> Z;
  fd_flags : Z
}.

Definition sockopt_text (o : sockopt) : str :=
  match o with
  | SO_KEEPALIVE => lit "setsockopt SO_KEEPALIVE failed"
  | TCP_KEEPIDLE => lit "setsockopt TCP_KEEPIDLE failed"
  | TCP_KEEPINTVL => lit "setsockopt TCP_KEEPINTVL failed"
  | TCP_KEEPCNT => lit "setsockopt TCP_KEEPCNT failed"
  end.

Section options.
(** Whether the system accepts an option. *)
Context (accepted : sockopt -> bool).

Definition setsockopt (s : socket) (o : sockopt) (v : Z) : socket * Z :=
  if accepted o
  then (mk_socket (fun o' => if bool_decide (o' = o) then v else option_of s o') (fd_flags s), 0)
  else (s, -1).

(** One call and its check: the socket and the lines logged. *)
Definition try_option (o : sockopt) (v : Z) (x : socket * list str) : socket * list str :=
  let '(s, log) := x in
  let '(s', ret) := setsockopt s o v in
  (s', if ret <? 0 then log ++ [sockopt_text o] else log).

Definition set_socket_opt (s : socket) : socket * list str :=
  let flags := 1 in
  let tcp_keepalive_time := 20 in
  let tcp_keepalive_probes := 3 in
  let tcp_keepalive_intvl := 3 in
  try_option TCP_KEEPCNT tcp_keepalive_probes
    (try_option TCP_KEEPINTVL tcp_keepalive_intvl
       (try_option TCP_KEEPIDLE tcp_keepalive_time
          (try_option SO_KEEPALIVE flags (s, [])))).

(** What the server wants of a connection: dead peers are found after 20 s of
    silence and three probes, three seconds apart. *)
Definition wanted (o : sockopt) : Z :=
  match o with SO_KEEPALIVE => 1 | TCP_KEEPIDLE => 20 | TCP_KEEPINTVL => 3 | TCP_KEEPCNT => 3 end.

(** Every option the system accepts gets its value, the others keep theirs and
    are logged, in the order of the calls. *)
Lemma set_socket_opt_spec s :
  let '(s', log) := set_socket_opt s in
  (forall o, option_of s' o = if accepted o then wanted o else option_of s o) /\
  fd_flags s' = fd_flags s /\
  log = map sockopt_text (List.filter (fun o => negb (accepted o)) [SO_KEEPALIVE; TCP_KEEPIDLE; TCP_KEEPINTVL; TCP_KEEPCNT]).
Proof.
  unfold set_socket_opt, try_option, setsockopt.
  destruct (accepted SO_KEEPALIVE) eqn:E1, (accepted TCP_KEEPIDLE) eqn:E2, (accepted TCP_KEEPINTVL) eqn:E3,
    (accepted TCP_KEEPCNT) eqn:E4; simpl; rewrite ?E1, ?E2, ?E3, ?E4; simpl;
    (split; [intros []; rewrite ?E1, ?E2, ?E3, ?E4; reflexivity|]); (split; [reflexivity|]);
    simpl; rewrite ?E1, ?E2, ?E3, ?E4; reflexivity.
Qed.
End options.

Definition FD_CLOEXEC : Z := 1.

(** [set_close_on_exec]; the descriptor is open, so [F_GETFD] gives its flags. *)
Definition set_close_on_exec (s : socket) : socket :=
  let flags := fd_flags s in
  mk_socket (option_of s) (Z.lor flags FD_CLOEXEC).

(** The flag is set and the others stay. *)
Lemma set_close_on_exec_spec s n : 0 <= n ->
  Z.testbit (fd_flags (set_close_on_exec s)) n = (n =? 0) || Z.testbit (fd_flags s) n.
Proof.
  intros Hn. simpl. rewrite Z.lor_spec, orb_comm. unfold FD_CLOEXEC.
  destruct (Z.eqb_spec n 0) as [->|Hne]; [done|]. by rewrite (Z.bits_above_log2 1 n) by (simpl; lia).
Qed.

(** ** The threads of the cache *)

(** A thread runs the handlers of the io_context; [run] returns when the context
    has been stopped, since the work guard is kept. *)
Record cache_threads : Type := mk_threads {
  m_thread_count : Z;
  m_threads : list nat;       (* the threads started, by number *)
  io_stopped : bool;
  joined : list nat
}.

(** The loop [for (int i = 0; i < m_thread_count; ++i)] with the turns left. *)
Fixpoint start_threads (turns : nat) (t : cache_threads) : cache_threads :=
  match turns with
  | O => t
  | S turns' =>
      start_threads turns'
        (mk_threads (m_thread_count t) (m_threads t ++ [length (m_threads t)]) (io_stopped t) (joined t))
  end.

Definition HttpCache_start (thread_count : Z) : cache_threads :=
  start_threads (Z.to_nat thread_count) (mk_threads thread_count [] false []).

(** [m_threads[i].join()]: past the end of the vector is undefined; the join of a
    thread that runs on never returns, and a second join throws. *)
Definition join_thread (i : nat) (t : cache_threads) : outcome unit cache_threads :=
  match m_threads t !! i with
  | None => Undef
  | Some n =>
      if bool_decide (n ∈ joined t) then Throw tt
      else if io_stopped t then Ret (mk_threads (m_thread_count t) (m_threads t) true (joined t ++ [n]))
      else Undef
  end.

Fixpoint join_threads (turns i : nat) (t : cache_threads) : outcome unit cache_threads :=
  match turns with
  | O => Ret t
  | S turns' => obind (join_thread i t) (join_threads turns' (S i))
  end.

Definition HttpCache_stop (t : cache_threads) : outcome unit cache_threads :=
  join_threads (Z.to_nat (m_thread_count t)) 0
    (mk_threads (m_thread_count t) (m_threads t) true (joined t)).

Lemma start_threads_seq turns t :
  m_threads t = seq 0 (length (m_threads t)) ->
  start_threads turns t =
  mk_threads (m_thread_count t) (seq 0 (length (m_threads t) + turns)) (io_stopped t) (joined t).
Proof.
  revert t. induction turns as [|turns IH]; intros t Ht; simpl.
  - rewrite Nat.add_0_r, <- Ht. by destruct t.
  - rewrite IH; simpl; rewrite ?length_app; simpl.
    + by rewrite <- Nat.add_assoc.
    + by rewrite Nat.add_1_r, seq_S, <- Ht.
Qed.

Lemma join_threads_seq turns i n c :
  (i + turns <= n)%nat ->
  join_threads turns i (mk_threads c (seq 0 n) true (seq 0 i)) = Ret (mk_threads c (seq 0 n) true (seq 0 (i + turns))).
Proof.
  revert i. induction turns as [|turns IH]; intros i Hi; simpl; [by rewrite Nat.add_0_r|].
  unfold join_thread. simpl. rewrite lookup_seq_lt by lia. simpl.
  rewrite bool_decide_eq_false_2 by (rewrite elem_of_seq; lia). simpl.
  assert (E : seq 0 i ++ [i] = seq 0 (S i)) by by rewrite seq_S. rewrite E, (IH (S i)) by lia.
  by rewrite Nat.add_succ_l, Nat.add_succ_r.
Qed.

(** The destructor stops the context first, so every join returns; it joins each
    thread the constructor started exactly once, and none when the count is zero
    or negative. *)
Lemma cache_threads_joined thread_count :
  exists t, HttpCache_stop (HttpCache_start thread_count) = Ret t /\
    io_stopped t = true /\ joined t = m_threads t /\ NoDup (joined t) /\
    length (m_threads t) = Z.to_nat thread_count.
Proof.
  unfold HttpCache_stop, HttpCache_start. rewrite start_threads_seq by done. simpl.
  rewrite (join_threads_seq _ 0 (Z.to_nat thread_count) thread_count) by lia.
  eexists. split; [done|]. simpl. split; [done|]. split; [done|]. split; [apply NoDup_seq|by rewrite length_seq].
Qed.
