(* ===== verification/Json.v ===== *)
(** * JSON values (third_party/include/json.hpp), as db/json2sql.cpp uses them

    The value type of nlohmann::json 3.7.3 with the operations the SQL builder
    calls, and its serialiser in the mode the builder uses: compact, not
    ASCII-only, throwing on invalid UTF-8.  The representation of a floating-point
    number and its text are parameters here, which [JsonFloat] instantiates with
    the 64 bits of a double and the model of [dump_float]. *)
From stdpp Require Import prelude strings.
From Stdlib Require Import Ascii ZArith Lia.
From S2P Require Import Prelude CxxLib CxxMap.

Local Open Scope Z_scope.

(** Where the lexer is: characters read, characters read in this line, lines read. *)
Record position_t := mk_position {
  chars_read_total : Z;
  chars_read_current_line : Z;
  lines_read : Z
}.

(** The exceptions, by the number the library gives them; a parse error carries
    its position and its text. *)
Inductive json_exception : Type :=
| json_parse_error (id : Z) (pos : position_t) (what : str)
| type_error (id : Z)
| invalid_iterator (id : Z)
| json_out_of_range (id : Z).

(** ** UTF-8 decoding *)

Definition UTF8_ACCEPT : Z := 0.
Definition UTF8_REJECT : Z := 1.

Definition utf8d : list Z :=
  [0; 0; 0; 0; 0; 0; 0; 0; 0; 0; 0; 0; 0; 0; 0; 0; 0; 0; 0; 0; 0; 0; 0; 0; 0; 0; 0; 0; 0; 0; 0; 0;
   0; 0; 0; 0; 0; 0; 0; 0; 0; 0; 0; 0; 0; 0; 0; 0; 0; 0; 0; 0; 0; 0; 0; 0; 0; 0; 0; 0; 0; 0; 0; 0;
   0; 0; 0; 0; 0; 0; 0; 0; 0; 0; 0; 0; 0; 0; 0; 0; 0; 0; 0; 0; 0; 0; 0; 0; 0; 0; 0; 0; 0; 0; 0; 0;
   0; 0; 0; 0; 0; 0; 0; 0; 0; 0; 0; 0; 0; 0; 0; 0; 0; 0; 0; 0; 0; 0; 0; 0; 0; 0; 0; 0; 0; 0; 0; 0;
   1; 1; 1; 1; 1; 1; 1; 1; 1; 1; 1; 1; 1; 1; 1; 1; 9; 9; 9; 9; 9; 9; 9; 9; 9; 9; 9; 9; 9; 9; 9; 9;
   7; 7; 7; 7; 7; 7; 7; 7; 7; 7; 7; 7; 7; 7; 7; 7; 7; 7; 7; 7; 7; 7; 7; 7; 7; 7; 7; 7; 7; 7; 7; 7;
   8; 8; 2; 2; 2; 2; 2; 2; 2; 2; 2; 2; 2; 2; 2; 2; 2; 2; 2; 2; 2; 2; 2; 2; 2; 2; 2; 2; 2; 2; 2; 2;
   10; 3; 3; 3; 3; 3; 3; 3; 3; 3; 3; 3; 3; 4; 3; 3; 11; 6; 6; 6; 5; 8; 8; 8; 8; 8; 8; 8; 8; 8; 8; 8;
   0; 1; 2; 3; 5; 8; 7; 1; 1; 1; 4; 6; 1; 1; 1; 1; 1; 1; 1; 1; 1; 1; 1; 1; 1; 1; 1; 1; 1; 1; 1; 1;
   1; 0; 1; 1; 1; 1; 1; 0; 1; 0; 1; 1; 1; 1; 1; 1; 1; 2; 1; 1; 1; 1; 1; 2; 1; 2; 1; 1; 1; 1; 1; 1;
   1; 1; 1; 1; 1; 1; 1; 2; 1; 1; 1; 1; 1; 1; 1; 1; 1; 2; 1; 1; 1; 1; 1; 1; 1; 2; 1; 1; 1; 1; 1; 1;
   1; 1; 1; 1; 1; 1; 1; 3; 1; 3; 1; 1; 1; 1; 1; 1; 1; 3; 1; 1; 1; 1; 1; 3; 1; 3; 1; 1; 1; 1; 1; 1;
   1; 3; 1; 1; 1; 1; 1; 1; 1; 1; 1; 1; 1; 1; 1; 1].

Definition utf8d_at (i : Z) : Z := nth (Z.to_nat i) utf8d UTF8_REJECT.

(** The new state and code point. *)
Definition decode (state codep byte : Z) : Z * Z :=
  let type := utf8d_at byte in
  let codep' := if negb (state =? UTF8_ACCEPT)
                then Z.lor (Z.land byte 63) (wrap_u 32 (Z.shiftl codep 6))
                else Z.land (Z.shiftr 255 type) byte in
  (utf8d_at (256 + state * 16 + type), codep').

(** ** Strings *)

Definition lower_hex (d : Z) : ascii := char_of_Z (if d <? 10 then 48 + d else 87 + d).

(** [snprintf] with a backslash, u and %04x of a 16-bit value. *)
Definition u_escape (n : Z) : str :=
  lit "\u" ++ [lower_hex (Z.land (Z.shiftr n 12) 15); lower_hex (Z.land (Z.shiftr n 8) 15);
               lower_hex (Z.land (Z.shiftr n 4) 15); lower_hex (Z.land n 15)].

(** What an accepted code point writes; [byte] is the last byte of its encoding. *)
Definition escape_codepoint (codepoint : Z) (byte : ascii) : str :=
  if codepoint =? 8 then lit "\b"
  else if codepoint =? 9 then lit "\t"
  else if codepoint =? 10 then lit "\n"
  else if codepoint =? 12 then lit "\f"
  else if codepoint =? 13 then lit "\r"
  else if codepoint =? 34 then ["\"%char; ascii_of_nat 34]
  else if codepoint =? 92 then lit "\\"
  else if codepoint <=? 31 then u_escape codepoint
  else [byte].

Local Open Scope cxx_scope.

(** [string_buffer], of 512 bytes: storing bytes at its end, of which the program
    counts those in use; [snprintf] stores a NUL after its text, and a store past
    the end is undefined. *)
Definition buffer_size : Z := 512.

Definition buffer_put (string_buffer bytes : str) : outcome json_exception str :=
  if str_size string_buffer + str_size bytes <? buffer_size then Ret (string_buffer ++ bytes) else Undef.

(** The loop of [dump_escaped], [ensure_ascii] false and errors strict: what has
    been written to the output, the buffer, the state of the decoder. *)
Fixpoint dump_escaped_loop (o string_buffer : str) (state codep : Z) (s : str) : outcome json_exception str :=
  match s with
  | [] =>
      if state =? UTF8_ACCEPT then
        Ret (if 0 <? str_size string_buffer then o ++ string_buffer else o)
      else Throw (type_error 316)
  | c :: s' =>
      let '(state', codep') := decode state codep (uchar c) in
      if state' =? UTF8_ACCEPT then
        let! string_buffer' := buffer_put string_buffer (escape_codepoint codep' c) in
        if buffer_size - str_size string_buffer' <? 13
        then dump_escaped_loop (o ++ string_buffer') [] state' codep' s'
        else dump_escaped_loop o string_buffer' state' codep' s'
      else if state' =? UTF8_REJECT then Throw (type_error 316)
      else
        let! string_buffer' := buffer_put string_buffer [c] in
        dump_escaped_loop o string_buffer' state' codep' s'
  end.

(** The first code point is not initialised; it is overwritten before it is read. *)
Definition dump_escaped (s : str) : outcome json_exception str :=
  dump_escaped_loop [] [] UTF8_ACCEPT 0 s.

(** ** Integers *)

(** The counting loop; 64-bit values need at most five turns. *)
Fixpoint count_digits (fuel : nat) (x n_digits : Z) : Z :=
  match fuel with
  | O => n_digits
  | S fuel' =>
      if x <? 10 then n_digits
      else if x <? 100 then n_digits + 1
      else if x <? 1000 then n_digits + 2
      else if x <? 10000 then n_digits + 3
      else count_digits fuel' (x / 10000) (n_digits + 4)
  end.

Definition digit_char (d : Z) : ascii := char_of_Z (48 + d).

(** [digits_to_99[i]]. *)
Definition two_digits (i : Z) : str := [digit_char (i / 10); digit_char (i mod 10)].

(** The loop that fills the buffer from the right, two digits a turn; 64-bit
    values need at most ten turns. *)
Fixpoint fill_digits (fuel : nat) (abs_value : Z) (written : str) : Z * str :=
  match fuel with
  | O => (abs_value, written)
  | S fuel' =>
      if 100 <=? abs_value
      then fill_digits fuel' (abs_value / 100) (two_digits (abs_value mod 100) ++ written)
      else (abs_value, written)
  end.

(** [remove_sign] of a negative value. *)
Definition remove_sign (x : Z) : Z := wrap_u 64 (wrap_u 64 (- (x + 1)) + 1).

(** [dump_integer]: the written digits must be as many as were counted, or the
    characters printed are not those written. *)
Definition dump_integer (x : Z) : outcome json_exception str :=
  if x =? 0 then Ret (lit "0")
  else
    let is_negative := x <? 0 in
    let abs_value := if is_negative then remove_sign x else x in
    let n_chars := count_digits 5 abs_value 1 in
    let '(v, written) := fill_digits 10 abs_value [] in
    let digits := (if 10 <=? v then two_digits v else [digit_char v]) ++ written in
    if str_size digits =? n_chars
    then Ret ((if is_negative then lit "-" else []) ++ digits)
    else Undef.

(** ** Values *)

#[warnings="-register-all"]
Inductive json (F : Type) : Type :=
| Null
| Object (m : list (str * json F))   (* in key order *)
| Array (a : list (json F))
| String_ (s : str)
| Boolean (b : bool)
| NumberInteger (i : Z)              (* int64_t *)
| NumberUnsigned (u : Z)             (* uint64_t *)
| NumberFloat (f : F)
| Discarded.
Arguments Null {F}.
Arguments Object {F} m.
Arguments Array {F} a.
Arguments String_ {F} s.
Arguments Boolean {F} b.
Arguments NumberInteger {F} i.
Arguments NumberUnsigned {F} u.
Arguments NumberFloat {F} f.
Arguments Discarded {F}.

Definition quote : ascii := ascii_of_nat 34.

Section dump.
Context {F : Type} (dump_float : F -> str).

(** [serializer::dump] without indentation. *)
Fixpoint dump (v : json F) : outcome json_exception str :=
  match v with
  | Object m =>
      let! body :=
        (fix members (m : list (str * json F)) : outcome json_exception str :=
           match m with
           | [] => Ret []
           | (k, x) :: m' =>
               let! key := dump_escaped k in
               let! value := dump x in
               let member := [quote] ++ key ++ [quote; ":"%char] ++ value in
               match m' with
               | [] => Ret member
               | _ :: _ => let! rest := members m' in Ret (member ++ lit "," ++ rest)
               end
           end) m in
      Ret (lit "{" ++ body ++ lit "}")
  | Array a =>
      let! body :=
        (fix elements (a : list (json F)) : outcome json_exception str :=
           match a with
           | [] => Ret []
           | x :: a' =>
               let! value := dump x in
               match a' with
               | [] => Ret value
               | _ :: _ => let! rest := elements a' in Ret (value ++ lit "," ++ rest)
               end
           end) a in
      Ret (lit "[" ++ body ++ lit "]")
  | String_ s => let! body := dump_escaped s in Ret ([quote] ++ body ++ [quote])
  | Boolean true => Ret (lit "true")
  | Boolean false => Ret (lit "false")
  | NumberInteger i => dump_integer i
  | NumberUnsigned u => dump_integer u
  | NumberFloat f => Ret (dump_float f)
  | Discarded => Ret (lit "<discarded>")
  | Null => Ret (lit "null")
  end.

(** ** Access *)

Definition is_object (v : json F) : bool := match v with Object _ => true | _ => false end.

(** [empty]. *)
Definition json_empty (v : json F) : bool :=
  match v with
  | Null => true
  | Array a => match a with [] => true | _ => false end
  | Object m => match m with [] => true | _ => false end
  | _ => false
  end.

(** The values from [begin] to [end]: a scalar is one value, null is none. *)
Definition json_values (v : json F) : list (json F) :=
  match v with
  | Object m => map snd m
  | Array a => a
  | Null => []
  | _ => [v]
  end.

(** The entries from [begin] to [end], for a loop that asks for the keys:
    [key] throws for an iterator over anything but an object. *)
Definition json_entries (v : json F) : outcome json_exception (list (str * json F)) :=
  match v with
  | Object m => Ret m
  | _ => match json_values v with
         | [] => Ret []
         | _ :: _ => Throw (invalid_iterator 207)
         end
  end.

(** [--end()]: decrementing the end iterator of an empty container. *)
Definition before_end (v : json F) : outcome json_exception unit :=
  match v with
  | Object [] | Array [] => Undef
  | _ => Ret tt
  end.

(** [at(key)], [operator[](key) = value], [erase(key)], [find(key)]. *)
Definition json_at (v : json F) (key : str) : outcome json_exception (json F) :=
  match v with
  | Object m => match map_get key m with
                | Some x => Ret x
                | None => Throw (json_out_of_range 403)
                end
  | _ => Throw (type_error 304)
  end.

Definition json_assign (v : json F) (key : str) (x : json F) : outcome json_exception (json F) :=
  match v with
  | Null => Ret (Object (map_set key x []))
  | Object m => Ret (Object (map_set key x m))
  | _ => Throw (type_error 305)
  end.

Definition json_erase (v : json F) (key : str) : outcome json_exception (json F) :=
  match v with
  | Object m => Ret (Object (map_erase key m))
  | _ => Throw (type_error 307)
  end.

Definition json_find (v : json F) (key : str) : option (json F) :=
  match v with
  | Object m => map_get key m
  | _ => None
  end.

End dump.

Example dump_example :
  dump (F := unit) (fun _ => lit "1.5")
    (Object [(lit "a", Array [NumberInteger (-12); NumberFloat tt; Null]); (lit "b", String_ (lit "x\y"))]) =
  Ret ([lit "{"; [quote]; lit "a"; [quote]; lit ":[-12,1.5,null],"; [quote]; lit "b"; [quote]; lit ":";
        [quote]; lit "x\\y"; [quote]; lit "}"] ≫= id).
Proof. vm_compute. reflexivity. Qed.
