(* ===== verification/JsonFacts.v ===== *)
(** * Theorems on JSON serialisation: integers, UTF-8 and escaping *)
From stdpp Require Import prelude strings.
From Stdlib Require Import Ascii ZArith Lia.
From S2P Require Import Prelude CxxLib CxxMap Json.

Local Open Scope Z_scope.

(** ** Integers *)

Lemma decimal_app acc s t :
  fold_left (fun a c => a * 10 + (uchar c - 48)) (s ++ t) acc =
  fold_left (fun a c => a * 10 + (uchar c - 48)) t
    (fold_left (fun a c => a * 10 + (uchar c - 48)) s acc).
Proof. apply fold_left_app. Qed.

Lemma decimal_acc acc s :
  fold_left (fun a c => a * 10 + (uchar c - 48)) s acc =
  acc * 10 ^ str_size s + decimal_value s.
Proof.
  unfold decimal_value. revert acc. induction s as [|c s IH]; intros acc.
  - simpl. unfold str_size. simpl. lia.
  - cbn [fold_left]. rewrite IH, (IH (0 * 10 + _)). rewrite str_size_cons.
    rewrite Z.pow_add_r by (try lia; apply str_size_nonneg). lia.
Qed.

Lemma decimal_value_app s t :
  decimal_value (s ++ t) = decimal_value s * 10 ^ str_size t + decimal_value t.
Proof. unfold decimal_value at 1. by rewrite decimal_app, decimal_acc. Qed.

Lemma uchar_char_of_Z z : 0 <= z < 256 -> uchar (char_of_Z z) = z.
Proof.
  intros Hz. unfold uchar, char_of_Z. rewrite Z.mod_small by lia.
  rewrite N_ascii_embedding; lia.
Qed.

Lemma digit_char_spec d : 0 <= d < 10 -> is_digit (digit_char d) = true /\ uchar (digit_char d) = 48 + d.
Proof.
  intros Hd. unfold is_digit, digit_char. rewrite uchar_char_of_Z by lia.
  split; [|done]. apply andb_true_intro. split; apply Z.leb_le; lia.
Qed.

Lemma two_digits_spec i :
  0 <= i < 100 -> forallb is_digit (two_digits i) = true /\ decimal_value (two_digits i) = i.
Proof.
  intros Hi. unfold two_digits. pose proof (Z.div_mod i 10 ltac:(lia)).
  pose proof (Z.mod_pos_bound i 10 ltac:(lia)).
  assert (0 <= i / 10 < 10) by (split; [apply Z.div_pos; lia|apply Z.div_lt_upper_bound; lia]).
  destruct (digit_char_spec (i / 10)) as [D1 U1]; [done|].
  destruct (digit_char_spec (i mod 10)) as [D2 U2]; [done|].
  split; [simpl; by rewrite D1, D2|]. unfold decimal_value. simpl. rewrite U1, U2. lia.
Qed.

Lemma two_digits_size i : str_size (two_digits i) = 2.
Proof. done. Qed.

(** The loop splits the number into its lower digits and what is left of it. *)
Lemma fill_digits_spec fuel v w :
  0 <= v < 100 ^ (Z.of_nat fuel + 1) ->
  exists v' d, fill_digits fuel v w = (v', d ++ w) /\ forallb is_digit d = true /\
    0 <= v' < 100 /\ v = v' * 10 ^ str_size d + decimal_value d /\
    0 <= decimal_value d < 10 ^ str_size d /\ (1 <= v -> 1 <= v').
Proof.
  revert v w. induction fuel as [|fuel IH]; intros v w Hv; cbn [fill_digits].
  { exists v, []. simpl in Hv. repeat split; try done; unfold decimal_value, str_size; simpl; lia. }
  destruct (Z.leb_spec 100 v).
  - assert (Hq : 0 <= v / 100 < 100 ^ (Z.of_nat fuel + 1)).
    { split; [apply Z.div_pos; lia|]. apply Z.div_lt_upper_bound; [lia|].
      rewrite <- Z.pow_succ_r by lia. replace (Z.succ (Z.of_nat fuel + 1)) with (Z.of_nat (S fuel) + 1); lia. }
    destruct (IH (v / 100) (two_digits (v mod 100) ++ w) Hq) as (v' & d & E & Hd & Hv' & Hsum & Hdec & Hpos).
    pose proof (Z.mod_pos_bound v 100 ltac:(lia)) as Hm.
    destruct (two_digits_spec (v mod 100) Hm) as [Ht Hval].
    exists v', (d ++ two_digits (v mod 100)). rewrite E, <- app_assoc.
    rewrite forallb_app, Hd, Ht, decimal_value_app, str_size_app, two_digits_size, Hval.
    rewrite Z.pow_add_r by (try lia; apply str_size_nonneg).
    pose proof (Z.div_mod v 100 ltac:(lia)). change (10 ^ 2) with 100.
    assert (1 <= v / 100) by (apply Z.div_le_lower_bound; lia). repeat split; try done; lia.
  - exists v, []. repeat split; try done; unfold decimal_value, str_size; simpl; lia.
Qed.

(** The counting loop finds the number of decimal digits. *)
Lemma count_digits_spec fuel x n :
  1 <= x < 10 ^ (4 * Z.of_nat fuel) ->
  exists k, count_digits fuel x n = n + k /\ 0 <= k /\ 10 ^ k <= x < 10 ^ (k + 1).
Proof.
  revert x n. induction fuel as [|fuel IH]; intros x n Hx; cbn [count_digits].
  { simpl in Hx. lia. }
  destruct (Z.ltb_spec x 10); [exists 0; simpl; lia|].
  destruct (Z.ltb_spec x 100); [exists 1; simpl; lia|].
  destruct (Z.ltb_spec x 1000); [exists 2; simpl; lia|].
  destruct (Z.ltb_spec x 10000); [exists 3; simpl; lia|].
  assert (Hq : 1 <= x / 10000 < 10 ^ (4 * Z.of_nat fuel)).
  { split; [apply Z.div_le_lower_bound; lia|]. apply Z.div_lt_upper_bound; [lia|].
    change 10000 with (10 ^ 4). rewrite <- Z.pow_add_r by lia.
    replace (4 + 4 * Z.of_nat fuel) with (4 * Z.of_nat (S fuel)) by lia. lia. }
  destruct (IH (x / 10000) (n + 4) Hq) as (k & E & Hk & Hlo & Hhi).
  exists (k + 4). rewrite E. split; [lia|]. split; [lia|].
  replace (k + 4 + 1) with (k + 1 + 4) by lia.
  rewrite (Z.pow_add_r 10 k 4), (Z.pow_add_r 10 (k + 1) 4) by lia. change (10 ^ 4) with 10000.
  pose proof (Z.div_mod x 10000 ltac:(lia)). pose proof (Z.mod_pos_bound x 10000 ltac:(lia)). lia.
Qed.

Lemma pow10_unique x j k : 0 <= j -> 0 <= k -> 10 ^ j <= x < 10 ^ (j + 1) -> 10 ^ k <= x < 10 ^ (k + 1) -> j = k.
Proof.
  intros Hj Hk H1 H2. destruct (Z.lt_trichotomy j k) as [Hlt|[|Hlt]]; [|done|].
  - pose proof (Z.pow_le_mono_r 10 (j + 1) k ltac:(lia) ltac:(lia)). lia.
  - pose proof (Z.pow_le_mono_r 10 (k + 1) j ltac:(lia) ltac:(lia)). lia.
Qed.

(** The digits written for a positive 64-bit value. *)
Lemma digits_written v :
  1 <= v < 2 ^ 64 ->
  let '(v', w) := fill_digits 10 v [] in
  let digits := (if 10 <=? v' then two_digits v' else [digit_char v']) ++ w in
  forallb is_digit digits = true /\ decimal_value digits = v /\
  str_size digits = count_digits 5 v 1.
Proof.
  intros Hv. destruct (fill_digits_spec 10 v []) as (v' & d & E & Hd & Hv' & Hsum & Hdec & Hpos).
  { split; [lia|]. apply Z.lt_le_trans with (2 ^ 64); [lia|]. vm_compute. discriminate. }
  rewrite E, app_nil_r. cbv zeta. specialize (Hpos ltac:(lia)).
  destruct (count_digits_spec 5 v 1) as (k & -> & Hk & Hlo & Hhi).
  { split; [lia|]. apply Z.lt_le_trans with (2 ^ 64); [lia|]. vm_compute. discriminate. }
  set (head := if 10 <=? v' then two_digits v' else [digit_char v']).
  assert (Hh : forallb is_digit head = true /\ decimal_value head = v' /\
    1 <= str_size head /\ 10 ^ (str_size head - 1) <= v' < 10 ^ str_size head).
  { unfold head. destruct (Z.leb_spec 10 v').
    - destruct (two_digits_spec v' ltac:(lia)) as [H1 H2]. rewrite two_digits_size. simpl. auto with lia.
    - destruct (digit_char_spec v' ltac:(lia)) as [H1 H2]. unfold str_size. simpl.
      rewrite H1. unfold decimal_value. simpl. rewrite H2. auto with lia. }
  destruct Hh as (Hdig & Hval & Hone & Hhead). pose proof (str_size_nonneg d) as Hn.
  rewrite forallb_app, Hdig, Hd, decimal_value_app, Hval, str_size_app.
  split; [done|]. split; [lia|].
  enough (str_size head - 1 + str_size d = k) by lia.
  apply (pow10_unique v); [lia|lia| |lia].
  replace (str_size head - 1 + str_size d + 1) with (str_size head + str_size d) by lia.
  rewrite (Z.pow_add_r 10 (str_size head - 1)), (Z.pow_add_r 10 (str_size head)) by lia.
  assert (0 < 10 ^ str_size d) by (apply Z.pow_pos_nonneg; lia). nia.
Qed.

(** The text of every 64-bit integer, signed or unsigned, is its decimal notation. *)
Lemma dump_integer_spec x :
  - 2 ^ 63 <= x < 2 ^ 64 ->
  exists digits, dump_integer x = Ret ((if x <? 0 then lit "-" else []) ++ digits) /\
    forallb is_digit digits = true /\ digits <> [] /\ decimal_value digits = Z.abs x.
Proof.
  intros Hx. unfold dump_integer. destruct (Z.eqb_spec x 0) as [->|Hne].
  { exists (lit "0"). done. }
  assert (Hab : (if x <? 0 then remove_sign x else x) = Z.abs x).
  { destruct (Z.ltb_spec x 0); [|lia]. unfold remove_sign, wrap_u.
    rewrite (Z.mod_small (- (x + 1))) by lia. rewrite Z.mod_small; lia. }
  rewrite Hab. pose proof (digits_written (Z.abs x) ltac:(lia)) as Hw.
  destruct (fill_digits 10 (Z.abs x) []) as [v w]. destruct Hw as (Hd & Hv & Hs).
  rewrite Hs, Z.eqb_refl. eexists. split; [done|]. split; [done|]. split; [|done].
  intros E. rewrite E in Hv. unfold decimal_value in Hv. simpl in Hv. lia.
Qed.

(** ** UTF-8 *)

Definition in_range (lo hi : Z) (c : ascii) : bool := (lo <=? uchar c) && (uchar c <=? hi).

Abbreviation tail := (in_range 128 191).

(** The encoded characters of RFC 3629, by the grammar of its section 4. *)
Inductive utf8_char : str -> Prop :=
| utf8_1 a : in_range 0 127 a = true -> utf8_char [a]
| utf8_2 a b : in_range 194 223 a = true -> tail b = true -> utf8_char [a; b]
| utf8_3a a b c : in_range 224 224 a = true -> in_range 160 191 b = true -> tail c = true ->
    utf8_char [a; b; c]
| utf8_3b a b c : in_range 225 236 a || in_range 238 239 a = true -> tail b = true -> tail c = true ->
    utf8_char [a; b; c]
| utf8_3c a b c : in_range 237 237 a = true -> in_range 128 159 b = true -> tail c = true ->
    utf8_char [a; b; c]
| utf8_4a a b c d : in_range 240 240 a = true -> in_range 144 191 b = true -> tail c = true ->
    tail d = true -> utf8_char [a; b; c; d]
| utf8_4b a b c d : in_range 241 243 a = true -> tail b = true -> tail c = true ->
    tail d = true -> utf8_char [a; b; c; d]
| utf8_4c a b c d : in_range 244 244 a = true -> in_range 128 143 b = true -> tail c = true ->
    tail d = true -> utf8_char [a; b; c; d].

Definition utf8 (s : str) : Prop := exists cs, Forall utf8_char cs /\ concat cs = s.

(** What may follow in each state of the decoder: its state after a byte. *)
Definition next (state : Z) (c : ascii) : Z :=
  if state =? 0 then
    if in_range 0 127 c then 0 else if in_range 194 223 c then 2
    else if in_range 224 224 c then 4 else if in_range 225 236 c || in_range 238 239 c then 3
    else if in_range 237 237 c then 5 else if in_range 240 240 c then 6
    else if in_range 241 243 c then 7 else if in_range 244 244 c then 8 else 1
  else if state =? 2 then (if tail c then 0 else 1)
  else if state =? 3 then (if tail c then 2 else 1)
  else if state =? 4 then (if in_range 160 191 c then 2 else 1)
  else if state =? 5 then (if in_range 128 159 c then 2 else 1)
  else if state =? 6 then (if in_range 144 191 c then 3 else 1)
  else if state =? 7 then (if tail c then 3 else 1)
  else if state =? 8 then (if in_range 128 143 c then 3 else 1)
  else 1.

(** The states of the decoder short of a rejection, with the range of the code
    point collected so far. *)
Definition cp_ok (state codep : Z) : Prop :=
  state = 0 \/ state = 2 /\ 2 <= codep < 32768 \/ state = 3 /\ 1 <= codep < 512 \/
  (state = 4 \/ state = 5) /\ 0 <= codep < 32 /\ (state = 5 -> 1 <= codep) \/
  (state = 6 \/ state = 7 \/ state = 8) /\ 0 <= codep < 8 /\ (state <> 6 -> 1 <= codep).

Lemma decode_next state codep c :
  cp_ok state codep -> fst (decode state codep (uchar c)) = next state c.
Proof.
  intros Hok. assert (Hst : state = 0 \/ state = 2 \/ state = 3 \/ state = 4 \/ state = 5 \/ state = 6 \/
    state = 7 \/ state = 8) by (unfold cp_ok in Hok; intuition auto). clear Hok.
  unfold decode, fst. repeat destruct Hst as [->|Hst]; [..|subst state];
    byte_cases c; vm_compute; reflexivity.
Qed.

Lemma continue_codepoint state codep byte :
  state <> 0 -> 0 <= codep < 2 ^ 20 -> snd (decode state codep byte) = codep * 64 + byte mod 64.
Proof.
  intros Hs Hc. unfold decode, snd, UTF8_ACCEPT. rewrite (proj2 (Z.eqb_neq _ _) Hs). cbv [negb].
  unfold wrap_u. rewrite Z.shiftl_mul_pow2 by lia. rewrite Z.mod_small by lia.
  change 63 with (Z.ones 6). rewrite Z.land_ones by lia. change (2 ^ 6) with 64.
  rewrite <- Z.add_nocarry_lor; [lia|]. apply Z.bits_inj'. intros n Hn.
  rewrite Z.land_spec, Z.bits_0. change 64 with (2 ^ 6).
  destruct (Z.lt_ge_cases n 6).
  - rewrite (Z.mul_pow2_bits_low codep 6 n) by lia. apply andb_false_r.
  - rewrite Z.mod_pow2_bits_high by lia. done.
Qed.

Lemma decode_first c st :
  next 0 c = st -> st <> 0 -> st <> 1 -> cp_ok st (snd (decode 0 0 (uchar c))).
Proof.
  intros <-. unfold cp_ok. byte_cases c; vm_compute; intuition (congruence || discriminate).
Qed.

Lemma decode_later state codep c :
  cp_ok state codep -> state <> 0 -> next state c <> 1 ->
  let codep' := snd (decode state codep (uchar c)) in
  128 <= uchar c /\
  (next state c = 0 -> 128 <= codep') /\ (next state c <> 0 -> cp_ok (next state c) codep').
Proof.
  intros Hok Hs Hn codep'. unfold codep'.
  rewrite continue_codepoint; [|done|unfold cp_ok in Hok; lia]. clear codep'.
  unfold next in *. pose proof (uchar_range c) as Hr. unfold in_range in *.
  assert (Hm : forall lo, 128 <= lo <= uchar c -> uchar c <= 191 ->
    uchar c mod 64 = uchar c - 128).
  { intros lo Hlo Hhi. symmetry. apply (Z.mod_unique _ _ 2); lia. }
  destruct Hok as [->|[[-> Hc]|[[-> Hc]|[[[->| ->] [Hc Hc5]]|[[->|[->| ->]] [Hc Hc7]]]]]]; try done;
    simpl in *; destruct (_ && _) eqn:E; try done; unbool;
    rewrite (Hm 128) by lia; (split; [lia|]); (split; [lia|]); intros _; unfold cp_ok; lia.
Qed.

(** The bytes the decoder accepts from a state on. *)
Fixpoint accepts (state : Z) (s : str) : bool :=
  match s with
  | [] => state =? 0
  | c :: s' => if next state c =? 1 then false else accepts (next state c) s'
  end.

(** Escaping works byte by byte. *)
Definition escape_byte (c : ascii) : str := escape_codepoint (uchar c) c.

Lemma escape_high codepoint c : 128 <= codepoint -> escape_codepoint codepoint c = [c].
Proof.
  intros Hc. unfold escape_codepoint.
  repeat match goal with |- context [codepoint =? ?k] => rewrite (proj2 (Z.eqb_neq codepoint k)) by lia end.
  by rewrite (proj2 (Z.leb_gt codepoint 31)) by lia.
Qed.

Lemma decode_ascii codep c : next 0 c = 0 -> snd (decode 0 codep (uchar c)) = uchar c.
Proof. byte_cases c; vm_compute; congruence. Qed.

Lemma next_high c : next 0 c <> 0 -> 128 <= uchar c.
Proof. byte_cases c; vm_compute; intros; congruence. Qed.

(** One accepted or incomplete byte: what it writes and where the decoder is. *)
Lemma decode_step state codep c :
  cp_ok state codep -> next state c <> 1 ->
  (next state c = 0 -> escape_codepoint (snd (decode state codep (uchar c))) c = escape_byte c) /\
  (next state c <> 0 -> escape_byte c = [c]) /\
  cp_ok (next state c) (snd (decode state codep (uchar c))).
Proof.
  intros Hok H1. destruct (decide (state = 0)) as [->|Hs].
  - split; [intros H0; by rewrite decode_ascii|]. split.
    + intros H0. apply escape_high. by apply next_high.
    + destruct (decide (next 0 c = 0)) as [->|H0]; [by left|].
      by apply (decode_first c (next 0 c) eq_refl).
  - destruct (decode_later state codep c Hok Hs H1) as (Hc & H0 & Hok').
    unfold escape_byte. rewrite (escape_high (uchar c)) by done.
    split; [intros E; apply escape_high; auto|]. split; [done|].
    destruct (decide (next state c = 0)) as [->|]; [by left|auto].
Qed.

(** ** The buffer *)

(** How many bytes of a code point can have been stored in a state. *)
Definition pending (state : Z) : Z :=
  if state =? 0 then 0 else if state =? 2 then 3 else if state <=? 5 then 2 else 1.

Lemma pending_next state codep c :
  cp_ok state codep -> next state c <> 0 -> next state c <> 1 -> pending state + 1 <= pending (next state c) <= 3.
Proof.
  intros Hok. unfold next, cp_ok in *.
  destruct Hok as [->|[[-> _]|[[-> _]|[[[->| ->] _]|[[->|[->| ->]] _]]]]]; cbn [Z.eqb Pos.eqb];
    repeat case_match; cbn; done || lia.
Qed.

Lemma escape_byte_size c : 1 <= str_size (escape_byte c) <= 6.
Proof. unfold escape_byte, escape_codepoint, str_size. repeat case_match; simpl; lia. Qed.

(** Thirteen bytes are free after a code point: no store passes the end. *)
Definition buffer_ok (state : Z) (string_buffer : str) : Prop :=
  str_size string_buffer <= buffer_size - 13 + pending state.

Lemma buffer_put_ok string_buffer bytes :
  str_size string_buffer + str_size bytes < buffer_size ->
  buffer_put string_buffer bytes = Ret (string_buffer ++ bytes).
Proof. intros Hb. unfold buffer_put. by rewrite (proj2 (Z.ltb_lt _ _)). Qed.

Lemma dump_escaped_loop_spec s o string_buffer state codep :
  cp_ok state codep -> buffer_ok state string_buffer ->
  dump_escaped_loop o string_buffer state codep s =
    if accepts state s then Ret (o ++ string_buffer ++ concat (map escape_byte s)) else Throw (type_error 316).
Proof.
  revert o string_buffer state codep.
  induction s as [|c s IH]; intros o b state codep Hok Hb; cbn [dump_escaped_loop accepts map concat].
  { change UTF8_ACCEPT with 0. destruct (state =? 0); [|done]. rewrite app_nil_r.
    destruct b; simpl; [by rewrite app_nil_r|done]. }
  pose proof (decode_next state codep c Hok) as Hn. pose proof (decode_step state codep c Hok) as Hstep.
  pose proof (pending_next state codep c Hok) as Hp. pose proof (escape_byte_size c) as Hsz.
  assert (Hp0 : 0 <= pending state <= 3) by (unfold pending; repeat case_match; lia).
  destruct (decode state codep (uchar c)) as [st' cp']. cbn [fst snd] in Hn, Hstep. subst st'.
  unfold UTF8_ACCEPT, UTF8_REJECT. unfold buffer_ok, buffer_size in *.
  destruct (Z.eqb_spec (next state c) 1) as [E1|E1]; [by rewrite E1|].
  destruct (Hstep E1) as (Ha & Hh & Hok').
  destruct (Z.eqb_spec (next state c) 0) as [E0|E0].
  - rewrite (Ha E0), buffer_put_ok by (unfold buffer_size; lia). cbn [obind].
    assert (Hl : str_size (b ++ escape_byte c) = str_size b + str_size (escape_byte c))
      by (unfold str_size; rewrite length_app; lia).
    destruct (Z.ltb_spec (512 - str_size (b ++ escape_byte c)) 13); rewrite IH by
      (done || (rewrite E0; change (pending 0) with 0; change (str_size []) with 0; lia));
      by rewrite <- !app_assoc.
  - specialize (Hp E0 E1). rewrite buffer_put_ok by (unfold buffer_size, str_size in *; simpl; lia). cbn [obind].
    rewrite IH; [by rewrite (Hh E0), <- !app_assoc|done|]. unfold str_size in *. rewrite length_app. simpl. lia.
Qed.

(** The buffer loses nothing: what [dump_escaped] writes. *)
Lemma dump_escaped_accepts s :
  dump_escaped s = if accepts 0 s then Ret (concat (map escape_byte s)) else Throw (type_error 316).
Proof. apply dump_escaped_loop_spec; [by left|]. vm_compute. discriminate. Qed.

(** The decoder accepts exactly the sequences of the grammar. *)
Lemma next_first a :
  (in_range 0 127 a = true -> next 0 a = 0) /\ (in_range 194 223 a = true -> next 0 a = 2) /\
  (in_range 224 224 a = true -> next 0 a = 4) /\
  (in_range 225 236 a || in_range 238 239 a = true -> next 0 a = 3) /\
  (in_range 237 237 a = true -> next 0 a = 5) /\ (in_range 240 240 a = true -> next 0 a = 6) /\
  (in_range 241 243 a = true -> next 0 a = 7) /\ (in_range 244 244 a = true -> next 0 a = 8).
Proof. byte_cases a; vm_compute; repeat split; congruence. Qed.

Lemma accepts_char s t : utf8_char s -> accepts 0 (s ++ t) = accepts 0 t.
Proof.
  intros Hs.
  destruct Hs as [a Ha|a b Ha|a b c Ha|a b c Ha|a b c Ha|a b c d Ha|a b c d Ha|a b c d Ha];
    destruct (next_first a) as (N1 & N2 & N3 & N4 & N5 & N6 & N7 & N8); simpl;
    first [rewrite N1 by done|rewrite N2 by done|rewrite N3 by done|rewrite N4 by done
          |rewrite N5 by done|rewrite N6 by done|rewrite N7 by done|rewrite N8 by done];
    simpl; repeat (unfold next; simpl;
      match goal with H : in_range _ _ _ = true |- _ => rewrite H; clear H end; simpl); done.
Qed.

Lemma accepts_app cs t : Forall utf8_char cs -> accepts 0 (concat cs ++ t) = accepts 0 t.
Proof.
  induction 1 as [|c cs Hc _ IH]; simpl; [done|]. by rewrite <- app_assoc, accepts_char.
Qed.

(** One byte in a state that waits for a continuation. *)
Lemma accepts_later state s :
  state <> 0 -> accepts state s = true ->
  exists c s', s = c :: s' /\ next state c <> 1 /\ accepts (next state c) s' = true.
Proof.
  intros Hs. destruct s as [|c s]; simpl; [by rewrite (proj2 (Z.eqb_neq _ _) Hs)|].
  destruct (Z.eqb_spec (next state c) 1); [done|]. intros Ha. by exists c, s.
Qed.

Ltac take_byte H b s Hb :=
  let Hn := fresh in
  apply accepts_later in H as (b & s & -> & Hn & H); [|done];
  unfold next in Hn, H; simpl in Hn, H;
  destruct (in_range _ _ b) eqn:Hb in Hn; [|done]; rewrite Hb in H; clear Hn.

Lemma accepts_first s :
  accepts 0 s = true -> s = [] \/ exists c t, utf8_char c /\ s = c ++ t /\ accepts 0 t = true.
Proof.
  destruct s as [|a s]; [by left|]. intros H. right. simpl in H. unfold next in H. simpl in H.
  destruct (in_range 0 127 a) eqn:E1; [exists [a], s; by repeat constructor|].
  destruct (in_range 194 223 a) eqn:E2.
  { simpl in H. take_byte H b s' Hb. exists [a; b], s'. by repeat constructor. }
  destruct (in_range 224 224 a) eqn:E3.
  { simpl in H. take_byte H b s1 Hb. take_byte H c s2 Hc. exists [a; b; c], s2. by split; [apply utf8_3a|]. }
  destruct (in_range 225 236 a || in_range 238 239 a) eqn:E4.
  { simpl in H. take_byte H b s1 Hb. take_byte H c s2 Hc. exists [a; b; c], s2. by split; [apply utf8_3b|]. }
  destruct (in_range 237 237 a) eqn:E5.
  { simpl in H. take_byte H b s1 Hb. take_byte H c s2 Hc. exists [a; b; c], s2. by split; [apply utf8_3c|]. }
  destruct (in_range 240 240 a) eqn:E6.
  { simpl in H. take_byte H b s1 Hb. take_byte H c s2 Hc. take_byte H d s3 Hd.
    exists [a; b; c; d], s3. by split; [apply utf8_4a|]. }
  destruct (in_range 241 243 a) eqn:E7.
  { simpl in H. take_byte H b s1 Hb. take_byte H c s2 Hc. take_byte H d s3 Hd.
    exists [a; b; c; d], s3. by split; [apply utf8_4b|]. }
  destruct (in_range 244 244 a) eqn:E8; [|done].
  simpl in H. take_byte H b s1 Hb. take_byte H c s2 Hc. take_byte H d s3 Hd.
  exists [a; b; c; d], s3. by split; [apply utf8_4c|].
Qed.

Lemma accepts_utf8 s : accepts 0 s = true <-> utf8 s.
Proof.
  split.
  - intros Ha. remember (length s) as n eqn:Hn. revert s Hn Ha.
    induction (lt_wf n) as [n _ IH]. intros s -> Ha.
    destruct (accepts_first s Ha) as [->|(c & t & Hc & -> & Ht)]; [by exists []|].
    destruct (IH (length t)) with (s := t) as (cs & Hcs & <-); [|done|done|].
    + rewrite length_app. destruct Hc; simpl; lia.
    + exists (c :: cs). by split; [constructor|].
  - intros (cs & Hcs & <-). rewrite <- (app_nil_r (concat cs)). by rewrite accepts_app.
Qed.

(** A string is serialised exactly when it is UTF-8, byte by byte. *)
Lemma dump_escaped_spec s :
  (utf8 s /\ dump_escaped s = Ret (concat (map escape_byte s))) \/
  (~ utf8 s /\ dump_escaped s = Throw (type_error 316)).
Proof.
  rewrite dump_escaped_accepts, <- (accepts_utf8 s). destruct (accepts 0 s); [by left|by right].
Qed.
