(* ===== verification/JsonDump.v ===== *)
(** * The serialiser against a reference printer

    [dump] walks the value, counts digits before it writes them two at a time,
    and decodes UTF-8 with a table.  The reference printer joins the texts of the
    parts: decimal digits one by one, strings byte by byte.  Also what a
    well-formed value is: the keys of every object are in order and different. *)
From stdpp Require Import prelude strings list.
From Stdlib Require Import Ascii ZArith Lia.
From S2P Require Import Prelude CxxLib CxxMap Json JsonFacts.

Local Open Scope Z_scope.
Local Open Scope cxx_scope.

(** ** Induction on values *)

Section induction.
Context {F : Type} (P : json F -> Prop).
Hypothesis (Pnull : P Null) (Pdiscarded : P Discarded)
  (Pobject : forall m, Forall (fun x => P x.2) m -> P (Object m))
  (Parray : forall a, Forall P a -> P (Array a))
  (Pstring : forall s, P (String_ s)) (Pbool : forall b, P (Boolean b))
  (Pint : forall i, P (NumberInteger i)) (Puint : forall u, P (NumberUnsigned u))
  (Pfloat : forall f, P (NumberFloat f)).

Fixpoint json_induction (v : json F) : P v :=
  match v with
  | Null => Pnull
  | Discarded => Pdiscarded
  | Object m => Pobject m ((fix go m : Forall (fun x => P x.2) m :=
      match m with
      | [] => Forall_nil_2 _
      | x :: m' => Forall_cons_2 _ x m' (json_induction x.2) (go m')
      end) m)
  | Array a => Parray a ((fix go a : Forall P a :=
      match a with
      | [] => Forall_nil_2 _
      | x :: a' => Forall_cons_2 _ x a' (json_induction x) (go a')
      end) a)
  | String_ s => Pstring s
  | Boolean b => Pbool b
  | NumberInteger i => Pint i
  | NumberUnsigned u => Puint u
  | NumberFloat f => Pfloat f
  end.
End induction.

(** ** The reference printer *)

(** The digits of a number, one at a time. *)
Fixpoint decimal_digits (fuel : nat) (v : Z) : str :=
  match fuel with
  | O => []
  | S fuel' => (if v <? 10 then [] else decimal_digits fuel' (v / 10)) ++ [digit_char (v mod 10)]
  end.

Definition print_integer (x : Z) : str :=
  (if x <? 0 then lit "-" else []) ++ decimal_digits 20 (Z.abs x).

Definition print_string (s : str) : str := [quote] ++ (s ≫= escape_byte) ++ [quote].

(** The parts, separated by commas. *)
Fixpoint comma_join (l : list str) : str :=
  match l with
  | [] => []
  | [s] => s
  | s :: l' => s ++ lit "," ++ comma_join l'
  end.

Section printer.
Context {F : Type} (dump_float : F -> str).

Fixpoint print (v : json F) : str :=
  match v with
  | Null => lit "null"
  | Discarded => lit "<discarded>"
  | Object m => lit "{" ++ comma_join (map (fun x => print_string x.1 ++ lit ":" ++ print x.2) m) ++ lit "}"
  | Array a => lit "[" ++ comma_join (map print a) ++ lit "]"
  | String_ s => print_string s
  | Boolean b => if b then lit "true" else lit "false"
  | NumberInteger i => print_integer i
  | NumberUnsigned u => print_integer u
  | NumberFloat f => dump_float f
  end.

(** All the strings of a value are UTF-8. *)
Fixpoint utf8_strings (v : json F) : bool :=
  match v with
  | Object m => forallb (fun x => accepts 0 x.1 && utf8_strings x.2) m
  | Array a => forallb utf8_strings a
  | String_ s => accepts 0 s
  | _ => true
  end.

(** The integers are those of 64 bits. *)
Fixpoint integers_ok (v : json F) : bool :=
  match v with
  | Object m => forallb (fun x => integers_ok x.2) m
  | Array a => forallb integers_ok a
  | NumberInteger i => (- 2 ^ 63 <=? i) && (i <? 2 ^ 63)
  | NumberUnsigned u => (0 <=? u) && (u <? 2 ^ 64)
  | _ => true
  end.

(** ** Digits *)

Lemma decimal_digits_fuel n k v : 0 <= v < 10 ^ Z.of_nat n -> (0 < n)%nat ->
  decimal_digits (n + k) v = decimal_digits n v.
Proof.
  revert v. induction n as [|n IH]; intros v Hv Hn; [lia|]. simpl.
  destruct (Z.ltb_spec v 10) as [|Hge]; [done|]. f_equal. apply IH.
  - split; [apply Z.div_pos; lia|]. apply Z.div_lt_upper_bound; [lia|].
    rewrite Nat2Z.inj_succ, Z.pow_succ_r in Hv by lia. lia.
  - destruct n; [|lia]. simpl in Hv. lia.
Qed.

(** Two digits at a time, from the right. *)
Lemma fill_digits_print fuel v w :
  0 <= v < 100 * 100 ^ Z.of_nat fuel ->
  let '(v', w') := fill_digits fuel v w in
  (if 10 <=? v' then two_digits v' else [digit_char v']) ++ w' = decimal_digits (2 * fuel + 2) v ++ w.
Proof.
  assert (Hsmall : forall k v w, 0 <= v < 100 ->
    (if 10 <=? v then two_digits v else [digit_char v]) ++ w = decimal_digits (k + 2) v ++ w).
  { clear. intros k v w Hv. rewrite (Nat.add_comm k 2), (decimal_digits_fuel 2 k) by (simpl; lia).
    f_equal. simpl. unfold two_digits. rewrite (Z.leb_antisym v 10).
    destruct (Z.ltb_spec v 10) as [|Hge]; simpl; [by rewrite Z.mod_small by lia|].
    assert (v / 10 < 10) by (apply Z.div_lt_upper_bound; lia).
    rewrite (proj2 (Z.ltb_lt _ _)) by lia.
    rewrite (Z.mod_small (v / 10)) by (split; [apply Z.div_pos|]; lia). done. }
  revert v w. induction fuel as [|fuel IH]; intros v w Hv; [apply (Hsmall 0%nat); simpl in Hv; lia|].
  cbn [fill_digits]. destruct (Z.leb_spec 100 v) as [Hge|Hlt].
  - specialize (IH (v / 100) (two_digits (v mod 100) ++ w)).
    destruct (fill_digits fuel (v / 100) _) as [v' w']. rewrite IH.
    + replace (2 * S fuel + 2)%nat with (S (S (2 * fuel + 2))) by lia.
      set (n := (2 * fuel + 2)%nat). cbn [decimal_digits].
      assert (10 <= v / 10) by (apply Z.div_le_lower_bound; lia).
      rewrite (proj2 (Z.ltb_ge v 10)), (proj2 (Z.ltb_ge (v / 10) 10)) by lia.
      rewrite Z.div_div by lia. change (10 * 10) with 100. rewrite <- !app_assoc. f_equal.
      unfold two_digits. cbn [app].
      assert (E : v mod 100 = v mod 10 + 10 * ((v / 10) mod 10)) by (apply (Z.rem_mul_r v 10 10); lia).
      assert (0 <= v mod 10 < 10) by (apply Z.mod_pos_bound; lia).
      rewrite E, (Z.mul_comm 10), Z.div_add, Z.mod_add by lia. by rewrite (Z.div_small (v mod 10)), (Z.mod_small (v mod 10)), Z.add_0_l by lia.
    + split; [apply Z.div_pos; lia|]. apply Z.div_lt_upper_bound; [lia|].
      rewrite Nat2Z.inj_succ, Z.pow_succ_r in Hv by lia. lia.
  - apply Hsmall. lia.
Qed.

Lemma dump_integer_print x : - 2 ^ 63 <= x < 2 ^ 64 -> dump_integer x = Ret (print_integer x).
Proof.
  intros Hx. unfold dump_integer, print_integer. destruct (Z.eqb_spec x 0) as [->|Hne]; [done|].
  assert (Hab : (if x <? 0 then remove_sign x else x) = Z.abs x).
  { destruct (Z.ltb_spec x 0); [|lia]. unfold remove_sign, wrap_u.
    rewrite (Z.mod_small (- (x + 1))) by lia. rewrite Z.mod_small; lia. }
  rewrite Hab. pose proof (digits_written (Z.abs x) ltac:(lia)) as Hw.
  assert (Hbig : 0 <= Z.abs x < 100 * 100 ^ Z.of_nat 10).
  { split; [lia|]. apply Z.lt_le_trans with (2 ^ 64); [lia|]. vm_compute. discriminate. }
  pose proof (fill_digits_print 10 (Z.abs x) [] Hbig) as Hp.
  destruct (fill_digits 10 (Z.abs x) []) as [v w]. destruct Hw as (_ & _ & ->).
  rewrite Z.eqb_refl, Hp, app_nil_r. change (2 * 10 + 2)%nat with (20 + 2)%nat.
  rewrite decimal_digits_fuel; [done| |lia]. split; [lia|].
  apply Z.lt_le_trans with (2 ^ 64); [lia|]. vm_compute. discriminate.
Qed.

(** ** Values *)

Lemma dump_escaped_print s :
  dump_escaped s = if accepts 0 s then Ret (s ≫= escape_byte) else Throw (type_error 316).
Proof.
  rewrite dump_escaped_accepts. destruct (accepts 0 s); [|done]. f_equal.
  induction s as [|c s IH]; simpl; [done|]. by rewrite IH.
Qed.

(** A loop over the members of an object or the elements of an array. *)
Lemma dump_parts {X} (loop : list X -> outcome json_exception str) (text : X -> outcome json_exception str)
    (ok : X -> bool) (reference : X -> str) (l : list X) :
  loop [] = Ret [] ->
  (forall x l, loop (x :: l) =
     let! t := text x in
     match l with [] => Ret t | _ :: _ => let! rest := loop l in Ret (t ++ lit "," ++ rest) end) ->
  Forall (fun x => text x = if ok x then Ret (reference x) else Throw (type_error 316)) l ->
  loop l = if forallb ok l then Ret (comma_join (map reference l)) else Throw (type_error 316).
Proof.
  intros Hnil Hcons. induction 1 as [|x l Hx Hl IH]; [done|]. rewrite Hcons, Hx. cbn [forallb map comma_join].
  destruct (ok x); cbn [obind andb]; [|done]. destruct l as [|y l]; [done|]. rewrite IH.
  by destruct (forallb ok (y :: l)).
Qed.

Lemma dump_print v : integers_ok v = true ->
  dump dump_float v = if utf8_strings v then Ret (print v) else Throw (type_error 316).
Proof.
  induction v as [| |m IH|a IH|s|b|i|u|f] using json_induction; intros Hi; cbn [dump utf8_strings print]; try done.
  - set (members := fix members (m : list (str * json F)) : outcome json_exception str := _).
    rewrite (dump_parts members
      (fun x => let! key := dump_escaped x.1 in let! value := dump dump_float x.2 in
                Ret ([quote] ++ key ++ [quote; ":"%char] ++ value))
      (fun x => accepts 0 x.1 && utf8_strings x.2)
      (fun x => print_string x.1 ++ lit ":" ++ print x.2) m).
    + by destruct (forallb _ m).
    + done.
    + intros [k x] l. cbn [members fst snd]. destruct (dump_escaped k) as [key| |]; [|done..].
      cbn [obind]. destruct (dump dump_float x) as [value| |]; done.
    + simpl in Hi. rewrite Forall_forall in *. intros [k x] Hx. simpl. rewrite dump_escaped_print.
      rewrite forallb_forall in Hi. specialize (IH _ Hx (Hi _ (proj1 (list_elem_of_In _ _) Hx))). simpl in IH.
      rewrite IH. destruct (accepts 0 k); [|done]. destruct (utf8_strings x); [|done]. simpl.
      unfold print_string. by rewrite <- !app_assoc.
  - set (elements := fix elements (a : list (json F)) : outcome json_exception str := _).
    rewrite (dump_parts elements (dump dump_float) utf8_strings print a); [by destruct (forallb _ a)|done|done|].
    simpl in Hi. rewrite Forall_forall in *. rewrite forallb_forall in Hi. intros x Hx. apply (IH x Hx), Hi.
    by apply list_elem_of_In.
  - rewrite dump_escaped_print. by destruct (accepts 0 s).
  - by destruct b.
  - simpl in Hi. apply andb_prop in Hi as [?%Z.leb_le ?%Z.ltb_lt]. apply dump_integer_print. lia.
  - simpl in Hi. apply andb_prop in Hi as [?%Z.leb_le ?%Z.ltb_lt]. apply dump_integer_print. lia.
Qed.

Lemma utf8_strings_string s : utf8_strings (String_ s) = true <-> utf8 s.
Proof. apply accepts_utf8. Qed.

(** C28. The serialiser computes the reference printer: for a value with 64-bit
    integers, [dump] gives the text that joins the texts of the parts (decimal
    digits, escaped bytes) when all keys and strings are UTF-8, and throws the
    type error 316, whatever the rest of the value, when one is not; and a string
    passes the table-driven decoder exactly when it is UTF-8 by the grammar of
    RFC 3629. *)
Theorem dump_reference v : integers_ok v = true ->
  dump dump_float v = (if utf8_strings v then Ret (print v) else Throw (type_error 316)) /\
  forall s, utf8_strings (String_ s) = true <-> utf8 s.
Proof. intros Hv. split; [by apply dump_print|apply utf8_strings_string]. Qed.

End printer.

(** ** The shape of a value *)

Section shape.
Context {F : Type}.

(** Every object has its keys in order, all different. *)
Fixpoint json_wf (v : json F) : Prop :=
  match v with
  | Object m => ordered m /\ (fix all m := match m with [] => True | x :: m' => json_wf x.2 /\ all m' end) m
  | Array a => (fix all a := match a with [] => True | x :: a' => json_wf x /\ all a' end) a
  | _ => True
  end.

Lemma json_wf_members (m : list (str * json F)) :
  (fix all m := match m with [] => True | x :: m' => json_wf x.2 /\ all m' end) m <->
  Forall (fun x => json_wf x.2) m.
Proof. induction m as [|x m IH]; [by split|]. by rewrite Forall_cons, IH. Qed.

Lemma json_wf_object m : json_wf (Object m) <-> ordered m /\ Forall (fun x => json_wf x.2) m.
Proof. simpl. by rewrite json_wf_members. Qed.

Lemma json_wf_array a : json_wf (Array a) <-> Forall json_wf a.
Proof. simpl. induction a as [|x a IH]; [by split|]. by rewrite Forall_cons, IH. Qed.

Lemma map_get_elem {V} k (m : list (str * V)) v : map_get k m = Some v -> (k, v) ∈ m.
Proof.
  induction m as [|[k' v'] m IH]; simpl; [done|]. case_bool_decide; [|set_solver].
  intros [= ->]. subst. set_solver.
Qed.

End shape.

Lemma dump_reference_witness :
  dump (F := unit) (fun _ => []) (Array [NumberInteger (-12); String_ (lit "a")]) =
  Ret (print (F := unit) (fun _ => []) (Array [NumberInteger (-12); String_ (lit "a")])).
Proof.
  exact (proj1 (dump_reference (fun _ => []) (Array [NumberInteger (-12); String_ (lit "a")]) eq_refl)).
Defined.
