(* ===== verification/JsonLexer.v ===== *)
(** * The lexer of JSON texts (third_party/include/json.hpp, class lexer)

    The lexer reads one character at a time from an adapter over the text, with
    one character of push-back, and counts characters and lines.  Its member
    functions are state passing: a computation takes the lexer and gives a value
    and the lexer after it.  A loop whose fuel is spent, or a failed assertion,
    is [Undef]; the fuel is the number of characters left.  The assertions left out
    are those on the end pointers of the C library's conversions of numbers. *)
From stdpp Require Import prelude strings.
From Stdlib Require Import Ascii ZArith Lia.
From S2P Require Import Prelude CxxLib Json.

Local Open Scope Z_scope.

(** ** Floating-point numbers of the C library *)

(** What the lexer and the parser use of [double]: [strtod], [isfinite], the
    zero the lexer starts with and the decimal point of the locale. *)
Class CFloat (F : Type) := {
  strtod : str -> F;
  isfinite : F -> bool;
  float_zero : F;
  get_decimal_point : ascii
}.

(** ** State passing *)

Definition M (S A : Type) : Type := S -> outcome json_exception (A * S).

Definition mret {S A} (a : A) : M S A := fun s => Ret (a, s).

Definition mbind_ {S A B} (m : M S A) (k : A -> M S B) : M S B :=
  fun s => obind (m s) (fun '(a, s') => k a s').

Declare Scope json_scope.
Delimit Scope json_scope with json.
Notation "'let*' x ':=' m 'in' k" := (mbind_ m (fun x => k))
  (at level 10, x binder, m at level 200, k at level 200) : json_scope.
Notation "'do*' m 'in' k" := (mbind_ m (fun _ => k))
  (at level 10, m at level 200, k at level 200) : json_scope.
Local Open Scope json_scope.

Definition mget {S A} (f : S -> A) : M S A := fun s => Ret (f s, s).
Definition massert {S} (P : S -> bool) : M S unit := fun s => if P s then Ret (tt, s) else Undef.

(** A [while] loop whose body goes on, [inl], or leaves it with a result. *)
Fixpoint while_ {S X A} (fuel : nat) (body : X -> M S (X + A)) (x : X) : M S A :=
  match fuel with
  | O => fun _ => Undef
  | S fuel' =>
      let* r := body x in
      match r with
      | inl x' => while_ fuel' body x'
      | inr a => mret a
      end
  end.

(** ** The lexer *)

Inductive token_type : Type :=
| uninitialized | literal_true | literal_false | literal_null | value_string | value_unsigned
| value_integer | value_float | begin_array | begin_object | end_array | end_object
| name_separator | value_separator | parse_error | end_of_input | literal_or_value.

#[export] Instance token_type_eq_dec : EqDecision token_type.
Proof. solve_decision. Defined.

Record lexer (F : Type) := mk_lexer {
  ia : str;                    (* what the adapter has not delivered *)
  current : Z;
  next_unget : bool;
  position : position_t;
  token_string : str;          (* what was read, for error messages *)
  token_buffer : str;
  error_message : str;
  number_unsigned_ : Z;        (* the members value_unsigned, value_integer, value_float *)
  number_integer_ : Z;
  number_float_ : F
}.
Arguments mk_lexer {F}.
Arguments ia {F}.
Arguments current {F}.
Arguments next_unget {F}.
Arguments position {F}.
Arguments token_string {F}.
Arguments token_buffer {F}.
Arguments error_message {F}.
Arguments number_unsigned_ {F}.
Arguments number_integer_ {F}.
Arguments number_float_ {F}.

(** [std::char_traits<char>::eof()]. *)
Definition eof : Z := -1.

(** [input_buffer_adapter::get_character]: characters are delivered as unsigned. *)
Definition get_character (ia : str) : Z * str :=
  match ia with
  | [] => (eof, [])
  | c :: ia' => (uchar c, ia')
  end.

(** What [get] will deliver, character by character: the one pushed back, then
    what the adapter has. *)
Definition rest {F} (l : lexer F) : str :=
  if next_unget l then (if current l =? eof then [] else char_of_Z (current l) :: ia l) else ia l.

Section lexer.
Context {F : Type} `{CFloat F}.

(** The constructor. *)
Definition new_lexer (text : str) : lexer F :=
  mk_lexer text eof false (mk_position 0 0 0) [] [] [] 0 0 float_zero.

Definition with_buffer (l : lexer F) (b : str) : lexer F :=
  mk_lexer (ia l) (current l) (next_unget l) (position l) (token_string l) b (error_message l)
    (number_unsigned_ l) (number_integer_ l) (number_float_ l).

(** [reset]. *)
Definition reset : M (lexer F) unit := fun l =>
  Ret (tt, mk_lexer (ia l) (current l) (next_unget l) (position l) [char_of_Z (current l)] [] (error_message l)
             (number_unsigned_ l) (number_integer_ l) (number_float_ l)).

(** [add]. *)
Definition add (c : Z) : M (lexer F) unit := fun l => Ret (tt, with_buffer l (token_buffer l ++ [char_of_Z c])).

Definition with_numbers (l : lexer F) (u i : Z) (f : F) : lexer F :=
  mk_lexer (ia l) (current l) (next_unget l) (position l) (token_string l) (token_buffer l) (error_message l) u i f.

Definition set_unsigned (x : Z) : M (lexer F) unit := fun l =>
  Ret (tt, with_numbers l x (number_integer_ l) (number_float_ l)).
Definition set_integer (x : Z) : M (lexer F) unit := fun l =>
  Ret (tt, with_numbers l (number_unsigned_ l) x (number_float_ l)).
Definition set_float (x : F) : M (lexer F) unit := fun l =>
  Ret (tt, with_numbers l (number_unsigned_ l) (number_integer_ l) x).

(** The assignment to [error_message] before a function returns [a]. *)
Definition error {A} (message : str) (a : A) : M (lexer F) A := fun l =>
  Ret (a, mk_lexer (ia l) (current l) (next_unget l) (position l) (token_string l) (token_buffer l) message
            (number_unsigned_ l) (number_integer_ l) (number_float_ l)).

(** The position after reading a character. *)
Definition move_on (p : position_t) (c : Z) : position_t :=
  mk_position (chars_read_total p + 1)
    (if c =? 10 then 0 else chars_read_current_line p + 1)
    (if c =? 10 then lines_read p + 1 else lines_read p).

(** [get]. *)
Definition get : M (lexer F) Z := fun l =>
  let '(c, ia') := if next_unget l then (current l, ia l) else get_character (ia l) in
  Ret (c, mk_lexer ia' c false (move_on (position l) c)
            (if c =? eof then token_string l else token_string l ++ [char_of_Z c])
            (token_buffer l) (error_message l) (number_unsigned_ l) (number_integer_ l) (number_float_ l)).

(** The position after [unget]. *)
Definition move_back (p : position_t) : position_t :=
  let column := chars_read_current_line p in
  mk_position (chars_read_total p - 1)
    (if column =? 0 then column else column - 1)
    (if (column =? 0) && (0 <? lines_read p) then lines_read p - 1 else lines_read p).

(** [unget]; [pop_back] of [token_string] is guarded by an assertion. *)
Definition unget : M (lexer F) unit := fun l =>
  if negb (current l =? eof) && (length (token_string l) =? 0)%nat then Undef
  else Ret (tt, mk_lexer (ia l) (current l) true (move_back (position l))
                  (if current l =? eof then token_string l else removelast (token_string l))
                  (token_buffer l) (error_message l) (number_unsigned_ l) (number_integer_ l) (number_float_ l)).

(** ** Strings *)

Definition between (lo hi c : Z) : bool := (lo <=? c) && (c <=? hi).

(** The loop of [get_codepoint] over the factors that are left. *)
Fixpoint get_codepoint_loop (factors : list Z) (codepoint : Z) : M (lexer F) Z :=
  match factors with
  | [] =>
      do* massert (fun _ => between 0x0000 0xFFFF codepoint) in
      mret codepoint
  | factor :: factors' =>
      let* c := get in
      if between 0x30 0x39 c then get_codepoint_loop factors' (codepoint + Z.shiftl (c - 0x30) factor)
      else if between 0x41 0x46 c then get_codepoint_loop factors' (codepoint + Z.shiftl (c - 0x37) factor)
      else if between 0x61 0x66 c then get_codepoint_loop factors' (codepoint + Z.shiftl (c - 0x57) factor)
      else mret (-1)
  end.

Definition get_codepoint : M (lexer F) Z :=
  do* massert (fun l => current l =? 117) in
  get_codepoint_loop [12; 8; 4; 0] 0.

(** The loop of [next_byte_in_range]. *)
Fixpoint next_bytes (ranges : list (Z * Z)) : M (lexer F) bool :=
  match ranges with
  | [] => mret true
  | (lo, hi) :: ranges' =>
      let* c := get in
      if between lo hi c then do* add c in next_bytes ranges'
      else error (lit "invalid string: ill-formed UTF-8 byte") false
  end.

Definition next_byte_in_range (ranges : list (Z * Z)) : M (lexer F) bool :=
  do* massert (fun _ => between 1 3 (Z.of_nat (length ranges))) in
  let* c := mget current in
  do* add c in
  next_bytes ranges.

(** The bytes of a code point ("translate codepoint into bytes"). *)
Definition add_codepoint (codepoint : Z) : M (lexer F) unit :=
  do* massert (fun _ => between 0x00 0x10FFFF codepoint) in
  if codepoint <? 0x80 then add codepoint
  else if codepoint <=? 0x7FF then
    do* add (Z.lor 0xC0 (Z.shiftr codepoint 6)) in
    add (Z.lor 0x80 (Z.land codepoint 0x3F))
  else if codepoint <=? 0xFFFF then
    do* add (Z.lor 0xE0 (Z.shiftr codepoint 12)) in
    do* add (Z.lor 0x80 (Z.land (Z.shiftr codepoint 6) 0x3F)) in
    add (Z.lor 0x80 (Z.land codepoint 0x3F))
  else
    do* add (Z.lor 0xF0 (Z.shiftr codepoint 18)) in
    do* add (Z.lor 0x80 (Z.land (Z.shiftr codepoint 12) 0x3F)) in
    do* add (Z.lor 0x80 (Z.land (Z.shiftr codepoint 6) 0x3F)) in
    add (Z.lor 0x80 (Z.land codepoint 0x3F)).

(** A turn of the loop of [scan_string] goes on or returns a token. *)
Definition turn : Type := unit + token_type.
Definition go_on : turn := inl tt.
Definition return_ (t : token_type) : turn := inr t.

(** The case of a backslash and [u]. *)
Definition scan_unicode_escape : M (lexer F) turn :=
  let hex_digits := error (lit "invalid string: '\u' must be followed by 4 hex digits") (return_ parse_error) in
  let not_followed := error (lit "invalid string: surrogate U+DC00..U+DFFF must be followed by U+DC00..U+DFFF")
                        (return_ parse_error) in
  let* codepoint1 := get_codepoint in
  if codepoint1 =? -1 then hex_digits
  else if between 0xD800 0xDBFF codepoint1 then
    let* c := get in
    if c =? 92 then
      let* c := get in
      if c =? 117 then
        let* codepoint2 := get_codepoint in
        if codepoint2 =? -1 then hex_digits
        else if between 0xDC00 0xDFFF codepoint2 then
          do* add_codepoint (wrap_u 32 (wrap_u 32 (Z.shiftl codepoint1 10) + codepoint2 - 0x35FDC00)) in
          mret go_on
        else not_followed
      else not_followed
    else not_followed
  else if between 0xDC00 0xDFFF codepoint1 then
    error (lit "invalid string: surrogate U+DC00..U+DFFF must follow U+D800..U+DBFF") (return_ parse_error)
  else do* add_codepoint codepoint1 in mret go_on.

(** The switch after a backslash. *)
Definition scan_escape : M (lexer F) turn :=
  let* c := get in
  if c =? 34 then do* add 34 in mret go_on
  else if c =? 92 then do* add 92 in mret go_on
  else if c =? 47 then do* add 47 in mret go_on
  else if c =? 98 then do* add 8 in mret go_on
  else if c =? 102 then do* add 12 in mret go_on
  else if c =? 110 then do* add 10 in mret go_on
  else if c =? 114 then do* add 13 in mret go_on
  else if c =? 116 then do* add 9 in mret go_on
  else if c =? 117 then scan_unicode_escape
  else error (lit "invalid string: forbidden character after backslash") (return_ parse_error).

(** The names of the control characters, and the short escapes some have. *)
Definition control_names : list string :=
  ["NUL"; "SOH"; "STX"; "ETX"; "EOT"; "ENQ"; "ACK"; "BEL"; "BS"; "HT"; "LF"; "VT"; "FF"; "CR"; "SO"; "SI";
   "DLE"; "DC1"; "DC2"; "DC3"; "DC4"; "NAK"; "SYN"; "ETB"; "CAN"; "EM"; "SUB"; "ESC"; "FS"; "GS"; "RS"; "US"]%string.

Definition short_name (c : Z) : str :=
  if c =? 8 then lit " or \b" else if c =? 9 then lit " or \t" else if c =? 10 then lit " or \n"
  else if c =? 12 then lit " or \f" else if c =? 13 then lit " or \r" else [].

(** [%.4X] of a byte. *)
Definition upper_hex (d : Z) : ascii := char_of_Z (if d <? 10 then 48 + d else 55 + d).
Definition hex_4 (c : Z) : str := lit "00" ++ [upper_hex (c / 16); upper_hex (c mod 16)].

Definition control_message (c : Z) : str :=
  lit "invalid string: control character U+" ++ hex_4 c ++ lit " (" ++ lit (nth (Z.to_nat c) control_names ""%string) ++
  lit ") must be escaped to \u" ++ hex_4 c ++ short_name c.

(** The [return] after [next_byte_in_range] has failed. *)
Definition checked (ok : M (lexer F) bool) : M (lexer F) turn :=
  let* b := ok in mret (if b then go_on else return_ parse_error).

(** One turn of [while (true)]: the switch on the next character. *)
Definition scan_string_turn : M (lexer F) turn :=
  let* c := get in
  if c =? eof then error (lit "invalid string: missing closing quote") (return_ parse_error)
  else if c =? 34 then mret (return_ value_string)
  else if c =? 92 then scan_escape
  else if between 0x00 0x1F c then error (control_message c) (return_ parse_error)
  else if between 0x20 0x7F c then do* add c in mret go_on
  else if between 0xC2 0xDF c then checked (next_byte_in_range [(0x80, 0xBF)])
  else if between 0xE0 0xE0 c then checked (next_byte_in_range [(0xA0, 0xBF); (0x80, 0xBF)])
  else if between 0xE1 0xEC c || between 0xEE 0xEF c then
    checked (next_byte_in_range [(0x80, 0xBF); (0x80, 0xBF)])
  else if between 0xED 0xED c then checked (next_byte_in_range [(0x80, 0x9F); (0x80, 0xBF)])
  else if between 0xF0 0xF0 c then
    checked (next_byte_in_range [(0x90, 0xBF); (0x80, 0xBF); (0x80, 0xBF)])
  else if between 0xF1 0xF3 c then
    checked (next_byte_in_range [(0x80, 0xBF); (0x80, 0xBF); (0x80, 0xBF)])
  else if between 0xF4 0xF4 c then
    checked (next_byte_in_range [(0x80, 0x8F); (0x80, 0xBF); (0x80, 0xBF)])
  else error (lit "invalid string: ill-formed UTF-8 byte") (return_ parse_error).

(** As many turns as there are characters, and one for the end. *)
Definition scan_string : M (lexer F) token_type :=
  do* reset in
  do* massert (fun l => current l =? 34) in
  let* n := mget (fun l => length (rest l)) in
  while_ (S n) (fun _ => scan_string_turn) tt.

(** ** Numbers *)

(** The labels of [scan_number]. *)
Inductive number_label : Type :=
| scan_number_minus | scan_number_zero | scan_number_any1 | scan_number_decimal1 | scan_number_decimal2
| scan_number_exponent | scan_number_sign | scan_number_any2 | scan_number_done.

Definition digit (c : Z) : bool := between 48 57 c.

Definition goto (label : number_label) (number_type : token_type) :
    M (lexer F) ((number_label * token_type) + (option token_type)) := mret (inl (label, number_type)).

(** From a label to the next: the code after the label. *)
Definition scan_number_from (label : number_label) (number_type : token_type) :
    M (lexer F) ((number_label * token_type) + (option token_type)) :=
  match label with
  | scan_number_minus =>
      let* c := get in
      if c =? 48 then do* add c in goto scan_number_zero value_integer
      else if between 49 57 c then do* add c in goto scan_number_any1 value_integer
      else error (lit "invalid number; expected digit after '-'") (inr None)
  | scan_number_zero =>
      let* c := get in
      if c =? 46 then do* add (uchar get_decimal_point) in goto scan_number_decimal1 number_type
      else if (c =? 101) || (c =? 69) then do* add c in goto scan_number_exponent number_type
      else goto scan_number_done number_type
  | scan_number_any1 =>
      let* c := get in
      if digit c then do* add c in goto scan_number_any1 number_type
      else if c =? 46 then do* add (uchar get_decimal_point) in goto scan_number_decimal1 number_type
      else if (c =? 101) || (c =? 69) then do* add c in goto scan_number_exponent number_type
      else goto scan_number_done number_type
  | scan_number_decimal1 =>
      let* c := get in
      if digit c then do* add c in goto scan_number_decimal2 value_float
      else error (lit "invalid number; expected digit after '.'") (inr None)
  | scan_number_decimal2 =>
      let* c := get in
      if digit c then do* add c in goto scan_number_decimal2 number_type
      else if (c =? 101) || (c =? 69) then do* add c in goto scan_number_exponent number_type
      else goto scan_number_done number_type
  | scan_number_exponent =>
      let* c := get in
      if (c =? 43) || (c =? 45) then do* add c in goto scan_number_sign value_float
      else if digit c then do* add c in goto scan_number_any2 value_float
      else error (lit "invalid number; expected '+', '-', or digit after exponent") (inr None)
  | scan_number_sign =>
      let* c := get in
      if digit c then do* add c in goto scan_number_any2 number_type
      else error (lit "invalid number; expected digit after exponent sign") (inr None)
  | scan_number_any2 =>
      let* c := get in
      if digit c then do* add c in goto scan_number_any2 number_type
      else goto scan_number_done number_type
  | scan_number_done => mret (inr (Some number_type))
  end.

(** [std::strtoull] and [std::strtoll] in base 10 on a text of digits with an
    optional minus sign: the value and whether [errno] is set to [ERANGE]. *)
Definition strtoull (s : str) : Z * bool :=
  let x := decimal_value s in if 2 ^ 64 <=? x then (2 ^ 64 - 1, true) else (x, false).

Definition strtoll (s : str) : Z * bool :=
  let x := match s with
           | c :: s' => if Ascii.eqb c "-" then - decimal_value s' else decimal_value s
           | [] => 0
           end in
  if x <? - 2 ^ 63 then (- 2 ^ 63, true) else if 2 ^ 63 <=? x then (2 ^ 63 - 1, true) else (x, false).

(** After [scan_number_done]: integers first, then floats. *)
Definition convert_number (number_type : token_type) : M (lexer F) token_type :=
  let* buffer := mget token_buffer in
  let as_float := do* set_float (strtod buffer) in mret value_float in
  match number_type with
  | value_unsigned =>
      let '(x, erange) := strtoull buffer in
      if negb erange then do* set_unsigned x in mret value_unsigned else as_float
  | value_integer =>
      let '(x, erange) := strtoll buffer in
      if negb erange then do* set_integer x in mret value_integer else as_float
  | _ => as_float
  end.

Definition scan_number : M (lexer F) token_type :=
  do* reset in
  let* c := mget current in
  let* n := mget (fun l => length (rest l)) in
  let run label :=
    do* add c in
    let* r := while_ (S (S n)) (fun '(label, number_type) => scan_number_from label number_type)
                (label, value_unsigned) in
    match r with
    | None => mret parse_error
    | Some number_type => do* unget in convert_number number_type
    end in
  if c =? 45 then run scan_number_minus
  else if c =? 48 then run scan_number_zero
  else if between 49 57 c then run scan_number_any1
  else fun _ => Undef.

(** ** Tokens *)

(** The loop of [scan_literal] over what follows the first character. *)
Fixpoint scan_literal_loop (text : str) (return_type : token_type) : M (lexer F) token_type :=
  match text with
  | [] => mret return_type
  | c :: text' =>
      let* d := get in
      if d =? uchar c then scan_literal_loop text' return_type
      else error (lit "invalid literal") parse_error
  end.

Definition scan_literal (literal_text : str) (return_type : token_type) : M (lexer F) token_type :=
  match literal_text with
  | [] => fun _ => Undef
  | c :: text' =>
      do* massert (fun l => current l =? uchar c) in
      scan_literal_loop text' return_type
  end.

Definition skip_bom : M (lexer F) bool :=
  let* c := get in
  if c =? 0xEF then
    let* c := get in
    if c =? 0xBB then let* c := get in mret (c =? 0xBF) else mret false
  else do* unget in mret true.

Definition whitespace (c : Z) : bool := (c =? 32) || (c =? 9) || (c =? 10) || (c =? 13).

(** The [do] loop that ignores whitespace: the first other character. *)
Definition skip_whitespace : M (lexer F) Z :=
  let* n := mget (fun l => length (rest l)) in
  while_ (S n) (fun _ => let* c := get in mret (if whitespace c then inl tt else inr c)) tt.

(** The switch of [scan] on the current character. *)
Definition scan_token (c : Z) : M (lexer F) token_type :=
  if c =? 91 then mret begin_array
  else if c =? 93 then mret end_array
  else if c =? 123 then mret begin_object
  else if c =? 125 then mret end_object
  else if c =? 58 then mret name_separator
  else if c =? 44 then mret value_separator
  else if c =? 116 then scan_literal (lit "true") literal_true
  else if c =? 102 then scan_literal (lit "false") literal_false
  else if c =? 110 then scan_literal (lit "null") literal_null
  else if c =? 34 then scan_string
  else if (c =? 45) || digit c then scan_number
  else if (c =? 0) || (c =? eof) then mret end_of_input
  else error (lit "invalid literal") parse_error.

Definition scan : M (lexer F) token_type :=
  let* at_start := mget (fun l => chars_read_total (position l) =? 0) in
  let* ok := if at_start then skip_bom else mret true in
  if negb ok then error (lit "invalid BOM; must be 0xEF 0xBB 0xBF if given") parse_error
  else let* c := skip_whitespace in scan_token c.

End lexer.
