(* ===== verification/JsonParser.v ===== *)
(** * The parser of JSON texts (third_party/include/json.hpp, class parser)

    [sax_parse_internal] is a loop over tokens with a stack of booleans, one for
    each open array or object, that reports what it reads to a SAX handler.
    [json_sax_dom_parser] is the handler that builds a value: it keeps pointers
    to the open containers of the value under construction, which are paths from
    its root here.  [json::parse] puts the two together; it is what
    db/soci_pgsql.hpp calls to read a JSON column.  The exceptions carry the texts
    the library builds for them. *)
From stdpp Require Import prelude strings pretty.
From Stdlib Require Import Ascii ZArith Lia.
From S2P Require Import Prelude CxxLib CxxMap Json JsonLexer.

Local Open Scope Z_scope.
Local Open Scope json_scope.

(** ** Handlers *)

(** The operations of a SAX handler with state [S]; [false] stops the parser.
    The sizes given to [start_object] and [start_array] are always unknown. *)
Class SAX (F S : Type) := {
  sax_null : M S bool;
  sax_boolean : bool -> M S bool;
  sax_number_integer : Z -> M S bool;
  sax_number_unsigned : Z -> M S bool;
  sax_number_float : F -> M S bool;
  sax_string : str -> M S bool;
  sax_start_object : M S bool;
  sax_key : str -> M S bool;
  sax_end_object : M S bool;
  sax_start_array : M S bool;
  sax_end_array : M S bool;
  sax_parse_error : json_exception -> M S bool
}.

(** ** Building a value *)

(** A pointer to a part of the value under construction: the way from its root. *)
Inductive access : Type :=
| at_key (k : str)
| at_index (i : nat).

Abbreviation ref := (list access).

Record json_sax_dom_parser (F : Type) := mk_dom {
  root : json F;
  ref_stack : list ref;          (* the back of the vector is the head *)
  object_element : option ref;   (* [nullptr] is [None] *)
  errored : bool
}.
Arguments mk_dom {F}.
Arguments root {F}.
Arguments ref_stack {F}.
Arguments object_element {F}.
Arguments errored {F}.

Section dom.
Context {F : Type}.

(** What a pointer points to, and the value after a change there. *)
Fixpoint deref_ (v : json F) (p : ref) : option (json F) :=
  match p with
  | [] => Some v
  | at_key k :: p' =>
      match v with
      | Object m => match map_get k m with Some x => deref_ x p' | None => None end
      | _ => None
      end
  | at_index i :: p' =>
      match v with
      | Array a => match a !! i with Some x => deref_ x p' | None => None end
      | _ => None
      end
  end.

Fixpoint store (v : json F) (p : ref) (x : json F) : json F :=
  match p with
  | [] => x
  | at_key k :: p' =>
      match v with
      | Object m => match map_get k m with
                    | Some y => Object (map_set k (store y p' x) m)
                    | None => v
                    end
      | _ => v
      end
  | at_index i :: p' =>
      match v with
      | Array a => match a !! i with
                   | Some y => Array (<[i := store y p' x]> a)
                   | None => v
                   end
      | _ => v
      end
  end.

Definition with_root (d : json_sax_dom_parser F) (v : json F) : json_sax_dom_parser F :=
  mk_dom v (ref_stack d) (object_element d) (errored d).

(** [handle_value]: the value goes where the parser is; its address is returned. *)
Definition handle_value (v : json F) : M (json_sax_dom_parser F) ref := fun d =>
  match ref_stack d with
  | [] => Ret ([], with_root d v)
  | back :: _ =>
      match deref_ (root d) back with
      | Some (Array a) =>
          Ret (back ++ [at_index (length a)], with_root d (store (root d) back (Array (a ++ [v]))))
      | Some (Object _) =>
          match object_element d with
          | Some e => match deref_ (root d) e with
                      | Some _ => Ret (e, with_root d (store (root d) e v))
                      | None => Undef
                      end
          | None => Undef
          end
      | _ => Undef
      end
  end.

Definition handle_scalar (v : json F) : M (json_sax_dom_parser F) bool :=
  do* handle_value v in mret true.

(** [start_object], [start_array]. *)
Definition start_container (v : json F) : M (json_sax_dom_parser F) bool :=
  let* p := handle_value v in
  fun d => Ret (true, mk_dom (root d) (p :: ref_stack d) (object_element d) (errored d)).

(** [end_object], [end_array]: [pop_back]. *)
Definition end_container : M (json_sax_dom_parser F) bool := fun d =>
  match ref_stack d with
  | [] => Undef
  | _ :: r => Ret (true, mk_dom (root d) r (object_element d) (errored d))
  end.

(** [key]: null at the key when it is new; its address is kept. *)
Definition dom_key (k : str) : M (json_sax_dom_parser F) bool := fun d =>
  match ref_stack d with
  | [] => Undef
  | back :: _ =>
      match deref_ (root d) back with
      | Some (Object m) =>
          let m' := match map_get k m with Some _ => m | None => map_set k Null m end in
          Ret (true, mk_dom (store (root d) back (Object m')) (ref_stack d) (Some (back ++ [at_key k])) (errored d))
      | _ => Undef
      end
  end.

(** [parse_error]. *)
Definition dom_parse_error (allow_exceptions : bool) (e : json_exception) : M (json_sax_dom_parser F) bool := fun d =>
  if allow_exceptions then Throw e
  else Ret (false, mk_dom (root d) (ref_stack d) (object_element d) true).

Definition dom_sax (allow_exceptions : bool) : SAX F (json_sax_dom_parser F) := {|
  sax_null := handle_scalar Null;
  sax_boolean b := handle_scalar (Boolean b);
  sax_number_integer i := handle_scalar (NumberInteger i);
  sax_number_unsigned u := handle_scalar (NumberUnsigned u);
  sax_number_float f := handle_scalar (NumberFloat f);
  sax_string s := handle_scalar (String_ s);
  sax_start_object := start_container (Object []);
  sax_key := dom_key;
  sax_end_object := end_container;
  sax_start_array := start_container (Array []);
  sax_end_array := end_container;
  sax_parse_error := dom_parse_error allow_exceptions
|}.

End dom.

(** ** The texts of errors *)

(** [std::to_string]. *)
Definition to_string (z : Z) : str := lit (pretty z).

Definition token_type_name (t : token_type) : str :=
  match t with
  | uninitialized => lit "<uninitialized>"
  | literal_true => lit "true literal"
  | literal_false => lit "false literal"
  | literal_null => lit "null literal"
  | value_string => lit "string literal"
  | value_unsigned | value_integer | value_float => lit "number literal"
  | begin_array => lit "'['"
  | begin_object => lit "'{'"
  | end_array => lit "']'"
  | end_object => lit "'}'"
  | name_separator => lit "':'"
  | value_separator => lit "','"
  | parse_error => lit "<parse error>"
  | end_of_input => lit "end of input"
  | literal_or_value => lit "'[', '{', or a literal"
  end.

(** [lexer::get_token_string]: control characters are escaped; a byte above 127
    is a negative [char] and stays. *)
Definition shown_char (c : ascii) : str :=
  if between 0x00 0x1F (uchar c) then lit "<U+" ++ hex_4 (uchar c) ++ lit ">" else [c].

Definition get_token_string (token_string : str) : str := token_string ≫= shown_char.

(** [parse_error::position_string]. *)
Definition position_string (pos : position_t) : str :=
  lit " at line " ++ to_string (lines_read pos + 1) ++ lit ", column " ++ to_string (chars_read_current_line pos).

(** [exception::name]. *)
Definition exception_name (ename : str) (id : Z) : str :=
  lit "[json.exception." ++ ename ++ lit "." ++ to_string id ++ lit "] ".

(** [parse_error::create]; the text goes through a C string. *)
Definition parse_error_create (id : Z) (pos : position_t) (what_arg : str) : json_exception :=
  json_parse_error id pos
    (c_str (exception_name (lit "parse_error") id ++ lit "parse error" ++ position_string pos ++ lit ": " ++ what_arg)).

(** [parser::exception_message], from the last token and the diagnostics of the lexer. *)
Definition exception_message {F} (last_token : token_type) (l : lexer F) (expected : token_type) (context : str) : str :=
  lit "syntax error " ++
  (if (length context =? 0)%nat then [] else lit "while parsing " ++ context ++ lit " ") ++
  lit "- " ++
  (if bool_decide (last_token = parse_error)
   then error_message l ++ lit "; last read: '" ++ get_token_string (token_string l) ++ lit "'"
   else lit "unexpected " ++ token_type_name last_token) ++
  (if bool_decide (expected = uninitialized) then [] else lit "; expected " ++ token_type_name expected).

(** ** The parser *)

Record parser (F S : Type) := mk_parser {
  m_lexer : lexer F;
  last_token : token_type;
  sax : S                     (* the state of the handler the parser reports to *)
}.
Arguments mk_parser {F S}.
Arguments m_lexer {F S}.
Arguments last_token {F S}.
Arguments sax {F S}.

Section parser.
Context {F S : Type} `{CFloat F} `{SAX F S}.

Abbreviation P := (parser F S).

(** [get_token]. *)
Definition get_token : M P token_type := fun p =>
  obind (scan (m_lexer p)) (fun '(t, l) => Ret (t, mk_parser l t (sax p))).

(** A call of the handler. *)
Definition on_sax {A} (m : M S A) : M P A := fun p =>
  obind (m (sax p)) (fun '(a, s) => Ret (a, mk_parser (m_lexer p) (last_token p) s)).

(** [parse_error::create(101, m_lexer.get_position(), exception_message(expected,
    context))] given to the handler. *)
Definition syntax_error (expected : token_type) (context : str) : M P bool :=
  let* e := mget (fun p => parse_error_create 101 (position (m_lexer p))
                             (exception_message (last_token p) (m_lexer p) expected context)) in
  on_sax (sax_parse_error e).

(** Where the switch on the token leads: back to the loop with an inner level
    open, to the code after it with a value read, or out of the function. *)
Inductive flow : Type :=
| Continue (states : list bool)
| Break
| Return (b : bool).

(** A handler's [false] leaves the function. *)
Definition unless (m : M S bool) (k : M P flow) : M P flow :=
  let* ok := on_sax m in if ok then k else mret (Return false).

Definition fail (expected : token_type) (context : str) : M P flow :=
  let* b := syntax_error expected context in mret (Return b).

Definition get_string : M P str := mget (fun p => token_buffer (m_lexer p)).

(** A key, its separator and the token after them. *)
Definition read_key (states : list bool) : M P flow :=
  let* s := get_string in
  unless (sax_key s)
    (let* t := get_token in
     if negb (bool_decide (t = name_separator)) then fail name_separator (lit "object separator")
     else do* get_token in mret (Continue states)).

(** The switch on [last_token]. *)
Definition read_value (states : list bool) : M P flow :=
  let* t := mget last_token in
  match t with
  | begin_object =>
      unless sax_start_object
        (let* t := get_token in
         if bool_decide (t = end_object) then unless sax_end_object (mret Break)
         else if negb (bool_decide (t = value_string)) then fail value_string (lit "object key")
         else read_key (false :: states))
  | begin_array =>
      unless sax_start_array
        (let* t := get_token in
         if bool_decide (t = end_array) then unless sax_end_array (mret Break)
         else mret (Continue (true :: states)))
  | value_float =>
      let* f := mget (fun p => number_float_ (m_lexer p)) in
      if negb (isfinite f) then
        let* b := on_sax (sax_parse_error (json_out_of_range 406)) in mret (Return b)
      else unless (sax_number_float f) (mret Break)
  | literal_false => unless (sax_boolean false) (mret Break)
  | literal_null => unless sax_null (mret Break)
  | literal_true => unless (sax_boolean true) (mret Break)
  | value_integer =>
      let* i := mget (fun p => number_integer_ (m_lexer p)) in
      unless (sax_number_integer i) (mret Break)
  | value_string => let* s := get_string in unless (sax_string s) (mret Break)
  | value_unsigned =>
      let* u := mget (fun p => number_unsigned_ (m_lexer p)) in
      unless (sax_number_unsigned u) (mret Break)
  | parse_error => fail uninitialized (lit "value")
  | _ => fail literal_or_value (lit "value")
  end.

(** After a value, by the innermost open container: [inl (states, skip)] is
    [continue]. *)
Definition evaluate (states : list bool) : M P ((list bool * bool) + bool) :=
  match states with
  | [] => mret (inr true)
  | true :: outer =>
      let* t := get_token in
      if bool_decide (t = value_separator) then do* get_token in mret (inl (states, false))
      else if bool_decide (t = end_array) then
        let* ok := on_sax sax_end_array in
        mret (if ok then inl (outer, true) else inr false)
      else let* b := syntax_error end_array (lit "array") in mret (inr b)
  | false :: outer =>
      let* t := get_token in
      if bool_decide (t = value_separator) then
        let* t := get_token in
        let* f := if negb (bool_decide (t = value_string)) then fail value_string (lit "object key") else read_key states in
        mret (match f with
              | Continue states => inl (states, false)
              | Break => inr true
              | Return b => inr b
              end)
      else if bool_decide (t = end_object) then
        let* ok := on_sax sax_end_object in
        mret (if ok then inl (outer, true) else inr false)
      else let* b := syntax_error end_object (lit "object") in mret (inr b)
  end.

(** One turn of the loop. *)
Definition sax_turn (x : list bool * bool) : M P ((list bool * bool) + bool) :=
  let '(states, skip_to_state_evaluation) := x in
  if skip_to_state_evaluation then evaluate states
  else
    let* f := read_value states in
    match f with
    | Continue states' => mret (inl (states', false))
    | Break => evaluate states
    | Return b => mret (inr b)
    end.

(** A turn reads a token or is the last: the characters left bound the turns. *)
Definition sax_parse_internal : M P bool :=
  let* n := mget (fun p => length (rest (m_lexer p))) in
  while_ (n + 2) sax_turn ([], false).

(** The constructor: the first token is read. *)
Definition new_parser (text : str) (s : S) : outcome json_exception P :=
  obind (get_token (mk_parser (new_lexer text) uninitialized s)) (fun '(_, p) => Ret p).

End parser.

(** ** [json::parse] *)

Section json.
Context {F : Type} `{CFloat F}.

(** [parser::parse] with [strict] and no callback, then [json::parse]; the
    result is null until the handler sets it. *)
Definition parse (allow_exceptions : bool) (text : str) : outcome json_exception (json F) :=
  let handler := dom_sax allow_exceptions in
  obind (new_parser text (mk_dom Null [] None false)) (fun p =>
  obind (sax_parse_internal p) (fun '(_, p) =>
  obind (get_token p) (fun '(t, p) =>
  obind (if negb (bool_decide (t = end_of_input)) then syntax_error end_of_input (lit "value") p else Ret (true, p)) (fun '(_, p) =>
  Ret (if errored (sax p) then Discarded else root (sax p)))))).

End json.

(** Numbers whose text is kept: an instance to run the parser on. *)
#[local] Instance text_float : CFloat str := {|
  strtod s := s; isfinite _ := true; float_zero := []; get_decimal_point := "."%char |}.

Example parse_example :
  parse true (lit "{'b': [1, -2,2.5e1 , true], 'a':null,'b':{} }" ≫= fun c => [if Ascii.eqb c "'" then quote else c]) =
  Ret (Object [(lit "a", Null); (lit "b", Object [])]).
Proof. vm_compute. reflexivity. Qed.

Example parse_array :
  parse true (lit " [1, -2,2.5e1 , true, -0, 18446744073709551616]") =
  Ret (Array [NumberUnsigned 1; NumberInteger (-2); NumberFloat (lit "2.5e1"); Boolean true; NumberInteger 0;
              NumberFloat (lit "18446744073709551616")]).
Proof. vm_compute. reflexivity. Qed.

(** The text of an error: a number in front of a line break that should not be
    there is reported at column 0. *)
Example parse_error_text :
  parse true (lit "[1 2" ++ [char_of_Z 10] ++ lit "]") =
  Throw (json_parse_error 101 (mk_position 4 0 0)
    (lit "[json.exception.parse_error.101] parse error at line 1, column 0: syntax error while parsing array - unexpected number literal; expected ']'")).
Proof. vm_compute. reflexivity. Qed.

Example parse_error_last_read :
  parse true (lit "[true, tru" ++ [char_of_Z 10] ++ lit "]") =
  Throw (json_parse_error 101 (mk_position 11 0 1)
    (lit "[json.exception.parse_error.101] parse error at line 2, column 0: syntax error while parsing value - invalid literal; last read: '[true, tru<U+000A>'")).
Proof. vm_compute. reflexivity. Qed.
