(* ===== verification/JsonGrammar.v ===== *)
(** * The grammar of JSON texts

    The reference for the lexer and the parser: RFC 8259 as relations between
    texts, tokens and values, written without the machines of json.hpp.  The
    differences from the RFC are the library's: a NUL byte ends the text, and
    when a key is repeated the last member is kept. *)
From stdpp Require Import prelude strings list.
From Stdlib Require Import Ascii ZArith Lia.
From S2P Require Import Prelude CxxLib CxxMap Json JsonFacts JsonLexer.

Local Open Scope Z_scope.

(** ** Strings *)

(** The UTF-8 encoding of a code point, by arithmetic. *)
Definition utf8_encode (n : Z) : str :=
  if n <? 128 then [char_of_Z n]
  else if n <? 2048 then [char_of_Z (192 + n / 64); char_of_Z (128 + n mod 64)]
  else if n <? 65536 then
    [char_of_Z (224 + n / 4096); char_of_Z (128 + n / 64 mod 64); char_of_Z (128 + n mod 64)]
  else
    [char_of_Z (240 + n / 262144); char_of_Z (128 + n / 4096 mod 64); char_of_Z (128 + n / 64 mod 64);
     char_of_Z (128 + n mod 64)].

Definition hex_value (c : ascii) : option Z :=
  if in_range 48 57 c then Some (uchar c - 48)
  else if in_range 65 70 c then Some (uchar c - 55)
  else if in_range 97 102 c then Some (uchar c - 87)
  else None.

(** Four hexadecimal digits. *)
Definition hex4 (h : str) (n : Z) : Prop :=
  exists a b c d x y z w, h = [a; b; c; d] /\
    hex_value a = Some x /\ hex_value b = Some y /\ hex_value c = Some z /\ hex_value d = Some w /\
    n = ((x * 16 + y) * 16 + z) * 16 + w.

Definition backslash : ascii := "\"%char.

(** The short escapes: the letter and the character it stands for. *)
Definition short_escape (c : ascii) : option ascii :=
  if Ascii.eqb c quote then Some quote
  else if Ascii.eqb c backslash then Some backslash
  else if Ascii.eqb c "/" then Some "/"%char
  else if Ascii.eqb c "b" then Some (ascii_of_nat 8)
  else if Ascii.eqb c "f" then Some (ascii_of_nat 12)
  else if Ascii.eqb c "n" then Some (ascii_of_nat 10)
  else if Ascii.eqb c "r" then Some (ascii_of_nat 13)
  else if Ascii.eqb c "t" then Some (ascii_of_nat 9)
  else None.

Definition high_surrogate (n : Z) : Prop := 55296 <= n <= 56319.
Definition low_surrogate (n : Z) : Prop := 56320 <= n <= 57343.

(** One character of a string as written, and the bytes it stands for. *)
Inductive string_char : str -> str -> Prop :=
| char_plain c s : utf8_char (c :: s) -> 32 <= uchar c -> c <> quote -> c <> backslash ->
    string_char (c :: s) (c :: s)
| char_short c d : short_escape c = Some d -> string_char [backslash; c] [d]
| char_unicode h n : hex4 h n -> ~ high_surrogate n -> ~ low_surrogate n ->
    string_char (backslash :: "u"%char :: h) (utf8_encode n)
| char_pair h n h' n' : hex4 h n -> high_surrogate n -> hex4 h' n' -> low_surrogate n' ->
    string_char (backslash :: "u"%char :: h ++ backslash :: "u"%char :: h')
      (utf8_encode (65536 + (n - 55296) * 1024 + (n' - 56320))).

Inductive string_body : str -> str -> Prop :=
| body_nil : string_body [] []
| body_cons t d b s : string_char t d -> string_body b s -> string_body (t ++ b) (d ++ s).

(** ** Numbers *)

(** The parts of a number: minus sign, digits, digits after the point, and the
    exponent as its letter, its sign and its digits. *)
Record number := mk_number {
  negative : bool;
  int_digits : str;
  fraction : option str;
  exponent : option (ascii * str * str)
}.

Definition digits (s : str) : Prop := s <> [] /\ forallb is_digit s = true.

Definition number_ok (n : number) : Prop :=
  digits (int_digits n) /\
  (int_digits n = lit "0" \/ exists c s, int_digits n = c :: s /\ c <> "0"%char) /\
  (forall f, fraction n = Some f -> digits f) /\
  (forall e s d, exponent n = Some (e, s, d) ->
     (e = "e"%char \/ e = "E"%char) /\ (s = [] \/ s = lit "+" \/ s = lit "-") /\ digits d).

(** The text, with [point] for the decimal point. *)
Definition number_text (point : ascii) (n : number) : str :=
  (if negative n then lit "-" else []) ++ int_digits n ++
  match fraction n with Some f => point :: f | None => [] end ++
  match exponent n with Some (e, s, d) => e :: s ++ d | None => [] end.

(** What may not follow a number: what would continue it. *)
Definition number_ends (n : number) (p : str) : Prop :=
  match p with
  | [] => True
  | c :: _ =>
      match exponent n, fraction n with
      | Some _, _ => is_digit c = false
      | None, Some _ => is_digit c = false /\ c <> "e"%char /\ c <> "E"%char
      | None, None =>
          (is_digit c = false \/ int_digits n = lit "0") /\ c <> "."%char /\ c <> "e"%char /\ c <> "E"%char
      end
  end.

(** ** Tokens *)

Inductive token (F : Type) : Type :=
| tk_null
| tk_bool (b : bool)
| tk_string (s : str)
| tk_unsigned (u : Z)
| tk_integer (i : Z)
| tk_float (f : F)
| tk_open_array | tk_close_array | tk_open_object | tk_close_object | tk_colon | tk_comma.
Arguments tk_null {F}.
Arguments tk_bool {F}.
Arguments tk_string {F}.
Arguments tk_unsigned {F}.
Arguments tk_integer {F}.
Arguments tk_float {F}.
Arguments tk_open_array {F}.
Arguments tk_close_array {F}.
Arguments tk_open_object {F}.
Arguments tk_close_object {F}.
Arguments tk_colon {F}.
Arguments tk_comma {F}.

Definition blank (c : ascii) : bool := whitespace (uchar c).

Section grammar.
Context {F : Type} `{CFloat F}.

(** A number without point and exponent is an integer when 64 bits hold it. *)
Definition number_token (n : number) : token F :=
  let float := tk_float (strtod (number_text get_decimal_point n)) in
  match fraction n, exponent n with
  | None, None =>
      let x := decimal_value (int_digits n) in
      if negative n then if x <=? 2 ^ 63 then tk_integer (- x) else float
      else if x <? 2 ^ 64 then tk_unsigned x else float
  | _, _ => float
  end.

Inductive lexeme : str -> token F -> Prop :=
| lexeme_null : lexeme (lit "null") tk_null
| lexeme_true : lexeme (lit "true") (tk_bool true)
| lexeme_false : lexeme (lit "false") (tk_bool false)
| lexeme_open_array : lexeme (lit "[") tk_open_array
| lexeme_close_array : lexeme (lit "]") tk_close_array
| lexeme_open_object : lexeme (lit "{") tk_open_object
| lexeme_close_object : lexeme (lit "}") tk_close_object
| lexeme_colon : lexeme (lit ":") tk_colon
| lexeme_comma : lexeme (lit ",") tk_comma
| lexeme_string b s : string_body b s -> lexeme (quote :: b ++ [quote]) (tk_string s).

(** [lexes p t p']: after whitespace, [p] starts with [t] and [p'] follows it. *)
Inductive lexes : str -> token F -> str -> Prop :=
| lexes_blank c p t p' : blank c = true -> lexes p t p' -> lexes (c :: p) t p'
| lexes_lexeme w t p : lexeme w t -> lexes (w ++ p) t p
| lexes_number n p : number_ok n -> number_ends n p -> lexes (number_text "." n ++ p) (number_token n) p.

Inductive lexes_all : str -> list (token F) -> str -> Prop :=
| lexes_nil p : lexes_all p [] p
| lexes_cons p t p' ts p'' : lexes p t p' -> lexes_all p' ts p'' -> lexes_all p (t :: ts) p''.

(** Nothing but whitespace up to the end of the text or a NUL. *)
Definition ends (p : str) : Prop :=
  exists w, forallb blank w = true /\ (p = w \/ exists p', p = w ++ NUL :: p').

(** ** Values *)

Inductive value : json F -> list (token F) -> Prop :=
| value_null : value Null [tk_null]
| value_bool b : value (Boolean b) [tk_bool b]
| value_text s : value (String_ s) [tk_string s]
| value_uint u : value (NumberUnsigned u) [tk_unsigned u]
| value_int i : value (NumberInteger i) [tk_integer i]
| value_number f : isfinite f = true -> value (NumberFloat f) [tk_float f]
| value_empty_array : value (Array []) [tk_open_array; tk_close_array]
| value_array a ts : elements a ts -> value (Array a) (tk_open_array :: ts ++ [tk_close_array])
| value_empty_object : value (Object []) [tk_open_object; tk_close_object]
| value_object ms ts : members ms ts ->
    value (Object (foldl (fun m x => map_set x.1 x.2 m) [] ms)) (tk_open_object :: ts ++ [tk_close_object])
with elements : list (json F) -> list (token F) -> Prop :=
| elements_one v ts : value v ts -> elements [v] ts
| elements_more v ts a us : value v ts -> elements a us -> elements (v :: a) (ts ++ tk_comma :: us)
with members : list (str * json F) -> list (token F) -> Prop :=
| members_one k v ts : value v ts -> members [(k, v)] (tk_string k :: tk_colon :: ts)
| members_more k v ts ms us : value v ts -> members ms us ->
    members ((k, v) :: ms) (tk_string k :: tk_colon :: ts ++ tk_comma :: us).

(** A text without its byte order mark, if it has one. *)
Definition bom : str := map char_of_Z [239; 187; 191].

Definition after_bom (text p : str) : Prop :=
  text = bom ++ p \/ text = p /\ forall c p', p = c :: p' -> uchar c <> 239.

(** A text that denotes a value. *)
Definition json_text (text : str) (v : json F) : Prop :=
  exists p ts p', after_bom text p /\ lexes_all p ts p' /\ value v ts /\ ends p'.

End grammar.

Scheme value_ind' := Minimality for value Sort Prop
  with elements_ind' := Minimality for elements Sort Prop
  with members_ind' := Minimality for members Sort Prop.
Combined Scheme value_elements_members_ind from value_ind', elements_ind', members_ind'.
