(* ===== verification/JsonWp.v ===== *)
(** * Weakest preconditions for the JSON lexer

    A small calculus of weakest preconditions for state-passing functions, and
    the rules of the lexer's own: reading, pushing back and collecting
    characters. *)
From stdpp Require Import prelude strings list.
From Stdlib Require Import Ascii ZArith Lia.
From S2P Require Import Prelude CxxLib CxxMap Json JsonFacts JsonLexer JsonGrammar.

Local Open Scope Z_scope.
Local Open Scope json_scope.

(** ** Weakest preconditions *)

(** [m] returns, and its value and state are in [Q]. *)
Definition wp {S A} (m : M S A) (s : S) (Q : A -> S -> Prop) : Prop :=
  match m s with
  | Ret (a, s') => Q a s'
  | _ => False
  end.

Section wp.
Context {S : Type}.

Lemma wp_ret {A} (a : A) (s : S) (Q : A -> S -> Prop) : Q a s -> wp (mret a) s Q.
Proof. done. Qed.

Lemma wp_bind {A B} (m : M S A) (k : A -> M S B) s Q :
  wp m s (fun a s' => wp (k a) s' Q) -> wp (mbind_ m k) s Q.
Proof. unfold wp, mbind_. destruct (m s) as [[a s']| |]; simpl; done. Qed.

Lemma wp_mono {A} (m : M S A) s (Q Q' : A -> S -> Prop) :
  wp m s Q -> (forall a s', Q a s' -> Q' a s') -> wp m s Q'.
Proof. unfold wp. destruct (m s) as [[a s']| |]; auto. Qed.

Lemma wp_both {A} (m : M S A) s (Q Q' : A -> S -> Prop) :
  wp m s Q -> wp m s Q' -> wp m s (fun a s' => Q a s' /\ Q' a s').
Proof. unfold wp. destruct (m s) as [[a s']| |]; auto. Qed.

Lemma wp_run {A} (m : M S A) s Q : wp m s Q -> exists a s', m s = Ret (a, s') /\ Q a s'.
Proof. unfold wp. destruct (m s) as [[a s']| |]; [eauto|done|done]. Qed.

Lemma wp_mget {A} (f : S -> A) s (Q : A -> S -> Prop) : Q (f s) s -> wp (mget f) s Q.
Proof. done. Qed.

Lemma wp_massert (f : S -> bool) s (Q : unit -> S -> Prop) : f s = true -> Q tt s -> wp (massert f) s Q.
Proof. unfold wp, massert. by intros ->. Qed.

(** A loop with an invariant and a measure that bounds the fuel. *)
Lemma wp_while {X A} (I : X -> S -> Prop) (measure : X -> S -> nat) (body : X -> M S (X + A)) fuel x s Q :
  (forall x s, I x s -> wp (body x) s (fun r s' =>
     match r with inl x' => I x' s' /\ (measure x' s' < measure x s)%nat | inr a => Q a s' end)) ->
  I x s -> (measure x s < fuel)%nat -> wp (while_ fuel body x) s Q.
Proof.
  intros Hbody. revert x s. induction fuel as [|fuel IH]; intros x s HI Hm; [lia|]. simpl.
  apply wp_bind. eapply wp_mono; [by apply Hbody|]. intros [x'|a] s'; simpl; [|done].
  intros [HI' Hm']. apply IH; [done|lia].
Qed.
End wp.

(** Case analysis on the condition the function tests next. *)
Ltac wp_if E := match goal with |- wp (if ?b then _ else _) _ _ => destruct b eqn:E end.

Create HintDb wp discriminated.
#[export] Hint Resolve wp_ret wp_mget : wp.

(** ** The state of the lexer *)

Section state.
Context {F : Type} `{CFloat F}.

(** A character pushed back is a byte, or the end of a text read to its end; a
    character that was read is in [token_string]. *)
Definition coherent (l : lexer F) : Prop :=
  (next_unget l = true -> current l = eof /\ ia l = [] \/ 0 <= current l < 256) /\
  (next_unget l = false -> current l = eof \/ token_string l <> []).

(** [p] is left to read, [b] is in the buffer, [n] characters were read. *)
Record reads (l : lexer F) (p b : str) (n : Z) : Prop := mk_reads {
  reads_rest : rest l = p;
  reads_buffer : token_buffer l = b;
  reads_total : chars_read_total (position l) = n;
  reads_coherent : coherent l
}.

Definition head_code (p : str) : Z := match p with [] => eof | c :: _ => uchar c end.

Lemma head_code_eof p : head_code p = eof -> p = [].
Proof. destruct p as [|c p]; [done|]. simpl. unfold eof. pose proof (uchar_range c). lia. Qed.

(** The position does not matter here beyond the number of characters. *)
Lemma wp_get l p b n (Q : Z -> lexer F -> Prop) :
  reads l p b n ->
  (forall l', reads l' (tl p) b (n + 1) -> current l' = head_code p -> next_unget l' = false ->
     Q (head_code p) l') ->
  wp get l Q.
Proof.
  intros [Hr Hb Hn Hc] HQ. unfold wp, get.
  assert (Hhd : (if next_unget l then (current l, ia l) else get_character (ia l)) = (head_code p, tl p)).
  { subst p. unfold rest, coherent, get_character in *. destruct (next_unget l).
    - destruct (proj1 Hc eq_refl) as [[E E']|Hr]; [rewrite E, E'; done|].
      rewrite (proj2 (Z.eqb_neq _ _)) by (unfold eof; lia). simpl.
      by rewrite uchar_char_of_Z.
    - by destruct (ia l). }
  rewrite Hhd. apply HQ; [|done|done]. split; simpl; [done|done|by rewrite Hn|]. split; simpl; [done|].
  intros _. destruct (Z.eqb_spec (head_code p) eof); [by left|right]. by destruct (token_string l).
Qed.

Lemma wp_add c l p b n (Q : unit -> lexer F -> Prop) :
  reads l p b n ->
  (forall l', reads l' p (b ++ [char_of_Z c]) n -> current l' = current l -> next_unget l' = next_unget l -> Q tt l') ->
  wp (add c) l Q.
Proof.
  intros [Hr Hb Hn Hc] HQ. unfold wp, add. apply HQ; [|done|done].
  split; simpl; [done|by rewrite Hb|done|done].
Qed.

Lemma wp_reset l p b n (Q : unit -> lexer F -> Prop) :
  reads l p b n ->
  (forall l', reads l' p [] n -> current l' = current l -> next_unget l' = next_unget l -> Q tt l') ->
  wp reset l Q.
Proof.
  intros [Hr Hb Hn [Hc Hs]] HQ. unfold wp, reset. apply HQ; [|done|done]. split; try done. split; simpl; [done|by right].
Qed.

(** The assignment to [error_message]. *)
Lemma wp_error {A} message (a : A) l p b n (Q : A -> lexer F -> Prop) :
  reads l p b n -> (forall l', reads l' p b n -> Q a l') -> wp (error message a) l Q.
Proof. intros [Hr Hb Hn Hc] HQ. unfold wp, error. apply HQ. by split. Qed.

(** Pushing back the character just read. *)
Lemma wp_unget l p b n (Q : unit -> lexer F -> Prop) :
  reads l (tl p) b n -> current l = head_code p -> next_unget l = false ->
  (forall l', reads l' p b (n - 1) -> Q tt l') ->
  wp unget l Q.
Proof.
  intros [Hr Hb Hn Hc] Hcur Hu HQ. unfold wp, unget.
  assert (E : negb (current l =? eof) && (length (token_string l) =? 0)%nat = false).
  { destruct (proj2 Hc Hu) as [->|Hs]; [done|]. destruct (token_string l); [done|]. by rewrite andb_false_r. }
  rewrite E. apply HQ. unfold rest in Hr. rewrite Hu in Hr.
  split; simpl; [|done|by rewrite Hn|].
  - unfold rest. simpl. rewrite Hcur, Hr. destruct p as [|c p]; [done|]. simpl.
    pose proof (uchar_range c). rewrite (proj2 (Z.eqb_neq _ _)) by (unfold eof; lia).
    by rewrite char_of_Z_uchar.
  - split; simpl; [|done]. intros _. rewrite Hcur, Hr. destruct p as [|c p]; [by left|right]. apply uchar_range.
Qed.
(** The token the lexer has just returned, with its value in the members. *)
Definition shows (tok : token F) (t : token_type) (l : lexer F) : Prop :=
  match tok with
  | tk_null => t = literal_null
  | tk_bool b => t = if b then literal_true else literal_false
  | tk_string s => t = value_string /\ token_buffer l = s
  | tk_unsigned u => t = value_unsigned /\ number_unsigned_ l = u
  | tk_integer i => t = value_integer /\ number_integer_ l = i
  | tk_float f => t = value_float /\ number_float_ l = f
  | tk_open_array => t = begin_array
  | tk_close_array => t = end_array
  | tk_open_object => t = begin_object
  | tk_close_object => t = end_object
  | tk_colon => t = name_separator
  | tk_comma => t = value_separator
  end.

(** An error: what is left is no more than before, and at most one character
    more than the text has was asked for. *)
Definition stopped (p : str) (n : Z) (l : lexer F) : Prop :=
  exists p' b' n', reads l p' b' n' /\ (length p' <= length p)%nat /\ n < n' <= n + str_size p + 1.

Lemma reads_stopped l p' b' n' p n :
  reads l p' b' n' -> (length p' <= length p)%nat -> n < n' <= n + str_size p + 1 -> stopped p n l.
Proof. intros. by exists p', b', n'. Qed.

Lemma stopped_cons c p n l : stopped p (n + 1) l -> stopped (c :: p) n l.
Proof.
  intros (p1 & b1 & n1 & H1 & H2 & H3). exists p1, b1, n1. split; [done|].
  rewrite str_size_cons. simpl. lia.
Qed.

Lemma wp_error_stopped {A} message (a : A) l p n (Q : A -> lexer F -> Prop) :
  stopped p n l -> (forall l', stopped p n l' -> Q a l') -> wp (error message a) l Q.
Proof.
  intros (p1 & b1 & n1 & H1 & H2 & H3) HQ. eapply wp_error; [done|]. intros l' Hl'. apply HQ. by exists p1, b1, n1.
Qed.

Lemma reads_stopped_tl l p b n : reads l (tl p) b (n + 1) -> stopped p n l.
Proof.
  intros Hl. eapply reads_stopped; [done|destruct p; simpl; lia|]. pose proof (str_size_nonneg p). lia.
Qed.

Lemma stopped_app q p n l : stopped p (n + str_size q) l -> stopped (q ++ p) n l.
Proof.
  intros (p1 & b1 & n1 & H1 & H2 & H3). exists p1, b1, n1. split; [done|].
  rewrite length_app, str_size_app. pose proof (str_size_nonneg q). lia.
Qed.

End state.
