(* ===== verification/JsonStrings.v ===== *)
(** * The string scanner reads the strings of the grammar

    [scan_string] turn by turn: what a turn reads is a character of the grammar,
    every character of the grammar is read, and what is collected is UTF-8. *)
From stdpp Require Import prelude strings list.
From Stdlib Require Import Ascii ZArith Lia.
From S2P Require Import Prelude CxxLib CxxMap Json JsonFacts JsonLexer JsonGrammar JsonWp.

Local Open Scope Z_scope.
Local Open Scope json_scope.

(** ** Strings *)

Section strings.
Context {F : Type} `{CFloat F}.

(** Up to [k] hexadecimal digits after the value [acc]. *)
Fixpoint hex_run (k : nat) (acc : Z) (p : str) : option (Z * str) :=
  match k with
  | O => Some (acc, p)
  | S k' =>
      match p with
      | [] => None
      | c :: p' => match hex_value c with Some d => hex_run k' (acc * 16 + d) p' | None => None end
      end
  end.

Lemma hex_value_range c d : hex_value c = Some d -> 0 <= d < 16.
Proof. unfold hex_value, in_range. repeat case_match; intros; simplify_eq; unbool; lia. Qed.

Lemma hex_run_4 p cp p' :
  hex_run 4 0 p = Some (cp, p') <-> exists h, p = h ++ p' /\ hex4 h cp.
Proof.
  split.
  - intros E. destruct p as [|a [|b [|c [|d p]]]]; simpl in E; repeat case_match; simplify_eq.
    exists [a; b; c; d]. split; [done|]. by repeat eexists.
  - intros (h & -> & a & b & c & d & x & y & z & w & -> & Ha & Hb & Hc & Hd & ->). simpl.
    by rewrite Ha, Hb, Hc, Hd.
Qed.

Lemma hex4_range h n : hex4 h n -> 0 <= n < 65536.
Proof.
  intros (a & b & c & d & x & y & z & w & -> & Ha%hex_value_range & Hb%hex_value_range &
    Hc%hex_value_range & Hd%hex_value_range & ->). lia.
Qed.

Lemma hex4_length h n : hex4 h n -> length h = 4%nat.
Proof. by intros (a & b & c & d & x & y & z & w & -> & _). Qed.

Fixpoint hex_factors (k : nat) : list Z :=
  match k with O => [] | S k' => 4 * Z.of_nat k' :: hex_factors k' end.

Lemma wp_get_codepoint_loop k l p b n acc (Q : Z -> lexer F -> Prop) :
  reads l p b n -> 0 <= acc -> (acc + 1) * 16 ^ Z.of_nat k <= 65536 ->
  match hex_run k acc p with
  | Some (cp, p') => forall l', reads l' p' b (n + Z.of_nat k) -> Q cp l'
  | None => forall l', stopped p n l' -> Q (-1) l'
  end ->
  wp (get_codepoint_loop (hex_factors k) (acc * 16 ^ Z.of_nat k)) l Q.
Proof.
  revert l p n acc. induction k as [|k IH]; intros l p n acc Hl Hacc Hmax HQ; cbn [get_codepoint_loop hex_factors hex_run] in *.
  { change (16 ^ Z.of_nat 0) with 1 in *. apply wp_bind, wp_massert; [unfold between; lia|]. apply wp_ret. rewrite Z.mul_1_r. apply HQ. by rewrite Z.add_0_r. }
  apply wp_bind. eapply wp_get; [done|]. intros l' Hl' _ _.
  assert (Hbad : forall l' : lexer F, reads l' (tl p) b (n + 1) -> stopped p n l').
  { intros l1 Hl1. eapply reads_stopped; [done|destruct p; simpl; lia|]. pose proof (str_size_nonneg p). lia. }
  destruct p as [|c p]; [by apply HQ, Hbad|]. cbn [head_code tl] in *.
  assert (Hnext : forall d, hex_value c = Some d ->
    wp (get_codepoint_loop (hex_factors k) (acc * 16 ^ Z.of_nat (S k) + Z.shiftl d (4 * Z.of_nat k))) l' Q).
  { intros d Hd. rewrite Hd in HQ. pose proof (hex_value_range c d Hd).
    replace (acc * 16 ^ Z.of_nat (S k) + Z.shiftl d (4 * Z.of_nat k)) with ((acc * 16 + d) * 16 ^ Z.of_nat k).
    - apply (IH l' p (n + 1)); [done|lia| |].
      { rewrite Nat2Z.inj_succ, Z.pow_succ_r in Hmax by lia. pose proof (Z.pow_nonneg 16 (Z.of_nat k)). nia. }
      destruct (hex_run k _ p) as [[cp p']|].
      + intros l1 Hl1. apply HQ. by replace (n + Z.of_nat (S k)) with (n + 1 + Z.of_nat k) by lia.
      + intros l1 (p1 & b1 & n1 & H1 & H2 & H3). apply HQ. exists p1, b1, n1.
        split; [done|]. rewrite str_size_cons. simpl. lia.
    - rewrite Z.shiftl_mul_pow2, Z.pow_mul_r by lia. change (2 ^ 4) with 16.
      rewrite Nat2Z.inj_succ, Z.pow_succ_r by lia. lia. }
  unfold hex_value, in_range in *. unfold between.
  repeat match goal with |- wp (if ?b then _ else _) _ _ => destruct b eqn:? end;
    try (by apply Hnext); by apply HQ, Hbad.
Qed.

Lemma wp_get_codepoint l p b n (Q : Z -> lexer F -> Prop) :
  reads l p b n -> current l = 117 ->
  match hex_run 4 0 p with
  | Some (cp, p') => forall l', reads l' p' b (n + 4) -> Q cp l'
  | None => forall l', stopped p n l' -> Q (-1) l'
  end ->
  wp get_codepoint l Q.
Proof.
  intros Hl Hc HQ. apply wp_bind, wp_massert; [by rewrite Hc|]. by apply (wp_get_codepoint_loop 4 l p b n 0).
Qed.

(** *** Encoding *)

Lemma lor_add k a b : 0 <= k -> 0 <= b < 2 ^ k -> Z.lor (a * 2 ^ k) b = a * 2 ^ k + b.
Proof.
  intros Hk Hb. symmetry. apply Z.add_nocarry_lor, Z.bits_inj'. intros i Hi. rewrite Z.land_spec, Z.bits_0.
  destruct (Z.lt_ge_cases i k).
  - by rewrite Z.mul_pow2_bits_low.
  - rewrite <- (Z.mod_small b (2 ^ k)), (Z.mod_pow2_bits_high b) by lia. apply andb_false_r.
Qed.

(** The bits of the code are the sums of the reference. *)
Lemma continuation_bits n k : 0 <= n -> 0 <= k ->
  Z.lor 128 (Z.land (Z.shiftr n k) 63) = 128 + n / 2 ^ k mod 64.
Proof.
  intros Hn Hk. rewrite Z.shiftr_div_pow2 by done. change 63 with (Z.ones 6). rewrite Z.land_ones by lia.
  apply (lor_add 6 2); [lia|]. apply Z.mod_pos_bound. lia.
Qed.

Lemma lead_bits n k a m : 0 <= m -> 0 <= k -> 0 <= n < 2 ^ (k + m) ->
  Z.lor (a * 2 ^ m) (Z.shiftr n k) = a * 2 ^ m + n / 2 ^ k.
Proof.
  intros Hm Hk Hn. rewrite Z.shiftr_div_pow2 by done. apply lor_add; [done|].
  rewrite Z.pow_add_r in Hn by done. assert (0 < 2 ^ k) by (apply Z.pow_pos_nonneg; lia).
  split; [apply Z.div_pos; lia|apply Z.div_lt_upper_bound; lia].
Qed.

Ltac wp_adds HQ :=
  lazymatch goal with
  | |- wp (mbind_ (add _) _) _ _ => apply wp_bind; wp_adds HQ
  | |- wp (add _) _ _ =>
      eapply wp_add; [eassumption|];
      let l := fresh "l" in let Hl := fresh "Hl" in intros l Hl _ _;
      rewrite <- ?app_assoc in Hl; simpl in Hl; wp_adds HQ
  | |- _ => idtac
  end.

Lemma wp_add_codepoint n l p b k (Q : unit -> lexer F -> Prop) :
  0 <= n < 1114112 -> reads l p b k ->
  (forall l', reads l' p (b ++ utf8_encode n) k -> Q tt l') ->
  wp (add_codepoint n) l Q.
Proof.
  intros Hn Hl HQ. apply wp_bind, wp_massert; [unfold between; lia|]. unfold utf8_encode in *.
  assert (H0 : Z.lor 128 (Z.land n 63) = 128 + n mod 64).
  { pose proof (continuation_bits n 0) as E. rewrite Z.shiftr_0_r, Z.div_1_r in E. apply E; lia. }
  pose proof (continuation_bits n 6 ltac:(lia) ltac:(lia)) as H6.
  pose proof (continuation_bits n 12 ltac:(lia) ltac:(lia)) as H12.
  pose proof (lead_bits n 6 6 5 ltac:(lia) ltac:(lia)) as L6.
  pose proof (lead_bits n 12 14 4 ltac:(lia) ltac:(lia)) as L12.
  pose proof (lead_bits n 18 30 3 ltac:(lia) ltac:(lia)) as L18.
  rewrite H0, H6, H12. clear H0 H6 H12.
  destruct (Z.ltb_spec n 128); [wp_adds HQ; by apply HQ|].
  destruct (Z.leb_spec n 2047), (Z.ltb_spec n 2048); try lia.
  { change 192 with (6 * 2 ^ 5) at 1. rewrite L6 by lia. wp_adds HQ. by apply HQ. }
  destruct (Z.leb_spec n 65535), (Z.ltb_spec n 65536); try lia.
  { change 224 with (14 * 2 ^ 4) at 1. rewrite L12 by lia. wp_adds HQ. by apply HQ. }
  change 240 with (30 * 2 ^ 3) at 1. rewrite L18 by lia. wp_adds HQ. by apply HQ.
Qed.

(** The encoding of a code point that is no surrogate is a UTF-8 character. *)
Lemma utf8_encode_char n :
  0 <= n < 1114112 -> ~ high_surrogate n -> ~ low_surrogate n -> utf8_char (utf8_encode n).
Proof.
  unfold high_surrogate, low_surrogate. intros Hn Hh Hl. unfold utf8_encode.
  pose proof (Z.mod_pos_bound n 64 ltac:(lia)). pose proof (Z.mod_pos_bound (n / 64) 64 ltac:(lia)).
  pose proof (Z.mod_pos_bound (n / 4096) 64 ltac:(lia)).
  pose proof (Z.div_mod n 64 ltac:(lia)). pose proof (Z.div_mod (n / 64) 64 ltac:(lia)) as D2.
  pose proof (Z.div_mod (n / 4096) 64 ltac:(lia)) as D3.
  rewrite Z.div_div in D2, D3 by lia. change (64 * 64) with 4096 in D2. change (4096 * 64) with 262144 in D3.
  assert (Hin : forall lo hi z, 0 <= lo <= z -> z <= hi -> hi < 256 -> in_range lo hi (char_of_Z z) = true).
  { intros lo hi z ? ? ?. unfold in_range. rewrite uchar_char_of_Z by lia. lia. }
  destruct (Z.ltb_spec n 128); [apply utf8_1; apply Hin; lia|].
  destruct (Z.ltb_spec n 2048); [apply utf8_2; apply Hin; lia|].
  destruct (Z.ltb_spec n 65536).
  - destruct (Z.ltb_spec n 4096); [apply utf8_3a; apply Hin; lia|].
    destruct (Z.ltb_spec n 53248); [apply utf8_3b; [apply orb_true_intro; left|..]; apply Hin; lia|].
    destruct (Z.ltb_spec n 57344); [apply utf8_3c; apply Hin; lia|].
    apply utf8_3b; [apply orb_true_intro; right|..]; apply Hin; lia.
  - destruct (Z.ltb_spec n 262144); [apply utf8_4a; apply Hin; lia|].
    destruct (Z.ltb_spec n 1048576); [apply utf8_4b; apply Hin; lia|].
    apply utf8_4c; apply Hin; lia.
Qed.

(** *** The turns of [scan_string] *)

(** Bytes in the ranges, one after another, and what follows them. *)
Fixpoint take_ranges (ranges : list (Z * Z)) (p : str) : option (str * str) :=
  match ranges with
  | [] => Some ([], p)
  | (lo, hi) :: ranges' =>
      match p with
      | [] => None
      | c :: p' =>
          if in_range lo hi c then
            match take_ranges ranges' p' with Some (s, q) => Some (c :: s, q) | None => None end
          else None
      end
  end.

Lemma wp_next_bytes ranges l p b n (Q : bool -> lexer F -> Prop) :
  (forall lo hi, (lo, hi) ∈ ranges -> 0 <= lo) ->
  reads l p b n ->
  match take_ranges ranges p with
  | Some (s, p') => forall l', reads l' p' (b ++ s) (n + str_size s) -> Q true l'
  | None => forall l', stopped p n l' -> Q false l'
  end ->
  wp (next_bytes ranges) l Q.
Proof.
  revert l p b n. induction ranges as [|[lo hi] ranges IH]; intros l p b n Hlo Hl HQ; cbn [next_bytes take_ranges] in *.
  { apply wp_ret, HQ. by rewrite app_nil_r, Z.add_0_r. }
  specialize (Hlo lo hi) as Hlo0. apply wp_bind. eapply wp_get; [done|]. intros l' Hl' _ _.
  destruct p as [|c p].
  { simpl. unfold between, eof. rewrite (proj2 (Z.leb_gt lo (-1))) by (specialize (Hlo0 ltac:(set_solver)); lia).
    eapply wp_error; [done|]. intros l1 Hl1. by apply HQ, (reads_stopped_tl l1 [] b). }
  cbn [head_code tl] in *. unfold in_range, between in *. destruct (_ && _).
  - apply wp_bind. eapply wp_add; [done|]. intros l1 Hl1 _ _. rewrite char_of_Z_uchar in Hl1.
    apply (IH l1 p (b ++ [c]) (n + 1)); [set_solver|done|].
    destruct (take_ranges ranges p) as [[s q]|].
    + intros l2 Hl2. apply HQ. rewrite <- app_assoc, <- Z.add_assoc in Hl2. by rewrite str_size_cons.
    + intros l2 Hl2. by apply HQ, stopped_cons.
  - eapply wp_error; [done|]. intros l1 Hl1. by apply HQ, (reads_stopped_tl l1 (c :: p) b).
Qed.

Lemma wp_checked ranges l c p b n (Q : turn -> lexer F -> Prop) :
  (1 <= length ranges <= 3)%nat ->
  (forall lo hi, (lo, hi) ∈ ranges -> 0 <= lo) ->
  reads l p b (n + 1) -> current l = uchar c ->
  match take_ranges ranges p with
  | Some (s, p') => forall l', reads l' p' (b ++ c :: s) (n + str_size (c :: s)) -> Q go_on l'
  | None => forall l', stopped (c :: p) n l' -> Q (return_ parse_error) l'
  end ->
  wp (checked (next_byte_in_range ranges)) l Q.
Proof.
  intros Hlen Hlo Hl Hc HQ. apply wp_bind, wp_bind, wp_massert; [unfold between; lia|].
  apply wp_bind, wp_mget, wp_bind. rewrite Hc. eapply wp_add; [done|].
  intros l1 Hl1 _ _. rewrite char_of_Z_uchar in Hl1. eapply (wp_next_bytes ranges l1); [done|done|].
  destruct (take_ranges ranges p) as [[s q]|].
  - intros l2 Hl2. apply wp_ret, HQ. rewrite <- app_assoc, <- Z.add_assoc in Hl2. by rewrite str_size_cons.
  - intros l2 Hl2. by apply wp_ret, HQ, stopped_cons.
Qed.

(** What a turn does with the text [p]: the bytes of a character, a string ended
    or an error. *)
Definition turn_post (p b : str) (n : Z) (r : turn) (l : lexer F) : Prop :=
  match r with
  | inl _ => exists t d p', p = t ++ p' /\ string_char t d /\ reads l p' (b ++ d) (n + str_size t)
  | inr value_string => exists p', p = quote :: p' /\ reads l p' b (n + 1)
  | inr t => t = parse_error /\ stopped p n l
  end.

Lemma take_ranges_sound ranges p s q :
  take_ranges ranges p = Some (s, q) -> p = s ++ q /\ Forall2 (fun r c => in_range r.1 r.2 c = true) ranges s.
Proof.
  revert p s q. induction ranges as [|[lo hi] ranges IH]; intros p s q E; simpl in E; [by simplify_eq|].
  destruct p as [|c p]; [done|]. destruct (in_range lo hi c) eqn:Ec; [|done].
  destruct (take_ranges ranges p) as [[s' q']|] eqn:Et; [|done]. simplify_eq.
  destruct (IH p s' q Et) as [-> Hf]. split; [done|]. by constructor.
Qed.

Lemma take_ranges_complete ranges s q :
  Forall2 (fun r c => in_range r.1 r.2 c = true) ranges s -> take_ranges ranges (s ++ q) = Some (s, q).
Proof. induction 1 as [|[lo hi] c ranges s Hc _ IH]; simpl in *; [done|]. by rewrite Hc, IH. Qed.

Lemma turn_multibyte ranges l c p b n :
  (1 <= length ranges <= 3)%nat ->
  (forall lo hi, (lo, hi) ∈ ranges -> 0 <= lo) -> 128 <= uchar c ->
  (forall s, Forall2 (fun r c => in_range r.1 r.2 c = true) ranges s -> utf8_char (c :: s)) ->
  reads l p b (n + 1) -> current l = uchar c ->
  wp (checked (next_byte_in_range ranges)) l (turn_post (c :: p) b n).
Proof.
  intros Hlen Hlo Hc Hu Hl Hcur. eapply wp_checked; [done..|].
  destruct (take_ranges ranges p) as [[s q]|] eqn:E; intros l' Hl'; [|done].
  apply take_ranges_sound in E as [-> Hs]. exists (c :: s), (c :: s), q. split; [done|]. split; [|done].
  apply char_plain; [auto|lia|..]; intros ->; vm_compute in Hc; congruence.
Qed.

Lemma pair_codepoint x y : high_surrogate x -> low_surrogate y ->
  wrap_u 32 (wrap_u 32 (Z.shiftl x 10) + y - 0x35FDC00) = 65536 + (x - 55296) * 1024 + (y - 56320).
Proof.
  unfold high_surrogate, low_surrogate, wrap_u. intros Hx Hy. rewrite Z.shiftl_mul_pow2 by lia.
  change (2 ^ 10) with 1024. rewrite (Z.mod_small (x * 1024)) by lia. rewrite Z.mod_small; lia.
Qed.

Lemma char_code c z : uchar c = z -> c = char_of_Z z.
Proof. intros <-. by rewrite char_of_Z_uchar. Qed.

Ltac sizes p := unfold str_size in *; rewrite ?length_app in *; simpl in *; rewrite ?length_app; simpl;
  first [lia | destruct p; simpl in *; lia].

(** After a backslash and [u]: [n] characters were read before the backslash. *)
Lemma turn_unicode l p b n :
  reads l p b (n + 2) -> current l = 117 -> wp scan_unicode_escape l (turn_post (backslash :: "u"%char :: p) b n).
Proof.
  intros Hl Hu. unfold scan_unicode_escape. apply wp_bind. eapply (wp_get_codepoint l p); [done|done|].
  assert (Hstop : forall q (l' : lexer F), stopped q (n + 2) l' -> (length q <= length p)%nat -> stopped (backslash :: "u"%char :: p) n l').
  { intros q l' (p1 & b1 & n1 & H1 & H2 & H3) Hq. exists p1, b1, n1. split; [done|].
    unfold str_size in *. simpl. lia. }
  assert (Herr : forall m (l' : lexer F) q b' k, reads l' q b' k -> (length q <= length p)%nat -> n + 2 < k <= n + 2 + str_size p + 1 ->
    wp (error m (return_ parse_error)) l' (turn_post (backslash :: "u"%char :: p) b n)).
  { intros m l' q b' k Hr Hq Hk. eapply wp_error; [done|]. intros l2 Hl2. split; [done|].
    eapply reads_stopped; [done|simpl; lia|]. rewrite !str_size_cons. lia. }
  destruct (hex_run 4 0 p) as [[cp p']|] eqn:E; intros l1 Hl1.
  2: { eapply wp_error_stopped; [done|]. intros l2 Hl2. split; [done|by eapply Hstop]. }
  apply hex_run_4 in E as (h & -> & Hh). pose proof (hex4_range _ _ Hh). pose proof (hex4_length _ _ Hh) as Hlen.
  rewrite (proj2 (Z.eqb_neq cp (-1))) by lia.
  assert (Hs : str_size h = 4) by (unfold str_size; lia).
  unfold between. wp_if Ehigh.
  - unbool. apply wp_bind. eapply wp_get; [done|]. intros l2 Hl2 _ _.
    destruct (Z.eqb_spec (head_code p') 92) as [E1|E1]; [|eapply Herr; [done|..]; sizes p'].
    destruct p' as [|c p']; [done|]. apply char_code in E1 as ->. change (char_of_Z 92) with backslash. cbn [tl] in Hl2.
    apply wp_bind. eapply wp_get; [done|]. intros l3 Hl3 Hu3 _.
    destruct (Z.eqb_spec (head_code p') 117) as [E2|E2]; [|eapply Herr; [done|..]; sizes p'].
    destruct p' as [|c p']; [done|]. apply char_code in E2 as ->. change (char_of_Z 117) with "u"%char. cbn [tl] in Hl3.
    apply wp_bind. eapply (wp_get_codepoint l3 p'); [done|done|].
    destruct (hex_run 4 0 p') as [[cp2 p2]|] eqn:E3; intros l4 Hl4.
    2: { destruct Hl4 as (p4 & b4 & n4 & Hl4 & ? & ?). eapply Herr; [done|..]; sizes p'. }
    apply hex_run_4 in E3 as (h2 & -> & Hh2). pose proof (hex4_range _ _ Hh2). pose proof (hex4_length _ _ Hh2) as Hlen2.
    rewrite (proj2 (Z.eqb_neq cp2 (-1))) by lia.
    wp_if Elow; [|eapply Herr; [done|..]; sizes p2]. unbool.
    apply wp_bind. rewrite pair_codepoint by (unfold high_surrogate, low_surrogate; lia).
    eapply wp_add_codepoint; [lia|done|]. intros l5 Hl5. apply wp_ret. simpl.
    exists (backslash :: "u"%char :: h ++ backslash :: "u"%char :: h2). eexists _, p2. split; [|split].
    + by rewrite <- !app_comm_cons, <- app_assoc.
    + by apply char_pair.
    + replace (n + _) with (n + 2 + 4 + 1 + 1 + 4); [done|]. sizes p2.
  - wp_if Elow; [eapply Herr; [done|..]; sizes p'|].
    apply wp_bind. eapply wp_add_codepoint; [lia|done|]. intros l2 Hl2. apply wp_ret. simpl.
    exists (backslash :: "u"%char :: h), (utf8_encode cp), p'. split; [done|]. split.
    + apply char_unicode; [done|unfold high_surrogate; lia|unfold low_surrogate; lia].
    + replace (n + _) with (n + 2 + 4); [done|]. sizes p'.
Qed.

Lemma turn_short c d l p b n code :
  short_escape c = Some d -> char_of_Z code = d -> reads l p b (n + 2) ->
  wp (do* add code in mret go_on) l (turn_post (backslash :: c :: p) b n).
Proof.
  intros Hs <- Hl. apply wp_bind. eapply wp_add; [done|]. intros l1 Hl1 _ _. apply wp_ret.
  exists [backslash; c], [char_of_Z code], p. split; [done|]. split; [by apply char_short|done].
Qed.

Lemma turn_escape l p b n :
  reads l p b (n + 1) -> wp scan_escape l (turn_post (backslash :: p) b n).
Proof.
  intros Hl. apply wp_bind. eapply wp_get; [done|]. intros l1 Hl1 Hc1 _.
  assert (Hbad : wp (error (lit "invalid string: forbidden character after backslash") (return_ parse_error)) l1
    (turn_post (backslash :: p) b n)).
  { eapply wp_error; [done|]. intros l2 Hl2. split; [done|]. apply stopped_cons. by apply (reads_stopped_tl l2 p b). }
  destruct p as [|c p]; [done|]. cbn [head_code tl] in *. replace (n + 1 + 1) with (n + 2) in Hl1 by lia.
  repeat (match goal with |- wp (if ?b then _ else _) _ _ => destruct b eqn:? end;
    [unbool; match goal with E : uchar c = _ |- _ => apply char_code in E; subst c end;
     (eapply turn_short; [vm_compute; reflexivity|reflexivity|exact Hl1]) || (apply turn_unicode; [exact Hl1|exact Hc1])|]).
  done.
Qed.

Ltac turn_range := apply turn_multibyte;
  [simpl; lia|intros lo hi; rewrite ?elem_of_cons, ?elem_of_nil; intros; naive_solver lia|unfold between in *; unbool; lia| |eassumption|assumption];
  intros s Hs; repeat match goal with Hs : Forall2 _ _ _ |- _ => inversion_clear Hs end; simpl in *;
  first [by apply utf8_2|by apply utf8_3a|by apply utf8_3b|by apply utf8_3c|by apply utf8_4a|by apply utf8_4b|by apply utf8_4c].

Lemma turn_inverse l p b n : reads l p b n -> wp scan_string_turn l (turn_post p b n).
Proof.
  intros Hl. apply wp_bind. eapply wp_get; [done|]. intros l1 Hl1 Hcur _.
  assert (Hbad : forall m, wp (error m (return_ parse_error)) l1 (turn_post p b n)).
  { intros m. eapply wp_error; [done|]. intros l2 Hl2. split; [done|by apply (reads_stopped_tl l2 p b)]. }
  destruct p as [|c p]; [apply Hbad|]. cbn [head_code tl] in *. pose proof (uchar_range c).
  rewrite (proj2 (Z.eqb_neq (uchar c) eof)) by (unfold eof; lia).
  destruct (Z.eqb_spec (uchar c) 34) as [E|Hq]; [apply char_code in E as ->; by apply wp_ret; exists p|].
  destruct (Z.eqb_spec (uchar c) 92) as [E|Hb]; [apply char_code in E as ->; by apply turn_escape|].
  wp_if E; [apply Hbad|]. wp_if E1.
  { unfold between in *. unbool. apply wp_bind. eapply wp_add; [done|]. intros l2 Hl2 _ _. apply wp_ret.
    rewrite char_of_Z_uchar in Hl2. exists [c], [c], p. split; [done|]. split; [|done].
    apply char_plain; [apply utf8_1; unfold in_range; lia|lia|..]; intros ->; by vm_compute in Hq, Hb. }
  do 7 (match goal with |- wp (if ?b then _ else _) _ _ => destruct b eqn:? end; [turn_range|]).
  apply Hbad.
Qed.

(** Every character of the grammar is read. *)
Definition turn_done (p b : str) (n : Z) (r : turn) (l : lexer F) : Prop := r = go_on /\ reads l p b n.

Lemma forward_multibyte ranges l c s p b n :
  (1 <= length ranges <= 3)%nat ->
  (forall lo hi, (lo, hi) ∈ ranges -> 0 <= lo) ->
  Forall2 (fun r c => in_range r.1 r.2 c = true) ranges s ->
  reads l (s ++ p) b (n + 1) -> current l = uchar c ->
  wp (checked (next_byte_in_range ranges)) l (turn_done p (b ++ c :: s) (n + str_size (c :: s))).
Proof.
  intros Hlen Hlo Hs Hl Hcur. eapply wp_checked; [done..|]. by rewrite take_ranges_complete.
Qed.

Ltac forward_range Hl1 :=
  repeat match goal with
         | |- wp (if ?b then _ else _) _ _ =>
             destruct b eqn:?; [try (exfalso; unfold between, in_range in *; lia)|try (exfalso; unfold between, in_range in *; lia)]
         end;
  apply forward_multibyte;
  [simpl; lia|intros lo hi; rewrite ?elem_of_cons, ?elem_of_nil; intros; naive_solver lia|by repeat constructor|exact Hl1|assumption].

Lemma forward_plain c s l p b n :
  utf8_char (c :: s) -> 32 <= uchar c -> c <> quote -> c <> backslash -> reads l (c :: s ++ p) b n ->
  wp scan_string_turn l (turn_done p (b ++ c :: s) (n + str_size (c :: s))).
Proof.
  intros Hu H32 Hq Hb Hl. apply wp_bind. eapply wp_get; [done|]. intros l1 Hl1 Hcur _. cbn [head_code tl] in *.
  assert (uchar c <> 34) by (intros E; apply Hq; by apply char_code in E).
  assert (uchar c <> 92) by (intros E; apply Hb; by apply char_code in E).
  rewrite (proj2 (Z.eqb_neq (uchar c) eof)), (proj2 (Z.eqb_neq (uchar c) 34)), (proj2 (Z.eqb_neq (uchar c) 92))
    by (unfold eof; lia).
  unfold between at 1. rewrite (proj2 (Z.leb_gt (uchar c) 31)), andb_false_r by lia.
  inversion Hu; subst; try (by forward_range Hl1).
  wp_if E; [|exfalso; unfold between, in_range in *; lia].
  apply wp_bind. eapply wp_add; [done|]. intros l2 Hl2 _ _. apply wp_ret. by rewrite char_of_Z_uchar in Hl2.
Qed.

Lemma forward_backslash l p b n (Q : turn -> lexer F -> Prop) :
  reads l (backslash :: p) b n -> (forall l', reads l' p b (n + 1) -> wp scan_escape l' Q) ->
  wp scan_string_turn l Q.
Proof. intros Hl HQ. apply wp_bind. eapply wp_get; [done|]. intros l1 Hl1 _ _. by apply HQ. Qed.

Lemma forward_short c d l p b n :
  short_escape c = Some d -> reads l (backslash :: c :: p) b n ->
  wp scan_string_turn l (turn_done p (b ++ [d]) (n + 2)).
Proof.
  intros Hd Hl. eapply forward_backslash; [done|]. clear l Hl. intros l Hl.
  apply wp_bind. eapply wp_get; [done|]. intros l2 Hl2 _ _. cbn [head_code tl] in *.
  replace (n + 1 + 1) with (n + 2) in Hl2 by lia. unfold short_escape in Hd.
  repeat (match type of Hd with context [Ascii.eqb ?x ?y] => destruct (Ascii.eqb_spec x y) end;
    [subst; injection Hd as <-; apply wp_bind; eapply wp_add; [done|]; intros l3 Hl3 _ _; by apply wp_ret|]).
  done.
Qed.

Lemma forward_u l p b n (Q : turn -> lexer F -> Prop) :
  reads l (backslash :: "u"%char :: p) b n -> (forall l', reads l' p b (n + 2) -> current l' = 117 -> wp scan_unicode_escape l' Q) ->
  wp scan_string_turn l Q.
Proof.
  intros Hl HQ. eapply forward_backslash; [done|]. intros l1 Hl1. apply wp_bind. eapply wp_get; [done|].
  intros l2 Hl2 Hu _. apply HQ; [|done]. by replace (n + 1 + 1) with (n + 2) in Hl2 by lia.
Qed.

(** The four digits of a [\u] escape. *)
Lemma forward_codepoint h cp l p b n (Q : Z -> lexer F -> Prop) :
  hex4 h cp -> reads l (h ++ p) b n -> current l = 117 -> (forall l', reads l' p b (n + 4) -> Q cp l') ->
  wp get_codepoint l Q.
Proof.
  intros Hh Hl Hc HQ. eapply wp_get_codepoint; [done|done|].
  by rewrite (proj2 (hex_run_4 (h ++ p) cp p)) by by exists h.
Qed.

Lemma forward_unicode h cp l p b n :
  hex4 h cp -> ~ high_surrogate cp -> ~ low_surrogate cp -> reads l (backslash :: "u"%char :: h ++ p) b n ->
  wp scan_string_turn l (turn_done p (b ++ utf8_encode cp) (n + 6)).
Proof.
  intros Hh H1 H2 Hl. eapply forward_u; [done|]. clear l Hl. intros l Hl Hc. apply wp_bind.
  eapply forward_codepoint; [done..|]. intros l1 Hl1. pose proof (hex4_range _ _ Hh).
  rewrite (proj2 (Z.eqb_neq cp (-1))) by lia. unfold high_surrogate, low_surrogate, between in *.
  wp_if E1; [lia|]. wp_if E2; [lia|]. apply wp_bind. eapply wp_add_codepoint; [lia|done|]. intros l2 Hl2.
  apply wp_ret. split; [done|]. by replace (n + 6) with (n + 2 + 4) by lia.
Qed.

Lemma forward_pair h cp h' cp' l p b n :
  hex4 h cp -> high_surrogate cp -> hex4 h' cp' -> low_surrogate cp' ->
  reads l (backslash :: "u"%char :: h ++ backslash :: "u"%char :: h' ++ p) b n ->
  wp scan_string_turn l (turn_done p (b ++ utf8_encode (65536 + (cp - 55296) * 1024 + (cp' - 56320))) (n + 12)).
Proof.
  intros Hh H1 Hh' H2 Hl. eapply forward_u; [done|]. clear l Hl. intros l Hl Hc. apply wp_bind.
  eapply (forward_codepoint h cp); [done..|]. clear l Hl Hc. intros l Hl. pose proof H1 as H3. pose proof H2 as H4.
  unfold high_surrogate, low_surrogate in H3, H4.
  rewrite (proj2 (Z.eqb_neq cp (-1))) by lia. wp_if E1; [|unfold between in *; lia].
  apply wp_bind. eapply wp_get; [done|]. clear l Hl. intros l Hl _ _.
  change (head_code (backslash :: "u"%char :: h' ++ p) =? 92) with true. cbv iota.
  apply wp_bind. eapply wp_get; [done|]. clear l Hl. intros l Hl Hc _. cbn [head_code tl] in *.
  change (uchar "u" =? 117) with true. cbv iota.
  apply wp_bind. eapply (forward_codepoint h' cp'); [done..|]. clear l Hl Hc. intros l Hl.
  rewrite (proj2 (Z.eqb_neq cp' (-1))) by lia. wp_if E2; [|unfold between in *; lia].
  rewrite pair_codepoint by done. apply wp_bind. eapply wp_add_codepoint; [lia|done|]. clear l Hl. intros l Hl.
  apply wp_ret. split; [done|]. by replace (n + 12) with (n + 2 + 4 + 1 + 1 + 4) by lia.
Qed.

Lemma turn_forward t d l p b n :
  string_char t d -> reads l (t ++ p) b n ->
  wp scan_string_turn l (turn_done p (b ++ d) (n + str_size t)).
Proof.
  intros Ht Hl. destruct Ht as [c s Hu H32 Hq Hb|c d Hd|h cp Hh H1 H2|h cp h' cp' Hh H1 Hh' H2].
  - by apply forward_plain.
  - by eapply forward_short.
  - pose proof (hex4_length _ _ Hh). replace (str_size _) with 6 by (unfold str_size; simpl; lia).
    by eapply forward_unicode.
  - pose proof (hex4_length _ _ Hh). pose proof (hex4_length _ _ Hh').
    replace (str_size _) with 12 by (unfold str_size; simpl; rewrite length_app; simpl; lia).
    simpl in Hl. rewrite <- app_assoc in Hl. by eapply forward_pair.
Qed.

(** *** Whole strings *)

Lemma string_char_nonempty t d : string_char t d -> t <> [].
Proof. by destruct 1. Qed.

Lemma string_body_snoc b s t d : string_body b s -> string_char t d -> string_body (b ++ t) (s ++ d).
Proof.
  induction 1 as [|t' d' b s Ht' Hb IH]; intros Ht.
  - pose proof (body_cons t d [] [] Ht body_nil) as Hb. by rewrite !app_nil_r in Hb.
  - rewrite <- !app_assoc. apply body_cons; auto.
Qed.

(** What [scan_string] returns and leaves after the opening quote. *)
Definition string_post (p : str) (n : Z) (t : token_type) (l : lexer F) : Prop :=
  (t = value_string /\ exists body s p', p = body ++ quote :: p' /\ string_body body s /\
     reads l p' s (n + str_size body + 1)) \/
  (t = parse_error /\ stopped p n l).

Lemma wp_scan_string_inverse l p b n :
  reads l p b n -> current l = 34 -> wp scan_string l (string_post p n).
Proof.
  intros Hl Hc. apply wp_bind. eapply wp_reset; [done|]. intros l1 Hl1 Hc1 _. apply wp_bind, wp_massert; [by rewrite Hc1, Hc|].
  apply wp_bind, wp_mget. rewrite (reads_rest _ _ _ _ Hl1).
  apply (wp_while (fun _ l => exists body s p', p = body ++ p' /\ string_body body s /\ reads l p' s (n + str_size body))
    (fun _ l => length (rest l))).
  - intros _ l2 (body & s & p' & -> & Hb & Hl2). eapply wp_mono; [by apply turn_inverse|].
    intros [[]|t] l3; simpl.
    + intros (t & d & p2 & -> & Ht & Hl3). split.
      * exists (body ++ t), (s ++ d), p2. rewrite app_assoc, str_size_app, Z.add_assoc.
        split; [done|]. split; [by apply string_body_snoc|done].
      * rewrite (reads_rest _ _ _ _ Hl2), (reads_rest _ _ _ _ Hl3), length_app.
        apply string_char_nonempty in Ht. destruct t; [done|]. simpl. lia.
    + destruct (decide (t = value_string)) as [->|Hne].
      * intros (p2 & -> & Hl3). left. split; [done|]. by exists body, s, p2.
      * intros Hp. right. assert (t = parse_error /\ stopped p' (n + str_size body) l3) as [-> Hs] by by destruct t.
        split; [done|by apply stopped_app].
  - exists [], [], p. rewrite Z.add_0_r. split; [done|]. split; [constructor|done].
  - rewrite (reads_rest _ _ _ _ Hl1). lia.
Qed.

Lemma wp_scan_string_forward (l : lexer F) body s p b n :
  string_body body s -> reads l (body ++ quote :: p) b n -> current l = 34 ->
  wp scan_string l (fun t (l' : lexer F) => t = value_string /\ reads l' p s (n + str_size body + 1)).
Proof.
  intros Hbody Hl Hc. apply wp_bind. eapply wp_reset; [done|]. intros l1 Hl1 Hc1 _.
  apply wp_bind, wp_massert; [by rewrite Hc1, Hc|].
  apply wp_bind, wp_mget. rewrite (reads_rest _ _ _ _ Hl1). clear l b Hl Hc Hc1.
  change s with ([] ++ s). generalize dependent ([] : str). generalize dependent n.
  assert (Hfuel : (length (body ++ quote :: p) <= length (body ++ quote :: p))%nat) by done. revert Hfuel.
  generalize (length (body ++ quote :: p)) at 2 3 as fuel.
  revert l1. induction Hbody as [|t d body s Ht Hb IH]; intros l1 fuel Hfuel n b Hl1; simpl.
  - apply wp_bind, wp_bind. eapply wp_get; [done|]. intros l2 Hl2 _ _. cbn [head_code tl] in *.
    apply wp_ret, wp_ret. rewrite app_nil_r, Z.add_0_r. done.
  - apply string_char_nonempty in Ht as Hne. rewrite <- app_assoc in Hl1, Hfuel.
    apply wp_bind. eapply wp_mono; [by eapply turn_forward|]. intros r l2 [-> Hl2]. simpl.
    destruct fuel as [|fuel]; [rewrite !length_app in Hfuel; simpl in Hfuel; lia|].
    specialize (IH l2 fuel). rewrite str_size_app, (app_assoc b), (Z.add_assoc n). apply IH; [|done].
    rewrite !length_app in *. destruct t; [done|]. simpl in *. lia.
Qed.

(** The strings read are UTF-8. *)
Lemma string_char_utf8 t d : string_char t d -> utf8_char d.
Proof.
  destruct 1 as [c s Hu _ _ _|c d Hd|h cp Hh H1 H2|h cp h' cp' Hh H1 Hh' H2]; [done|..].
  - unfold short_escape in Hd. repeat case_match; simplify_eq; by apply utf8_1.
  - apply utf8_encode_char; [|done..]. apply hex4_range in Hh. lia.
  - apply utf8_encode_char; unfold high_surrogate, low_surrogate in *; lia.
Qed.

Lemma string_body_utf8 b s : string_body b s -> utf8 s.
Proof.
  induction 1 as [|t d b s Ht _ (cs & Hcs & <-)]; [by exists []|].
  exists (d :: cs). split; [|done]. constructor; [by eapply string_char_utf8|done].
Qed.

End strings.
