(* ===== verification/JsonNumbers.v ===== *)
(** * The number scanner reads the numbers of the grammar

    The labels of [scan_number] as an automaton, its runs against the parts of a
    number, and the conversion of the collected text. *)
From stdpp Require Import prelude strings list.
From Stdlib Require Import Ascii ZArith Lia.
From S2P Require Import Prelude CxxLib CxxMap Json JsonFacts JsonLexer JsonGrammar JsonWp JsonStrings.

Local Open Scope Z_scope.
Local Open Scope json_scope.

(** ** Numbers *)

Section numbers.
Context {F : Type} `{CFloat F}.

(** From a label, the next one and the character added, by the character read;
    [None] is an error. *)
Definition num_next (label : number_label) (nt : token_type) (c : Z) :
    option (number_label * token_type * option Z) :=
  match label with
  | scan_number_minus =>
      if c =? 48 then Some (scan_number_zero, value_integer, Some c)
      else if between 49 57 c then Some (scan_number_any1, value_integer, Some c) else None
  | scan_number_zero =>
      if c =? 46 then Some (scan_number_decimal1, nt, Some (uchar get_decimal_point))
      else if (c =? 101) || (c =? 69) then Some (scan_number_exponent, nt, Some c)
      else Some (scan_number_done, nt, None)
  | scan_number_any1 =>
      if digit c then Some (scan_number_any1, nt, Some c)
      else if c =? 46 then Some (scan_number_decimal1, nt, Some (uchar get_decimal_point))
      else if (c =? 101) || (c =? 69) then Some (scan_number_exponent, nt, Some c)
      else Some (scan_number_done, nt, None)
  | scan_number_decimal1 => if digit c then Some (scan_number_decimal2, value_float, Some c) else None
  | scan_number_decimal2 =>
      if digit c then Some (scan_number_decimal2, nt, Some c)
      else if (c =? 101) || (c =? 69) then Some (scan_number_exponent, nt, Some c)
      else Some (scan_number_done, nt, None)
  | scan_number_exponent =>
      if (c =? 43) || (c =? 45) then Some (scan_number_sign, value_float, Some c)
      else if digit c then Some (scan_number_any2, value_float, Some c) else None
  | scan_number_sign => if digit c then Some (scan_number_any2, nt, Some c) else None
  | scan_number_any2 => if digit c then Some (scan_number_any2, nt, Some c) else Some (scan_number_done, nt, None)
  | scan_number_done => None
  end.

(** The run from a label: the type of the number, what goes into the buffer and
    what follows the number. *)
Fixpoint num_run (label : number_label) (nt : token_type) (p : str) : option (token_type * str * str) :=
  match num_next label nt (head_code p) with
  | None => None
  | Some (label', nt', None) => Some (nt', [], p)
  | Some (label', nt', Some a) =>
      match p with
      | [] => None
      | _ :: p' =>
          match num_run label' nt' p' with
          | Some (t, s, q) => Some (t, char_of_Z a :: s, q)
          | None => None
          end
      end
  end.

(** At the end of the text nothing is added. *)
Lemma num_next_eof label nt label' nt' a : num_next label nt eof <> Some (label', nt', Some a).
Proof. by destruct label. Qed.

(** Only the label [done] adds nothing, and it is not left. *)
Lemma num_next_done label nt c label' nt' :
  num_next label nt c = Some (label', nt', None) -> label' = scan_number_done.
Proof. destruct label; simpl; repeat case_match; congruence. Qed.

Lemma num_next_not_done label nt c label' nt' a :
  num_next label nt c = Some (label', nt', Some a) -> label' <> scan_number_done.
Proof. destruct label; simpl; repeat case_match; congruence. Qed.

Lemma wp_scan_number_from label nt l p b n (Q : _ -> lexer F -> Prop) :
  label <> scan_number_done -> reads l p b n ->
  match num_next label nt (head_code p) with
  | None => forall l', reads l' (tl p) b (n + 1) -> Q (inr None) l'
  | Some (label', nt', None) =>
      forall l', reads l' (tl p) b (n + 1) -> current l' = head_code p -> next_unget l' = false ->
        Q (inl (label', nt')) l'
  | Some (label', nt', Some a) =>
      forall l', reads l' (tl p) (b ++ [char_of_Z a]) (n + 1) -> Q (inl (label', nt')) l'
  end ->
  wp (scan_number_from label nt) l Q.
Proof.
  intros Hlabel Hl HQ. unfold scan_number_from.
  destruct label; try done; apply wp_bind; (eapply wp_get; [exact Hl|]); intros l1 Hl1 Hc Hu; simpl in HQ;
    repeat match goal with
           | |- wp (if ?t then _ else _) _ _ => let E := fresh in destruct t eqn:E; rewrite ?E in HQ; clear E
           | |- wp (mbind_ (add _) _) _ _ =>
               apply wp_bind; eapply wp_add; [exact Hl1|]; intros l2 Hl2 _ _
           end; (apply wp_ret; by apply HQ) || (eapply wp_error; [exact Hl1|by apply HQ]).
Qed.

(** The loop: [n] characters read before [p]; the character after the number
    has been read too. *)
Lemma wp_number_loop fuel label nt l p b n (Q : option token_type -> lexer F -> Prop) :
  label <> scan_number_done -> reads l p b n -> (length p + 1 < fuel)%nat ->
  match num_run label nt p with
  | Some (t, s, q) =>
      forall l' k, reads l' (tl q) (b ++ s) (k + 1) -> k + str_size q = n + str_size p ->
        current l' = head_code q -> next_unget l' = false -> Q (Some t) l'
  | None => forall l', stopped p n l' -> Q None l'
  end ->
  wp (while_ fuel (fun '(label, nt) => scan_number_from label nt) (label, nt)) l Q.
Proof.
  revert label nt l p b n. induction fuel as [|fuel IH]; intros label nt l p b n Hlabel Hl Hf HQ; [lia|].
  cbn [while_]. apply wp_bind. eapply wp_scan_number_from; [done|done|].
  destruct p as [|c p].
  - cbn [num_run head_code] in *. change (head_code []) with eof in *.
    destruct (num_next label nt eof) as [[[label' nt'] [a|]]|] eqn:E.
    + by apply num_next_eof in E.
    + intros l1 Hl1 Hc Hu. apply num_next_done in E as ->. destruct fuel; [simpl in Hf; lia|].
      simpl. apply wp_bind, wp_ret, wp_ret. apply (HQ l1 n); [by rewrite app_nil_r|done..].
    + intros l1 Hl1. apply wp_ret, HQ. by apply (reads_stopped_tl l1 [] b).
  - cbn [num_run] in HQ. destruct (num_next label nt (head_code (c :: p))) as [[[label' nt'] [a|]]|] eqn:E.
    + intros l1 Hl1. apply num_next_not_done in E. cbn [tl] in Hl1. eapply (IH label' nt' l1 p); [done|done|simpl in Hf; lia|].
      destruct (num_run label' nt' p) as [[[t s] q]|].
      * intros l2 k Hl2 Hk. apply (HQ l2 k); [by rewrite <- app_assoc in Hl2|]. rewrite str_size_cons. lia.
      * intros l2 Hl2. by apply HQ, stopped_cons.
    + intros l1 Hl1 Hc Hu. apply num_next_done in E as ->. destruct fuel; [simpl in Hf; lia|].
      simpl. apply wp_bind, wp_ret, wp_ret. apply (HQ l1 n); [by rewrite app_nil_r|done..].
    + intros l1 Hl1. apply wp_ret, HQ. by apply (reads_stopped_tl l1 (c :: p) b).
Qed.
(** *** The automaton against the parts of a number *)

Definition not_digit (p : str) : Prop := match p with [] => True | c :: _ => is_digit c = false end.
Definition no_exponent (p : str) : Prop := match p with [] => True | c :: _ => c <> "e"%char /\ c <> "E"%char end.
Definition no_point (p : str) : Prop := match p with [] => True | c :: _ => c <> "."%char end.

Lemma digit_is_digit c : digit (uchar c) = is_digit c.
Proof. done. Qed.

Lemma run_step label nt c p t s q label' nt' a :
  num_next label nt (uchar c) = Some (label', nt', Some a) ->
  num_run label nt (c :: p) = Some (t, s, q) <->
  exists s', s = char_of_Z a :: s' /\ num_run label' nt' p = Some (t, s', q).
Proof.
  intros E. cbn [num_run head_code]. rewrite E.
  destruct (num_run label' nt' p) as [[[t' s'] q']|]; naive_solver.
Qed.

Lemma run_stop label nt p t s q label' nt' :
  num_next label nt (head_code p) = Some (label', nt', None) ->
  num_run label nt p = Some (t, s, q) <-> t = nt' /\ s = [] /\ q = p.
Proof. intros E. destruct p; cbn [num_run]; rewrite E; naive_solver. Qed.

Lemma run_error label nt p : num_next label nt (head_code p) = None -> num_run label nt p = None.
Proof. intros E. destruct p; cbn [num_run]; by rewrite E. Qed.

Lemma uchar_neq c d : c <> d -> (uchar c =? uchar d) = false.
Proof. intros Hne. apply Z.eqb_neq. intros E. by apply Hne, uchar_inj. Qed.

(** Digits, then a label that stops. *)
Lemma run_any2 nt p t s q :
  num_run scan_number_any2 nt p = Some (t, s, q) <->
  t = nt /\ p = s ++ q /\ forallb is_digit s = true /\ not_digit q.
Proof.
  revert s. induction p as [|c p IH]; intros s.
  { rewrite run_stop by done. split; [by intros (-> & -> & ->)|]. intros (-> & E & _).
    symmetry in E. apply app_eq_nil in E as [-> ->]. done. }
  destruct (is_digit c) eqn:Ec.
  - rewrite (run_step _ _ _ _ _ _ _ scan_number_any2 nt (uchar c)) by (simpl; by rewrite digit_is_digit, Ec).
    rewrite char_of_Z_uchar. setoid_rewrite IH. split.
    + intros (s' & -> & -> & -> & Hs & Hq). simpl. by rewrite Ec.
    + intros (-> & E & Hs & Hq). destruct s as [|d s]; [destruct q; simplify_eq/=; congruence|].
      simplify_eq/=. apply andb_prop in Hs as [_ Hs]. by exists s.
  - rewrite run_stop by (simpl; by rewrite digit_is_digit, Ec). split; [by intros (-> & -> & ->)|].
    intros (-> & E & Hs & Hq). destruct s as [|d s]; [done|]. simplify_eq/=. by rewrite Ec in Hs.
Qed.

Lemma digits_cons c s : digits (c :: s) <-> is_digit c = true /\ forallb is_digit s = true.
Proof. unfold digits. simpl. rewrite andb_true_iff. naive_solver. Qed.

(** A label that wants a digit first. *)
Lemma run_digit_first label label' nt nt' p t s q :
  (forall c, num_next label nt c = if digit c then Some (label', nt', Some c) else None) ->
  num_run label nt p = Some (t, s, q) <->
  exists c p' s', p = c :: p' /\ s = c :: s' /\ is_digit c = true /\ num_run label' nt' p' = Some (t, s', q).
Proof.
  intros Hn. destruct p as [|c p]; [rewrite run_error by (by rewrite Hn); naive_solver|].
  destruct (is_digit c) eqn:Ec.
  - rewrite (run_step _ _ _ _ _ _ _ label' nt' (uchar c)) by by rewrite Hn, digit_is_digit, Ec.
    rewrite char_of_Z_uchar. naive_solver.
  - rewrite run_error by (simpl; by rewrite Hn, digit_is_digit, Ec). split; [done|].
    intros (c' & p' & s' & [= <- <-] & _ & E & _). congruence.
Qed.

Lemma run_sign nt p t s q :
  num_run scan_number_sign nt p = Some (t, s, q) <-> t = nt /\ p = s ++ q /\ digits s /\ not_digit q.
Proof.
  rewrite (run_digit_first _ scan_number_any2 _ nt) by done. setoid_rewrite run_any2. split.
  - intros (c & p' & s' & -> & -> & Hc & -> & -> & Hs & Hq). by rewrite digits_cons.
  - intros (-> & -> & Hs & Hq). destruct s as [|c s]; [by destruct Hs|]. apply digits_cons in Hs as [Hc Hs].
    by exists c, (s ++ q), s.
Qed.

Definition exponent_part (s : str) : Prop :=
  exists sg d, s = sg ++ d /\ (sg = [] \/ sg = lit "+" \/ sg = lit "-") /\ digits d.

Lemma sign_code c : (uchar c =? 43) || (uchar c =? 45) = true <-> c = "+"%char \/ c = "-"%char.
Proof.
  rewrite orb_true_iff, !Z.eqb_eq. split; [|intros [->| ->]; auto].
  intros [E|E]; apply char_code in E; auto.
Qed.

Lemma run_exponent nt p t s q :
  num_run scan_number_exponent nt p = Some (t, s, q) <->
  t = value_float /\ p = s ++ q /\ exponent_part s /\ not_digit q.
Proof.
  destruct p as [|c p].
  { rewrite run_error by done. split; [done|]. intros (_ & E & (sg & d & -> & _ & Hd & _) & _).
    symmetry in E. apply app_eq_nil in E as [[_ ->]%app_eq_nil _]. done. }
  destruct ((uchar c =? 43) || (uchar c =? 45)) eqn:Esign.
  - rewrite (run_step _ _ _ _ _ _ _ scan_number_sign value_float (uchar c)) by (simpl; by rewrite Esign).
    apply sign_code in Esign. rewrite char_of_Z_uchar. setoid_rewrite run_sign. split.
    + intros (s' & -> & -> & -> & Hs & Hq). split_and!; try done. exists [c], s'. split; [done|]. split; [|done].
      destruct Esign as [->| ->]; auto.
    + intros (-> & E & (sg & d & -> & Hsg & Hd) & Hq). exists d.
      destruct Hsg as [->|[->| ->]]; simplify_eq/=; [|done..].
      destruct d as [|c' d]; [by destruct Hd|]. apply digits_cons in Hd as [Hd _]. simplify_eq/=.
      by destruct Esign as [->| ->].
  - destruct (is_digit c) eqn:Ec.
    + rewrite (run_step _ _ _ _ _ _ _ scan_number_any2 value_float (uchar c)) by (simpl; by rewrite Esign, digit_is_digit, Ec).
      rewrite char_of_Z_uchar. setoid_rewrite run_any2. split.
      * intros (s' & -> & -> & -> & Hs & Hq). split_and!; try done. exists [], (c :: s').
        split; [done|]. split; [by left|]. by apply digits_cons.
      * intros (-> & E & (sg & d & -> & Hsg & Hd) & Hq).
        destruct Hsg as [->|[->| ->]]; simplify_eq/=; [|done..].
        destruct d as [|c' d]; [by destruct Hd|]. apply digits_cons in Hd as [_ Hd]. simplify_eq/=. by exists d.
    + rewrite run_error by (simpl; by rewrite Esign, digit_is_digit, Ec). split; [done|].
      intros (-> & E & (sg & d & -> & Hsg & Hd) & Hq). destruct Hsg as [->|[->| ->]]; simplify_eq/=; [|done..].
      destruct d as [|c' d]; [by destruct Hd|]. apply digits_cons in Hd as [Hd _]. simplify_eq/=. congruence.
Qed.

(** What may come after the digits: [x], an exponent or nothing, before [q]. *)
Definition exponent_tail (x q : str) : Prop :=
  (x = [] /\ no_exponent q) \/
  (exists c s, x = c :: s /\ (c = "e"%char \/ c = "E"%char) /\ exponent_part s /\ not_digit q).

Definition tail_type (x : str) (nt : token_type) : token_type := match x with [] => nt | _ :: _ => value_float end.

Lemma exponent_code c : (uchar c =? 101) || (uchar c =? 69) = true <-> c = "e"%char \/ c = "E"%char.
Proof.
  rewrite orb_true_iff, !Z.eqb_eq. split; [|intros [->| ->]; auto].
  intros [E|E]; apply char_code in E; auto.
Qed.

Lemma no_exponent_code q :
  no_exponent q <-> (head_code q =? 101) || (head_code q =? 69) = false.
Proof.
  destruct q as [|c q]; [done|]. simpl. rewrite <- not_true_iff_false, exponent_code. naive_solver.
Qed.

(** A label that goes to the exponent on its letter and stops otherwise. *)
Lemma run_exponent_or_stop label nt p t s q :
  num_next label nt (head_code p) =
    (if (head_code p =? 101) || (head_code p =? 69) then Some (scan_number_exponent, nt, Some (head_code p))
     else Some (scan_number_done, nt, None)) ->
  num_run label nt p = Some (t, s, q) <-> p = s ++ q /\ exponent_tail s q /\ t = tail_type s nt.
Proof.
  intros Hn. destruct ((head_code p =? 101) || (head_code p =? 69)) eqn:E.
  - destruct p as [|c p]; [done|]. cbn [head_code] in *. apply exponent_code in E as Hc.
    rewrite (run_step _ _ _ _ _ _ _ _ _ _ Hn), char_of_Z_uchar. setoid_rewrite run_exponent. split.
    + intros (s' & -> & -> & -> & Hs & Hq). split; [done|]. split; [|done]. right. by exists c, s'.
    + intros (Ep & [[-> Hq]|(c' & s' & -> & Hc' & Hs & Hq)] & ->).
      * simpl in Ep. subst q. apply no_exponent_code in Hq. simpl in Hq. congruence.
      * simplify_eq/=. by exists s'.
  - rewrite (run_stop _ _ _ _ _ _ _ _ Hn). split.
    + intros (-> & -> & ->). split; [done|]. split; [|done]. left. split; [done|]. by apply no_exponent_code.
    + intros (-> & [[-> Hq]|(c' & s' & -> & Hc' & _)] & ->); [done|]. simpl in E.
      apply exponent_code in Hc'. congruence.
Qed.

Lemma digit_not_exponent c : is_digit c = true -> (uchar c =? 101) || (uchar c =? 69) = false.
Proof. unfold is_digit. intros Hc. unbool. apply orb_false_intro; apply Z.eqb_neq; lia. Qed.

Lemma exponent_tail_not_digit c x q : is_digit c = true -> ~ exponent_tail (c :: x) q.
Proof.
  intros Hc [[? _]|(c' & s & [= <- <-] & He & _)]; [done|]. by destruct He as [->| ->].
Qed.

Lemma run_decimal2 nt p t s q :
  num_run scan_number_decimal2 nt p = Some (t, s, q) <->
  exists f x, s = f ++ x /\ p = f ++ x ++ q /\ forallb is_digit f = true /\ not_digit (x ++ q) /\
    exponent_tail x q /\ t = tail_type x nt.
Proof.
  revert s. induction p as [|c p IH]; intros s.
  { rewrite run_exponent_or_stop by done. split.
    - intros (E & He & ->). exists [], s. symmetry in E. apply app_eq_nil in E as [-> ->]. done.
    - intros (f & x & -> & E & Hf & _ & He & ->). symmetry in E. apply app_eq_nil in E as [-> E].
      apply app_eq_nil in E as [-> ->]. done. }
  destruct (is_digit c) eqn:Ec.
  - rewrite (run_step _ _ _ _ _ _ _ scan_number_decimal2 nt (uchar c)) by (simpl; by rewrite digit_is_digit, Ec).
    rewrite char_of_Z_uchar. setoid_rewrite IH. split.
    + intros (s' & -> & f & x & -> & -> & Hf & Hx & He & ->). exists (c :: f), x. simpl. by rewrite Ec.
    + intros (f & x & -> & E & Hf & Hx & He & ->). destruct f as [|c' f].
      * simpl in E. rewrite <- E in Hx. simpl in Hx. congruence.
      * simplify_eq/=. apply andb_prop in Hf as [_ Hf]. exists (f ++ x). split; [done|]. by exists f, x.
  - rewrite run_exponent_or_stop by (simpl; by rewrite digit_is_digit, Ec). split.
    + intros (E & He & ->). exists [], s. simpl. rewrite <- E. done.
    + intros (f & x & -> & E & Hf & Hx & He & ->). destruct f as [|c' f]; [done|]. simplify_eq/=. by rewrite Ec in Hf.
Qed.

(** After a decimal point. *)
Definition fraction_tail (y q : str) : Prop :=
  exists f x, y = f ++ x /\ digits f /\ not_digit (x ++ q) /\ exponent_tail x q.

Lemma run_decimal1 nt p t s q :
  num_run scan_number_decimal1 nt p = Some (t, s, q) <-> t = value_float /\ p = s ++ q /\ fraction_tail s q.
Proof.
  rewrite (run_digit_first _ scan_number_decimal2 _ value_float) by done. setoid_rewrite run_decimal2. split.
  - intros (c & p' & s' & -> & -> & Hc & f & x & -> & -> & Hf & Hx & He & ->). split; [by destruct x|].
    split; [by rewrite app_assoc|]. exists (c :: f), x. by rewrite digits_cons.
  - intros (-> & -> & f & x & -> & Hf & Hx & He). destruct f as [|c f]; [by destruct Hf|].
    apply digits_cons in Hf as [Hc Hf]. exists c, (f ++ x ++ q), (f ++ x). split; [by rewrite <- app_assoc|].
    split; [done|]. split; [done|]. exists f, x. by destruct x.
Qed.

(** After the integer part: [x] as written, [s] as collected. *)
Definition number_tail (nt : token_type) (x s q : str) (t : token_type) : Prop :=
  (exists y, x = "."%char :: y /\ s = get_decimal_point :: y /\ fraction_tail y q /\ t = value_float) \/
  (s = x /\ no_point (x ++ q) /\ exponent_tail x q /\ t = tail_type x nt).

(** The labels after the integer part, when no more digits come. *)
Lemma run_number_tail label nt p t s q :
  num_next label nt (head_code p) = num_next scan_number_zero nt (head_code p) ->
  num_run label nt p = Some (t, s, q) <-> exists x, p = x ++ q /\ number_tail nt x s q t.
Proof.
  intros Hn. destruct (Z.eqb_spec (head_code p) 46) as [E|Hne].
  - destruct p as [|c p]; [done|]. apply char_code in E as ->.
    rewrite (run_step _ _ _ _ _ _ _ scan_number_decimal1 nt (uchar get_decimal_point)) by by etrans; [exact Hn|].
    rewrite char_of_Z_uchar. setoid_rewrite run_decimal1. split.
    + intros (s' & -> & -> & -> & Hf). exists ("."%char :: s'). split; [done|]. left. by exists s'.
    + intros (x & E & [(y & -> & -> & Hy & ->)|(-> & Hp & _)]); simplify_eq/=; [by exists y|].
      rewrite <- E in Hp. done.
  - assert (no_point p) as Hp by (destruct p as [|c p]; [done|]; simpl; by intros ->).
    rewrite run_exponent_or_stop by (rewrite Hn; simpl; by rewrite (proj2 (Z.eqb_neq _ _) Hne)). split.
    + intros (-> & He & ->). exists s. split; [done|]. by right.
    + intros (x & -> & [(y & -> & _)|(-> & _ & He & ->)]); [by simpl in Hp|done].
Qed.

Lemma run_zero nt p t s q :
  num_run scan_number_zero nt p = Some (t, s, q) <-> exists x, p = x ++ q /\ number_tail nt x s q t.
Proof. by apply run_number_tail. Qed.

Lemma run_any1 nt p t s q :
  num_run scan_number_any1 nt p = Some (t, s, q) <->
  exists f x s', p = f ++ x ++ q /\ s = f ++ s' /\ forallb is_digit f = true /\ not_digit (x ++ q) /\
    number_tail nt x s' q t.
Proof.
  revert s. induction p as [|c p IH]; intros s.
  { rewrite run_number_tail by done. split.
    - intros (x & E & Ht). exists [], x, s. rewrite <- E. done.
    - intros (f & x & s' & E & -> & Hf & _ & Ht). symmetry in E. apply app_eq_nil in E as [-> E]. by exists x. }
  destruct (is_digit c) eqn:Ec.
  - rewrite (run_step _ _ _ _ _ _ _ scan_number_any1 nt (uchar c)) by (simpl; by rewrite digit_is_digit, Ec).
    rewrite char_of_Z_uchar. setoid_rewrite IH. split.
    + intros (s1 & -> & f & x & s' & -> & -> & Hf & Hx & Ht). exists (c :: f), x, s'. simpl. by rewrite Ec.
    + intros (f & x & s' & E & -> & Hf & Hx & Ht). destruct f as [|c' f].
      * simpl in E. rewrite <- E in Hx. simpl in Hx. congruence.
      * simplify_eq/=. apply andb_prop in Hf as [_ Hf]. exists (f ++ s'). split; [done|]. by exists f, x, s'.
  - rewrite run_number_tail by (simpl; by rewrite digit_is_digit, Ec). split.
    + intros (x & E & Ht). exists [], x, s. simpl. rewrite <- E. done.
    + intros (f & x & s' & E & -> & Hf & Hx & Ht). destruct f as [|c' f]; [by exists x|]. simplify_eq/=. by rewrite Ec in Hf.
Qed.

(** *** Numbers as a whole *)

(** What follows the digits of a number. *)
Definition tail_text (point : ascii) (n : number) : str :=
  match fraction n with Some f => point :: f | None => [] end ++
  match exponent n with Some (e, s, d) => e :: s ++ d | None => [] end.

Definition number_kind (n : number) (nt : token_type) : token_type :=
  match fraction n, exponent n with None, None => nt | _, _ => value_float end.

Definition tail_ok (n : number) : Prop :=
  (forall f, fraction n = Some f -> digits f) /\
  (forall e s d, exponent n = Some (e, s, d) ->
     (e = "e"%char \/ e = "E"%char) /\ (s = [] \/ s = lit "+" \/ s = lit "-") /\ digits d).

(** An exponent, as the parts of a number. *)
Lemma exponent_tail_parts x q :
  exponent_tail x q <->
  exists e, x = match e with Some (e, s, d) => e :: s ++ d | None => [] end /\
    (forall c s d, e = Some (c, s, d) ->
       (c = "e"%char \/ c = "E"%char) /\ (s = [] \/ s = lit "+" \/ s = lit "-") /\ digits d) /\
    match e with Some _ => not_digit q | None => no_exponent q end.
Proof.
  split.
  - intros [[-> Hq]|(c & s & -> & Hc & (sg & d & -> & Hsg & Hd) & Hq)]; [by exists None|].
    exists (Some (c, sg, d)). split; [done|]. split; [|done]. by intros ? ? ? [= <- <- <-].
  - intros (e & -> & He & Hq). destruct e as [[[c sg] d]|]; [right|by left].
    destruct (He c sg d eq_refl) as (Hc & Hsg & Hd). exists c, (sg ++ d). split_and!; try done. by exists sg, d.
Qed.

Lemma exponent_not_digit (e : option (ascii * str * str)) q :
  (forall c s d, e = Some (c, s, d) ->
     (c = "e"%char \/ c = "E"%char) /\ (s = [] \/ s = lit "+" \/ s = lit "-") /\ digits d) ->
  not_digit q -> not_digit (match e with Some (e, s, d) => e :: s ++ d | None => [] end ++ q).
Proof. destruct e as [[[c s] d]|]; [|done]. intros He _. destruct (He c s d eq_refl) as [[->| ->] _]; done. Qed.

Lemma number_tail_parts nt neg ip x s q t :
  number_tail nt x s q t <->
  exists f e, let n := mk_number neg ip f e in
    x = tail_text "." n /\ s = tail_text get_decimal_point n /\ tail_ok n /\ t = number_kind n nt /\
    match e, f with
    | Some _, _ => not_digit q
    | None, Some _ => not_digit q /\ no_exponent q
    | None, None => no_point q /\ no_exponent q
    end.
Proof.
  unfold tail_text, tail_ok, number_kind. split.
  - intros [(y & -> & -> & (f & z & -> & Hf & Hz & He) & ->)|(-> & Hp & He & ->)];
      apply exponent_tail_parts in He as (e & -> & He & Hq).
    + exists (Some f), e. simpl. split_and!; try done; try (by intros ? [= <-]); by destruct e as [[[? ?] ?]|].
    + exists None, e. simpl. split_and!; try done; by destruct e as [[[? ?] ?]|].
  - intros ([f|] & e & Hx & Hs & [Hf He] & Ht & Hq); simpl in *; subst x s.
    + left. eexists. split; [done|]. split; [done|]. split; [|by destruct e as [[[? ?] ?]|]].
      exists f. eexists. split; [done|]. split; [by apply Hf|]. split.
      * apply exponent_not_digit; [done|]. destruct e as [[[? ?] ?]|]; [done|by destruct Hq].
      * apply exponent_tail_parts. exists e. split; [done|]. split; [done|]. destruct e as [[[? ?] ?]|]; [done|by destruct Hq].
    + right. split; [done|]. split; [|split].
      * destruct e as [[[c s] d]|]; simpl; [|by destruct Hq]. destruct (He c s d eq_refl) as [[->| ->] _]; done.
      * apply exponent_tail_parts. exists e. split; [done|]. split; [done|]. destruct e as [[[? ?] ?]|]; [done|by destruct Hq].
      * by destruct e as [[[? ?] ?]|].
Qed.


(** The parts of a number that starts with the digits [ip]. *)
Definition parts (neg : bool) (ip : str) (nt : token_type) (p t_s q : str) (t : token_type) (n : number) : Prop :=
  negative n = neg /\ int_digits n = ip /\ p = tail_text "." n ++ q /\ t_s = tail_text get_decimal_point n /\
  number_ok n /\ number_ends n q /\ t = number_kind n nt.

Lemma number_ends_parts neg ip f e q :
  number_ends (mk_number neg ip f e) q <->
  match e, f with
  | Some _, _ => not_digit q
  | None, Some _ => not_digit q /\ no_exponent q
  | None, None => (not_digit q \/ ip = lit "0") /\ no_point q /\ no_exponent q
  end.
Proof. destruct q as [|c q], e as [[[? ?] ?]|], f as [f|]; simpl; naive_solver. Qed.

Lemma lead_zero neg nt p t s q :
  num_run scan_number_zero nt p = Some (t, s, q) <-> exists n, parts neg (lit "0") nt p s q t n.
Proof.
  rewrite run_zero. setoid_rewrite (number_tail_parts nt neg (lit "0")). split.
  - intros (x & -> & f & e & Hx & -> & [Hf He] & -> & Hq). rewrite Hx.
    exists (mk_number neg (lit "0") f e). do 4 (split; [done|]). split; [|split; [|done]].
    + split; [done|]. split; [by left|done].
    + apply number_ends_parts. destruct e as [[[? ?] ?]|], f; naive_solver.
  - intros ([neg' ip f e] & <- & Hip & -> & -> & (Hd & Hz & Hf & He) & Hq & ->). simpl in Hip. subst ip.
    eexists. split; [done|]. exists f, e. split_and!; try done.
    apply number_ends_parts in Hq. destruct e as [[[? ?] ?]|], f; naive_solver.
Qed.

Lemma lead_any1 neg nt c p t s q :
  is_digit c = true -> c <> "0"%char ->
  num_run scan_number_any1 nt p = Some (t, s, q) <->
  exists n f p' s', p = f ++ p' /\ s = f ++ s' /\ parts neg (c :: f) nt p' s' q t n.
Proof.
  intros Hc Hne. rewrite run_any1. split.
  - intros (f & x & s' & -> & -> & Hf & Hnd & Ht).
    apply (number_tail_parts nt neg (c :: f)) in Ht as (fr & e & Hx & Hs & [Hfr He] & -> & Hq).
    exists (mk_number neg (c :: f) fr e), f, (x ++ q), s'. split; [done|]. split; [done|].
    do 2 (split; [done|]). split; [by rewrite Hx|]. split; [done|]. split; [|split; [|done]].
    + split; [by apply digits_cons|]. split; [right; by exists c, f|done].
    + apply number_ends_parts. unfold tail_text in Hx. destruct e as [[[? ?] ?]|], fr; simpl in Hx; subst x; naive_solver.
  - intros ([neg' ip fr e] & f & p' & s' & -> & -> & <- & Hip & -> & -> & (Hd & Hz & Hfr & He) & Hq & ->).
    simpl in Hip. subst ip. simpl in Hd. apply digits_cons in Hd as [_ Hd].
    exists f. eexists _, _. split; [done|]. split; [done|]. split; [done|]. apply number_ends_parts in Hq. split.
    + unfold tail_text. simpl. simpl in Hfr, He. destruct fr as [fr|]; [done|]. simpl. apply exponent_not_digit; [done|].
      destruct e as [[[? ?] ?]|]; [done|]. destruct Hq as [[Hq|Hq] _]; [done|]. by injection Hq.
    + apply (number_tail_parts nt neg' (c :: f)). exists fr, e. split_and!; try done.
      destruct e as [[[? ?] ?]|], fr; naive_solver.
Qed.

(** The first label for a first character. *)
Definition start_run (c : ascii) (p : str) : option (token_type * str * str) :=
  if uchar c =? 45 then num_run scan_number_minus value_unsigned p
  else if uchar c =? 48 then num_run scan_number_zero value_unsigned p
  else num_run scan_number_any1 value_unsigned p.

Definition number_type (n : number) : token_type :=
  number_kind n (if negative n then value_integer else value_unsigned).

Lemma number_text_parts point n :
  number_text point n = (if negative n then lit "-" else []) ++ int_digits n ++ tail_text point n.
Proof. done. Qed.

(** From the first digit on. *)
Lemma lead_digit neg nt c p t s q :
  is_digit c = true ->
  (if uchar c =? 48 then num_run scan_number_zero nt p else num_run scan_number_any1 nt p) = Some (t, s, q) <->
  exists n, negative n = neg /\ number_ok n /\ number_ends n q /\ t = number_kind n nt /\
    c :: p = int_digits n ++ tail_text "." n ++ q /\ c :: s = int_digits n ++ tail_text get_decimal_point n.
Proof.
  intros Hc. destruct (Z.eqb_spec (uchar c) 48) as [E|Hne].
  - apply char_code in E as ->. change (char_of_Z 48) with "0"%char in *. rewrite (lead_zero neg). split.
    + intros (n & Hneg & Hip & -> & -> & Hok & He & Ht). exists n. rewrite Hip. done.
    + intros (n & Hneg & Hok & He & Ht & Hp & Hs). exists n.
      assert (Hip : int_digits n = lit "0").
      { destruct Hok as ([Hne _] & [Hz|(c & s' & Hi & Hc0)] & _); [done|]. rewrite Hi in Hp. by simplify_eq/=. }
      rewrite Hip in Hp, Hs. change (lit "0") with ["0"%char] in Hp, Hs. simplify_eq/=.
      split_and!; done.
  - assert (c <> "0"%char) by (intros ->; done). rewrite (lead_any1 neg nt c) by done. split.
    + intros (n & f & p' & s' & -> & -> & Hneg & Hip & -> & -> & Hok & He & Ht). exists n. rewrite Hip.
      split_and!; try done; by rewrite ?app_assoc.
    + intros (n & Hneg & Hok & He & Ht & Hp & Hs).
      destruct (int_digits n) as [|c' f] eqn:Hip; [by destruct Hok as [[Hd _] _]|].
      simplify_eq/=. exists n, f. eexists _, _. split; [done|]. split; [done|]. split_and!; done.
Qed.

Lemma run_minus nt p t s q :
  num_run scan_number_minus nt p = Some (t, s, q) <->
  exists c p' s', p = c :: p' /\ s = c :: s' /\ is_digit c = true /\
    (if uchar c =? 48 then num_run scan_number_zero value_integer p'
     else num_run scan_number_any1 value_integer p') = Some (t, s', q).
Proof.
  destruct p as [|c p]; [rewrite run_error by done; naive_solver|]. destruct (Z.eqb_spec (uchar c) 48) as [E|Hne].
  - rewrite (run_step _ _ _ _ _ _ _ scan_number_zero value_integer (uchar c)), char_of_Z_uchar by (simpl; by rewrite E).
    split; [intros (s' & -> & Hr); exists c, p, s'; unfold is_digit; by rewrite E|].
    intros (? & ? & s' & [= <- <-] & -> & _ & Hr). rewrite E in Hr. by exists s'.
  - destruct (between 49 57 (uchar c)) eqn:Eb.
    + rewrite (run_step _ _ _ _ _ _ _ scan_number_any1 value_integer (uchar c)), char_of_Z_uchar
        by (simpl; by rewrite (proj2 (Z.eqb_neq _ _) Hne), Eb).
      split; [intros (s' & -> & Hr); exists c, p, s'; rewrite (proj2 (Z.eqb_neq _ _) Hne); unfold is_digit, between in *; split_and!; (done || lia)|].
      intros (? & ? & s' & [= <- <-] & -> & _ & Hr). rewrite (proj2 (Z.eqb_neq _ _) Hne) in Hr. by exists s'.
    + rewrite run_error by (simpl; by rewrite (proj2 (Z.eqb_neq _ _) Hne), Eb). split; [done|].
      intros (? & ? & s' & [= <- <-] & _ & Hd & _). unfold is_digit, between in *. lia.
Qed.

(** The runs from the first character are the numbers of the grammar. *)
Lemma start_run_number c p t s q :
  c = "-"%char \/ is_digit c = true ->
  start_run c p = Some (t, s, q) <->
  exists n, number_ok n /\ number_ends n q /\ t = number_type n /\
    c :: p = number_text "." n ++ q /\ c :: s = number_text get_decimal_point n.
Proof.
  unfold start_run, number_type. intros [->|Hc].
  - change (uchar "-" =? 45) with true. cbv iota. rewrite run_minus. split.
    + intros (d & p' & s' & -> & -> & Hd & Hr).
      apply (lead_digit true) in Hr as (n & Hneg & Hok & He & Ht & Hp & Hs); [|done].
      exists n. rewrite !number_text_parts, Hneg. simpl. by rewrite <- !app_assoc, <- Hp, <- Hs.
    + intros (n & Hok & He & Ht & Hp & Hs). rewrite !number_text_parts in Hp, Hs.
      destruct (int_digits n) as [|d f] eqn:Hip; [by destruct Hok as [[Hd _] _]|].
      assert (Hd : is_digit d = true) by (destruct Hok as [Hd _]; rewrite Hip in Hd; by apply digits_cons in Hd as [Hd _]).
      destruct (negative n) eqn:Hneg; [|simplify_eq/=; by vm_compute in Hd].
      simpl in Hp, Hs. simplify_eq. exists d, ((f ++ tail_text "." n) ++ q), (f ++ tail_text get_decimal_point n).
      split; [done|]. split; [done|]. split; [done|]. apply (lead_digit true); [done|].
      exists n. rewrite Hip. split_and!; try done. by rewrite <- !app_assoc.
  - assert (uchar c <> 45) by (unfold is_digit in Hc; lia). rewrite (proj2 (Z.eqb_neq (uchar c) 45)) by done.
    rewrite (lead_digit false) by done. split.
    + intros (n & Hneg & Hok & He & Ht & Hp & Hs). exists n. rewrite !number_text_parts, Hneg, <- !app_assoc. done.
    + intros (n & Hok & He & Ht & Hp & Hs). rewrite !number_text_parts in Hp, Hs. exists n.
      destruct (negative n) eqn:Hneg; [by simplify_eq/=|]. rewrite <- !app_assoc in Hp. done.
Qed.

(** *** [scan_number] *)

Lemma digits_value_nonneg s : forallb is_digit s = true -> 0 <= decimal_value s.
Proof.
  unfold decimal_value. assert (0 <= 0) as H0 by done. revert H0. generalize 0 at 2 4 as acc.
  induction s as [|c s IH]; intros acc Ha Hs; simpl in *; [done|]. apply andb_prop in Hs as [Hc Hs].
  unfold is_digit in Hc. apply IH; [lia|done].
Qed.

Lemma wp_convert n l p b k :
  number_ok n -> reads l p b k -> b = number_text get_decimal_point n ->
  wp (convert_number (number_type n)) l (fun t l' => shows (number_token n) t l' /\ reads l' p b k).
Proof.
  intros Hok Hl ->. apply wp_bind, wp_mget. rewrite (reads_buffer _ _ _ _ Hl).
  assert (Hf : wp (do* set_float (strtod (number_text get_decimal_point n)) in mret value_float) l
    (fun t l' => shows (tk_float (strtod (number_text get_decimal_point n))) t l' /\ reads l' p (number_text get_decimal_point n) k)).
  { unfold wp. simpl. destruct Hl. by split. }
  unfold number_type, number_kind, number_token.
  destruct (fraction n) eqn:Ef; [done|]. destruct (exponent n) eqn:Ee; [done|].
  assert (Hx : 0 <= decimal_value (int_digits n)) by (apply digits_value_nonneg; by destruct Hok as [[_ Hd] _]).
  assert (Htext : number_text get_decimal_point n = (if negative n then lit "-" else []) ++ int_digits n).
  { rewrite number_text_parts. unfold tail_text. by rewrite Ef, Ee, app_nil_r. }
  destruct (negative n).
  - assert (E : strtoll (number_text get_decimal_point n) = (if - decimal_value (int_digits n) <? - 2 ^ 63 then (- 2 ^ 63, true)
      else if 2 ^ 63 <=? - decimal_value (int_digits n) then (2 ^ 63 - 1, true) else (- decimal_value (int_digits n), false)))
      by by rewrite Htext.
    rewrite E. clear E.
    destruct (Z.leb_spec (decimal_value (int_digits n)) (2 ^ 63)).
    + rewrite (proj2 (Z.ltb_ge (- decimal_value (int_digits n)) (- 2 ^ 63))) by lia.
      rewrite (proj2 (Z.leb_gt (2 ^ 63) (- decimal_value (int_digits n)))) by lia. unfold wp. simpl. destruct Hl. by split.
    + by rewrite (proj2 (Z.ltb_lt (- decimal_value (int_digits n)) (- 2 ^ 63))) by lia.
  - assert (E : strtoull (number_text get_decimal_point n) = (if 2 ^ 64 <=? decimal_value (int_digits n)
      then (2 ^ 64 - 1, true) else (decimal_value (int_digits n), false))) by by rewrite Htext.
    rewrite E, Z.leb_antisym. clear E.
    destruct (Z.ltb_spec (decimal_value (int_digits n)) (2 ^ 64)); [|done].
    unfold wp. simpl. destruct Hl. by split.
Qed.

(** The numbers of the grammar, with what was read before: [c] and no more. *)
Lemma wp_scan_number l c p b k (Q : token_type -> lexer F -> Prop) :
  reads l p b k -> current l = uchar c -> c = "-"%char \/ is_digit c = true ->
  (forall n q l' k' t, number_ok n -> number_ends n q -> c :: p = number_text "." n ++ q ->
     start_run c p = Some (number_type n, tl (number_text get_decimal_point n), q) ->
     shows (number_token n) t l' -> reads l' q (number_text get_decimal_point n) k' ->
     k' + str_size q = k + str_size p -> Q t l') ->
  (forall l', start_run c p = None -> stopped p k l' -> Q parse_error l') ->
  wp scan_number l Q.
Proof.
  intros Hl Hcur Hc Hgood Hbad. apply wp_bind. eapply wp_reset; [done|]. intros l1 Hl1 Hc1 _.
  apply wp_bind, wp_mget, wp_bind, wp_mget. rewrite Hc1, Hcur, (reads_rest _ _ _ _ Hl1). cbv zeta.
  assert (Hrun : forall label, label <> scan_number_done -> start_run c p = num_run label value_unsigned p ->
    wp (do* add (uchar c) in
        let* r := while_ (S (S (length p))) (fun '(label, number_type) => scan_number_from label number_type)
                    (label, value_unsigned) in
        match r with
        | None => mret parse_error
        | Some number_type => do* unget in convert_number number_type
        end) l1 Q).
  { intros label Hlabel Hrun. apply wp_bind. eapply wp_add; [done|]. intros l2 Hl2 _ _. rewrite char_of_Z_uchar in Hl2.
    apply wp_bind. eapply wp_number_loop; [done|done|lia|]. rewrite <- Hrun.
    destruct (start_run c p) as [[[t s] q]|] eqn:E; [|intros l3 Hl3; apply wp_ret; by apply Hbad].
    apply (start_run_number c p t s q Hc) in E as (n & Hok & He & -> & Hp & Hs).
    intros l3 k' Hl3 Hk Hcur3 Hu3. apply wp_bind. eapply wp_unget; [done..|]. intros l4 Hl4.
    rewrite Z.add_simpl_r in Hl4. simpl in Hl4. rewrite Hs in Hl4. eapply wp_mono; [exact (wp_convert n l4 q _ k' Hok Hl4 eq_refl)|].
    intros t l5 [Hsh Hl5]. eapply (Hgood n q l5 k'); try done. by rewrite <- Hs. }
  destruct Hc as [->|Hc]; [by apply Hrun|]. unfold start_run in Hrun.
  assert (uchar c <> 45) as H45 by (unfold is_digit in Hc; lia).
  rewrite (proj2 (Z.eqb_neq (uchar c) 45)) in * by done.
  destruct (uchar c =? 48) eqn:E0; [by apply Hrun|]. wp_if E1; [by apply Hrun|].
  unfold is_digit, between in *. lia.
Qed.
End numbers.
