(* ===== verification/JsonLexerFacts.v ===== *)
(** * The lexer reads the tokens of the grammar

    [scan] gives the token the grammar sees at the start of the text and stops
    where it does, gives [end_of_input] at the end and [parse_error] exactly when
    the text starts with neither. *)
From stdpp Require Import prelude strings list.
From Stdlib Require Import Ascii ZArith Lia.
From S2P Require Import Prelude CxxLib CxxMap Json JsonFacts JsonLexer JsonGrammar JsonWp JsonStrings JsonNumbers.

Local Open Scope Z_scope.
Local Open Scope json_scope.

Section scan.
Context {F : Type} `{CFloat F}.

(** ** A token at the start of a text *)

Inductive token_at : str -> token F -> str -> Prop :=
| at_lexeme w t p : lexeme w t -> token_at (w ++ p) t p
| at_number n p : number_ok n -> number_ends n p -> token_at (number_text "." n ++ p) (number_token n) p.

Lemma lexes_token_at p t q :
  lexes p t q <-> exists w p', p = w ++ p' /\ forallb blank w = true /\ token_at p' t q.
Proof.
  split.
  - induction 1 as [c p t q Hc _ (w & p' & -> & Hw & Ht)|w t p Hw|n p Hok He].
    + exists (c :: w), p'. simpl. by rewrite Hc.
    + exists [], (w ++ p). split_and!; [done..|by constructor].
    + exists [], (number_text "." n ++ p). split_and!; [done..|by constructor].
  - intros (w & p' & -> & Hw & Ht). induction w as [|c w IH]; simpl in *.
    + destruct Ht; by constructor.
    + apply andb_prop in Hw as [Hc Hw]. constructor; auto.
Qed.

(** The first character tells which token it is. *)
Definition number_start (c : ascii) : Prop := c = "-"%char \/ is_digit c = true.

Lemma number_text_start point n : number_ok n -> exists c s, number_text point n = c :: s /\ number_start c.
Proof.
  intros ([Hne Hd] & _). unfold number_text. destruct (negative n); [by eexists _, _; split; [done|left]|].
  destruct (int_digits n) as [|c s]; [done|]. simpl in *. apply andb_prop in Hd as [Hc _].
  eexists _, _. split; [done|by right].
Qed.

Lemma number_start_code c :
  (uchar c =? 45) || digit (uchar c) = true <-> number_start c.
Proof.
  rewrite orb_true_iff, Z.eqb_eq, digit_is_digit. unfold number_start. split; [|intros [->|]; auto].
  intros [E|]; [apply char_code in E|]; auto.
Qed.

Lemma token_at_start p t q : token_at p t q -> exists c p', p = c :: p' /\ blank c = false /\ c <> NUL.
Proof.
  intros [w t' p' Hw|n p' Hok He].
  - destruct Hw; eexists _, _; (split; [reflexivity|done]).
  - destruct (number_text_start "." n Hok) as (c & s & -> & Hc). eexists _, _. split; [done|].
    destruct Hc as [->|Hc]; [done|]. unfold is_digit, blank, whitespace in *. split; [|by intros ->].
    rewrite !(proj2 (Z.eqb_neq _ _)) by lia. done.
Qed.

Lemma string_body_unique b1 s1 q1 b2 s2 q2 :
  string_body b1 s1 -> string_body b2 s2 -> b1 ++ quote :: q1 = b2 ++ quote :: q2 -> s1 = s2 /\ q1 = q2.
Proof.
  intros H1 H2 E.
  set (l := mk_lexer (b1 ++ quote :: q1) 34 false (mk_position 1 1 0) [quote] [] [] 0 0 float_zero : lexer F).
  assert (Hl : reads l (b1 ++ quote :: q1) [] 1) by (split; [done..|split; [done|by right]]).
  pose proof (wp_scan_string_forward l b1 s1 q1 [] 1 H1 Hl eq_refl) as R1. rewrite E in Hl.
  pose proof (wp_scan_string_forward l b2 s2 q2 [] 1 H2 Hl eq_refl) as R2.
  apply (wp_both _ _ _ _ R1) in R2. apply wp_run in R2 as (t & l' & _ & [_ [A1 A2 _ _]] & [_ [B1 B2 _ _]]).
  split; congruence.
Qed.

Lemma shows_unique tok1 tok2 t (l : lexer F) : shows tok1 t l -> shows tok2 t l -> tok1 = tok2.
Proof.
  destruct tok1 as [|[]| | | | | | | | | |], tok2 as [|[]| | | | | | | | | |]; simpl; intros; destruct_and?; congruence.
Qed.

Lemma number_unique n1 q1 n2 q2 :
  number_ok n1 -> number_ends n1 q1 -> number_ok n2 -> number_ends n2 q2 ->
  number_text "." n1 ++ q1 = number_text "." n2 ++ q2 -> number_token n1 = number_token n2 /\ q1 = q2.
Proof.
  intros Ho1 He1 Ho2 He2 E.
  assert (Hrun : forall n q, number_ok n -> number_ends n q -> number_text "." n ++ q = number_text "." n1 ++ q1 ->
    exists c p, number_text "." n1 ++ q1 = c :: p /\
      exists s, c :: s = number_text get_decimal_point n /\ start_run c p = Some (number_type n, s, q)).
  { intros n q Hok He En. rewrite <- En. destruct (number_text_start "." n Hok) as (c & s & Ht & Hc).
    exists c, (s ++ q). rewrite Ht. split; [done|].
    assert (exists s', number_text get_decimal_point n = c :: s') as [s' Hs'].
    { rewrite number_text_parts in Ht |- *. destruct (negative n); simpl in *; [by simplify_eq; eexists|].
      destruct Hok as [[Hne _] _]. destruct (int_digits n); [done|]. simplify_eq/=. by eexists. }
    exists s'. split; [done|]. apply (start_run_number c); [done|]. exists n. rewrite Ht, Hs'. done. }
  destruct (Hrun n1 q1) as (c & p & Ep & s1 & Hs1 & Hr1); [done..|].
  destruct (Hrun n2 q2) as (c2 & p2 & Ep2 & s2 & Hs2 & Hr2); [done|done|done|].
  rewrite Ep in Ep2. injection Ep2 as <- <-. rewrite Hr1 in Hr2. injection Hr2 as Ht <- <-. split; [|done].
  set (l := mk_lexer [] 0 false (mk_position 1 1 0) [quote] (c :: s1) [] 0 0 float_zero : lexer F).
  assert (Hl : reads l [] (c :: s1) 1) by (split; [done..|split; [done|by right]]).
  pose proof (wp_convert n1 l [] (c :: s1) 1 Ho1 Hl Hs1) as R1.
  pose proof (wp_convert n2 l [] (c :: s1) 1 Ho2 Hl Hs2) as R2.
  rewrite Ht in R1.
  apply (wp_both _ _ _ _ R1) in R2. apply wp_run in R2 as (t & l' & _ & [A _] & [B _]). by eapply shows_unique.
Qed.

Lemma number_not_lexeme w (t : token F) p n q :
  lexeme w t -> number_ok n -> w ++ p = number_text "." n ++ q -> False.
Proof.
  intros Hw Hok E. destruct (number_text_start "." n Hok) as (c & s & Ht & Hc). rewrite Ht in E.
  destruct Hw; simpl in E; injection E as <- _; destruct Hc as [Hc|Hc]; done.
Qed.

Lemma token_at_unique p t1 q1 t2 q2 : token_at p t1 q1 -> token_at p t2 q2 -> t1 = t2 /\ q1 = q2.
Proof.
  intros H1 H2. inversion H1 as [w1 t1' p1 Hw1|n1 p1 Ho1 He1]; inversion H2 as [w2 t2' p2 Hw2 E|n2 p2 Ho2 He2 E]; subst.
  - destruct Hw1 as [| | | | | | | | |b1 s1 Hb1], Hw2 as [| | | | | | | | |b2 s2 Hb2]; simplify_eq/=; try done.
    rewrite <- !app_assoc in E. destruct (string_body_unique b1 s1 q1 b2 s2 q2) as [-> ->]; done.
  - exfalso. by eapply number_not_lexeme.
  - exfalso. symmetry in E. by eapply number_not_lexeme.
  - by apply number_unique.
Qed.

(** ** The scanners *)

Lemma wp_scan_literal_loop text t l p b n (Q : token_type -> lexer F -> Prop) :
  reads l p b n ->
  (forall q l', p = text ++ q -> reads l' q b (n + str_size text) -> Q t l') ->
  (forall l', (forall q, p <> text ++ q) -> stopped p n l' -> Q parse_error l') ->
  wp (scan_literal_loop text t) l Q.
Proof.
  revert l p n. induction text as [|c text IH]; intros l p n Hl Hgood Hbad; cbn [scan_literal_loop].
  { apply wp_ret, (Hgood p); [done|]. by rewrite Z.add_0_r. }
  apply wp_bind. eapply wp_get; [done|]. intros l1 Hl1 _ _.
  destruct (Z.eqb_spec (head_code p) (uchar c)) as [E|Hne].
  - destruct p as [|d p]; [simpl in E; unfold eof in E; pose proof (uchar_range c); lia|].
    apply uchar_inj in E as ->. apply (IH l1 p (n + 1)); [done|..].
    + intros q l2 -> Hl2. apply (Hgood q); [done|]. by rewrite str_size_cons, Z.add_assoc.
    + intros l2 Hq Hs. apply Hbad; [|by apply stopped_cons]. intros q [= E]. by apply (Hq q).
  - eapply wp_error; [done|]. intros l2 Hl2. apply Hbad; [|by apply (reads_stopped_tl l2 p b)]. intros q ->. done.
Qed.

Lemma wp_scan_literal c text t l p b n (Q : token_type -> lexer F -> Prop) :
  reads l p b n -> current l = uchar c ->
  (forall q l', p = text ++ q -> reads l' q b (n + str_size text) -> Q t l') ->
  (forall l', (forall q, p <> text ++ q) -> stopped p n l' -> Q parse_error l') ->
  wp (scan_literal (c :: text) t) l Q.
Proof.
  intros Hl Hc Hgood Hbad. apply wp_bind, wp_massert; [by rewrite Hc, Z.eqb_refl|]. by eapply wp_scan_literal_loop.
Qed.

(** [skip_whitespace] ends after the first character that is not blank. *)
Lemma wp_skip_whitespace l p b n (Q : Z -> lexer F -> Prop) :
  reads l p b n ->
  (forall w p' l', p = w ++ p' -> forallb blank w = true -> whitespace (head_code p') = false ->
     reads l' (tl p') b (n + str_size w + 1) -> current l' = head_code p' -> Q (head_code p') l') ->
  wp skip_whitespace l Q.
Proof.
  intros Hl HQ. apply wp_bind, wp_mget. rewrite (reads_rest _ _ _ _ Hl).
  apply (wp_while (fun _ l => exists w p', p = w ++ p' /\ forallb blank w = true /\ reads l p' b (n + str_size w))
    (fun _ l => length (rest l))).
  - intros _ l1 (w & p' & -> & Hw & Hl1). apply wp_bind. eapply wp_get; [done|]. intros l2 Hl2 Hc _. apply wp_ret.
    destruct (whitespace (head_code p')) eqn:E.
    + destruct p' as [|c p']; [done|]. split.
      * exists (w ++ [c]), p'. rewrite <- app_assoc, forallb_app, Hw, str_size_app. simpl. unfold blank.
        simpl in E. rewrite E. split; [done|]. split; [done|]. by rewrite Z.add_assoc.
      * rewrite (reads_rest _ _ _ _ Hl1), (reads_rest _ _ _ _ Hl2). simpl. lia.
    + by apply (HQ w p').
  - exists [], p. rewrite Z.add_0_r. done.
  - rewrite (reads_rest _ _ _ _ Hl). lia.
Qed.

(** The state after a token: what follows it, and all of the text accounted for. *)
Definition after_token (p : str) (n : Z) (q : str) (l : lexer F) : Prop :=
  exists b k, reads l q b k /\ k + str_size q = n + str_size p.

(** An error or the end, when a character has been read before [p]. *)
Definition halted (p : str) (n : Z) (l : lexer F) : Prop :=
  exists p' b' n', reads l p' b' n' /\ (length p' <= length p)%nat /\ n <= n' <= n + str_size p + 1.

Lemma stopped_halted p n l : stopped p n l -> halted p n l.
Proof. intros (p' & b' & n' & Hl & Hp & Hn). exists p', b', n'. split_and!; [done|done|lia..]. Qed.

Lemma reads_halted l p b n : reads l p b n -> halted p n l.
Proof. intros Hl. exists p, b, n. pose proof (str_size_nonneg p). split_and!; [done|done|lia..]. Qed.

Ltac punctuation Hgood Hl :=
  apply wp_ret; eapply Hgood; [by apply (at_lexeme [_] _ _); constructor|reflexivity|eexists _, _; split; [exact Hl|done]].

(** A token that starts with [c] is a lexeme of the shape [constructor] leaves. *)
Ltac other_token Ht :=
  inversion Ht as [w t' q' Hw E|num q' Hok He E]; subst;
  [destruct Hw; simplify_eq/=
  |destruct (number_text_start "." num Hok) as (c' & s' & Hnum & Hc'); rewrite Hnum in E; simplify_eq/=].

Ltac literal_case Hgood Hbad Hl :=
  eapply wp_scan_literal; [exact Hl|assumption|..];
  [intros q l' -> Hl'; eapply Hgood; [by apply (at_lexeme (_ :: _) _ q); constructor|done|];
   eexists _, _; split; [exact Hl'|rewrite str_size_app; lia]
  |intros l' Hq Hs; apply Hbad; [|done|by apply stopped_halted]; intros t q Ht; other_token Ht;
   [by eapply Hq|by match goal with Hc : number_start _ |- _ => destruct Hc end]].

Lemma wp_string_token l p b n (Q : token_type -> lexer F -> Prop) :
  reads l p b n -> current l = 34 ->
  (forall tok q t l', token_at (quote :: p) tok q -> shows tok t l' -> after_token p n q l' -> Q t l') ->
  (forall l', (forall tok q, ~ token_at (quote :: p) tok q) -> quote <> NUL -> halted p n l' -> Q parse_error l') ->
  wp scan_string l Q.
Proof.
  intros Hl Hcur Hgood Hbad. pose proof (wp_scan_string_inverse l p b n Hl Hcur) as Hinv.
  apply wp_run in Hinv as (t & l' & Hrun & Hpost). unfold wp. rewrite Hrun.
  destruct Hpost as [[-> (body & s & q & -> & Hb & Hl')]|[-> Hs]].
  - apply (Hgood (tk_string s) q).
    + replace (quote :: body ++ quote :: q) with ((quote :: body ++ [quote]) ++ q) by (simpl; by rewrite <- app_assoc).
      apply at_lexeme. by constructor.
    + by destruct Hl'.
    + eexists _, _. split; [done|]. rewrite str_size_app, str_size_cons. lia.
  - apply Hbad; [|done|by apply stopped_halted]. intros tok q Ht. other_token Ht.
    + rewrite <- app_assoc in Hl. match goal with Hb : string_body _ _ |- _ =>
        pose proof (wp_scan_string_forward l _ _ _ _ _ Hb Hl Hcur) as Hf end.
      unfold wp in Hf. rewrite Hrun in Hf. by destruct Hf.
    + by destruct Hc'.
Qed.

Lemma wp_number_token l c p b n (Q : token_type -> lexer F -> Prop) :
  reads l p b n -> current l = uchar c -> number_start c ->
  (forall tok q t l', token_at (c :: p) tok q -> shows tok t l' -> after_token p n q l' -> Q t l') ->
  (forall l', (forall tok q, ~ token_at (c :: p) tok q) -> c <> NUL -> halted p n l' -> Q parse_error l') ->
  wp scan_number l Q.
Proof.
  intros Hl Hcur Hc Hgood Hbad. eapply wp_scan_number; [done..| |].
  - intros num q l' k t Hok He Hp Hrun Hsh Hl' Hk. eapply (Hgood _ q); [|done|by eexists _, _].
    rewrite Hp. by apply at_number.
  - intros l' Hrun Hs. apply Hbad; [|intros ->; by destruct Hc|by apply stopped_halted]. intros tok q Ht.
    inversion Ht as [w t' q' Hw E|num q' Hok He E]; subst.
    + destruct Hw; simplify_eq/=; by destruct Hc.
    + destruct (number_text_start "." num Hok) as (c1 & s1 & Hnum & Hc1).
      destruct (number_text_start get_decimal_point num Hok) as (c2 & s2 & Hnum2 & Hc2).
      assert (c2 = c) as ->.
      { rewrite number_text_parts in Hnum, Hnum2. rewrite number_text_parts in E. destruct Hok as [[Hne _] _].
        destruct (negative num), (int_digits num); simplify_eq/=; done. }
      assert (Hr : start_run c p = Some (number_type num, s2, q)); [|congruence].
      apply (start_run_number c); [done|]. exists num. by rewrite E, Hnum2.
Qed.

Lemma wp_scan_token l c p b n (Q : token_type -> lexer F -> Prop) :
  reads l p b n -> current l = uchar c -> 
  (forall tok q t l', token_at (c :: p) tok q -> shows tok t l' -> after_token p n q l' -> Q t l') ->
  (c = NUL -> halted p n l -> Q end_of_input l) ->
  (forall l', (forall tok q, ~ token_at (c :: p) tok q) -> c <> NUL -> halted p n l' -> Q parse_error l') ->
  wp (scan_token (uchar c)) l Q.
Proof.
  intros Hl Hcur Hgood Hend Hbad. unfold scan_token.
  do 6 (match goal with |- wp (if ?x =? ?y then _ else _) _ _ => destruct (Z.eqb_spec x y) as [E|?] end;
    [apply char_code in E as ->; punctuation Hgood Hl|]).
  do 3 (match goal with |- wp (if ?x =? ?y then _ else _) _ _ => destruct (Z.eqb_spec x y) as [E|?] end;
    [apply char_code in E as ->; literal_case Hgood Hbad Hl|]).
  destruct (Z.eqb_spec (uchar c) 34) as [E|?].
  { rewrite E in Hcur. apply char_code in E as ->. by eapply wp_string_token. }
  wp_if En; [apply number_start_code in En; by eapply wp_number_token|].
  pose proof (uchar_range c). rewrite (proj2 (Z.eqb_neq (uchar c) eof)), orb_false_r by (unfold eof; lia).
  destruct (Z.eqb_spec (uchar c) 0) as [E|Hnul].
  { apply char_code in E as ->. apply wp_ret, Hend; [done|by eapply reads_halted]. }
  eapply wp_error; [done|]. intros l' Hl'. apply Hbad; [|intros ->; done|by eapply reads_halted]. intros tok q Ht.
  other_token Ht; try done. apply number_start_code in Hc'. congruence.
Qed.

(** ** [scan] *)

Lemma blank_split w1 p1 w2 p2 :
  forallb blank w1 = true -> forallb blank w2 = true ->
  whitespace (head_code p1) = false -> whitespace (head_code p2) = false ->
  w1 ++ p1 = w2 ++ p2 -> w1 = w2 /\ p1 = p2.
Proof.
  revert w2. induction w1 as [|c w1 IH]; intros [|d w2] H1 H2 Hp1 Hp2 E; simplify_eq/=; try done.
  - unfold blank in H2. by rewrite Hp1 in H2.
  - unfold blank in H1. by rewrite Hp2 in H1.
  - apply andb_prop in H1 as [_ H1]. apply andb_prop in H2 as [_ H2].
    destruct (IH w2) as [-> ->]; done.
Qed.

Lemma token_at_not_blank p t q : token_at p t q -> whitespace (head_code p) = false.
Proof. intros (c & p' & -> & Hc & _)%token_at_start. done. Qed.

Lemma lexes_unique p t1 q1 t2 q2 : lexes p t1 q1 -> lexes p t2 q2 -> t1 = t2 /\ q1 = q2.
Proof.
  intros (w1 & p1 & -> & Hw1 & H1)%lexes_token_at (w2 & p2 & E & Hw2 & H2)%lexes_token_at.
  apply blank_split in E as [-> ->]; [by eapply token_at_unique|done|done|by eapply token_at_not_blank..].
Qed.

Lemma ends_split p : ends p <-> exists w p', p = w ++ p' /\ forallb blank w = true /\ (p' = [] \/ exists p2, p' = NUL :: p2).
Proof.
  split.
  - intros (w & Hw & [->|[p' ->]]); [exists w, []|exists w, (NUL :: p')]; rewrite ?app_nil_r; eauto.
  - intros (w & p' & -> & Hw & [->|[p2 ->]]); exists w; rewrite ?app_nil_r; eauto.
Qed.

Lemma lexes_not_ends p t q : lexes p t q -> ~ ends p.
Proof.
  intros (w1 & p1 & -> & Hw1 & H1)%lexes_token_at (w2 & p2 & E & Hw2 & H2)%ends_split.
  apply blank_split in E as [-> ->]; [|done|done|by eapply token_at_not_blank|by destruct H2 as [->|[? ->]]].
  apply token_at_start in H1 as (c & p' & E & _ & Hc). destruct H2 as [->|[p2' ->]]; simplify_eq; done.
Qed.

Lemma lexes_shorter p t q : lexes p t q -> (length q < length p)%nat.
Proof.
  intros (w & p' & -> & Hw & Ht)%lexes_token_at. rewrite length_app.
  destruct Ht as [x t' q' Hx|n q' Hok He]; rewrite length_app.
  - destruct Hx; simpl; lia.
  - destruct (number_text_start "." n Hok) as (c & s & -> & _). simpl. lia.
Qed.

(** What [scan] returns on the text [p]. *)
Definition scan_post (p : str) (n : Z) (Q : token_type -> lexer F -> Prop) : Prop :=
  (forall tok q t l', lexes p tok q -> shows tok t l' -> after_token p n q l' -> Q t l') /\
  (forall l', ends p -> stopped p n l' -> Q end_of_input l') /\
  (forall l', (forall tok q, ~ lexes p tok q) -> ~ ends p -> stopped p n l' -> Q parse_error l').

Lemma wp_scan_rest l p b n (Q : token_type -> lexer F -> Prop) :
  reads l p b n -> scan_post p n Q -> wp (let* c := skip_whitespace in scan_token c) l Q.
Proof.
  intros Hl (Hgood & Hend & Hbad). apply wp_bind. eapply wp_skip_whitespace; [done|].
  intros w p' l1 -> Hw Hblank Hl1 Hcur.
  assert (Hstop : forall l' q, halted q (n + str_size w + 1) l' -> (length q <= length p')%nat -> str_size q + 1 <= str_size p' \/ reads l' [] b (n + str_size w + 1) ->
    stopped (w ++ p') n l').
  { intros l' q (p2 & b2 & n2 & Hl2 & Hp2 & Hn2) Hq [Hs|Hr].
    - eapply reads_stopped; [done|rewrite length_app; lia|]. rewrite str_size_app. pose proof (str_size_nonneg w). lia.
    - eapply reads_stopped; [done|rewrite length_app; simpl; lia|]. rewrite str_size_app.
      pose proof (str_size_nonneg w). pose proof (str_size_nonneg p'). lia. }
  destruct p' as [|c p'].
  { apply wp_ret, Hend; [apply ends_split; by exists w, []; auto|]. eapply (Hstop _ []); [|done|by right].
    by eapply reads_halted. }
  cbn [head_code tl] in *. eapply wp_scan_token; [done|done|..].
  - intros tok q t l2 Ht Hsh (b2 & k & Hl2 & Hk). eapply (Hgood tok q); [apply lexes_token_at; by exists w, (c :: p')|done|].
    exists b2, k. split; [done|]. rewrite str_size_app, str_size_cons. lia.
  - intros -> Hh. apply Hend; [apply ends_split; exists w, (NUL :: p'); eauto|].
    eapply Hstop; [done|simpl; lia|left; rewrite str_size_cons; lia].
  - intros l2 Hno Hnul Hh. apply Hbad.
    + intros tok q (w2 & p2 & E & Hw2 & Ht)%lexes_token_at.
      apply blank_split in E as [-> <-]; [|done|done|done|by eapply token_at_not_blank]. by eapply Hno.
    + intros (w2 & p2 & E & Hw2 & Hp2)%ends_split.
      apply blank_split in E as [-> <-]; [|done|done|done|by destruct Hp2 as [->|[? ->]]].
      destruct Hp2 as [|[? ?]]; by simplify_eq.
    + eapply Hstop; [done|simpl; lia|left; rewrite str_size_cons; lia].
Qed.

Lemma wp_scan l p b n (Q : token_type -> lexer F -> Prop) :
  reads l p b n -> n <> 0 -> scan_post p n Q -> wp scan l Q.
Proof.
  intros Hl Hn HQ. apply wp_bind, wp_mget. rewrite (reads_total _ _ _ _ Hl), (proj2 (Z.eqb_neq n 0)) by done.
  apply wp_bind, wp_ret. by eapply wp_scan_rest.
Qed.

(** The first token: after a byte order mark, if there is one. *)
Lemma wp_scan_first l text b (Q : token_type -> lexer F -> Prop) :
  reads l text b 0 ->
  (forall p n, after_bom text p -> n + str_size p = str_size text -> 0 <= n -> scan_post p n Q) ->
  (forall l', (forall p, ~ after_bom text p) -> stopped text 0 l' -> Q parse_error l') ->
  wp scan l Q.
Proof.
  intros Hl Hgood Hbad. apply wp_bind, wp_mget. rewrite (reads_total _ _ _ _ Hl). cbv beta. rewrite Z.eqb_refl.
  apply wp_bind, wp_bind. eapply wp_get; [done|]. intros l1 Hl1 Hc1 Hu1.
  destruct (Z.eqb_spec (head_code text) 0xEF) as [E|Hne].
  2: { apply wp_bind. eapply wp_unget; [done..|]. intros l2 Hl2. apply wp_ret. simpl.
       eapply wp_scan_rest; [exact Hl2|]. apply Hgood; [|done|done]. right. split; [done|]. by intros c p' ->. }
  destruct text as [|c1 text]; [done|]. simpl in E. apply char_code in E as ->. cbn [tl] in Hl1.
  assert (Hno : forall p, after_bom (char_of_Z 0xEF :: text) p -> text = map char_of_Z [187; 191] ++ p).
  { intros p [E|[E Hp]]; [by injection E|]. exfalso. by apply (Hp _ _ (eq_sym E)). }
  assert (Herr : forall l' q k, reads l' q b k -> (length q <= length text)%nat -> 0 < k <= 2 + str_size text ->
    (forall p, text <> map char_of_Z [187; 191] ++ p) -> forall m, wp (error m parse_error) l' Q).
  { intros l' q k Hl' Hq Hk Hp m. eapply wp_error; [done|]. clear l' Hl'. intros l' Hl'.
    apply Hbad; [intros p Hp'; by apply (Hp p), Hno|].
    eapply reads_stopped; [done|simpl; lia|]. rewrite str_size_cons. lia. }
  apply wp_bind. eapply wp_get; [done|]. intros l2 Hl2 _ _. pose proof (str_size_nonneg text).
  destruct (Z.eqb_spec (head_code text) 0xBB) as [E|Hne].
  2: { apply wp_ret. eapply (Herr l2); [done|destruct text; simpl; lia|lia|]. by intros p ->. }
  destruct text as [|c2 text]; [done|]. simpl in E. apply char_code in E as ->. cbn [tl] in Hl2.
  apply wp_bind. eapply wp_get; [done|]. intros l3 Hl3 _ _. apply wp_ret. rewrite str_size_cons in *.
  pose proof (str_size_nonneg text). destruct (Z.eqb_spec (head_code text) 0xBF) as [E|Hne].
  2: { eapply (Herr l3); [done|destruct text; simpl; lia|lia|]. intros p E. injection E as ->. done. }
  destruct text as [|c3 text]; [done|]. simpl in E. apply char_code in E as ->. cbn [tl] in Hl3.
  eapply wp_scan_rest; [exact Hl3|]. apply Hgood; [by left| |lia]. rewrite !str_size_cons. lia.
Qed.
End scan.
