(* ===== verification/JsonDom.v ===== *)
(** * The value under construction

    [json_sax_dom_parser] writes through pointers into a value that is not
    finished.  Here the unfinished value is a value with a hole, the pointers of
    the stack are the places on the way to the hole, and each operation of the
    handler is a change at the hole. *)
From stdpp Require Import prelude strings list.
From Stdlib Require Import Ascii ZArith Lia.
From S2P Require Import Prelude CxxLib CxxMap Json JsonDump JsonLexer JsonParser JsonGrammar JsonWp.

Local Open Scope json_scope.

(** ** Maps *)

Lemma map_set_set {V} k (x y : V) m : map_set k y (map_set k x m) = map_set k y m.
Proof.
  induction m as [|[k' v] m IH]; simpl; [by rewrite str_ltb_irrefl|].
  destruct (str_ltb k k') eqn:E; simpl; [by rewrite str_ltb_irrefl|].
  destruct (str_ltb k' k) eqn:E'; simpl; [by rewrite E, E', IH|]. by rewrite str_ltb_irrefl.
Qed.

Lemma map_get_set_same {V} k (x : V) m : map_get k (map_set k x m) = Some x.
Proof. by rewrite map_get_set, bool_decide_eq_true_2. Qed.

(** A key that is there keeps its place. *)
Lemma map_set_get {V} k (x : V) m : ordered m -> map_get k m = Some x -> map_set k x m = m.
Proof.
  unfold ordered. induction 1 as [|[k' v] m Hm IH Hk]; simpl; [done|]. case_bool_decide as E.
  - subst. intros [= ->]. by rewrite str_ltb_irrefl.
  - intros Hget. rewrite Forall_forall in Hk. pose proof (map_get_elem _ _ _ Hget) as Hin.
    specialize (Hk _ Hin). unfold key_lt in Hk. simpl in Hk.
    destruct (str_ltb k k') eqn:E1.
    + pose proof (str_ltb_trans _ _ _ E1 Hk) as E2. by rewrite str_ltb_irrefl in E2.
    + by rewrite Hk, IH.
Qed.

(** ** Values with a hole *)

Section dom.
Context {F : Type}.

(** An open array with the elements it has, an open object with the members it
    has and the key of the next. *)
Inductive frame : Type :=
| FArray (a : list (json F))
| FObject (m : list (str * json F)) (k : str).

(** The innermost container first. *)
Abbreviation hole := (list frame).

Definition fill_frame (f : frame) (v : json F) : json F :=
  match f with
  | FArray a => Array (a ++ [v])
  | FObject m k => Object (map_set k v m)
  end.

Fixpoint fill (K : hole) (v : json F) : json F :=
  match K with
  | [] => v
  | f :: K' => fill K' (fill_frame f v)
  end.

Definition frame_access (f : frame) : access :=
  match f with
  | FArray a => at_index (length a)
  | FObject _ k => at_key k
  end.

(** The pointer to the hole, and the pointers to the containers around it. *)
Fixpoint path (K : hole) : ref :=
  match K with
  | [] => []
  | f :: K' => path K' ++ [frame_access f]
  end.

Fixpoint refs (K : hole) : list ref :=
  match K with
  | [] => []
  | _ :: K' => path K' :: refs K'
  end.

Lemma deref_app (v : json F) p q : deref_ v (p ++ q) = x ← deref_ v p; deref_ x q.
Proof.
  revert v. induction p as [|[k|i] p IH]; intros v; simpl; [done|..]; destruct v; simpl; try done;
    case_match; simpl; auto.
Qed.

Lemma store_app (v y : json F) p q x :
  deref_ v p = Some y -> store v (p ++ q) x = store v p (store y q x).
Proof.
  revert v. induction p as [|[k|i] p IH]; intros v; simpl; [by intros [= ->]|..]; destruct v; simpl; try done;
    case_match; try done; intros Hd; by rewrite (IH _ Hd).
Qed.

Lemma fill_frame_deref f (v : json F) : deref_ (fill_frame f v) [frame_access f] = Some v.
Proof.
  destruct f as [a|m k]; simpl; [|by rewrite map_get_set_same].
  rewrite lookup_app_r, Nat.sub_diag by done. done.
Qed.

Lemma fill_frame_store f (v x : json F) : store (fill_frame f v) [frame_access f] x = fill_frame f x.
Proof.
  destruct f as [a|m k]; simpl; [|by rewrite map_get_set_same, map_set_set].
  rewrite lookup_app_r, Nat.sub_diag by done. simpl. f_equal.
  rewrite insert_app_r_alt, Nat.sub_diag by done. done.
Qed.

Lemma fill_deref K v : deref_ (fill K v) (path K) = Some v.
Proof.
  revert v. induction K as [|f K IH]; intros v; simpl; [done|].
  rewrite deref_app, IH. simpl. apply fill_frame_deref.
Qed.

Lemma fill_store K v x : store (fill K v) (path K) x = fill K x.
Proof.
  revert v x. induction K as [|f K IH]; intros v x; simpl; [done|].
  rewrite (store_app _ (fill_frame f v)) by apply fill_deref. by rewrite fill_frame_store, IH.
Qed.

(** ** The handler at a hole *)

(** The members of the open objects are in order. *)
Definition frames_ok (K : hole) : Prop :=
  Forall (fun f => match f with FObject m _ => ordered m | FArray _ => True end) K.

(** A value can go into the hole; a container at the hole is open; the hole holds
    a finished value. *)
Definition awaits_value (K : hole) (d : json_sax_dom_parser F) : Prop :=
  errored d = false /\ frames_ok K /\ ref_stack d = refs K /\
  match K with
  | [] => True
  | FArray a :: K' => root d = fill K' (Array a)
  | FObject m k :: K' => object_element d = Some (path K) /\ exists x, root d = fill K' (Object (map_set k x m))
  end.

Definition opened (K : hole) (v : json F) (d : json_sax_dom_parser F) : Prop :=
  errored d = false /\ frames_ok K /\ ref_stack d = path K :: refs K /\ root d = fill K v.

Definition filled (K : hole) (v : json F) (d : json_sax_dom_parser F) : Prop :=
  errored d = false /\ frames_ok K /\ ref_stack d = refs K /\ root d = fill K v.

Lemma wp_handle_value K v d (Q : ref -> json_sax_dom_parser F -> Prop) :
  awaits_value K d -> (forall d', filled K v d' -> Q (path K) d') -> wp (handle_value v) d Q.
Proof.
  intros (He & Ho & Hr & HK) HQ. unfold wp, handle_value. rewrite Hr. destruct K as [|[a|m k] K]; simpl refs; cbv iota.
  - apply HQ. by repeat split.
  - rewrite HK, fill_deref. apply HQ. do 3 (split; [done|]). exact (fill_store K (Array a) (Array (a ++ [v]))).
  - destruct HK as (Hel & x & HK). rewrite HK, fill_deref, Hel.
    change (fill K (Object (map_set k x m))) with (fill (FObject m k :: K) x). rewrite fill_deref.
    apply HQ. do 3 (split; [done|]). exact (fill_store (FObject m k :: K) x v).
Qed.

Lemma wp_handle_scalar K v d (Q : bool -> json_sax_dom_parser F -> Prop) :
  awaits_value K d -> (forall d', filled K v d' -> Q true d') -> wp (handle_scalar v) d Q.
Proof. intros Hd HQ. apply wp_bind. eapply wp_handle_value; [done|]. intros d' Hd'. by apply wp_ret, HQ. Qed.

Lemma wp_start_container K v d (Q : bool -> json_sax_dom_parser F -> Prop) :
  awaits_value K d -> (forall d', opened K v d' -> Q true d') -> wp (start_container v) d Q.
Proof.
  intros Hd HQ. apply wp_bind. eapply wp_handle_value; [done|]. intros d' (He & Ho & Hr & Hroot). unfold wp.
  apply HQ. do 2 (split; [done|]). simpl. by rewrite Hr.
Qed.

Lemma wp_end_container K v d (Q : bool -> json_sax_dom_parser F -> Prop) :
  opened K v d -> (forall d', filled K v d' -> Q true d') -> wp end_container d Q.
Proof. intros (He & Ho & Hr & Hroot) HQ. unfold wp, end_container. rewrite Hr. by apply HQ. Qed.

Lemma wp_dom_key K m k d (Q : bool -> json_sax_dom_parser F -> Prop) :
  opened K (Object m) d -> ordered m -> (forall d', awaits_value (FObject m k :: K) d' -> Q true d') -> wp (dom_key k) d Q.
Proof.
  intros (He & Ho & Hr & Hroot) Hm HQ. unfold wp, dom_key. rewrite Hr, Hroot, fill_deref. apply HQ.
  split; [done|]. split; [by constructor|]. split; [done|]. split; [done|]. simpl. rewrite fill_store.
  destruct (map_get k m) as [x|] eqn:E; [|by exists Null].
  exists x. by rewrite map_set_get.
Qed.

(** A value in an open container is the container with the value. *)
Lemma filled_array K a v d : filled (FArray a :: K) v d -> opened K (Array (a ++ [v])) d.
Proof. intros (He & Ho & Hr & Hroot). inversion Ho; subst. by repeat split. Qed.

Lemma filled_object K m k v d :
  filled (FObject m k :: K) v d -> opened K (Object (map_set k v m)) d /\ ordered (map_set k v m).
Proof. intros (He & Ho & Hr & Hroot). inversion Ho; subst. split; [by repeat split|auto with jkit]. Qed.

Lemma opened_array K a d : opened K (Array a) d -> awaits_value (FArray a :: K) d.
Proof. intros (He & Ho & Hr & Hroot). repeat split; try done. by constructor. Qed.

End dom.
