(* ===== verification/JsonParserFacts.v ===== *)
(** * The parser computes the values of the grammar

    The loop of [sax_parse_internal] with the handler that builds a value, as a
    machine: the states are the open containers with the tokens read so far.  Every
    turn keeps the reading and the value in step with the grammar, so what is
    returned is what the grammar assigns to the text; every text of the grammar is
    read to its end; every other text is an error, never undefined. *)
From stdpp Require Import prelude strings list.
From Stdlib Require Import Ascii ZArith Lia.
From S2P Require Import Prelude CxxLib CxxMap Json JsonFacts JsonDump JsonLexer JsonParser JsonGrammar JsonWp JsonLexerFacts JsonDom.

Local Open Scope Z_scope.
Local Open Scope json_scope.

(** ** Sequences of the grammar, extended at the end *)

Section snoc.
Context {F : Type} `{CFloat F}.

Lemma elements_snoc (a : list (json F)) ts v us :
  elements a ts -> value v us -> elements (a ++ [v]) (ts ++ tk_comma :: us).
Proof.
  induction 1 as [w ws Hw|w ws a ts Hw Ha IH]; intros Hv; simpl.
  - apply elements_more; [done|by constructor].
  - rewrite <- app_assoc. simpl. apply elements_more; auto.
Qed.

Lemma members_snoc (ms : list (str * json F)) ts k v us :
  members ms ts -> value v us -> members (ms ++ [(k, v)]) (ts ++ tk_comma :: tk_string k :: tk_colon :: us).
Proof.
  induction 1 as [k' w ws Hw|k' w ws ms ts Hw Hm IH]; intros Hv; simpl.
  - apply members_more; [done|by constructor].
  - rewrite <- app_assoc. simpl. apply members_more; auto.
Qed.

Lemma lexes_all_snoc p ts q t q' :
  lexes_all p ts q -> lexes (F := F) q t q' -> lexes_all p (ts ++ [t]) q'.
Proof. induction 1 as [p|p t' p' ts q Ht' _ IH]; intros Ht; simpl; repeat (econstructor; eauto). Qed.
End snoc.

(** ** Where the tokens read so far have led *)

Section contexts.
Context {F : Type} `{CFloat F}.

Definition kind (f : frame (F := F)) : bool := match f with FArray _ => true | FObject _ _ => false end.

(** The elements before the next, with the comma after them. *)
Definition elements_before (a : list (json F)) (ts : list (token F)) : Prop :=
  a = [] /\ ts = [] \/ exists us, elements a us /\ ts = us ++ [tk_comma].

Definition members_before (m : list (str * json F)) (ts : list (token F)) : Prop :=
  m = [] /\ ts = [] \/
  exists ms us, members ms us /\ m = foldl (fun m x => map_set x.1 x.2 m) [] ms /\ ts = us ++ [tk_comma].

(** The tokens read when the next value goes into the hole. *)
Fixpoint context (K : list frame) (ts : list (token F)) : Prop :=
  match K with
  | [] => ts = []
  | FArray a :: K' => exists ts' us, context K' ts' /\ elements_before a us /\ ts = ts' ++ tk_open_array :: us
  | FObject m k :: K' => exists ts' us, context K' ts' /\ members_before m us /\
      ts = ts' ++ tk_open_object :: us ++ [tk_string k; tk_colon]
  end.

Lemma elements_before_snoc a ts v us : elements_before a ts -> value v us -> elements (a ++ [v]) (ts ++ us).
Proof.
  intros [[-> ->]|(es & He & ->)] Hv; [by constructor|]. rewrite <- app_assoc. by apply elements_snoc.
Qed.

Lemma members_before_snoc m ts k v us :
  members_before m ts -> value v us ->
  exists ms, members ms (ts ++ tk_string k :: tk_colon :: us) /\
    map_set k v m = foldl (fun m x => map_set x.1 x.2 m) [] ms.
Proof.
  intros [[-> ->]|(ms & es & Hm & -> & ->)] Hv.
  - exists [(k, v)]. split; [by constructor|done].
  - exists (ms ++ [(k, v)]). rewrite <- app_assoc, foldl_app. split; [by apply members_snoc|done].
Qed.

(** The next hole after a comma, and the container closed. *)
Lemma context_next_element K a ts v us :
  context (FArray a :: K) ts -> value v us -> context (FArray (a ++ [v]) :: K) (ts ++ us ++ [tk_comma]).
Proof.
  intros (ts' & es & HK & He & ->) Hv. exists ts', ((es ++ us) ++ [tk_comma]). split; [done|]. split.
  - right. exists (es ++ us). split; [by apply elements_before_snoc|done].
  - by rewrite <- !app_assoc.
Qed.

Lemma context_close_array K a ts v us :
  context (FArray a :: K) ts -> value v us ->
  exists ts' us', context K ts' /\ value (Array (a ++ [v])) us' /\ ts ++ us ++ [tk_close_array] = ts' ++ us'.
Proof.
  intros (ts' & es & HK & He & ->) Hv. exists ts', (tk_open_array :: (es ++ us) ++ [tk_close_array]).
  split; [done|]. split; [constructor; by apply elements_before_snoc|]. by rewrite <- !app_assoc.
Qed.

Lemma context_next_member K m k ts v us k' :
  context (FObject m k :: K) ts -> value v us ->
  context (FObject (map_set k v m) k' :: K) (ts ++ us ++ [tk_comma; tk_string k'; tk_colon]).
Proof.
  intros (ts' & es & HK & Hm & ->) Hv. destruct (members_before_snoc m es k v us Hm Hv) as (ms & Hms & ->).
  exists ts', ((es ++ tk_string k :: tk_colon :: us) ++ [tk_comma]). split; [done|]. split.
  - right. by eexists ms, _.
  - rewrite <- !app_assoc. simpl. by rewrite <- !app_assoc.
Qed.

Lemma context_close_object K m k ts v us :
  context (FObject m k :: K) ts -> value v us ->
  exists ts' us', context K ts' /\ value (Object (map_set k v m)) us' /\ ts ++ us ++ [tk_close_object] = ts' ++ us'.
Proof.
  intros (ts' & es & HK & Hm & ->) Hv. destruct (members_before_snoc m es k v us Hm Hv) as (ms & Hms & ->).
  exists ts'. eexists. split; [done|]. split; [by constructor|]. rewrite <- !app_assoc. simpl. by rewrite <- !app_assoc.
Qed.

End contexts.

(** ** Runs of the parser *)

(** What a function returns when the handler stopped the parser. *)
Class Stop (A : Type) := is_stop : A -> Prop.
#[export] Instance stop_bool : Stop bool := fun b => b = false.
#[export] Instance stop_flow : Stop flow := fun f => f = Return false.
#[export] Instance stop_turn {X} : Stop (X + bool) := fun r => r = inr false.
#[export] Instance stop_token : Stop token_type := fun _ => False.

Section machine.
Context {F : Type} `{CFloat F} (allow_exceptions : bool) (text : str).

Abbreviation D := (json_sax_dom_parser F).
Abbreviation P := (parser F D).

#[local] Instance handler : SAX F D := dom_sax allow_exceptions.

(** The lexer has read a part of the text and [q] follows, or has gone on, at
    most to the end. *)
Definition at_text (l : lexer F) (q : str) : Prop :=
  exists b n, reads l q b n /\ 0 < n /\ n + str_size q = str_size text.
Definition in_text (l : lexer F) : Prop :=
  exists q b n, reads l q b n /\ 0 < n <= str_size text + 1.

(** The errors of the parser: a syntax error at a byte of the text or after its
    last, or a number out of range. *)
Definition error_in_text (e : json_exception) : Prop :=
  match e with
  | json_parse_error id pos _ => id = 101 /\ 1 <= chars_read_total pos <= str_size text + 1
  | json_out_of_range id => id = 406
  | _ => False
  end.

Lemma at_in_text l q : at_text l q -> in_text l.
Proof. intros (b & n & Hl & Hn & Hq). exists q, b, n. pose proof (str_size_nonneg q). split; [done|lia]. Qed.

(** [m] returns with [Q], or stops on an error: it throws it, or records it and
    returns that it stopped. *)
Definition runs {A} `{Stop A} (m : M P A) (p : P) (Q : A -> P -> Prop) : Prop :=
  match m p with
  | Ret (a, p') => Q a p' \/ (allow_exceptions = false /\ is_stop a /\ errored (sax p') = true /\ in_text (m_lexer p'))
  | Throw e => allow_exceptions = true /\ error_in_text e
  | Undef => False
  end.

Lemma runs_ret {A} `{Stop A} (a : A) p (Q : A -> P -> Prop) : Q a p -> runs (mret a) p Q.
Proof. by left. Qed.

Lemma runs_mono {A} `{Stop A} (m : M P A) p (Q Q' : A -> P -> Prop) :
  runs m p Q -> (forall a p', Q a p' -> Q' a p') -> runs m p Q'.
Proof. unfold runs. destruct (m p) as [[a p']|e|]; naive_solver. Qed.

Lemma runs_bind {A B} `{Stop A} `{Stop B} (m : M P A) (k : A -> M P B) p (Q : B -> P -> Prop) :
  runs m p (fun a p' => runs (k a) p' Q) ->
  (forall a p', is_stop a -> exists b, k a p' = Ret (b, p') /\ is_stop b) ->
  runs (mbind_ m k) p Q.
Proof.
  unfold runs, mbind_. intros Hm Hk. destruct (m p) as [[a p']|e|]; simpl; [|done|done].
  destruct Hm as [Hm|(Ha & Hs & He & Hl)]; [done|]. destruct (Hk a p' Hs) as (b & -> & Hb). right. done.
Qed.

(** Reading the state. *)
Lemma runs_mget {A B} `{Stop B} (f : P -> A) (k : A -> M P B) p (Q : B -> P -> Prop) :
  runs (k (f p)) p Q -> runs (let* x := mget f in k x) p Q.
Proof. done. Qed.

(** A call of the handler that goes well. *)
Lemma runs_on_sax {A B} `{Stop B} (m : M D A) (k : A -> M P B) p (Q : B -> P -> Prop) :
  wp m (sax p) (fun a d => runs (k a) (mk_parser (m_lexer p) (last_token p) d) Q) ->
  runs (let* x := on_sax m in k x) p Q.
Proof. unfold wp, runs, mbind_, on_sax. destruct (m (sax p)) as [[a d]|e|]; done. Qed.

Lemma runs_unless (m : M D bool) (k : M P flow) p (Q : flow -> P -> Prop) :
  wp m (sax p) (fun a d => a = true /\ runs k (mk_parser (m_lexer p) (last_token p) d) Q) ->
  runs (unless m k) p Q.
Proof.
  intros Hm. apply runs_on_sax. eapply wp_mono; [exact Hm|]. by intros a d [-> Hk].
Qed.

(** An error. *)
Lemma runs_syntax_error expected context p (Q : bool -> P -> Prop) :
  in_text (m_lexer p) -> runs (syntax_error expected context) p Q.
Proof.
  intros (q & b & n & Hl & Hn). unfold runs, syntax_error, mbind_, mget, on_sax, sax_parse_error. simpl.
  unfold dom_parse_error. destruct allow_exceptions; simpl.
  - split; [done|]. split; [done|]. rewrite (reads_total _ _ _ _ Hl). lia.
  - right. split_and!; try done. by exists q, b, n.
Qed.

Lemma runs_fail expected context p (Q : flow -> P -> Prop) :
  in_text (m_lexer p) -> runs (fail expected context) p Q.
Proof.
  intros Hl. apply runs_bind; [by apply runs_syntax_error|]. intros a p' Ha. exists (Return a).
  split; [done|]. by rewrite Ha.
Qed.

Lemma runs_out_of_range p (Q : flow -> P -> Prop) :
  in_text (m_lexer p) ->
  runs (let* b := on_sax (sax_parse_error (json_out_of_range 406)) in mret (Return b)) p Q.
Proof.
  intros Hl. unfold runs, mbind_, mret, on_sax, sax_parse_error. simpl. unfold dom_parse_error.
  destruct allow_exceptions; simpl; [done|]. right. done.
Qed.

(** [get_token] from [q] on: the next token, with what follows it; else the end
    or an error. *)
Lemma runs_get_token {B} `{Stop B} (k : token_type -> M P B) p q (Q : B -> P -> Prop) :
  at_text (m_lexer p) q ->
  (forall tok q' t l, lexes q tok q' -> shows tok t l -> at_text l q' ->
     (length q' < length q)%nat -> runs (k t) (mk_parser l t (sax p)) Q) ->
  (forall t l, t = end_of_input \/ t = parse_error -> in_text l -> (length (rest l) <= length q)%nat ->
     (t = end_of_input <-> ends q) -> (forall tok q', ~ lexes q tok q') ->
     runs (k t) (mk_parser l t (sax p)) Q) ->
  runs (let* t := get_token in k t) p Q.
Proof.
  intros (b & n & Hl & Hn & Hq) Hgood Hbad.
  assert (Hscan : wp scan (m_lexer p) (fun t l => runs (k t) (mk_parser l t (sax p)) Q)).
  2: { unfold wp in Hscan. unfold runs, mbind_, get_token in *. destruct (scan (m_lexer p)) as [[t l]|e|]; done. }
  assert (Hstop : forall l, stopped q n l -> in_text l /\ (length (rest l) <= length q)%nat).
  { intros l (p' & b' & n' & Hl' & Hp' & Hn'). split; [exists p', b', n'; split; [done|lia]|].
    by rewrite (reads_rest _ _ _ _ Hl'). }
  eapply wp_scan; [done|lia|]. split_and!.
  - intros tok q' t l Ht Hsh (b' & k' & Hl' & Hk'). eapply (Hgood tok q'); [done|done| |].
    + exists b', k'. split; [done|]. apply lexes_shorter in Ht. unfold str_size in *. lia.
    + by eapply lexes_shorter.
  - intros l He Hs. apply Hbad; [by left|by apply Hstop..|done|]. intros tok q' Ht. by apply lexes_not_ends in Ht.
  - intros l Hno He Hs. apply Hbad; [by right|by apply Hstop..| |done]. by split.
Qed.

(** *** The states of the machine *)

Definition consumed (ts : list (token F)) (q : str) : Prop := exists p, after_bom text p /\ lexes_all p ts q.

Lemma consumed_snoc ts q t q' : consumed ts q -> lexes q t q' -> consumed (ts ++ [t]) q'.
Proof. intros (p & Hp & Hts) Ht. exists p. split; [done|]. by eapply lexes_all_snoc. Qed.

Lemma consumed_snoc2 ts q t q' t' q2 :
  consumed ts q -> lexes q t q' -> lexes q' t' q2 -> consumed (ts ++ [t; t']) q2.
Proof. intros Hts Ht Ht'. change (ts ++ [t; t']) with (ts ++ [t] ++ [t']). rewrite app_assoc. by eapply consumed_snoc; [eapply consumed_snoc|]. Qed.

(** The token read last is the first of [q], or there is none. *)
Definition ahead (q : str) (p : P) : Prop :=
  (exists tok q', lexes q tok q' /\ shows tok (last_token p) (m_lexer p) /\ at_text (m_lexer p) q') \/
  ((last_token p = end_of_input \/ last_token p = parse_error) /\ in_text (m_lexer p) /\
   forall tok q', ~ lexes q tok q').

Definition before_value (K : list frame) (p : P) : Prop :=
  exists ts q, context K ts /\ consumed ts q /\ awaits_value K (sax p) /\ ahead q p.

Definition after_value (K : list frame) (p : P) : Prop :=
  exists ts us v q, context K ts /\ value v us /\ consumed (ts ++ us) q /\ at_text (m_lexer p) q /\ filled K v (sax p).

(** What is left to do: the characters, and the token read last. *)
Definition left_ (p : P) : nat := length (rest (m_lexer p)).
Definition token_left (p : P) : nat :=
  if bool_decide (last_token p = end_of_input \/ last_token p = parse_error) then O else 1%nat.

Lemma token_left_le p : (token_left p <= 1)%nat.
Proof. unfold token_left. case_bool_decide; lia. Qed.

Lemma at_text_rest l q : at_text l q -> rest l = q.
Proof. by intros (b & n & [Hl _ _ _] & _). Qed.

(** The token after a position. *)
Lemma runs_next_token {B} `{Stop B} (k : M P B) p q (Q : B -> P -> Prop) :
  at_text (m_lexer p) q ->
  (forall p', ahead q p' -> sax p' = sax p -> (left_ p' + token_left p' <= length q)%nat -> runs k p' Q) ->
  runs (do* get_token in k) p Q.
Proof.
  intros Hl Hk. eapply runs_get_token; [done|..].
  - intros tok q' t l Ht Hsh Hl' Hlen. apply Hk; [left; by exists tok, q'|done|].
    unfold left_. simpl. rewrite (at_text_rest _ _ Hl'). pose proof (token_left_le (mk_parser l t (sax p))). lia.
  - intros t l Ht Hl' Hlen _ Hno. apply Hk; [by right|done|]. unfold left_, token_left. simpl.
    rewrite bool_decide_eq_true_2 by done. lia.
Qed.

Lemma shows_string tok (l : lexer F) : shows tok value_string l -> exists s, tok = tk_string s /\ token_buffer l = s.
Proof. destruct tok as [|[]| | | | | | | | | |]; simpl; naive_solver. Qed.

Lemma shows_separator tok t (l : lexer F) : shows tok t l ->
  (t = name_separator -> tok = tk_colon) /\ (t = value_separator -> tok = tk_comma) /\
  (t = end_array -> tok = tk_close_array) /\ (t = end_object -> tok = tk_close_object).
Proof. destruct tok as [|[]| | | | | | | | | |]; simpl; intros; split_and!; intros; destruct_and?; congruence. Qed.

Lemma runs_read_key K m k p ts q :
  opened K (Object m) (sax p) -> ordered m -> token_buffer (m_lexer p) = k ->
  at_text (m_lexer p) q -> consumed ts q -> context (FObject m k :: K) (ts ++ [tk_colon]) ->
  runs (read_key (false :: map kind K)) p (fun f p' =>
    f = Continue (map kind (FObject m k :: K)) /\ before_value (FObject m k :: K) p' /\
    (left_ p' + token_left p' < length q)%nat).
Proof.
  intros Ho Hm Hk Hl Hts HK. apply runs_mget. rewrite Hk. apply runs_unless. eapply wp_dom_key; [done|done|].
  intros d Hd. split; [done|]. eapply runs_get_token; [exact Hl|..].
  - intros tok q' t l Ht Hsh Hl' Hlen. case_bool_decide as Ec; simpl; [|apply runs_fail; by eapply at_in_text].
    apply shows_separator in Hsh as (Hsep & _). rewrite (Hsep Ec) in Ht. eapply runs_next_token; [done|].
    intros p' Ha Hp' Hw. apply runs_ret. split; [done|]. split; [|simpl in Hw; lia].
    exists (ts ++ [tk_colon]), q'. rewrite Hp'. split; [done|]. split; [by eapply consumed_snoc|done].
  - intros t l Ht Hl' _ _ _. rewrite bool_decide_eq_false_2 by (by destruct Ht as [->| ->]). by apply runs_fail.
Qed.

(** *** The turns *)

Definition value_post (K : list frame) (w : nat) (f : flow) (p : P) : Prop :=
  match f with
  | Continue states => exists K', states = map kind K' /\ before_value K' p /\ (left_ p + token_left p < w)%nat
  | Break => after_value K p /\ (left_ p < w)%nat
  | Return _ => False
  end.

(** A token that is a value by itself. *)
Lemma runs_scalar K p tok v q q' ts :
  awaits_value K (sax p) -> context K ts -> consumed ts q -> lexes q tok q' -> at_text (m_lexer p) q' -> value v [tok] ->
  runs (unless (handle_scalar v) (mret Break)) p (value_post K (S (left_ p))).
Proof.
  intros Hr HK Hts Ht Hl Hv. apply runs_unless. eapply wp_handle_scalar; [done|]. intros d Hd. split; [done|].
  apply runs_ret. split; [|unfold left_; simpl; lia]. exists ts, [tok], v, q'. split_and!; try done.
  by eapply consumed_snoc.
Qed.

(** An opening bracket: the closing one ends an empty container. *)
Lemma runs_begin_array K p q q' ts :
  awaits_value K (sax p) -> context K ts -> consumed ts q -> lexes q tk_open_array q' -> at_text (m_lexer p) q' ->
  runs (unless (start_container (Array []))
    (let* t := get_token in
     if bool_decide (t = end_array) then unless end_container (mret Break)
     else mret (Continue (true :: map kind K)))) p (value_post K (S (left_ p))).
Proof.
  intros Hr HK Hts Ht Hl. apply runs_unless. eapply wp_start_container; [done|]. intros d Hd. split; [done|].
  assert (Hts' := consumed_snoc _ _ _ _ Hts Ht).
  assert (HK' : context (FArray [] :: K) (ts ++ [tk_open_array])) by (exists ts, []; split_and!; [done|by left|done]).
  assert (Hcont : forall p', sax p' = d -> ahead q' p' -> (left_ p' + token_left p' <= length q')%nat ->
    value_post K (S (left_ p)) (Continue (true :: map kind K)) p').
  { intros p' Hd' Ha Hw. exists (FArray [] :: K). split; [done|]. split.
    - exists (ts ++ [tk_open_array]), q'. rewrite Hd'. split_and!; try done. by apply opened_array.
    - unfold left_ at 2. rewrite (at_text_rest _ _ Hl). lia. }
  eapply runs_get_token; [exact Hl|..].
  - intros tok q2 t l Ht2 Hsh Hl2 Hlen. case_bool_decide as Ec.
    + apply shows_separator in Hsh as (_ & _ & Hsep & _). rewrite (Hsep Ec) in Ht2.
      apply runs_unless. eapply wp_end_container; [done|]. intros d' Hd'. split; [done|]. apply runs_ret. split.
      * exists ts, [tk_open_array; tk_close_array], (Array []), q2. split_and!; try done; [constructor|].
        exact (consumed_snoc2 _ _ _ _ _ _ Hts Ht Ht2).
      * unfold left_. simpl. rewrite (at_text_rest _ _ Hl2), (at_text_rest _ _ Hl). lia.
    + apply runs_ret, Hcont; [done|left; by exists tok, q2|]. unfold left_. simpl.
      rewrite (at_text_rest _ _ Hl2). pose proof (token_left_le (mk_parser l t d)). lia.
  - intros t l Ht2 Hl2 Hlen _ Hno. rewrite bool_decide_eq_false_2 by (by destruct Ht2 as [->| ->]).
    apply runs_ret, Hcont; [done|by right|]. unfold left_, token_left. simpl. rewrite bool_decide_eq_true_2 by done. lia.
Qed.

Lemma runs_begin_object K p q q' ts :
  awaits_value K (sax p) -> context K ts -> consumed ts q -> lexes q tk_open_object q' -> at_text (m_lexer p) q' ->
  runs (unless (start_container (Object []))
    (let* t := get_token in
     if bool_decide (t = end_object) then unless end_container (mret Break)
     else if negb (bool_decide (t = value_string)) then fail value_string (lit "object key")
     else read_key (false :: map kind K))) p (value_post K (S (left_ p))).
Proof.
  intros Hr HK Hts Ht Hl. apply runs_unless. eapply wp_start_container; [done|]. intros d Hd. split; [done|].
  assert (Hts' := consumed_snoc _ _ _ _ Hts Ht). unfold left_ at 1. rewrite (at_text_rest _ _ Hl).
  eapply runs_get_token; [exact Hl|..].
  - intros tok q2 t l Ht2 Hsh Hl2 Hlen. case_bool_decide as Ec.
    + apply shows_separator in Hsh as (_ & _ & _ & Hsep). rewrite (Hsep Ec) in Ht2.
      apply runs_unless. eapply wp_end_container; [done|]. intros d' Hd'. split; [done|]. apply runs_ret. split.
      * exists ts, [tk_open_object; tk_close_object], (Object []), q2. split_and!; try done; [constructor|].
        exact (consumed_snoc2 _ _ _ _ _ _ Hts Ht Ht2).
      * unfold left_. simpl. rewrite (at_text_rest _ _ Hl2). lia.
    + case_bool_decide as Es; simpl; [|apply runs_fail; by eapply at_in_text].
      subst t. apply shows_string in Hsh as (k & -> & Hk).
      eapply runs_mono; [eapply (runs_read_key K [] k _ ((ts ++ [tk_open_object]) ++ [tk_string k]) q2)|].
      * done.
      * constructor.
      * done.
      * done.
      * by eapply consumed_snoc.
      * exists ts, []. split; [done|]. split; [by left|]. by rewrite <- !app_assoc.
      * intros f p' (-> & Hp' & Hw). exists (FObject [] k :: K). split_and!; [done|done|lia].
  - intros t l Ht2 Hl2 Hlen _ Hno. rewrite !bool_decide_eq_false_2 by (by destruct Ht2 as [->| ->]). by apply runs_fail.
Qed.

Lemma runs_read_value K p :
  before_value K p -> runs (read_value (map kind K)) p (value_post K (left_ p + token_left p)).
Proof.
  intros (ts & q & HK & Hts & Hr & Ha). apply runs_mget.
  destruct Ha as [(tok & q' & Ht & Hsh & Hl)|(Ht & Hl & _)].
  2: { destruct Ht as [->| ->]; by apply runs_fail. }
  assert (Hw : (token_left p = 1)%nat).
  { unfold token_left. rewrite bool_decide_eq_false_2; [done|]. intros Hbad.
    destruct tok as [|[]| | | | | | | | | |]; simpl in Hsh; destruct_and?; destruct Hbad; congruence. }
  rewrite Hw, Nat.add_1_r. assert (Hin := at_in_text _ _ Hl).
  destruct tok as [|[]|s|u|i|f| | | | | |]; simpl in Hsh; try (apply and_comm in Hsh as [Hv Hsh]); rewrite Hsh.
  - eapply runs_scalar; try done. constructor.
  - eapply runs_scalar; try done. constructor.
  - eapply runs_scalar; try done. constructor.
  - apply runs_mget. rewrite Hv. eapply runs_scalar; try done. constructor.
  - apply runs_mget. rewrite Hv. eapply runs_scalar; try done. constructor.
  - apply runs_mget. rewrite Hv. eapply runs_scalar; try done. constructor.
  - apply runs_mget. rewrite Hv. destruct (isfinite f) eqn:Ef; simpl; [|by apply runs_out_of_range].
    eapply runs_scalar; try done. by constructor.
  - by eapply runs_begin_array.
  - by apply runs_fail.
  - by eapply runs_begin_object.
  - by apply runs_fail.
  - by apply runs_fail.
  - by apply runs_fail.
Qed.

Definition machine_state (x : list bool * bool) (p : P) : Prop :=
  exists K, x.1 = map kind K /\ if x.2 then after_value K p else before_value K p.

Definition weight (x : list bool * bool) (p : P) : nat :=
  (left_ p + if x.2 then 1 else token_left p)%nat.

Definition turn_result (w : nat) (r : (list bool * bool) + bool) (p : P) : Prop :=
  match r with
  | inl x => machine_state x p /\ (weight x p < w)%nat
  | inr b => b = true /\ after_value [] p
  end.

Lemma runs_evaluate_array a K p :
  after_value (FArray a :: K) p -> runs (evaluate (true :: map kind K)) p (turn_result (S (left_ p))).
Proof.
  intros (ts & us & v & q & HK & Hv & Hts & Hl & Hd). unfold left_ at 1. rewrite (at_text_rest _ _ Hl).
  pose proof (filled_array _ _ _ _ Hd) as Ho. eapply runs_get_token; [exact Hl|..].
  - intros tok q' t l Ht Hsh Hl' Hlen. apply shows_separator in Hsh as (_ & Hcomma & Hclose & _).
    assert (Hts' := consumed_snoc _ _ _ _ Hts Ht). rewrite <- app_assoc in Hts'.
    case_bool_decide as Ec; [|case_bool_decide as Ee].
    + rewrite (Hcomma Ec) in Hts'. eapply runs_next_token; [exact Hl'|]. intros p' Ha Hp' Hw. apply runs_ret.
      split; [|unfold weight; simpl; lia]. exists (FArray (a ++ [v]) :: K). split; [done|].
      eexists _, q'. split; [by apply context_next_element|]. split; [done|]. rewrite Hp'. split; [|done].
      by apply opened_array.
    + rewrite (Hclose Ee) in Hts'. apply runs_on_sax. eapply wp_end_container; [exact Ho|]. intros d' Hd'. apply runs_ret.
      split; [|unfold weight, left_; simpl; rewrite (at_text_rest _ _ Hl'); lia]. exists K. split; [done|].
      destruct (context_close_array K a ts v us HK Hv) as (ts' & us' & HK' & Hv' & E). rewrite E in Hts'.
      by exists ts', us', (Array (a ++ [v])), q'.
    + apply runs_bind; [apply runs_syntax_error; by eapply at_in_text|]. intros b p' Hb. exists (inr b). by rewrite Hb.
  - intros t l Ht Hl' _ _ _. rewrite !bool_decide_eq_false_2 by (by destruct Ht as [->| ->]).
    apply runs_bind; [by apply runs_syntax_error|]. intros b p' Hb. exists (inr b). by rewrite Hb.
Qed.

Lemma runs_evaluate_object m k K p :
  after_value (FObject m k :: K) p -> runs (evaluate (false :: map kind K)) p (turn_result (S (left_ p))).
Proof.
  intros (ts & us & v & q & HK & Hv & Hts & Hl & Hd). unfold left_ at 1. rewrite (at_text_rest _ _ Hl).
  pose proof (filled_object _ _ _ _ _ Hd) as [Ho Hm]. eapply runs_get_token; [exact Hl|..].
  - intros tok q' t l Ht Hsh Hl' Hlen. apply shows_separator in Hsh as (_ & Hcomma & _ & Hclose).
    assert (Hts' := consumed_snoc _ _ _ _ Hts Ht).
    case_bool_decide as Ec; [|case_bool_decide as Ee].
    + rewrite (Hcomma Ec) in Hts'. eapply runs_get_token; [exact Hl'|..].
      * intros tok2 q2 t2 l2 Ht2 Hsh2 Hl2 Hlen2. case_bool_decide as Es; simpl.
        2: { apply runs_bind; [apply runs_fail; by eapply at_in_text|]. by intros f p' ->; exists (inr false). }
        subst t2. apply shows_string in Hsh2 as (k' & -> & Hk').
        assert (Hts2 := consumed_snoc _ _ _ _ Hts' Ht2).
        apply runs_bind; [|by intros f p' ->; exists (inr false)].
        eapply runs_mono; [eapply (runs_read_key K (map_set k v m) k' _ _ q2); [exact Ho|done|done|done|exact Hts2|]|].
        -- pose proof (context_next_member K m k ts v us k' HK Hv) as Hn. rewrite <- !app_assoc. exact Hn.
        -- intros f p' (-> & Hp' & Hw). apply runs_ret. split; [|unfold weight; simpl; lia].
           by exists (FObject (map_set k v m) k' :: K).
      * intros t2 l2 Ht2 Hl2 _ _ _. rewrite bool_decide_eq_false_2 by (by destruct Ht2 as [->| ->]). simpl.
        apply runs_bind; [by apply runs_fail|]. by intros f p' ->; exists (inr false).
    + rewrite (Hclose Ee), <- app_assoc in Hts'. apply runs_on_sax. eapply wp_end_container; [exact Ho|]. intros d' Hd'. apply runs_ret.
      split; [|unfold weight, left_; simpl; rewrite (at_text_rest _ _ Hl'); lia]. exists K. split; [done|].
      destruct (context_close_object K m k ts v us HK Hv) as (ts' & us' & HK' & Hv' & E). rewrite E in Hts'.
      by exists ts', us', (Object (map_set k v m)), q'.
    + apply runs_bind; [apply runs_syntax_error; by eapply at_in_text|]. intros b p' Hb. exists (inr b). by rewrite Hb.
  - intros t l Ht Hl' _ _ _. rewrite !bool_decide_eq_false_2 by (by destruct Ht as [->| ->]).
    apply runs_bind; [by apply runs_syntax_error|]. intros b p' Hb. exists (inr b). by rewrite Hb.
Qed.

Lemma runs_evaluate K p : after_value K p -> runs (evaluate (map kind K)) p (turn_result (S (left_ p))).
Proof.
  destruct K as [|[a|m k] K]; intros Hp; [by apply runs_ret|by eapply runs_evaluate_array|by eapply runs_evaluate_object].
Qed.

Lemma runs_sax_turn x p : machine_state x p -> runs (sax_turn x) p (turn_result (weight x p)).
Proof.
  destruct x as [states []]; intros (K & HK & Hp); simpl in HK, Hp; subst states; unfold sax_turn, weight; simpl.
  - rewrite Nat.add_1_r. by apply runs_evaluate.
  - apply runs_bind; [|by intros f p' ->; exists (inr false)].
    eapply runs_mono; [by apply runs_read_value|]. intros [states| |b] p'; simpl; [| |done].
    + intros (K' & -> & Hp' & Hw). apply runs_ret. split; [by exists K'|done].
    + intros [Hp' Hw]. eapply runs_mono; [by apply runs_evaluate|]. intros [x|b] p2; simpl; [|done].
      intros [Hx Hwx]. split; [done|lia].
Qed.

(** The loop ends within its fuel: the text is a value up to here, or it is an
    error. *)
Lemma runs_loop fuel x p :
  machine_state x p -> (weight x p < fuel)%nat ->
  runs (while_ fuel sax_turn x) p (fun b p' => b = true /\ after_value [] p').
Proof.
  revert x p. induction fuel as [|fuel IH]; intros x p Hx Hw; [lia|]. cbn [while_].
  apply runs_bind; [|by intros r p' ->; exists false].
  eapply runs_mono; [by apply runs_sax_turn|]. intros [x'|b] p'; simpl.
  - intros [Hx' Hw']. apply IH; [done|lia].
  - intros Hb. by apply runs_ret.
Qed.
End machine.
