(* ===== verification/JsonParse.v ===== *)
(** * [json::parse] is the grammar

    Every text of the grammar is read to its value; with the soundness of the
    machine, [parse] returns a value exactly when the grammar assigns it to the
    text, and otherwise stops with an error inside the text. *)
From stdpp Require Import prelude strings list.
From Stdlib Require Import Ascii ZArith Lia.
From S2P Require Import Prelude CxxLib CxxMap Json JsonFacts JsonDump JsonLexer JsonParser JsonGrammar JsonWp JsonStrings JsonNumbers JsonLexerFacts JsonDom JsonParserFacts.

Local Open Scope Z_scope.
Local Open Scope json_scope.

(** ** Loops *)

Section loops.
Context {S X A : Type} (body : X -> M S (X + A)).

(** Some turns lead from one state to another. *)
Definition reach (x : X) (s : S) (x' : X) (s' : S) : Prop :=
  exists n, forall fuel, while_ (n + Datatypes.S fuel) body x s = while_ (Datatypes.S fuel) body x' s'.

Lemma reach_trans x s x1 s1 x2 s2 : reach x s x1 s1 -> reach x1 s1 x2 s2 -> reach x s x2 s2.
Proof.
  intros [n Hn] [m Hm]. exists (n + m)%nat. intros fuel.
  rewrite <- Nat.add_assoc, <- (Hm fuel). rewrite <- plus_n_Sm. apply Hn.
Qed.

Lemma reach_turn x s x' s' : body x s = Ret (inl x', s') -> reach x s x' s'.
Proof. intros E. exists 1%nat. intros fuel. simpl. unfold mbind_ at 1. by rewrite E. Qed.

Lemma reach_same x s x' s' : body x s = body x' s' -> reach x s x' s'.
Proof. intros E. exists 0%nat. intros fuel. simpl. unfold mbind_. by rewrite E. Qed.

(** A loop that ended keeps its result with more fuel. *)
Lemma while_more fuel k x s r : while_ fuel body x s = r -> r <> Undef -> while_ (fuel + k) body x s = r.
Proof.
  revert x s. induction fuel as [|fuel IH]; intros x s <- Hne; [done|]. simpl in *. unfold mbind_ in *.
  destruct (body x s) as [[[x'|a] s']|e|]; simpl in *; try done. by apply IH.
Qed.

Lemma reach_end fuel x s x' s' a s2 :
  reach x s x' s' -> body x' s' = Ret (inr a, s2) -> while_ fuel body x s <> Undef ->
  while_ fuel body x s = Ret (a, s2).
Proof.
  intros [n Hn] E Hne. specialize (Hn fuel). rewrite <- (while_more fuel (n + 1) x s _ eq_refl Hne).
  replace (fuel + (n + 1))%nat with (n + Datatypes.S fuel)%nat by lia. rewrite Hn. simpl. unfold mbind_. by rewrite E.
Qed.
End loops.

(** ** Every text of the grammar is read *)

Section complete.
Context {F : Type} `{CFloat F} (allow_exceptions : bool) (text : str).

Abbreviation D := (json_sax_dom_parser F).
Abbreviation P := (parser F D).

#[local] Instance handler : SAX F D := dom_sax allow_exceptions.

Abbreviation reaches := (reach (S := P) sax_turn).
Abbreviation at_text := (at_text text).

(** The tokens [ts] come next, the first of them read already, and [q] follows. *)
Definition reading (ts : list (token F)) (q : str) (p : P) : Prop :=
  exists tok ts' q1, ts = tok :: ts' /\ shows tok (last_token p) (m_lexer p) /\ at_text (m_lexer p) q1 /\ lexes_all q1 ts' q.

Lemma wp_get_token tok ts q q' p (Q : token_type -> P -> Prop) :
  at_text (m_lexer p) q -> lexes_all q (tok :: ts) q' ->
  (forall p', shows tok (last_token p') (m_lexer p') -> reading (tok :: ts) q' p' -> sax p' = sax p ->
     Q (last_token p') p') ->
  wp get_token p Q.
Proof.
  intros (b & n & Hl & Hn & Hq) Hts HQ. inversion Hts as [|? ? q1 ? ? Ht Hts']; subst.
  assert (Hscan : wp scan (m_lexer p) (fun t l => Q t (mk_parser l t (sax p)))).
  2: { unfold wp in *. unfold get_token. destruct (scan (m_lexer p)) as [[t l]|e|]; done. }
  eapply wp_scan; [done|lia|]. split_and!.
  - intros tok' q2 t l Ht' Hsh (b' & k & Hl' & Hk). destruct (lexes_unique _ _ _ _ _ Ht Ht') as [<- <-].
    apply (HQ (mk_parser l t (sax p))); [done| |done]. exists tok, ts, q1. split_and!; try done.
    exists b', k. apply lexes_shorter in Ht. unfold str_size in *. split; [done|lia].
  - intros l He. by apply lexes_not_ends in Ht.
  - intros l Hno. by apply Hno in Ht.
Qed.

(** A token alone: where the lexer is after it. *)
Lemma reading_last tok q p : reading [tok] q p -> at_text (m_lexer p) q.
Proof. intros (tok' & ts & q1 & [= <- <-] & _ & Hl & Hts). by inversion Hts; subst. Qed.

Lemma wp_unless (m : M D bool) (k : M P flow) p (Q : flow -> P -> Prop) :
  wp m (sax p) (fun a d => a = true /\ wp k (mk_parser (m_lexer p) (last_token p) d) Q) -> wp (unless m k) p Q.
Proof.
  intros Hm. apply wp_bind. unfold wp in *. unfold on_sax. destruct (m (sax p)) as [[a d]|e|]; simpl; [|done|done].
  by destruct Hm as [-> Hk].
Qed.

(** The state in which a value has been read. *)
Definition value_read (K : list frame) (v : json F) (q : str) (x : list bool * bool) (p : P) : Prop :=
  exists p', reaches x p (map kind K, true) p' /\ filled K v (sax p') /\ at_text (m_lexer p') q.

Lemma value_read_break K v q p :
  wp (read_value (map kind K)) p (fun f p' => f = Break /\ filled K v (sax p') /\ at_text (m_lexer p') q) ->
  value_read K v q (map kind K, false) p.
Proof.
  intros Hw. apply wp_run in Hw as (f & p' & E & -> & Hd & Hl). exists p'. split; [|done].
  apply reach_same. unfold sax_turn. unfold mbind_. by rewrite E.
Qed.

Lemma value_read_trans K v q x p x' p' : reaches x p x' p' -> value_read K v q x' p' -> value_read K v q x p.
Proof. intros Hr (p2 & Hr2 & Hp2). exists p2. split; [by eapply reach_trans|done]. Qed.

Lemma reach_continue (K K' : list (frame (F := F))) p p' :
  read_value (map kind K) p = Ret (Continue (map kind K'), p') -> reaches (map kind K, false) p (map kind K', false) p'.
Proof. intros E. apply reach_turn. unfold sax_turn, mbind_. by rewrite E. Qed.

Lemma wp_scalar K (v : json F) q (p : P) :
  awaits_value K (sax p) -> at_text (m_lexer p) q ->
  wp (unless (handle_scalar v) (mret Break)) p (fun f p' => f = Break /\ filled K v (sax p') /\ at_text (m_lexer p') q).
Proof. intros Hr Hl. apply wp_unless. eapply wp_handle_scalar; [done|]. intros d Hd. split; [done|]. by apply wp_ret. Qed.

(** What each part of the grammar does to the machine. *)
Definition reads_value (v : json F) (ts : list (token F)) : Prop :=
  forall K q p, awaits_value K (sax p) -> reading ts q p -> value_read K v q (map kind K, false) p.

Definition reads_elements (a : list (json F)) (ts : list (token F)) : Prop :=
  forall K a0 q p, awaits_value (FArray a0 :: K) (sax p) -> reading (ts ++ [tk_close_array]) q p ->
    value_read K (Array (a0 ++ a)) q (true :: map kind K, false) p.

Definition reads_members (ms : list (str * json F)) (ts : list (token F)) : Prop :=
  forall K m0 q p, opened K (Object m0) (sax p) -> ordered m0 -> reading (ts ++ [tk_close_object]) q p ->
    exists p', read_key (false :: map kind K) p = Ret (Continue (false :: map kind K), p') /\
      value_read K (Object (foldl (fun m x => map_set x.1 x.2 m) m0 ms)) q (false :: map kind K, false) p'.

Lemma reading_app ts us q p :
  reading (ts ++ us) q p -> ts <> [] -> exists q1, reading ts q1 p /\ lexes_all q1 us q.
Proof.
  intros (tok & ts' & q1 & E & Hsh & Hl & Hts) Hne. destruct ts as [|tok' ts]; [done|]. injection E as -> <-.
  assert (exists q2, lexes_all q1 ts q2 /\ lexes_all q2 us q) as (q2 & H1 & H2).
  { clear -Hts. revert q1 Hts. induction ts as [|t ts IH]; intros q1 Hts; simpl in Hts; [by exists q1; split; [constructor|]|].
    inversion Hts as [|? ? q' ? ? Ht Hts']; subst. destruct (IH q' Hts') as (q2 & H1 & H2).
    exists q2. split; [by econstructor|done]. }
  exists q2. split; [|done]. by exists tok, ts, q1.
Qed.

Lemma value_nonempty (v : json F) ts : value v ts -> ts <> [].
Proof. by destruct 1. Qed.

Lemma scalar_reads v tok :
  (forall K q p, awaits_value K (sax p) -> at_text (m_lexer p) q -> shows tok (last_token p) (m_lexer p) ->
     wp (read_value (map kind K)) p (fun f p' => f = Break /\ filled K v (sax p') /\ at_text (m_lexer p') q)) ->
  reads_value v [tok].
Proof.
  intros Hw K q p Hr Hts. apply value_read_break. apply Hw; [done|by eapply reading_last|].
  by destruct Hts as (tok' & ts & q1 & [= <- <-] & Hsh & _).
Qed.

Lemma array_reads a ts (Ha : reads_elements a ts) (Hne : exists t us, ts = t :: us /\ t <> tk_close_array) :
  reads_value (Array a) (tk_open_array :: ts ++ [tk_close_array]).
Proof.
  intros K q p Hr (tok & ts' & q1 & [= <- <-] & Hsh & Hl & Hts). simpl in Hsh.
  destruct Hne as (t & us & -> & Ht).
  assert (Hw : wp (read_value (map kind K)) p (fun f p' => f = Continue (map kind (FArray [] :: K)) /\
    awaits_value (FArray [] :: K) (sax p') /\ reading ((t :: us) ++ [tk_close_array]) q p')).
  { apply wp_bind, wp_mget. rewrite Hsh. apply wp_unless. eapply wp_start_container; [done|]. intros d Hd.
    split; [done|]. apply wp_bind. eapply wp_get_token; [exact Hl|exact Hts|]. intros p' Hsh' Hp' Hd'.
    rewrite bool_decide_eq_false_2.
    - apply wp_ret. split; [done|]. split; [|done]. rewrite Hd'. by apply opened_array.
    - intros E. rewrite E in Hsh'. apply Ht. by apply shows_separator in Hsh' as (_ & _ & Hc & _); apply Hc. }
  apply wp_run in Hw as (f & p' & E & -> & Hr' & Hp'). eapply value_read_trans; [by eapply (reach_continue K (FArray [] :: K))|].
  by apply (Ha K []).
Qed.

Lemma object_reads ms ts (Hm : reads_members ms ts) (Hne : exists k us, ts = tk_string k :: us) :
  reads_value (Object (foldl (fun m x => map_set x.1 x.2 m) [] ms)) (tk_open_object :: ts ++ [tk_close_object]).
Proof.
  intros K q p Hr (tok & ts' & q1 & [= <- <-] & Hsh & Hl & Hts). simpl in Hsh. destruct Hne as (k & us & ->).
  assert (Hw : wp (read_value (map kind K)) p (fun f p' => f = Continue (false :: map kind K) /\
    value_read K (Object (foldl (fun m x => map_set x.1 x.2 m) [] ms)) q (false :: map kind K, false) p')).
  { apply wp_bind, wp_mget. rewrite Hsh. apply wp_unless. eapply wp_start_container; [done|]. intros d Hd.
    split; [done|]. apply wp_bind. eapply wp_get_token; [exact Hl|exact Hts|]. intros p' Hsh' Hp' Hd'.
    destruct Hsh' as [Et Hk]. rewrite Et. rewrite bool_decide_eq_false_2, bool_decide_eq_true_2 by done. simpl.
    destruct (Hm K [] q p') as (p2 & E & Hv); [by rewrite Hd'|constructor|done|]. unfold wp. by rewrite E. }
  apply wp_run in Hw as (f & p' & E & -> & Hv). eapply value_read_trans; [|exact Hv].
  apply reach_turn. unfold sax_turn, mbind_. by rewrite E.
Qed.

(** After an element: the closing bracket, or a comma and the next. *)
Lemma array_close K a0 v q p :
  filled (FArray a0 :: K) v (sax p) -> (exists q1, at_text (m_lexer p) q1 /\ lexes_all q1 [tk_close_array] q) ->
  value_read K (Array (a0 ++ [v])) q (true :: map kind K, true) p.
Proof.
  intros Hd (q1 & Hl & Hts). apply filled_array in Hd.
  assert (Hw : wp (evaluate (true :: map kind K)) p (fun r p' => r = inl (map kind K, true) /\
    filled K (Array (a0 ++ [v])) (sax p') /\ at_text (m_lexer p') q)).
  { apply wp_bind. eapply wp_get_token; [exact Hl|exact Hts|]. intros p' Hsh Hp' Hd'. simpl in Hsh. rewrite Hsh.
    rewrite bool_decide_eq_false_2, bool_decide_eq_true_2 by done. apply wp_bind. unfold wp at 1, on_sax. simpl.
    rewrite Hd'. pose proof (wp_end_container K (Array (a0 ++ [v])) (sax p)
      (fun b d => b = true /\ filled K (Array (a0 ++ [v])) d) Hd) as He.
    apply wp_run in He as (b & d & -> & -> & Hf); [|done]. simpl. apply wp_ret. split; [done|]. split; [done|].
    by eapply reading_last. }
  apply wp_run in Hw as (r & p' & E & -> & Hf & Hl'). exists p'. split; [|done]. by apply reach_turn.
Qed.

Lemma array_comma K a0 v us q p :
  filled (FArray a0 :: K) v (sax p) -> (exists q1, at_text (m_lexer p) q1 /\ lexes_all q1 (tk_comma :: us) q) -> us <> [] ->
  exists p', reaches (true :: map kind K, true) p (true :: map kind K, false) p' /\
    awaits_value (FArray (a0 ++ [v]) :: K) (sax p') /\ reading us q p'.
Proof.
  intros Hd (q1 & Hl & Hts) Hne. apply filled_array in Hd. destruct us as [|t us]; [done|].
  assert (Hw : wp (evaluate (true :: map kind K)) p (fun r p' => r = inl (true :: map kind K, false) /\
    awaits_value (FArray (a0 ++ [v]) :: K) (sax p') /\ reading (t :: us) q p')).
  { apply wp_bind. eapply wp_get_token; [exact Hl|exact Hts|]. intros p' Hsh Hp' Hd'. simpl in Hsh. rewrite Hsh.
    rewrite bool_decide_eq_true_2 by done. destruct Hp' as (tok' & ts' & q2 & [= <- <-] & _ & Hl' & Hts').
    apply wp_bind. eapply wp_get_token; [exact Hl'|exact Hts'|]. intros p2 _ Hp2 Hd2. apply wp_ret. split; [done|].
    split; [|done]. rewrite Hd2, Hd'. by apply opened_array. }
  apply wp_run in Hw as (r & p' & E & -> & Hr & Hp'). exists p'. split; [|done]. by apply reach_turn.
Qed.

Lemma elements_one_reads v ts : value v ts -> reads_value v ts -> reads_elements [v] ts.
Proof.
  intros Hv IH K a0 q p Hr Hts. apply reading_app in Hts as (q1 & Hts & Hc); [|by eapply value_nonempty].
  destruct (IH (FArray a0 :: K) q1 p Hr Hts) as (p1 & Hreach & Hd & Hl).
  eapply value_read_trans; [exact Hreach|]. apply array_close; [done|]. by exists q1.
Qed.

Lemma elements_more_reads v ts a us :
  value v ts -> reads_value v ts -> reads_elements a us -> reads_elements (v :: a) (ts ++ tk_comma :: us).
Proof.
  intros Hv IHv IHa K a0 q p Hr Hts. rewrite <- app_assoc in Hts.
  apply reading_app in Hts as (q1 & Hts & Hc); [|by eapply value_nonempty].
  destruct (IHv (FArray a0 :: K) q1 p Hr Hts) as (p1 & Hreach & Hd & Hl).
  destruct (array_comma K a0 v (us ++ [tk_close_array]) q p1) as (p2 & Hreach2 & Hr2 & Hts2);
    [done|by exists q1|by destruct us|].
  eapply value_read_trans; [exact Hreach|]. eapply value_read_trans; [exact Hreach2|].
  rewrite (cons_middle v a0 a), app_assoc. by apply IHa.
Qed.

(** A key and its colon. *)
Lemma key_reads K m0 k t us q p :
  opened K (Object m0) (sax p) -> ordered m0 -> reading (tk_string k :: tk_colon :: t :: us) q p ->
  wp (read_key (false :: map kind K)) p (fun f p' => f = Continue (false :: map kind K) /\
    awaits_value (FObject m0 k :: K) (sax p') /\ reading (t :: us) q p').
Proof.
  intros Ho Hm (tok & ts & q1 & [= <- <-] & [_ Hk] & Hl & Hts). apply wp_bind, wp_mget. rewrite Hk.
  apply wp_unless. eapply wp_dom_key; [done|done|]. intros d Hd. split; [done|].
  apply wp_bind. eapply wp_get_token; [exact Hl|exact Hts|]. intros p1 Hsh Hp1 Hd1. simpl in Hsh. rewrite Hsh.
  rewrite bool_decide_eq_true_2 by done. simpl. destruct Hp1 as (tok' & ts' & q2 & [= <- <-] & _ & Hl' & Hts').
  apply wp_bind. eapply wp_get_token; [exact Hl'|exact Hts'|]. intros p2 _ Hp2 Hd2. apply wp_ret. split; [done|].
  split; [|done]. by rewrite Hd2, Hd1.
Qed.

Lemma object_close K m k v q p :
  filled (FObject m k :: K) v (sax p) -> (exists q1, at_text (m_lexer p) q1 /\ lexes_all q1 [tk_close_object] q) ->
  value_read K (Object (map_set k v m)) q (false :: map kind K, true) p.
Proof.
  intros Hd (q1 & Hl & Hts). apply filled_object in Hd as [Hd Hm].
  assert (Hw : wp (evaluate (false :: map kind K)) p (fun r p' => r = inl (map kind K, true) /\
    filled K (Object (map_set k v m)) (sax p') /\ at_text (m_lexer p') q)).
  { apply wp_bind. eapply wp_get_token; [exact Hl|exact Hts|]. intros p' Hsh Hp' Hd'. simpl in Hsh. rewrite Hsh.
    rewrite bool_decide_eq_false_2, bool_decide_eq_true_2 by done. apply wp_bind. unfold wp at 1, on_sax. simpl.
    rewrite Hd'. pose proof (wp_end_container K (Object (map_set k v m)) (sax p)
      (fun b d => b = true /\ filled K (Object (map_set k v m)) d) Hd) as He.
    apply wp_run in He as (b & d & -> & -> & Hf); [|done]. simpl. apply wp_ret. split; [done|]. split; [done|].
    by eapply reading_last. }
  apply wp_run in Hw as (r & p' & E & -> & Hf & Hl'). exists p'. split; [|done]. by apply reach_turn.
Qed.

Lemma members_one_reads k v ts : value v ts -> reads_value v ts -> reads_members [(k, v)] (tk_string k :: tk_colon :: ts).
Proof.
  intros Hv IH K m0 q p Ho Hm Hts. destruct ts as [|t ts]; [by apply value_nonempty in Hv|].
  pose proof (key_reads K m0 k t (ts ++ [tk_close_object]) q p Ho Hm Hts) as Hk.
  apply wp_run in Hk as (f & p1 & E & -> & Hr & Hts1). exists p1. split; [done|].
  apply (reading_app (t :: ts)) in Hts1 as (q1 & Hts1 & Hc); [|done].
  destruct (IH (FObject m0 k :: K) q1 p1 Hr Hts1) as (p2 & Hreach & Hd & Hl).
  eapply value_read_trans; [exact Hreach|]. apply object_close; [done|]. by exists q1.
Qed.

Lemma members_more_reads k v ts ms us :
  value v ts -> reads_value v ts -> (exists k' us', us = tk_string k' :: us') -> reads_members ms us ->
  reads_members ((k, v) :: ms) (tk_string k :: tk_colon :: ts ++ tk_comma :: us).
Proof.
  intros Hv IHv (k' & us' & ->) IHm K m0 q p Ho Hm Hts. destruct ts as [|t ts]; [by apply value_nonempty in Hv|].
  simpl in Hts. rewrite <- app_assoc in Hts.
  pose proof (key_reads K m0 k t _ q p Ho Hm Hts) as Hk.
  apply wp_run in Hk as (f & p1 & E & -> & Hr & Hts1). exists p1. split; [done|].
  apply (reading_app (t :: ts)) in Hts1 as (q1 & Hts1 & Hc); [|done].
  destruct (IHv (FObject m0 k :: K) q1 p1 Hr Hts1) as (p2 & Hreach & Hd & Hl).
  eapply value_read_trans; [exact Hreach|]. apply filled_object in Hd as [Hd Hm'].
  assert (Hw : wp (evaluate (false :: map kind K)) p2 (fun r p' => r = inl (false :: map kind K, false) /\
    value_read K (Object (foldl (fun m x => map_set x.1 x.2 m) (map_set k v m0) ms)) q (false :: map kind K, false) p')).
  { apply wp_bind. eapply wp_get_token; [exact Hl|exact Hc|]. intros p3 Hsh Hp3 Hd3. simpl in Hsh. rewrite Hsh.
    rewrite bool_decide_eq_true_2 by done. destruct Hp3 as (tok' & ts' & q2 & [= <- <-] & _ & Hl3 & Hts3).
    apply wp_bind. eapply wp_get_token; [exact Hl3|exact Hts3|]. intros p4 Hsh4 Hp4 Hd4. destruct Hsh4 as [Et _].
    rewrite Et, bool_decide_eq_true_2 by done. simpl.
    destruct (IHm K (map_set k v m0) q p4) as (p5 & E5 & Hv5); [by rewrite Hd4, Hd3|done|done|].
    apply wp_bind. unfold wp at 1. rewrite E5. by apply wp_ret. }
  apply wp_run in Hw as (r & p' & E' & -> & Hv'). eapply value_read_trans; [|exact Hv']. by apply reach_turn.
Qed.

Lemma elements_head (a : list (json F)) ts : elements a ts -> exists t us, ts = t :: us /\ t <> tk_close_array.
Proof.
  assert (Hv : forall (v : json F) ts, value v ts -> exists t us, ts = t :: us /\ t <> tk_close_array).
  { intros v us Hv. destruct Hv; eexists _, _; (split; [done|done]). }
  destruct 1 as [v ts Hv'|v ts a us Hv' _]; destruct (Hv _ _ Hv') as (t & us' & -> & Ht); by eexists _, _.
Qed.

Lemma members_head (ms : list (str * json F)) ts : members ms ts -> exists k us, ts = tk_string k :: us.
Proof. destruct 1; by eexists _, _. Qed.

Lemma empty_container_reads (v : json F) opening closing :
  (opening = tk_open_array /\ closing = tk_close_array /\ v = Array [] \/
   opening = tk_open_object /\ closing = tk_close_object /\ v = Object []) ->
  reads_value v [opening; closing].
Proof.
  intros Hc K q p Hr (tok & ts & q1 & [= <- <-] & Hsh & Hl & Hts). apply value_read_break.
  apply wp_bind, wp_mget. destruct Hc as [(-> & -> & ->)|(-> & -> & ->)]; simpl in Hsh; rewrite Hsh;
    apply wp_unless; (eapply wp_start_container; [done|]); intros d Hd; (split; [done|]);
    apply wp_bind; (eapply wp_get_token; [exact Hl|exact Hts|]); intros p' Hsh' Hp' Hd'; simpl in Hsh'; rewrite Hsh';
    rewrite bool_decide_eq_true_2 by done; apply wp_unless; rewrite Hd';
    (eapply wp_end_container; [done|]); intros d2 Hd2; (split; [done|]); apply wp_ret; (split; [done|]);
    (split; [done|]); by eapply reading_last.
Qed.

Ltac scalar_case :=
  apply scalar_reads; intros ? ? ? ? ? Hsh; apply wp_bind, wp_mget; simpl in Hsh;
  lazymatch type of Hsh with
  | _ /\ _ => destruct Hsh as [Hsh Hv]; rewrite Hsh; apply wp_bind, wp_mget; rewrite Hv
  | _ => rewrite Hsh
  end.

(** Every value of the grammar. *)
Lemma grammar_reads :
  (forall v ts, value v ts -> reads_value v ts) /\
  (forall a ts, elements a ts -> reads_elements a ts) /\
  (forall ms ts, members ms ts -> reads_members ms ts).
Proof.
  apply value_elements_members_ind.
  - scalar_case. by apply wp_scalar.
  - intros []; scalar_case; by apply wp_scalar.
  - intros s. scalar_case. by apply wp_scalar.
  - intros u. scalar_case. by apply wp_scalar.
  - intros i. scalar_case. by apply wp_scalar.
  - intros f Hf. scalar_case. rewrite Hf. by apply wp_scalar.
  - apply empty_container_reads. by left.
  - intros a ts Ha IH. apply array_reads; [done|by eapply elements_head].
  - apply empty_container_reads. by right.
  - intros ms ts Hms IH. apply object_reads; [done|by eapply members_head].
  - intros v ts Hv IH. by apply elements_one_reads.
  - intros v ts a us Hv IHv Ha IHa. by apply elements_more_reads.
  - intros k v ts Hv IH. by apply members_one_reads.
  - intros k v ts ms us Hv IHv Hms IHm. apply members_more_reads; [done|done|by eapply members_head|done].
Qed.
End complete.

(** ** [parse] *)

Section parse.
Context {F : Type} `{CFloat F} (allow_exceptions : bool) (text : str).

Abbreviation D := (json_sax_dom_parser F).
Abbreviation P := (parser F D).

#[local] Instance parse_handler : SAX F D := dom_sax allow_exceptions.

Definition start_dom : D := mk_dom Null [] None false.

Lemma after_bom_unique p p' : after_bom text p -> after_bom text p' -> p = p'.
Proof.
  intros [H1|[H1 Hp]] [H2|[H2 Hp']].
  - rewrite H1 in H2. by apply app_inv_head in H2.
  - exfalso. rewrite H1 in H2. by apply (Hp' _ _ (eq_sym H2)).
  - exfalso. rewrite H2 in H1. by apply (Hp _ _ (eq_sym H1)).
  - by rewrite <- H1, <- H2.
Qed.

(** The first token: what the grammar sees after the byte order mark. *)
Lemma first_token :
  exists p, new_parser text start_dom = Ret p /\ sax p = start_dom /\
    ((exists q, after_bom text q /\ ahead text q p) \/
     ((forall q, ~ after_bom text q) /\ last_token p = parse_error /\ in_text text (m_lexer p))).
Proof.
  assert (Hl : reads (new_lexer text : lexer F) text [] 0) by (split; [done..|split; [done|by left]]).
  assert (Hscan : wp scan (new_lexer text : lexer F) (fun t l => let p := mk_parser l t start_dom in
    (exists q, after_bom text q /\ ahead text q p) \/
    ((forall q, ~ after_bom text q) /\ last_token p = parse_error /\ in_text text (m_lexer p)))).
  { eapply wp_scan_first; [exact Hl|..].
    - intros q n Hq Hn Hn0.
      assert (Hstop : forall l : lexer F, stopped q n l -> in_text text l).
      { intros l (p' & b' & n' & Hl' & _ & Hn'). exists p', b', n'. split; [done|lia]. }
      split_and!.
      + intros tok q' t l Ht Hsh (b & k & Hl' & Hk). left. exists q. split; [done|]. left. exists tok, q'.
        split; [done|]. split; [done|]. exists b, k. apply lexes_shorter in Ht. unfold str_size in *. split; [done|lia].
      + intros l He Hs. left. exists q. split; [done|]. right. split; [by left|]. split; [by apply Hstop|].
        intros tok q' Ht. by apply lexes_not_ends in Ht.
      + intros l Hno He Hs. left. exists q. split; [done|]. right. split; [by right|]. split; [by apply Hstop|done].
    - intros l Hno (p' & b' & n' & Hl' & _ & Hn'). right. split; [done|]. split; [done|]. exists p', b', n'.
      split; [done|]. simpl. lia. }
  apply wp_run in Hscan as (t & l & E & Hp). exists (mk_parser l t start_dom). unfold new_parser, get_token.
  simpl. rewrite E. done.
Qed.

Lemma start_ready : awaits_value [] start_dom.
Proof. split; [done|]. split; [constructor|done]. Qed.

(** The loop, from the first token. *)
Lemma runs_sax_parse_internal p q :
  after_bom text q -> ahead text q p -> sax p = start_dom ->
  runs allow_exceptions text sax_parse_internal p (fun b p' => b = true /\ after_value text [] p').
Proof.
  intros Hq Ha Hs. apply runs_mget. apply runs_loop.
  - exists []. split; [done|]. exists [], q. rewrite Hs. split; [done|]. split; [exists q; split; [done|constructor]|].
    split; [apply start_ready|done].
  - unfold weight. simpl. pose proof (token_left_le p). unfold left_. lia.
Qed.

Lemma runs_bad_start p :
  last_token p = parse_error -> in_text text (m_lexer p) ->
  runs allow_exceptions text sax_parse_internal p (fun _ _ => False).
Proof.
  intros Ht Hl. apply runs_mget. rewrite (Nat.add_succ_r _ 1). cbn [while_].
  eapply runs_bind; [|by intros r p' ->; exists false]. unfold sax_turn.
  eapply runs_bind; [|by intros f p' ->; exists (inr false)]. apply runs_mget. rewrite Ht. by apply runs_fail.
Qed.

(** The end of [parser::parse]: the text must be at its end. *)
Definition finish : M P bool :=
  let* t := get_token in
  if negb (bool_decide (t = end_of_input)) then syntax_error end_of_input (lit "value") else mret true.

Lemma parse_finish p :
  new_parser text start_dom = Ret p ->
  parse allow_exceptions text =
  obind (sax_parse_internal p) (fun '(_, p1) => obind (finish p1) (fun '(_, p2) =>
    Ret (if errored (sax p2) then Discarded else root (sax p2)))).
Proof.
  intros E. unfold parse. change (mk_dom Null [] None false) with start_dom. rewrite E. simpl.
  destruct (sax_parse_internal p) as [[b p1]|e|]; simpl; [|done|done]. unfold finish, mbind_.
  destruct (get_token p1) as [[t p2]|e|]; simpl; [|done|done]. by destruct (negb _).
Qed.

Lemma runs_finish p :
  after_value text [] p ->
  runs allow_exceptions text finish p (fun _ p' => errored (sax p') = false /\ json_text text (root (sax p'))).
Proof.
  intros (ts & us & v & q & -> & Hv & (p0 & Hp0 & Hus) & Hl & (He & _ & _ & Hroot)). simpl in Hroot.
  eapply runs_get_token; [exact Hl|..].
  - intros tok q' t l Ht Hsh Hl' _. rewrite bool_decide_eq_false_2; [apply runs_syntax_error; by eapply at_in_text|].
    intros ->. destruct tok as [|[]| | | | | | | | | |]; simpl in Hsh; naive_solver.
  - intros t l Ht Hl' _ Hends _. case_bool_decide as Et; simpl; [|by apply runs_syntax_error].
    apply runs_ret. simpl. split; [done|]. rewrite Hroot. exists p0, us, q. split_and!; try done. by apply Hends.
Qed.

(** After an error that is not thrown the value is discarded. *)
Lemma finish_errored p :
  allow_exceptions = false -> errored (sax p) = true -> in_text text (m_lexer p) ->
  exists b p', finish p = Ret (b, p') /\ errored (sax p') = true.
Proof.
  intros Ha He (q & b & n & Hl & Hn).
  assert (Hscan : wp scan (m_lexer p) (fun t l => True)) by (eapply wp_scan; [done|lia|by split_and!]).
  apply wp_run in Hscan as (t & l & E & _). unfold finish, mbind_, get_token. rewrite E. simpl.
  destruct (negb _); [|by eexists _, _]. unfold syntax_error, mbind_, mget, on_sax. simpl.
  unfold dom_parse_error. rewrite Ha. simpl. by eexists _, _.
Qed.

(** What [parse] returns is in the grammar, or it is an error. *)
Lemma parse_sound :
  match parse (F := F) allow_exceptions text with
  | Ret v => json_text text v \/ allow_exceptions = false /\ v = Discarded
  | Throw e => allow_exceptions = true /\ error_in_text text e
  | Undef => False
  end.
Proof.
  destruct first_token as (p & Hnew & Hs & Hfirst). rewrite (parse_finish p Hnew).
  assert (Hruns : runs allow_exceptions text sax_parse_internal p (fun b p' => b = true /\ after_value text [] p')).
  { destruct Hfirst as [(q & Hq & Ha)|(_ & Ht & Hl)]; [by eapply runs_sax_parse_internal|].
    eapply runs_mono; [by apply runs_bad_start|done]. }
  unfold runs in Hruns. destruct (sax_parse_internal p) as [[b p1]|e|]; simpl; [|done|done].
  destruct Hruns as [[-> Hp1]|(Ha & _ & He & Hl)].
  - pose proof (runs_finish p1 Hp1) as Hf. unfold runs in Hf. destruct (finish p1) as [[b p2]|e|]; simpl; [|done|done].
    destruct Hf as [[-> Hj]|(Ha & _ & -> & _)]; auto.
  - destruct (finish_errored p1 Ha He Hl) as (b' & p2 & -> & He2). simpl. rewrite He2. auto.
Qed.

Lemma parse_returned v : parse (F := F) allow_exceptions text = Ret v -> v <> Discarded -> json_text text v.
Proof. intros E Hv. pose proof parse_sound as Hs. rewrite E in Hs. by destruct Hs as [|[_ ->]]. Qed.

(** Every text of the grammar is returned as its value. *)
Lemma parse_complete v : json_text text v -> parse allow_exceptions text = Ret v.
Proof.
  intros (p0 & ts & q & Hp0 & Hts & Hv & Hends). destruct first_token as (p & Hnew & Hs & Hfirst).
  rewrite (parse_finish p Hnew). destruct Hfirst as [(q0 & Hq0 & Ha)|(Hno & _)]; [|by apply Hno in Hp0].
  rewrite (after_bom_unique _ _ Hq0 Hp0) in Ha. pose proof (value_nonempty v ts Hv) as Hne.
  assert (Hreading : reading text ts q p).
  { destruct ts as [|tok ts]; [done|]. inversion Hts as [|? ? q1 ? ? Ht Hts']; subst.
    destruct Ha as [(tok' & q2 & Ht2 & Hsh & Hl)|(_ & _ & Hno)]; [|by apply Hno in Ht].
    destruct (lexes_unique _ _ _ _ _ Ht Ht2) as [<- <-]. by exists tok, ts, q1. }
  assert (Hready : awaits_value [] (sax p)) by (rewrite Hs; apply start_ready).
  destruct (proj1 (grammar_reads allow_exceptions text) v ts Hv [] q p Hready Hreading) as (p1 & Hreach & Hd & Hl).
  pose proof (runs_sax_parse_internal p q0 Hq0 ltac:(by rewrite (after_bom_unique _ _ Hq0 Hp0)) Hs) as Hruns.
  assert (E : sax_parse_internal p = Ret (true, p1)).
  { unfold sax_parse_internal, mbind_, mget in *. simpl in *. eapply reach_end; [exact Hreach|done|].
    unfold runs in Hruns. intros E. by rewrite E in Hruns. }
  rewrite E. simpl. destruct Hl as (b & n & Hl & Hn & Hq).
  assert (Hscan : wp scan (m_lexer p1) (fun t _ => t = end_of_input)).
  { eapply wp_scan; [exact Hl|lia|]. split_and!; [|done|].
    - intros tok q' t l Ht. by apply lexes_not_ends in Ht.
    - intros l _ Hnot. done. }
  apply wp_run in Hscan as (t & l & Escan & ->). unfold finish, mbind_, get_token. rewrite Escan. simpl.
  destruct Hd as (He & _ & _ & Hroot). by rewrite He, Hroot.
Qed.

Lemma value_not_discarded (v : json F) ts : value v ts -> v <> Discarded.
Proof. by destruct 1. Qed.

Lemma json_text_not_discarded : ~ json_text (F := F) text Discarded.
Proof. intros (p & ts & q & _ & _ & Hv & _). by eapply value_not_discarded. Qed.

(** C4. [json::parse] is the grammar of RFC 8259: with exceptions it returns a
    value exactly when the grammar assigns that value to the text (after an
    optional byte order mark and up to the end or a NUL byte), and otherwise
    throws a syntax error 101 whose byte is one of the text's or the one after its
    last, or the number error 406; without exceptions it returns the same values,
    and a discarded value in place of the error.  A wrong surrogate or code point in
    a string is a syntax error 101 as well, where json.hpp documents the numbers
    102 and 103, which the parser never throws.  It always returns: every loop
    of the lexer and the parser ends within its bound, and no modelled assertion
    fails. *)
Theorem parse_grammar :
  (forall v, v <> Discarded -> parse (F := F) allow_exceptions text = Ret v <-> json_text text v) /\
  ((exists v, json_text (F := F) text v) \/
   if allow_exceptions
   then exists e, parse (F := F) allow_exceptions text = Throw e /\ error_in_text text e
   else parse (F := F) allow_exceptions text = Ret Discarded).
Proof.
  split.
  - intros v Hv. split; [intros E; by apply parse_returned|apply parse_complete].
  - pose proof parse_sound as Hs. destruct (parse allow_exceptions text) as [v|e|]; [|destruct Hs as [-> He]; right; by exists e|done].
    destruct Hs as [Hj|[-> ->]]; [left; by exists v|by right].
Qed.
End parse.
