(* ===== verification/JsonFloat.v ===== *)
(** * Floating-point numbers and their texts (third_party/include/json.hpp)

    A [double] is its 64 bits, an integer below 2^64.  The serialiser's conversion
    to text, namespace dtoa_impl with [to_chars] and [dump_float], is translated
    with its 64-bit arithmetic: every operation that could wrap is reduced, every
    [assert] that fails is [Undef], and so is a loop whose fuel is spent.  The
    buffer is the characters written to it so far.  [strtod] of the C library
    rounds correctly: to the nearest [double], and to the even one when two are
    equally near. *)
From stdpp Require Import prelude strings.
From Stdlib Require Import Ascii ZArith QArith Qround Lia.
From S2P Require Import Prelude CxxLib Json JsonLexer.

Local Open Scope Z_scope.
Local Open Scope cxx_scope.

Definition cassert (b : bool) : outcome json_exception unit := if b then Ret tt else Undef.

(** ** The bits of a double *)

Definition sign_bit : Z := 2 ^ 63.
Definition infinity_bits : Z := 2047 * 2 ^ 52.

Definition finite_bits (x : Z) : bool :=
  (0 <=? x) && (x <? 2 ^ 64) && negb (Z.land (Z.shiftr x 52) 2047 =? 2047).

(** ** diyfp: [f * 2^e] *)

Record diyfp := mk_diyfp { diyfp_f : Z; diyfp_e : Z }.

Definition diyfp_sub (x y : diyfp) : outcome json_exception diyfp :=
  let! _ := cassert (diyfp_e x =? diyfp_e y) in
  let! _ := cassert (diyfp_f y <=? diyfp_f x) in
  Ret (mk_diyfp (wrap_u 64 (diyfp_f x - diyfp_f y)) (diyfp_e x)).

Definition diyfp_mul (x y : diyfp) : diyfp :=
  let u_lo := Z.land (diyfp_f x) 0xFFFFFFFF in
  let u_hi := Z.shiftr (diyfp_f x) 32 in
  let v_lo := Z.land (diyfp_f y) 0xFFFFFFFF in
  let v_hi := Z.shiftr (diyfp_f y) 32 in
  let p0 := wrap_u 64 (u_lo * v_lo) in
  let p1 := wrap_u 64 (u_lo * v_hi) in
  let p2 := wrap_u 64 (u_hi * v_lo) in
  let p3 := wrap_u 64 (u_hi * v_hi) in
  let p0_hi := Z.shiftr p0 32 in
  let p1_lo := Z.land p1 0xFFFFFFFF in
  let p1_hi := Z.shiftr p1 32 in
  let p2_lo := Z.land p2 0xFFFFFFFF in
  let p2_hi := Z.shiftr p2 32 in
  let Q := wrap_u 64 (p0_hi + p1_lo + p2_lo) in
  let Q := wrap_u 64 (Q + Z.shiftl 1 (64 - 32 - 1)) in
  let h := wrap_u 64 (p3 + p2_hi + p1_hi + Z.shiftr Q 32) in
  mk_diyfp h (diyfp_e x + diyfp_e y + 64).

(** The loop of [normalize]; a significand that is not zero needs at most 63 turns. *)
Fixpoint normalize_loop (fuel : nat) (x : diyfp) : outcome json_exception diyfp :=
  match fuel with
  | O => Undef
  | S fuel' =>
      if Z.shiftr (diyfp_f x) 63 =? 0
      then normalize_loop fuel' (mk_diyfp (wrap_u 64 (Z.shiftl (diyfp_f x) 1)) (diyfp_e x - 1))
      else Ret x
  end.

Definition normalize (x : diyfp) : outcome json_exception diyfp :=
  let! _ := cassert (negb (diyfp_f x =? 0)) in normalize_loop 64 x.

Definition normalize_to (x : diyfp) (target_exponent : Z) : outcome json_exception diyfp :=
  let delta := diyfp_e x - target_exponent in
  let! _ := cassert (0 <=? delta) in
  let shifted := wrap_u 64 (Z.shiftl (diyfp_f x) delta) in
  let! _ := cassert (Z.shiftr shifted delta =? diyfp_f x) in
  Ret (mk_diyfp shifted target_exponent).

(** ** The boundaries of a number *)

Record boundaries := mk_boundaries { b_w : diyfp; b_minus : diyfp; b_plus : diyfp }.

Definition kPrecision : Z := 53.
Definition kBias : Z := 1024 - 1 + (kPrecision - 1).
Definition kMinExp : Z := 1 - kBias.
Definition kHiddenBit : Z := 2 ^ (kPrecision - 1).

(** The number as a significand and an exponent. *)
Definition diyfp_of_bits (bits : Z) : diyfp :=
  let E := Z.shiftr bits (kPrecision - 1) in
  let F := Z.land bits (kHiddenBit - 1) in
  if E =? 0 then mk_diyfp F kMinExp else mk_diyfp (F + kHiddenBit) (E - kBias).

Definition compute_boundaries (value : Z) : outcome json_exception boundaries :=
  let! _ := cassert (finite_bits value) in
  let! _ := cassert ((0 <? value) && (value <? sign_bit)) in
  let E := Z.shiftr value (kPrecision - 1) in
  let F := Z.land value (kHiddenBit - 1) in
  let v := diyfp_of_bits value in
  let lower_boundary_is_closer := (F =? 0) && (1 <? E) in
  let m_plus := mk_diyfp (wrap_u 64 (2 * diyfp_f v + 1)) (diyfp_e v - 1) in
  let m_minus := if lower_boundary_is_closer
                 then mk_diyfp (wrap_u 64 (4 * diyfp_f v - 1)) (diyfp_e v - 2)
                 else mk_diyfp (wrap_u 64 (2 * diyfp_f v - 1)) (diyfp_e v - 1) in
  let! w_plus := normalize m_plus in
  let! w_minus := normalize_to m_minus (diyfp_e w_plus) in
  let! w := normalize v in
  Ret (mk_boundaries w w_minus w_plus).

(** ** Powers of ten *)

Definition kAlpha : Z := -60.
Definition kGamma : Z := -32.

Record cached_power := mk_cached_power { cp_f : Z; cp_e : Z; cp_k : Z }.

Definition kCachedPowersMinDecExp : Z := -300.
Definition kCachedPowersDecStep : Z := 8.

Definition kCachedPowers : list cached_power :=
  [mk_cached_power 0xAB70FE17C79AC6CA (-1060) (-300); mk_cached_power 0xFF77B1FCBEBCDC4F (-1034) (-292); mk_cached_power 0xBE5691EF416BD60C (-1007) (-284);
   mk_cached_power 0x8DD01FAD907FFC3C (-980) (-276); mk_cached_power 0xD3515C2831559A83 (-954) (-268); mk_cached_power 0x9D71AC8FADA6C9B5 (-927) (-260);
   mk_cached_power 0xEA9C227723EE8BCB (-901) (-252); mk_cached_power 0xAECC49914078536D (-874) (-244); mk_cached_power 0x823C12795DB6CE57 (-847) (-236);
   mk_cached_power 0xC21094364DFB5637 (-821) (-228); mk_cached_power 0x9096EA6F3848984F (-794) (-220); mk_cached_power 0xD77485CB25823AC7 (-768) (-212);
   mk_cached_power 0xA086CFCD97BF97F4 (-741) (-204); mk_cached_power 0xEF340A98172AACE5 (-715) (-196); mk_cached_power 0xB23867FB2A35B28E (-688) (-188);
   mk_cached_power 0x84C8D4DFD2C63F3B (-661) (-180); mk_cached_power 0xC5DD44271AD3CDBA (-635) (-172); mk_cached_power 0x936B9FCEBB25C996 (-608) (-164);
   mk_cached_power 0xDBAC6C247D62A584 (-582) (-156); mk_cached_power 0xA3AB66580D5FDAF6 (-555) (-148); mk_cached_power 0xF3E2F893DEC3F126 (-529) (-140);
   mk_cached_power 0xB5B5ADA8AAFF80B8 (-502) (-132); mk_cached_power 0x87625F056C7C4A8B (-475) (-124); mk_cached_power 0xC9BCFF6034C13053 (-449) (-116);
   mk_cached_power 0x964E858C91BA2655 (-422) (-108); mk_cached_power 0xDFF9772470297EBD (-396) (-100); mk_cached_power 0xA6DFBD9FB8E5B88F (-369) (-92);
   mk_cached_power 0xF8A95FCF88747D94 (-343) (-84); mk_cached_power 0xB94470938FA89BCF (-316) (-76); mk_cached_power 0x8A08F0F8BF0F156B (-289) (-68);
   mk_cached_power 0xCDB02555653131B6 (-263) (-60); mk_cached_power 0x993FE2C6D07B7FAC (-236) (-52); mk_cached_power 0xE45C10C42A2B3B06 (-210) (-44);
   mk_cached_power 0xAA242499697392D3 (-183) (-36); mk_cached_power 0xFD87B5F28300CA0E (-157) (-28); mk_cached_power 0xBCE5086492111AEB (-130) (-20);
   mk_cached_power 0x8CBCCC096F5088CC (-103) (-12); mk_cached_power 0xD1B71758E219652C (-77) (-4); mk_cached_power 0x9C40000000000000 (-50) (4);
   mk_cached_power 0xE8D4A51000000000 (-24) (12); mk_cached_power 0xAD78EBC5AC620000 (3) (20); mk_cached_power 0x813F3978F8940984 (30) (28);
   mk_cached_power 0xC097CE7BC90715B3 (56) (36); mk_cached_power 0x8F7E32CE7BEA5C70 (83) (44); mk_cached_power 0xD5D238A4ABE98068 (109) (52);
   mk_cached_power 0x9F4F2726179A2245 (136) (60); mk_cached_power 0xED63A231D4C4FB27 (162) (68); mk_cached_power 0xB0DE65388CC8ADA8 (189) (76);
   mk_cached_power 0x83C7088E1AAB65DB (216) (84); mk_cached_power 0xC45D1DF942711D9A (242) (92); mk_cached_power 0x924D692CA61BE758 (269) (100);
   mk_cached_power 0xDA01EE641A708DEA (295) (108); mk_cached_power 0xA26DA3999AEF774A (322) (116); mk_cached_power 0xF209787BB47D6B85 (348) (124);
   mk_cached_power 0xB454E4A179DD1877 (375) (132); mk_cached_power 0x865B86925B9BC5C2 (402) (140); mk_cached_power 0xC83553C5C8965D3D (428) (148);
   mk_cached_power 0x952AB45CFA97A0B3 (455) (156); mk_cached_power 0xDE469FBD99A05FE3 (481) (164); mk_cached_power 0xA59BC234DB398C25 (508) (172);
   mk_cached_power 0xF6C69A72A3989F5C (534) (180); mk_cached_power 0xB7DCBF5354E9BECE (561) (188); mk_cached_power 0x88FCF317F22241E2 (588) (196);
   mk_cached_power 0xCC20CE9BD35C78A5 (614) (204); mk_cached_power 0x98165AF37B2153DF (641) (212); mk_cached_power 0xE2A0B5DC971F303A (667) (220);
   mk_cached_power 0xA8D9D1535CE3B396 (694) (228); mk_cached_power 0xFB9B7CD9A4A7443C (720) (236); mk_cached_power 0xBB764C4CA7A44410 (747) (244);
   mk_cached_power 0x8BAB8EEFB6409C1A (774) (252); mk_cached_power 0xD01FEF10A657842C (800) (260); mk_cached_power 0x9B10A4E5E9913129 (827) (268);
   mk_cached_power 0xE7109BFBA19C0C9D (853) (276); mk_cached_power 0xAC2820D9623BF429 (880) (284); mk_cached_power 0x80444B5E7AA7CF85 (907) (292);
   mk_cached_power 0xBF21E44003ACDD2D (933) (300); mk_cached_power 0x8E679C2F5E44FF8F (960) (308); mk_cached_power 0xD433179D9C8CB841 (986) (316);
   mk_cached_power 0x9E19DB92B4E31BA9 (1013) (324)].

Definition get_cached_power_for_binary_exponent (e : Z) : outcome json_exception cached_power :=
  let! _ := cassert (-1500 <=? e) in
  let! _ := cassert (e <=? 1500) in
  let f := kAlpha - e - 1 in
  let k := Z.quot (f * 78913) (2 ^ 18) + (if 0 <? f then 1 else 0) in
  let index := Z.quot (- kCachedPowersMinDecExp + k + (kCachedPowersDecStep - 1)) kCachedPowersDecStep in
  let! _ := cassert (0 <=? index) in
  match kCachedPowers !! Z.to_nat index with
  | None => Undef
  | Some cached =>
      let! _ := cassert (kAlpha <=? cp_e cached + e + 64) in
      let! _ := cassert (cp_e cached + e + 64 <=? kGamma) in
      Ret cached
  end.

(** [k] and [pow10]. *)
Definition find_largest_pow10 (n : Z) : nat * Z :=
  if 1000000000 <=? n then (10%nat, 1000000000)
  else if 100000000 <=? n then (9%nat, 100000000)
  else if 10000000 <=? n then (8%nat, 10000000)
  else if 1000000 <=? n then (7%nat, 1000000)
  else if 100000 <=? n then (6%nat, 100000)
  else if 10000 <=? n then (5%nat, 10000)
  else if 1000 <=? n then (4%nat, 1000)
  else if 100 <=? n then (3%nat, 100)
  else if 10 <=? n then (2%nat, 10)
  else (1%nat, 1).

(** ** Digits *)

(** The loop of [grisu2_round] over the last digit, which is taken down at most
    nine times. *)
Fixpoint round_loop (fuel : nat) (c : ascii) (dist delta rest ten_k : Z) : outcome json_exception ascii :=
  match fuel with
  | O => Undef
  | S fuel' =>
      if (rest <? dist) && (ten_k <=? wrap_u 64 (delta - rest)) &&
         ((wrap_u 64 (rest + ten_k) <? dist) ||
          (wrap_u 64 (rest + ten_k - dist) <? wrap_u 64 (dist - rest)))
      then
        let! _ := cassert (negb (Ascii.eqb c "0")) in
        round_loop fuel' (char_of_Z (schar c - 1)) dist delta (wrap_u 64 (rest + ten_k)) ten_k
      else Ret c
  end.

Definition grisu2_round (buf : str) (dist delta rest ten_k : Z) : outcome json_exception str :=
  match last buf with
  | None => Undef
  | Some c =>
      let! _ := cassert (dist <=? delta) in
      let! _ := cassert (rest <=? delta) in
      let! _ := cassert (0 <? ten_k) in
      let! c' := round_loop 10 c dist delta rest ten_k in
      Ret (removelast buf ++ [c'])
  end.

(** The digits of the integral part, [n] to come: the buffer and the decimal
    exponent when there are enough, [inr] the buffer when there are not. *)
Fixpoint integral_digits (n : nat) (shift delta dist p2 : Z) (buffer : str) (decimal_exponent p1 pow10 : Z) :
    outcome json_exception (str * Z + str) :=
  match n with
  | O => Ret (inr buffer)
  | S n' =>
      let! _ := cassert (negb (pow10 =? 0)) in
      let d := p1 / pow10 in
      let r := p1 mod pow10 in
      let! _ := cassert (d <=? 9) in
      let buffer := buffer ++ [char_of_Z (48 + d)] in
      let p1 := r in
      let rest := wrap_u 64 (wrap_u 64 (Z.shiftl p1 shift) + p2) in
      if rest <=? delta then
        let ten_n := wrap_u 64 (Z.shiftl pow10 shift) in
        let! buffer := grisu2_round buffer dist delta rest ten_n in
        Ret (inl (buffer, decimal_exponent + Z.of_nat n'))
      else integral_digits n' shift delta dist p2 buffer decimal_exponent p1 (pow10 / 10)
  end.

(** The digits of the fractional part, after [m] of them; the distance to stop at
    grows by ten each turn, so there are fewer than 20 turns. *)
Fixpoint fractional_digits (fuel : nat) (shift delta dist p2 : Z) (buffer : str) (m : Z) :
    outcome json_exception (str * Z) :=
  match fuel with
  | O => Undef
  | S fuel' =>
      let one := Z.shiftl 1 shift in
      let! _ := cassert (p2 <=? (2 ^ 64 - 1) / 10) in
      let p2 := wrap_u 64 (p2 * 10) in
      let d := Z.shiftr p2 shift in
      let r := Z.land p2 (one - 1) in
      let! _ := cassert (d <=? 9) in
      let buffer := buffer ++ [char_of_Z (48 + d)] in
      let p2 := r in
      let m := m + 1 in
      let delta := wrap_u 64 (delta * 10) in
      let dist := wrap_u 64 (dist * 10) in
      if p2 <=? delta
      then let! buffer := grisu2_round buffer dist delta p2 one in Ret (buffer, m)
      else fractional_digits fuel' shift delta dist p2 buffer m
  end.

(** The buffer and the decimal exponent. *)
Definition grisu2_digit_gen (decimal_exponent : Z) (M_minus w M_plus : diyfp) : outcome json_exception (str * Z) :=
  let! _ := cassert (kAlpha <=? diyfp_e M_plus) in
  let! _ := cassert (diyfp_e M_plus <=? kGamma) in
  let! delta := diyfp_sub M_plus M_minus in
  let! dist := diyfp_sub M_plus w in
  let shift := - diyfp_e M_plus in
  let one := wrap_u 64 (Z.shiftl 1 shift) in
  let p1 := wrap_u 32 (Z.shiftr (diyfp_f M_plus) shift) in
  let p2 := Z.land (diyfp_f M_plus) (one - 1) in
  let! _ := cassert (0 <? p1) in
  let '(k, pow10) := find_largest_pow10 p1 in
  let! r := integral_digits k shift (diyfp_f delta) (diyfp_f dist) p2 [] decimal_exponent p1 pow10 in
  match r with
  | inl done => Ret done
  | inr buffer =>
      let! _ := cassert (diyfp_f delta <? p2) in
      let! '(buffer, m) := fractional_digits 20 shift (diyfp_f delta) (diyfp_f dist) p2 buffer 0 in
      Ret (buffer, decimal_exponent - m)
  end.

Definition grisu2_scaled (m_minus v m_plus : diyfp) : outcome json_exception (str * Z) :=
  let! _ := cassert (diyfp_e m_plus =? diyfp_e m_minus) in
  let! _ := cassert (diyfp_e m_plus =? diyfp_e v) in
  let! cached := get_cached_power_for_binary_exponent (diyfp_e m_plus) in
  let c_minus_k := mk_diyfp (cp_f cached) (cp_e cached) in
  let w := diyfp_mul v c_minus_k in
  let w_minus := diyfp_mul m_minus c_minus_k in
  let w_plus := diyfp_mul m_plus c_minus_k in
  let M_minus := mk_diyfp (wrap_u 64 (diyfp_f w_minus + 1)) (diyfp_e w_minus) in
  let M_plus := mk_diyfp (wrap_u 64 (diyfp_f w_plus - 1)) (diyfp_e w_plus) in
  grisu2_digit_gen (- cp_k cached) M_minus w M_plus.

Definition grisu2 (value : Z) : outcome json_exception (str * Z) :=
  let! _ := cassert (finite_bits value) in
  let! _ := cassert ((0 <? value) && (value <? sign_bit)) in
  let! w := compute_boundaries value in
  grisu2_scaled (b_minus w) (b_w w) (b_plus w).

(** ** The text *)

Definition append_exponent (e : Z) : outcome json_exception str :=
  let! _ := cassert (-1000 <? e) in
  let! _ := cassert (e <? 1000) in
  let sign := if e <? 0 then "-"%char else "+"%char in
  let k := Z.abs e in
  Ret (sign ::
    (if k <? 10 then [char_of_Z 48; char_of_Z (48 + k)]
     else if k <? 100 then [char_of_Z (48 + k / 10); char_of_Z (48 + k mod 10)]
     else [char_of_Z (48 + k / 100); char_of_Z (48 + k mod 100 / 10); char_of_Z (48 + k mod 100 mod 10)])).

Definition format_buffer (buf : str) (decimal_exponent min_exp max_exp : Z) : outcome json_exception str :=
  let! _ := cassert (min_exp <? 0) in
  let! _ := cassert (0 <? max_exp) in
  let k := str_size buf in
  let n := k + decimal_exponent in
  if (k <=? n) && (n <=? max_exp) then
    Ret (buf ++ replicate (Z.to_nat (n - k)) "0"%char ++ lit ".0")
  else if (0 <? n) && (n <=? max_exp) then
    let! _ := cassert (n <? k) in
    Ret (take (Z.to_nat n) buf ++ lit "." ++ drop (Z.to_nat n) buf)
  else if (min_exp <? n) && (n <=? 0) then
    Ret (lit "0." ++ replicate (Z.to_nat (- n)) "0"%char ++ buf)
  else
    let! exponent := append_exponent (n - 1) in
    Ret ((if k =? 1 then buf else take 1 buf ++ lit "." ++ drop 1 buf) ++ lit "e" ++ exponent).

(** [to_chars] into a buffer of [room] characters. *)
Definition to_chars (room value : Z) : outcome json_exception str :=
  let! _ := cassert (finite_bits value) in
  let '(sign, value, room) :=
    if Z.testbit value 63 then (lit "-", value - sign_bit, room - 1) else ([], value, room) in
  if value =? 0 then Ret (sign ++ lit "0.0")
  else
    let max_digits10 := 17 in
    let! _ := cassert (max_digits10 <=? room) in
    let! '(buf, decimal_exponent) := grisu2 value in
    let! _ := cassert (str_size buf <=? max_digits10) in
    let kMinExp := -4 in
    let kMaxExp := 15 in
    let! _ := cassert (kMaxExp + 2 <=? room) in
    let! _ := cassert (2 + (- kMinExp - 1) + max_digits10 <=? room) in
    let! _ := cassert (max_digits10 + 6 <=? room) in
    let! text := format_buffer buf decimal_exponent kMinExp kMaxExp in
    Ret (sign ++ text).

(** [serializer::dump_float], with its buffer of 64 characters. *)
Definition dump_float (x : Z) : outcome json_exception str :=
  if negb (finite_bits x) then Ret (lit "null") else to_chars 64 x.

(** ** strtod *)

(** The largest [e] with [2^e <= v], for a positive [v]. *)
Definition ilog2 (v : Q) : Z :=
  let e := Z.log2 (Qnum v) - Z.log2 (Z.pos (Qden v)) in
  if Qle_bool (Qpower 2 e) v then e else e - 1.

(** The nearest integer, the even one of two. *)
Definition nearest (r : Q) : Z :=
  let q := Qfloor r in
  match Qcompare (r - inject_Z q) (1 # 2) with
  | Lt => q
  | Gt => q + 1
  | Eq => if Z.even q then q else q + 1
  end.

(** The bits of the [double] nearest to [v], which is not negative.  The
    significand has 53 bits, fewer below the smallest normal number; one that
    rounds up to 2^53 carries into the exponent, and past the largest number there
    is infinity. *)
Definition round_double (v : Q) : Z :=
  if Qeq_bool v 0 then 0
  else
    let e := Z.max (-1074) (ilog2 v - 52) in
    Z.min infinity_bits ((e + 1074) * 2 ^ 52 + nearest (v * Qpower 2 (- e))).

Definition span_digits (s : str) : str * str := Prelude.scan (fun c => negb (is_digit c)) s.

Definition read_exponent (s : str) : Z :=
  match s with
  | c :: s' =>
      if Ascii.eqb c "e" || Ascii.eqb c "E" then
        match eat "-" s' with
        | Some s'' => - decimal_value (span_digits s'').1
        | None => decimal_value (span_digits (default s' (eat "+" s'))).1
        end
      else 0
  | [] => 0
  end.

(** The sign and the magnitude a decimal text names. *)
Definition read_decimal (s : str) : bool * Q :=
  let '(negative, s) := match eat "-" s with Some s' => (true, s') | None => (false, s) end in
  let '(int_part, s) := span_digits s in
  let '(frac_part, s) := match eat "." s with Some s' => span_digits s' | None => ([], s) end in
  (negative, (inject_Z (decimal_value (int_part ++ frac_part)) *
              Qpower 10 (read_exponent s - str_size frac_part))%Q).

(** [strtod] on the texts the lexer gives it, in the "C" locale, which the
    program does not leave. *)
Definition strtod_double (s : str) : Z :=
  let '(negative, v) := read_decimal s in
  (if negative then sign_bit else 0) + round_double v.

(** The floating-point numbers of the program. *)
#[export] Instance binary64 : CFloat Z := {|
  strtod := strtod_double; isfinite := finite_bits; float_zero := 0; get_decimal_point := "."%char |}.

(** What the serialiser writes for a number. *)
Definition float_text (x : Z) : str := match dump_float x with Ret s => s | _ => [] end.

Example to_chars_examples :
  map float_text [0x3FF8000000000000; 0x8000000000000000; 0x3FB999999999999A; 0x7FEFFFFFFFFFFFFF; 1;
                  0x44B52D02C7E14AF6; 0xC08F400000000000; 0x3F1A36E2EB1C432D; 0x3EE4F8B588E368F1;
                  0x7FF0000000000000; 0x4350000000000001] =
  [lit "1.5"; lit "-0.0"; lit "0.1"; lit "1.7976931348623157e+308"; lit "5e-324"; lit "9.999999999999999e+22"; lit "-1000.0";
   lit "0.0001"; lit "1e-05"; lit "null"; lit "1.8014398509481988e+16"].
Proof. vm_compute. reflexivity. Qed.

Example strtod_examples :
  map strtod_double [lit "1.5"; lit "-0.0"; lit "0.1"; lit "1.7976931348623157e308"; lit "5E-324"; lit "1e23";
                     lit "1e999"; lit "2e-324"; lit "9007199254740993"] =
  [0x3FF8000000000000; 0x8000000000000000; 0x3FB999999999999A; 0x7FEFFFFFFFFFFFFF; 1; 0x44B52D02C7E14AF6;
   0x7FF0000000000000; 0; 0x4340000000000000].
Proof. vm_compute. reflexivity. Qed.
