(* ===== verification/JsonFloatFacts.v ===== *)
(** * The texts of floating-point numbers are read back

    Grisu2 (Loitsch 2010), as json.hpp has it: the scaled boundaries stay inside
    the interval of the reals that round to the number, the digits generated stay
    inside the scaled boundaries, no assertion fails and there are at most 17
    digits; so [strtod] of the text is the number. *)
From stdpp Require Import prelude strings list.
From Stdlib Require Import Ascii ZArith QArith Qround Qpower Lia Lqa.
From S2P Require Import Prelude CxxLib Json JsonFacts JsonLexer JsonGrammar JsonNumbers JsonFloat.

Local Open Scope Z_scope.

Lemma wrap_u_id w z : 0 <= z < 2 ^ w -> wrap_u w z = z.
Proof. intros H. unfold wrap_u. by apply Z.mod_small. Qed.

Lemma land_mask x n : 0 <= n -> Z.land x (2 ^ n - 1) = x mod 2 ^ n.
Proof. intros Hn. rewrite <- Z.land_ones, Z.ones_equiv, Z.sub_1_r by done. done. Qed.

(** ** Arithmetic of diyfp *)

Section wide_product.
Variables a b c d : Z.
Hypotheses (Ha : 0 <= a < 2 ^ 32) (Hb : 0 <= b < 2 ^ 32) (Hc : 0 <= c < 2 ^ 32) (Hd : 0 <= d < 2 ^ 32).

Lemma half_product x y : 0 <= x < 2 ^ 32 -> 0 <= y < 2 ^ 32 -> 0 <= x * y <= (2 ^ 32 - 1) * (2 ^ 32 - 1).
Proof. intros Hx Hy. split; [nia|]. apply Z.mul_le_mono_nonneg; lia. Qed.

(** The rounded product of [a * 2^32 + b] and [c * 2^32 + d] from the four partial products. *)
Lemma wide_product :
  a * c + (a * d) / 2 ^ 32 + (b * c) / 2 ^ 32 + ((b * d) / 2 ^ 32 + (b * c) mod 2 ^ 32 + (a * d) mod 2 ^ 32 + 2 ^ 31) / 2 ^ 32 =
  ((a * 2 ^ 32 + b) * (c * 2 ^ 32 + d) + 2 ^ 63) / 2 ^ 64.
Proof.
  set (q := (b * d) / 2 ^ 32 + (b * c) mod 2 ^ 32 + (a * d) mod 2 ^ 32 + 2 ^ 31).
  apply (Z.div_unique _ _ _ (q mod 2 ^ 32 * 2 ^ 32 + (b * d) mod 2 ^ 32)).
  - pose proof (Z.mod_pos_bound q (2 ^ 32) eq_refl). pose proof (Z.mod_pos_bound (b * d) (2 ^ 32) eq_refl). lia.
  - pose proof (Z.div_mod (a * d) (2 ^ 32) ltac:(lia)). pose proof (Z.div_mod (b * c) (2 ^ 32) ltac:(lia)).
    pose proof (Z.div_mod (b * d) (2 ^ 32) ltac:(lia)). pose proof (Z.div_mod q (2 ^ 32) ltac:(lia)) as Hq.
    unfold q in Hq at 1. lia.
Qed.

Lemma wide_product_bound :
  0 <= a * c + (a * d) / 2 ^ 32 + (b * c) / 2 ^ 32 +
    ((b * d) / 2 ^ 32 + (b * c) mod 2 ^ 32 + (a * d) mod 2 ^ 32 + 2 ^ 31) / 2 ^ 32 < 2 ^ 64.
Proof.
  rewrite wide_product. assert (0 <= a * 2 ^ 32 + b <= 2 ^ 64 - 1) by lia. assert (0 <= c * 2 ^ 32 + d <= 2 ^ 64 - 1) by lia.
  assert (0 <= (a * 2 ^ 32 + b) * (c * 2 ^ 32 + d) <= (2 ^ 64 - 1) * (2 ^ 64 - 1)).
  { split; [nia|]. apply Z.mul_le_mono_nonneg; lia. }
  split; [apply Z.div_pos; lia|]. apply Z.div_lt_upper_bound; lia.
Qed.
End wide_product.

Lemma split_word x : 0 <= x < 2 ^ 64 ->
  Z.land x 0xFFFFFFFF = x mod 2 ^ 32 /\ Z.shiftr x 32 = x / 2 ^ 32 /\ 0 <= x / 2 ^ 32 < 2 ^ 32 /\
  0 <= x mod 2 ^ 32 < 2 ^ 32 /\ x = x / 2 ^ 32 * 2 ^ 32 + x mod 2 ^ 32.
Proof.
  intros Hx. split; [by apply (land_mask x 32)|]. split; [by apply Z.shiftr_div_pow2|].
  split; [split; [apply Z.div_pos; lia|apply Z.div_lt_upper_bound; lia]|].
  split; [by apply Z.mod_pos_bound|]. rewrite Z.mul_comm. by apply Z.div_mod.
Qed.

Lemma diyfp_mul_spec x y : 0 <= diyfp_f x < 2 ^ 64 -> 0 <= diyfp_f y < 2 ^ 64 ->
  diyfp_mul x y = mk_diyfp ((diyfp_f x * diyfp_f y + 2 ^ 63) / 2 ^ 64) (diyfp_e x + diyfp_e y + 64).
Proof.
  intros Hx Hy. unfold diyfp_mul. f_equal.
  destruct (split_word _ Hx) as (-> & -> & Ha & Hb & Ex), (split_word _ Hy) as (-> & -> & Hc & Hd & Ey).
  set (a := diyfp_f x / 2 ^ 32) in *. set (b := diyfp_f x mod 2 ^ 32) in *.
  set (c := diyfp_f y / 2 ^ 32) in *. set (d := diyfp_f y mod 2 ^ 32) in *. rewrite Ex, Ey. clearbody a b c d.
  pose proof (half_product b d Hb Hd). pose proof (half_product b c Hb Hc).
  pose proof (half_product a d Ha Hd). pose proof (half_product a c Ha Hc).
  rewrite !(wrap_u_id 64 (_ * _)) by lia.
  destruct (split_word (b * d)) as (_ & -> & ? & _ & _); [lia|].
  destruct (split_word (b * c)) as (-> & -> & ? & ? & _); [lia|].
  destruct (split_word (a * d)) as (-> & -> & ? & ? & _); [lia|].
  change (Z.shiftl 1 (64 - 32 - 1)) with (2 ^ 31).
  rewrite (wrap_u_id 64 (_ / _ + _ + _)), (wrap_u_id 64 (_ + 2 ^ 31)), Z.shiftr_div_pow2 by lia.
  rewrite wrap_u_id by by apply wide_product_bound. by apply wide_product.
Qed.

(** What rounding costs: half a unit. *)
Lemma diyfp_mul_error x y : 0 <= diyfp_f x < 2 ^ 64 -> 0 <= diyfp_f y < 2 ^ 64 ->
  diyfp_f x * diyfp_f y - 2 ^ 63 < diyfp_f (diyfp_mul x y) * 2 ^ 64 <= diyfp_f x * diyfp_f y + 2 ^ 63.
Proof.
  intros Hx Hy. rewrite diyfp_mul_spec by done. cbn [diyfp_f].
  pose proof (Z.div_mod (diyfp_f x * diyfp_f y + 2 ^ 63) (2 ^ 64) ltac:(lia)).
  pose proof (Z.mod_pos_bound (diyfp_f x * diyfp_f y + 2 ^ 63) (2 ^ 64) eq_refl). lia.
Qed.

Lemma diyfp_mul_e x y : diyfp_e (diyfp_mul x y) = diyfp_e x + diyfp_e y + 64.
Proof. done. Qed.

Lemma normalize_loop_spec fuel f e : 0 < f -> 2 ^ 63 <= f * 2 ^ (Z.of_nat fuel - 1) -> f < 2 ^ 64 ->
  exists s, 0 <= s /\ normalize_loop fuel (mk_diyfp f e) = Ret (mk_diyfp (f * 2 ^ s) (e - s)) /\
    2 ^ 63 <= f * 2 ^ s < 2 ^ 64.
Proof.
  revert f e. induction fuel as [|fuel IH]; intros f e Hf Hfuel Hlt; [simpl in Hfuel; lia|].
  cbn [normalize_loop diyfp_f diyfp_e]. rewrite Z.shiftr_div_pow2 by lia. destruct (Z.eqb_spec (f / 2 ^ 63) 0) as [E|E].
  - apply Z.div_small_iff in E as [?|?]; [|lia|lia]. rewrite Z.shiftl_mul_pow2, wrap_u_id by lia. change (2 ^ 1) with 2.
    destruct (IH (f * 2) (e - 1)) as (s & Hs & -> & Hr); [lia| |lia|].
    + destruct fuel as [|fuel]; [simpl in Hfuel; lia|].
      replace (Z.of_nat (S (S fuel)) - 1) with (1 + (Z.of_nat (S fuel) - 1)) in Hfuel by lia.
      rewrite Z.pow_add_r in Hfuel by lia. lia.
    + exists (1 + s). rewrite Z.pow_add_r by lia. split; [lia|]. split; [do 2 f_equal; lia|lia].
  - exists 0. rewrite Z.mul_1_r, Z.sub_0_r. split; [done|]. split; [done|]. split; [|done].
    destruct (Z.le_gt_cases (2 ^ 63) f); [done|]. rewrite Z.div_small in E by lia. done.
Qed.

Lemma normalize_spec f e : 0 < f < 2 ^ 64 ->
  exists s, 0 <= s /\ normalize (mk_diyfp f e) = Ret (mk_diyfp (f * 2 ^ s) (e - s)) /\ 2 ^ 63 <= f * 2 ^ s < 2 ^ 64.
Proof.
  intros Hf. unfold normalize. cbn [diyfp_f]. destruct (Z.eqb_spec f 0); [lia|]. cbn [negb cassert obind].
  apply normalize_loop_spec; [lia| |lia]. change (Z.of_nat 64 - 1) with 63. lia.
Qed.

(** ** The number and its boundaries *)

(** The fields of a positive finite number. *)
Lemma double_fields x : 0 < x < infinity_bits ->
  Z.shiftr x 52 = x / 2 ^ 52 /\ Z.land x (2 ^ 52 - 1) = x mod 2 ^ 52 /\
  0 <= x / 2 ^ 52 <= 2046 /\ 0 <= x mod 2 ^ 52 < 2 ^ 52 /\ x = x / 2 ^ 52 * 2 ^ 52 + x mod 2 ^ 52.
Proof.
  intros Hx. unfold infinity_bits in Hx. split; [by apply Z.shiftr_div_pow2|]. split; [by apply land_mask|].
  pose proof (Z.mod_pos_bound x (2 ^ 52) eq_refl). pose proof (Z.div_mod x (2 ^ 52) ltac:(lia)). lia.
Qed.

Lemma finite_bits_positive x : 0 < x < infinity_bits -> finite_bits x = true.
Proof.
  intros Hx. destruct (double_fields x Hx) as (E & _ & He & _). unfold infinity_bits in Hx. unfold finite_bits.
  rewrite E, (Z.land_ones _ 11), Z.mod_small by lia.
  rewrite (proj2 (Z.leb_le _ _)), (proj2 (Z.ltb_lt _ _)), (proj2 (Z.eqb_neq _ _)) by lia. done.
Qed.

(** The significand, the exponent and whether the lower neighbour is nearer. *)
Definition lower_closer (x : Z) : bool := (x mod 2 ^ 52 =? 0) && (1 <? x / 2 ^ 52).

Lemma diyfp_of_bits_spec x : 0 < x < infinity_bits ->
  let f := diyfp_f (diyfp_of_bits x) in
  let e := diyfp_e (diyfp_of_bits x) in
  0 < f < 2 ^ 53 /\ -1074 <= e <= 971 /\ x = (e + 1074) * 2 ^ 52 + f /\
  (-1074 < e -> 2 ^ 52 <= f) /\ (lower_closer x = true <-> f = 2 ^ 52 /\ -1074 < e).
Proof.
  intros Hx. destruct (double_fields x Hx) as (E & F & He & Hf & Ex). unfold diyfp_of_bits, kHiddenBit, kMinExp, kBias, kPrecision.
  change (53 - 1) with 52. rewrite E, F. unfold lower_closer. set (a := x / 2 ^ 52) in *. set (b := x mod 2 ^ 52) in *.
  clearbody a b. rewrite andb_true_iff, Z.eqb_eq, Z.ltb_lt. destruct (Z.eqb_spec a 0); cbn [diyfp_f diyfp_e]; lia.
Qed.

Lemma normalize_to_spec f e t : 0 <= f -> 0 <= e - t -> f * 2 ^ (e - t) < 2 ^ 64 ->
  normalize_to (mk_diyfp f e) t = Ret (mk_diyfp (f * 2 ^ (e - t)) t).
Proof.
  intros Hf Hd Hs. unfold normalize_to. cbn [diyfp_f diyfp_e]. rewrite (proj2 (Z.leb_le _ _)) by done.
  cbn [cassert obind]. assert (0 <= f * 2 ^ (e - t)) by (apply Z.mul_nonneg_nonneg; lia).
  rewrite Z.shiftl_mul_pow2, wrap_u_id, Z.shiftr_div_pow2, Z.div_mul, Z.eqb_refl by (lia || (apply Z.pow_nonzero; lia)). done.
Qed.

(** The scale of the boundaries. *)
Lemma boundary_scale m s : 1 <= m < 2 ^ 53 -> 0 <= s -> 2 ^ 63 <= (2 * m + 1) * 2 ^ s < 2 ^ 64 ->
  10 <= s <= 62 /\ 2 ^ 63 <= m * 2 ^ (s + 1) < 2 ^ 64.
Proof.
  intros Hm Hs Hr. assert (10 <= s).
  { destruct (Z.le_gt_cases 10 s) as [|Hlt]; [done|]. assert (2 ^ s <= 2 ^ 9) by (apply Z.pow_le_mono_r; lia). nia. }
  assert (s <= 62).
  { destruct (Z.le_gt_cases s 62) as [|Hlt]; [done|]. assert (2 ^ 63 <= 2 ^ s) by (apply Z.pow_le_mono_r; lia). nia. }
  split; [done|]. rewrite Z.pow_add_r by lia. change (2 ^ 1) with 2. split; [|nia].
  assert (Hp : 2 ^ 63 = 2 ^ (62 - s) * 2 * 2 ^ s).
  { replace (2 ^ (62 - s) * 2) with (2 ^ (62 - s) * 2 ^ 1) by done. rewrite <- !Z.pow_add_r by lia. f_equal. lia. }
  assert (Hpos : 0 < 2 ^ s) by (apply Z.pow_pos_nonneg; lia). rewrite Hp in Hr |- *.
  assert (2 ^ (62 - s) * 2 <= 2 * m + 1) by (apply (Zmult_le_reg_r _ _ (2 ^ s)); lia). nia.
Qed.

Lemma compute_boundaries_spec x : 0 < x < infinity_bits ->
  let f := diyfp_f (diyfp_of_bits x) in
  let e := diyfp_e (diyfp_of_bits x) in
  exists s, let ep := e - 1 - s in
    10 <= s <= 62 /\ 2 ^ 63 <= (2 * f + 1) * 2 ^ s < 2 ^ 64 /\ 2 ^ 63 <= f * 2 ^ (s + 1) < 2 ^ 64 /\
    compute_boundaries x = Ret (mk_boundaries (mk_diyfp (f * 2 ^ (s + 1)) ep)
      (mk_diyfp (if lower_closer x then (4 * f - 1) * 2 ^ (s - 1) else (2 * f - 1) * 2 ^ s) ep)
      (mk_diyfp ((2 * f + 1) * 2 ^ s) ep)).
Proof.
  intros Hx f e. destruct (double_fields x Hx) as (EE & FF & _). destruct (diyfp_of_bits_spec x Hx) as (Hf & He & _ & _ & Hc).
  change (diyfp_f (diyfp_of_bits x)) with f in Hf, Hc. change (diyfp_e (diyfp_of_bits x)) with e in He, Hc.
  unfold compute_boundaries. rewrite finite_bits_positive by done.
  assert (x < sign_bit) by (unfold infinity_bits, sign_bit in *; lia).
  rewrite !(proj2 (Z.ltb_lt _ _)) by lia. cbn [andb cassert obind]. unfold kHiddenBit, kPrecision. change (53 - 1) with 52.
  rewrite EE, FF. fold (lower_closer x). assert (Hd : diyfp_of_bits x = mk_diyfp f e) by by destruct (diyfp_of_bits x).
  rewrite Hd. cbn [diyfp_f diyfp_e]. rewrite !wrap_u_id by lia.
  destruct (normalize_spec (2 * f + 1) (e - 1)) as (s & Hs & -> & Hr); [lia|]. cbn [obind diyfp_e].
  destruct (boundary_scale f s) as [Hs2 Hv]; [lia|lia|done|]. exists s.
  assert (Hpos : 0 < 2 ^ s) by (apply Z.pow_pos_nonneg; lia).
  assert (Hhalf : 2 ^ s = 2 * 2 ^ (s - 1)) by (rewrite <- Z.pow_succ_r by lia; f_equal; lia).
  split_and!; try lia. destruct (normalize_spec f e) as (t & Ht & Hn & Htr); [lia|].
  assert (t = s + 1) as ->.
  { destruct (Z.lt_trichotomy t (s + 1)) as [Hlt|[->|Hlt]]; [|done|]; exfalso.
    - assert (2 ^ (t + 1) <= 2 ^ (s + 1)) by (apply Z.pow_le_mono_r; lia). rewrite (Z.pow_add_r _ t) in * by lia. nia.
    - assert (2 ^ (s + 1 + 1) <= 2 ^ t) by (apply Z.pow_le_mono_r; lia). rewrite (Z.pow_add_r _ (s + 1)) in * by lia. nia. }
  replace (e - (s + 1)) with (e - 1 - s) in Hn by lia.
  destruct (lower_closer x); rewrite normalize_to_spec; try lia;
    [replace (e - 2 - (e - 1 - s)) with (s - 1) by lia|replace (e - 2 - (e - 1 - s)) with (s - 1) by lia; nia|
     replace (e - 1 - (e - 1 - s)) with s by lia|replace (e - 1 - (e - 1 - s)) with s by lia; nia];
    cbn [obind]; by rewrite Hn.
Qed.

(** ** Powers of ten *)

(** A power of the table is normalised and off by at most half a unit. *)
Definition power_ok (c : cached_power) : bool :=
  (2 ^ 63 <=? cp_f c) && (cp_f c <? 2 ^ 64) &&
  Qle_bool (inject_Z (2 * cp_f c - 1) * Qpower 2 (cp_e c)) (2 * Qpower 10 (cp_k c)) &&
  Qle_bool (2 * Qpower 10 (cp_k c)) (inject_Z (2 * cp_f c + 1) * Qpower 2 (cp_e c)).

Lemma powers_ok : forallb power_ok kCachedPowers = true.
Proof. vm_compute. reflexivity. Qed.

Definition selects (e : Z) : bool :=
  match get_cached_power_for_binary_exponent e with
  | Ret c => (-60 <=? cp_e c + e + 64) && (cp_e c + e + 64 <=? -32) && (Z.abs (cp_k c) <=? 324)
  | _ => false
  end.

Lemma powers_selected : forallb selects (map (fun i => Z.of_nat i - 1137) (seq 0 2098)) = true.
Proof. vm_compute. reflexivity. Qed.

Lemma cached_power_spec e : -1137 <= e <= 960 ->
  exists c, get_cached_power_for_binary_exponent e = Ret c /\
    2 ^ 63 <= cp_f c < 2 ^ 64 /\ -60 <= cp_e c + e + 64 <= -32 /\ -324 <= cp_k c <= 324 /\
    (inject_Z (2 * cp_f c - 1) * Qpower 2 (cp_e c) <= 2 * Qpower 10 (cp_k c) <=
     inject_Z (2 * cp_f c + 1) * Qpower 2 (cp_e c))%Q.
Proof.
  intros He. assert (Hs : selects e = true).
  { pose proof powers_selected as H. rewrite forallb_forall in H. apply H, in_map_iff.
    exists (Z.to_nat (e + 1137)). split; [lia|]. apply in_seq. lia. }
  unfold selects in Hs. destruct (get_cached_power_for_binary_exponent e) as [c| |] eqn:Eg; [|done|done].
  exists c. split; [done|]. unbool. assert (Hc : power_ok c = true).
  { unfold get_cached_power_for_binary_exponent in Eg. do 3 (apply obind_Ret in Eg as (_ & _ & Eg)).
    destruct (kCachedPowers !! _) as [c'|] eqn:Hl; [|done]. do 2 (apply obind_Ret in Eg as (_ & _ & Eg)).
    injection Eg as ->. pose proof powers_ok as H'. rewrite forallb_forall in H'. apply H', list_elem_of_In.
    by eapply list_elem_of_lookup_2. }
  unfold power_ok in Hc. unbool. rewrite !Qle_bool_iff in *. split_and!; try lia; done.
Qed.

(** ** The scaled boundaries *)

Local Open Scope Q_scope.

Lemma Qpower_2_pos e : 0 < Qpower 2 e.
Proof. apply Qpower_0_lt. done. Qed.
Lemma Qpower_10_pos e : 0 < Qpower 10 e.
Proof. apply Qpower_0_lt. done. Qed.

(** A product within half a unit, by a power within half a unit: the result is
    less than one unit from the true one. *)
Lemma scaled_error (g c w : Z) (t : Q) :
  (0 < g < 2 ^ 64)%Z -> (g * c - 2 ^ 63 <= w * 2 ^ 64 <= g * c + 2 ^ 63)%Z ->
  inject_Z (2 * c - 1) <= 2 * t <= inject_Z (2 * c + 1) ->
  inject_Z (w - 1) * inject_Z (2 ^ 64) < inject_Z g * t < inject_Z (w + 1) * inject_Z (2 ^ 64).
Proof.
  intros Hg Hw Ht.
  assert (Hg1 : inject_Z 0 < inject_Z g) by (rewrite <- Zlt_Qlt; lia).
  assert (Hg2 : inject_Z g < inject_Z (2 ^ 64)) by (rewrite <- Zlt_Qlt; lia).
  destruct Hw as [Hw1 Hw2]. rewrite Zle_Qle in Hw1, Hw2.
  rewrite ?inject_Z_plus, ?inject_Z_mult, ?inject_Z_opp in *.
  unfold Z.sub in *. rewrite ?inject_Z_plus, ?inject_Z_mult, ?inject_Z_opp in *.
  change (inject_Z (2 ^ 64)) with (18446744073709551616#1) in *.
  change (inject_Z (2 ^ 63)) with (9223372036854775808#1) in *.
  change (inject_Z 0) with 0 in *. change (inject_Z 1) with 1 in *. change (inject_Z 2) with 2 in *.
  set (G := inject_Z g) in *. set (C := inject_Z c) in *. set (W := inject_Z w) in *. clearbody G C W.
  destruct Ht as [Ht1 Ht2].
  assert (G * (2 * C - 1) <= G * (2 * t)) by (apply Qmult_le_l; lra).
  assert (G * (2 * t) <= G * (2 * C + 1)) by (apply Qmult_le_l; lra).
  split; lra.
Qed.

(** ** Digits *)

Local Open Scope Z_scope.

Lemma digit_char_pred d : 1 <= d <= 9 -> char_of_Z (schar (digit_char d) - 1) = digit_char (d - 1).
Proof.
  intros Hd. unfold schar. destruct (digit_char_spec d) as [_ ->]; [lia|].
  rewrite (proj2 (Z.ltb_lt _ _)) by lia. unfold digit_char. f_equal. lia.
Qed.

Lemma digit_char_nonzero d : 1 <= d <= 9 -> Ascii.eqb (digit_char d) "0" = false.
Proof.
  intros Hd. apply Ascii.eqb_neq. intros E. assert (Hu : uchar (digit_char d) = uchar "0") by by rewrite E.
  destruct (digit_char_spec d) as [_ E2]; [lia|]. rewrite E2 in Hu. change (uchar "0") with 48 in Hu. lia.
Qed.

(** The last digit [d] can be taken down while the number stays within [delta];
    as the number without the digit is not, it is never taken down to 0. *)
Lemma round_loop_spec fuel d dist delta rest ten_k :
  d < Z.of_nat fuel -> 0 <= d <= 9 -> 0 <= rest <= delta -> 0 <= dist <= delta -> delta < 2 ^ 64 -> 0 < ten_k ->
  delta < rest + d * ten_k ->
  exists j, 0 <= j < d /\ round_loop fuel (digit_char d) dist delta rest ten_k = Ret (digit_char (d - j)) /\
    rest + j * ten_k <= delta.
Proof.
  revert d rest. induction fuel as [|fuel IH]; intros d rest Hfuel Hd Hr Hdist Hdelta Hten Hlast; [lia|].
  assert (1 <= d) by (destruct (Z.eq_dec d 0) as [->|]; lia).
  cbn [round_loop]. destruct (_ && _) eqn:Hc.
  - apply andb_prop in Hc as [[H1 H2]%andb_prop _]. apply Z.ltb_lt in H1. apply Z.leb_le in H2.
    rewrite wrap_u_id in H2 by lia. rewrite digit_char_nonzero by lia. cbn [negb cassert obind].
    rewrite digit_char_pred, wrap_u_id by lia.
    assert (2 <= d) by (destruct (Z.eq_dec d 1) as [->|]; lia).
    destruct (IH (d - 1) (rest + ten_k)) as (j & Hj & -> & Hle); [lia..|].
    exists (j + 1). split; [lia|]. split; [do 2 f_equal; lia|lia].
  - exists 0. split; [lia|]. split; [do 2 f_equal; lia|lia].
Qed.

Lemma grisu2_round_spec front d dist delta rest ten_k :
  0 <= d <= 9 -> 0 <= rest <= delta -> 0 <= dist <= delta -> delta < 2 ^ 64 -> 0 < ten_k ->
  delta < rest + d * ten_k ->
  exists j, 0 <= j < d /\ grisu2_round (front ++ [digit_char d]) dist delta rest ten_k = Ret (front ++ [digit_char (d - j)]) /\
    rest + j * ten_k <= delta.
Proof.
  intros Hd Hr Hdist Hdelta Hten Hlast. unfold grisu2_round. rewrite last_snoc, removelast_last.
  destruct (round_loop_spec 10 d dist delta rest ten_k) as (j & Hj & E & Hle); [lia..|].
  rewrite !(proj2 (Z.leb_le _ _)), (proj2 (Z.ltb_lt _ _)) by lia. cbn [cassert obind]. rewrite E. by exists j.
Qed.

(** Digits that do not start with 0. *)
Definition good_digits (b : str) : Prop :=
  forallb is_digit b = true /\ exists c s, b = c :: s /\ c <> "0"%char.

Lemma decimal_value_snoc b d : 0 <= d <= 9 -> decimal_value (b ++ [digit_char d]) = decimal_value b * 10 + d.
Proof.
  intros Hd. rewrite decimal_value_app. change (10 ^ str_size [digit_char d]) with 10.
  unfold decimal_value at 2. cbn [fold_left]. destruct (digit_char_spec d) as [_ ->]; lia.
Qed.

Lemma good_digits_snoc b d : 0 <= d <= 9 -> good_digits b \/ b = [] /\ 1 <= d -> good_digits (b ++ [digit_char d]).
Proof.
  intros Hd Hb. destruct (digit_char_spec d) as [Hdig _]; [lia|]. split.
  - rewrite forallb_app. simpl. rewrite Hdig. destruct Hb as [[-> _]|[-> _]]; done.
  - destruct Hb as [[_ (c & s & -> & Hc)]|[-> Hd1]]; [by eexists _, _|]. exists (digit_char d), []. split; [done|].
    apply Ascii.eqb_neq, digit_char_nonzero. lia.
Qed.

Lemma good_digits_lower b : good_digits b -> 10 ^ (str_size b - 1) <= decimal_value b.
Proof.
  intros [Hd (c & s & -> & Hc)]. simpl in Hd. apply andb_prop in Hd as [Hcd Hs].
  unfold decimal_value. cbn [fold_left]. rewrite decimal_acc, str_size_cons.
  replace (1 + str_size s - 1) with (str_size s) by lia. pose proof (digits_value_nonneg s Hs).
  assert (49 <= uchar c).
  { unfold is_digit in Hcd. apply andb_prop in Hcd as [?%Z.leb_le _]. destruct (Z.eq_dec (uchar c) 48) as [E|]; [|lia].
    destruct Hc. rewrite <- (char_of_Z_uchar c), E. done. }
  assert (0 < 10 ^ str_size s) by (apply Z.pow_pos_nonneg; [done|apply str_size_nonneg]). nia.
Qed.

Lemma good_digits_pos b : good_digits b -> 1 <= decimal_value b.
Proof.
  intros Hb. pose proof (good_digits_lower b Hb) as Hl. destruct Hb as [_ (c & s & -> & _)].
  rewrite str_size_cons in Hl. pose proof (str_size_nonneg s).
  assert (0 < 10 ^ (1 + str_size s - 1)) by (apply Z.pow_pos_nonneg; lia). lia.
Qed.

Section generation.
Variables lo M delta dist sh : Z.
Hypotheses (Hlo : 0 < lo) (Hdelta : delta = M - lo) (Hdist : 0 <= dist <= delta) (HM : M < 2 ^ 64)
  (Hsh : 32 <= sh <= 60) (Hpos : 1 <= delta) (Hwide : M <= delta * 10 ^ 16).

(** A number within the scaled boundaries. *)
Definition generated (b : str) (k : Z) : Prop :=
  good_digits b /\ str_size b <= 17 /\
  exists a m, 0 <= a <= 10 /\ 0 <= m <= 20 /\ k = a - m /\
    lo * 10 ^ m <= decimal_value b * 10 ^ a * 2 ^ sh <= M * 10 ^ m.

(** While more than [delta] remains there are at most 16 digits. *)
Lemma digits_bound b u r m : 0 <= m -> good_digits b -> decimal_value b * u + r = M * 10 ^ m -> delta * 10 ^ m < r < u ->
  str_size b <= 16.
Proof.
  intros Hm Hb E Hr. destruct (Z.le_gt_cases (str_size b) 16) as [|Hlt]; [done|exfalso].
  pose proof (good_digits_lower b Hb) as Hl. assert (10 ^ 16 <= 10 ^ (str_size b - 1)) by (apply Z.pow_le_mono_r; lia).
  assert (0 < 10 ^ m) by (apply Z.pow_pos_nonneg; lia). set (t := 10 ^ m) in *. clearbody t.
  assert (10 ^ 16 * u <= decimal_value b * u) by (apply Z.mul_le_mono_nonneg_r; nia).
  assert (M * t <= delta * 10 ^ 16 * t) by (apply Z.mul_le_mono_nonneg_r; lia). nia.
Qed.

(** The last digit and the rounding. *)
Lemma stop_spec b d u rest m :
  0 <= m -> 0 <= d <= 9 -> good_digits b \/ b = [] /\ 1 <= d -> 0 < u -> delta * 10 ^ m < 2 ^ 64 ->
  (decimal_value b * 10 + d) * u + rest = M * 10 ^ m -> 0 <= rest <= delta * 10 ^ m -> delta * 10 ^ m < d * u + rest ->
  exists b', grisu2_round (b ++ [digit_char d]) (dist * 10 ^ m) (delta * 10 ^ m) rest u = Ret b' /\
    good_digits b' /\ str_size b' = str_size b + 1 /\ lo * 10 ^ m <= decimal_value b' * u <= M * 10 ^ m.
Proof.
  intros Hm Hd Hb Hu Hw E Hr Hlast. assert (0 < 10 ^ m) by (apply Z.pow_pos_nonneg; lia). set (t := 10 ^ m) in *. clearbody t.
  destruct (grisu2_round_spec b d (dist * t) (delta * t) rest u) as (j & Hj & -> & Hle); [lia|lia| |lia|lia|lia|].
  { split; [apply Z.mul_nonneg_nonneg|apply Z.mul_le_mono_nonneg_r]; lia. }
  eexists. split; [done|]. split; [apply good_digits_snoc; [lia|]; destruct Hb as [|[]]; [by left|right; split; [done|lia]]|].
  split; [by rewrite str_size_app|]. rewrite decimal_value_snoc by lia. subst delta. nia.
Qed.

Lemma integral_digits_spec n : forall b de p1 pow10 p2,
  (n <= 10)%nat -> 0 <= p2 < 2 ^ sh -> 0 <= p1 < 10 ^ Z.of_nat n ->
  (decimal_value b * 10 ^ Z.of_nat n + p1) * 2 ^ sh + p2 = M -> delta < p1 * 2 ^ sh + p2 ->
  pow10 = 10 ^ (Z.of_nat n - 1) -> good_digits b \/ b = [] /\ pow10 <= p1 /\ (0 < n)%nat ->
  exists r, integral_digits n sh delta dist p2 b de p1 pow10 = Ret r /\
    match r with
    | inl (b', k) => generated b' (k - de)
    | inr b' => good_digits b' /\ decimal_value b' * 2 ^ sh + p2 = M /\ delta < p2
    end.
Proof.
  induction n as [|n IH]; intros b de p1 pow10 p2 Hn Hp2 Hp1 E Hrem Hpow Hb.
  { eexists. split; [done|]. destruct Hb as [Hb|Hb]; [|lia]. simpl in *. split; [done|]. split; lia. }
  replace (Z.of_nat (S n) - 1) with (Z.of_nat n) in Hpow by lia. rewrite Nat2Z.inj_succ, Z.pow_succ_r in Hp1, E by lia.
  assert (Hpp : 0 < pow10) by (subst; apply Z.pow_pos_nonneg; lia). assert (Hone : 0 < 2 ^ sh) by (apply Z.pow_pos_nonneg; lia).
  cbn [integral_digits]. rewrite (proj2 (Z.eqb_neq pow10 0)) by lia. cbn [negb cassert obind].
  pose proof (Z.div_mod p1 pow10 ltac:(lia)) as Hdm. pose proof (Z.mod_pos_bound p1 pow10 Hpp) as Hmod.
  assert (Hd : 0 <= p1 / pow10 <= 9).
  { split; [apply Z.div_pos; lia|]. assert (p1 / pow10 < 10) by (apply Z.div_lt_upper_bound; lia). lia. }
  assert (Hd1 : b = [] -> pow10 <= p1 -> 1 <= p1 / pow10) by (intros _ ?; apply Z.div_le_lower_bound; lia).
  fold (digit_char (p1 / pow10)). set (d := p1 / pow10) in *. set (r := p1 mod pow10) in *. clearbody d r.
  rewrite (proj2 (Z.leb_le d 9)) by lia. cbn [cassert obind].
  assert (Hbd : good_digits b \/ b = [] /\ 1 <= d) by (destruct Hb as [|(?&?&?)]; [by left|right; auto]).
  assert (Hv : 0 <= decimal_value b) by (destruct Hb as [[? _]|[-> _]]; [by apply digits_value_nonneg|done]).
  assert (Hrest : 0 <= r * 2 ^ sh + p2 /\ r * 2 ^ sh + p2 < pow10 * 2 ^ sh) by nia.
  assert (HMr : (decimal_value b * 10 + d) * (pow10 * 2 ^ sh) + (r * 2 ^ sh + p2) = M) by nia.
  assert (1 <= decimal_value b * 10 + d) by (destruct Hbd as [Hg|[-> ?]]; [pose proof (good_digits_pos b Hg)|]; lia).
  assert (pow10 * 2 ^ sh <= M) by nia.
  rewrite !Z.shiftl_mul_pow2, (wrap_u_id 64 (r * 2 ^ sh)), (wrap_u_id 64 (_ + p2)), (wrap_u_id 64 (pow10 * _)) by (nia || lia).
  destruct (Z.leb_spec (r * 2 ^ sh + p2) delta) as [Hstop|Hgo].
  - destruct (stop_spec b d (pow10 * 2 ^ sh) (r * 2 ^ sh + p2) 0) as (b' & Eb & Hg & Hsz & Hin); try lia; try done.
    rewrite !Z.mul_1_r in Eb. rewrite Eb. cbn [obind]. eexists. split; [done|]. split; [done|]. split.
    + rewrite Hsz. destruct Hbd as [Hgb|[-> _]]; [|done].
      assert (str_size b <= 16); [|lia]. rewrite <- Hpow in Hp1, E.
      assert ((p1 + 1) * 2 ^ sh <= 10 * pow10 * 2 ^ sh) by (apply Z.mul_le_mono_nonneg_r; lia).
      apply (digits_bound b (10 * pow10 * 2 ^ sh) (p1 * 2 ^ sh + p2) 0); [done|done|lia|lia].
    + exists (Z.of_nat n), 0. rewrite !Z.mul_1_r in Hin |- *. rewrite <- Hpow, <- Z.mul_assoc. split_and!; lia.
  - apply IH; try lia.
    + rewrite <- Hpow, decimal_value_snoc by lia. nia.
    + rewrite Hpow. destruct n as [|n]; [done|]. rewrite Nat2Z.inj_succ, Z.pow_succ_r by lia.
      rewrite Z.mul_comm, Z.div_mul by done. f_equal. lia.
    + left. by apply good_digits_snoc.
Qed.

Lemma fractional_digits_spec fuel : forall b p2 m,
  0 <= m <= 20 -> m + Z.of_nat fuel = 20 -> good_digits b -> decimal_value b * 2 ^ sh + p2 = M * 10 ^ m ->
  delta * 10 ^ m < p2 < 2 ^ sh ->
  exists b' m', fractional_digits fuel sh (delta * 10 ^ m) (dist * 10 ^ m) p2 b m = Ret (b', m') /\ generated b' (- m').
Proof.
  assert (H60 : 2 ^ sh <= 2 ^ 60) by (apply Z.pow_le_mono_r; lia). assert (Hone : 0 < 2 ^ sh) by (apply Z.pow_pos_nonneg; lia).
  induction fuel as [|fuel IH]; intros b p2 m Hm Hfuel Hb E Hp2.
  { assert (m = 20) as -> by lia. lia. }
  assert (Ht : 0 < 10 ^ m) by (apply Z.pow_pos_nonneg; lia).
  assert (Hdt : 0 <= dist * 10 ^ m <= delta * 10 ^ m)
    by (split; [apply Z.mul_nonneg_nonneg|apply Z.mul_le_mono_nonneg_r]; lia).
  assert (Hten : 10 ^ (m + 1) = 10 ^ m * 10) by (by rewrite Z.pow_add_r by lia).
  cbn [fractional_digits]. rewrite (proj2 (Z.leb_le p2 _)) by (transitivity (2 ^ 60); [lia|vm_compute; discriminate]).
  cbn [cassert obind]. rewrite !wrap_u_id by lia. rewrite Z.shiftl_mul_pow2, Z.mul_1_l, land_mask, Z.shiftr_div_pow2 by lia.
  pose proof (Z.div_mod (p2 * 10) (2 ^ sh) ltac:(lia)) as Hdm. pose proof (Z.mod_pos_bound (p2 * 10) (2 ^ sh) Hone) as Hmod.
  assert (Hd : 0 <= p2 * 10 / 2 ^ sh <= 9).
  { split; [apply Z.div_pos; lia|]. assert (p2 * 10 / 2 ^ sh < 10) by (apply Z.div_lt_upper_bound; lia). lia. }
  fold (digit_char (p2 * 10 / 2 ^ sh)). set (d := p2 * 10 / 2 ^ sh) in *. set (r := (p2 * 10) mod 2 ^ sh) in *. clearbody d r.
  rewrite (proj2 (Z.leb_le d 9)) by lia. cbn [cassert obind]. rewrite <- !Z.mul_assoc, <- Hten.
  destruct (Z.leb_spec r (delta * 10 ^ (m + 1))) as [Hstop|Hgo].
  - destruct (stop_spec b d (2 ^ sh) r (m + 1)) as (b' & -> & Hg & Hsz & Hin); try lia; [by left|]. cbn [obind].
    eexists _, _. split; [done|]. split; [done|]. split.
    + rewrite Hsz. assert (str_size b <= 16); [|lia]. apply (digits_bound b (2 ^ sh) p2 m); [lia|done..].
    + exists 0, (m + 1). rewrite Z.mul_1_r. split_and!; lia.
  - apply IH; try lia; [apply good_digits_snoc; [lia|by left]|]. rewrite decimal_value_snoc by lia. lia.
Qed.

Lemma largest_pow10_spec n : 0 < n < 2 ^ 32 ->
  exists k, find_largest_pow10 n = (k, 10 ^ (Z.of_nat k - 1)) /\ (1 <= k <= 10)%nat /\ 10 ^ (Z.of_nat k - 1) <= n < 10 ^ Z.of_nat k.
Proof.
  intros Hn. unfold find_largest_pow10.
  do 9 (case_match; unbool; [match goal with |- context [(?k, _)] => exists k end; split; [reflexivity|]; simpl; lia|]).
  exists 1%nat. split; [reflexivity|]. simpl. lia.
Qed.

Lemma digit_gen_spec de w : 2 ^ 60 <= M -> w = M - dist ->
  exists b k, grisu2_digit_gen de (mk_diyfp lo (- sh)) (mk_diyfp w (- sh)) (mk_diyfp M (- sh)) = Ret (b, de + k) /\ generated b k.
Proof.
  intros HM0 ->. assert (Hone : 0 < 2 ^ sh) by (apply Z.pow_pos_nonneg; lia). assert (H60 : 2 ^ sh <= 2 ^ 60) by (apply Z.pow_le_mono_r; lia).
  assert (H32 : 2 ^ 32 <= 2 ^ sh) by (apply Z.pow_le_mono_r; lia).
  unfold grisu2_digit_gen, diyfp_sub, kAlpha, kGamma. cbn [diyfp_e diyfp_f]. rewrite Z.eqb_refl, Z.opp_involutive.
  rewrite !(proj2 (Z.leb_le _ _)) by lia. cbn [cassert obind diyfp_f]. rewrite (wrap_u_id 64 (M - lo)), (wrap_u_id 64 (M - (M - dist))) by lia.
  replace (M - (M - dist)) with dist by lia. rewrite <- Hdelta.
  rewrite Z.shiftl_mul_pow2, Z.mul_1_l, (wrap_u_id 64), land_mask, Z.shiftr_div_pow2 by lia.
  pose proof (Z.div_mod M (2 ^ sh) ltac:(lia)) as Hdm. pose proof (Z.mod_pos_bound M (2 ^ sh) Hone) as Hmod.
  assert (Hp1 : 0 < M / 2 ^ sh < 2 ^ 32).
  { split; [apply Z.div_str_pos; lia|]. apply Z.div_lt_upper_bound; [done|]. nia. }
  rewrite (wrap_u_id 32) by lia. set (p1 := M / 2 ^ sh) in *. set (p2 := M mod 2 ^ sh) in *. clearbody p1 p2.
  rewrite (proj2 (Z.ltb_lt 0 p1)) by lia. cbn [cassert obind].
  destruct (largest_pow10_spec p1 Hp1) as (k & -> & Hk & Hkp).
  destruct (integral_digits_spec k [] de p1 (10 ^ (Z.of_nat k - 1)) p2) as (r & -> & Hr); try lia.
  - change (decimal_value []) with 0. lia.
  - right. split; [done|]. lia.
  - cbn [obind]. destruct r as [[b k']|b].
    + exists b, (k' - de). split; [do 2 f_equal; lia|done].
    + destruct Hr as (Hb & E & Hlt). rewrite (proj2 (Z.ltb_lt _ _)) by done. cbn [cassert obind].
      destruct (fractional_digits_spec 20 b p2 0) as (b' & m & Ef & Hg); try lia; [done|].
      rewrite !Z.mul_1_r in Ef. rewrite Ef. cbn [obind]. exists b', (- m). done.
Qed.
End generation.

(** ** The interval of a number *)

(** The reals strictly between these round to [x]. *)
Definition upper (x : Z) : Q :=
  let v := diyfp_of_bits x in (inject_Z (2 * diyfp_f v + 1) * Qpower 2 (diyfp_e v - 1))%Q.

Definition lower (x : Z) : Q :=
  let v := diyfp_of_bits x in
  if lower_closer x then (inject_Z (4 * diyfp_f v - 1) * Qpower 2 (diyfp_e v - 2))%Q
  else (inject_Z (2 * diyfp_f v - 1) * Qpower 2 (diyfp_e v - 1))%Q.

(** The distances between the scaled boundaries, all in multiples of [h]. *)
Lemma scaled_gaps (f h wm w wp : Z) (closer : bool) :
  1 <= f < 2 ^ 53 -> (closer = true -> f = 2 ^ 52) -> 2 ^ 72 <= h ->
  (4 * f + 2) * h - 2 ^ 63 < wp * 2 ^ 64 <= (4 * f + 2) * h + 2 ^ 63 ->
  4 * f * h - 2 ^ 63 < w * 2 ^ 64 <= 4 * f * h + 2 ^ 63 ->
  (4 * f - (if closer then 1 else 2)) * h - 2 ^ 63 < wm * 2 ^ 64 <= (4 * f - (if closer then 1 else 2)) * h + 2 ^ 63 ->
  0 <= wm /\ 1 <= wp - 1 - (wm + 1) /\ wm + 1 <= w <= wp - 1 /\ wp - 1 <= (wp - 1 - (wm + 1)) * 10 ^ 16.
Proof.
  intros Hf Hc Hh Hp Hv Hm. assert (Hfh : 1 * h <= f * h <= (2 ^ 53 - 1) * h) by (split; apply Z.mul_le_mono_nonneg_r; lia).
  destruct closer.
  - rewrite Hc in * by done. lia.
  - set (p := f * h) in *. replace ((4 * f + 2) * h) with (4 * p + 2 * h) in Hp by (unfold p; lia).
    replace (4 * f * h) with (4 * p) in Hv by (unfold p; lia). replace ((4 * f - 2) * h) with (4 * p - 2 * h) in Hm by (unfold p; lia).
    clearbody p. lia.
Qed.

Local Open Scope Q_scope.

(** From the scaled number back to the number. *)
Section unscale.
Variables (D X g a m ck ce ep sh : Z).
Hypotheses (Ha : (0 <= a)%Z) (Hm : (0 <= m)%Z) (Hsh : (0 <= sh)%Z) (Hexp : (sh + 64 + ce + ep = 0)%Z).

Let K : Q := Qpower 10 m * Qpower 10 ck * (Qpower 2 sh * Qpower 2 64).

Lemma unscale_left : inject_Z D * Qpower 10 (a - m - ck) * K == inject_Z (D * 10 ^ a * 2 ^ sh) * inject_Z (2 ^ 64).
Proof.
  unfold K. rewrite !inject_Z_mult, !Zpower_Qpower by lia. change (inject_Z 10) with 10. change (inject_Z 2) with 2.
  transitivity (inject_Z D * (Qpower 10 (a - m - ck) * Qpower 10 m * Qpower 10 ck) * Qpower 2 sh * Qpower 2 64); [ring|].
  rewrite <- !Qpower_plus by done. replace (a - m - ck + m + ck)%Z with a by lia. reflexivity.
Qed.

Lemma unscale_right : inject_Z g * Qpower 2 ep * K == inject_Z g * (Qpower 10 ck * Qpower 2 (- ce)) * inject_Z (10 ^ m).
Proof.
  unfold K. rewrite Zpower_Qpower by lia. change (inject_Z 10) with 10.
  transitivity (inject_Z g * (Qpower 2 ep * Qpower 2 sh * Qpower 2 64) * Qpower 10 ck * Qpower 10 m); [ring|].
  rewrite <- !Qpower_plus by done. replace (ep + sh + 64)%Z with (- ce)%Z by lia. ring.
Qed.

Lemma scale_pos : 0 < K.
Proof. unfold K. do 2 apply Qmult_lt_0_compat; (apply Qpower_2_pos || apply Qpower_10_pos || apply Qmult_lt_0_compat; apply Qpower_2_pos). Qed.

Lemma tens_pos : 0 < inject_Z (10 ^ m).
Proof. rewrite Zpower_Qpower by lia. apply Qpower_10_pos. Qed.

Lemma unscale_upper :
  (D * 10 ^ a * 2 ^ sh <= X * 10 ^ m)%Z ->
  inject_Z X * inject_Z (2 ^ 64) < inject_Z g * (Qpower 10 ck * Qpower 2 (- ce)) ->
  inject_Z D * Qpower 10 (a - m - ck) < inject_Z g * Qpower 2 ep.
Proof.
  intros H1 H2. apply (Qmult_lt_r _ _ K scale_pos). rewrite unscale_left, unscale_right. rewrite Zle_Qle, (inject_Z_mult X) in H1.
  apply Qle_lt_trans with (inject_Z X * inject_Z (10 ^ m) * inject_Z (2 ^ 64)); [apply Qmult_le_r; [done|exact H1]|].
  apply (Qmult_lt_r _ _ (inject_Z (10 ^ m)) tens_pos) in H2. lra.
Qed.

Lemma unscale_lower :
  (X * 10 ^ m <= D * 10 ^ a * 2 ^ sh)%Z ->
  inject_Z g * (Qpower 10 ck * Qpower 2 (- ce)) < inject_Z X * inject_Z (2 ^ 64) ->
  inject_Z g * Qpower 2 ep < inject_Z D * Qpower 10 (a - m - ck).
Proof.
  intros H1 H2. apply (Qmult_lt_r _ _ K scale_pos). rewrite unscale_left, unscale_right. rewrite Zle_Qle, (inject_Z_mult X) in H1.
  apply Qlt_le_trans with (inject_Z X * inject_Z (10 ^ m) * inject_Z (2 ^ 64)); [|apply Qmult_le_r; [done|exact H1]].
  apply (Qmult_lt_r _ _ (inject_Z (10 ^ m)) tens_pos) in H2. lra.
Qed.
End unscale.

Lemma scaled_power c ce ck :
  inject_Z (2 * c - 1) * Qpower 2 ce <= 2 * Qpower 10 ck <= inject_Z (2 * c + 1) * Qpower 2 ce ->
  inject_Z (2 * c - 1) <= 2 * (Qpower 10 ck * Qpower 2 (- ce)) <= inject_Z (2 * c + 1).
Proof.
  intros H. assert (E : Qpower 2 ce * Qpower 2 (- ce) == 1).
  { rewrite <- Qpower_plus by done. by rewrite Z.add_opp_diag_r. }
  pose proof (Qpower_2_pos (- ce)) as Hp. set (u := Qpower 2 (- ce)) in *. set (b := Qpower 2 ce) in *. set (t := Qpower 10 ck) in *.
  clearbody u b t. destruct H as [H1 H2]. apply (Qmult_le_r _ _ u Hp) in H1, H2.
  assert (Hb : forall y, y * b * u == y) by (intros y; rewrite <- Qmult_assoc, E; ring).
  rewrite Hb in H1, H2. split; lra.
Qed.

(** A significand scaled by [2^s] at the exponent lowered by [s]. *)
Lemma scaled_value g s e : (0 <= s)%Z -> inject_Z (g * 2 ^ s) * Qpower 2 (e - s) == inject_Z g * Qpower 2 e.
Proof.
  intros Hs. rewrite inject_Z_mult, Zpower_Qpower by lia. change (inject_Z 2) with 2. rewrite <- Qmult_assoc, <- Qpower_plus by done.
  by replace (s + (e - s))%Z with e by lia.
Qed.

(** The boundaries scaled by the power of ten, with one unit off each. *)
Lemma scaled_boundaries f s ep c (closer : bool) :
  let gp := ((2 * f + 1) * 2 ^ s)%Z in
  let gm := ((4 * f - (if closer then 1 else 2)) * 2 ^ (s - 1))%Z in
  let cc := mk_diyfp (cp_f c) (cp_e c) in
  let wp := diyfp_f (diyfp_mul (mk_diyfp gp ep) cc) in
  let w := diyfp_f (diyfp_mul (mk_diyfp (f * 2 ^ (s + 1)) ep) cc) in
  let wm := diyfp_f (diyfp_mul (mk_diyfp gm ep) cc) in
  let t := Qpower 10 (cp_k c) * Qpower 2 (- cp_e c) in
  (1 <= f < 2 ^ 53)%Z -> (closer = true -> f = 2 ^ 52)%Z -> (10 <= s <= 62)%Z ->
  (2 ^ 63 <= gp < 2 ^ 64)%Z -> (2 ^ 63 <= cp_f c < 2 ^ 64)%Z ->
  inject_Z (2 * cp_f c - 1) <= 2 * t <= inject_Z (2 * cp_f c + 1) ->
  (0 <= wm /\ 1 <= wp - 1 - (wm + 1) /\ wm + 1 <= w <= wp - 1 /\ wp - 1 <= (wp - 1 - (wm + 1)) * 10 ^ 16 /\
   2 ^ 60 <= wp - 1 < 2 ^ 64)%Z /\
  inject_Z gm * t < inject_Z (wm + 1) * inject_Z (2 ^ 64) /\
  inject_Z (wp - 1) * inject_Z (2 ^ 64) < inject_Z gp * t.
Proof.
  intros gp gm cc wp w wm t Hf Hc Hs Hgp Hcf Ht.
  assert (Hpos : (2 ^ s = 2 * 2 ^ (s - 1) /\ 2 ^ 9 <= 2 ^ (s - 1))%Z).
  { split; [rewrite <- Z.pow_succ_r by lia; f_equal; lia|apply Z.pow_le_mono_r; lia]. }
  destruct Hpos as [Hhalf Hpos]. assert (Hv : (f * 2 ^ (s + 1) = 4 * f * 2 ^ (s - 1))%Z).
  { rewrite Z.pow_add_r, Hhalf by lia. lia. }
  assert (Hgp2 : gp = ((4 * f + 2) * 2 ^ (s - 1))%Z) by (unfold gp; rewrite Hhalf; lia).
  assert (Hgm : (0 < gm < 2 ^ 64)%Z) by (unfold gm; destruct closer; nia).
  pose proof (diyfp_mul_error (mk_diyfp gm ep) cc ltac:(simpl; lia) ltac:(simpl; lia)) as Em.
  pose proof (diyfp_mul_error (mk_diyfp (f * 2 ^ (s + 1)) ep) cc ltac:(simpl; nia) ltac:(simpl; lia)) as Ew.
  pose proof (diyfp_mul_error (mk_diyfp gp ep) cc ltac:(simpl; lia) ltac:(simpl; lia)) as Ep.
  fold wm in Em. fold w in Ew. fold wp in Ep. cbn [diyfp_f cc] in Em, Ew, Ep. rewrite Hv in Ew. clearbody w wm wp.
  split; [|split; eapply scaled_error; try exact Ht; lia].
  assert (Hprod : (2 ^ 63 * 2 ^ 63 <= gp * cp_f c <= (2 ^ 64 - 1) * (2 ^ 64 - 1))%Z) by (split; apply Z.mul_le_mono_nonneg; lia).
  assert (Hh : (2 ^ 9 * 2 ^ 63 <= 2 ^ (s - 1) * cp_f c)%Z) by (apply Z.mul_le_mono_nonneg; lia).
  destruct (scaled_gaps f (2 ^ (s - 1) * cp_f c) wm w wp closer) as (? & ? & ? & ?); try done.
  - rewrite Hgp2 in Ep. lia.
  - lia.
  - unfold gm in Em. lia.
  - split_and!; lia.
Qed.

Lemma grisu2_scaled_spec f s ep (closer : bool) :
  let gp := ((2 * f + 1) * 2 ^ s)%Z in
  let gm := ((4 * f - (if closer then 1 else 2)) * 2 ^ (s - 1))%Z in
  (1 <= f < 2 ^ 53)%Z -> (closer = true -> f = 2 ^ 52)%Z -> (10 <= s <= 62)%Z -> (-1137 <= ep <= 960)%Z ->
  (2 ^ 63 <= gp < 2 ^ 64)%Z ->
  exists b k, grisu2_scaled (mk_diyfp gm ep) (mk_diyfp (f * 2 ^ (s + 1)) ep) (mk_diyfp gp ep) = Ret (b, k) /\
    good_digits b /\ (str_size b <= 17)%Z /\ (-350 <= k <= 350)%Z /\
    inject_Z gm * Qpower 2 ep < inject_Z (decimal_value b) * Qpower 10 k < inject_Z gp * Qpower 2 ep.
Proof.
  intros gp gm Hf Hc Hs He Hgp. destruct (cached_power_spec ep He) as (c & Hcp & Hcf & Hce & Hck & Herr).
  apply scaled_power in Herr. destruct (scaled_boundaries f s ep c closer) as ((H0 & H1 & H2 & H3 & H4) & Hlow & Hup); try done.
  fold gp gm in H0, H1, H2, H3, H4, Hlow, Hup. unfold grisu2_scaled. cbn [diyfp_e]. rewrite !Z.eqb_refl. cbn [cassert obind].
  rewrite Hcp. cbn [obind]. rewrite !diyfp_mul_e. cbn [diyfp_e]. set (cc := mk_diyfp (cp_f c) (cp_e c)) in *.
  set (wp := diyfp_f (diyfp_mul (mk_diyfp gp ep) cc)) in *. set (wm := diyfp_f (diyfp_mul (mk_diyfp gm ep) cc)) in *.
  set (w := diyfp_mul (mk_diyfp (f * 2 ^ (s + 1)) ep) cc) in *. rewrite !wrap_u_id by lia.
  set (sh := (- (ep + cp_e c + 64))%Z). replace (ep + cp_e c + 64)%Z with (- sh)%Z by (unfold sh; lia).
  assert (Hw : w = mk_diyfp (diyfp_f w) (- sh)).
  { unfold sh. rewrite Z.opp_involutive. change (ep + cp_e c + 64)%Z with (diyfp_e w). by destruct w. }
  rewrite Hw. clearbody w wp wm.
  destruct (digit_gen_spec (wm + 1) (wp - 1) (wp - 1 - (wm + 1)) (wp - 1 - diyfp_f w) sh
    ltac:(lia) eq_refl ltac:(lia) ltac:(lia) ltac:(lia) ltac:(lia) ltac:(lia) (- cp_k c) (diyfp_f w) ltac:(lia) ltac:(lia))
    as (b & k & -> & Hg & Hsz & a & m & Ha & Hm & -> & Hin).
  exists b, (a - m - cp_k c)%Z. split; [do 2 f_equal; lia|]. split; [done|]. split; [done|]. split; [lia|].
  split; [apply (unscale_lower _ (wm + 1) gm a m (cp_k c) (cp_e c) ep sh)|
    apply (unscale_upper _ (wp - 1) gp a m (cp_k c) (cp_e c) ep sh)]; try done; try apply Hin; unfold sh; lia.
Qed.

(** The digits and the exponent are a number of the interval. *)
Lemma grisu2_spec x : (0 < x < infinity_bits)%Z ->
  exists b k, grisu2 x = Ret (b, k) /\ good_digits b /\ (str_size b <= 17)%Z /\ (-350 <= k <= 350)%Z /\
    lower x < inject_Z (decimal_value b) * Qpower 10 k < upper x.
Proof.
  intros Hx. destruct (compute_boundaries_spec x Hx) as (s & Hs & Hgp & Hgv & Hcb).
  destruct (diyfp_of_bits_spec x Hx) as (Hf & He & _ & _ & Hc). unfold lower, upper.
  set (f := diyfp_f (diyfp_of_bits x)) in *. set (e := diyfp_e (diyfp_of_bits x)) in *.
  unfold grisu2. rewrite finite_bits_positive by done. assert (x < sign_bit)%Z by (unfold infinity_bits, sign_bit in *; lia).
  rewrite !(proj2 (Z.ltb_lt _ _)) by lia. cbn [andb cassert obind]. rewrite Hcb. cbn [obind b_minus b_plus b_w].
  assert (Hhalf : (2 ^ s = 2 * 2 ^ (s - 1))%Z) by (rewrite <- Z.pow_succ_r by lia; f_equal; lia).
  destruct (grisu2_scaled_spec f s (e - 1 - s) (lower_closer x)) as (b & k & Hb & Hg & Hsz & Hk & Hin); try lia; try done.
  { intros E. by apply Hc in E as [-> _]. }
  exists b, k. replace (if lower_closer x then _ else _) with ((4 * f - (if lower_closer x then 1 else 2)) * 2 ^ (s - 1))%Z
    by (destruct (lower_closer x); lia).
  split; [done|]. split; [done|]. split; [done|]. split; [done|]. rewrite (scaled_value _ s (e - 1)) in Hin by lia.
  split; [|apply Hin]. eapply Qle_lt_trans; [|apply Hin]. apply Qle_lteq. right. destruct (lower_closer x).
  - replace (e - 1 - s)%Z with (e - 2 - (s - 1))%Z by lia. by rewrite scaled_value by lia.
  - replace ((4 * f - 2) * 2 ^ (s - 1))%Z with ((2 * f - 1) * 2 ^ s)%Z by lia. by rewrite scaled_value by lia.
Qed.

(** ** Rounding *)

Lemma Qpower_2_succ e : Qpower 2 (e + 1) == 2 * Qpower 2 e.
Proof. rewrite Qpower_plus by done. change (Qpower 2 1) with 2. ring. Qed.

Lemma Qpower_2_shift n e : (0 <= n)%Z -> Qpower 2 (n + e) == inject_Z (2 ^ n) * Qpower 2 e.
Proof. intros Hn. rewrite Qpower_plus, Zpower_Qpower by done. reflexivity. Qed.

Lemma ilog2_spec v : 0 < v -> Qpower 2 (ilog2 v) <= v < Qpower 2 (ilog2 v + 1).
Proof.
  intros Hv. destruct v as [p q]. assert (Hp : (0 < p)%Z) by (unfold Qlt in Hv; simpl in Hv; lia).
  set (v := p # q) in *. assert (E : inject_Z p == v * inject_Z (Z.pos q)) by (unfold Qeq, v; simpl; lia).
  unfold ilog2. change (Qnum v) with p. change (Qden v) with q. set (a := Z.log2 p). set (b := Z.log2 (Z.pos q)).
  destruct (Z.log2_spec p Hp) as [Hp1 Hp2]. destruct (Z.log2_spec (Z.pos q) ltac:(lia)) as [Hq1 Hq2]. fold a in Hp1, Hp2. fold b in Hq1, Hq2.
  assert (Ha : (0 <= a)%Z) by apply Z.log2_nonneg. assert (Hb : (0 <= b)%Z) by apply Z.log2_nonneg.
  rewrite Zle_Qle, Zpower_Qpower in Hp1, Hq1 by lia. rewrite Zlt_Qlt, Zpower_Qpower in Hp2, Hq2 by lia. change (inject_Z 2) with 2 in *.
  unfold Z.succ in *. rewrite Qpower_2_succ in Hp2, Hq2.
  assert (Eab : Qpower 2 a == Qpower 2 (a - b) * Qpower 2 b) by (rewrite <- Qpower_plus by done; by replace (a - b + b)%Z with a by lia).
  pose proof (Qpower_2_pos b) as Hpb. rewrite E, Eab in Hp1, Hp2. set (Q := inject_Z (Z.pos q)) in *.
  assert (Hup : v < 2 * Qpower 2 (a - b)).
  { apply (Qmult_lt_r _ _ (Qpower 2 b) Hpb). assert (v * Qpower 2 b <= v * Q) by (apply Qmult_le_l; done). lra. }
  assert (Hlow : Qpower 2 (a - b) < 2 * v).
  { apply (Qmult_lt_r _ _ (Qpower 2 b) Hpb). assert (v * Q < v * (2 * Qpower 2 b)) by (apply Qmult_lt_l; done). lra. }
  destruct (Qle_bool (Qpower 2 (a - b)) v) eqn:Hle.
  - apply Qle_bool_iff in Hle. rewrite Qpower_2_succ. done.
  - assert (Hlt : v < Qpower 2 (a - b)) by (apply Qnot_le_lt; rewrite <- Qle_bool_iff; by rewrite Hle).
    replace (a - b)%Z with (a - b - 1 + 1)%Z in Hlt, Hlow by lia. split; [|done]. rewrite Qpower_2_succ in Hlow. lra.
Qed.

Lemma ilog2_unique v e : 0 < v -> Qpower 2 e <= v < Qpower 2 (e + 1) -> ilog2 v = e.
Proof.
  intros Hv He. destruct (ilog2_spec v Hv) as [H1 H2]. destruct (Z.lt_trichotomy (ilog2 v) e) as [Hlt|[->|Hlt]]; [|done|]; exfalso.
  - assert (Qpower 2 (ilog2 v + 1) <= Qpower 2 e) by (apply Qpower_le_compat_l; [lia|done]). lra.
  - assert (Qpower 2 (e + 1) <= Qpower 2 (ilog2 v)) by (apply Qpower_le_compat_l; [lia|done]). lra.
Qed.

Lemma ilog2_below v e : 0 < v -> v < Qpower 2 e -> (ilog2 v < e)%Z.
Proof.
  intros Hv He. destruct (ilog2_spec v Hv) as [H1 _]. destruct (Z.lt_ge_cases (ilog2 v) e) as [|Hge]; [done|exfalso].
  assert (Qpower 2 e <= Qpower 2 (ilog2 v)) by (apply Qpower_le_compat_l; [lia|done]). lra.
Qed.

Lemma nearest_spec r f : inject_Z f - (1 # 2) < r < inject_Z f + (1 # 2) -> nearest r = f.
Proof.
  intros Hr. unfold nearest. pose proof (Qfloor_le r) as H1. pose proof (Qlt_floor r) as H2.
  assert (Hf : Qfloor r = f \/ Qfloor r = (f - 1)%Z).
  { assert (f - 2 < Qfloor r)%Z; [|assert (Qfloor r < f + 1)%Z; [|lia]]; rewrite Zlt_Qlt; unfold Z.sub in *;
      rewrite ?inject_Z_plus, ?inject_Z_opp in *; change (inject_Z 1) with 1 in *; change (inject_Z 2) with 2 in *; lra. }
  destruct Hf as [->| ->].
  - destruct (Qcompare_spec (r - inject_Z f) (1 # 2)); [exfalso; lra|done|exfalso; lra].
  - assert (E : inject_Z (f - 1) == inject_Z f - 1) by (unfold Z.sub; by rewrite inject_Z_plus).
    destruct (Qcompare_spec (r - inject_Z (f - 1)) (1 # 2)) as [H|H|H]; rewrite E in H; [exfalso; lra|exfalso; lra|lia].
Qed.

(** A significand within half a unit of the scaled number. *)
Lemma nearest_scaled v f e : (inject_Z f - (1 # 2)) * Qpower 2 e < v < (inject_Z f + (1 # 2)) * Qpower 2 e ->
  nearest (v * Qpower 2 (- e)) = f.
Proof.
  intros Hv. apply nearest_spec. pose proof (Qpower_2_pos e) as Hp.
  assert (E : v * Qpower 2 (- e) * Qpower 2 e == v).
  { rewrite <- Qmult_assoc, <- Qpower_plus by done. rewrite Z.add_opp_diag_l. change (Qpower 2 0) with 1. ring. }
  split; apply (Qmult_lt_r _ _ (Qpower 2 e) Hp); rewrite E; apply Hv.
Qed.

Lemma round_double_at v e f x :
  0 < v -> Z.max (-1074) (ilog2 v - 52) = e -> (x = (e + 1074) * 2 ^ 52 + f)%Z -> (x < infinity_bits)%Z ->
  (inject_Z f - (1 # 2)) * Qpower 2 e < v < (inject_Z f + (1 # 2)) * Qpower 2 e -> round_double v = x.
Proof.
  intros Hv He Hx Hfin Hn. unfold round_double.
  destruct (Qeq_bool v 0) eqn:E0; [apply Qeq_bool_iff in E0; rewrite E0 in Hv; by apply Qlt_irrefl in Hv|].
  rewrite He, (nearest_scaled v f e Hn), <- Hx. lia.
Qed.

Lemma interval_bounds x v : lower x < v < upper x ->
  let f := inject_Z (diyfp_f (diyfp_of_bits x)) in
  let u := Qpower 2 (diyfp_e (diyfp_of_bits x)) in
  (f - (1 # 2)) * u < v < (f + (1 # 2)) * u /\ (lower_closer x = true -> (f - (1 # 4)) * u < v).
Proof.
  intros Hv f u. unfold lower, upper in Hv. set (e := diyfp_e (diyfp_of_bits x)) in *.
  pose proof (Qpower_2_pos (e - 2)) as HP. set (P := Qpower 2 (e - 2)) in *.
  assert (E1 : Qpower 2 (e - 1) == 2 * P) by (replace (e - 1)%Z with (e - 2 + 1)%Z by lia; apply Qpower_2_succ).
  assert (E0 : u == 4 * P).
  { unfold u. replace e with (2 + (e - 2))%Z by lia. rewrite Qpower_2_shift by done. reflexivity. }
  rewrite E0. clearbody P u. destruct (lower_closer x); rewrite ?E1 in Hv; unfold Z.sub in Hv;
    rewrite ?inject_Z_plus, ?inject_Z_mult, ?inject_Z_opp in Hv; fold f in Hv; change (inject_Z 4) with 4 in Hv;
    change (inject_Z 2) with 2 in Hv; change (inject_Z 1) with 1 in Hv; clearbody f.
  - assert (0 < P) by done. split_and!; intros; lra.
  - split_and!; intros; try done; lra.
Qed.

(** What lies strictly between the boundaries of a number rounds to it. *)
Lemma round_double_spec x v : (0 < x < infinity_bits)%Z -> lower x < v < upper x -> round_double v = x.
Proof.
  intros Hx Hv. destruct (diyfp_of_bits_spec x Hx) as (Hf & He & Ex & Hnorm & Hc).
  destruct (interval_bounds x v Hv) as [Hb Hcl]. clear Hv.
  set (f := diyfp_f (diyfp_of_bits x)) in *. set (e := diyfp_e (diyfp_of_bits x)) in *.
  pose proof (Qpower_2_pos e) as Hu. assert (E52 : Qpower 2 (52 + e) == (4503599627370496#1) * Qpower 2 e) by by rewrite Qpower_2_shift.
  assert (E53 : Qpower 2 (52 + e + 1) == (9007199254740992#1) * Qpower 2 e) by (rewrite Qpower_2_succ, E52; ring).
  assert (Hf1 : 1 <= inject_Z f) by (change 1 with (inject_Z 1); rewrite <- Zle_Qle; lia).
  assert (Hf2 : inject_Z f <= 9007199254740991#1) by (change (9007199254740991#1) with (inject_Z 9007199254740991); rewrite <- Zle_Qle; lia).
  set (u := Qpower 2 e) in *.
  assert (Hpos : 0 < v) by (assert (0 < (inject_Z f - (1 # 2)) * u) by (apply Qmult_lt_0_compat; lra); lra).
  assert (Htop : v < Qpower 2 (52 + e + 1)).
  { rewrite E53. assert ((inject_Z f + (1 # 2)) * u <= (9007199254740992#1) * u) by (apply Qmult_le_r; lra). lra. }
  pose proof (ilog2_below v _ Hpos Htop) as Hl. destruct (Qlt_le_dec v (Qpower 2 (52 + e))) as [Hlow|Hhigh].
  - destruct (Z.eq_dec e (-1074)) as [Hmin|Hmin].
    { pose proof (ilog2_below v _ Hpos Hlow). apply (round_double_at v e f); [done|lia|done|lia|done]. }
    assert (Hf52 : f = (2 ^ 52)%Z).
    { assert (f < 2 ^ 52 + 1)%Z; [|lia]. rewrite Zlt_Qlt. change (inject_Z (2 ^ 52 + 1)) with (4503599627370497#1).
      apply (Qmult_lt_r _ _ u Hu). lra. }
    assert (Hcl' : lower_closer x = true) by (apply Hc; lia). specialize (Hcl Hcl').
    assert (Eu : u == 2 * Qpower 2 (e - 1)) by (rewrite <- Qpower_2_succ; unfold u; by replace (e - 1 + 1)%Z with e by lia).
    assert (E51 : Qpower 2 (51 + e) == (2251799813685248#1) * u) by (unfold u; by rewrite Qpower_2_shift).
    rewrite Hf52 in Hcl. change (inject_Z (2 ^ 52)) with (4503599627370496#1) in Hcl.
    assert (Hlog : ilog2 v = (51 + e)%Z).
    { apply ilog2_unique; [done|]. replace (51 + e + 1)%Z with (52 + e)%Z by lia. rewrite E51. split; [lra|done]. }
    apply (round_double_at v (e - 1) (2 ^ 53)); [done|lia|lia|lia|].
    change (inject_Z (2 ^ 53)) with (9007199254740992#1). rewrite E52 in Hlow. split; lra.
  - assert (Hlog : ilog2 v = (52 + e)%Z) by by apply ilog2_unique.
    apply (round_double_at v e f); [done|lia|done|lia|done].
Qed.

(** ** Reading the text *)

Definition exponent_value (n : number) : Z :=
  match exponent n with
  | Some (_, s, d) => if bool_decide (s = lit "-") then (- decimal_value d)%Z else decimal_value d
  | None => 0
  end.

Definition fraction_digits (n : number) : str := match fraction n with Some f => f | None => [] end.

(** The magnitude of a number of the grammar. *)
Definition magnitude (n : number) : Q :=
  inject_Z (decimal_value (int_digits n ++ fraction_digits n)) * Qpower 10 (exponent_value n - str_size (fraction_digits n)).

Lemma span_digits_app s p : forallb is_digit s = true -> is_digit (deref p) = false -> span_digits (s ++ p) = (s, p).
Proof.
  intros Hs Hp. unfold span_digits. apply scan_app; [|right; by rewrite Hp].
  apply (forallb_none is_digit); [|done]. intros c Hc. by rewrite Hc.
Qed.

Lemma digit_ne c d : is_digit c = true -> is_digit d = false -> c <> d.
Proof. by intros Hc Hd ->; rewrite Hc in Hd. Qed.

(** The exponent part of a number reads as its value. *)
Lemma read_exponent_text n : number_ok n ->
  let p := match exponent n with Some (e, s, d) => e :: s ++ d | None => [] end in
  read_exponent p = exponent_value n /\ is_digit (deref p) = false /\ eat "." p = None.
Proof.
  intros (_ & _ & _ & Hexp) p. subst p. unfold exponent_value. destruct (exponent n) as [[[e s] d]|]; [|done].
  destruct (Hexp e s d eq_refl) as (He & Hs & Hne & Hd).
  assert (Hspan : span_digits d = (d, [])) by (rewrite <- (app_nil_r d) at 1; by apply span_digits_app).
  assert (Hdig : forall c, is_digit c = false -> eat c d = None).
  { intros c Hc. destruct d as [|x d]; [done|]. simpl in Hd. apply andb_prop in Hd as [Hx _]. apply eat_ne. by apply digit_ne. }
  split; [|destruct He as [->| ->]; done]. unfold read_exponent.
  replace (Ascii.eqb e "e" || Ascii.eqb e "E") with true by (destruct He as [->| ->]; done).
  destruct Hs as [->|[->| ->]]; simpl.
  - rewrite !Hdig by done. simpl. by rewrite Hspan.
  - by rewrite Hspan.
  - by rewrite Hspan.
Qed.

Lemma read_decimal_number n : number_ok n -> read_decimal (number_text "." n) = (negative n, magnitude n).
Proof.
  intros Hok. destruct (read_exponent_text n Hok) as (Hexp & Hdig & Hdot). pose proof Hok as ([Hne Hd] & _ & Hfr & _).
  unfold read_decimal, number_text, magnitude, fraction_digits. set (p := match exponent n with Some _ => _ | None => _ end) in *. clearbody p.
  assert (Hsign : forall q, match eat "-" ((if negative n then lit "-" else []) ++ int_digits n ++ q) with
      Some s' => (true, s') | None => (false, (if negative n then lit "-" else []) ++ int_digits n ++ q) end = (negative n, int_digits n ++ q)).
  { intros q. destruct (negative n); [done|]. cbn [app]. destruct (int_digits n) as [|x d]; [done|].
    simpl in Hd. apply andb_prop in Hd as [Hx _]. rewrite eat_ne; [done|]. by apply digit_ne. }
  rewrite Hsign. destruct (fraction n) as [f|] eqn:Ef.
  - destruct (Hfr f eq_refl) as [_ Hf]. rewrite span_digits_app by done. cbn [app]. rewrite eat_cons, span_digits_app by done.
    by rewrite Hexp.
  - cbn [app]. rewrite span_digits_app by done. by rewrite Hdot, Hexp.
Qed.

Lemma strtod_number n x : number_ok n -> (0 < x < infinity_bits)%Z -> lower x < magnitude n < upper x ->
  strtod_double (number_text "." n) = ((if negative n then sign_bit else 0) + x)%Z.
Proof.
  intros Hok Hx Hm. unfold strtod_double. rewrite read_decimal_number by done. by rewrite (round_double_spec x).
Qed.

(** ** Writing the text *)

Lemma decimal_value_zeros n s : decimal_value (replicate n "0"%char ++ s) = decimal_value s.
Proof. induction n as [|n IH]; [done|]. rewrite <- IH. done. Qed.

Lemma zeros_digits n : forallb is_digit (replicate n "0"%char) = true.
Proof. by induction n. Qed.

Lemma str_size_replicate n (c : ascii) : str_size (replicate n c) = Z.of_nat n.
Proof. unfold str_size. by rewrite length_replicate. Qed.

Ltac divlia := Z.to_euclidean_division_equations; lia.

Lemma append_exponent_spec e : (-1000 < e < 1000)%Z ->
  exists d, append_exponent e = Ret ((if (e <? 0)%Z then "-"%char else "+"%char) :: d) /\ digits d /\
    decimal_value d = Z.abs e /\ (str_size d <= 3)%Z.
Proof.
  intros He. unfold append_exponent. rewrite !(proj2 (Z.ltb_lt _ _)) by lia. cbn [cassert obind].
  set (k := Z.abs e). assert (Hk : (0 <= k < 1000)%Z) by lia. clearbody k.
  assert (Hdig : forall x, (0 <= x < 10)%Z -> is_digit (char_of_Z (48 + x)) = true /\ uchar (char_of_Z (48 + x)) = (48 + x)%Z)
    by (intros x; apply digit_char_spec).
  eexists. split; [done|]. unfold digits. destruct (Z.ltb_spec k 10); [|destruct (Z.ltb_spec k 100)].
  - destruct (Hdig k) as [D U]; [lia|]. split_and!; [done|simpl; by rewrite D| |done].
    unfold decimal_value. cbn [fold_left]. rewrite U. change (uchar (char_of_Z 48)) with 48%Z. lia.
  - destruct (Hdig (k / 10)%Z) as [D1 U1]; [divlia|]. destruct (Hdig (k mod 10)%Z) as [D2 U2]; [divlia|].
    split_and!; [done|simpl; by rewrite D1, D2| |done]. unfold decimal_value. cbn [fold_left]. rewrite U1, U2. divlia.
  - destruct (Hdig (k / 100)%Z) as [D1 U1]; [divlia|]. destruct (Hdig (k mod 100 / 10)%Z) as [D2 U2]; [divlia|].
    destruct (Hdig (k mod 100 mod 10)%Z) as [D3 U3]; [divlia|].
    split_and!; [done|simpl; by rewrite D1, D2, D3| |done]. unfold decimal_value. cbn [fold_left]. rewrite U1, U2, U3. divlia.
Qed.

(** A number of the grammar whose digits are those of [b]. *)
Lemma magnitude_shift n b k (j : Z) :
  decimal_value (int_digits n ++ fraction_digits n) = (decimal_value b * 10 ^ j)%Z -> (0 <= j)%Z ->
  (exponent_value n - str_size (fraction_digits n) + j = k)%Z ->
  magnitude n == inject_Z (decimal_value b) * Qpower 10 k.
Proof.
  intros Hd Hj Hk. unfold magnitude. rewrite Hd, inject_Z_mult, Zpower_Qpower by done. change (inject_Z 10) with 10.
  rewrite <- Qmult_assoc, <- Qpower_plus by done.
  by replace (j + (exponent_value n - str_size (fraction_digits n)))%Z with k by lia.
Qed.

(** The text of a number with the digits [b] and the exponent [k]. *)
Definition written (b : str) (k : Z) (text : str) : Prop :=
  exists n, text = number_text "." n /\ number_ok n /\ negative n = false /\ (fraction n <> None \/ exponent n <> None) /\
    magnitude n == inject_Z (decimal_value b) * Qpower 10 k /\ (str_size text <= 23)%Z.

Section text.
Variables (b : str) (k : Z).
Hypotheses (Hb : good_digits b) (Hsize : (str_size b <= 17)%Z).

Lemma good_digits_ok : digits b /\ exists c s, b = c :: s /\ c <> "0"%char.
Proof. destruct Hb as [Hd (c & s & -> & Hc)]. split; [by split|by exists c, s]. Qed.

Lemma written_whole : (0 <= k)%Z -> (str_size b + k <= 15)%Z ->
  written b k (b ++ replicate (Z.to_nat k) "0"%char ++ lit ".0").
Proof.
  intros Hk Hn. destruct good_digits_ok as [[Hne Hd] (c & s & E & Hc)].
  exists (mk_number false (b ++ replicate (Z.to_nat k) "0"%char) (Some (lit "0")) None). split_and!; try done.
  - unfold number_text. cbn [negative int_digits fraction exponent]. by rewrite app_nil_r, <- app_assoc.
  - split_and!; cbn [int_digits fraction exponent].
    + split; [rewrite E; done|]. by rewrite forallb_app, Hd, zeros_digits.
    + right. rewrite E. by eexists _, _.
    + intros f [= <-]. done.
    + done.
  - by left.
  - apply (magnitude_shift _ _ _ (k + 1)); unfold fraction_digits, exponent_value; cbn [int_digits fraction exponent]; [|lia|change (str_size (lit "0")) with 1%Z; lia].
    rewrite <- app_assoc, decimal_value_app, decimal_value_zeros, str_size_app, str_size_replicate, Z2Nat.id by done.
    change (decimal_value (lit "0")) with 0%Z. change (str_size (lit "0")) with 1%Z. lia.
  - rewrite !str_size_app, str_size_replicate. change (str_size (lit ".0")) with 2%Z. lia.
Qed.

Lemma written_point n : (0 < n)%Z -> (n < str_size b)%Z -> (n - str_size b = k)%Z ->
  written b k (take (Z.to_nat n) b ++ lit "." ++ drop (Z.to_nat n) b).
Proof.
  intros Hn Hlt Hk. destruct good_digits_ok as [[Hne Hd] (c & s & E & Hc)]. unfold str_size in *.
  pose proof (take_drop (Z.to_nat n) b) as Htd. rewrite <- Htd, forallb_app in Hd. apply andb_prop in Hd as [Hd1 Hd2].
  exists (mk_number false (take (Z.to_nat n) b) (Some (drop (Z.to_nat n) b)) None). split_and!; try done.
  - unfold number_text. cbn [negative int_digits fraction exponent]. by rewrite app_nil_r.
  - assert (Ht : exists s', take (Z.to_nat n) b = c :: s').
    { rewrite E. destruct (Z.to_nat n) eqn:En; [lia|]. by eexists. }
    destruct Ht as [s' Ht]. split_and!; cbn [int_digits fraction exponent]; [split; [by rewrite Ht|done]|right; by exists c, s'| |done].
    intros f [= <-]. split; [|done]. intros Hnil. assert (Hl : length (drop (Z.to_nat n) b) = 0%nat) by by rewrite Hnil.
    rewrite length_drop in Hl. lia.
  - by left.
  - apply (magnitude_shift _ _ _ 0); unfold fraction_digits, exponent_value; cbn [int_digits fraction exponent]; [|done|].
    + rewrite Htd. lia.
    + unfold str_size. rewrite length_drop. lia.
  - unfold str_size. rewrite !length_app, length_take, length_drop. simpl. lia.
Qed.

Lemma written_small n : (-4 < n <= 0)%Z -> (n - str_size b = k)%Z ->
  written b k (lit "0." ++ replicate (Z.to_nat (- n)) "0"%char ++ b).
Proof.
  intros Hn Hk. destruct good_digits_ok as [[Hne Hd] (c & s & E & Hc)].
  exists (mk_number false (lit "0") (Some (replicate (Z.to_nat (- n)) "0"%char ++ b)) None). split_and!; try done.
  - unfold number_text. cbn [negative int_digits fraction exponent]. by rewrite app_nil_r.
  - split_and!; cbn [int_digits fraction exponent]; [done|by left| |done].
    intros f [= <-]. split; [|by rewrite forallb_app, zeros_digits]. intros [_ ?]%app_eq_nil. done.
  - by left.
  - apply (magnitude_shift _ _ _ 0); unfold fraction_digits, exponent_value; cbn [int_digits fraction exponent]; [|done|].
    + change (lit "0" ++ replicate (Z.to_nat (- n)) "0"%char ++ b) with (replicate (S (Z.to_nat (- n))) "0"%char ++ b).
      rewrite decimal_value_zeros. lia.
    + rewrite str_size_app, str_size_replicate. lia.
  - rewrite !str_size_app, str_size_replicate. change (str_size (lit "0.")) with 2%Z. lia.
Qed.

Lemma written_exponent text : (-1000 < str_size b + k - 1 < 1000)%Z -> append_exponent (str_size b + k - 1) = Ret text ->
  written b k ((if (str_size b =? 1)%Z then b else take 1 b ++ lit "." ++ drop 1 b) ++ lit "e" ++ text).
Proof.
  intros Hn Ht. destruct good_digits_ok as [[_ Hb1] (c & s & E & Hc)]. rewrite E in Hsize, Hb1, Hn, Ht |- *. rewrite !str_size_cons in *.
  destruct (append_exponent_spec _ Hn) as (d & Hd & Hdig & Hval & Hlen). rewrite Hd in Ht. injection Ht as <-.
  set (neg := (1 + str_size s + k - 1 <? 0)%Z) in *. set (sg := if neg then lit "-" else lit "+").
  simpl in Hb1. apply andb_prop in Hb1 as [Hc1 Hs1].
  exists (mk_number false [c] (match s with [] => None | _ => Some s end) (Some ("e"%char, sg, d))).
  assert (Hev : (exponent_value (mk_number false [c] (match s with [] => None | _ => Some s end) (Some ("e"%char, sg, d))) =
    str_size s + k)%Z).
  { unfold exponent_value. cbn [exponent]. unfold sg, neg in *. rewrite Hval. destruct (Z.ltb_spec (1 + str_size s + k - 1) 0); simpl; lia. }
  split_and!.
  - unfold number_text, sg. cbn [negative int_digits fraction exponent]. destruct s as [|y s]; [by destruct neg|].
    rewrite (proj2 (Z.eqb_neq _ _)) by (rewrite str_size_cons; pose proof (str_size_nonneg s); lia). simpl. by destruct neg.
  - split_and!; cbn [int_digits fraction exponent]; [split; [done|simpl; by rewrite Hc1]|right; by exists c, []|..].
    + intros f Hf. destruct s as [|y s]; [done|]. injection Hf as <-. by split.
    + intros e' s' d' [= <- <- <-]. split; [by left|]. split; [|done]. right. unfold sg. destruct neg; [by right|by left].
  - done.
  - by right.
  - apply (magnitude_shift _ _ _ 0); [|done|].
    + unfold fraction_digits. cbn [int_digits fraction]. destruct s; simpl; lia.
    + rewrite Hev. unfold fraction_digits. cbn [fraction]. destruct s as [|y s]; rewrite ?str_size_nil; lia.
  - assert (Hsz : (str_size (if (1 + str_size s =? 1)%Z then c :: s else take 1 (c :: s) ++ lit "." ++ drop 1 (c :: s)) <=
      str_size s + 2)%Z) by (destruct (Z.eqb_spec (1 + str_size s) 1); simpl; rewrite ?take_0, ?drop_0; simpl; rewrite !str_size_cons; lia).
    rewrite str_size_app, str_size_app, str_size_cons. change (str_size (lit "e")) with 1%Z. lia.
Qed.
End text.

Lemma format_buffer_spec b k : good_digits b -> (str_size b <= 17)%Z -> (-350 <= k <= 350)%Z ->
  exists text, format_buffer b k (-4) 15 = Ret text /\ written b k text.
Proof.
  intros Hb Hs Hk. pose proof (str_size_nonneg b). unfold format_buffer. cbn [Z.ltb Z.compare cassert obind]. set (n := (str_size b + k)%Z).
  destruct ((str_size b <=? n) && (n <=? 15))%Z eqn:H1; [|destruct ((0 <? n) && (n <=? 15))%Z eqn:H2;
    [|destruct ((-4 <? n) && (n <=? 0))%Z eqn:H3]].
  - unbool. replace (n - str_size b)%Z with k by (unfold n; lia). eexists. split; [done|]. apply written_whole; unfold n in *; done || lia.
  - apply andb_false_iff in H1. unbool. assert (n < str_size b)%Z by (destruct H1 as [?%Z.leb_gt|?%Z.leb_gt]; lia).
    rewrite (proj2 (Z.ltb_lt n (str_size b))) by done. eexists. split; [done|]. apply written_point; unfold n in *; done || lia.
  - unbool. eexists. split; [done|]. apply written_small; unfold n in *; done || lia.
  - destruct (append_exponent_spec (n - 1)) as (d & Hd & _); [unfold n; lia|]. rewrite Hd. eexists. split; [done|].
    apply written_exponent; [done|done|unfold n in *; lia|done].
Qed.

Local Open Scope Z_scope.

(** The sign and the magnitude of a finite number. *)
Lemma finite_bits_spec x : finite_bits x = true ->
  exists s y, x = (if s : bool then sign_bit else 0) + y /\ 0 <= y < infinity_bits /\ Z.testbit x 63 = s.
Proof.
  unfold finite_bits. intros H. unbool. rewrite Z.shiftr_div_pow2, (Z.land_ones _ 11) in * by done.
  assert (Hb : Z.testbit x 63 = (2 ^ 63 <=? x)).
  { rewrite Z.testbit_odd, Z.shiftr_div_pow2 by done. destruct (Z.leb_spec (2 ^ 63) x).
    - replace (x / 2 ^ 63) with 1; [done|]. apply (Z.div_unique _ _ _ (x - 2 ^ 63)); lia.
    - by rewrite Z.div_small by lia. }
  exists (2 ^ 63 <=? x). unfold sign_bit, infinity_bits. destruct (Z.leb_spec (2 ^ 63) x).
  - exists (x - 2 ^ 63). split_and!; try lia; [divlia|done].
  - exists x. split_and!; try lia; [divlia|done].
Qed.

(** The text of a finite number: a number of the grammar with a point or an
    exponent, which [strtod] reads. *)
Lemma to_chars_spec x : finite_bits x = true ->
  exists n, to_chars 64 x = Ret (number_text "." n) /\ number_ok n /\ (fraction n <> None \/ exponent n <> None) /\
    str_size (number_text "." n) <= 24 /\ strtod_double (number_text "." n) = x.
Proof.
  intros Hx. destruct (finite_bits_spec x Hx) as (s & y & Ex & Hy & Hs). unfold to_chars. rewrite Hx, Hs. cbn [cassert obind].
  replace (if s then (lit "-", x - sign_bit, 64 - 1) else ([], x, 64)) with ((if s then lit "-" else []) : str, y, if s then 63 else 64)
    by (destruct s; do 2 f_equal; lia).
  destruct (Z.eqb_spec y 0) as [->|Hne].
  { exists (mk_number s (lit "0") (Some (lit "0")) None). split; [by destruct s|]. split; [split_and!; try done; [by left|]|].
    { by intros f [= <-]. }
    split; [by left|]. split; [by destruct s|]. subst x. destruct s; vm_compute; reflexivity. }
  rewrite !(proj2 (Z.leb_le _ (if s then 63 else 64))) by (destruct s; lia). cbn [cassert obind].
  destruct (grisu2_spec y) as (b & k & -> & Hb & Hsz & Hk & Hin); [lia|]. cbn [obind]. rewrite (proj2 (Z.leb_le _ _)) by done. cbn [cassert obind].
  destruct (format_buffer_spec b k Hb Hsz Hk) as (text & -> & n & -> & Hok & Hneg & Hfloat & Hmag & Hlen). cbn [obind].
  set (n' := mk_number s (int_digits n) (fraction n) (exponent n)).
  assert (Htext : (if s then lit "-" else []) ++ number_text "." n = number_text "." n').
  { unfold number_text, n'. rewrite Hneg. done. }
  exists n'. rewrite Htext. split; [done|]. split; [done|]. split; [done|]. split.
  - rewrite <- Htext, str_size_app. destruct s; [change (str_size (lit "-")) with 1|change (str_size []) with 0]; lia.
  - rewrite (strtod_number n' y); [by rewrite Ex|done|lia|]. change (magnitude n') with (magnitude n). by rewrite Hmag.
Qed.

(** C8. Every finite [double] is written and read back exactly.  The serialiser's
    conversion (Grisu2 with its table of powers and its formatting) fails no
    assertion and does not overrun its buffer: the text has at most 24 of its 64
    characters, is a number of the JSON grammar with a decimal point or an exponent,
    so it is not read as an integer, and the correctly rounding [strtod] gives the same 64
    bits, the sign of zero included.  A number that is not finite is written as
    null. *)
Theorem dump_float_roundtrip x :
  if finite_bits x then
    exists n, dump_float x = Ret (number_text "." n) /\ number_ok n /\ (fraction n <> None \/ exponent n <> None) /\
      str_size (number_text "." n) <= 24 /\ strtod_double (number_text "." n) = x
  else dump_float x = Ret (lit "null").
Proof. unfold dump_float. destruct (finite_bits x) eqn:E; [by apply to_chars_spec|done]. Qed.
