(* ===== verification/JsonRoundtrip.v ===== *)
(** * Texts and values of JSON: there and back

    The texts the serialiser writes are in the grammar, so the parser reads the
    value back, with its non-negative integers unsigned and null for the numbers
    that are not finite; and the values the parser returns are those the
    serialiser accepts. *)
From stdpp Require Import prelude strings list.
From Stdlib Require Import Ascii ZArith Lia.
From S2P Require Import Prelude CxxLib CxxMap Json JsonFacts JsonDump JsonLexer JsonParser JsonGrammar JsonWp JsonStrings JsonNumbers JsonLexerFacts JsonDom JsonParserFacts JsonParse JsonFloat JsonFloatFacts.

Local Open Scope Z_scope.

(** ** Strings *)

Lemma u_escape_hex c : uchar c <= 31 ->
  exists h, u_escape (uchar c) = backslash :: "u"%char :: h /\ hex4 h (uchar c).
Proof.
  byte_cases c; intros Hc; try (exfalso; vm_compute in Hc; by apply Hc);
    (eexists; split; [reflexivity|]); eexists _, _, _, _, _, _, _, _; (split; [reflexivity|]);
    (split_and!; reflexivity).
Qed.

(** A byte below 128 is written as a character of the grammar. *)
Lemma escape_byte_char c : uchar c < 128 -> string_char (escape_byte c) [c].
Proof.
  intros Hc. unfold escape_byte, escape_codepoint. pose proof (uchar_range c).
  do 7 (match goal with |- string_char (if ?x =? ?y then _ else _) _ => destruct (Z.eqb_spec x y) as [E|?] end;
    [apply char_code in E as ->; by apply char_short|]).
  destruct (Z.leb_spec (uchar c) 31).
  - destruct (u_escape_hex c) as (h & -> & Hh); [done|].
    replace [c] with (utf8_encode (uchar c)).
    + apply char_unicode; [done|unfold high_surrogate; lia|unfold low_surrogate; lia].
    + unfold utf8_encode. rewrite (proj2 (Z.ltb_lt _ _)) by done. by rewrite char_of_Z_uchar.
  - apply char_plain; [apply utf8_1; unfold in_range; lia|lia|by intros ->|by intros ->].
Qed.

(** Bytes from 128 on are written as they are. *)
Lemma escape_high_bytes s : Forall (fun c => 128 <= uchar c) s -> s ≫= escape_byte = s.
Proof.
  induction 1 as [|c s Hc _ IH]; [done|]. change ((c :: s) ≫= escape_byte) with (escape_byte c ++ (s ≫= escape_byte)).
  rewrite IH. unfold escape_byte. by rewrite escape_high.
Qed.

Lemma escaped_char s : utf8_char s -> string_char (s ≫= escape_byte) s.
Proof.
  intros Hs. destruct (decide (Forall (fun c => 128 <= uchar c) s)) as [Hhigh|Hlow].
  - rewrite escape_high_bytes by done. destruct s as [|c s]; [inversion Hs|]. inversion Hhigh as [|? ? Hc _]; subst.
    apply char_plain; [done|lia|..]; intros ->; vm_compute in Hc; congruence.
  - assert (exists c, s = [c] /\ uchar c < 128) as (c & -> & Hc).
    { destruct Hs as [a Ha|a b ? ?|a b c ? ? ?|a b c ? ? ?|a b c ? ? ?|a b c d ? ? ? ?|a b c d ? ? ? ?|a b c d ? ? ? ?];
        [exists a; split; [done|]; unfold in_range in Ha; lia|..]; exfalso; apply Hlow; unfold in_range in *;
        repeat constructor; lia. }
    change ([c] ≫= escape_byte) with (escape_byte c ++ []). rewrite app_nil_r. by apply escape_byte_char.
Qed.

Lemma escaped_body s : utf8 s -> string_body (s ≫= escape_byte) s.
Proof.
  intros (cs & Hcs & <-). induction Hcs as [|c cs Hc _ IH]; simpl; [constructor|].
  rewrite bind_app. apply body_cons; [by apply escaped_char|done].
Qed.

(** ** Integers *)

Lemma decimal_digits_head fuel v : 1 <= v < 10 ^ Z.of_nat fuel ->
  exists c s, decimal_digits fuel v = c :: s /\ c <> "0"%char.
Proof.
  revert v. induction fuel as [|fuel IH]; intros v Hv; [simpl in Hv; lia|]. simpl.
  destruct (Z.ltb_spec v 10).
  - eexists _, _. split; [done|]. rewrite Z.mod_small by lia. intros E.
    assert (uchar (digit_char v) = uchar "0") as Eu by by rewrite E. rewrite (proj2 (digit_char_spec v ltac:(lia))) in Eu.
    change (uchar "0") with 48 in Eu. lia.
  - destruct (IH (v / 10)) as (c & s & -> & Hc).
    + split; [apply Z.div_le_lower_bound; lia|]. apply Z.div_lt_upper_bound; [lia|].
      rewrite Nat2Z.inj_succ, Z.pow_succ_r in Hv by lia. lia.
    + by exists c, (s ++ [digit_char (v mod 10)]).
Qed.

Definition integer_number (x : Z) : number := mk_number (x <? 0) (decimal_digits 20 (Z.abs x)) None None.

(** The text of a 64-bit integer is the number it names. *)
Lemma integer_number_ok x : - 2 ^ 63 <= x < 2 ^ 64 ->
  number_ok (integer_number x) /\ print_integer x = number_text "." (integer_number x) /\
  decimal_value (int_digits (integer_number x)) = Z.abs x.
Proof.
  intros Hx. pose proof (dump_integer_spec x Hx) as (ds & Hd & Hdig & Hne & Hval).
  rewrite (dump_integer_print x Hx) in Hd. injection Hd as Hd. unfold print_integer in Hd.
  apply app_inv_head in Hd. unfold integer_number. rewrite Hd. split; [|split; [|done]].
  - split; [done|]. split; [|done]. cbn [int_digits]. destruct (decide (x = 0)) as [->|Hnz]; [left; by rewrite <- Hd|right].
    rewrite <- Hd. apply decimal_digits_head. split; [lia|]. apply Z.lt_le_trans with (2 ^ 64); [lia|]. vm_compute. discriminate.
  - unfold print_integer, number_text. cbn [negative int_digits fraction exponent]. by rewrite Hd, !app_nil_r.
Qed.

(** ** Values *)

Section values.
Context {F : Type} `{CFloat F} (dump_float : F -> str).

(** A number whose text, read by [strtod], is the number again; the text has a
    point or an exponent, or is too large for an integer. *)
Definition float_reads (f : F) : Prop :=
  exists n, number_ok n /\ dump_float f = number_text "." n /\ number_token n = tk_float f.

(** The finite numbers are read back and the others are written as null. *)
Hypothesis finite_reads : forall f, isfinite f = true -> float_reads f.
Hypothesis other_null : forall f, isfinite f = false -> dump_float f = lit "null".

(** No part is discarded. *)
Fixpoint undiscarded (v : json F) : bool :=
  match v with
  | Object m => forallb (fun x => undiscarded x.2) m
  | Array a => forallb undiscarded a
  | Discarded => false
  | _ => true
  end.

(** What the parser reads for a value: integers without a sign are unsigned, and
    for a number that is not finite null was written. *)
Fixpoint normalise (v : json F) : json F :=
  match v with
  | Object m => Object (map (fun x => (x.1, normalise x.2)) m)
  | Array a => Array (map normalise a)
  | NumberInteger i => if i <? 0 then NumberInteger i else NumberUnsigned i
  | NumberFloat f => if isfinite f then NumberFloat f else Null
  | _ => v
  end.

(** All floating-point numbers are finite. *)
Fixpoint floats_finite (v : json F) : bool :=
  match v with
  | Object m => forallb (fun x => floats_finite x.2) m
  | Array a => forallb floats_finite a
  | NumberFloat f => isfinite f
  | _ => true
  end.

(** What may follow a value: nothing that continues a number. *)
Definition follows (q : str) : Prop :=
  match q with [] => True | c :: _ => c = ","%char \/ c = "]"%char \/ c = "}"%char end.

Lemma follows_number n q : follows q -> number_ends n q.
Proof.
  destruct q as [|c q]; [done|]. intros Hc. unfold number_ends.
  destruct Hc as [->|[->| ->]], (exponent n), (fraction n); split_and?; by try left.
Qed.

(** The text [s] is the tokens of the value [v], whatever follows. *)
Definition text_of (s : str) (v : json F) : Prop :=
  forall q, follows q -> exists ts, lexes_all (s ++ q) ts q /\ value v ts.

Lemma lexes_all_app p ts q us r : lexes_all (F := F) p ts q -> lexes_all q us r -> lexes_all p (ts ++ us) r.
Proof. induction 1 as [p|p t p' ts q Ht _ IH]; intros Hr; simpl; [done|]. econstructor; eauto. Qed.

Lemma lexes_one s (t : token F) q : lexes (s ++ q) t q -> lexes_all (s ++ q) [t] q.
Proof. intros Ht. econstructor; [done|constructor]. Qed.

Lemma text_of_lexeme s t v : lexeme s t -> value v [t] -> text_of s v.
Proof. intros Hs Hv q _. exists [t]. split; [|done]. apply lexes_one. by apply lexes_lexeme. Qed.

Lemma text_of_number n v : number_ok n -> value v [number_token n] -> text_of (number_text "." n) v.
Proof. intros Hn Hv q Hq. exists [number_token n]. split; [|done]. apply lexes_one, lexes_number; [done|by apply follows_number]. Qed.

Lemma text_of_integer x (v : json F) : - 2 ^ 63 <= x < 2 ^ 64 ->
  value v [if x <? 0 then tk_integer x else tk_unsigned x] -> text_of (print_integer x) v.
Proof.
  intros Hx Hv. destruct (integer_number_ok x Hx) as (Hok & -> & Hval). apply text_of_number; [done|].
  unfold number_token. rewrite Hval. cbn [fraction exponent negative integer_number]. destruct (Z.ltb_spec x 0).
  - rewrite (proj2 (Z.leb_le (Z.abs x) (2 ^ 63))) by lia. by replace (- Z.abs x) with x by lia.
  - rewrite (proj2 (Z.ltb_lt (Z.abs x) (2 ^ 64))) by lia. by rewrite Z.abs_eq.
Qed.

(** *** Containers *)

Lemma lexes_char (c : ascii) (t : token F) q : lexeme [c] t -> lexes_all (c :: q) [t] q.
Proof. intros Hc. apply (lexes_one [c]). by apply (lexes_lexeme [c]). Qed.

Lemma elements_text (l : list (str * json F)) q :
  l <> [] -> Forall (fun x => text_of x.1 x.2) l -> follows q ->
  exists ts, lexes_all (comma_join (map fst l) ++ q) ts q /\ elements (map snd l) ts.
Proof.
  intros Hne Hl Hq. induction Hl as [|[s v] l Hs Hl IH]; [done|]. simpl in Hs. destruct l as [|x l].
  - destruct (Hs q Hq) as (ts & Hts & Hv). exists ts. split; [done|by constructor].
  - destruct IH as (us & Hus & He); [done|]. set (r := comma_join (map fst (x :: l)) ++ q) in *.
    destruct (Hs (lit "," ++ r)) as (ts & Hts & Hv); [by left|]. exists (ts ++ tk_comma :: us). split.
    + change (comma_join (map fst ((s, v) :: x :: l))) with (s ++ lit "," ++ comma_join (map fst (x :: l))).
      rewrite <- !app_assoc. eapply lexes_all_app; [exact Hts|]. apply (lexes_all_app _ [tk_comma] r); [|done].
      apply lexes_char. constructor.
    + by apply elements_more.
Qed.

Lemma key_text k s (v : json F) q : utf8 k -> text_of s v -> follows q ->
  exists ts, lexes_all (print_string k ++ lit ":" ++ s ++ q) (tk_string k :: tk_colon :: ts) q /\ value v ts.
Proof.
  intros Hk Hs Hq. destruct (Hs q Hq) as (ts & Hts & Hv). exists ts. split; [|done].
  apply (lexes_all_app _ [tk_string k] (lit ":" ++ s ++ q)).
  - apply lexes_one, lexes_lexeme. constructor. by apply escaped_body.
  - apply (lexes_all_app _ [tk_colon] (s ++ q)); [apply lexes_char; constructor|done].
Qed.

Lemma members_text (l : list (str * str * json F)) q :
  l <> [] -> Forall (fun x => utf8 x.1.1 /\ text_of x.1.2 x.2) l -> follows q ->
  exists ts, lexes_all (comma_join (map (fun x => print_string x.1.1 ++ lit ":" ++ x.1.2) l) ++ q) ts q /\
    members (map (fun x => (x.1.1, x.2)) l) ts.
Proof.
  intros Hne Hl Hq. induction Hl as [|[[k s] v] l [Hk Hs] Hl IH]; [done|]. simpl in Hk, Hs. destruct l as [|x l].
  - destruct (key_text k s v q Hk Hs Hq) as (ts & Hts & Hv). eexists. split; [|by constructor].
    cbn [map comma_join fst snd]. rewrite <- (app_assoc (print_string k)), <- (app_assoc (lit ":")). exact Hts.
  - destruct IH as (us & Hus & He); [done|].
    set (text := fun x : str * str * json F => print_string x.1.1 ++ lit ":" ++ x.1.2) in *.
    set (r := comma_join (map text (x :: l)) ++ q) in *.
    destruct (key_text k s v (lit "," ++ r) Hk Hs) as (ts & Hts & Hv); [by left|].
    exists (tk_string k :: tk_colon :: ts ++ tk_comma :: us). split; [|by apply members_more].
    change (comma_join (map text ((k, s, v) :: x :: l))) with (text (k, s, v) ++ lit "," ++ comma_join (map text (x :: l))).
    unfold text at 1. cbn [fst snd]. rewrite <- (app_assoc (print_string k ++ _)), <- (app_assoc (print_string k)), <- (app_assoc (lit ":")), <- (app_assoc (lit ",")).
    apply (lexes_all_app _ (tk_string k :: tk_colon :: ts) (lit "," ++ r)); [exact Hts|].
    apply (lexes_all_app _ [tk_comma] r); [|done]. apply lexes_char. constructor.
Qed.

(** A map built from members in order is those members. *)
Lemma map_set_last {V} k (v : V) m : Forall (fun x => key_lt x (k, v)) m -> map_set k v m = m ++ [(k, v)].
Proof.
  induction 1 as [|[k' v'] m Hk _ IH]; simpl; [done|]. unfold key_lt in Hk. simpl in Hk.
  destruct (str_ltb k k') eqn:E; [pose proof (str_ltb_trans _ _ _ E Hk) as E2; by rewrite str_ltb_irrefl in E2|].
  by rewrite Hk, IH.
Qed.

Lemma foldl_map_set_ordered {V} (m0 m : list (str * V)) :
  ordered (m0 ++ m) -> foldl (fun m x => map_set x.1 x.2 m) m0 m = m0 ++ m.
Proof.
  revert m0. induction m as [|[k v] m IH]; intros m0 Ho; simpl; [by rewrite app_nil_r|].
  rewrite map_set_last.
  - rewrite IH; [by rewrite <- app_assoc|]. by rewrite <- app_assoc.
  - unfold ordered in Ho. clear IH. induction m0 as [|y m0 IH]; [constructor|]. inversion Ho as [|? ? Ho' Hy]; subst.
    constructor; [|by apply IH]. rewrite Forall_forall in Hy. apply Hy. set_solver.
Qed.

Lemma ordered_map_values {V W} (f : V -> W) (m : list (str * V)) :
  ordered m -> ordered (map (fun x => (x.1, f x.2)) m).
Proof.
  unfold ordered. induction 1 as [|x m Hm IH Hx]; simpl; constructor; [done|].
  apply Forall_fmap. eapply Forall_impl; [exact Hx|]. done.
Qed.

(** ** The serialiser's text is read back *)

Lemma text_of_object (m : list (str * json F)) :
  ordered m -> Forall (fun x => utf8 x.1 /\ text_of (print dump_float x.2) (normalise x.2)) m ->
  text_of (print dump_float (Object m)) (normalise (Object m)).
Proof.
  intros Ho Hm q Hq. destruct m as [|x m].
  { exists [tk_open_object; tk_close_object]. split; [|constructor].
    apply (lexes_all_app _ [tk_open_object] (lit "}" ++ q)); apply lexes_char; constructor. }
  set (l := map (fun x => (x.1, print dump_float x.2, normalise x.2)) (x :: m)).
  destruct (members_text l (lit "}" ++ q)) as (ts & Hts & Hms); [done| |by right; right|].
  { apply Forall_fmap. eapply Forall_impl; [exact Hm|]. done. }
  unfold l in Hts, Hms. rewrite map_map in Hts, Hms. cbn [fst snd] in Hts, Hms.
  exists (tk_open_object :: ts ++ [tk_close_object]). split.
  - cbn [print]. rewrite <- (app_assoc (lit "{")), <- (app_assoc (comma_join _)).
    apply (lexes_all_app _ [tk_open_object] (comma_join (map (fun x => print_string x.1 ++ lit ":" ++ print dump_float x.2) (x :: m)) ++ lit "}" ++ q));
      [apply lexes_char; constructor|].
    eapply lexes_all_app; [exact Hts|]. apply lexes_char. constructor.
  - pose proof (foldl_map_set_ordered [] (map (fun x => (x.1, normalise x.2)) (x :: m)) (ordered_map_values normalise _ Ho)) as E.
    cbn [normalise]. rewrite <- (app_nil_l (map _ _)), <- E. by constructor.
Qed.

Lemma text_of_array (a : list (json F)) :
  Forall (fun x => text_of (print dump_float x) (normalise x)) a ->
  text_of (print dump_float (Array a)) (normalise (Array a)).
Proof.
  intros Ha q Hq. destruct a as [|x a].
  { exists [tk_open_array; tk_close_array]. split; [|constructor].
    apply (lexes_all_app _ [tk_open_array] (lit "]" ++ q)); apply lexes_char; constructor. }
  set (l := map (fun x => (print dump_float x, normalise x)) (x :: a)).
  destruct (elements_text l (lit "]" ++ q)) as (ts & Hts & Hes); [done| |by right; left|].
  { apply Forall_fmap. eapply Forall_impl; [exact Ha|]. done. }
  unfold l in Hts, Hes. rewrite map_map in Hts, Hes. cbn [fst snd] in Hts, Hes.
  exists (tk_open_array :: ts ++ [tk_close_array]). split; [|by constructor].
  cbn [print]. rewrite <- (app_assoc (lit "[")), <- (app_assoc (comma_join _)).
  apply (lexes_all_app _ [tk_open_array] (comma_join (map (print dump_float) (x :: a)) ++ lit "]" ++ q));
    [apply lexes_char; constructor|].
  eapply lexes_all_app; [exact Hts|]. apply lexes_char. constructor.
Qed.

Lemma print_text v :
  json_wf v -> integers_ok v = true -> utf8_strings v = true -> undiscarded v = true ->
  text_of (print dump_float v) (normalise v).
Proof.
  induction v as [| |m IH|a IH|s|b|i|u|f] using json_induction; intros Hw Hi Hu Hr.
  - apply (text_of_lexeme _ tk_null); constructor.
  - done.
  - apply json_wf_object in Hw as [Ho Hw]. apply text_of_object; [done|].
    simpl in Hi, Hu, Hr. rewrite forallb_forall in Hi, Hu, Hr. rewrite Forall_forall in *. intros x Hx.
    pose proof (proj1 (list_elem_of_In _ _) Hx) as Hin. specialize (Hu x Hin). apply andb_prop in Hu as [Hk Hu].
    split; [by apply accepts_utf8|]. apply (IH x Hx); auto.
  - apply json_wf_array in Hw. apply text_of_array.
    simpl in Hi, Hu, Hr. rewrite forallb_forall in Hi, Hu, Hr. rewrite Forall_forall in *. intros x Hx.
    pose proof (proj1 (list_elem_of_In _ _) Hx) as Hin. apply (IH x Hx); auto.
  - apply (text_of_lexeme _ (tk_string s)); constructor. apply escaped_body. by apply accepts_utf8.
  - destruct b; [apply (text_of_lexeme _ (tk_bool true))|apply (text_of_lexeme _ (tk_bool false))]; constructor.
  - simpl in Hi. apply andb_prop in Hi as [?%Z.leb_le ?%Z.ltb_lt]. apply text_of_integer; [lia|].
    simpl. destruct (i <? 0); constructor.
  - simpl in Hi. apply andb_prop in Hi as [?%Z.leb_le ?%Z.ltb_lt]. apply text_of_integer; [lia|].
    rewrite (proj2 (Z.ltb_ge u 0)) by lia. constructor.
  - simpl. destruct (isfinite f) eqn:Ef; [|rewrite other_null by done; apply (text_of_lexeme _ tk_null); constructor].
    destruct (finite_reads f Ef) as (n & Hok & Ht & Htok). rewrite Ht. apply text_of_number; [done|]. rewrite Htok. by constructor.
Qed.

Lemma lexes_not_bom p (t : token F) q : lexes p t q -> forall c p', p = c :: p' -> uchar c <> 239.
Proof.
  intros Ht c p' ->. inversion Ht as [? ? ? ? Hc|w ? ? Hw E|n ? Hok He E]; subst.
  - intros E. unfold blank, whitespace in Hc. by rewrite E in Hc.
  - destruct Hw; simplify_eq/=; done.
  - destruct (number_text_start "." n Hok) as (d & s & Hn & Hd). rewrite Hn in E. simplify_eq/=.
    destruct Hd as [->|Hd]; [done|]. unfold is_digit in Hd. lia.
Qed.

Lemma print_json_text v :
  json_wf v -> integers_ok v = true -> utf8_strings v = true -> undiscarded v = true ->
  json_text (print dump_float v) (normalise v).
Proof.
  intros Hw Hi Hu Hr. destruct (print_text v Hw Hi Hu Hr []) as (ts & Hts & Hv); [done|].
  rewrite app_nil_r in Hts. exists (print dump_float v), ts, []. split_and!; try done.
  - right. split; [done|]. pose proof (value_nonempty _ _ Hv). inversion Hts as [|? ? q ? ? Ht _]; subst; [done|].
    by eapply lexes_not_bom.
  - exists []. auto.
Qed.

(** The signedness of an integer does not show in the text. *)
Lemma print_normalise v : print dump_float (normalise v) = print dump_float v.
Proof.
  induction v as [| |m IH|a IH|s|b|i|u|f] using json_induction; simpl; try done.
  - do 3 f_equal. rewrite map_map. apply map_ext_Forall. eapply Forall_impl; [exact IH|]. intros x E. simpl. by rewrite E.
  - do 3 f_equal. rewrite map_map. by apply map_ext_Forall.
  - by destruct (i <? 0).
  - destruct (isfinite f) eqn:Ef; [done|]. by rewrite other_null.
Qed.

(** ** What the parser returns *)

Definition token_ok (t : token F) : Prop :=
  match t with
  | tk_string s => utf8 s
  | tk_unsigned u => 0 <= u < 2 ^ 64
  | tk_integer i => - 2 ^ 63 <= i <= 0
  | _ => True
  end.

Lemma lexes_token_ok p t q : lexes p t q -> token_ok t.
Proof.
  induction 1 as [|w t p Hw|n p Hok He]; [done|destruct Hw; try done; by eapply string_body_utf8|].
  destruct Hok as [[_ Hd] _]. apply digits_value_nonneg in Hd. unfold number_token.
  destruct (fraction n), (exponent n); try done.
  destruct (negative n); [destruct (Z.leb_spec (decimal_value (int_digits n)) (2 ^ 63))|
    destruct (Z.ltb_spec (decimal_value (int_digits n)) (2 ^ 64))]; simpl; try done; lia.
Qed.

Lemma lexes_all_tokens_ok p ts q : lexes_all p ts q -> Forall token_ok ts.
Proof. induction 1; constructor; [by eapply lexes_token_ok|done]. Qed.

(** The shape of a value: keys in order, 64-bit integers, UTF-8 strings, finite
    numbers, nothing discarded. *)
Definition shaped (v : json F) : Prop :=
  json_wf v /\ integers_ok v = true /\ utf8_strings v = true /\ undiscarded v = true /\ floats_finite v = true.

Definition shaped_member (x : str * json F) : Prop := accepts 0 x.1 = true /\ shaped x.2.

Lemma shaped_array a : Forall shaped a -> shaped (Array a).
Proof.
  intros Ha. rewrite Forall_forall in Ha. unfold shaped in *. split; [apply json_wf_array, Forall_forall; naive_solver|].
  split_and!; simpl; rewrite forallb_forall; intros x Hx%list_elem_of_In; naive_solver.
Qed.

Lemma shaped_object m : ordered m -> Forall shaped_member m -> shaped (Object m).
Proof.
  intros Ho Hm. rewrite Forall_forall in Hm. unfold shaped_member, shaped in Hm.
  split; [apply json_wf_object; split; [done|apply Forall_forall; naive_solver]|].
  split_and!; simpl; rewrite forallb_forall; intros x Hx%list_elem_of_In; try apply andb_true_intro; naive_solver.
Qed.

Lemma foldl_map_set_shaped ms m0 :
  ordered m0 -> Forall shaped_member m0 -> Forall shaped_member ms ->
  ordered (foldl (fun m x => map_set x.1 x.2 m) m0 ms) /\
  Forall shaped_member (foldl (fun m x => map_set x.1 x.2 m) m0 ms).
Proof.
  intros Ho H0 Hms. revert m0 Ho H0. induction Hms as [|[k v] ms Hx Hms IH]; intros m0 Ho H0; [done|]. simpl.
  apply IH; [auto with jkit|]. rewrite Forall_forall in *. intros y [->|Hy]%map_set_keys; auto.
Qed.

Lemma value_shaped :
  (forall v ts, value v ts -> Forall token_ok ts -> shaped v) /\
  (forall a ts, elements a ts -> Forall token_ok ts -> Forall shaped a) /\
  (forall ms ts, members ms ts -> Forall token_ok ts -> Forall shaped_member ms).
Proof.
  apply value_elements_members_ind; unfold shaped; try (by intros; split_and!).
  - intros s Ht. inversion Ht as [|? ? Hs _]; subst. split_and!; try done. by apply accepts_utf8.
  - intros u Ht. inversion Ht as [|? ? Hu _]; subst. simpl in Hu. split_and!; try done. simpl. lia.
  - intros i Ht. inversion Ht as [|? ? Hi _]; subst. simpl in Hi. split_and!; try done. simpl. lia.
  - intros a ts _ IH Hts. inversion Hts as [|? ? _ Hts']; subst. apply Forall_app in Hts' as [Hts' _].
    by apply shaped_array, IH.
  - intros _. split; [split; [constructor|done]|done].
  - intros ms ts _ IH Hts. inversion Hts as [|? ? _ Hts']; subst. apply Forall_app in Hts' as [Hts' _].
    destruct (foldl_map_set_shaped ms []) as [Ho Hm]; [constructor|constructor|by apply IH|]. by apply shaped_object.
  - intros v ts _ IH Hts. constructor; [by apply IH|done].
  - intros v ts a us _ IHv _ IHa Hts. apply Forall_app in Hts as [H1 Hts]. inversion Hts; subst. constructor; auto.
  - intros k v ts _ IH Hts. inversion Hts as [|? ? Hk Hts']; subst. inversion Hts' as [|? ? _ Hts2]; subst.
    constructor; [|done]. split; [by apply accepts_utf8|by apply IH].
  - intros k v ts ms us _ IHv _ IHm Hts. inversion Hts as [|? ? Hk Hts']; subst. inversion Hts' as [|? ? _ Hts2]; subst.
    apply Forall_app in Hts2 as [H1 Hts2]. inversion Hts2; subst.
    constructor; [|auto]. split; [by apply accepts_utf8|by apply IHv].
Qed.

Lemma json_text_shaped text v : json_text text v -> shaped v.
Proof.
  intros (p & ts & q & _ & Hts & Hv & _). eapply (proj1 value_shaped); [done|]. by eapply lexes_all_tokens_ok.
Qed.

(** ** Round trips *)

Lemma dump_then_parse allow_exceptions v t :
  json_wf v -> integers_ok v = true -> undiscarded v = true -> dump dump_float v = Ret t ->
  parse allow_exceptions t = Ret (normalise v).
Proof.
  intros Hw Hi Hr Hd. rewrite dump_print in Hd by done. destruct (utf8_strings v) eqn:Hu; [|done].
  injection Hd as <-. apply parse_complete. by apply print_json_text.
Qed.

Lemma parse_shaped allow_exceptions text v : parse allow_exceptions text = Ret v -> v <> Discarded -> shaped v.
Proof. intros Hp Hne. apply parse_returned in Hp; [|done]. by eapply json_text_shaped. Qed.

Lemma shaped_then_dump allow_exceptions v : shaped v ->
  exists t, dump dump_float v = Ret t /\ parse allow_exceptions t = Ret (normalise v) /\ dump dump_float (normalise v) = Ret t.
Proof.
  intros (Hw & Hi & Hu & Hr & Hf). exists (print dump_float v).
  assert (Hd : dump dump_float v = Ret (print dump_float v)) by (rewrite dump_print by done; by rewrite Hu).
  split; [done|]. split; [by apply dump_then_parse|]. pose proof (print_json_text v Hw Hi Hu Hr) as Ht.
  destruct (json_text_shaped _ _ Ht) as (_ & Hi' & Hu' & _). rewrite dump_print, Hu' by done. by rewrite print_normalise.
Qed.
End values.

(** ** The program's numbers *)

Lemma float_text_reads f : isfinite f = true -> float_reads float_text f.
Proof.
  intros Hf. destruct (to_chars_spec f Hf) as (n & Ht & Hok & Hfloat & _ & Hread).
  exists n. split; [done|]. split; [unfold float_text, dump_float; change (finite_bits f) with (isfinite f); by rewrite Hf, Ht|].
  unfold number_token. change (strtod ?x) with (strtod_double x). change get_decimal_point with "."%char. rewrite Hread.
  destruct Hfloat as [Hx|Hx]; destruct (fraction n), (exponent n); done.
Qed.

Lemma float_text_null f : isfinite f = false -> float_text f = lit "null".
Proof. intros Hf. unfold float_text, dump_float. change (finite_bits f) with (isfinite f). by rewrite Hf. Qed.

(** C7. What is written is read back, and what is read can be written, with the
    floating-point numbers of the program and their texts.  When the serialiser has written a value
    with ordered keys and 64-bit integers, no part of which is discarded, the parser gives
    the value again, its non-negative integers unsigned and null in place of the
    numbers that are not finite.  A value that the parser returned has its keys in order, 64-bit
    integers, UTF-8 strings, finite numbers and no discarded part, so the
    serialiser does not throw on it; parsing the text gives the value again up to the
    signedness of its integers, and writing once more gives the same text. *)
Theorem json_roundtrip allow_exceptions :
  (forall v t, json_wf v -> integers_ok v = true -> undiscarded v = true -> dump float_text v = Ret t ->
     parse allow_exceptions t = Ret (normalise v)) /\
  (forall text v, parse allow_exceptions text = Ret v -> v <> Discarded ->
     json_wf v /\ integers_ok v = true /\ utf8_strings v = true /\ undiscarded v = true /\ floats_finite v = true /\
     exists t, dump float_text v = Ret t /\ parse allow_exceptions t = Ret (normalise v) /\
       dump float_text (normalise v) = Ret t).
Proof.
  split; [intros v t; apply dump_then_parse; [apply float_text_reads|apply float_text_null]|]. intros text v Hp Hne.
  pose proof (parse_shaped allow_exceptions text v Hp Hne) as Hs. pose proof Hs as (Hw & Hi & Hu & Hr & Hf). split_and!; try done.
  by apply shaped_then_dump; [apply float_text_reads|apply float_text_null|].
Qed.

Definition sample : json Z :=
  Object [(lit "a", Array [NumberInteger (-3); NumberInteger 4; NumberFloat 0x3FF8000000000000; NumberFloat infinity_bits]);
          (lit "b", String_ (lit "x\y"))].

Lemma parse_grammar_witness :
  json_text (lit " [1, true]") (Array (F := Z) [NumberUnsigned 1; Boolean true]) /\
  exists e, parse (F := Z) true (lit "[1,]") = Throw e.
Proof.
  split.
  - apply (proj1 (parse_grammar (F := Z) true (lit " [1, true]")) (Array [NumberUnsigned 1; Boolean true]));
      [discriminate|vm_compute; reflexivity].
  - destruct (parse_grammar (F := Z) true (lit "[1,]")) as [Hv [[v Hj]|(e & He & _)]]; [|exists e; exact He].
    eexists. vm_compute. reflexivity.
Defined.

Lemma json_roundtrip_witness :
  (exists t, dump float_text sample = Ret t /\
     parse true t = Ret (Object [(lit "a", Array [NumberInteger (-3); NumberUnsigned 4; NumberFloat 0x3FF8000000000000; Null]);
                                 (lit "b", String_ (lit "x\y"))])) /\
  exists v t, parse true (lit "[-0, 1.5 ]") = Ret v /\ dump float_text v = Ret t /\ parse true t = Ret (normalise v) /\
    dump float_text (normalise v) = Ret t.
Proof.
  destruct (json_roundtrip true) as [Hwrite Hread]. split.
  - eexists. split; [vm_compute; reflexivity|]. apply (Hwrite sample).
    + split; [repeat constructor|]. repeat split; repeat constructor.
    + reflexivity.
    + reflexivity.
    + vm_compute. reflexivity.
  - eexists. destruct (Hread (lit "[-0, 1.5 ]") (Array [NumberInteger 0; NumberFloat 0x3FF8000000000000]))
      as (_ & _ & _ & _ & _ & t & Ht & Hback); [vm_compute; reflexivity|discriminate|].
    exists t. split; [vm_compute; reflexivity|]. split; [exact Ht|]. exact Hback.
Defined.
