(* ===== verification/JsonPosition.v ===== *)
(** * Where the lexer of JSON texts is, and what it complains about

    The lexer counts as it reads and steps back with [unget]; here its counters
    are compared with the lines and columns of the part of the text that was read.
    The facts are added to the functions of the lexer by a calculus of
    postconditions that need not hold when a function does not return.  An
    invariant that reading a character keeps is kept by every scanner, which is
    proved once for all such invariants; the messages are collected for each kind
    of token. *)
From stdpp Require Import prelude strings list pretty.
From Stdlib Require Import Ascii ZArith Lia.
From S2P Require Import Prelude CxxLib CxxMap Json JsonFacts JsonLexer JsonParser JsonGrammar JsonWp JsonStrings JsonLexerFacts JsonParserFacts JsonParse.

Local Open Scope Z_scope.
Local Open Scope json_scope.

(** ** Lines and columns of a text *)

Definition line_break : ascii := char_of_Z 10.

(** The line breaks in [u], and the characters after the last. *)
Definition breaks (u : str) : Z := Z.of_nat (length (filter (eq line_break) u)).

Definition column_of (u : str) : Z :=
  str_size (match from_last line_break u with Some s => tl s | None => u end).

Lemma breaks_snoc u c : breaks (u ++ [c]) = breaks u + (if Ascii.eqb c line_break then 1 else 0).
Proof.
  unfold breaks. rewrite filter_app, length_app. unfold filter at 2. simpl.
  destruct (Ascii.eqb_spec c line_break) as [->|Hne]; [rewrite decide_True by done; simpl; lia|].
  rewrite decide_False by congruence. simpl. lia.
Qed.

Lemma from_last_snoc d u c : from_last d (u ++ [c]) =
  if Ascii.eqb c d then Some [c] else (fun s => s ++ [c]) <$> from_last d u.
Proof.
  induction u as [|x u IH]; simpl; [by destruct (Ascii.eqb c d)|]. rewrite IH.
  destruct (Ascii.eqb c d); [done|]. destruct (from_last d u); simpl; [done|]. by destruct (Ascii.eqb x d).
Qed.

Lemma from_last_nonempty d u : from_last d u <> Some [].
Proof. induction u as [|x u IH]; simpl; [done|]. destruct (from_last d u); [done|]. by destruct (Ascii.eqb x d). Qed.

Lemma column_snoc u c : column_of (u ++ [c]) = if Ascii.eqb c line_break then 0 else column_of u + 1.
Proof.
  unfold column_of. rewrite from_last_snoc. destruct (Ascii.eqb c line_break); [done|].
  pose proof (from_last_nonempty line_break u) as Hne.
  destruct (from_last line_break u) as [[|x s]|]; simpl; [done|..]; rewrite str_size_app; done.
Qed.

Lemma breaks_nonneg u : 0 <= breaks u.
Proof. unfold breaks. lia. Qed.

Lemma column_nonneg u : 0 <= column_of u.
Proof. unfold column_of. apply str_size_nonneg. Qed.

Lemma uchar_line_break c : (uchar c =? 10) = Ascii.eqb c line_break.
Proof. byte_cases c; reflexivity. Qed.

(** ** Postconditions *)

(** Whatever [m] returns from a state in [P] is in [Q], whatever it throws in [E]. *)
Definition post {S A} (P : S -> Prop) (m : M S A) (Q : A -> S -> Prop) (E : json_exception -> Prop) : Prop :=
  forall s, P s -> match m s with Ret (a, s') => Q a s' | Throw e => E e | Undef => True end.

Section post.
Context {S : Type} (E : json_exception -> Prop).

Lemma post_ret {A} (P : S -> Prop) (a : A) (Q : A -> S -> Prop) : (forall s, P s -> Q a s) -> post P (mret a) Q E.
Proof. done. Qed.

Lemma post_weaken {A} (P P' : S -> Prop) (m : M S A) (Q Q' : A -> S -> Prop) :
  post P m Q E -> (forall s, P' s -> P s) -> (forall a s, Q a s -> Q' a s) -> post P' m Q' E.
Proof. intros Hm HP HQ s Hs. specialize (Hm s (HP s Hs)). destruct (m s) as [[a s']| |]; auto. Qed.

Lemma post_pre {A} (P P' : S -> Prop) (m : M S A) (Q : A -> S -> Prop) :
  post P m Q E -> (forall s, P' s -> P s) -> post P' m Q E.
Proof. intros Hm HP. by eapply post_weaken. Qed.

Lemma post_exists {A X} (C : X -> Prop) (P : X -> S -> Prop) (m : M S A) (Q : A -> S -> Prop) :
  (forall x, C x -> post (P x) m Q E) -> post (fun s => exists x, C x /\ P x s) m Q E.
Proof. intros Hm s (x & Hx & Hs). by apply (Hm x Hx). Qed.

Lemma post_bind {A B} (P : S -> Prop) (m : M S A) (k : A -> M S B) (R : A -> S -> Prop) (Q : B -> S -> Prop) :
  post P m R E -> (forall a, post (R a) (k a) Q E) -> post P (mbind_ m k) Q E.
Proof.
  intros Hm Hk s Hs. specialize (Hm s Hs). unfold mbind_. destruct (m s) as [[a s']|e|]; simpl; [|done|done].
  by apply Hk.
Qed.

Lemma post_mget {A B} (P : S -> Prop) (f : S -> A) (k : A -> M S B) (Q : B -> S -> Prop) :
  (forall a, post (fun s => P s /\ f s = a) (k a) Q E) -> post P (mbind_ (mget f) k) Q E.
Proof. intros Hk s Hs. simpl. by apply (Hk (f s)). Qed.

Lemma post_massert (P : S -> Prop) f (Q : unit -> S -> Prop) :
  (forall s, P s -> Q tt s) -> post P (massert f) Q E.
Proof. intros HQ s Hs. unfold massert. destruct (f s); auto. Qed.

Lemma post_while {X A} (I : X -> S -> Prop) (body : X -> M S (X + A)) fuel x (Q : A -> S -> Prop) :
  (forall x, post (I x) (body x) (fun r s => match r with inl x' => I x' s | inr a => Q a s end) E) ->
  post (I x) (while_ fuel body x) Q E.
Proof.
  intros Hbody. revert x. induction fuel as [|fuel IH]; intros x; [by intros s Hs|]. simpl.
  eapply post_bind; [apply Hbody|]. intros [x'|a]; simpl; [apply IH|by apply post_ret].
Qed.
End post.

(** ** The counters of the lexer *)

(** A text that a C string carries. *)
Abbreviation no_nul := (fun s : str => none (Ascii.eqb NUL) s = true).

Section lexer.
Context {F : Type} `{CFloat F} (text : str) (E : json_exception -> Prop).
Implicit Types (l : lexer F) (u : str) (e : nat).

(** The characters [u] were read, and the end of the text [e] times: the counters
    are those of [u], but for a line break that was pushed back, after which the
    column is 0. *)
Record placed_at l u e : Prop := {
  pl_text : text = u ++ rest l;
  pl_end : e <> 0%nat -> rest l = [];
  pl_total : chars_read_total (position l) = str_size u + Z.of_nat e;
  pl_line : lines_read (position l) = breaks u;
  pl_column : chars_read_current_line (position l) = column_of u + Z.of_nat e \/
    (next_unget l = true /\ chars_read_current_line (position l) = 0 /\ head_code (rest l) = 10);
  pl_token : exists w, u = w ++ token_string l;
  pl_message : no_nul (error_message l);
  pl_unget : next_unget l = true -> current l = eof /\ ia l = [] \/ 0 <= current l < 256;
}.

Definition placed l : Prop := exists u e, placed_at l u e.

(** The current character was read last. *)
Definition just_read l u e : Prop :=
  next_unget l = false /\
  ((e <> 0%nat /\ current l = eof) \/
   (e = 0%nat /\ exists u' c, u = u' ++ [c] /\ current l = uchar c /\ token_string l <> [])).

Definition just l : Prop := exists u e, placed_at l u e /\ just_read l u e.

Lemma just_placed l : just l -> placed l.
Proof. intros (u & e & Hl & _). by exists u, e. Qed.

Lemma placed_new : placed (new_lexer text).
Proof. exists [], 0%nat. split; simpl; try done; [by left|by exists []]. Qed.

(** The next character is the first of what is left. *)
Lemma next_character l : (next_unget l = true -> current l = eof /\ ia l = [] \/ 0 <= current l < 256) ->
  (if next_unget l then (current l, ia l) else get_character (ia l)) = (head_code (rest l), tl (rest l)).
Proof.
  intros Hc. unfold rest, get_character. destruct (next_unget l); [|by destruct (ia l)].
  destruct (Hc eq_refl) as [[E1 E2]|Hr]; [by rewrite E1, E2|].
  rewrite (proj2 (Z.eqb_neq _ _)) by (unfold eof; lia). simpl. by rewrite uchar_char_of_Z.
Qed.

Lemma post_get : post placed get (fun c l => just l /\ current l = c) E.
Proof.
  intros l (u & e & [H1 H2 H3 H4 H5 [w Hw] H7 H8]). unfold get. rewrite (next_character l H8). split; [|done].
  destruct (rest l) as [|c p] eqn:Er; cbn [head_code tl].
  - exists u, (S e). split; [|by split; [|left]].
    split; simpl; [done|done|rewrite H3; lia|done| |by exists w|done|done].
    left. destruct H5 as [->|(_ & _ & [=])]. lia.
  - assert (e = 0%nat) as -> by (destruct e; [done|by specialize (H2 ltac:(done))]).
    pose proof (uchar_range c). rewrite (proj2 (Z.eqb_neq (uchar c) eof)), char_of_Z_uchar by (unfold eof; lia).
    exists (u ++ [c]), 0%nat. split.
    + split; simpl; rewrite ?uchar_line_break; [by rewrite <- app_assoc|done| | | | |done|done].
      * rewrite H3, str_size_app. unfold str_size. simpl. lia.
      * rewrite H4, breaks_snoc. by destruct (Ascii.eqb c line_break); lia.
      * left. rewrite column_snoc. destruct (Ascii.eqb c line_break) eqn:Ec; [done|].
        destruct H5 as [->|(_ & _ & Hb)]; [lia|]. simpl in Hb. rewrite <- uchar_line_break, Hb in Ec. done.
      * exists w. by rewrite Hw, <- app_assoc.
    + split; [done|]. right. split; [done|]. exists u, c. split_and!; [done|done|]. simpl. by destruct (token_string l).
Qed.

Lemma post_unget : post just unget (fun _ => placed) E.
Proof.
  intros l (u & e & [H1 H2 H3 H4 H5 [w Hw] H7 H8] & Hu & Hj). unfold unget.
  destruct (negb _ && _); [done|].
  destruct H5 as [H5|[? _]]; [|congruence]. unfold rest in H1, H2. rewrite Hu in H1, H2.
  pose proof (breaks_nonneg u). pose proof (column_nonneg u).
  destruct Hj as [[He Hc]|(-> & u' & c & -> & Hc & Hts)].
  - exists u, (pred e). rewrite Hc. split; unfold rest; simpl; rewrite ?H5; try done.
    + by rewrite H1, H2.
    + rewrite H3. lia.
    + rewrite (proj2 (Z.eqb_neq _ 0)) by lia. done.
    + left. rewrite (proj2 (Z.eqb_neq _ 0)) by lia. lia.
    + by exists w.
    + by left; rewrite H2.
  - pose proof (uchar_range c). assert (Heof : (uchar c =? eof) = false) by (apply Z.eqb_neq; unfold eof; lia).
    exists u', 0%nat. rewrite Hc, Heof. rewrite column_snoc in H5. rewrite breaks_snoc in H4.
    split; unfold rest; simpl; rewrite ?Heof, ?H5, ?H4, ?char_of_Z_uchar; try done.
    + by rewrite H1, <- app_assoc.
    + rewrite H3, str_size_app. unfold str_size. simpl. lia.
    + pose proof (breaks_nonneg u'). pose proof (column_nonneg u'). destruct (Ascii.eqb c line_break) eqn:Ec; simpl.
      * rewrite (proj2 (Z.ltb_lt 0 _)) by lia. lia.
      * rewrite (proj2 (Z.eqb_neq _ 0)) by lia. simpl. lia.
    + pose proof (column_nonneg u'). destruct (Ascii.eqb c line_break) eqn:Ec; simpl.
      * right. rewrite <- uchar_line_break in Ec. split_and!; try done. by apply Z.eqb_eq.
      * left. rewrite (proj2 (Z.eqb_neq _ 0)) by lia. lia.
    + exists w. destruct (exists_last Hts) as (ts & d & Ets). rewrite Ets in Hw |- *. rewrite removelast_last.
      rewrite app_assoc in Hw. by apply app_inj_tail in Hw as [-> _].
    + by right.
Qed.

(** *** The scanners *)

(** An invariant that the elementary steps of a scanner keep. *)
Class Scanning (J : lexer F -> Prop) : Prop := {
  scanning_get : post J get (fun _ => J) E;
  scanning_add c : post J (add c) (fun _ => J) E;
  scanning_error {A} message (a : A) : no_nul message -> post J (error message a) (fun _ => J) E;
}.

Section scanning.
Context (J : lexer F -> Prop) `{!Scanning J}.

Definition keeps {A} (m : M (lexer F) A) : Prop := post J m (fun _ => J) E.

Lemma keeps_ret {A} (a : A) : keeps (mret a).
Proof. by apply post_ret. Qed.

Lemma keeps_bind {A B} (m : M (lexer F) A) (k : A -> M (lexer F) B) :
  keeps m -> (forall a, keeps (k a)) -> keeps (mbind_ m k).
Proof. intros Hm Hk. eapply post_bind; [exact Hm|exact Hk]. Qed.

Lemma keeps_mget {A} (f : lexer F -> A) : keeps (mget f).
Proof. by intros l Hl. Qed.

Lemma keeps_get : keeps get.
Proof. apply scanning_get. Qed.

Lemma keeps_add c : keeps (add c).
Proof. apply scanning_add. Qed.

Lemma keeps_error {A} message (a : A) : no_nul message -> keeps (error message a).
Proof. apply scanning_error. Qed.

Lemma keeps_massert f : keeps (massert f).
Proof. by apply (post_massert E _ _ (fun _ => J)). Qed.

Lemma keeps_while {X A} fuel (body : X -> M (lexer F) (X + A)) x :
  (forall x, keeps (body x)) -> keeps (while_ fuel body x).
Proof.
  intros Hbody. apply (post_while E (fun _ => J)). intros x'. eapply post_weaken; [apply Hbody|done|].
  by intros [] ? ?.
Qed.

Create HintDb keeps discriminated.
Hint Resolve keeps_ret keeps_mget keeps_massert keeps_get keeps_add : keeps.
Hint Extern 1 (keeps (error _ _)) => apply keeps_error; vm_compute; reflexivity : keeps.

Ltac keeps_steps := repeat first
  [ solve [auto with keeps]
  | apply keeps_bind; [|intros ?]
  | match goal with |- keeps (if ?b then _ else _) => destruct b eqn:? end ].

Lemma keeps_codepoint factors cp : keeps (get_codepoint_loop factors cp).
Proof. revert cp. induction factors as [|f factors IH]; intros cp; simpl; keeps_steps; apply IH. Qed.

Lemma keeps_next_bytes ranges : keeps (next_bytes ranges).
Proof. induction ranges as [|[lo hi] ranges IH]; simpl; keeps_steps; apply IH. Qed.

Lemma keeps_add_codepoint cp : keeps (add_codepoint cp).
Proof. unfold add_codepoint. keeps_steps. Qed.

Lemma keeps_literal s t : keeps (scan_literal s t).
Proof.
  destruct s as [|c s]; [by intros|]. simpl. apply keeps_bind; [apply keeps_massert|intros ?].
  induction s as [|d s IH]; simpl; keeps_steps; apply IH.
Qed.

Hint Resolve keeps_codepoint keeps_next_bytes keeps_add_codepoint keeps_literal : keeps.

(** The messages for control characters. *)
Lemma keeps_control {A} c (a : A) : between 0x00 0x1F c = true -> keeps (error (control_message c) a).
Proof.
  intros Hc. apply keeps_error. unfold between in Hc. unbool.
  assert (Hin : c ∈ seqZ 0 32) by (apply elem_of_seqZ; lia).
  clear H0 H1. revert c Hin. apply (Forall_forall (fun c => none (Ascii.eqb NUL) (control_message c) = true)).
  vm_compute. repeat constructor.
Qed.

Lemma keeps_unicode_escape : keeps scan_unicode_escape.
Proof. unfold scan_unicode_escape, get_codepoint. keeps_steps. Qed.

Hint Resolve keeps_unicode_escape : keeps.

Lemma keeps_escape : keeps scan_escape.
Proof. unfold scan_escape. keeps_steps. Qed.

Hint Resolve keeps_escape : keeps.

Lemma keeps_checked ranges : keeps (checked (next_byte_in_range ranges)).
Proof. unfold checked, next_byte_in_range. keeps_steps. Qed.

Hint Resolve keeps_checked keeps_control : keeps.

Lemma keeps_string_turn : keeps scan_string_turn.
Proof. unfold scan_string_turn. keeps_steps. Qed.

Lemma keeps_number_from label t : keeps (scan_number_from label t).
Proof. unfold scan_number_from, goto. destruct label; keeps_steps. Qed.

(** The bodies of [scan_string] and [scan_number], and what follows the first byte
    of a byte order mark. *)
Lemma keeps_string_body :
  keeps (do* massert (fun l => current l =? 34) in
         let* n := mget (fun l => length (rest l)) in while_ (S n) (fun _ => scan_string_turn) tt).
Proof.
  apply keeps_bind; [apply keeps_massert|intros ?]. apply keeps_bind; [apply keeps_mget|intros n].
  apply keeps_while. intros _. apply keeps_string_turn.
Qed.

Lemma keeps_number_loop fuel x :
  keeps (while_ fuel (fun '(label, number_type) => scan_number_from label number_type) x).
Proof. apply keeps_while. intros [? ?]. apply keeps_number_from. Qed.

Lemma keeps_bom_bytes : keeps (let* c := get in if c =? 0xBB then let* c := get in mret (c =? 0xBF) else mret false).
Proof. keeps_steps. Qed.

End scanning.

#[local] Instance just_scanning : Scanning just.
Proof.
  split.
  - eapply post_weaken; [apply post_get|apply just_placed|by intros ? ? [? _]].
  - intros c l (u & e & [] & Hj). exists u, e. split; [by split|done].
  - intros A message a Hm l (u & e & [] & Hj). exists u, e. split; [by split|done].
Qed.

Lemma post_numbers x : post placed (set_unsigned x) (fun _ => placed) E /\
  post placed (set_integer x) (fun _ => placed) E /\ forall f, post placed (set_float f) (fun _ => placed) E.
Proof. split_and!; intros; intros l (u & e & []); exists u, e; by split. Qed.

Lemma post_reset : post (fun l => just l /\ current l <> eof) reset (fun _ => just) E.
Proof.
  intros l [(u & e & [] & Hu & Hj) Hc]. destruct Hj as [[_ ?]|(-> & u' & c & -> & Hcur & _)]; [done|].
  exists (u' ++ [c]), 0%nat. split; [split; try done|].
  - exists u'. simpl. by rewrite Hcur, char_of_Z_uchar.
  - split; [done|]. right. split; [done|]. by exists u', c.
Qed.

(** A character that is not the end was read last: where [reset] may be called. *)
Definition at_character l : Prop := just l /\ current l <> eof.

Lemma post_string : post at_character scan_string (fun _ => just) E.
Proof. eapply post_bind; [apply post_reset|intros ?]. apply (keeps_string_body just). Qed.

(** The kinds of token for which a character is pushed back. *)
Definition is_number (t : token_type) : bool :=
  match t with value_unsigned | value_integer | value_float => true | _ => false end.

Definition placed_token (t : token_type) l : Prop := placed l /\ (next_unget l = true -> is_number t = true).

Lemma just_token t l : just l -> placed_token t l.
Proof. intros Hl. split; [by apply just_placed|]. destruct Hl as (u & e & _ & Hu & _). by rewrite Hu. Qed.

Lemma post_convert t : post placed (convert_number t) placed_token E.
Proof.
  apply post_mget. intros b.
  assert (Hput : forall m t', is_number t' = true -> post placed m (fun _ : unit => placed) E ->
    post (fun l => placed l /\ token_buffer l = b) (do* m in mret t') placed_token E).
  { intros m t' Ht Hm. eapply post_bind; [eapply post_pre; [exact Hm|by intros l [? _]]|].
    intros []. apply post_ret. by split. }
  assert (Hn := fun x => post_numbers x).
  destruct t; simpl; try (apply Hput; [done|apply (Hn 0)]).
  - destruct (strtoull b) as [x []]; apply Hput; try done; apply (Hn x).
  - destruct (strtoll b) as [x []]; apply Hput; try done; apply (Hn x).
Qed.

Lemma post_number : post at_character scan_number placed_token E.
Proof.
  eapply post_bind; [apply post_reset|intros ?]. apply post_mget. intros c. apply post_mget. intros n.
  cbv zeta.
  assert (Hrun : forall label, post (fun l => (just l /\ current l = c) /\ length (rest l) = n)
    (do* add c in
     let* r := while_ (S (S n)) (fun '(label, number_type) => scan_number_from label number_type) (label, value_unsigned) in
     match r with None => mret parse_error | Some number_type => do* unget in convert_number number_type end)
    placed_token E).
  { intros label. eapply post_pre; [|by intros l [[? _] _]].
    eapply post_bind; [apply (keeps_add just)|intros ?]. eapply post_bind.
    - apply (keeps_number_loop just).
    - intros [t|]; [|apply post_ret; apply just_token].
      eapply post_bind; [apply post_unget|intros ?; apply post_convert]. }
  destruct (c =? 45); [apply Hrun|]. destruct (c =? 48); [apply Hrun|].
  destruct (between 49 57 c); [apply Hrun|by intros].
Qed.

(** *** Tokens *)

Lemma post_whitespace : post placed skip_whitespace (fun c l => just l /\ current l = c) E.
Proof.
  apply post_mget. intros n. eapply post_pre; [|by intros l [? _]].
  apply (post_while E (fun _ => placed)). intros _. eapply post_bind; [apply post_get|].
  intros c. apply post_ret. intros l [Hl Hc]. destruct (whitespace c); [by apply just_placed|done].
Qed.

Lemma post_bom : post placed skip_bom (fun ok l => placed l /\ (ok = false -> next_unget l = false)) E.
Proof.
  eapply post_bind; [apply post_get|]. intros c.
  destruct (c =? 0xEF).
  - eapply post_weaken with (P := just) (Q := fun _ => just);
      [|by intros l [? _]|intros a l Hl; split; [by apply just_placed|by destruct Hl as (u & e & _ & ? & _)]].
    apply (keeps_bom_bytes just).
  - eapply post_bind; [eapply post_pre; [apply post_unget|by intros l [? _]]|].
    intros ?. by apply post_ret.
Qed.

Lemma post_token c : post (fun l => just l /\ current l = c) (scan_token c) placed_token E.
Proof.
  assert (Hk : forall m, keeps just m -> post (fun l => just l /\ current l = c) m placed_token E).
  { intros m Hm. eapply post_weaken; [exact Hm|by intros l [? _]|intros t; apply just_token]. }
  assert (Hc : c <> eof -> forall l, just l /\ current l = c -> at_character l) by (intros ? l [? ?]; split; [done|congruence]).
  unfold scan_token, digit. repeat match goal with
  | |- post _ scan_string _ _ => eapply post_weaken; [apply post_string|apply Hc; unfold eof; lia|intros t; apply just_token]
  | |- post _ scan_number _ _ => eapply post_pre; [apply post_number|apply Hc]
  | |- post _ (if ?b then _ else _) _ _ => destruct b eqn:?
  | |- post _ _ _ _ => apply Hk; first [apply keeps_ret|apply (keeps_literal just)|apply (keeps_error just); vm_compute; reflexivity]
  end.
  unfold between, eof in *. lia.
Qed.

(** Every token leaves the counters right. *)
Lemma post_scan : post placed scan placed_token E.
Proof.
  apply post_mget. intros start. eapply post_bind with (R := fun ok l => placed l /\ (ok = false -> next_unget l = false)).
  - destruct start; [|by apply post_ret; intros l [? _]]. eapply post_pre; [apply post_bom|by intros l [? _]].
  - intros [|]; simpl; [|intros l [(u & e & []) Hu]; split; [exists u, e; by split|by rewrite Hu]].
    eapply post_bind; [eapply post_pre; [apply post_whitespace|by intros l [? _]]|apply post_token].
Qed.
End lexer.


(** ** What is left of a bad token *)

Section bad_token.
Context {F : Type} `{CFloat F}.
Implicit Types l : lexer F.

Abbreviation anything := (fun _ : json_exception => True).

(** What was read since [reset] and what follows it is [x]. *)
Definition holds_text (x : str) l : Prop := next_unget l = false /\ token_string l ++ rest l = x.

#[local] Instance holds_scanning x : Scanning anything (holds_text x).
Proof.
  split; [|by intros c l Hl|by intros A message a _ l Hl].
  intros l [Hu Hx]. unfold get, holds_text, rest in *. rewrite Hu in *. unfold get_character.
  destruct (ia l) as [|c p]; simpl; [done|]. pose proof (uchar_range c).
  rewrite (proj2 (Z.eqb_neq (uchar c) eof)), char_of_Z_uchar by (unfold eof; lia). by rewrite <- app_assoc.
Qed.

Lemma holds_reset c x : post (fun l => next_unget l = false /\ current l = uchar c /\ rest l = x) reset (fun _ => holds_text (c :: x)) anything.
Proof. intros l (Hu & Hc & Hx). split; [done|]. unfold rest in *. simpl. rewrite Hu in *. by rewrite Hc, char_of_Z_uchar, Hx. Qed.

(** ** The messages of the lexer, by the token that is wrong *)

Definition string_messages : list str :=
  [lit "invalid string: missing closing quote"; lit "invalid string: forbidden character after backslash";
   lit "invalid string: '\u' must be followed by 4 hex digits";
   lit "invalid string: surrogate U+DC00..U+DFFF must be followed by U+DC00..U+DFFF";
   lit "invalid string: surrogate U+DC00..U+DFFF must follow U+D800..U+DBFF";
   lit "invalid string: ill-formed UTF-8 byte"] ++ map control_message (seqZ 0 32).

Definition number_messages : list str :=
  [lit "invalid number; expected digit after '-'"; lit "invalid number; expected digit after '.'";
   lit "invalid number; expected '+', '-', or digit after exponent"; lit "invalid number; expected digit after exponent sign"].

Definition token_messages (c : Z) : list str :=
  if c =? 34 then string_messages else if (c =? 45) || digit c then number_messages else [lit "invalid literal"].

Definition bom_message : str := lit "invalid BOM; must be 0xEF 0xBB 0xBF if given".

(** When [m] fails, its message is one of [ms]. *)
Definition blames {A} (failed : A -> Prop) (ms : list str) (m : M (lexer F) A) : Prop :=
  post (fun _ => True) m (fun a l => failed a -> error_message l ∈ ms) anything.

Section blames.
Context {A : Type} (failed : A -> Prop) (ms : list str).

Lemma blames_ret a : ~ failed a -> blames failed ms (mret a).
Proof. by intros Ha l _ ?. Qed.

Lemma blames_error message a : message ∈ ms -> blames failed ms (error message a).
Proof. by intros Hm l _ _. Qed.

Lemma blames_bind {B} (m : M (lexer F) B) k : (forall b, blames failed ms (k b)) -> blames failed ms (mbind_ m k).
Proof.
  intros Hk. eapply post_bind with (R := fun _ _ => True); [|exact Hk]. intros l _. by destruct (m l) as [[? ?]| |].
Qed.

Lemma blames_while {X} fuel (body : X -> M (lexer F) (X + A)) x :
  (forall x, blames (fun r => match r with inr a => failed a | inl _ => False end) ms (body x)) -> blames failed ms (while_ fuel body x).
Proof.
  intros Hb. apply (post_while _ (fun _ _ => True)). intros x'. eapply post_weaken; [apply Hb|done|]. by intros [] l Hl.
Qed.
End blames.

Ltac blames_steps := repeat first
  [ solve [apply blames_ret; cbn; intuition congruence]
  | solve [apply blames_error; apply (bool_decide_unpack _); vm_compute; exact I]
  | apply blames_bind; intros ?
  | match goal with |- blames _ _ (if ?b then _ else _) => destruct b eqn:? end ].

Abbreviation bad_turn := (fun r : turn => match r with inr t => t = parse_error | inl _ => False end).

Lemma blames_next_bytes ranges : blames (fun b => b = false) string_messages (next_bytes ranges).
Proof. induction ranges as [|[lo hi] ranges IH]; simpl; blames_steps; apply IH. Qed.

Lemma blames_checked ranges : blames bad_turn string_messages (checked (next_byte_in_range ranges)).
Proof.
  eapply post_bind with (R := fun b l => b = false -> error_message l ∈ string_messages).
  - apply blames_bind. intros ?. apply blames_bind. intros ?. apply blames_bind. intros ?. apply blames_next_bytes.
  - intros []; intros l Hl; simpl; [by intros []|by intros _; apply Hl].
Qed.

Lemma blames_control c : between 0x00 0x1F c = true -> blames bad_turn string_messages (error (control_message c) (return_ parse_error)).
Proof.
  intros Hc. apply blames_error, elem_of_app. right. apply list_elem_of_fmap. exists c. split; [done|].
  unfold between in Hc. apply elem_of_seqZ. lia.
Qed.

Lemma blames_unicode : blames bad_turn string_messages scan_unicode_escape.
Proof. unfold scan_unicode_escape. cbv zeta. blames_steps. Qed.

Lemma blames_escape : blames bad_turn string_messages scan_escape.
Proof. unfold scan_escape. blames_steps. Qed.

Lemma blames_string : blames (fun t => t = parse_error) string_messages scan_string.
Proof.
  apply blames_bind. intros ?. apply blames_bind. intros ?. apply blames_bind. intros n. apply blames_while. intros _.
  unfold scan_string_turn. apply blames_bind. intros c.
  repeat match goal with |- blames _ _ (if ?b then _ else _) => destruct b eqn:? end;
    first [apply blames_escape|by apply blames_control|apply blames_checked|blames_steps].
Qed.

Lemma blames_number_from label t :
  blames (fun r => match r with inr None => True | _ => False end) number_messages (scan_number_from label t).
Proof. unfold scan_number_from, goto. destruct label; blames_steps. Qed.

(** The conversion of a number does not fail. *)
Lemma blames_convert ms t : blames (fun t => t = parse_error) ms (do* unget in convert_number t).
Proof.
  apply blames_bind. intros []. unfold convert_number. apply blames_bind. intros b. cbv zeta.
  destruct t; try (destruct (strtoull b) as [x []]); try (destruct (strtoll b) as [y []]); cbn [negb]; blames_steps.
Qed.

Lemma blames_number : blames (fun t => t = parse_error) number_messages scan_number.
Proof.
  apply blames_bind. intros ?. apply blames_bind. intros c. apply blames_bind. intros n. cbv zeta.
  assert (Hrun : forall label, blames (fun t => t = parse_error) number_messages
    (do* add c in
     let* r := while_ (S (S n)) (fun '(label, number_type) => scan_number_from label number_type) (label, value_unsigned) in
     match r with None => mret parse_error | Some number_type => do* unget in convert_number number_type end)).
  { intros label. apply blames_bind. intros ?.
    eapply post_bind with (R := fun r l => r = None -> error_message l ∈ number_messages).
    - apply (post_while _ (fun _ _ => True)). intros [label' t']. eapply post_weaken; [apply blames_number_from|done|].
      intros [x|[t|]] l Hl; [done|done|]. by intros _; apply Hl.
    - intros [t|]; [|intros l Hl; simpl; by intros _; apply Hl]. eapply post_pre; [apply blames_convert|done]. }
  destruct (c =? 45); [apply Hrun|]. destruct (c =? 48); [apply Hrun|]. destruct (between 49 57 c); [apply Hrun|by intros l].
Qed.

Lemma blames_literal s t : t <> parse_error -> blames (fun t => t = parse_error) [lit "invalid literal"] (scan_literal s t).
Proof.
  intros Ht. destruct s as [|c s]; [by intros l|]. simpl. apply blames_bind. intros ?.
  induction s as [|d s IH]; simpl; blames_steps; apply IH.
Qed.

Lemma blames_token c : blames (fun t => t = parse_error) (token_messages c) (scan_token c).
Proof.
  unfold scan_token, token_messages.
  do 9 (match goal with |- blames _ _ (if c =? ?k then _ else _) => destruct (Z.eqb_spec c k) as [->|] end;
    [first [by apply blames_ret|by apply blames_literal]|]).
  destruct (c =? 34); [apply blames_string|]. destruct (_ || digit c); [apply blames_number|].
  destruct (_ || _); blames_steps.
Qed.

(** A bad string or number is the text since its first character. *)
Lemma holds_string c x :
  post (fun l => next_unget l = false /\ current l = uchar c /\ rest l = x) scan_string (fun _ => holds_text (c :: x)) anything.
Proof. eapply post_bind; [apply holds_reset|]. intros ?. apply (keeps_string_body anything (holds_text (c :: x))). Qed.

Lemma holds_number c x :
  post (fun l => next_unget l = false /\ current l = uchar c /\ rest l = x) scan_number
    (fun t l => t = parse_error -> holds_text (c :: x) l) anything.
Proof.
  eapply post_bind; [apply holds_reset|]. intros ?. apply post_mget. intros d. apply post_mget. intros n. cbv zeta.
  assert (Hrun : forall label, post (fun l => (holds_text (c :: x) l /\ current l = d) /\ length (rest l) = n)
    (do* add d in
     let* r := while_ (S (S n)) (fun '(label, number_type) => scan_number_from label number_type) (label, value_unsigned) in
     match r with None => mret parse_error | Some number_type => do* unget in convert_number number_type end)
    (fun t l => t = parse_error -> holds_text (c :: x) l) anything).
  { intros label. eapply post_pre; [|by intros l [[? _] _]]. eapply post_bind; [apply (keeps_add anything (holds_text (c :: x)))|].
    intros ?. eapply post_bind; [apply (keeps_number_loop anything (holds_text (c :: x)))|]. intros [t|]; [|by apply post_ret].
    eapply post_weaken; [apply (blames_convert [])|done|]. intros t' l Hl Ht. by apply Hl, elem_of_nil in Ht. }
  destruct (d =? 45); [apply Hrun|]. destruct (d =? 48); [apply Hrun|]. destruct (between 49 57 d); [apply Hrun|by intros l].
Qed.

Lemma holds_token c x :
  (uchar c =? 34) || ((uchar c =? 45) || digit (uchar c)) = true ->
  post (fun l => next_unget l = false /\ current l = uchar c /\ rest l = x) (scan_token (uchar c))
    (fun t l => t = parse_error -> holds_text (c :: x) l) anything.
Proof.
  intros Hc. unfold scan_token.
  do 9 (match goal with |- post _ (if ?d =? ?k then _ else _) _ _ => destruct (Z.eqb_spec d k) as [E|?] end; [rewrite E in Hc; done|]).
  destruct (uchar c =? 34); [eapply post_weaken; [apply (holds_string c x)|done|by intros t l Hl _]|]. simpl in Hc. rewrite Hc. apply holds_number.
Qed.

(** ** The result of [scan] *)

(** The text [q] does not start with a token: after the blanks comes [p], whose
    first character tells the messages; for a string or a number, [last] is what
    was read of it, and [r] what was not. *)
Definition bad_token (q r message last : str) : Prop :=
  exists w p, q = w ++ p /\ forallb blank w = true /\ whitespace (head_code p) = false /\
    message ∈ token_messages (head_code p) /\
    (forall c p', p = c :: p' -> c = quote \/ number_start c -> p = last ++ r).

Lemma scan_rest_bad text l q b n l' :
  reads l q b n -> placed text l -> (let* c := skip_whitespace in scan_token c) l = Ret (parse_error, l') ->
  bad_token q (rest l') (error_message l') (token_string l').
Proof.
  intros Hl Hpl E.
  pose proof (wp_skip_whitespace l q b n (fun c l1 => exists w p, q = w ++ p /\ forallb blank w = true /\
    whitespace (head_code p) = false /\ c = head_code p /\ rest l1 = tl p /\ current l1 = c) Hl) as Hws.
  apply wp_run in Hws as (c & l1 & E1 & w & p & -> & Hw & Hp & -> & Hr & Hcur).
  2: { intros w p l1 -> Hw Hp Hl1 Hc. exists w, p. by rewrite (reads_rest _ _ _ _ Hl1). }
  unfold mbind_ in E. rewrite E1 in E. simpl in E.
  pose proof (post_whitespace text anything l Hpl) as Hj. rewrite E1 in Hj. destruct Hj as [(u & e & _ & Hu & _) _].
  pose proof (blames_token (head_code p) l1 I) as Hb. rewrite E in Hb. specialize (Hb eq_refl).
  exists w, p. split_and!; try done. intros d p' -> Hd. simpl in *.
  pose proof (holds_token d p') as Ht.
  assert (Hc : (uchar d =? 34) || ((uchar d =? 45) || digit (uchar d)) = true).
  { destruct Hd as [->|Hd]; [done|]. apply number_start_code in Hd. rewrite Hd. apply orb_true_r. }
  specialize (Ht Hc l1 ltac:(done)). rewrite E in Ht. by destruct (Ht eq_refl) as [_ ->].
Qed.
End bad_token.
