(* ===== verification/JsonDiagnostics.v ===== *)
(** * Where a JSON text is wrong, and what is said about it

    A syntax error tells a line, a column, what was expected and what was found.
    The reference is an automaton over the tokens of the grammar: the tokens read
    before the error say what may come next, and the next token of the text, or
    that there is none, says what was found.  The functions of the parser are
    followed with the calculus of [JsonPosition]. *)
From stdpp Require Import prelude strings list pretty.
From Stdlib Require Import Ascii ZArith Lia.
From S2P Require Import Prelude CxxLib CxxMap Json JsonFacts JsonLexer JsonParser JsonGrammar JsonWp JsonStrings JsonLexerFacts JsonDom JsonParserFacts JsonParse JsonPosition.

Local Open Scope Z_scope.
Local Open Scope json_scope.

(** ** Texts without NUL *)

Lemma digits_no_nul x s : no_nul (lit s) -> no_nul (lit (pretty_N_go x s)).
Proof.
  revert s. induction (N.lt_wf_0 x) as [x _ IH]. intros s Hs.
  destruct (decide (x = 0%N)) as [->|Hx]; [done|]. rewrite pretty_N_go_step by lia.
  apply IH; [apply N.div_lt; lia|]. simpl. rewrite Hs.
  by destruct (x mod 10)%N as [|[[[[]|[]|]|[[]|[]|]|]|[[[]|[]|]|[[]|[]|]|]|]].
Qed.

Lemma to_string_no_nul z : no_nul (to_string z).
Proof.
  unfold to_string, pretty, pretty_Z. destruct z as [|p|p]; [done|..].
  all: unfold pretty, pretty_positive, pretty, pretty_N; rewrite decide_False by done; simpl; by apply digits_no_nul.
Qed.

Lemma shown_no_nul s : no_nul (get_token_string s).
Proof.
  unfold get_token_string. induction s as [|c s IH]; [done|]. csimpl. rewrite none_app, IH, andb_true_r.
  byte_cases c; reflexivity.
Qed.

Lemma name_no_nul t : no_nul (token_type_name t).
Proof. by destruct t. Qed.

Create HintDb no_nul discriminated.
#[local] Hint Resolve to_string_no_nul shown_no_nul name_no_nul : no_nul.

(** ** What may come next *)

(** A value; a value or the end of an array after its bracket; a key or the end
    of an object after its bracket; a key; a colon; what follows a value. *)
Inductive want : Type := want_value | want_element | want_first_key | want_key | want_colon | want_more.

(** With the open containers, innermost first; an array is [true]. *)
Abbreviation situation := (want * list bool)%type.

Section automaton.
Context {F : Type} `{CFloat F}.

Definition accept_value (K : list bool) (tok : token F) : option situation :=
  match tok with
  | tk_null | tk_bool _ | tk_string _ | tk_unsigned _ | tk_integer _ => Some (want_more, K)
  | tk_float f => if isfinite f then Some (want_more, K) else None
  | tk_open_array => Some (want_element, true :: K)
  | tk_open_object => Some (want_first_key, false :: K)
  | _ => None
  end.

Definition accept (s : situation) (tok : token F) : option situation :=
  match s, tok with
  | (want_value, K), _ => accept_value K tok
  | (want_element, _ :: K), tk_close_array => Some (want_more, K)
  | (want_element, K), _ => accept_value K tok
  | (want_first_key, _ :: K), tk_close_object => Some (want_more, K)
  | (want_first_key, K), tk_string _ => Some (want_colon, K)
  | (want_key, K), tk_string _ => Some (want_colon, K)
  | (want_colon, K), tk_colon => Some (want_value, K)
  | (want_more, true :: K), tk_comma => Some (want_value, true :: K)
  | (want_more, true :: K), tk_close_array => Some (want_more, K)
  | (want_more, false :: K), tk_comma => Some (want_key, false :: K)
  | (want_more, false :: K), tk_close_object => Some (want_more, K)
  | _, _ => None
  end.

(** The situation after the tokens [ts], none of which was wrong. *)
Definition viable (ts : list (token F)) : option situation :=
  foldl (fun s t => s ≫= fun s => accept s t) (Some (want_value, [])) ts.

Lemma viable_snoc ts t s s' : viable ts = Some s -> accept s t = Some s' -> viable (ts ++ [t]) = Some s'.
Proof. unfold viable. intros E Ht. rewrite foldl_app, E. simpl. done. Qed.

(** The kind a token is reported as. *)
Definition token_kind (tok : token F) : token_type :=
  match tok with
  | tk_null => literal_null
  | tk_bool true => literal_true
  | tk_bool false => literal_false
  | tk_string _ => value_string
  | tk_unsigned _ => value_unsigned
  | tk_integer _ => value_integer
  | tk_float _ => value_float
  | tk_open_array => begin_array
  | tk_close_array => end_array
  | tk_open_object => begin_object
  | tk_close_object => end_object
  | tk_colon => name_separator
  | tk_comma => value_separator
  end.

Lemma shows_kind tok t (l : lexer F) : shows tok t l -> t = token_kind tok.
Proof. destruct tok as [|[]| | | | | | | | | |]; simpl; naive_solver. Qed.

End automaton.

(** What is said to be expected, and in what. *)
Definition demand (s : situation) (t : token_type) : token_type * str :=
  match s with
  | (want_value, _) | (want_element, _) =>
      if bool_decide (t = parse_error) then (uninitialized, lit "value") else (literal_or_value, lit "value")
  | (want_first_key, _) | (want_key, _) => (value_string, lit "object key")
  | (want_colon, _) => (name_separator, lit "object separator")
  | (want_more, []) => (end_of_input, lit "value")
  | (want_more, true :: _) => (end_array, lit "array")
  | (want_more, false :: _) => (end_object, lit "object")
  end.

(** ** The parser *)

Section parser.
Context {F : Type} `{CFloat F} (text : str).

Abbreviation D := (json_sax_dom_parser F).
Abbreviation P := (parser F D).

#[local] Instance throwing : SAX F D := dom_sax true.

(** What [scan] finds in front of [q]. *)
Definition scanned (q : str) (t : token_type) (l : lexer F) : Prop :=
  placed_token text t l /\
  ((exists tok q', lexes q tok q' /\ shows tok t l /\ at_text text l q') \/
   (t = end_of_input /\ ends q) \/
   (t = parse_error /\ (forall tok q', ~ lexes (F := F) q tok q') /\ ~ ends q /\
    bad_token q (rest l) (error_message l) (token_string l))).

Lemma scan_rest_scanned l q b n t l' :
  reads l q b n -> 0 <= n -> n + str_size q = str_size text -> placed text l ->
  (let* c := skip_whitespace in scan_token c) l = Ret (t, l') -> placed_token text t l' -> scanned q t l'.
Proof.
  intros Hl Hn Hq Hp E Ht. split; [done|].
  pose proof (scan_rest_bad text l q b n l' Hl Hp) as Hbad.
  assert (Hw : wp (let* c := skip_whitespace in scan_token c) l (fun t l' =>
    (exists tok q', lexes q tok q' /\ shows tok t l' /\ at_text text l' q') \/ (t = end_of_input /\ ends q) \/
    (t = parse_error /\ (forall tok q', ~ lexes (F := F) q tok q') /\ ~ ends q))).
  { eapply wp_scan_rest; [exact Hl|]. split_and!.
    - intros tok q' t' l2 Hlex Hsh (b' & k & Hl2 & Hk). left. exists tok, q'. split; [done|]. split; [done|].
      exists b', k. split; [done|]. apply lexes_shorter in Hlex. unfold str_size in *. lia.
    - intros l2 He _. right. by left.
    - intros l2 Hno He _. right. by right. }
  unfold wp in Hw. rewrite E in Hw. destruct Hw as [Hw|[Hw|(-> & Hno & He)]]; [by left|right; by left|right; right].
  split_and!; try done. by apply Hbad.
Qed.

Lemma scan_scanned l q t l' : at_text text l q -> placed text l -> scan l = Ret (t, l') -> scanned q t l'.
Proof.
  intros (b & n & Hl & Hn & Hq) Hp E. pose proof (post_scan text (fun _ => True) l Hp) as Ht. rewrite E in Ht.
  unfold scan, mbind_ at 1, mget in E. simpl in E. rewrite (reads_total _ _ _ _ Hl), (proj2 (Z.eqb_neq n 0)) in E by lia.
  simpl in E. eapply scan_rest_scanned; [done|lia|done|done|exact E|done].
Qed.

(** The tokens [ts] were accepted and [t] is what comes after them; or the text
    starts with a wrong byte order mark. *)
Definition seen (ts : list (token F)) (t : token_type) (l : lexer F) : Prop :=
  (exists q, consumed text ts q /\ scanned q t l) \/
  (ts = [] /\ (forall q, ~ after_bom text q) /\ t = parse_error /\ error_message l = bom_message /\ placed_token text t l).

Definition before_token (s : situation) (p : P) : Prop :=
  exists ts q, consumed text ts q /\ viable ts = Some s /\ at_text text (m_lexer p) q /\ placed text (m_lexer p).

Definition looked (s : situation) (p : P) : Prop :=
  exists ts, viable ts = Some s /\ seen ts (last_token p) (m_lexer p).

(** A syntax error is made where the token seen is not accepted, and says what
    the situation demands. *)
Definition rejects (s : situation) (t : token_type) (l : lexer F) : Prop :=
  (forall tok : token F, shows tok t l -> accept s tok = None) /\ (t = end_of_input -> s <> (want_more, [])).

Definition reported (e : json_exception) : Prop :=
  match e with
  | json_parse_error _ _ _ => exists ts s t (l : lexer F), viable ts = Some s /\ seen ts t l /\ rejects s t l /\
      e = parse_error_create 101 (position l) (exception_message t l (demand s t).1 (demand s t).2)
  | _ => True
  end.

Lemma post_get_token s : post (before_token s) get_token (fun t p => looked s p /\ last_token p = t) reported.
Proof.
  intros p (ts & q & Hts & Hv & Hl & Hp). unfold get_token.
  pose proof (post_scan text reported (m_lexer p) Hp) as Hs. destruct (scan (m_lexer p)) as [[t l]|e|] eqn:E; simpl; [|done|done].
  split; [|done]. exists ts. split; [done|]. left. exists q. split; [done|]. by eapply scan_scanned.
Qed.

(** Going past a token that is accepted. *)
Lemma looked_ready s s' p :
  looked s p -> last_token p <> end_of_input -> last_token p <> parse_error ->
  (forall tok : token F, shows tok (last_token p) (m_lexer p) -> accept s tok = Some s') -> before_token s' p.
Proof.
  intros (ts & Hv & [(q & Hts & (Hpl & _) & Hq)|(_ & _ & ? & _)]) Hend Herr Hacc; [|done].
  destruct Hq as [(tok & q' & Hlex & Hsh & Hl)|[[? _]|[? _]]]; [|done|done].
  exists (ts ++ [tok]), q'. split; [by eapply consumed_snoc|]. split; [eapply viable_snoc; [done|by apply Hacc]|done].
Qed.

(** *** Errors *)

Lemma post_syntax_error {s t} expected context (Q : bool -> P -> Prop) :
  demand s t = (expected, context) -> (forall l, rejects s t l) ->
  post (fun p => looked s p /\ last_token p = t) (syntax_error expected context) Q reported.
Proof.
  intros Hd Hr p [(ts & Hv & Hs) <-]. exists ts, s, (last_token p), (m_lexer p). rewrite Hd. done.
Qed.

Lemma post_fail {s t} expected context (Q : flow -> P -> Prop) :
  demand s t = (expected, context) -> (forall l, rejects s t l) ->
  post (fun p => looked s p /\ last_token p = t) (fail expected context) Q reported.
Proof. intros Hd Hr. eapply post_bind; [by apply (post_syntax_error _ _ (fun _ _ => False))|]. by intros b p. Qed.

(** The handler goes on, and throws only the errors it is given. *)
Definition affirms (m : M D bool) : Prop :=
  forall d, match m d with Ret (b, _) => b = true | Throw _ => False | Undef => True end.

Lemma affirms_do {A} (m : M D A) : (forall d, match m d with Throw _ => False | _ => True end) -> affirms (do* m in mret true).
Proof. intros Hm d. specialize (Hm d). unfold mbind_. by destruct (m d) as [[a d']|e|]. Qed.

Lemma handle_value_quiet (v : json F) d : match handle_value v d with Throw _ => False | _ => True end.
Proof. unfold handle_value. repeat case_match; simplify_eq; done. Qed.

Lemma affirms_scalar (v : json F) : affirms (handle_scalar v).
Proof. apply affirms_do, handle_value_quiet. Qed.

Lemma affirms_start (v : json F) : affirms (start_container v).
Proof.
  intros d. unfold start_container, mbind_. pose proof (handle_value_quiet v d) as Hv.
  by destruct (handle_value v d) as [[a d']|e|].
Qed.

Lemma affirms_end : affirms end_container.
Proof. intros d. unfold end_container. by destruct (ref_stack d). Qed.

Lemma affirms_key k : affirms (dom_key k).
Proof. intros d. unfold dom_key. repeat case_match; simplify_eq; done. Qed.

(** What a handler does not touch. *)
Definition unsaxed (R : P -> Prop) : Prop := forall p d, R p -> R (mk_parser (m_lexer p) (last_token p) d).

Lemma post_unless (R : P -> Prop) m k (Q : flow -> P -> Prop) :
  affirms m -> unsaxed R -> post R k Q reported -> post R (unless m k) Q reported.
Proof.
  intros Hm HR Hk p Hp. specialize (Hm (sax p)). unfold unless, mbind_, on_sax.
  destruct (m (sax p)) as [[b d]|e|]; simpl; [|done|done]. rewrite Hm. apply Hk. by apply HR.
Qed.

Lemma unsaxed_ready s : unsaxed (before_token s).
Proof. by intros p d Hp. Qed.

Lemma unsaxed_looked s t : unsaxed (fun p => looked s p /\ last_token p = t).
Proof. by intros p d Hp. Qed.

(** *** The functions of the parser *)

(** A value comes next, or what stands in its place. *)
Definition at_value (K : list bool) (p : P) : Prop :=
  exists w, (w = want_value \/ w = want_element /\ last_token p <> end_array) /\ looked (w, K) p.

Lemma accept_kind {s s'} t :
  (forall tok : token F, token_kind tok = t -> accept s tok = Some s') -> t <> end_of_input -> t <> parse_error ->
  forall p, looked s p /\ last_token p = t -> before_token s' p.
Proof.
  intros Hacc H1 H2 p [Hp <-]. apply (looked_ready s); [done..|]. intros tok Hsh. apply Hacc. by apply shows_kind in Hsh.
Qed.

Lemma reject_kind {s : situation} t :
  (forall tok : token F, token_kind tok = t -> accept s tok = None) -> (t = end_of_input -> s <> (want_more, [])) ->
  forall l, rejects s t l.
Proof. intros Hacc He l. split; [|done]. intros tok Hsh. apply Hacc. by apply shows_kind in Hsh. Qed.

(** Every token of a kind. *)
Ltac tokens := intros [|[]| | | | | | | | | |]; simpl; intros; congruence.

Lemma post_then_token {A} s (k : token_type -> M P A) (Q : A -> P -> Prop) :
  (forall t, post (fun p => looked s p /\ last_token p = t) (k t) Q reported) -> post (before_token s) (mbind_ get_token k) Q reported.
Proof. intros Hk. eapply post_bind; [apply post_get_token|exact Hk]. Qed.

Lemma post_read_key K :
  post (before_token (want_colon, false :: K)) (read_key (false :: K))
    (fun f p => f = Continue (false :: K) /\ at_value (false :: K) p) reported.
Proof.
  apply post_mget. intros k. eapply post_pre; [|by intros p [? _]]. apply post_unless; [apply affirms_key|apply unsaxed_ready|].
  apply post_then_token. intros t. case_bool_decide as Et; simpl.
  - subst t. eapply post_pre; [|apply (accept_kind name_separator (s' := (want_value, false :: K))); [tokens|done|done]].
    eapply post_bind; [apply post_get_token|]. intros t. apply post_ret. intros p [Hp _]. split; [done|]. exists want_value. auto.
  - apply post_fail; [done|]. apply reject_kind; [tokens|done].
Qed.

(** Where [read_value] leads. *)
Definition value_follows (K : list bool) (f : flow) (p : P) : Prop :=
  match f with
  | Continue K' => at_value K' p
  | Break => before_token (want_more, K) p
  | Return _ => False
  end.

Lemma post_scalar K {s t} (v : json F) :
  (forall p, looked s p /\ last_token p = t -> before_token (want_more, K) p) ->
  post (fun p => looked s p /\ last_token p = t) (unless (handle_scalar v) (mret Break)) (value_follows K) reported.
Proof. intros Hs. apply post_unless; [apply affirms_scalar|apply unsaxed_looked|]. by apply post_ret. Qed.

Lemma post_begin_array K :
  post (before_token (want_element, true :: K))
    (unless sax_start_array
       (let* t := get_token in
        if bool_decide (t = end_array) then unless sax_end_array (mret Break) else mret (Continue (true :: K))))
    (value_follows K) reported.
Proof.
  apply post_unless; [apply affirms_start|apply unsaxed_ready|]. apply post_then_token. intros t. case_bool_decide as Et.
  - subst t. apply post_unless; [apply affirms_end|apply unsaxed_looked|]. apply post_ret.
    apply (accept_kind end_array); [tokens|done|done].
  - apply post_ret. intros p [Hp <-]. exists want_element. auto.
Qed.

Lemma post_begin_object K :
  post (before_token (want_first_key, false :: K))
    (unless sax_start_object
       (let* t := get_token in
        if bool_decide (t = end_object) then unless sax_end_object (mret Break)
        else if negb (bool_decide (t = value_string)) then fail value_string (lit "object key")
        else read_key (false :: K)))
    (value_follows K) reported.
Proof.
  apply post_unless; [apply affirms_start|apply unsaxed_ready|]. apply post_then_token. intros t. case_bool_decide as Et.
  { subst t. apply post_unless; [apply affirms_end|apply unsaxed_looked|]. apply post_ret.
    apply (accept_kind end_object); [tokens|done|done]. }
  case_bool_decide as Es; simpl.
  - subst t. eapply post_weaken; [apply (post_read_key K)|apply (accept_kind value_string); [tokens|done|done]|].
    by intros f p [-> Hp].
  - apply post_fail; [done|]. apply reject_kind; [tokens|done].
Qed.

(** The value read by a token of the situation [want_value]; after the bracket of
    an array it is the same, but for the closing bracket. *)
Lemma accept_element (w : want) K (tok : token F) :
  w = want_value \/ w = want_element /\ tok <> tk_close_array -> accept (w, K) tok = accept_value K tok.
Proof. intros [->|[-> Ht]]; [done|]. destruct K, tok; done. Qed.

Lemma post_read_value K : post (at_value K) (read_value K) (value_follows K) reported.
Proof.
  apply post_mget. intros t.
  eapply (post_pre _ (fun p => exists w, (w = want_value \/ w = want_element /\ t <> end_array) /\ (looked (w, K) p /\ last_token p = t))).
  2: { intros p [(w & Hw & Hp) <-]. by exists w. }
  apply post_exists. intros w Hw.
  assert (Hacc : forall s', t <> end_of_input -> t <> parse_error ->
    (forall tok : token F, token_kind tok = t -> accept_value K tok = Some s') ->
    forall p, looked (w, K) p /\ last_token p = t -> before_token s' p).
  { intros s' H1 H2 Ha. apply accept_kind; [|done|done]. intros tok Ht. rewrite accept_element; [by apply Ha|].
    destruct Hw as [->|[-> Hne]]; [by left|right]. split; [done|]. intros ->. by subst t. }
  assert (Hrej : (forall tok : token F, token_kind tok = t -> accept_value K tok = None) -> forall l, rejects (w, K) t l).
  { intros Ha. apply reject_kind; [|by destruct Hw as [->|[-> _]]]. intros tok Ht. rewrite accept_element; [by apply Ha|].
    destruct Hw as [->|[-> Hne]]; [by left|right]. split; [done|]. intros ->. by subst t. }
  assert (Hd : demand (w, K) t = if bool_decide (t = parse_error) then (uninitialized, lit "value") else (literal_or_value, lit "value"))
    by by destruct Hw as [->|[-> _]].
  destruct t; try (apply post_fail; [exact Hd|apply Hrej; tokens]).
  - apply post_scalar, Hacc; [done|done|tokens].
  - apply post_scalar, Hacc; [done|done|tokens].
  - apply post_scalar, Hacc; [done|done|tokens].
  - apply post_mget. intros x. eapply post_pre; [apply post_scalar, Hacc; [done|done|tokens]|by intros p [? _]].
  - apply post_mget. intros x. eapply post_pre; [apply post_scalar, Hacc; [done|done|tokens]|by intros p [? _]].
  - apply post_mget. intros x. eapply post_pre; [apply post_scalar, Hacc; [done|done|tokens]|by intros p [? _]].
  - apply post_mget. intros f. destruct (isfinite f) eqn:Ef; simpl.
    + apply post_unless; [apply affirms_scalar|by intros p d Hp|]. apply post_ret. intros p [[Hp Ht] Hf].
      destruct Hw as [->|[-> _]]; (apply (looked_ready _ _ _ Hp); [by rewrite Ht..|]); intros tok Hsh; rewrite Ht in Hsh;
        destruct tok as [|[]| | | | | | | | | |]; simpl in Hsh; destruct_and?; try congruence; destruct K; simpl; simplify_eq/=;
        congruence || by rewrite Ef.
    + by intros p Hp.
  - eapply post_pre; [apply post_begin_array|apply Hacc; [done|done|tokens]].
  - eapply post_pre; [apply post_begin_object|apply Hacc; [done|done|tokens]].
Qed.

(** Where a turn of the loop leads. *)
Definition turn_follows (r : (list bool * bool) + bool) (p : P) : Prop :=
  match r with
  | inl (K, skip) => if skip then before_token (want_more, K) p else at_value K p
  | inr b => before_token (want_more, []) p
  end.

Lemma post_next_value {A} s (a : A) (Q : A -> P -> Prop) K :
  s = (want_value, K) -> (forall p, at_value K p -> Q a p) -> post (before_token s) (do* get_token in mret a) Q reported.
Proof.
  intros -> HQ. eapply post_bind; [apply post_get_token|]. intros t. apply post_ret. intros p [Hp _]. apply HQ.
  exists want_value. auto.
Qed.

Lemma post_close {A} s K t (k : bool -> M P A) (Q : A -> P -> Prop) :
  (forall p, looked s p /\ last_token p = t -> before_token (want_more, K) p) ->
  post (before_token (want_more, K)) (k true) Q reported ->
  post (fun p => looked s p /\ last_token p = t) (let* ok := on_sax end_container in k ok) Q reported.
Proof.
  intros Hs Hk p Hp. apply Hs in Hp. pose proof (affirms_end (sax p)) as He. unfold mbind_, on_sax.
  destruct (end_container (sax p)) as [[b d]|e|]; simpl; [|done|done]. rewrite He. by apply Hk.
Qed.

Lemma post_evaluate K : post (before_token (want_more, K)) (evaluate K) turn_follows reported.
Proof.
  destruct K as [|[] K]; simpl; [by apply post_ret|..]; apply post_then_token; intros t; case_bool_decide as Ec;
    [subst t|case_bool_decide as Ee; [subst t|]|subst t|case_bool_decide as Ee; [subst t|]].
  - eapply post_pre; [by apply (post_next_value (want_value, true :: K) _ _ (true :: K))|].
    apply (accept_kind value_separator); [tokens|done|done].
  - apply (post_close _ K); [apply (accept_kind end_array); [tokens|done|done]|]. by apply post_ret.
  - eapply post_bind; [apply (post_syntax_error _ _ (fun _ _ => False)); [done|]|by intros b p].
    apply reject_kind; [tokens|done].
  - eapply post_pre; [|apply (accept_kind (s' := (want_key, false :: K)) value_separator); [tokens|done|done]].
    apply post_then_token. intros t. case_bool_decide as Es; simpl.
    + subst t. eapply post_bind; [eapply post_pre; [apply post_read_key|apply (accept_kind value_string); [tokens|done|done]]|].
      intros f. apply post_ret. by intros p [-> Hp].
    + eapply post_bind; [apply (post_fail _ _ (fun _ _ => False)); [done|]|by intros f p]. apply reject_kind; [tokens|done].
  - apply (post_close _ K); [apply (accept_kind end_object); [tokens|done|done]|]. by apply post_ret.
  - eapply post_bind; [apply (post_syntax_error _ _ (fun _ _ => False)); [done|]|by intros b p].
    apply reject_kind; [tokens|done].
Qed.

Lemma post_turn x : post (turn_follows (inl x)) (sax_turn x) turn_follows reported.
Proof.
  destruct x as [K []]; simpl; [apply post_evaluate|]. eapply post_bind; [apply post_read_value|].
  intros [K'| |b]; [by apply post_ret|apply post_evaluate|by intros p].
Qed.

Lemma post_loop : post (at_value []) sax_parse_internal (fun _ => before_token (want_more, [])) reported.
Proof.
  apply post_mget. intros n. eapply post_pre; [|by intros p [? _]].
  apply (post_while reported (fun x => turn_follows (inl x)) sax_turn (n + 2) ([], false)).
  intros x. eapply post_weaken; [apply post_turn|done|]. by intros [x'|b] p Hp.
Qed.

Lemma post_finish : post (before_token (want_more, []))
  (let* t := get_token in if negb (bool_decide (t = end_of_input)) then syntax_error end_of_input (lit "value") else mret true)
  (fun _ _ => True) reported.
Proof.
  apply post_then_token. intros t. case_bool_decide as Et; simpl; [by apply post_ret|].
  apply post_syntax_error; [done|]. apply reject_kind; [tokens|done].
Qed.

(** *** The first token *)

(** A byte order mark is read, or there is none, or it is wrong. *)
Lemma wp_skip_bom (l : lexer F) b : reads l text b 0 ->
  wp skip_bom l (fun ok l1 => if ok then exists q n, after_bom text q /\ reads l1 q b n /\ 0 <= n /\ n + str_size q = str_size text
                              else forall q, ~ after_bom text q).
Proof.
  intros Hl. apply wp_bind. eapply wp_get; [done|]. intros l1 Hl1 Hc1 Hu1. destruct (Z.eqb_spec (head_code text) 0xEF) as [E|Hne].
  2: { apply wp_bind. eapply wp_unget; [done..|]. intros l2 Hl2. apply wp_ret. exists text, 0. split_and!; try done.
       right. split; [done|]. by intros c p' ->. }
  destruct text as [|c1 text1] eqn:Etext; [done|]. simpl in E. apply char_code in E as ->. cbn [tl] in Hl1.
  assert (Hno : forall p, after_bom (char_of_Z 0xEF :: text1) p -> text1 = map char_of_Z [187; 191] ++ p).
  { intros p [E|[E Hp]]; [by injection E|]. exfalso. by apply (Hp _ _ (eq_sym E)). }
  apply wp_bind. eapply wp_get; [done|]. intros l2 Hl2 _ _. destruct (Z.eqb_spec (head_code text1) 0xBB) as [E|Hne].
  2: { apply wp_ret. intros q Hq. apply Hno in Hq. subst text1. done. }
  destruct text1 as [|c2 text2]; [done|]. simpl in E. apply char_code in E as ->. cbn [tl] in Hl2.
  apply wp_bind. eapply wp_get; [done|]. intros l3 Hl3 _ _. apply wp_ret. destruct (Z.eqb_spec (head_code text2) 0xBF) as [E|Hne].
  2: { intros q Hq. apply Hno in Hq. injection Hq as ->. done. }
  destruct text2 as [|c3 text3]; [done|]. simpl in E. apply char_code in E as ->. cbn [tl] in Hl3.
  exists text3, 3. split_and!; [by left|done|done|]. rewrite !str_size_cons. lia.
Qed.

Lemma first_seen t (l : lexer F) : scan (new_lexer text) = Ret (t, l) -> seen [] t l.
Proof.
  intros E. assert (Hl : reads (new_lexer text : lexer F) text [] 0) by (split; [done..|split; [done|by left]]).
  pose proof (post_scan text (fun _ => True) _ (placed_new text)) as Ht. rewrite E in Ht.
  pose proof (wp_skip_bom _ _ Hl) as Hb. pose proof (post_bom text (fun _ => True) _ (placed_new text)) as Hp.
  unfold scan, mbind_ at 1, mget in E. simpl in E. unfold mbind_ at 1 in E. unfold wp in Hb.
  destruct (skip_bom (new_lexer text)) as [[ok l1]|e|]; simpl in E; [|done|done]. destruct ok; simpl in E.
  - destruct Hb as (q & n & Hq & Hl1 & Hn & Hsz). left. exists q. split; [by exists q; split; [|constructor]|].
    destruct Hp as [Hp _]. by eapply scan_rest_scanned.
  - right. injection E as <- <-. done.
Qed.

(** Every error of [json::parse] was reported. *)
Lemma parse_reports e : parse (F := F) true text = Throw e -> reported e.
Proof.
  unfold parse, new_parser. unfold get_token at 1. simpl. intros E.
  pose proof (post_scan text reported _ (placed_new text)) as Hs.
  destruct (scan (new_lexer text)) as [[t l]|e1|] eqn:Es; simpl in *; [|by injection E as <-|done].
  assert (Hv : at_value [] (mk_parser l t (mk_dom Null [] None false))).
  { exists want_value. split; [by left|]. exists []. split; [done|]. by apply first_seen. }
  pose proof (post_loop _ Hv) as Hl. destruct (sax_parse_internal _) as [[b p1]|e1|]; simpl in *; [|by injection E as <-|done].
  pose proof (post_finish p1 Hl) as Hf. unfold mbind_ in Hf.
  destruct (get_token p1) as [[t2 p2]|e1|]; simpl in *; [|by injection E as <-|done].
  destruct (negb _); simpl in *; [|done]. by injection E as <-.
Qed.

(** *** The text of an error *)

Lemma demand_context s t : no_nul (demand s t).2 /\ (demand s t).2 <> [].
Proof. destruct s as [[] [|[] K]]; simpl; try done; by case_bool_decide. Qed.

Lemma message_no_nul t (l : lexer F) expected context :
  no_nul (error_message l) -> no_nul context -> no_nul (exception_message t l expected context).
Proof.
  intros Hl Hc. unfold exception_message. rewrite !none_app. repeat case_match; rewrite ?none_app, ?Hl, ?Hc; simpl;
    rewrite ?shown_no_nul, ?name_no_nul; done.
Qed.

(** The text of a syntax error: where it is, what was being parsed, what was found
    and what is expected. *)
Definition report (line column : Z) (expected : token_type) (context found : str) : str :=
  lit "[json.exception.parse_error.101] parse error at line " ++ to_string line ++ lit ", column " ++ to_string column ++
  lit ": syntax error while parsing " ++ context ++ lit " - " ++ found ++
  (if bool_decide (expected = uninitialized) then [] else lit "; expected " ++ token_type_name expected).

(** [parse_error::create] with the parts of its text. *)
Lemma created_text pos t (l : lexer F) expected context :
  no_nul (error_message l) -> no_nul context -> context <> [] ->
  parse_error_create 101 pos (exception_message t l expected context) =
  json_parse_error 101 pos (report (lines_read pos + 1) (chars_read_current_line pos) expected context
    (if bool_decide (t = parse_error) then error_message l ++ lit "; last read: '" ++ get_token_string (token_string l) ++ lit "'"
     else lit "unexpected " ++ token_type_name t)).
Proof.
  intros Hl Hc Hne. unfold parse_error_create.
  assert (Hn : exception_name (lit "parse_error") 101 = lit "[json.exception.parse_error.101] ") by reflexivity.
  rewrite Hn, c_str_id.
  - unfold report, position_string, exception_message. destruct context as [|c context]; [done|]. cbn [length Nat.eqb].
    rewrite <- !app_assoc. reflexivity.
  - unfold position_string. rewrite !none_app, !to_string_no_nul, message_no_nul by done. reflexivity.
Qed.

(** What was found after the tokens [ts], which led to [s]: a token that [s] does
    not accept, after which [r] follows; the end of the text, where [s] is not the
    end; no token, with a message for what stands there; or a wrong byte order mark. *)
Inductive found (ts : list (token F)) (s : situation) (r : str) (e : nat) (message last : str) : token_type -> Prop :=
| found_token q tok :
    consumed text ts q -> lexes q tok r -> e = 0%nat -> accept s tok = None -> found ts s r e message last (token_kind tok)
| found_end q : consumed text ts q -> ends q -> s <> (want_more, []) -> found ts s r e message last end_of_input
| found_bad q :
    consumed text ts q -> (forall tok q', ~ lexes (F := F) q tok q') -> ~ ends q -> bad_token q r message last ->
    found ts s r e message last parse_error
| found_bom : ts = [] -> (forall q, ~ after_bom text q) -> message = bom_message -> found ts s r e message last parse_error.

Lemma seen_placed ts t (l : lexer F) : seen ts t l -> placed_token text t l.
Proof. by intros [(q & _ & Hp & _)|(_ & _ & _ & _ & Hp)]. Qed.

Lemma seen_found ts s t (l : lexer F) u e :
  seen ts t l -> rejects s t l -> placed_at text l u e -> found ts s (rest l) e (error_message l) (token_string l) t.
Proof.
  intros Hs [Hrej Hend] Hp. destruct Hs as [(q & Hts & _ & [(tok & q' & Hlex & Hsh & Hl)|[[-> He]|(-> & Hno & He & Hb)]])|(-> & Hno & -> & Hm & _)].
  - rewrite (shows_kind tok t l Hsh). rewrite <- (at_text_rest _ _ _ Hl) in Hlex. eapply found_token; [done|done| |by apply Hrej].
    destruct Hl as (b & n & Hl & Hn & Hq). pose proof (pl_total _ _ _ _ Hp) as Ht. rewrite (reads_total _ _ _ _ Hl) in Ht.
    pose proof (pl_text _ _ _ _ Hp) as Ex. rewrite (reads_rest _ _ _ _ Hl) in Ex. rewrite Ex, str_size_app in Hq. lia.
  - eapply found_end; [done|done|by apply Hend].
  - by eapply found_bad.
  - by apply found_bom.
Qed.

End parser.

(** A number where a comma or a bracket is due, in front of a line break: an
    instance of the diagnostics. *)
#[local] Instance words : CFloat str := {|
  strtod s := s; isfinite _ := true; float_zero := []; get_decimal_point := "."%char |}.

