(* ===== verification/Json2Sql.v ===== *)
(** * db/json2sql.cpp and db/json2sql.h: SQL text from JSON values

    Each builder is one definition that follows its function: the early return
    on an empty value, the decremented end iterator (undefined on an empty
    container), the loops that put a separator after every entry but the last,
    and the exceptions of the JSON library on values that are no objects. *)
From stdpp Require Import prelude strings.
From Stdlib Require Import Ascii ZArith Lia.
From S2P Require Import Prelude CxxLib CxxMap Json.

Local Open Scope Z_scope.
Local Open Scope cxx_scope.

(** ** Loops and string helpers *)

(** The loop [for (it = begin; it != end; ++it) { emit; if (it != last) sep }]. *)
Fixpoint separated {E A} (emit : A -> outcome E str) (sep : str) (l : list A) : outcome E str :=
  match l with
  | [] => Ret []
  | x :: l' =>
      let! text := emit x in
      match l' with
      | [] => Ret text
      | _ :: _ => let! rest := separated emit sep l' in Ret (text ++ sep ++ rest)
      end
  end.

(** [s[0] = a; s[s.size() - 1] = b]. *)
Definition replace_ends {E} (a b : ascii) (s : str) : outcome E str :=
  match s with
  | [] => Undef
  | _ :: _ => Ret (<[pred (length s) := b]> (<[0%nat := a]> s))
  end.

(** [--end()] of a standard container. *)
Definition before_end_list {E A} (l : list A) : outcome E unit :=
  match l with
  | [] => Undef
  | _ :: _ => Ret tt
  end.

(** [boost::split(arr, str, is_any_of(" ,"), token_compress_on)]: [cur] is the
    token read so far, [in_run] that a run of separators was just read. *)
Definition is_separator (c : ascii) : bool := Ascii.eqb c " " || Ascii.eqb c ",".

Fixpoint split_compress (cur : str) (in_run : bool) (s : str) : list str :=
  match s with
  | [] => [cur]
  | c :: s' =>
      if is_separator c then
        if in_run then split_compress [] true s' else cur :: split_compress [] true s'
      else split_compress (cur ++ [c]) false s'
  end.

(** [boost::join]. *)
Fixpoint join (sep : str) (l : list str) : str :=
  match l with
  | [] => []
  | [s] => s
  | s :: l' => s ++ sep ++ join sep l'
  end.

Section sql.
Context {F : Type} (dump_float : F -> str).
Abbreviation json := (json F).
Abbreviation result := (outcome json_exception str).

Definition quoted (s : str) : str := lit "'" ++ s ++ lit "'".

Definition value_to_sql_str (value : json) : result :=
  match value with
  | Null => Ret (lit "null")
  | NumberInteger _ | NumberUnsigned _ | NumberFloat _ | Boolean _ => dump dump_float value
  | String_ s => Ret (quoted s)
  | Array _ =>
      let! tmp := dump dump_float value in
      let! tmp' := replace_ends "{" "}" tmp in
      Ret (quoted tmp')
  | Object _ => let! text := dump dump_float value in Ret (quoted text)
  | Discarded => dump dump_float value
  end.

Definition arr_to_sql_in_arr (array : json) : result :=
  let! text := dump dump_float array in
  let! text' := replace_ends "(" ")" text in
  Ret (map (fun c => if Ascii.eqb c quote then "'"%char else c) text').

Definition comma_arr_to_sql_in_arr (s : str) (is_text : bool) : str :=
  let arr := split_compress [] false s in
  let arr' := if is_text then map quoted arr else arr in
  lit "(" ++ join (lit ",") arr' ++ lit ")".

(** ** The pieces the statements share *)

(** The assignments of an update: [key=value,...]. *)
Definition assignments (obj : json) : result :=
  let! _ := before_end obj in
  let! entries := json_entries obj in
  separated (fun e => let! v := value_to_sql_str e.2 in Ret (e.1 ++ lit "=" ++ v)) (lit ",") entries.

(** [insert into tbl(key,...) values(value,...], without the closing parenthesis. *)
Definition insert_head (obj : json) (tbl_name : str) : result :=
  let! _ := before_end obj in
  let! entries := json_entries obj in
  let! keys := separated (fun e => Ret e.1) (lit ",") entries in
  let! values := separated (fun e => value_to_sql_str e.2) (lit ",") entries in
  Ret (lit "insert into " ++ tbl_name ++ lit "(" ++ keys ++ lit ") values(" ++ values).

(** The copy of the object without [except_key], and its [key=EXCLUDED.key,...]. *)
Definition excluded_assignments (obj : json) (except_key : str) : result :=
  let! obj_cp := json_erase obj except_key in
  let! _ := before_end obj_cp in
  let! entries := json_entries obj_cp in
  separated (fun e => Ret (e.1 ++ lit "=EXCLUDED." ++ e.1)) (lit ",") entries.

(** The list of the conflict columns. *)
Definition key_list (key_wheres : list str) : result :=
  let! _ := before_end_list key_wheres in
  separated Ret (lit ",") key_wheres.

(** ** update *)

Definition obj_to_update_sql_str (obj : json) (key_where value_where tbl_name : str) : result :=
  if json_empty obj then Ret []
  else
    let! sets := assignments obj in
    Ret (lit "update " ++ tbl_name ++ lit " set " ++ sets ++ lit " where " ++ key_where ++ lit "='" ++
         value_where ++ lit "'").

(** The conditions are a [std::map<string, string>]. *)
Definition obj_to_update_sql_str_map (obj : json) (key_value_wheres : list (str * str)) (tbl_name : str) :
    result :=
  if json_empty obj then Ret []
  else
    let! sets := assignments obj in
    let! _ := before_end_list key_value_wheres in
    let! wheres := separated (fun e => Ret (e.1 ++ lit "='" ++ e.2 ++ lit "'")) (lit " and ") key_value_wheres in
    Ret (lit "update " ++ tbl_name ++ lit " set " ++ sets ++ lit " where " ++ wheres).

(** The conditions are a JSON value. *)
Definition obj_to_update_sql_str_json (obj key_value_wheres : json) (tbl_name : str) : result :=
  if json_empty obj then Ret []
  else
    let! sets := assignments obj in
    let! _ := before_end key_value_wheres in
    let! entries := json_entries key_value_wheres in
    let! wheres := separated (fun e => let! v := value_to_sql_str e.2 in Ret (e.1 ++ lit "=" ++ v))
      (lit " and ") entries in
    Ret (lit "update " ++ tbl_name ++ lit " set " ++ sets ++ lit " where " ++ wheres).

(** ** insert and upsert *)

Definition obj_to_insert_sql_str (obj : json) (tbl_name : str) : result :=
  if json_empty obj then Ret []
  else let! head := insert_head obj tbl_name in Ret (head ++ lit ")").

Definition obj_to_upsert_update_sql_str2 (obj : json) (key_where1 key_where2 except_key tbl_name : str) :
    result :=
  if json_empty obj then Ret []
  else
    let! head := insert_head obj tbl_name in
    let! sets := excluded_assignments obj except_key in
    Ret (head ++ lit ") on conflict(" ++ key_where1 ++ lit "," ++ key_where2 ++ lit ") do update  set " ++ sets).

Definition obj_to_upsert_update_sql_str3 (obj : json)
    (key_where1 key_where2 key_where3 except_key tbl_name : str) : result :=
  if json_empty obj then Ret []
  else
    let! head := insert_head obj tbl_name in
    let! sets := excluded_assignments obj except_key in
    Ret (head ++ lit ") on conflict(" ++ key_where1 ++ lit "," ++ key_where2 ++ lit "," ++ key_where3 ++
         lit ") do update  set " ++ sets).

Definition obj_to_upsert_update_sql_str (obj : json) (key_wheres : list str) (except_key tbl_name : str) :
    result :=
  if json_empty obj then Ret []
  else
    let! head := insert_head obj tbl_name in
    let! obj_cp := json_erase obj except_key in
    let! _ := before_end obj_cp in
    let! key_arr := key_list key_wheres in
    let! sets := excluded_assignments obj except_key in
    Ret (head ++ lit ") on conflict(" ++ key_arr ++ lit ") do update set " ++ sets).

Definition obj_to_upsert_nothing_sql_str (obj : json) (key_wheres : list str) (tbl_name : str) : result :=
  if json_empty obj then Ret []
  else
    let! head := insert_head obj tbl_name in
    let! key_arr := key_list key_wheres in
    Ret (head ++ lit ") on conflict(" ++ key_arr ++ lit ") do nothing ").

(** ** Copying and selecting *)

Fixpoint assign_json_value (assgin_json obj : json) (keys : list str) : outcome json_exception json :=
  match keys with
  | [] => Ret assgin_json
  | key :: keys' =>
      match json_find obj key with
      | Some v => let! j := json_assign assgin_json key v in assign_json_value j obj keys'
      | None => assign_json_value assgin_json obj keys'
      end
  end.

(** The template's type [T]: its conversions from and to JSON and its equality. *)
Section select.
Context {T : Type} (from_json : json -> outcome json_exception T) (to_json : T -> json)
  (T_eq : T -> T -> bool).

(** The inner loop: whether a value equal to [from_v] is found; it stops there. *)
Fixpoint found_in (from_v : T) (in_arr : list json) (key : str) : outcome json_exception bool :=
  match in_arr with
  | [] => Ret false
  | in_value :: in_arr' =>
      let! x := json_at in_value key in
      let! in_v := from_json x in
      if T_eq from_v in_v then Ret true else found_in from_v in_arr' key
  end.

Fixpoint select_loop (from_arr in_arr : list json) (key : str) : outcome json_exception (list json) :=
  match from_arr with
  | [] => Ret []
  | from_value :: from_arr' =>
      let! x := json_at from_value key in
      let! from_v := from_json x in
      let! find := found_in from_v in_arr key in
      let! rest := select_loop from_arr' in_arr key in
      Ret (if (find : bool) then rest else to_json from_v :: rest)
  end.

Definition select_not_in_array (from_arr in_arr : json) (key : str) : outcome json_exception json :=
  let! res := select_loop (json_values from_arr) (json_values in_arr) key in Ret (Array res).

End select.
End sql.

(** The comment of json2sql.h on each function. *)
Definition no_floats (f : Empty_set) : str := match f with end.

Example value_string : value_to_sql_str no_floats (String_ (lit "aaa")) = Ret (lit "'aaa'").
Proof. reflexivity. Qed.

Example value_number : value_to_sql_str no_floats (NumberInteger 4) = Ret (lit "4").
Proof. reflexivity. Qed.

Example in_numbers :
  arr_to_sql_in_arr no_floats (Array [NumberInteger 1; NumberInteger 3; NumberInteger 4]) = Ret (lit "(1,3,4)").
Proof. reflexivity. Qed.

Example in_strings :
  arr_to_sql_in_arr no_floats (Array [String_ (lit "a"); String_ (lit "b")]) = Ret (lit "('a','b')").
Proof. reflexivity. Qed.

Example comma_text : comma_arr_to_sql_in_arr (lit "aa,bb, cc") true = lit "('aa','bb','cc')".
Proof. reflexivity. Qed.
