(* ===== verification/Json2SqlFacts.v ===== *)
(** * Theorems on the SQL builders *)
From stdpp Require Import prelude strings.
From Stdlib Require Import Ascii ZArith Lia.
From S2P Require Import Prelude CxxLib CxxMap Json JsonFacts Json2Sql.

Local Open Scope Z_scope.
Local Open Scope cxx_scope.

(** ** Loops with a separator *)

(** Putting a separator after every entry but the last is joining the texts. *)
Lemma separated_join {E A} (emit : A -> outcome E str) sep l :
  separated emit sep l = let! texts := omap emit l in Ret (join sep texts).
Proof.
  induction l as [|x l IH]; simpl; [done|]. destruct (emit x) as [t|e|]; simpl; [|done..].
  destruct l as [|y l]; [done|]. rewrite IH. simpl.
  destruct (emit y) as [u|e|]; simpl; [|done..]. by destruct (omap emit l).
Qed.

Lemma omap_pure {E A B} (f : A -> B) (l : list A) : omap (fun x => Ret (f x)) l = Ret (E := E) (map f l).
Proof. induction l as [|x l IH]; simpl; [done|]. by rewrite IH. Qed.

Section facts.
Context {F : Type} (dump_float : F -> str).
Abbreviation json := (json F).
Implicit Types (m : list (str * json)) (obj : json) (s tbl : str).

(** ** The statements *)

(** The SQL text of every value of an object. *)
Definition sql_values m : outcome json_exception (list str) :=
  omap (fun e => value_to_sql_str dump_float e.2) m.

Definition assign_texts m (values : list str) : list str :=
  zip_with (fun e v => e.1 ++ lit "=" ++ v) m values.

Lemma assign_omap m :
  omap (fun e : str * json => let! v := value_to_sql_str dump_float e.2 in Ret (e.1 ++ lit "=" ++ v)) m =
  let! vs := sql_values m in Ret (assign_texts m vs).
Proof.
  unfold sql_values. induction m as [|[k x] m IH]; cbn [omap snd fst]; [done|].
  destruct (value_to_sql_str dump_float x) as [v|e|]; cbn [obind]; [|done..]. rewrite IH.
  by destruct (omap (fun e : str * json => value_to_sql_str dump_float e.2) m).
Qed.

Lemma obind_assoc {E A B C} (x : outcome E A) (f : A -> outcome E B) (g : B -> outcome E C) :
  obind (obind x f) g = obind x (fun a => obind (f a) g).
Proof. by destruct x. Qed.

Lemma assignments_object e m :
  assignments dump_float (Object (e :: m)) =
  let! vs := sql_values (e :: m) in Ret (join (lit ",") (assign_texts (e :: m) vs)).
Proof.
  unfold assignments. cbn [before_end json_entries obind].
  rewrite separated_join, assign_omap, obind_assoc. by destruct (sql_values _).
Qed.

(** What every builder does first with its value: nothing for an empty one, and an
    exception for a scalar or an array, whose iterators have no keys. *)
Definition of_object (obj : json) (statement : list (str * json) -> outcome json_exception str) :
    outcome json_exception str :=
  match obj with
  | Null | Array [] | Object [] => Ret []
  | Object m => statement m
  | _ => Throw (invalid_iterator 207)
  end.

(** C35. The three update builders, for every value and every condition.  An empty
    value (null too) gives no statement; a scalar or an array with elements
    throws, because its iterators have no keys.  The statement of an object has
    the assignments joined by commas and the conditions joined by "and", in key
    order; the first value without an SQL text passes its exception on.  With no
    condition at all the overloads that take several conditions decrement the end
    iterator of an empty container, which is undefined, and a null condition gives
    a statement that ends after "where". *)
Theorem update_statements (obj wheres' : json) tbl key value (wheres : list (str * str)) :
  let update := fun m vs conditions =>
    lit "update " ++ tbl ++ lit " set " ++ join (lit ",") (assign_texts m vs) ++ lit " where " ++ conditions in
  obj_to_update_sql_str dump_float obj key value tbl =
    of_object obj (fun m => let! vs := sql_values m in Ret (update m vs (key ++ lit "='" ++ value ++ lit "'"))) /\
  obj_to_update_sql_str_map dump_float obj wheres tbl =
    of_object obj (fun m =>
      let! vs := sql_values m in
      match wheres with
      | [] => Undef
      | _ => Ret (update m vs (join (lit " and ") (map (fun w => w.1 ++ lit "='" ++ w.2 ++ lit "'") wheres)))
      end) /\
  obj_to_update_sql_str_json dump_float obj wheres' tbl =
    of_object obj (fun m =>
      let! vs := sql_values m in
      match wheres' with
      | Object [] | Array [] => Undef
      | Null => Ret (update m vs [])
      | Object w => let! ws := sql_values w in Ret (update m vs (join (lit " and ") (assign_texts w ws)))
      | _ => Throw (invalid_iterator 207)
      end).
Proof.
  intros update. unfold obj_to_update_sql_str, obj_to_update_sql_str_map, obj_to_update_sql_str_json, of_object.
  destruct obj as [|[|e m]|[|x a]|t|b|i|u|f|]; try done. cbn [json_empty]. rewrite assignments_object.
  destruct (sql_values (e :: m)) as [vs|x|]; simpl; [|done..]. split_and!; [done|..].
  - destruct wheres as [|w ws]; [done|]. cbn [before_end_list obind]. by rewrite separated_join, omap_pure.
  - destruct wheres' as [|[|w ws]|[|y a]|t|b|i|u|f|]; try done. cbn [before_end json_entries obind].
    rewrite separated_join, assign_omap. by destruct (sql_values _).
Qed.

Lemma insert_head_object e m tbl :
  insert_head dump_float (Object (e :: m)) tbl =
  let! vs := sql_values (e :: m) in
  Ret (lit "insert into " ++ tbl ++ lit "(" ++ join (lit ",") (map fst (e :: m)) ++ lit ") values(" ++
       join (lit ",") vs).
Proof.
  unfold insert_head. cbn [before_end json_entries obind].
  rewrite !separated_join, omap_pure. cbn [obind]. by rewrite obind_assoc; destruct (sql_values (e :: m)) eqn:E;
    unfold sql_values in E; rewrite E.
Qed.

Lemma excluded_object m key :
  excluded_assignments (F := F) (Object m) key =
  match map_erase key m with
  | [] => Undef
  | m' => Ret (join (lit ",") (map (fun e => e.1 ++ lit "=EXCLUDED." ++ e.1) m'))
  end.
Proof.
  unfold excluded_assignments. cbn [json_erase obind]. destruct (map_erase key m) as [|e m']; [done|].
  cbn [before_end json_entries obind]. by rewrite separated_join, omap_pure.
Qed.

Lemma key_list_join ks :
  key_list ks = match ks with [] => Undef | _ => Ret (join (lit ",") ks) end.
Proof.
  unfold key_list. destruct ks as [|k ks]; [done|]. cbn [before_end_list obind].
  rewrite separated_join. pose proof (omap_pure (E := json_exception) id (k :: ks)) as H.
  rewrite map_id in H. change (fun x : str => Ret (id x)) with (@Ret json_exception str) in H.
  by rewrite H.
Qed.

(** C36. The insert and upsert builders, for every value.  An empty value gives no
    statement, and a scalar or an array with elements throws.  The statement of an
    object names its keys and gives its values in the same order; on a conflict the
    columns updated are those of the object but the excepted one.  When no column
    is left, or no conflict column is given, the builders decrement the end
    iterator of an empty container, which is undefined; where a value has no SQL
    text, its exception comes first. *)
Theorem insert_statements (obj : json) tbl k1 k2 k3 ks except :
  let insert := fun m vs => lit "insert into " ++ tbl ++ lit "(" ++ join (lit ",") (map fst m) ++
                            lit ") values(" ++ join (lit ",") vs ++ lit ")" in
  let excluded := fun m' : list (str * json) => join (lit ",") (map (fun e => e.1 ++ lit "=EXCLUDED." ++ e.1) m') in
  obj_to_insert_sql_str dump_float obj tbl =
    of_object obj (fun m => let! vs := sql_values m in Ret (insert m vs)) /\
  obj_to_upsert_update_sql_str2 dump_float obj k1 k2 except tbl =
    of_object obj (fun m =>
      let! vs := sql_values m in
      match map_erase except m with
      | [] => Undef
      | m' => Ret (insert m vs ++ lit " on conflict(" ++ k1 ++ lit "," ++ k2 ++ lit ") do update  set " ++
                   excluded m')
      end) /\
  obj_to_upsert_update_sql_str3 dump_float obj k1 k2 k3 except tbl =
    of_object obj (fun m =>
      let! vs := sql_values m in
      match map_erase except m with
      | [] => Undef
      | m' => Ret (insert m vs ++ lit " on conflict(" ++ k1 ++ lit "," ++ k2 ++ lit "," ++ k3 ++
                   lit ") do update  set " ++ excluded m')
      end) /\
  obj_to_upsert_update_sql_str dump_float obj ks except tbl =
    of_object obj (fun m =>
      let! vs := sql_values m in
      match map_erase except m, ks with
      | [], _ | _, [] => Undef
      | m', _ => Ret (insert m vs ++ lit " on conflict(" ++ join (lit ",") ks ++ lit ") do update set " ++
                      excluded m')
      end) /\
  obj_to_upsert_nothing_sql_str dump_float obj ks tbl =
    of_object obj (fun m =>
      let! vs := sql_values m in
      match ks with
      | [] => Undef
      | _ => Ret (insert m vs ++ lit " on conflict(" ++ join (lit ",") ks ++ lit ") do nothing ")
      end).
Proof.
  intros insert excluded.
  unfold obj_to_insert_sql_str, obj_to_upsert_update_sql_str2, obj_to_upsert_update_sql_str3,
    obj_to_upsert_update_sql_str, obj_to_upsert_nothing_sql_str, of_object, insert, excluded.
  destruct obj as [|[|e m]|[|x a]|t|b|i|u|f|]; try done. cbn [json_empty]. rewrite !insert_head_object.
  destruct (sql_values (e :: m)) as [vs|x|]; cbn [obind]; [|done..].
  split_and!; rewrite ?excluded_object, ?key_list_join; cbn [json_erase obind].
  - by rewrite <- !app_assoc.
  - destruct (map_erase except (e :: m)); [done|]. cbn [obind]. by rewrite <- !app_assoc.
  - destruct (map_erase except (e :: m)); [done|]. cbn [obind]. by rewrite <- !app_assoc.
  - destruct (map_erase except (e :: m)); [done|]. destruct ks; [done|]. cbn [before_end obind].
    by rewrite <- !app_assoc.
  - destruct ks; [done|]. cbn [obind]. by rewrite <- !app_assoc.
Qed.

(** ** Values and lists of values *)

Lemma dump_array (a : list json) :
  dump dump_float (Array a) =
  let! texts := omap (dump dump_float) a in Ret (lit "[" ++ join (lit ",") texts ++ lit "]").
Proof.
  cbn [dump]. set (go := fix elements (a : list json) : outcome json_exception str := _).
  assert (Hgo : forall l, go l = separated (dump dump_float) (lit ",") l).
  { induction l as [|x l IH]; [done|]. cbn [separated]. simpl. fold go.
    destruct (dump dump_float x); [|done..]. cbn [obind]. destruct l; [done|]. by rewrite IH. }
  rewrite Hgo, separated_join, obind_assoc. by destruct (omap _ a).
Qed.
Lemma replace_ends_brackets {E} (a b x y : ascii) s :
  replace_ends (E := E) a b (x :: s ++ [y]) = Ret (a :: s ++ [b]).
Proof.
  unfold replace_ends. simpl. f_equal. rewrite length_app. simpl.
  replace (length s + 1)%nat with (S (length s)) by lia. simpl. f_equal.
  rewrite insert_app_r_alt by lia. by rewrite Nat.sub_diag.
Qed.

(** A byte that the serialiser copies and that is no quote of SQL or JSON. *)
Definition plain (c : ascii) : bool :=
  (32 <=? uchar c) && negb (Ascii.eqb c quote) && negb (Ascii.eqb c "\") && negb (Ascii.eqb c "'").

Lemma plain_escape c : plain c = true -> escape_byte c = [c].
Proof. byte_cases c; vm_compute; congruence. Qed.

Definition requote (c : ascii) : ascii := if Ascii.eqb c quote then "'"%char else c.

Lemma requote_plain s : forallb (fun c => negb (Ascii.eqb c quote)) s = true -> map requote s = s.
Proof.
  induction s as [|c s IH]; simpl; [done|]. unfold requote at 1. intros [Hc Hs]%andb_prop.
  rewrite IH by done. by destruct (Ascii.eqb c quote).
Qed.

(** The element of an SQL list that a number or a plain text stands for. *)
Definition in_list_text (v : json) (t : str) : Prop :=
  match v with
  | NumberInteger i => - 2 ^ 63 <= i < 2 ^ 63 /\ dump_integer i = Ret t
  | NumberUnsigned u => 0 <= u < 2 ^ 64 /\ dump_integer u = Ret t
  | String_ s => utf8 s /\ forallb plain s = true /\ t = quoted s
  | _ => False
  end.

Lemma dump_integer_no_quote x t :
  - 2 ^ 63 <= x < 2 ^ 64 -> dump_integer x = Ret t ->
  forallb (fun c => negb (Ascii.eqb c quote)) t = true.
Proof.
  intros Hx Ht. destruct (dump_integer_spec x Hx) as (d & Hd & Hdig & _). rewrite Ht in Hd.
  injection Hd as ->. rewrite forallb_app. apply andb_true_intro. split; [by destruct (x <? 0)|].
  clear -Hdig. induction d as [|c d IH]; simpl in *; [done|]. apply andb_prop in Hdig as [Hc Hd].
  rewrite IH by done. byte_cases c; by vm_compute in Hc |- *.
Qed.

Lemma in_list_dump v t :
  in_list_text v t -> exists t', dump dump_float v = Ret t' /\ map requote t' = t.
Proof.
  destruct v as [| | |s| |i|u| |]; simpl; try done.
  - intros (Hu & Hp & ->). destruct (dump_escaped_spec s) as [[_ ->]|[Hn _]]; [|done].
    simpl. eexists. split; [done|]. simpl. rewrite map_app. unfold quoted. simpl.
    assert (E : concat (map escape_byte s) = s).
    { clear Hu. induction s as [|c s IH]; simpl in *; [done|]. apply andb_prop in Hp as [Hc Hp].
      rewrite plain_escape by done. simpl. by rewrite IH. }
    rewrite E. f_equal. f_equal. apply requote_plain. clear E Hu.
    induction s as [|c s IH]; simpl in *; [done|]. apply andb_prop in Hp as [Hc Hp].
    rewrite IH by done. unfold plain in Hc. unbool. rewrite andb_true_r. apply negb_true_iff.
    by apply Ascii.eqb_neq.
  - intros [Hi Ht]. exists t. split; [done|]. eapply requote_plain, dump_integer_no_quote; [|done]. lia.
  - intros [Hi Ht]. exists t. split; [done|]. eapply requote_plain, dump_integer_no_quote; [|done]. lia.
Qed.

Lemma map_join f sep l : map f (join sep l) = join (map f sep) (map (map f) l).
Proof.
  induction l as [|x l IH]; [done|]. destruct l as [|y l]; [done|].
  cbn [join map] in *. by rewrite !map_app, IH.
Qed.

(** [arr_to_sql_in_arr] of an array of 64-bit integers and of UTF-8 texts
    without quotes, backslashes and control characters is the SQL list: the
    integers in decimal notation and the texts in single quotes, separated by
    commas, in parentheses; the empty array gives an empty pair of parentheses. *)
Theorem in_list_of_array (vs : list json) (ts : list str) :
  Forall2 in_list_text vs ts ->
  arr_to_sql_in_arr dump_float (Array vs) = Ret (lit "(" ++ join (lit ",") ts ++ lit ")").
Proof.
  intros Hv. unfold arr_to_sql_in_arr. rewrite dump_array.
  assert (Ho : exists us, omap (dump dump_float) vs = Ret us /\ map (map requote) us = ts).
  { induction Hv as [|v t vs ts Hvt _ (us & IH & Hus)]; [by exists []|].
    destruct (in_list_dump v t Hvt) as (u & Hu & Hr). exists (u :: us). simpl.
    rewrite Hu, IH. simpl. by rewrite Hr, Hus. }
  destruct Ho as (us & -> & <-). cbn [obind].
  change (lit "[" ++ join (lit ",") us ++ lit "]") with ("["%char :: join (lit ",") us ++ ["]"%char]).
  rewrite replace_ends_brackets. cbn [obind]. f_equal. fold requote. cbn [map].
  rewrite map_app, map_join. done.
Qed.
End facts.

(** ** String literals *)

(** Reading an SQL string literal after its opening quote: two quotes stand for
    one, a single one ends the literal. *)
Fixpoint read_literal (s : str) : option (str * str) :=
  match s with
  | [] => None
  | c :: s' =>
      if Ascii.eqb c "'" then
        match s' with
        | d :: s'' =>
            if Ascii.eqb d "'" then
              match read_literal s'' with
              | Some (t, r) => Some ("'"%char :: t, r)
              | None => None
              end
            else Some ([], s')
        | [] => Some ([], [])
        end
      else
        match read_literal s' with
        | Some (t, r) => Some (c :: t, r)
        | None => None
        end
  end.

Definition sql_literal (s : str) : option (str * str) :=
  match s with
  | c :: s' => if Ascii.eqb c "'" then read_literal s' else None
  | [] => None
  end.

Lemma read_literal_size s t r :
  read_literal s = Some (t, r) -> (length t + length r + 1 <= length s)%nat.
Proof.
  remember (length s) as n eqn:Hn. revert s t r Hn. induction (lt_wf n) as [n _ IH].
  intros s t r -> Hr. destruct s as [|c s]; simpl in *; [done|].
  destruct (Ascii.eqb c "'").
  - destruct s as [|d s]; [injection Hr as <- <-; simpl; lia|].
    destruct (Ascii.eqb d "'"); [|injection Hr as <- <-; simpl; lia].
    destruct (read_literal s) as [[t' r']|] eqn:E; [|done]. injection Hr as <- <-.
    specialize (IH (length s) ltac:(simpl; lia) s t' r' eq_refl E). simpl. lia.
  - destruct (read_literal s) as [[t' r']|] eqn:E; [|done]. injection Hr as <- <-.
    specialize (IH (length s) ltac:(simpl; lia) s t' r' eq_refl E). simpl. lia.
Qed.

Lemma read_literal_plain s rest :
  has_char "'" s = false -> deref rest <> "'"%char ->
  read_literal (s ++ "'"%char :: rest) = Some (s, rest).
Proof.
  intros Hs Hr. unfold has_char in Hs. induction s as [|c s IH]; simpl in *.
  - rewrite ?Ascii.eqb_refl. destruct rest as [|d rest]; [done|]. simpl in Hr.
    by rewrite (proj2 (Ascii.eqb_neq _ _) Hr).
  - apply orb_false_iff in Hs as [Hc Hs]. rewrite Ascii.eqb_sym in Hc.
    by rewrite Hc, IH by done.
Qed.

Lemma read_literal_inv s rest :
  read_literal (s ++ "'"%char :: rest) = Some (s, rest) -> has_char "'" s = false.
Proof.
  unfold has_char. induction s as [|c s IH]; simpl; [done|]. intros Hr.
  rewrite (Ascii.eqb_sym "'" c). destruct (Ascii.eqb_spec c "'") as [->|Hne]; simpl.
  - exfalso. destruct s as [|d s]; simpl in Hr.
    + rewrite ?Ascii.eqb_refl in Hr. destruct (read_literal rest) as [[t r]|] eqn:E; [|done].
      injection Hr as -> ->. apply read_literal_size in E. lia.
    + destruct (Ascii.eqb_spec d "'") as [->|]; [|done].
      destruct (read_literal (s ++ "'"%char :: rest)) as [[t r]|] eqn:E; [|done]. injection Hr as -> ->.
      apply read_literal_size in E. rewrite length_app in E. simpl in E. lia.
  - destruct (read_literal (s ++ "'"%char :: rest)) as [[t r]|] eqn:E; [|done]. injection Hr as -> ->. by apply IH.
Qed.

(** C21. The SQL text of a string is a literal that SQL reads back as the string,
    with nothing left over, exactly when the string holds no single quote: the
    builder does not double the quotes, so that a quote in a value ends the
    literal and the rest of the value is read as SQL. *)
Theorem string_literal {F} (dump_float : F -> str) s rest :
  deref rest <> "'"%char ->
  exists t, value_to_sql_str dump_float (String_ s) = Ret t /\
    (sql_literal (t ++ rest) = Some (s, rest) <-> has_char "'" s = false).
Proof.
  intros Hr. exists (quoted s). split; [done|]. unfold quoted. simpl. rewrite <- app_assoc. simpl.
  split; [apply read_literal_inv|]. intros Hs. by apply read_literal_plain.
Qed.

Lemma string_literal_witness : exists t,
  value_to_sql_str no_floats (String_ (lit "x' or 'a'='a")) = Ret t /\
  (sql_literal (t ++ lit " ") = Some (lit "x' or 'a'='a", lit " ") <->
   has_char "'" (lit "x' or 'a'='a") = false).
Proof. apply (string_literal no_floats (lit "x' or 'a'='a") (lit " ")). discriminate. Defined.

Lemma in_list_of_array_witness :
  arr_to_sql_in_arr no_floats (Array [NumberInteger (-7); String_ (lit "a b")]) = Ret (lit "(-7,'a b')").
Proof.
  apply (in_list_of_array no_floats [NumberInteger (-7); String_ (lit "a b")] [lit "-7"; lit "'a b'"]).
  constructor; [split; [lia|reflexivity]|]. constructor; [|constructor].
  split; [|split; reflexivity]. apply accepts_utf8. reflexivity.
Defined.

(** ** Comma-separated text *)

(** The tokens of a text: separated by runs of blanks and commas. *)
Inductive tokens_of : str -> list str -> Prop :=
| tokens_last s : none is_separator s = true -> tokens_of s [s]
| tokens_run s run rest ts :
    none is_separator s = true -> run <> [] -> forallb is_separator run = true ->
    is_separator (deref rest) = false -> tokens_of rest ts ->
    tokens_of (s ++ run ++ rest) (s :: ts).

Lemma split_run s :
  exists run rest, s = run ++ rest /\ forallb is_separator run = true /\
    is_separator (deref rest) = false /\ split_compress [] true s = split_compress [] false rest.
Proof.
  induction s as [|c s (run & rest & -> & Hr & Hd & IH)]; [by exists [], []|].
  destruct (is_separator c) eqn:Ec.
  - exists (c :: run), rest. simpl. by rewrite Ec, Hr.
  - exists [], (c :: run ++ rest). simpl. by rewrite Ec.
Qed.

Lemma split_tokens n s cur :
  (length s <= n)%nat -> none is_separator cur = true ->
  tokens_of (cur ++ s) (split_compress cur false s).
Proof.
  revert s cur. induction n as [|n IH]; intros s cur Hn Hc.
  { destruct s; [|simpl in Hn; lia]. simpl. rewrite app_nil_r. by constructor. }
  destruct s as [|c s]; [simpl; rewrite app_nil_r; by constructor|]. simpl in Hn. simpl.
  destruct (is_separator c) eqn:Ec.
  - destruct (split_run s) as (run & rest & -> & Hr & Hd & ->).
    change (cur ++ c :: run ++ rest) with (cur ++ (c :: run) ++ rest).
    constructor; [done|done|simpl; by rewrite Ec|done|].
    apply (IH rest []); [|done]. rewrite length_app in Hn. lia.
  - replace (cur ++ c :: s) with ((cur ++ [c]) ++ s) by by rewrite <- app_assoc.
    apply IH; [lia|]. rewrite none_app, Hc. simpl. by rewrite Ec.
Qed.

(** [comma_arr_to_sql_in_arr] cuts its text at the runs of blanks and commas
    and joins the tokens, in single quotes for texts, by commas in parentheses. *)
Theorem in_list_of_text s is_text :
  exists ts, tokens_of s ts /\
    comma_arr_to_sql_in_arr s is_text =
      lit "(" ++ join (lit ",") (if is_text then map quoted ts else ts) ++ lit ")".
Proof.
  exists (split_compress [] false s). split; [|done]. by apply (split_tokens (length s) s []).
Qed.

(** ** Copying and selecting *)

Section copy.
Context {F : Type}.
Abbreviation json := (json F).

Lemma assign_object (t m : list (str * json)) keys :
  ordered t ->
  exists r, assign_json_value (Object t) (Object m) keys = Ret (Object r) /\ ordered r /\
    forall k, map_get k r =
      match map_get k m with
      | Some v => if bool_decide (k ∈ keys) then Some v else map_get k t
      | None => map_get k t
      end.
Proof.
  revert t. induction keys as [|key keys IH]; intros t Ht; simpl.
  { exists t. split; [done|]. split; [done|]. intros k.
    by destruct (map_get k m). }
  destruct (map_get key m) as [v|] eqn:Em; simpl.
  - destruct (IH (map_set key v t)) as (r & -> & Hr & Hk); [eauto with jkit|].
    exists r. split; [done|]. split; [done|]. intros k. rewrite Hk, map_get_set.
    destruct (decide (k = key)) as [->|Hne].
    + rewrite Em. repeat case_bool_decide; set_solver.
    + destruct (map_get k m); repeat case_bool_decide; set_solver.
  - destruct (IH t Ht) as (r & -> & Hr & Hk). exists r. split; [done|]. split; [done|]. intros k.
    rewrite Hk. destruct (map_get k m) eqn:Ek; [|done]. repeat case_bool_decide; set_solver.
Qed.

(** A key of the list that the source object has. *)
Definition has_any (m : list (str * json)) (keys : list str) : bool :=
  existsb (fun k => match map_get k m with Some _ => true | None => false end) keys.

Lemma assign_null m keys :
  assign_json_value Null (Object m) keys =
  if has_any m keys then assign_json_value (Object []) (Object m) keys else Ret Null.
Proof.
  induction keys as [|key keys IH]; simpl; [done|]. rewrite IH.
  by destruct (map_get key m).
Qed.

Lemma assign_scalar (j : json) m keys :
  is_object j = false -> j <> Null ->
  assign_json_value j (Object m) keys = if has_any m keys then Throw (type_error 305) else Ret j.
Proof.
  intros Ho Hn. induction keys as [|key keys IH]; simpl; [done|].
  destruct (map_get key m); [by destruct j|done].
Qed.

(** [assign_json_value] copies exactly the listed keys that the source
    object has over the target object and leaves its other members alone; a null
    target becomes an object when there is something to copy, any other target
    makes the copy throw, and a source that is no object copies nothing. *)
Theorem assign_json_value_spec (t m : list (str * json)) (j : json) keys :
  ordered t -> is_object j = false ->
  (exists r, assign_json_value (Object t) (Object m) keys = Ret (Object r) /\ ordered r /\
     forall k, map_get k r =
       match map_get k m with
       | Some v => if bool_decide (k ∈ keys) then Some v else map_get k t
       | None => map_get k t
       end) /\
  assign_json_value Null (Object m) keys =
    (if has_any m keys then assign_json_value (Object []) (Object m) keys else Ret Null) /\
  (j <> Null ->
     assign_json_value j (Object m) keys = if has_any m keys then Throw (type_error 305) else Ret j) /\
  assign_json_value (Object t) j keys = Ret (Object t).
Proof.
  intros Ht Hj. split; [by apply assign_object|]. split; [apply assign_null|].
  split; [by apply assign_scalar|]. induction keys as [|key keys IH]; simpl; [done|].
  destruct j; done.
Qed.

(** ** Selecting *)

Context {T : Type} (from_json : json -> outcome json_exception T) (to_json : T -> json)
  (T_eq : T -> T -> bool).

(** The value of an element under the key. *)
Definition key_value (key : str) (v : json) (x : T) : Prop :=
  exists j, json_at v key = Ret j /\ from_json j = Ret x.

Lemma found_in_spec x in_arr ys key :
  Forall2 (key_value key) in_arr ys ->
  found_in from_json T_eq x in_arr key = Ret (existsb (T_eq x) ys).
Proof.
  induction 1 as [|v y in_arr ys (j & Hj & Hy) _ IH]; simpl; [done|].
  rewrite Hj. simpl. rewrite Hy. simpl. by destruct (T_eq x y).
Qed.

(** [select_not_in_array] returns, in order, the key's values of the first
    array that are not among those of the second, when every element has the key
    with a convertible value; an element of the first array without the key makes
    it throw, as soon as the elements before it are through. *)
Theorem select_not_in_array_spec from_arr xs in_arr ys key :
  Forall2 (key_value key) from_arr xs -> Forall2 (key_value key) in_arr ys ->
  select_not_in_array from_json to_json T_eq (Array from_arr) (Array in_arr) key =
    Ret (Array (map to_json (List.filter (fun x => negb (existsb (T_eq x) ys)) xs))) /\
  (forall m rest, map_get key m = None ->
     select_not_in_array from_json to_json T_eq (Array (from_arr ++ Object m :: rest)) (Array in_arr) key =
     Throw (json_out_of_range 403)).
Proof.
  intros Hf Hi. unfold select_not_in_array. cbn [json_values]. split.
  - enough (select_loop from_json to_json T_eq from_arr in_arr key =
      Ret (map to_json (List.filter (fun x => negb (existsb (T_eq x) ys)) xs))) as -> by done.
    induction Hf as [|v x from_arr xs (j & Hj & Hx) _ IH]; simpl; [done|].
    rewrite Hj. simpl. rewrite Hx. simpl. rewrite (found_in_spec x in_arr ys key Hi). simpl.
    rewrite IH. simpl. by destruct (existsb (T_eq x) ys).
  - intros m rest Hm.
    enough (select_loop from_json to_json T_eq (from_arr ++ Object m :: rest) in_arr key =
      Throw (json_out_of_range 403)) as -> by done.
    induction Hf as [|v x from_arr xs (j & Hj & Hx) _ IH]; simpl; [by rewrite Hm|].
    rewrite Hj. simpl. rewrite Hx. simpl. rewrite (found_in_spec x in_arr ys key Hi). simpl.
    by rewrite IH.
Qed.

End copy.

Lemma assign_json_value_spec_witness :
  assign_json_value (F := Empty_set) (Object [(lit "a", Null)]) (NumberInteger 1) [lit "a"] =
  Ret (Object [(lit "a", Null)]).
Proof.
  apply (assign_json_value_spec [(lit "a", Null)] [] (NumberInteger 1) [lit "a"]); [|reflexivity].
  repeat constructor.
Defined.

(** Integers under the key "id". *)
Definition to_int (j : json Empty_set) : outcome json_exception Z :=
  match j with NumberInteger i => Ret i | _ => Throw (type_error 302) end.

Definition with_id (i : Z) : json Empty_set := Object [(lit "id", NumberInteger i)].

Lemma select_not_in_array_spec_witness :
  select_not_in_array to_int (fun i => NumberInteger i) Z.eqb (Array [with_id 1; with_id 2; with_id 3])
    (Array [with_id 2]) (lit "id") = Ret (Array [NumberInteger 1; NumberInteger 3]).
Proof.
  refine (proj1 (select_not_in_array_spec to_int (fun i => NumberInteger i) Z.eqb
    [with_id 1; with_id 2; with_id 3] [1; 2; 3] [with_id 2] [2] (lit "id") _ _));
    repeat constructor; eexists; split; reflexivity.
Defined.
