(* ===== verification/ExampleServer.v ===== *)
(** * examples/http: the sample servers and clients

    [TestApi] is a server with one resource, the clients of [client_main.cpp] and
    [client2_main.cpp] ask for it over HTTP/1.1 and HTTP/2, and the handler of
    [server2_main.cpp] answers over HTTP/2.  The theorems run the client of
    multi_client_http.cpp against the session of http_api_server.cpp: the two
    agree on the answer and on whether the connection lives on. *)
From stdpp Require Import prelude gmap strings.
From Stdlib Require Import Ascii ZArith Lia.
From S2P Require Import Prelude CxxLib FiberFuture HttpMessage Pool HttpCache HttpClient HttpSystem HttpClientFacts WebUtility WebUtilityFacts CxxMap HttpServer HttpServerFacts Json.

Local Open Scope Z_scope.
Local Open Scope cxx_scope.

(** ** Building a request *)

(** [http::verb::get]. *)
Definition verb_get : Z := 2.

(** The constructor of a request from verb, target and version, and [set]. *)
Class RequestBuilder (Req : Type) `{HttpRequest Req} : Type := {
  req_new : Z -> str -> Z -> Req;
  req_set : str -> str -> Req -> Req;
}.

(** A header other than Connection and Expect changes neither the start line
    nor what these two say; a new HTTP/1.1 request keeps the connection alive. *)
Class RequestBuilderLaws (Req : Type) `{RequestBuilder Req} : Prop := {
  verb_new v t n : req_verb (req_new v t n) = v;
  target_new v t n : req_target (req_new v t n) = t;
  version_new v t n : req_version (req_new v t n) = n;
  keep_alive_new v t : req_keep_alive (req_new v t 11) = true;
  expect_new v t n : req_expect (req_new v t n) = [];
  set_host h (q : Req) :
    let q' := req_set (lit "Host") h q in
    req_verb q' = req_verb q /\ req_target q' = req_target q /\ req_version q' = req_version q /\
    req_keep_alive q' = req_keep_alive q /\ req_expect q' = req_expect q;
}.

#[global] Instance simple_RequestBuilder : RequestBuilder simple_request := {|
  req_new v t n := mk_simple_request (lit "GET") v t n (n =? 11) [] [] [];
  req_set k v q :=
    mk_simple_request (q_method q) (q_verb q) (q_target q) (q_version q) (q_keep_alive q) (q_expect q)
      ((k, v) :: q_fields q) (q_body q);
|}.

#[global] Instance simple_RequestBuilderLaws : RequestBuilderLaws simple_request.
Proof. by split. Qed.

(** ** server_main.cpp *)

(** [operator[]] of [std::map<http::verb, ...>] followed by an assignment. *)
Fixpoint verb_set {V} (verb : Z) (v : V) (m : list (Z * V)) : list (Z * V) :=
  match m with
  | [] => [(verb, v)]
  | (k, w) :: m' =>
      if verb <? k then (verb, v) :: m
      else if verb =? k then (k, v) :: m'
      else (k, w) :: verb_set verb v m'
  end.

Section examples.
Context {Req Res smatch ep F : Type} `{RequestBuilderLaws Req} `{HttpResponseLaws Res}.
Context (regex_match : str -> str -> str + option smatch) (dump_float : F -> str)
  (json_what : json_exception -> str).

(** [json res; res["error_code"] = 0; res.dump()]. *)
Definition error_code_text : outcome json_exception str :=
  let! res := json_assign (F := F) Null (lit "error_code") (NumberInteger 0) in
  dump dump_float res.

(** The function of the resource. *)
Definition test_api : ResourceCall Req Res smatch ep := fun cxt =>
  match error_code_text with
  | Ret body => (set_res (set_body body) cxt, Normal)
  | Throw e => (cxt, Raised (std_exn (json_what e)))
  | Undef => (cxt, Undefined)
  end.

(** [m_resource[regex][verb] = call]. *)
Definition set_resource (regex : str) (verb : Z) (call : ResourceCall Req Res smatch ep)
    (srv : HttpApiServer Req Res smatch ep) : HttpApiServer Req Res smatch ep :=
  let methods := default [] (map_get regex (m_resource srv)) in
  mk_HttpApiServer (map_set regex (verb_set verb call methods) (m_resource srv))
    (m_default_resource srv) (m_bad_resource srv) (m_timeout srv) (m_body_limit srv)
    (first_process srv) (last_process srv).

(** [TestApi::TestApi]. *)
Definition TestApi : HttpApiServer Req Res smatch ep :=
  set_resource (lit "^/test_api$") verb_get test_api HttpApiServer_new.

(** ** client_main.cpp and client2_main.cpp *)

Definition session_request (g_host g_target : str) : Req :=
  req_set (lit "Host") g_host (req_new verb_get g_target 11).

Definition session_args (g_host g_port : str) : HttpReqArgument :=
  mk_HttpReqArgument g_host g_port (dns_timeout HttpReqArgument_default)
    (conn_timeout HttpReqArgument_default) (req_timeout HttpReqArgument_default).

(** The request of [do_session] of client_main.cpp; [peer] is what the network
    and the server do with it. *)
Definition do_session_h1 (nenv : net_env) (peer : Req -> io_env Res) (g_host g_port g_target : str)
    (cache : option HttpCache) : outcome std_exception (Res * option HttpCache) :=
  h1_req nenv (peer (session_request g_host g_target)) (session_args g_host g_port) cache.

(** The request of [do_session] of client2_main.cpp. *)
Definition do_session_h2 (nenv : net_env) (peer : Req -> h2_env) (g_host g_port g_target : str)
    (cache : option HttpCache) : outcome std_exception (Res * option HttpCache) :=
  let req := session_request g_host g_target in
  h2_req nenv (peer req) req
    (mk_HttpsReqArgument (session_args g_host g_port) (handshake_timeout HttpsReqArgument_default)
       (ssl_cert HttpsReqArgument_default)) cache.

(** ** server2_main.cpp *)

(** The callback for the data of the request: the bytes so far and the lines
    printed. *)
Definition server2_on_data (st : str * list str) (data : str) : str * list str :=
  let '(tmp_body, printed) := st in
  if 0 <? str_size data then (tmp_body ++ data, printed)
  else if negb (bool_decide (tmp_body = [])) then (tmp_body, printed ++ [tmp_body])
  else (tmp_body, printed).

(** [write_head] and [end]. *)
Definition server2_reply : outcome json_exception (Z * list (str * str) * str) :=
  let! body := error_code_text in
  Ret (200, [(lit "filed1", lit "value1"); (lit "field2", lit "value2")], body).

(** ** The body of the answers *)

Definition error_code_zero : str :=
  lit "{" ++ [quote] ++ lit "error_code" ++ [quote] ++ lit ":0}".

Lemma error_code_text_value : error_code_text = Ret error_code_zero.
Proof. reflexivity. Qed.

(** ** The server *)

Abbreviation Cxt := (HttpContext Req Res smatch ep).
Abbreviation answer := (answer_of (Req := Req) (Res := Res) (ep := ep) regex_match).

Lemma TestApi_good : good_server TestApi.
Proof.
  split; try done. intros r v f Hr Hf. simpl in Hr.
  apply list_elem_of_singleton in Hr as ->. apply list_elem_of_singleton in Hf. simplify_eq.
  intros cxt. unfold test_api. by rewrite error_code_text_value.
Qed.

(** The path of a target: what precedes the question mark. *)
Fixpoint path_of (target : str) : str :=
  match target with
  | [] => []
  | c :: t => if Ascii.eqb c "?" then [] else c :: path_of t
  end.

Lemma path_of_app p q : has_char "?" p = false ->
  path_of p = p /\ path_of (p ++ "?"%char :: q) = p.
Proof.
  unfold has_char. induction p as [|c p IH]; simpl; [done|].
  rewrite Ascii.eqb_sym. intros [-> Hp]%orb_false_iff. destruct (IH Hp) as [-> ->]. done.
Qed.

(** What the expression of the resource means to boost.regex; it is simple enough
    for every path. *)
Hypothesis regex_test_api : forall p,
  exists m, regex_match (lit "^/test_api$") p = inr m /\ (m <> None <-> p = lit "/test_api").

Lemma TestApi_call (cxt : Cxt) :
  if bool_decide (req_verb (req cxt) = verb_get /\ path cxt = lit "/test_api")
  then exists m, call_resource regex_match (m_resource TestApi) cxt =
    Some (set_res (set_body error_code_zero) (set_path_params m cxt), Normal)
  else call_resource regex_match (m_resource TestApi) cxt = None.
Proof.
  change (m_resource TestApi) with [(lit "^/test_api$", [(verb_get, test_api)])].
  cbn [call_resource verb_find]. rewrite Z.eqb_sym. destruct (regex_test_api (path cxt)) as (m & -> & Hm). unfold test_api.
  rewrite error_code_text_value. case_bool_decide as E.
  - destruct E as [-> Hp]. apply Hm in Hp. destruct m as [m|]; [|done]. by exists m.
  - destruct (Z.eqb_spec (req_verb (req cxt)) verb_get); [|done]. destruct m as [m|]; [|done]. destruct E. split; [done|]. by apply Hm.
Qed.

(** The three answers of [TestApi]. *)
Lemma TestApi_answer endpoint q :
  str_size (req_target q) < npos ->
  let r := answer TestApi endpoint q in
  let found := bool_decide (req_verb q = verb_get /\ path_of (req_target q) = lit "/test_api") in
  if bad_target (req_target q) then
    res_result r = 400 /\ res_body r = bad_target_message /\ res_need_eof r = true
  else if found then
    res_result r = 200 /\ res_body r = error_code_zero /\
    res_content_length r = Some (str_size error_code_zero) /\ res_need_eof r = negb (req_keep_alive q)
  else res_result r = 404 /\ res_need_eof r = true.
Proof.
  intros Hs r found. unfold r, answer_of. set (cxt := mk_HttpContext _ _ _ _ _ _).
  pose proof (handle_request_cases regex_match TestApi cxt (gs_default _ TestApi_good) Hs) as Hc.
  cbv zeta in Hc. change (req cxt) with q in Hc. destruct (bad_target (req_target q)).
  { destruct Hc as (cxt' & -> & _ & Hr & Hb & _ & _ & He). done. }
  destruct Hc as (p & q' & Ht & Hno & Hc). pose proof (TestApi_call (routed cxt p (query_spec q'))) as Hcall.
  assert (Hp : path_of (req_target q) = p).
  { destruct (path_of_app p q' Hno) as [Hp1 Hp2]. destruct (has_char "?" (req_target q)).
    - by rewrite Ht.
    - destruct Ht as [<- _]. done. }
  unfold found. rewrite Hp. change (path (routed _ p _)) with p in Hcall. change (req (routed _ p _)) with q in Hcall.
  destruct (bool_decide_reflect (req_verb q = verb_get /\ p = lit "/test_api")) as [E|E].
  - destruct Hcall as [m Hcall]. rewrite Hcall in Hc.
    simpl in Hc. rewrite body_set_body, result_set_body, result_default in Hc.
    destruct Hc as (cxt' & Eh & (Hb & Hl & _ & He) & Hr & Hq). rewrite Eh. simpl.
    split_and!; [done..|]. by rewrite He, Hq.
  - rewrite Hcall in Hc.
    destruct Hc as (cxt' & -> & _ & Hr & _ & _ & _ & He). done.
Qed.

(** ** The client against the server *)

(** The network carries a request and its answer: the last message of [out]. *)
Definition delivered (env : io_env Res) (out : list (sent Res)) : Prop :=
  ec_failed (io_write env) = false /\ ec_failed (io_read env).1 = false /\
  exists before, out = before ++ [Answer (io_read env).2].

(** The two ends of a connection agree: the session goes on, and the client
    keeps the connection, idle; or the session closes it, and the client drops it. *)
Definition both_keep (e : turn_end) (l : nat) (p' : pool HttpConnection) : Prop :=
  e = NextTurn /\ l ∈ p_list p' /\
  exists c, p_heap p' !! l = Some c /\ in_use (h1_conn c) = false.

Definition both_drop (e : turn_end) (l : nat) (p' : pool HttpConnection) : Prop :=
  e = Break /\ l ∉ p_list p'.

(** Any server that keeps the defaults, and any request. *)
Lemma exchange_agrees (srv : HttpApiServer Req Res smatch ep) nenv env args c l p1 x cxt cxt' out e :
  good_server srv -> good_turn x -> session_turn regex_match srv x cxt = (cxt', out, e) ->
  delivered env out -> pool_wf (m_h1_conns c) ->
  get_http_connect nenv args (m_h1_conns c) = Ret (Some l, p1) ->
  let r := answer srv (remote_endpoint cxt) (x_request x) in
  exists p', h1_req nenv env args (Some c) =
      Ret (r, Some (mk_HttpCache p' (m_h1s_conns c) (m_h2s_conns c))) /\
    others_kept l p1 p' /\
    out = (if wants_continue x then [Continue100] else []) ++ [Answer r] /\
    if res_need_eof r then both_drop e l p' else both_keep e l p'.
Proof.
  intros Hg Hx Ht (Hw & Hr & before & Hb) Hwf Hget r.
  destruct (good_turn_answer regex_match srv x cxt Hg Hx) as (c2 & _ & E). rewrite E in Ht.
  injection Ht as _ Ho He. assert (Er : (io_read env).2 = r).
  { rewrite Hb in Ho. apply app_inj_tail in Ho as [_ Ho]. by injection Ho. }
  destruct (taken_held _ _ _ Hwf (get_http_connect_run _ _ _ _ Hget)) as [Hwf1 Hh].
  specialize (Hh l eq_refl). simpl in *. unfold h1_req. rewrite Hget. simpl.
  destruct (h1_exchange env args l p1) as [r' p'] eqn:Ex.
  destruct (h1_exchange_post env args l p1 r' p' Hwf1 (proj1 Hh) Ex) as (_ & Hk & Hp).
  rewrite Hw, Hr, Er in Hp. destruct Hp as [-> Hp]. exists p'. split_and!; [done..|].
  fold r in He. destruct (res_need_eof r); [by split|].
  destruct Hp as (Hl & d & Hd & Hc). split; [done|]. split; [done|]. exists d. by rewrite Hc.
Qed.

Lemma session_request_parts g_host g_target :
  let q := session_request g_host g_target in
  req_verb q = verb_get /\ req_target q = g_target /\ req_keep_alive q = true /\ req_expect q = [].
Proof.
  simpl. unfold session_request. destruct (set_host g_host (req_new verb_get g_target 11))
    as (-> & -> & _ & -> & ->). by rewrite verb_new, target_new, keep_alive_new, expect_new.
Qed.

(** C23. The sample client against the sample server, over a connection the
    client's cache holds or opens: the client is given the very response the
    session wrote, and no other connection of its cache changes.  For the path
    /test_api that is a 200 with the JSON text of the resource, and both ends
    keep the connection; for any other path a 404 and for a target that is
    empty, relative or holds ".." a 400, and both ends close it. *)
Theorem client_meets_server nenv (peer : Req -> io_env Res) c g_host g_port g_target l p1 x cxt cxt' out e :
  x_request x = session_request g_host g_target -> good_turn x ->
  session_turn regex_match TestApi x cxt = (cxt', out, e) ->
  delivered (peer (x_request x)) out -> pool_wf (m_h1_conns c) ->
  get_http_connect nenv (session_args g_host g_port) (m_h1_conns c) = Ret (Some l, p1) ->
  exists r p', do_session_h1 nenv peer g_host g_port g_target (Some c) =
      Ret (r, Some (mk_HttpCache p' (m_h1s_conns c) (m_h2s_conns c))) /\
    out = [Answer r] /\ others_kept l p1 p' /\
    if bad_target g_target then
      res_result r = 400 /\ res_body r = bad_target_message /\ both_drop e l p'
    else if bool_decide (path_of g_target = lit "/test_api") then
      res_result r = 200 /\ res_body r = error_code_zero /\
      res_content_length r = Some (str_size error_code_zero) /\ both_keep e l p'
    else res_result r = 404 /\ both_drop e l p'.
Proof.
  intros Hq Hx Ht Hd Hwf Hget. unfold do_session_h1. rewrite <- Hq.
  destruct (session_request_parts g_host g_target) as (Hv & Hta & Hka & Hex). rewrite <- Hq in *.
  destruct (exchange_agrees TestApi nenv _ _ c l p1 x cxt cxt' out e TestApi_good Hx Ht Hd Hwf Hget)
    as (p' & -> & Hk & Ho & He).
  assert (Hs : str_size (req_target (x_request x)) < npos) by apply Hx.
  pose proof (TestApi_answer (remote_endpoint cxt) (x_request x) Hs) as Ha. simpl in Ha.
  eexists _, p'. split; [done|]. unfold wants_continue in Ho. rewrite Hex in Ho.
  rewrite bool_decide_eq_false_2 in Ho by done. split; [done|]. split; [done|].
  rewrite Hta, Hv, Hka in Ha. destruct (bad_target g_target).
  { destruct Ha as (Hr & Hb & Hn). rewrite Hn in He. done. }
  destruct (bool_decide_reflect (path_of g_target = lit "/test_api")) as [E|E].
  - rewrite bool_decide_eq_true_2 in Ha by done. destruct Ha as (Hr & Hb & Hl & Hn).
    rewrite Hn in He. done.
  - rewrite bool_decide_eq_false_2 in Ha by (by intros [_ ?]). destruct Ha as (Hr & Hn).
    rewrite Hn in He. done.
Qed.

(** What the handler of server2_main.cpp prints: the body of the request, once,
    unless it is empty. *)
Lemma server2_prints chunks :
  Forall (fun d => d <> []) chunks ->
  fold_left server2_on_data (chunks ++ [[]]) ([], []) =
    (concat chunks, if bool_decide (concat chunks = []) then [] else [concat chunks]).
Proof.
  intros Hc. rewrite fold_left_app. assert (E : forall b, fold_left server2_on_data chunks (b, []) =
    (b ++ concat chunks, [])).
  { induction Hc as [|d chunks Hd _ IH]; intros b; simpl; [by rewrite app_nil_r|].
    destruct d as [|y d]; [done|].
    replace (0 <? str_size (y :: d)) with true by (symmetry; apply Z.ltb_lt; unfold str_size; simpl; lia).
    by rewrite IH, <- app_assoc. }
  rewrite E. simpl. by case_bool_decide.
Qed.

(** The HTTP/2 client against the handler of server2_main.cpp: however the
    session cuts the body of the reply into chunks, [do_session] gets the
    status, and the JSON text with its length, and the session stays in the
    cache; and however the body of a request is cut, the handler prints it once,
    and prints nothing for an empty one. *)
Theorem client2_meets_server2 nenv (peer : Req -> h2_env) c g_host g_port g_target l p1 conn
    code header body chunks sent_chunks :
  let q := session_request g_host g_target in
  let args := mk_HttpsReqArgument (session_args g_host g_port) 3 [] in
  get_http2s_connect nenv args (m_h2s_conns c) = (Some l, p1) -> p_heap p1 !! l = Some conn ->
  ec_failed (h2_submit (peer q) (req_method q) (h2_uri conn q) (req_body q) (h2_headers q)) = false ->
  server2_reply = Ret (code, header, body) ->
  Forall (fun d => d <> []) chunks -> concat chunks = body ->
  h2_events (peer q) = OnResponse code header :: map OnData chunks ++ [OnData []] ->
  Forall (fun d => d <> []) sent_chunks ->
  (exists r : Res, do_session_h2 nenv peer g_host g_port g_target (Some c) =
      Ret (r, Some (mk_HttpCache (m_h1_conns c) (m_h1s_conns c) p1)) /\
    res_result r = 200 /\ res_body r = error_code_zero /\
    res_content_length r = Some (str_size error_code_zero)) /\
  (fold_left server2_on_data (sent_chunks ++ [[]]) ([], [])).2 =
    (if bool_decide (concat sent_chunks = []) then [] else [concat sent_chunks]).
Proof.
  intros q args Hget Hconn Hsub Hrep Hc Hb Hev Hsc. split; [|by rewrite server2_prints].
  unfold server2_reply in Hrep. rewrite error_code_text_value in Hrep. simpl in Hrep.
  injection Hrep as <- <- <-.
  pose proof (h2_exchange_answered (Res := Res) (peer q) q l conn p1 [] 200 _ chunks [] Hsub ltac:(lia) Hc Hev)
    as Hx. cbv zeta in Hx. rewrite Hb, bool_decide_eq_false_2 in Hx by done. simpl in Hx.
  eexists. unfold do_session_h2, h2_req. fold q. change (mk_HttpsReqArgument _ _ _) with args.
  rewrite Hget, Hconn, Hx. split; [done|]. cbn [fst]. by autorewrite with response.
Qed.

End examples.

(** ** Runs of the examples *)

Definition test_api_match (regex p : str) : str + option unit :=
  inr (if bool_decide (regex = lit "^/test_api$" /\ p = lit "/test_api") then Some tt else None).

Definition test_turn (target : str) : turn simple_request :=
  mk_turn true ec_ok ec_ok ec_ok (session_request (lit "h") target) ec_ok.

Definition test_cxt : HttpContext simple_request simple_response unit unit :=
  mk_HttpContext tt [] None [] (session_request (lit "h") []) res_default.

Definition test_server : HttpApiServer simple_request simple_response unit unit :=
  TestApi (F := unit) (fun _ => []) (fun _ => []).

(** A network that carries the answer of the server. *)
Definition test_peer (q : simple_request) : io_env simple_response :=
  mk_io_env ec_ok (ec_ok, answer_of test_api_match test_server tt q) ec_ok 7.

Lemma test_api_match_law p :
  exists m, test_api_match (lit "^/test_api$") p = inr m /\ (m <> None <-> p = lit "/test_api").
Proof.
  eexists. split; [reflexivity|]. case_bool_decide as E.
  - destruct E as [_ ->]. done.
  - split; [done|]. intros ->. by destruct E.
Qed.

Lemma test_turn_good : good_turn (test_turn (lit "/test_api?a=1")).
Proof. repeat split. Qed.

Lemma client_meets_server_witness : exists r p',
  do_session_h1 sample_net test_peer (lit "h") (lit "80") (lit "/test_api?a=1") (Some HttpCache_new) =
    Ret (r, Some (mk_HttpCache p' pool_empty pool_empty)) /\
  res_result r = 200 /\ res_body r = error_code_zero.
Proof.
  destruct (good_turn_answer test_api_match test_server (test_turn (lit "/test_api?a=1")) test_cxt
    (TestApi_good _ _) test_turn_good) as (cxt' & _ & Et).
  destruct (get_http_connect sample_net (session_args (lit "h") (lit "80")) pool_empty)
    as [[[l|] p1]|?|] eqn:Eg; [|vm_compute in Eg; discriminate Eg..].
  assert (Hd : delivered (test_peer (session_request (lit "h") (lit "/test_api?a=1")))
    [Answer (answer_of test_api_match test_server tt (session_request (lit "h") (lit "/test_api?a=1")))]).
  { split; [reflexivity|]. split; [reflexivity|]. exists []. reflexivity. }
  destruct (client_meets_server test_api_match (F := unit) (fun _ => []) (fun _ => [])
    test_api_match_law sample_net test_peer HttpCache_new (lit "h") (lit "80") (lit "/test_api?a=1") l p1
    (test_turn (lit "/test_api?a=1")) test_cxt _ _ _ eq_refl test_turn_good Et Hd pool_empty_wf Eg)
    as (r & p' & Hr & _ & _ & Hres).
  exists r, p'. split; [exact Hr|]. exact (conj (proj1 Hres) (proj1 (proj2 Hres))).
Defined.

Definition test_h2_peer (q : simple_request) : h2_env :=
  mk_h2_env (fun _ _ _ _ => ec_ok)
    (OnResponse 200 [(lit "filed1", lit "value1"); (lit "field2", lit "value2")] ::
     map OnData [lit "{"; [quote]; lit "error_code"; [quote]; lit ":0}"] ++ [OnData []]).

Definition h2_args : HttpsReqArgument := mk_HttpsReqArgument (session_args (lit "h") (lit "80")) 3 [].

Lemma client2_meets_server2_witness : exists r : simple_response,
  do_session_h2 sample_net test_h2_peer (lit "h") (lit "80") (lit "/test_api") (Some HttpCache_new) =
    Ret (r, Some (mk_HttpCache pool_empty pool_empty
      (get_http2s_connect sample_net h2_args (m_h2s_conns HttpCache_new)).2)) /\
  res_result r = 200 /\ res_body r = error_code_zero.
Proof.
  destruct (p_heap (get_http2s_connect sample_net h2_args (m_h2s_conns HttpCache_new)).2 !! 0%nat)
    as [conn|] eqn:Ec; [|vm_compute in Ec; discriminate Ec].
  destruct (client2_meets_server2 (Res := simple_response) (F := unit) (fun _ => [])
    sample_net test_h2_peer HttpCache_new (lit "h") (lit "80") (lit "/test_api") 0
    (get_http2s_connect sample_net h2_args (m_h2s_conns HttpCache_new)).2 conn 200
    [(lit "filed1", lit "value1"); (lit "field2", lit "value2")] error_code_zero
    [lit "{"; [quote]; lit "error_code"; [quote]; lit ":0}"] [lit "b"])
    as [(r & Hr & H1 & H2 & _) _]; [vm_compute; reflexivity|exact Ec|reflexivity|reflexivity|
      repeat constructor; discriminate|reflexivity|reflexivity|repeat constructor; discriminate|].
  exists r. split; [exact Hr|]. split; [exact H1|exact H2].
Defined.

(** ** The start of the HTTP/2 server *)

(** What OpenSSL and nghttp2 answer: [Some] is the message of an error code, an
    exception carries its text. *)
Record server2_env : Type := mk_server2_env {
  make_tls : outcome str unit;
  use_certificate_file : option str;
  use_private_key_file : option str;
  configure_tls_context_easy : option str;
  listen_and_serve : outcome str (option str);
}.

(** Where a line of output goes. *)
Inductive console : Type := cout (line : str) | cerr (line : str).

(** The body of the [try]: the exit code of an early return, and the output.  The
    error code of [configure_tls_context_easy] is overwritten unread. *)
Definition server2_serve (env : server2_env) : outcome str (option Z * list console) :=
  obind (make_tls env) (fun _ =>
  match use_certificate_file env with
  | Some m => Ret (Some 1, [cout (lit "use_certificate_file: " ++ m)])
  | None =>
      match use_private_key_file env with
      | Some m => Ret (Some 1, [cout (lit "use_private_key_file: " ++ m)])
      | None =>
          obind (listen_and_serve env) (fun ec =>
          Ret (None, match ec with Some m => [cout (lit "listen_and_serve: " ++ m)] | None => [] end))
      end
  end).

Definition server2_main (env : server2_env) : outcome unit (Z * list console) :=
  match server2_serve env with
  | Ret (Some code, out) => Ret (code, out)
  | Ret (None, out) => Ret (0, out)
  | Throw e => Ret (0, [cerr (lit "exception: " ++ e)])
  | Undef => Undef
  end.

(** The exit code tells a certificate or key that cannot be read, and nothing
    else: a server that could not listen ends with code 0 and one line of output. *)
Lemma server2_main_code env code out : server2_main env = Ret (code, out) ->
  (code = 1 <-> make_tls env = Ret tt /\
     (use_certificate_file env <> None \/ use_private_key_file env <> None)) /\
  (code = 1 \/ code = 0) /\ (length out <= 1)%nat.
Proof.
  unfold server2_main, server2_serve. destruct (make_tls env) as [[]|e|]; simpl; [|intros [= <- <-]; simpl..|done].
  - destruct (use_certificate_file env); [intros [= <- <-]; naive_solver|].
    destruct (use_private_key_file env); [intros [= <- <-]; naive_solver|].
    destruct (listen_and_serve env) as [[]|?|]; simpl; [..|done]; intros [= <- <-]; simpl; naive_solver lia.
  - naive_solver lia.
Qed.
