(* ===== verification/Gregorian.v ===== *)
(** * boost/date_time: the calendar and the time points that db/soci_pgsql.hpp converts

    Day numbers of the proleptic Gregorian calendar (gregorian_calendar.ipp), and
    a [ptime] as the count of microseconds that time_system_counted.hpp keeps. *)
From stdpp Require Import prelude.
From Stdlib Require Import ZArith Lia.
From S2P Require Import Prelude.

Local Open Scope Z_scope.

(** ** The calendar *)

Record ymd_type : Type := mk_ymd { year : Z; month : Z; day : Z }.

(** [day_number]; the quotients are of non-negative numbers. *)
Definition day_number (ymd : ymd_type) : Z :=
  let a := (14 - month ymd) / 12 in
  let y := year ymd + 4800 - a in
  let m := month ymd + 12 * a - 3 in
  day ymd + (153 * m + 2) / 5 + 365 * y + y / 4 - y / 100 + y / 400 - 32045.

(** [from_day_number], before the constructor of [ymd_type] checks the fields. *)
Definition from_day_number (dayNumber : Z) : ymd_type :=
  let a := dayNumber + 32044 in
  let b := (4 * a + 3) / 146097 in
  let c := a - 146097 * b / 4 in
  let d := (4 * c + 3) / 1461 in
  let e := c - 1461 * d / 4 in
  let m := (5 * e + 2) / 153 in
  mk_ymd (100 * b + d - 4800 + m / 10) (m + 3 - 12 * (m / 10)) (e - (153 * m + 2) / 5 + 1).

Definition is_leap_year (year : Z) : bool :=
  (year mod 4 =? 0) && (negb (year mod 100 =? 0) || (year mod 400 =? 0)).

Definition end_of_month_day (year month : Z) : Z :=
  if month =? 2 then (if is_leap_year year then 29 else 28)
  else if (month =? 4) || (month =? 6) || (month =? 9) || (month =? 11) then 30
  else 31.

Inductive date_exception : Type := bad_year | bad_month | bad_day_of_month | date_out_of_range.

(** The constrained values [greg_year], [greg_month] and [greg_day]. *)
Definition check_ymd (ymd : ymd_type) : outcome date_exception ymd_type :=
  if negb ((1400 <=? year ymd) && (year ymd <=? 9999)) then Throw bad_year
  else if negb ((1 <=? month ymd) && (month ymd <=? 12)) then Throw bad_month
  else if negb ((1 <=? day ymd) && (day ymd <=? 31)) then Throw bad_day_of_month
  else Ret ymd.

(** The constructor of [date] from year, month and day: the day number. *)
Definition date_new (y m d : Z) : outcome date_exception Z :=
  obind (check_ymd (mk_ymd y m d)) (fun ymd =>
    if end_of_month_day y m <? d then Throw bad_day_of_month else Ret (day_number ymd)).

(** [day_of_week], 0 for Sunday. *)
Definition day_of_week (ymd : ymd_type) : Z :=
  let a := (14 - month ymd) / 12 in
  let y := year ymd - a in
  let m := month ymd + 12 * a - 2 in
  (day ymd + y + y / 4 - y / 100 + y / 400 + 31 * m / 12) mod 7.

(** [date::day_of_year] of a day number. *)
Definition day_of_year (days : Z) : outcome date_exception Z :=
  obind (check_ymd (from_day_number days)) (fun ymd =>
    obind (date_new (year ymd) 1 1) (fun start_of_year => Ret (days - start_of_year + 1))).

(** ** Time points *)

(** [std::tm]. *)
Record std_tm : Type := mk_std_tm {
  t_sec : Z; t_min : Z; t_hour : Z; t_mday : Z; t_mon : Z; t_year : Z;
  t_wday : Z; t_yday : Z; t_isdst : Z;
}.

(** [ptime]: the special values, or the microseconds from day number 0. *)
Inductive ptime : Type :=
| not_a_date_time
| neg_infin
| pos_infin
| Count (time_count : Z).

Definition ticks_per_second : Z := 1000000.
Definition frac_sec_per_day : Z := 60 * 60 * 24 * ticks_per_second.

(** [gregorian::to_tm] of a day number: the fields of the date. *)
Definition date_to_tm (days : Z) : outcome date_exception std_tm :=
  obind (check_ymd (from_day_number days)) (fun ymd =>
    obind (day_of_year days) (fun doy =>
      Ret (mk_std_tm 0 0 0 (day ymd) (month ymd - 1) (year ymd - 1900) (day_of_week ymd) (doy - 1) (-1)))).

(** [posix_time::to_tm]: a special value throws, a fraction of a second is dropped. *)
Definition to_tm (t : ptime) : outcome date_exception std_tm :=
  match t with
  | Count count =>
      obind (check_ymd (from_day_number (count / frac_sec_per_day))) (fun ymd =>
      obind (date_to_tm (day_number ymd)) (fun timetm =>
        let td := count mod frac_sec_per_day in
        Ret (mk_std_tm (td / ticks_per_second mod 60) (td / (60 * ticks_per_second) mod 60)
               (td / (3600 * ticks_per_second))
               (t_mday timetm) (t_mon timetm) (t_year timetm) (t_wday timetm) (t_yday timetm) (-1))))
  | _ => Throw date_out_of_range
  end.

(** [posix_time::ptime_from_tm]. *)
Definition ptime_from_tm (timetm : std_tm) : outcome date_exception ptime :=
  obind (date_new (wrap_u 16 (t_year timetm + 1900)) (wrap_u 16 (t_mon timetm + 1)) (wrap_u 16 (t_mday timetm)))
    (fun d => Ret (Count (d * frac_sec_per_day +
                          (t_hour timetm * 3600 + t_min timetm * 60 + t_sec timetm) * ticks_per_second))).

(** ** Day numbers and dates correspond *)

#[global] Arguments from_day_number : simpl never.
#[global] Arguments day_number : simpl never.
#[global] Arguments end_of_month_day : simpl never.

Ltac div_eqs := Z.to_euclidean_division_equations; lia.

(** The fields, from the century [b], the year [d] of the century, counted from
    March, and the day [e] of that year. *)
Record split_day (n b d e : Z) : Prop := {
  sd_b : 0 <= b;
  sd_d : 0 <= d <= 99;
  sd_e : 0 <= e <= 365;
  sd_n : n + 32044 = 146097 * b / 4 + 1461 * d / 4 + e;
  sd_last : e = 365 -> d mod 4 = 3 /\ (d = 99 -> b mod 4 = 3);
}.

Lemma split_day_number n : -32044 <= n ->
  exists b d e, split_day n b d e /\
    let m := (5 * e + 2) / 153 in
    from_day_number n = mk_ymd (100 * b + d - 4800 + m / 10) (m + 3 - 12 * (m / 10)) (e - (153 * m + 2) / 5 + 1).
Proof.
  intros Hn. unfold from_day_number. set (b := (4 * (n + 32044) + 3) / 146097).
  set (c := n + 32044 - 146097 * b / 4).
  assert (Hb : 0 <= b) by (unfold b; div_eqs).
  assert (Hc : 0 <= c <= 36524 /\ (c = 36524 -> b mod 4 = 3)) by (unfold c, b; div_eqs).
  set (d := (4 * c + 3) / 1461). set (e := c - 1461 * d / 4).
  assert (Hd : 0 <= d <= 99) by (unfold d; div_eqs).
  assert (He : 0 <= e <= 365 /\ (e = 365 -> d mod 4 = 3) /\ (e = 365 -> d = 99 -> c = 36524))
    by (unfold e, d; div_eqs).
  destruct Hc as [Hc Hc'], He as (He & He1 & He2).
  exists b, d, e. split; [|done]. split; [done|done|done|unfold e, c; lia|]. auto.
Qed.

Lemma month_of_day e : 0 <= e <= 365 ->
  let m := (5 * e + 2) / 153 in
  let dd := e - (153 * m + 2) / 5 + 1 in
  0 <= m <= 11 /\ 1 <= dd <= 31 /\
  (m + 3 - 12 * (m / 10) = 2 -> dd <= 28 \/ dd = 29 /\ e = 365) /\
  (m + 3 - 12 * (m / 10) ∈ [4; 6; 9; 11] -> dd <= 30).
Proof.
  intros He m dd.
  assert (Hm : 0 <= m <= 11) by (unfold m; div_eqs).
  assert (Hd : 1 <= dd <= 31) by (unfold dd, m; div_eqs).
  split; [done|]. split; [done|]. split.
  - intros H2. assert (m = 11) as -> by (clearbody m; div_eqs). unfold dd. change ((153 * 11 + 2) / 5) with 337. lia.
  - intros H4. unfold dd.
    assert (Hx : 153 * m <= 5 * e + 2 < 153 * m + 153) by (unfold m; div_eqs).
    assert (m = 1 \/ m = 3 \/ m = 6 \/ m = 8) as Hm'.
    { clearbody m. repeat (apply elem_of_cons in H4 as [H4|H4]; [div_eqs|]). by apply elem_of_nil in H4. }
    clearbody m. destruct Hm' as [->|[->|[->| ->]]]; div_eqs.
Qed.

(** Every day number is that of its date, and the date is one of the calendar. *)
Lemma from_day_number_spec n : -32044 <= n ->
  let ymd := from_day_number n in
  day_number ymd = n /\ 1 <= month ymd <= 12 /\ 1 <= day ymd <= 31 /\
  day ymd <= end_of_month_day (year ymd) (month ymd).
Proof.
  intros Hn. destruct (split_day_number n Hn) as (b & d & e & [Hb Hd He Hs Hl] & ->).
  destruct (month_of_day e He) as (Hm & Hdd & H2 & H30). set (m := (5 * e + 2) / 153) in *.
  set (dd := e - (153 * m + 2) / 5 + 1) in *. cbn [year month day].
  assert (Hm10 : m / 10 = 0 \/ m / 10 = 1) by (clearbody m; div_eqs).
  split; [|split; [clearbody m; div_eqs|split; [done|]]].
  - unfold day_number. cbn [year month day].
    replace ((14 - (m + 3 - 12 * (m / 10))) / 12) with (m / 10) by (clearbody m; div_eqs).
    replace (m + 3 - 12 * (m / 10) + 12 * (m / 10) - 3) with m by lia.
    replace (100 * b + d - 4800 + m / 10 + 4800 - m / 10) with (100 * b + d) by lia.
    unfold dd. clearbody m. clear -Hb Hd Hs. div_eqs.
  - unfold end_of_month_day. destruct (Z.eqb_spec (m + 3 - 12 * (m / 10)) 2) as [E|E].
    + assert (m = 11) as Em by (clearbody m; div_eqs). rewrite Em in *. change (11 / 10) with 1 in *.
      destruct (H2 E) as [|[Hdd29 He365]]; [case_match; lia|].
      assert (is_leap_year (100 * b + d - 4800 + 1) = true) as ->; [|lia].
      destruct (Hl He365) as [Hl1 Hl2]. unfold is_leap_year. clear -Hl1 Hl2 Hd Hb.
      apply andb_true_iff. split; [apply Z.eqb_eq; div_eqs|]. apply orb_true_iff.
      destruct (Z.eq_dec d 99) as [->|]; [right; apply Z.eqb_eq; specialize (Hl2 eq_refl); div_eqs|].
      left. apply negb_true_iff, Z.eqb_neq. div_eqs.
    + case_match eqn:E4; [|lia]. apply H30. apply orb_true_iff in E4.
      rewrite !orb_true_iff, !Z.eqb_eq in E4. set_solver.
Qed.

(** The days of the years 1400 to 9999. *)
Definition in_calendar (n : Z) : Prop := 2232400 <= n <= 5373484.

Lemma from_day_number_year n : in_calendar n -> 1400 <= year (from_day_number n) <= 9999.
Proof.
  intros Hn. destruct (split_day_number n) as (b & d & e & [Hb Hd He Hs Hl] & ->); [unfold in_calendar in *; lia|].
  cbn [year]. set (m := (5 * e + 2) / 153).
  assert (Hm : m / 10 = 0 /\ e < 306 \/ m / 10 = 1 /\ 306 <= e) by (unfold m; clear -He; div_eqs).
  clearbody m. unfold in_calendar in Hn. clear -Hn Hb Hd He Hs Hm. div_eqs.
Qed.

Lemma check_from_day_number n : in_calendar n -> check_ymd (from_day_number n) = Ret (from_day_number n).
Proof.
  intros Hn. pose proof (from_day_number_year n Hn) as Hy.
  destruct (from_day_number_spec n) as (_ & Hm & Hd & _); [unfold in_calendar in Hn; lia|].
  unfold check_ymd. destruct (from_day_number n) as [y m d]. cbn [year month day] in *.
  rewrite !(proj2 (Z.leb_le _ _)) by lia. done.
Qed.

(** A date made of the fields of a day is that day. *)
Lemma date_new_fields n : in_calendar n ->
  let ymd := from_day_number n in date_new (year ymd) (month ymd) (day ymd) = Ret n.
Proof.
  intros Hn ymd. unfold date_new. destruct (from_day_number_spec n) as (Hd & _ & _ & He); [unfold in_calendar in Hn; lia|].
  pose proof (check_from_day_number n Hn) as Hc. fold ymd in Hc, Hd, He. destruct ymd as [y m d]. cbn [year month day] in *.
  rewrite Hc. simpl. destruct (Z.ltb_spec (end_of_month_day y m) d); [lia|]. by rewrite Hd.
Qed.

Lemma day_of_year_ret n : in_calendar n -> exists k, day_of_year n = Ret k.
Proof.
  intros Hn. pose proof (from_day_number_year n Hn) as Hy. unfold day_of_year.
  rewrite (check_from_day_number n Hn). cbn [obind]. generalize dependent (year (from_day_number n)).
  intros y Hy. unfold date_new, check_ymd. cbn [year month day].
  rewrite !(proj2 (Z.leb_le _ _)) by lia. cbn. by eexists.
Qed.

Lemma split_ticks c :
  let td := c mod frac_sec_per_day in
  c / frac_sec_per_day * frac_sec_per_day +
  (td / (3600 * ticks_per_second) * 3600 + td / (60 * ticks_per_second) mod 60 * 60 + td / ticks_per_second mod 60) *
  ticks_per_second = c - c mod ticks_per_second.
Proof.
  intros td. unfold frac_sec_per_day, ticks_per_second in *.
  pose proof (Z.div_mod c 86400000000 ltac:(lia)) as Hc. change (60 * 60 * 24 * 1000000) with 86400000000 in *.
  fold td in Hc. pose proof (Z.mod_pos_bound c 86400000000 ltac:(lia)) as Ht. fold td in Ht.
  assert (Hm : c mod 1000000 = td mod 1000000).
  { rewrite Hc. replace (86400000000 * (c / 86400000000) + td) with (td + 86400 * (c / 86400000000) * 1000000) by lia.
    by rewrite Z.mod_add. }
  rewrite Hm. clearbody td. change (3600 * 1000000) with 3600000000. change (60 * 1000000) with 60000000.
  replace 3600000000 with (60000000 * 60) by done. replace 60000000 with (1000000 * 60) by done.
  rewrite <- !Z.div_div by lia. set (q := td / 1000000).
  pose proof (Z.div_mod td 1000000 ltac:(lia)) as H1. fold q in H1.
  pose proof (Z.div_mod q 60 ltac:(lia)) as H2. pose proof (Z.div_mod (q / 60) 60 ltac:(lia)) as H3. lia.
Qed.

(** A time point goes to fields and back, without the fraction of its second. *)
Lemma to_tm_from_tm c : in_calendar (c / frac_sec_per_day) ->
  exists timetm, to_tm (Count c) = Ret timetm /\
    ptime_from_tm timetm = Ret (Count (c - c mod ticks_per_second)).
Proof.
  intros Hc. set (n := c / frac_sec_per_day) in *.
  destruct (from_day_number_spec n) as (Hd & Hm & Hdd & _); [unfold in_calendar in Hc; lia|].
  pose proof (from_day_number_year n Hc) as Hy. pose proof (date_new_fields n Hc) as Hnew.
  destruct (day_of_year_ret n Hc) as [k Hk]. pose proof (check_from_day_number n Hc) as Hck.
  assert (Htm : to_tm (Count c) = obind (date_to_tm n) (fun timetm =>
    let td := c mod frac_sec_per_day in
    Ret (mk_std_tm (td / ticks_per_second mod 60) (td / (60 * ticks_per_second) mod 60)
           (td / (3600 * ticks_per_second))
           (t_mday timetm) (t_mon timetm) (t_year timetm) (t_wday timetm) (t_yday timetm) (-1)))).
  { unfold to_tm. fold n. rewrite Hck. cbn [obind]. by rewrite Hd. }
  rewrite Htm. unfold date_to_tm. rewrite Hck, Hk. cbn [obind]. eexists. split; [done|].
  cbv zeta in Hnew. revert Hm Hdd Hy Hnew. generalize (from_day_number n). intros [y m d]. cbn [year month day].
  intros Hm Hdd Hy Hnew. unfold ptime_from_tm, wrap_u. cbn [t_year t_mon t_mday t_hour t_min t_sec].
  change (2 ^ 16) with 65536. rewrite !(Z.mod_small _ 65536) by lia.
  replace (y - 1900 + 1900) with y by lia. replace (m - 1 + 1) with m by lia. rewrite Hnew. cbn [obind].
  do 2 f_equal. unfold n. clear. apply split_ticks.
Qed.
