(* ===== verification/SociPgsql.v ===== *)
(** * db/soci_pgsql.hpp: the type conversions and the database helper

    [type_conversion] tells SOCI how to exchange a value with a column: the
    conversions write into variables of their caller, so each takes what the
    variable held before.  [DBHelper] hands out the sessions of a connection
    pool.  SOCI itself is not part of the repository: the pool is an interface
    with the behaviour SOCI documents. *)
From stdpp Require Import prelude gmap strings.
From Stdlib Require Import Ascii ZArith Lia.
From S2P Require Import Prelude CxxLib Json JsonLexer JsonParser Gregorian.

Local Open Scope Z_scope.

(** ** Type conversions *)

Inductive indicator : Type := i_ok | i_null | i_truncated.

#[export] Instance indicator_eq_dec : EqDecision indicator.
Proof. solve_decision. Defined.

Definition is_null (ind : indicator) : bool := match ind with i_null => true | _ => false end.

(** What the conversions can throw. *)
Inductive db_exception : Type :=
| db_date (e : date_exception)
| db_json (e : json_exception)
| bad_lexical_cast.

Definition lift_exn {E A} (f : E -> db_exception) (m : outcome E A) : outcome db_exception A :=
  match m with Ret a => Ret a | Throw e => Throw (f e) | Undef => Undef end.

(** [from_base i ind mi] is [mi] afterwards; [to_base mi i ind] is [i] and [ind]
    afterwards. *)
Class TypeConversion (T Base : Type) : Type := {
  from_base : Base -> indicator -> T -> outcome db_exception T;
  to_base : T -> Base -> indicator -> outcome db_exception (Base * indicator);
}.

#[export] Instance bool_conversion : TypeConversion bool Z := {|
  from_base i ind mi := Ret (if is_null ind then false else negb (i =? 0));
  to_base mi i ind := Ret (if mi then 1 else 0, i_ok);
|}.

#[export] Instance ptime_conversion : TypeConversion ptime std_tm := {|
  from_base i ind mi := if is_null ind then Ret mi else lift_exn db_date (ptime_from_tm i);
  to_base mi i ind :=
    match mi with
    | not_a_date_time => Ret (i, i_null)
    | _ => obind (lift_exn db_date (to_tm mi)) (fun i' => Ret (i', i_ok))
    end;
|}.

Section json_conversion.
Context {F : Type} `{CFloat F} (dump_float : F -> str).

Definition json_conversion : TypeConversion (json F) str := {|
  from_base i ind mi := if is_null ind then Ret mi else lift_exn db_json (parse true i);
  to_base mi i ind :=
    match mi with
    | Null => Ret (i, i_null)
    | _ => obind (lift_exn db_json (dump dump_float mi)) (fun i' => Ret (i', i_ok))
    end;
|}.

End json_conversion.

(** *** UUIDs (boost/uuid/uuid_io.hpp) *)

(** The sixteen bytes. *)
Abbreviation uuid := (list Z).

Definition nil_uuid : uuid := replicate 16 0.

(** The positions after which a dash stands. *)
Definition dash_after (i : nat) : bool := bool_decide (i ∈ [3; 5; 7; 9])%nat.

Definition hex_lower (d : Z) : ascii := char_of_Z (if d <? 10 then 48 + d else 87 + d).

(** [operator<<] of the bytes from position [i]. *)
Fixpoint uuid_print (i : nat) (u : uuid) : str :=
  match u with
  | [] => []
  | b :: u' => [hex_lower (b / 16); hex_lower (b mod 16)] ++
               (if dash_after i then lit "-" else []) ++ uuid_print (S i) u'
  end.

Definition toupper (c : ascii) : ascii := if is_lower c then char_of_Z (uchar c - 32) else c.

(** The position of a digit in 0123456789ABCDEF. *)
Definition xdigit (c : ascii) : option Z :=
  let c := toupper c in
  if is_digit c then Some (uchar c - 48)
  else if (65 <=? uchar c) && (uchar c <=? 70) then Some (uchar c - 55) else None.

(** [operator>>] of [n] bytes from position [i]: the bytes and the rest of the
    stream; [None] is the failed stream. *)
Fixpoint uuid_read (n i : nat) (s : str) : option (uuid * str) :=
  match n with
  | O => Some ([], s)
  | S n' =>
      match s with
      | c1 :: c2 :: s1 =>
          hi ← xdigit c1; lo ← xdigit c2;
          let byte := Z.lor (wrap_u 8 (Z.shiftl hi 4)) lo in
          s2 ← (if dash_after i then eat "-" s1 else Some s1);
          '(u, rest) ← uuid_read n' (S i) s2;
          Some (byte :: u, rest)
      | _ => None
      end
  end.

(** [lexical_cast<uuid>] reads without skipping blanks and wants the whole text. *)
Definition uuid_of_string (s : str) : outcome db_exception uuid :=
  match uuid_read 16 0 s with
  | Some (u, []) => Ret u
  | _ => Throw bad_lexical_cast
  end.

Definition uuid_conversion : TypeConversion uuid str := {|
  from_base i ind mi := if is_null ind then Ret nil_uuid else uuid_of_string i;
  to_base mi i ind := Ret (uuid_print 0 mi, i_ok);
|}.

(** ** The connection pool of SOCI *)

(** [lease] is [None] while no entry is free; [give_back] is [None] when it
    throws. *)
Class ConnectionPool (P : Type) : Type := {
  pool_new : nat -> option P;
  lease : P -> option (nat * P);
  give_back : nat -> P -> option P;
  pool_size : P -> nat;
  pool_free : P -> gset nat;
}.

Class ConnectionPoolLaws (P : Type) `{ConnectionPool P} : Prop := {
  pool_new_law n : match pool_new n with
    | Some p => n <> 0%nat /\ pool_size p = n /\ pool_free p = set_seq 0 n
    | None => n = 0%nat
    end;
  lease_law p : match lease p with
    | Some (pos, p') => pos ∈ pool_free p /\ pool_free p' = (pool_free p ∖ {[pos]}) /\ pool_size p' = pool_size p
    | None => pool_free p = ∅
    end;
  give_back_law p pos : match give_back pos p with
    | Some p' => (pos < pool_size p)%nat /\ (pos ∉ pool_free p) /\ pool_free p' = (pool_free p ∪ {[pos]}) /\
                 pool_size p' = pool_size p
    | None => (pool_size p <= pos)%nat \/ pos ∈ pool_free p
    end;
}.

(** ** DBHelper *)

(** A session of the pool: the connection it opened and its fail-over callback. *)
Record session : Type := mk_session { s_open : option str; s_failover : option nat }.

Record DBHelper (P : Type) : Type := mk_DBHelper {
  m_failover : option nat;      (* the callback object *)
  m_conn_str : str;
  m_connect_num : Z;            (* int *)
  m_pool : option P;
  sessions : list session;      (* the sessions of the pool, by position *)
}.
Arguments mk_DBHelper {P}.
Arguments m_failover {P}.
Arguments m_conn_str {P}.
Arguments m_connect_num {P}.
Arguments m_pool {P}.
Arguments sessions {P}.

Section helper.
Context {P : Type} `{ConnectionPool P}.
Implicit Types (db : DBHelper P).

Definition DBHelper_new : DBHelper P := mk_DBHelper None [] 1 None [].

Definition set_params (conn_str : str) (conn_num : Z) db : DBHelper P :=
  mk_DBHelper (m_failover db) conn_str conn_num (m_pool db) (sessions db).

Definition set_failover (cb : option nat) db : DBHelper P :=
  mk_DBHelper cb (m_conn_str db) (m_connect_num db) (m_pool db) (sessions db).

(** [start]: [connects i] says whether session [i] could be opened; a failure
    throws and leaves the sessions opened so far.  The new pool replaces the
    old one at once. *)
Fixpoint open_sessions (connects : nat -> bool) (conn_str : str) (failover : option nat) (i n : nat) :
    list session * bool :=
  match n with
  | O => ([], true)
  | S n' =>
      if connects i then
        let '(l, ok) := open_sessions connects conn_str failover (S i) n' in
        (mk_session (Some conn_str) failover :: l, ok)
      else (replicate (S n') (mk_session None None), false)
  end.

Definition start (connects : nat -> bool) db : DBHelper P * bool :=
  let n := Z.to_nat (wrap_u 64 (m_connect_num db)) in
  match pool_new n with
  | None => (db, false)
  | Some p =>
      let '(l, ok) := open_sessions connects (m_conn_str db) (m_failover db) 0 n in
      (mk_DBHelper (m_failover db) (m_conn_str db) (m_connect_num db) (Some p) l, ok)
  end.

Definition with_pool (p : P) db : DBHelper P :=
  mk_DBHelper (m_failover db) (m_conn_str db) (m_connect_num db) (Some p) (sessions db).

(** What a call of [session] does: it waits or times out, it uses the null
    pool, or it gives a [DbSessionPtr], whose deleter knows the position. *)
Inductive session_result : Type := NoSession | NullPool | Session (pos : nat).

Definition session_of db : session_result * DBHelper P :=
  match m_pool db with
  | None => (NullPool, db)
  | Some p =>
      match lease p with
      | Some (pos, p') => (Session pos, with_pool p' db)
      | None => (NoSession, db)
      end
  end.

(** The deleter of a session pointer: [None] when [give_back] throws, out of a
    destructor. *)
Definition session_delete (pos : nat) db : option (DBHelper P) :=
  match m_pool db with
  | None => None
  | Some p => p' ← give_back pos p; Some (with_pool p' db)
  end.

(** ** The users of a helper *)

(** The positions of the session pointers that are alive. *)
Abbreviation users := (DBHelper P * list nat)%type.

Inductive db_step : users -> users -> Prop :=
| DbSession db db' held pos : session_of db = (Session pos, db') -> db_step (db, held) (db', pos :: held)
| DbDelete db db' held k pos :
    held !! k = Some pos -> session_delete pos db = Some db' -> db_step (db, held) (db', delete k held).

(** The same with calls of [start] in between. *)
Inductive db_restart_step : users -> users -> Prop :=
| DbStep st st' : db_step st st' -> db_restart_step st st'
| DbStart db held connects :
    db_restart_step (db, held) (fst (start connects db), held).

End helper.

(** ** A pool *)

(** The entries in use, one bit each; the first free one is leased. *)
#[export] Instance list_pool : ConnectionPool (list bool) := {|
  pool_new n := match n with O => None | _ => Some (replicate n false) end;
  lease p :=
    match list_find (eq false) p with Some (pos, _) => Some (pos, <[pos := true]> p) | None => None end;
  give_back pos p :=
    match p !! pos with Some true => Some (<[pos := false]> p) | _ => None end;
  pool_size := length;
  pool_free p := list_to_set (filter (fun i => p !! i = Some false) (seq 0 (length p)));
|}.

Example uuid_example :
  uuid_print 0 [18; 52; 86; 120; 154; 188; 222; 240; 0; 1; 2; 3; 4; 5; 6; 255] =
  lit "12345678-9abc-def0-0001-0203040506ff".
Proof. vm_compute. reflexivity. Qed.
