(* ===== verification/SociPgsqlFacts.v ===== *)
(** * Theorems on the type conversions and the database helper *)
From stdpp Require Import prelude gmap strings relations.
From Stdlib Require Import Ascii ZArith Lia.
From S2P Require Import Prelude CxxLib Json JsonFacts JsonDump JsonLexer JsonParser JsonGrammar JsonParserFacts JsonParse JsonFloat JsonRoundtrip Gregorian SociPgsql.

(** ** UUIDs *)

Local Open Scope Z_scope.

Definition is_byte (b : Z) : Prop := 0 <= b < 256.

Definition byte_ok (b : Z) : bool :=
  match xdigit (hex_lower (b / 16)), xdigit (hex_lower (b mod 16)) with
  | Some hi, Some lo => Z.lor (wrap_u 8 (Z.shiftl hi 4)) lo =? b
  | _, _ => false
  end.

Lemma byte_print_read b : is_byte b ->
  exists hi lo, xdigit (hex_lower (b / 16)) = Some hi /\ xdigit (hex_lower (b mod 16)) = Some lo /\
    Z.lor (wrap_u 8 (Z.shiftl hi 4)) lo = b.
Proof.
  intros Hb. assert (Hok : byte_ok b = true).
  { assert (Hall : forallb byte_ok (map Z.of_nat (seq 0 256)) = true) by (vm_compute; reflexivity).
    rewrite forallb_forall in Hall. apply Hall, in_map_iff. exists (Z.to_nat b). unfold is_byte in Hb.
    split; [lia|]. apply in_seq. lia. }
  unfold byte_ok in Hok. destruct (xdigit (hex_lower (b / 16))) as [hi|]; [|done].
  destruct (xdigit (hex_lower (b mod 16))) as [lo|]; [|done]. exists hi, lo. by apply Z.eqb_eq in Hok.
Qed.

Lemma uuid_print_read u i rest : Forall is_byte u ->
  uuid_read (length u) i (uuid_print i u ++ rest) = Some (u, rest).
Proof.
  intros Hu. revert i. induction Hu as [|b u Hb _ IH]; intros i; [done|].
  destruct (byte_print_read b Hb) as (hi & lo & Hhi & Hlo & Hbyte).
  cbn [uuid_print uuid_read length app]. rewrite Hhi, Hlo. cbn [mbind option_bind].
  rewrite <- app_assoc. destruct (dash_after i).
  - change ((lit "-" ++ ?x)) with ("-"%char :: x). rewrite eat_cons. cbn [mbind option_bind].
    rewrite IH. cbn [mbind option_bind]. by rewrite Hbyte.
  - cbn [app mbind option_bind]. rewrite IH. cbn [mbind option_bind]. by rewrite Hbyte.
Qed.

(** ** Conversions *)

(** A value sent to a column and read into a variable that held [before]. *)
Definition exchanged {T Base} (C : TypeConversion T Base) (v : T) (i : Base) (ind : indicator) (before : T) :
    outcome db_exception T :=
  obind (to_base v i ind) (fun '(i', ind') => from_base i' ind' before).

(** C30. A value written to a column and read back, for each type, whatever the
    variables held before: a truth value and a UUID come back; a time point of
    the years 1400 to 9999 comes back without the fraction of its second, the
    infinities throw; a JSON document with ordered keys and 64-bit integers, no part
    of which is discarded, comes back with its non-negative integers unsigned and
    null in place of the numbers that are not finite, and one with a string that is
    not UTF-8 throws; a column whose text is not JSON throws, with the number 101
    or, for a number out of range, 406 (json.hpp documents 102 and 103 for wrong
    surrogates and code points, which its parser never throws).  A null time point or document does not
    come back: the variable that is read into keeps what it held. *)
Theorem conversion_roundtrip :
  (forall v i ind before, exchanged bool_conversion v i ind before = Ret v) /\
  (forall u i ind before,
     length u = 16%nat -> Forall is_byte u -> exchanged uuid_conversion u i ind before = Ret u) /\
  (forall c i ind before, in_calendar (c / frac_sec_per_day) ->
     exchanged ptime_conversion (Count c) i ind before = Ret (Count (c - c mod ticks_per_second))) /\
  (forall t i ind before, t = pos_infin \/ t = neg_infin ->
     exchanged ptime_conversion t i ind before = Throw (db_date date_out_of_range)) /\
  (forall v i ind before, v <> Null -> json_wf v -> integers_ok v = true -> undiscarded v = true ->
     exchanged (json_conversion float_text) v i ind before =
       if utf8_strings v then Ret (normalise v) else Throw (db_json (type_error 316))) /\
  (forall text before, (forall v : json Z, ~ json_text text v) ->
     exists e, from_base (TypeConversion := json_conversion float_text) text i_ok before = Throw (db_json e) /\
       error_in_text text e) /\
  (forall i ind before, exchanged ptime_conversion not_a_date_time i ind before = Ret before) /\
  (forall i ind before, exchanged (json_conversion float_text) Null i ind before = Ret before).
Proof.
  split_and!; try done.
  - by intros [] i ind before.
  - intros u i ind before Hl Hu. unfold exchanged, uuid_conversion, uuid_of_string. cbn [to_base from_base obind is_null].
    pose proof (uuid_print_read u 0 [] Hu) as Hr. rewrite Hl, app_nil_r in Hr. by rewrite Hr.
  - intros c i ind before Hc. destruct (to_tm_from_tm c Hc) as (timetm & H1 & H2).
    unfold exchanged. cbn [to_base ptime_conversion]. rewrite H1. simpl. by rewrite H2.
  - by intros t i ind before [->| ->].
  - intros v i ind before Hv Hw Hi Hr. unfold exchanged, json_conversion. cbn [to_base].
    assert (Hd : dump float_text v = if utf8_strings v then Ret (print float_text v) else Throw (type_error 316))
      by by apply dump_print.
    destruct (utf8_strings v) eqn:Hu; (destruct v; [done|..]; rewrite Hd; cbn [lift_exn obind from_base is_null]); try done;
      by rewrite (parse_complete true _ _ (print_json_text float_text float_text_reads float_text_null _ Hw Hi Hu Hr)).
  - intros text before Hno. cbn [from_base json_conversion is_null]. pose proof (parse_sound (F := Z) true text) as Hs.
    destruct (parse true text) as [v|e|]; [|exists e; by destruct Hs as [_ Hs]|done]. destruct Hs as [Hv|[? _]]; [by apply Hno in Hv|done].
Qed.

Lemma conversion_roundtrip_witness :
  exchanged uuid_conversion (replicate 16 171) [] i_null [] = Ret (replicate 16 171) /\
  exchanged ptime_conversion (Count (2460000 * frac_sec_per_day + 1234567)) (mk_std_tm 0 0 0 0 0 0 0 0 0) i_ok
    not_a_date_time = Ret (Count (2460000 * frac_sec_per_day + 1000000)) /\
  exchanged (json_conversion float_text) (Array [Boolean true; NumberInteger 1; NumberFloat 0x3FB999999999999A]) [] i_null Null =
    Ret (Array [Boolean true; NumberUnsigned 1; NumberFloat 0x3FB999999999999A]).
Proof.
  destruct conversion_roundtrip as (_ & H1 & H2 & _ & H3 & _).
  split_and!.
  - apply H1; [done|]. apply Forall_replicate. done.
  - rewrite H2; [done|]. split; vm_compute; discriminate.
  - apply (H3 (Array [Boolean true; NumberInteger 1; NumberFloat 0x3FB999999999999A]));
      [discriminate|repeat split|reflexivity|reflexivity].
Defined.

(** ** The list of bits is a pool *)

Local Open Scope nat_scope.

Lemma elem_list_free (p : list bool) i : i ∈ pool_free p <-> p !! i = Some false.
Proof.
  simpl. rewrite elem_of_list_to_set, list_elem_of_filter, elem_of_seq.
  split; [naive_solver|]. intros Hi. split; [done|]. apply lookup_lt_Some in Hi. lia.
Qed.

#[export] Instance list_pool_laws : ConnectionPoolLaws (list bool).
Proof.
  split.
  - intros [|n]; [done|]. cbn [pool_new list_pool]. split; [done|]. split; [apply length_replicate|].
    apply set_eq. intros i. rewrite elem_list_free, lookup_replicate, elem_of_set_seq. lia.
  - intros p. cbn [lease list_pool]. destruct (list_find (eq false) p) as [[pos b]|] eqn:E.
    + apply list_find_Some in E as (Hp & <- & _). split; [by apply elem_list_free|].
      split; [|apply length_insert]. apply set_eq. intros i.
      rewrite elem_of_difference, !elem_list_free, elem_of_singleton. apply lookup_lt_Some in Hp as Hlt.
      destruct (decide (i = pos)) as [->|]; [rewrite list_lookup_insert_eq by done; naive_solver|].
      rewrite list_lookup_insert_ne by done. naive_solver.
    + apply list_find_None in E. apply set_eq. intros i. rewrite elem_list_free. split; [|set_solver].
      intros Hi. rewrite Forall_lookup in E. by specialize (E i false Hi).
  - intros p pos. cbn [give_back list_pool]. destruct (p !! pos) as [[]|] eqn:E.
    + apply lookup_lt_Some in E as Hlt. split; [done|]. split; [rewrite elem_list_free; congruence|].
      split; [|apply length_insert]. apply set_eq. intros i.
      rewrite elem_of_union, !elem_list_free, elem_of_singleton.
      destruct (decide (i = pos)) as [->|]; [rewrite list_lookup_insert_eq by done; naive_solver|].
      rewrite list_lookup_insert_ne by done. naive_solver.
    + right. by apply elem_list_free.
    + left. by apply lookup_ge_None.
Qed.

(** ** The sessions a helper hands out *)

Section helper.
Context {P : Type} `{ConnectionPoolLaws P}.
Implicit Types (db : DBHelper P) (held : list nat).

(** The positions handed out are those not free. *)
Record dinv (n : nat) (ss : list session) (st : DBHelper P * list nat) : Prop := {
  di_sessions : sessions st.1 = ss;
  di_nodup : NoDup st.2;
  di_pool : exists p, m_pool st.1 = Some p /\ pool_size p = n /\
    (forall i, i ∈ st.2 <-> i < n /\ i ∉ pool_free p) /\ (forall i, i ∈ pool_free p -> i < n);
}.

Lemma open_sessions_ok connects conn_str failover i n l :
  open_sessions connects conn_str failover i n = (l, true) -> l = replicate n (mk_session (Some conn_str) failover).
Proof.
  revert i l. induction n as [|n IH]; intros i l; simpl; [naive_solver|].
  destruct (connects i); [|done]. destruct (open_sessions _ _ _ _ _) as [l' ok] eqn:E.
  intros [= <- ->]. f_equal. by eapply IH.
Qed.

Lemma start_dinv connects db db' :
  start connects db = (db', true) ->
  let n := Z.to_nat (wrap_u 64 (m_connect_num db)) in
  0 < n /\ dinv n (replicate n (mk_session (Some (m_conn_str db)) (m_failover db))) (db', []).
Proof.
  intros Hs n. unfold start in Hs. fold n in Hs. pose proof (pool_new_law n) as Hn.
  destruct (pool_new n) as [p|]; [|done]. destruct Hn as (Hn0 & Hsize & Hfree).
  destruct (open_sessions _ _ _ _ _) as [l ok] eqn:E. injection Hs as <- ->.
  split; [lia|]. split; simpl; [by eapply open_sessions_ok|constructor|].
  exists p. split; [done|]. split; [done|]. rewrite Hfree. split; intros i; rewrite elem_of_set_seq; set_solver by lia.
Qed.

Lemma step_dinv n ss st st' : dinv n ss st -> db_step st st' -> dinv n ss st'.
Proof.
  intros [Hss Hnd (p & Hp & Hsize & Hheld & Hfree)] Hstep.
  inversion Hstep as [db db' held pos Hs|db db' held k pos Hk Hs]; subst; simpl in *.
  - unfold session_of in Hs. rewrite Hp in Hs. pose proof (lease_law p) as Hl.
    destruct (lease p) as [[pos' p']|]; [|done]. injection Hs as <- <-. destruct Hl as (Hin & Hf & Hsz).
    split; simpl; [done| |].
    + constructor; [|done]. rewrite Hheld. naive_solver.
    + exists p'. rewrite Hsz, Hf. split; [done|]. split; [done|]. split; intros i.
      * rewrite elem_of_cons, Hheld. destruct (decide (i = pos')) as [->|]; set_solver.
      * set_solver.
  - unfold session_delete in Hs. rewrite Hp in Hs. pose proof (give_back_law p pos) as Hl.
    destruct (give_back pos p) as [p'|]; [|done]. injection Hs as <-. destruct Hl as (Hlt & Hnin & Hf & Hsz).
    apply list_elem_of_split_length in Hk as (l1 & l2 & -> & ->). rewrite delete_middle.
    apply NoDup_app in Hnd as (Hn1 & Hn12 & Hn2). apply NoDup_cons in Hn2 as [Hpos Hn2].
    split; simpl; [done|apply NoDup_app; set_solver|].
    exists p'. rewrite Hsz, Hf. split; [done|]. split; [done|]. split; intros i.
    + specialize (Hheld i). specialize (Hn12 i). rewrite elem_of_app, elem_of_cons in Hheld.
      rewrite elem_of_app, not_elem_of_union, not_elem_of_singleton.
      destruct (decide (i = pos)) as [->|]; [specialize (Hn12)|]; set_solver.
    + rewrite elem_of_union, elem_of_singleton. intros [?| ->]; [auto|lia].
Qed.

Lemma run_dinv n ss st st' : dinv n ss st -> rtc db_step st st' -> dinv n ss st'.
Proof. intros Hs Hr. induction Hr; eauto using step_dinv. Qed.

(** A session is to be had exactly when fewer are out than the pool has. *)
Lemma dinv_available n ss db held : dinv n ss (db, held) ->
  length held <= n /\
  (if length held <? n then exists pos db', session_of db = (Session pos, db') /\ pos ∉ held
   else session_of db = (NoSession, db)).
Proof.
  intros [_ Hnd (p & Hp & Hsize & Hheld & Hfree)]. simpl in *.
  assert (Hsub : held ⊆+ seq 0 n).
  { apply NoDup_submseteq; [done|]. intros i Hi. apply Hheld in Hi as [Hi _]. apply elem_of_seq. lia. }
  pose proof (submseteq_length _ _ Hsub) as Hlen. rewrite length_seq in Hlen. split; [done|].
  unfold session_of. rewrite Hp. pose proof (lease_law p) as Hl. destruct (lease p) as [[pos p']|].
  - destruct Hl as (Hin & _). assert (Hpos : pos ∉ held) by (rewrite Hheld; naive_solver).
    assert (Hsub' : pos :: held ⊆+ seq 0 n).
    { apply NoDup_submseteq; [by constructor|]. intros i [->|Hi]%elem_of_cons; apply elem_of_seq.
      - specialize (Hfree pos Hin). lia.
      - apply Hheld in Hi as [Hi _]. lia. }
    apply submseteq_length in Hsub'. rewrite length_seq in Hsub'. simpl in Hsub'.
    destruct (Nat.ltb_spec (length held) n); [|lia]. eauto.
  - assert (Hsub' : seq 0 n ⊆+ held).
    { apply NoDup_submseteq; [apply NoDup_seq|]. intros i Hi%elem_of_seq. apply Hheld. set_solver by lia. }
    apply submseteq_length in Hsub'. rewrite length_seq in Hsub'.
    destruct (Nat.ltb_spec (length held) n); [lia|done].
Qed.

Lemma dinv_delete n ss db held k pos : dinv n ss (db, held) -> held !! k = Some pos ->
  is_Some (session_delete pos db).
Proof.
  intros [_ _ (p & Hp & Hsize & Hheld & _)] Hk. simpl in *. unfold session_delete. rewrite Hp.
  apply list_elem_of_lookup_2, Hheld in Hk as [Hlt Hn]. pose proof (give_back_law p pos) as Hg.
  destruct (give_back pos p) as [p'|]; [by eexists|]. destruct Hg; [lia|done].
Qed.

(** C25. After [start] has opened the sessions, in any sequence of calls of
    [session] and of destroyed session pointers: no two live pointers share a
    session; each is a session of the pool, opened with the connection string
    and given the fail-over callback; a call gets a session exactly when fewer
    pointers are alive than the pool has sessions; and destroying a pointer
    never throws. *)
Theorem db_sessions_exclusive connects db0 db1 db held :
  start connects db0 = (db1, true) -> rtc db_step (db1, []) (db, held) ->
  let n := Z.to_nat (wrap_u 64 (m_connect_num db0)) in
  NoDup held /\
  (forall pos, pos ∈ held -> sessions db !! pos = Some (mk_session (Some (m_conn_str db0)) (m_failover db0))) /\
  length held <= n /\
  (if length held <? n then exists pos db', session_of db = (Session pos, db') /\ pos ∉ held
   else session_of db = (NoSession, db)) /\
  (forall k pos, held !! k = Some pos -> is_Some (session_delete pos db)).
Proof.
  intros Hs Hr n. destruct (start_dinv _ _ _ Hs) as [Hn Hi]. pose proof (run_dinv _ _ _ _ Hi Hr) as Hd.
  destruct (dinv_available _ _ _ _ Hd) as [Hlen Hav]. split_and!; [apply Hd| |done|done|].
  - intros pos Hpos. destruct Hd as [Hss _ (p & _ & _ & Hheld & _)]. simpl in *.
    apply Hheld in Hpos as [Hpos _]. rewrite Hss. by apply lookup_replicate_2.
  - intros k pos. by eapply dinv_delete.
Qed.

End helper.

(** Two sessions, both handed out. *)
Definition two_sessions : DBHelper (list bool) := set_params (lit "host=db") 2 DBHelper_new.

Lemma db_sessions_exclusive_witness :
  exists db, rtc db_step (fst (start (fun _ => true) two_sessions), []) (db, [1; 0]) /\
    session_of db = (NoSession, db).
Proof.
  set (p := Some [true; true]). set (s := mk_session (Some (lit "host=db")) None).
  exists (mk_DBHelper None (lit "host=db") 2 p [s; s]).
  assert (Hr : rtc db_step (fst (start (fun _ => true) two_sessions), []) (mk_DBHelper None (lit "host=db") 2 p [s; s], [1; 0])).
  { eapply rtc_l; [eapply (DbSession _ _ _ 0); reflexivity|]. eapply rtc_l; [eapply (DbSession _ _ _ 1); reflexivity|]. apply rtc_refl. }
  split; [exact Hr|].
  assert (Hs : start (fun _ => true) two_sessions = (fst (start (fun _ => true) two_sessions), true)) by reflexivity.
  destruct (db_sessions_exclusive _ _ _ _ _ Hs Hr) as (_ & _ & _ & Ha & _). exact Ha.
Defined.

(** A helper that is started again while a session pointer is alive breaks
    this: the deleter gives the position back to the new pool, which then hands
    out a session that is still in use. *)
Theorem restart_shares_session :
  exists db held, rtc db_restart_step (fst (start (fun _ => true) (set_params (lit "host=db") 1 (DBHelper_new (P := list bool)))), []) (db, held) /\
    held = [0; 0].
Proof.
  set (s := mk_session (Some (lit "host=db")) None).
  exists (mk_DBHelper None (lit "host=db") 1 (Some [true]) [s]), [0; 0]. split; [|done].
  eapply rtc_l; [eapply DbStep, (DbSession _ _ _ 0); reflexivity|].
  eapply rtc_l; [apply (DbStart _ _ (fun _ => true))|].
  eapply rtc_l; [eapply DbStep, (DbSession _ _ _ 0); reflexivity|].
  eapply rtc_l; [apply DbStep, (DbDelete _ (mk_DBHelper None (lit "host=db") 1 (Some [false]) [s]) _ 1 0); reflexivity|].
  eapply rtc_l; [eapply DbStep, (DbSession _ _ _ 0); reflexivity|]. apply rtc_refl.
Qed.
