(* ===== verification/Fleet.v ===== *)
(** * Lists of program counters: what the interleaving systems share *)
From stdpp Require Import prelude list list_numbers.
From Stdlib Require Import Lia Arith.

Lemma sum_insert {X} (f : X -> nat) (l : list X) i x y :
  l !! i = Some x -> sum_list_with f (<[i := y]> l) + f x = sum_list_with f l + f y.
Proof.
  revert i. induction l as [|z l IH]; intros [|i] Hi; simpl in *; simplify_eq; [lia|].
  specialize (IH i Hi). lia.
Qed.

Lemma sum_lookup {X} (f : X -> nat) (l : list X) i x : l !! i = Some x -> f x <= sum_list_with f l.
Proof.
  revert i. induction l as [|z l IH]; intros [|i] Hi; simpl in *; simplify_eq; [lia|].
  specialize (IH i Hi). lia.
Qed.

Lemma sum_zero {X} (f : X -> nat) (l : list X) :
  (forall i x, l !! i = Some x -> f x = 0) -> sum_list_with f l = 0.
Proof.
  induction l as [|z l IH]; intros Hz; simpl; [done|].
  rewrite (Hz 0 z), IH by (done || (intros i x Hi; by apply (Hz (S i)))). done.
Qed.

(** A measure that no element raises. *)
Lemma sum_le {X} (f : nat -> X -> X) (m m' : X -> nat) (l : list X) :
  (forall i x, l !! i = Some x -> m' (f i x) <= m x) ->
  sum_list_with m' (imap f l) <= sum_list_with m l.
Proof.
  revert f. induction l as [|x l IH]; intros f Hf; simpl; [done|].
  specialize (Hf 0 x eq_refl) as Hx.
  assert (sum_list_with m' (imap (f ∘ S) l) <= sum_list_with m l); [|simpl in *; lia].
  apply IH. intros i y Hy. by apply (Hf (S i)).
Qed.

Lemma sum_imap_same {X} (f : nat -> X -> X) (m : X -> nat) (l : list X) :
  (forall i x, l !! i = Some x -> m (f i x) = m x) -> sum_list_with m (imap f l) = sum_list_with m l.
Proof.
  revert f. induction l as [|x l IH]; intros f Hf; simpl; [done|].
  rewrite (Hf 0 x eq_refl). f_equal. apply IH. intros i y Hy. by apply (Hf (S i)).
Qed.

Lemma sum_mono {X} (m m' : X -> nat) (l : list X) :
  (forall x, x ∈ l -> m' x <= m x) -> sum_list_with m' l <= sum_list_with m l.
Proof.
  induction l as [|x l IH]; intros Hl; simpl; [done|].
  assert (m' x <= m x) by (apply Hl; set_solver).
  assert (sum_list_with m' l <= sum_list_with m l) by (apply IH; set_solver). lia.
Qed.

Lemma sum_replicate {X} (m : X -> nat) n x : sum_list_with m (replicate n x) = n * m x.
Proof. induction n as [|n IH]; simpl; [done|]. by rewrite IH. Qed.

(** A lookup after an update. *)
Lemma insert_lookup_cases {X} (l : list X) i j t t' :
  <[i := t]> l !! j = Some t' -> i = j /\ t = t' \/ i <> j /\ l !! j = Some t'.
Proof.
  destruct (decide (i = j)) as [->|Hne].
  - intros Hj. assert (j < length l) by (apply lookup_lt_Some in Hj; by rewrite length_insert in Hj).
    rewrite list_lookup_insert_eq in Hj by done. left. by simplify_eq.
  - rewrite list_lookup_insert_ne by done. by right.
Qed.

(** ** Counting *)

Section count.
Context {X : Type} (f : X -> bool).

Definition count_of (l : list X) : nat := sum_list_with (fun x => if f x then 1 else 0) l.

(** The positions of the elements counted, from [k] on. *)
Fixpoint positions (k : nat) (l : list X) : list nat :=
  match l with
  | [] => []
  | x :: l' => (if f x then [k] else []) ++ positions (S k) l'
  end.

Lemma positions_length k l : length (positions k l) = count_of l.
Proof.
  unfold count_of. revert k. induction l as [|x l IH]; intros k; simpl; [done|].
  rewrite length_app, IH. by destruct (f x).
Qed.

Lemma elem_of_positions k l i :
  i ∈ positions k l <-> exists d x, i = k + d /\ l !! d = Some x /\ f x = true.
Proof.
  revert k. induction l as [|x l IH]; intros k; simpl; [set_solver|].
  rewrite elem_of_app, IH. split.
  - intros [Hi|(d & y & -> & Hy)]; [|exists (S d), y; split; [lia|done]].
    destruct (f x) eqn:E; [|set_solver]. assert (i = k) as -> by set_solver. exists 0, x. split; [lia|done].
  - intros ([|d] & y & -> & Hy & Hf); simpl in Hy; [simplify_eq; left; rewrite Hf, Nat.add_0_r; set_solver|].
    right. exists d, y. split; [lia|done].
Qed.

Lemma positions_nodup k l : NoDup (positions k l).
Proof.
  revert k. induction l as [|x l IH]; intros k; simpl; [constructor|]. destruct (f x); [|apply IH].
  simpl. constructor; [|apply IH]. intros (d & y & ? & _)%elem_of_positions. lia.
Qed.

(** Different positions of counted elements are at most as many. *)
Lemma count_at_least q l :
  NoDup q -> (forall i, i ∈ q -> exists x, l !! i = Some x /\ f x = true) -> length q <= count_of l.
Proof.
  intros Hq Hl. rewrite <- (positions_length 0). apply submseteq_length, NoDup_submseteq; [done|].
  intros i Hi. apply elem_of_positions. destruct (Hl i Hi) as (x & Hx & Hf). by exists i, x.
Qed.

(** A list that has them all is at least as long. *)
Lemma count_at_most q l :
  (forall i x, l !! i = Some x -> f x = true -> i ∈ q) -> count_of l <= length q.
Proof.
  intros Hl. rewrite <- (positions_length 0). apply submseteq_length, NoDup_submseteq; [apply positions_nodup|].
  intros i (d & x & -> & Hx & Hf)%elem_of_positions. by eapply Hl.
Qed.

Lemma count_insert l i x y : l !! i = Some x ->
  count_of (<[i := y]> l) + (if f x then 1 else 0) = count_of l + (if f y then 1 else 0).
Proof. apply (sum_insert (fun x => if f x then 1 else 0)). Qed.
End count.
