(* ===== verification/Channel.v ===== *)
(** * boost/fiber/buffered_channel.hpp: the channel that common/fiber/wait_stuff.hpp is built on

    A ring buffer with one slot kept free, closed once.  An operation that has
    to wait leaves the channel as it is and is tried again; the queues in which
    fibers wait are in [ChannelWait].  The interface the
    waiting functions rely on is a class, [Channel], with its laws: a bounded
    queue; the ring buffer is shown to be one. *)
From stdpp Require Import prelude list.
From Stdlib Require Import Lia Arith.
From S2P Require Import Prelude.

(** ** The interface *)

Inductive push_status : Type := PushOk | PushClosed | PushWait.

Inductive pop_status (T : Type) : Type :=
| PopOk (value : T)
| PopClosed
| PopWait.
Arguments PopOk {T} value.
Arguments PopClosed {T}.
Arguments PopWait {T}.

Class Channel (T C : Type) : Type := {
  ch_push : T -> C -> push_status * C;
  ch_pop : C -> pop_status T * C;
  ch_close : C -> C;
  ch_new : C;
  ch_contents : C -> list T;
  ch_closed : C -> bool;
  ch_room : nat;                (* values it holds at most *)
  ch_ok : C -> Prop;
}.

(** What a bounded queue does. *)
Class ChannelLaws (T C : Type) `{Channel T C} : Prop := {
  room_pos : 0 < ch_room;
  new_law : ch_ok ch_new /\ ch_contents ch_new = [] /\ ch_closed ch_new = false;
  push_law c v : ch_ok c ->
    if ch_closed c then ch_push v c = (PushClosed, c)
    else if length (ch_contents c) <? ch_room then
      exists c', ch_push v c = (PushOk, c') /\ ch_ok c' /\
        ch_contents c' = ch_contents c ++ [v] /\ ch_closed c' = false
    else ch_push v c = (PushWait, c);
  pop_law c : ch_ok c ->
    match ch_contents c with
    | v :: rest => exists c', ch_pop c = (PopOk v, c') /\ ch_ok c' /\
        ch_contents c' = rest /\ ch_closed c' = ch_closed c
    | [] => ch_pop c = (if ch_closed c then PopClosed else PopWait, c)
    end;
  close_law c : ch_ok c ->
    ch_ok (ch_close c) /\ ch_contents (ch_close c) = ch_contents c /\ ch_closed (ch_close c) = true;
}.

(** ** The ring buffer *)

Record buffered_channel (T : Type) : Type := mk_buffered_channel {
  slots_ : list T;
  pidx_ : nat;
  cidx_ : nat;
  capacity_ : nat;
  closed_ : bool;
}.
Arguments mk_buffered_channel {T}.
Arguments slots_ {T}.
Arguments pidx_ {T}.
Arguments cidx_ {T}.
Arguments capacity_ {T}.
Arguments closed_ {T}.

Section ring.
Context {T : Type} (dflt : T).   (* what a fresh slot holds *)
Implicit Types (c : buffered_channel T).

Definition is_full_ c : bool := cidx_ c =? (pidx_ c + 1) mod capacity_ c.

Definition is_empty_ c : bool := cidx_ c =? pidx_ c.

(** The constructor: [None] is the exception for a capacity that is no power
    of two, or below two. *)
Definition buffered_channel_new (capacity : nat) : option (buffered_channel T) :=
  if (capacity <? 2) || negb (Nat.land capacity (capacity - 1) =? 0) then None
  else Some (mk_buffered_channel (replicate capacity dflt) 0 0 capacity false).

Definition close c : buffered_channel T :=
  mk_buffered_channel (slots_ c) (pidx_ c) (cidx_ c) (capacity_ c) true.

Definition push (value : T) c : push_status * buffered_channel T :=
  if closed_ c then (PushClosed, c)
  else if is_full_ c then (PushWait, c)
  else (PushOk, mk_buffered_channel (<[pidx_ c := value]> (slots_ c)) ((pidx_ c + 1) mod capacity_ c)
                  (cidx_ c) (capacity_ c) (closed_ c)).

Definition pop c : pop_status T * buffered_channel T :=
  if is_empty_ c then (if closed_ c then PopClosed else PopWait, c)
  else (PopOk (nth (cidx_ c) (slots_ c) dflt),
        mk_buffered_channel (slots_ c) (pidx_ c) ((cidx_ c + 1) mod capacity_ c) (capacity_ c) (closed_ c)).

(** The values in the ring, in order. *)
Definition count c : nat := (pidx_ c + capacity_ c - cidx_ c) mod capacity_ c.

Definition contents c : list T :=
  map (fun k => nth ((cidx_ c + k) mod capacity_ c) (slots_ c) dflt) (seq 0 (count c)).

Record ring_ok (capacity : nat) c : Prop := {
  ok_capacity : capacity_ c = capacity;
  ok_slots : length (slots_ c) = capacity;
  ok_pidx : pidx_ c < capacity;
  ok_cidx : cidx_ c < capacity;
}.

Lemma mod_next a n : a < n -> (a + 1) mod n = if a + 1 =? n then 0 else a + 1.
Proof.
  intros Ha. destruct (Nat.eqb_spec (a + 1) n) as [->|]; [apply Nat.Div0.mod_same|].
  apply Nat.mod_small. lia.
Qed.

(** The distance from the consumer to the producer, without the modulus. *)
Lemma count_cases n c :
  ring_ok n c -> count c = if cidx_ c <=? pidx_ c then pidx_ c - cidx_ c else pidx_ c + n - cidx_ c.
Proof.
  intros [Hc _ Hp Hq]. unfold count. rewrite Hc. destruct (Nat.leb_spec (cidx_ c) (pidx_ c)).
  - replace (pidx_ c + n - cidx_ c) with (pidx_ c - cidx_ c + 1 * n) by lia.
    rewrite Nat.Div0.mod_add. apply Nat.mod_small. lia.
  - apply Nat.mod_small. lia.
Qed.

Lemma pos_cases n a k : a < n -> k < n -> (a + k) mod n = if a + k <? n then a + k else a + k - n.
Proof.
  intros Ha Hk. destruct (Nat.ltb_spec (a + k) n); [by apply Nat.mod_small|].
  replace (a + k) with (a + k - n + 1 * n) at 1 by lia. rewrite Nat.Div0.mod_add.
  apply Nat.mod_small. lia.
Qed.

Lemma contents_length c : length (contents c) = count c.
Proof. unfold contents. by rewrite length_map, length_seq. Qed.

Lemma full_count n c : ring_ok n c -> 2 <= n -> is_full_ c = negb (count c <? n - 1).
Proof.
  intros Hok Hn. rewrite (count_cases n c Hok). destruct Hok as [Hc _ Hp Hq]. unfold is_full_.
  rewrite Hc, mod_next by done.
  destruct (Nat.eqb_spec (pidx_ c + 1) n), (Nat.leb_spec (cidx_ c) (pidx_ c));
    match goal with |- (?a =? ?b) = negb (?d <? ?e) =>
      destruct (Nat.eqb_spec a b), (Nat.ltb_spec d e) end; simpl; lia.
Qed.

Lemma empty_count n c : ring_ok n c -> is_empty_ c = (count c =? 0).
Proof.
  intros Hok. rewrite (count_cases n c Hok). destruct Hok as [Hc _ Hp Hq]. unfold is_empty_.
  destruct (Nat.leb_spec (cidx_ c) (pidx_ c));
    match goal with |- (?a =? ?b) = (?d =? ?e) =>
      destruct (Nat.eqb_spec a b), (Nat.eqb_spec d e) end; lia.
Qed.

Lemma push_contents n c v :
  2 <= n -> ring_ok n c -> is_full_ c = false ->
  let c' := mk_buffered_channel (<[pidx_ c := v]> (slots_ c)) ((pidx_ c + 1) mod capacity_ c)
              (cidx_ c) (capacity_ c) (closed_ c) in
  ring_ok n c' /\ contents c' = contents c ++ [v].
Proof.
  intros Hn Hok Hf c'. rewrite (full_count n c Hok Hn) in Hf. apply negb_false_iff, Nat.ltb_lt in Hf.
  pose proof (count_cases n c Hok) as Hcount. destruct Hok as [Hc Hs Hp Hq].
  assert (Hok' : ring_ok n c').
  { split; simpl; rewrite ?length_insert; [done|done|rewrite Hc; apply Nat.mod_upper_bound; lia|done]. }
  split; [done|]. unfold contents.
  assert (Hcount' : count c' = count c + 1).
  { rewrite (count_cases n c' Hok'). simpl. rewrite Hc, mod_next, Hcount by done.
    destruct (Nat.eqb_spec (pidx_ c + 1) n), (Nat.leb_spec (cidx_ c) (pidx_ c));
      match goal with |- (if ?b then _ else _) = _ => destruct b eqn:E end;
      rewrite ?Nat.leb_le, ?Nat.leb_gt in E; lia. }
  rewrite Hcount', Nat.add_1_r, seq_S, map_app. simpl. rewrite Hc.
  assert (Hend : (cidx_ c + count c) mod n = pidx_ c).
  { rewrite pos_cases by lia. rewrite Hcount. destruct (Nat.leb_spec (cidx_ c) (pidx_ c)), (Nat.ltb_spec (cidx_ c + (pidx_ c - cidx_ c)) n), (Nat.ltb_spec (cidx_ c + (pidx_ c + n - cidx_ c)) n); lia. }
  f_equal.
  - apply map_ext_in. intros k Hk%in_seq. assert ((cidx_ c + k) mod n <> pidx_ c).
    { rewrite <- Hend, !pos_cases by lia.
      destruct (Nat.ltb_spec (cidx_ c + k) n), (Nat.ltb_spec (cidx_ c + count c) n); lia. }
    rewrite !nth_lookup. by rewrite list_lookup_insert_ne.
  - rewrite Hend, nth_lookup, list_lookup_insert_eq by lia. done.
Qed.

Lemma pop_contents n c :
  2 <= n -> ring_ok n c -> is_empty_ c = false ->
  let c' := mk_buffered_channel (slots_ c) (pidx_ c) ((cidx_ c + 1) mod capacity_ c) (capacity_ c)
              (closed_ c) in
  ring_ok n c' /\ contents c = nth (cidx_ c) (slots_ c) dflt :: contents c'.
Proof.
  intros Hn Hok He c'. rewrite (empty_count n c Hok) in He. apply Nat.eqb_neq in He.
  pose proof (count_cases n c Hok) as Hcount. destruct Hok as [Hc Hs Hp Hq].
  assert (Hok' : ring_ok n c').
  { split; simpl; [done|done|done|rewrite Hc; apply Nat.mod_upper_bound; lia]. }
  split; [done|]. unfold contents.
  assert (Hcount' : count c = S (count c')).
  { rewrite (count_cases n c' Hok'). simpl. rewrite Hc, mod_next by done. rewrite Hcount in He |- *.
    destruct (Nat.eqb_spec (cidx_ c + 1) n), (Nat.leb_spec (cidx_ c) (pidx_ c));
      match goal with |- _ = S (if ?b then _ else _) => destruct b eqn:E end;
      rewrite ?Nat.leb_le, ?Nat.leb_gt in E; lia. }
  rewrite Hcount'. cbn [seq map]. rewrite Nat.add_0_r, Hc, Nat.mod_small by done. f_equal.
  rewrite <- seq_shift, map_map. apply map_ext. intros k. simpl. rewrite Hc.
  rewrite Nat.Div0.add_mod_idemp_l. do 2 f_equal. lia.
Qed.

End ring.

(** The channels of wait_stuff.hpp are made with capacity 64. *)
Definition channel_capacity : nat := 64.

Lemma capacity_two : 2 <= channel_capacity.
Proof. repeat constructor. Qed.

Section instance.
Context {T : Type} `{Inhabited T}.

(** The constructor accepts the capacity. *)
Definition channel_64 : buffered_channel T :=
  default (mk_buffered_channel [] 0 0 0 true) (buffered_channel_new inhabitant channel_capacity).

#[global] Arguments channel_64 : simpl never.
#[global] Arguments channel_capacity : simpl never.

Lemma channel_64_eq :
  channel_64 = mk_buffered_channel (replicate channel_capacity inhabitant) 0 0 channel_capacity false.
Proof. vm_compute. reflexivity. Qed.

#[export] Instance ring_Channel : Channel T (buffered_channel T) := {|
  ch_push := push;
  ch_pop := pop inhabitant;
  ch_close := close;
  ch_new := channel_64;
  ch_contents := contents inhabitant;
  ch_closed := closed_;
  ch_room := channel_capacity - 1;
  ch_ok := ring_ok channel_capacity;
|}.

#[export] Instance ring_ChannelLaws : ChannelLaws T (buffered_channel T).
Proof.
  split.
  - apply Nat.lt_0_succ.
  - cbn [ch_ok ch_new ch_contents ch_closed ring_Channel]. rewrite channel_64_eq. split; [|done].
    split; cbn [capacity_ slots_ pidx_ cidx_]; [done|apply length_replicate|apply Nat.lt_0_succ..].
  - intros c v Hok. cbn [ch_push ch_contents ch_closed ch_room ch_ok ring_Channel] in *. unfold push. destruct (closed_ c) eqn:Ec; [done|].
    pose proof (full_count channel_capacity c Hok capacity_two) as Hf. rewrite contents_length.
    destruct (is_full_ c) eqn:Ef; symmetry in Hf.
    + apply negb_true_iff in Hf. by rewrite Hf.
    + apply negb_false_iff in Hf. rewrite Hf.
      destruct (push_contents inhabitant channel_capacity c v) as [Hok' Hc']; [apply capacity_two|done..|].
      rewrite Ec in *. eauto.
  - intros c Hok. simpl in *. unfold pop. destruct (is_empty_ c) eqn:E.
    + rewrite (empty_count channel_capacity c Hok) in E. apply Nat.eqb_eq in E.
      rewrite <- (contents_length inhabitant) in E. apply nil_length_inv in E. by rewrite E.
    + destruct (pop_contents inhabitant channel_capacity c) as [Hok' ->];
        [apply capacity_two|done|done|]. eauto.
  - intros c [H1 H2 H3 H4]. simpl. split; [by split|done].
Qed.

(** C16. The ring buffer with 64 slots is a queue of at most 63 values: a push
    appends unless the channel is closed or full, a pop takes the oldest value,
    also after the channel is closed, and reports the closing only when nothing
    is left; closing keeps the values. *)
Theorem ring_is_bounded_queue : ChannelLaws T (buffered_channel T).
Proof. apply ring_ChannelLaws. Qed.

End instance.
