(* ===== verification/ChannelWait.v ===== *)
(** * boost/fiber/buffered_channel.hpp: fibers that wait at a channel

    A fiber whose push finds the channel full, or whose pop finds it empty, links
    itself into a queue of the channel and is suspended; a push that succeeds
    takes a waiting consumer out of its queue and schedules it, a pop a waiting
    producer, and [close] schedules all.  Each operation is atomic up to the
    release of the spin lock; the scheduling of a fiber taken out of a queue comes
    after it.  A fiber that is scheduled tries its operation again.

    The theorem: whatever the fibers do and however they interleave, the queues
    implement the channel of [Channel] in which an operation that has to wait is
    simply not enabled.  No wakeup is lost. *)
From stdpp Require Import prelude list list_numbers relations.
From Stdlib Require Import Lia Arith ZArith.
From S2P Require Import Prelude Fleet Channel.

(** ** Fibers *)

Inductive chan_op (T : Type) : Type :=
| OpPush (value : T)
| OpPop
| OpClose.
Arguments OpPush {T} value.
Arguments OpPop {T}.
Arguments OpClose {T}.

(** What an operation returns: whether the value was pushed, the value popped
    or that the channel is closed. *)
Inductive op_result (T : Type) : Type :=
| DidPush (success : bool)
| DidPop (value : option T)
| DidClose.
Arguments DidPush {T} success.
Arguments DidPop {T} value.
Arguments DidClose {T}.

(** Where a fiber is: about to take the lock, suspended, or past the lock with a
    fiber to schedule. *)
Inductive fiber_place : Type := FRun | FSuspended | FSchedule (j : nat).

(** A fiber: the operations it will make, what the ones made returned, and the
    word by which timed waits are told from others. *)
Record context (T : Type) : Type := mk_context {
  todo : list (chan_op T);
  results : list (op_result T);
  place : fiber_place;
  twstatus : Z;
}.
Arguments mk_context {T}.
Arguments todo {T}.
Arguments results {T}.
Arguments place {T}.
Arguments twstatus {T}.

Definition set_place {T} (p : fiber_place) (x : context T) : context T :=
  mk_context (todo x) (results x) p (twstatus x).

Definition set_twstatus {T} (w : Z) (x : context T) : context T :=
  mk_context (todo x) (results x) (place x) w.

(** The operation at the head returns. *)
Definition returns {T} (r : op_result T) (x : context T) : context T :=
  mk_context (tail (todo x)) (results x ++ [r]) (place x) (twstatus x).

(** ** The channel with its queues *)

Section channel.
Context {T C : Type} `{Channel T C}.

(** The address of the channel. *)
Context (this_ : Z).

Record channel_state : Type := mk_channel_state {
  cs_chan : C;
  waiting_producers_ : list nat;
  waiting_consumers_ : list nat;
  contexts : list (context T);
}.

(** The loop that notifies one waiting fiber: which, the queue and the fibers
    after it.  [twstatus.compare_exchange_strong(expected, -1)] leaves in
    [expected] what it found. *)
Fixpoint notify_one (q : list nat) (fs : list (context T)) : option nat * list nat * list (context T) :=
  match q with
  | [] => (None, [], fs)
  | j :: q' =>
      match fs !! j with
      | None => notify_one q' fs
      | Some x =>
          if (twstatus x =? this_)%Z then (Some j, q', <[j := set_twstatus (-1) x]> fs)
          else if (twstatus x =? 0)%Z then (Some j, q', fs)
          else notify_one q' fs
      end
  end.

(** [context::schedule]. *)
Definition schedule_fiber (j : nat) (fs : list (context T)) : list (context T) := alter (set_place FRun) j fs.

(** The loop of [close] that notifies all. *)
Fixpoint notify_all (q : list nat) (fs : list (context T)) : list (context T) :=
  match q with
  | [] => fs
  | j :: q' =>
      match fs !! j with
      | None => notify_all q' fs
      | Some x =>
          if (twstatus x =? this_)%Z then notify_all q' (schedule_fiber j (<[j := set_twstatus (-1) x]> fs))
          else if (twstatus x =? 0)%Z then notify_all q' (schedule_fiber j fs)
          else notify_all q' fs
      end
  end.

(** [wait_link], the store to [twstatus] and [suspend]. *)
Definition suspended (x : context T) : context T := set_place FSuspended (set_twstatus 0 x).

(** After the lock is released: the notified fiber is to be scheduled. *)
Definition scheduling (w : option nat) (x : context T) : context T :=
  match w with Some j => set_place (FSchedule j) x | None => x end.

(** One turn of the loop of [push] by fiber [i]. *)
Definition push_turn (i : nat) (x : context T) (value : T) (s : channel_state) : channel_state :=
  match ch_push value (cs_chan s) with
  | (PushClosed, c) =>
      mk_channel_state c (waiting_producers_ s) (waiting_consumers_ s)
        (<[i := returns (DidPush false) x]> (contexts s))
  | (PushWait, c) =>
      mk_channel_state c (waiting_producers_ s ++ [i]) (waiting_consumers_ s)
        (<[i := suspended x]> (contexts s))
  | (PushOk, c) =>
      let '(w, q, fs) := notify_one (waiting_consumers_ s) (contexts s) in
      mk_channel_state c (waiting_producers_ s) q
        (<[i := scheduling w (returns (DidPush true) x)]> fs)
  end.

(** One turn of the loop of [pop] and of [value_pop]. *)
Definition pop_turn (i : nat) (x : context T) (s : channel_state) : channel_state :=
  match ch_pop (cs_chan s) with
  | (PopClosed, c) =>
      mk_channel_state c (waiting_producers_ s) (waiting_consumers_ s)
        (<[i := returns (DidPop None) x]> (contexts s))
  | (PopWait, c) =>
      mk_channel_state c (waiting_producers_ s) (waiting_consumers_ s ++ [i])
        (<[i := suspended x]> (contexts s))
  | (PopOk v, c) =>
      let '(w, q, fs) := notify_one (waiting_producers_ s) (contexts s) in
      mk_channel_state c q (waiting_consumers_ s)
        (<[i := scheduling w (returns (DidPop (Some v)) x)]> fs)
  end.

(** [close]; the queues are emptied when it is the first. *)
Definition close_turn (i : nat) (x : context T) (s : channel_state) : channel_state :=
  if ch_closed (cs_chan s) then
    mk_channel_state (cs_chan s) (waiting_producers_ s) (waiting_consumers_ s)
      (<[i := returns DidClose x]> (contexts s))
  else
    mk_channel_state (ch_close (cs_chan s)) [] []
      (<[i := returns DidClose x]> (notify_all (waiting_consumers_ s) (notify_all (waiting_producers_ s) (contexts s)))).

Definition op_turn (i : nat) (x : context T) (o : chan_op T) : channel_state -> channel_state :=
  match o with OpPush v => push_turn i x v | OpPop => pop_turn i x | OpClose => close_turn i x end.

(** [schedule] after the lock. *)
Definition schedule_turn (i : nat) (x : context T) (j : nat) (s : channel_state) : channel_state :=
  mk_channel_state (cs_chan s) (waiting_producers_ s) (waiting_consumers_ s)
    (schedule_fiber j (<[i := set_place FRun x]> (contexts s))).

Inductive channel_step : channel_state -> channel_state -> Prop :=
| StepOp i x o os s :
    contexts s !! i = Some x -> place x = FRun -> todo x = o :: os -> channel_step s (op_turn i x o s)
| StepSchedule i x j s :
    contexts s !! i = Some x -> place x = FSchedule j -> channel_step s (schedule_turn i x j s).

Definition channel_stuck (s : channel_state) : Prop := forall s', ~ channel_step s s'.

(** Fibers with their operations at a fresh channel. *)
Definition channel_start (programs : list (list (chan_op T))) : channel_state :=
  mk_channel_state ch_new [] [] (map (fun p => mk_context p [] FRun 0) programs).

(** ** The specification: an operation that has to wait is not enabled *)

Definition apply_op (o : chan_op T) (c : C) : option (op_result T * C) :=
  match o with
  | OpPush v => match ch_push v c with
                | (PushOk, c') => Some (DidPush true, c')
                | (PushClosed, c') => Some (DidPush false, c')
                | (PushWait, _) => None
                end
  | OpPop => match ch_pop c with
             | (PopOk v, c') => Some (DidPop (Some v), c')
             | (PopClosed, c') => Some (DidPop None, c')
             | (PopWait, _) => None
             end
  | OpClose => Some (DidClose, if ch_closed c then c else ch_close c)
  end.

Record retry_state : Type := mk_retry_state {
  rt_chan : C;
  rt_fibers : list (list (chan_op T) * list (op_result T));
}.

Inductive retry_step : retry_state -> retry_state -> Prop :=
| Retry i o os rs r c s :
    rt_fibers s !! i = Some (o :: os, rs) -> apply_op o (rt_chan s) = Some (r, c) ->
    retry_step s (mk_retry_state c (<[i := (os, rs ++ [r])]> (rt_fibers s))).

Definition retry_start (programs : list (list (chan_op T))) : retry_state :=
  mk_retry_state ch_new (map (fun p => (p, [])) programs).

(** What is left of a state without its queues. *)
Definition ops (x : context T) : list (chan_op T) * list (op_result T) := (todo x, results x).

Definition forget (s : channel_state) : retry_state :=
  mk_retry_state (cs_chan s) (map ops (contexts s)).

End channel.
Arguments channel_state : clear implicits.
Arguments retry_state : clear implicits.

(** ** The queues and the fibers *)

Definition is_push {T} (y : list (chan_op T) * list (op_result T)) : bool :=
  match y.1 with OpPush _ :: _ => true | _ => false end.
Definition is_pop {T} (y : list (chan_op T) * list (op_result T)) : bool :=
  match y.1 with OpPop :: _ => true | _ => false end.

Section links.
Context {T : Type}.
Implicit Types (x : context T) (fs : list (context T)) (q : list nat).

(** Fiber [i] is about to schedule fiber [j]. *)
Definition schedules fs (i j : nat) : Prop := exists x, fs !! i = Some x /\ place x = FSchedule j.

Definition is_suspended fs (j : nat) : Prop :=
  exists x, fs !! j = Some x /\ place x = FSuspended /\ twstatus x = 0%Z.

(** The fibers linked into a queue are suspended; every suspended fiber is linked
    once, or exactly one fiber is about to schedule it. *)
Record links fs q : Prop := {
  lk_linked j : j ∈ q -> is_suspended fs j;
  lk_nodup : NoDup q;
  lk_target i j : schedules fs i j -> (j ∉ q) /\ is_suspended fs j;
  lk_once i i' j : schedules fs i j -> schedules fs i' j -> i = i';
  lk_suspended j x : fs !! j = Some x -> place x = FSuspended -> (j ∈ q) \/ exists i, schedules fs i j;
}.

#[export] Instance links_proper fs : Proper ((≡ₚ) ==> iff) (links fs).
Proof.
  assert (Hp : forall q q', q ≡ₚ q' -> links fs q -> links fs q').
  { intros q q' E [H1 H2 H3 H4 H5]. split; try setoid_rewrite <- E; done. }
  intros q q' E. split; apply Hp; [done|by symmetry].
Qed.

Lemma lookup_place fs i x j : fs !! i = Some x -> is_suspended fs j -> place x <> FSuspended -> i <> j.
Proof. intros Hi (y & Hy & Hp & _) Hx ->. congruence. Qed.

(** An update of a fiber that is not suspended leaves the suspended ones alone. *)
Lemma suspended_insert fs i x x' j :
  fs !! i = Some x -> place x <> FSuspended -> is_suspended fs j -> is_suspended (<[i := x']> fs) j.
Proof.
  intros Hi Hx Hj. pose proof (lookup_place _ _ _ _ Hi Hj Hx). destruct Hj as (y & Hy & ?).
  exists y. by rewrite list_lookup_insert_ne.
Qed.

Lemma schedules_insert fs i x x' a j : fs !! i = Some x ->
  schedules (<[i := x']> fs) a j <-> (a = i /\ place x' = FSchedule j) \/ (a <> i /\ schedules fs a j).
Proof.
  intros Hi. assert (i < length fs) by (by eapply lookup_lt_Some). unfold schedules.
  destruct (decide (a = i)) as [->|Hne]; [rewrite list_lookup_insert_eq by done|rewrite list_lookup_insert_ne by done];
    naive_solver.
Qed.

Lemma schedules_running fs i x j : fs !! i = Some x -> place x = FRun -> ~ schedules fs i j.
Proof. intros Hi Hp (y & Hy & Hs). congruence. Qed.

Lemma run_not_linked fs q i x : links fs q -> fs !! i = Some x -> place x <> FSuspended -> i ∉ q.
Proof. intros Hl Hi Hx Hin. by apply (lookup_place fs i x i Hi (lk_linked _ _ Hl i Hin) Hx). Qed.

(** A running fiber goes on. *)
Lemma links_stay fs q i x x' :
  links fs q -> fs !! i = Some x -> place x = FRun -> place x' = FRun -> links (<[i := x']> fs) q.
Proof.
  intros Hl Hi Hx Hx'. assert (Hs : forall a j, schedules (<[i := x']> fs) a j <-> schedules fs a j).
  { intros a j. rewrite schedules_insert by done. pose proof (schedules_running _ _ _ j Hi Hx).
    destruct (decide (a = i)) as [->|]; naive_solver congruence. }
  split; try setoid_rewrite Hs; try apply Hl.
  - intros j Hj. eapply suspended_insert; [done|congruence|by apply Hl].
  - intros a j Haj. destruct (lk_target _ _ Hl a j Haj). split; [done|].
    eapply suspended_insert; [done|congruence|done].
  - intros j y [[<- <-]|[_ Hj]]%insert_lookup_cases Hy; [congruence|]. by eapply Hl.
Qed.

(** A running fiber links itself into a queue. *)
Lemma links_wait fs q i x :
  links fs q -> fs !! i = Some x -> place x = FRun -> links (<[i := suspended x]> fs) (i :: q).
Proof.
  intros Hl Hi Hx. assert (Hs : forall a j, schedules (<[i := suspended x]> fs) a j <-> schedules fs a j).
  { intros a j. rewrite schedules_insert by done. pose proof (schedules_running _ _ _ j Hi Hx).
    destruct (decide (a = i)) as [->|]; naive_solver congruence. }
  assert (i < length fs) by (by eapply lookup_lt_Some).
  assert (Hni : i ∉ q) by (eapply run_not_linked; [done..|congruence]).
  split; try setoid_rewrite Hs; try apply Hl.
  - intros j [->|Hj]%elem_of_cons; [|eapply suspended_insert; [done|congruence|by apply Hl]].
    eexists. by rewrite list_lookup_insert_eq.
  - constructor; [done|apply Hl].
  - intros a j Haj. destruct (lk_target _ _ Hl a j Haj) as [Hn Hj]. split.
    + apply not_elem_of_cons. split; [|done]. intros ->. by apply (lookup_place fs i x i Hi Hj); [congruence|].
    + eapply suspended_insert; [done|congruence|done].
  - intros j y [[<- <-]|[_ Hj]]%insert_lookup_cases Hy; [left; set_solver|].
    destruct (lk_suspended _ _ Hl j y Hj Hy); [left; set_solver|by right].
Qed.

(** A running fiber takes the first fiber out of a queue. *)
Lemma links_notify fs q i x x' j :
  links fs (j :: q) -> fs !! i = Some x -> place x = FRun -> place x' = FSchedule j -> links (<[i := x']> fs) q.
Proof.
  intros Hl Hi Hx Hx'. pose proof (lk_nodup _ _ Hl) as [Hnj Hq]%NoDup_cons.
  assert (Hnone : forall a, ~ schedules fs a j) by (intros a Haj; apply (lk_target _ _ Hl) in Haj; set_solver).
  assert (Hsus : forall k, is_suspended fs k -> is_suspended (<[i := x']> fs) k)
    by (intros k; eapply suspended_insert; [done|congruence]).
  split; [..|done| | |].
  - intros k Hk. apply Hsus, Hl. set_solver.
  - intros a k. rewrite schedules_insert by done. intros [[-> Hk]|[_ Hk]].
    + assert (k = j) as -> by congruence. split; [done|]. apply Hsus, Hl. set_solver.
    + destruct (lk_target _ _ Hl a k Hk). split; [set_solver|by apply Hsus].
  - intros a b k. rewrite !schedules_insert by done. intros [[-> Hk]|[_ Hk]] [[-> Hk']|[_ Hk']]; [done|..].
    + exfalso. apply (Hnone b). by assert (k = j) as -> by congruence.
    + exfalso. apply (Hnone a). by assert (k = j) as -> by congruence.
    + by eapply Hl.
  - intros k y [[<- <-]|[_ Hk]]%insert_lookup_cases Hy; [congruence|].
    setoid_rewrite (schedules_insert _ _ _ _ _ _ Hi).
    destruct (lk_suspended _ _ Hl k y Hk Hy) as [[->|Hin]%elem_of_cons|[a Ha]]; [right; by exists i; left|by left|].
    right. exists a. right. split; [|done]. intros ->.
    exact (schedules_running _ _ _ k Hi Hx Ha).
Qed.

(** A suspended fiber is made to run. *)
Lemma schedules_alter fs a b j : is_suspended fs j ->
  schedules (schedule_fiber j fs) a b <-> schedules fs a b.
Proof.
  intros (y & Hy & Hp & _). unfold schedules, schedule_fiber. destruct (decide (a = j)) as [->|Hne].
  - rewrite list_lookup_alter_eq, Hy. simpl. naive_solver congruence.
  - by rewrite list_lookup_alter_ne.
Qed.

Lemma suspended_alter fs j k : is_suspended fs k -> k <> j -> is_suspended (schedule_fiber j fs) k.
Proof. intros (y & Hy & ?) Hne. exists y. unfold schedule_fiber. by rewrite list_lookup_alter_ne. Qed.

Lemma alter_suspended fs j k y : schedule_fiber j fs !! k = Some y -> place y = FSuspended ->
  k <> j /\ fs !! k = Some y.
Proof.
  unfold schedule_fiber. destruct (decide (k = j)) as [->|Hne]; [|by rewrite list_lookup_alter_ne].
  rewrite list_lookup_alter_eq. by destruct (fs !! j); intros; simplify_eq/=.
Qed.

(** [close] schedules a fiber it has taken out of a queue. *)
Lemma links_wake fs q j : links fs (j :: q) -> links (schedule_fiber j fs) q.
Proof.
  intros Hl. pose proof (lk_nodup _ _ Hl) as [Hnj Hq]%NoDup_cons.
  assert (Hj : is_suspended fs j) by (apply Hl; set_solver).
  assert (Hs : forall a b, schedules (schedule_fiber j fs) a b <-> schedules fs a b)
    by (intros a b; by apply schedules_alter).
  split; try setoid_rewrite Hs; [| done| |apply Hl|].
  - intros k Hk. apply suspended_alter; [apply Hl; set_solver|by intros ->].
  - intros a b Hab. destruct (lk_target _ _ Hl a b Hab) as [Hn Hb]. split; [set_solver|].
    apply suspended_alter; [done|]. intros ->. set_solver.
  - intros k y Hk Hy. destruct (alter_suspended _ _ _ _ Hk Hy) as [Hne Hk'].
    destruct (lk_suspended _ _ Hl k y Hk' Hy); [left; set_solver|by right].
Qed.

(** The scheduling of a notified fiber, after the lock. *)
Lemma links_schedule fs q i x j :
  links fs q -> fs !! i = Some x -> place x = FSchedule j ->
  links (schedule_fiber j (<[i := set_place FRun x]> fs)) q.
Proof.
  intros Hl Hi Hx. assert (Hij : schedules fs i j) by (by exists x).
  destruct (lk_target _ _ Hl i j Hij) as [Hnj Hj].
  assert (Hsus : forall k, is_suspended fs k -> is_suspended (<[i := set_place FRun x]> fs) k)
    by (intros k; eapply suspended_insert; [done|congruence]).
  assert (Hs : forall a b, schedules (schedule_fiber j (<[i := set_place FRun x]> fs)) a b <-> a <> i /\ schedules fs a b).
  { intros a b. rewrite schedules_alter by (by apply Hsus). rewrite schedules_insert by done. naive_solver. }
  split; try setoid_rewrite Hs; [|apply Hl| | |].
  - intros k Hk. apply suspended_alter; [by apply Hsus, Hl|by intros ->].
  - intros a b [Ha Hab]. destruct (lk_target _ _ Hl a b Hab) as [Hn Hb]. split; [done|].
    apply suspended_alter; [by apply Hsus|]. intros ->. apply Ha. by eapply (lk_once _ _ Hl).
  - intros a b k [_ Ha] [_ Hb]. by eapply (lk_once _ _ Hl).
  - intros k y Hk Hy. destruct (alter_suspended _ _ _ _ Hk Hy) as [Hne Hk'].
    apply insert_lookup_cases in Hk' as [[<- <-]|[Hik Hk']]; [done|].
    destruct (lk_suspended _ _ Hl k y Hk' Hy) as [|[a Ha]]; [by left|]. right. exists a. split; [|done].
    intros ->. destruct Ha as (z & Hz & Hp). congruence.
Qed.

Lemma schedule_ops j fs : map ops (schedule_fiber j fs) = map ops fs.
Proof.
  apply list_eq. intros i. unfold schedule_fiber. rewrite !list_lookup_fmap.
  destruct (decide (i = j)) as [->|Hne]; [|by rewrite list_lookup_alter_ne].
  rewrite list_lookup_alter_eq. by destruct (fs !! j).
Qed.

Lemma insert_ops fs i x x' : fs !! i = Some x -> ops x' = ops x -> map ops (<[i := x']> fs) = map ops fs.
Proof.
  intros Hi E. rewrite <- (list_insert_id (map ops fs) i (ops x)) by (by rewrite list_lookup_fmap, Hi).
  rewrite <- E. apply list_fmap_insert.
Qed.

(** ** Notification *)

Context (this_ : Z) (this_not_null : this_ <> 0%Z).

(** Waiting without a time limit, the first of the queue is notified. *)
Lemma notify_one_first q fs : (forall j, j ∈ q -> is_suspended fs j) -> notify_one this_ q fs = (head q, tail q, fs).
Proof.
  destruct q as [|j q]; intros Hq; simpl; [done|]. destruct (Hq j) as (x & -> & _ & ->); [set_solver|].
  destruct (Z.eqb_spec 0 this_); [congruence|]. done.
Qed.

(** All of the queue are made to run; the others stay as they are. *)
Lemma notify_all_links q q' fs : links fs (q ++ q') ->
  links (notify_all this_ q fs) q' /\ map ops (notify_all this_ q fs) = map ops fs /\
  (forall i, i ∉ q -> notify_all this_ q fs !! i = fs !! i).
Proof.
  revert fs. induction q as [|j q IH]; intros fs Hl; simpl; [done|].
  destruct (lk_linked _ _ Hl j) as (x & Hx & _ & Hw); [set_solver|]. rewrite Hx, Hw.
  destruct (Z.eqb_spec 0 this_); [congruence|]. simpl.
  destruct (IH (schedule_fiber j fs)) as (Hl' & Ho & Hi); [by apply links_wake|]. split; [done|].
  rewrite Ho. split; [apply schedule_ops|]. intros i Hn. rewrite Hi by set_solver.
  unfold schedule_fiber. rewrite list_lookup_alter_ne; [done|]. set_solver.
Qed.

End links.

(** ** The invariant *)

Section facts.
Context {T C : Type} `{ChannelLaws T C} (this_ : Z) (this_not_null : this_ <> 0%Z).

Abbreviation state := (channel_state T C).
Abbreviation step := (channel_step this_).
Abbreviation fiber_ops := (list (chan_op T) * list (op_result T))%type.
Implicit Types (s : state) (x : context T) (fs : list (context T)) (q : list nat).

Definition heads (f : fiber_ops -> bool) (l : list fiber_ops) q : Prop :=
  forall j, j ∈ q -> exists y, l !! j = Some y /\ f y = true.

Definition stored s : nat := length (ch_contents (cs_chan s)).

(** The queues hold fibers at the operation that waits there.  While fibers wait
    to pop, the fibers at a pop that do not wait are at least as many as there
    are values; likewise for pushes and free places. *)
Record winv s : Prop := {
  wi_ok : ch_ok (cs_chan s);
  wi_links : links (contexts s) (waiting_producers_ s ++ waiting_consumers_ s);
  wi_producers : heads is_push (map ops (contexts s)) (waiting_producers_ s);
  wi_consumers : heads is_pop (map ops (contexts s)) (waiting_consumers_ s);
  wi_closed : ch_closed (cs_chan s) = true -> waiting_producers_ s = [] /\ waiting_consumers_ s = [];
  wi_pops : waiting_consumers_ s <> [] ->
    stored s + length (waiting_consumers_ s) <= count_of is_pop (map ops (contexts s));
  wi_pushes : waiting_producers_ s <> [] ->
    (ch_room - stored s) + length (waiting_producers_ s) <= count_of is_push (map ops (contexts s));
}.

Lemma heads_insert f l q i y : heads f l q -> i ∉ q -> heads f (<[i := y]> l) q.
Proof.
  intros Hh Hi j Hj. destruct (Hh j Hj) as (z & Hz & Hf). exists z.
  rewrite list_lookup_insert_ne; [done|]. by intros ->.
Qed.

Lemma heads_app f l q q' : heads f l (q ++ q') <-> heads f l q /\ heads f l q'.
Proof. unfold heads. set_solver. Qed.

Lemma winv_start programs : winv (channel_start programs).
Proof.
  destruct new_law as (Hok & Hc & _). split; simpl; [done| |by intros ? ?%elem_of_nil..|done|done|done].
  assert (Hrun : forall j (x : context T), map (fun p => mk_context p [] FRun 0) programs !! j = Some x -> place x = FRun).
  { intros j x Hx. by apply list_lookup_fmap_Some in Hx as (p & -> & _). }
  split.
  - by intros ? ?%elem_of_nil.
  - constructor.
  - intros i j (x & Hx & Hp). rewrite (Hrun _ _ Hx) in Hp. done.
  - intros i i' j (x & Hx & Hp). rewrite (Hrun _ _ Hx) in Hp. done.
  - intros j x Hx Hp. rewrite (Hrun _ _ Hx) in Hp. done.
Qed.

Section turn.
Context s (Hs : winv s) i x (Hi : contexts s !! i = Some x) (Hx : place x = FRun).

Lemma turn_not_linked : (i ∉ waiting_producers_ s) /\ (i ∉ waiting_consumers_ s).
Proof.
  assert (Hn : i ∉ waiting_producers_ s ++ waiting_consumers_ s); [|set_solver].
  eapply run_not_linked; [apply Hs|done|congruence].
Qed.

Lemma turn_ops : map ops (contexts s) !! i = Some (ops x).
Proof. by rewrite list_lookup_fmap, Hi. Qed.

Lemma turn_count f (x' : context T) :
  count_of f (map ops (<[i := x']> (contexts s))) + (if f (ops x) then 1 else 0) =
  count_of f (map ops (contexts s)) + (if f (ops x') then 1 else 0).
Proof. rewrite list_fmap_insert. apply count_insert, turn_ops. Qed.

Lemma turn_heads f q (x' : context T) :
  heads f (map ops (contexts s)) q -> i ∉ q -> heads f (map ops (<[i := x']> (contexts s))) q.
Proof. rewrite list_fmap_insert. apply heads_insert. Qed.

(** A closed channel: the operation returns, nothing waits. *)
Lemma winv_closed r : ch_closed (cs_chan s) = true ->
  winv (mk_channel_state (cs_chan s) (waiting_producers_ s) (waiting_consumers_ s) (<[i := returns r x]> (contexts s))).
Proof.
  intros Hc. destruct (wi_closed _ Hs Hc) as [Hp Hq]. pose proof (wi_links _ Hs) as Hl. rewrite Hp, Hq in *.
  split; simpl; [apply Hs| |by intros ? ?%elem_of_nil..|done|done|done].
  eapply links_stay; [apply Hl|done|done|]. done.
Qed.
(** A fiber at a push waits: the channel is full. *)
Lemma winv_push_wait : is_push (ops x) = true -> ch_closed (cs_chan s) = false -> ch_room <= stored s ->
  winv (mk_channel_state (cs_chan s) (waiting_producers_ s ++ [i]) (waiting_consumers_ s)
          (<[i := suspended x]> (contexts s))).
Proof.
  intros Hop Hc Hfull. assert (Ho : map ops (<[i := suspended x]> (contexts s)) = map ops (contexts s))
    by (by apply insert_ops with x).
  assert (Hl : links (<[i := suspended x]> (contexts s)) ((waiting_producers_ s ++ [i]) ++ waiting_consumers_ s)).
  { pose proof (links_wait _ _ i x (wi_links _ Hs) Hi Hx) as Hl. eapply links_proper; [|exact Hl]. solve_Permutation. }
  assert (Hh : heads is_push (map ops (contexts s)) (waiting_producers_ s ++ [i])).
  { apply heads_app. split; [apply Hs|]. intros j ->%list_elem_of_singleton. exists (ops x). split; [apply turn_ops|done]. }
  split; simpl; rewrite ?Ho; try done; try apply Hs; [congruence|].
  intros _. unfold stored in *. simpl. replace (ch_room - _) with 0 by lia.
  apply count_at_least; [|exact Hh]. by apply lk_nodup, NoDup_app in Hl as [? _].
Qed.

(** A fiber at a pop waits: the channel is empty. *)
Lemma winv_pop_wait : is_pop (ops x) = true -> ch_closed (cs_chan s) = false -> stored s = 0 ->
  winv (mk_channel_state (cs_chan s) (waiting_producers_ s) (waiting_consumers_ s ++ [i])
          (<[i := suspended x]> (contexts s))).
Proof.
  intros Hop Hc Hempty. assert (Ho : map ops (<[i := suspended x]> (contexts s)) = map ops (contexts s))
    by (by apply insert_ops with x).
  assert (Hl : links (<[i := suspended x]> (contexts s)) (waiting_producers_ s ++ waiting_consumers_ s ++ [i])).
  { pose proof (links_wait _ _ i x (wi_links _ Hs) Hi Hx) as Hl. eapply links_proper; [|exact Hl]. solve_Permutation. }
  assert (Hh : heads is_pop (map ops (contexts s)) (waiting_consumers_ s ++ [i])).
  { apply heads_app. split; [apply Hs|]. intros j ->%list_elem_of_singleton. exists (ops x). split; [apply turn_ops|done]. }
  split; simpl; rewrite ?Ho; try done; try apply Hs; [congruence|].
  intros _. unfold stored in *. simpl. rewrite Hempty.
  apply count_at_least; [|exact Hh]. by apply lk_nodup, NoDup_app in Hl as (_ & _ & ?).
Qed.

(** The notified fiber, if any, is about to be scheduled. *)
Lemma links_notified q r (w : list nat) : links (contexts s) (w ++ q) ->
  links (<[i := scheduling (head w) (returns r x)]> (contexts s)) (tail w ++ q).
Proof.
  destruct w as [|j w]; simpl; intros Hl; [by eapply links_stay|by eapply links_notify].
Qed.

Lemma winv_push_ok v c : is_push (ops x) = true -> ch_closed (cs_chan s) = false -> stored s < ch_room ->
  ch_ok c -> ch_contents c = ch_contents (cs_chan s) ++ [v] -> ch_closed c = false ->
  winv (mk_channel_state c (waiting_producers_ s) (tail (waiting_consumers_ s))
          (<[i := scheduling (head (waiting_consumers_ s)) (returns (DidPush true) x)]> (contexts s))).
Proof.
  intros Hop Hc Hroom Hok Hcont Hopen. destruct turn_not_linked as [Hp Hq].
  assert (Hpop : is_pop (ops x) = false) by (by destruct x as [[|[] ?] ? ? ?]).
  set (x' := scheduling _ _). pose proof (turn_count is_push x') as Hcp. pose proof (turn_count is_pop x') as Hcc.
  rewrite Hop in Hcp. rewrite Hpop in Hcc. unfold stored in *.
  split; simpl; unfold stored; simpl; rewrite ?Hcont, ?length_app; simpl; [done|..].
  - rewrite (Permutation_app_comm (waiting_producers_ s)). apply links_notified. rewrite Permutation_app_comm. apply Hs.
  - apply turn_heads; [apply Hs|done].
  - apply turn_heads; [|by destruct (waiting_consumers_ s); set_solver].
    intros j Hj. apply (wi_consumers _ Hs). by destruct (waiting_consumers_ s); set_solver.
  - congruence.
  - intros Hne. pose proof (wi_pops _ Hs) as Hold. unfold stored in Hold.
    destruct (waiting_consumers_ s); [done|]. simpl in *. specialize (Hold ltac:(done)). lia.
  - intros Hne. pose proof (wi_pushes _ Hs Hne) as Hold. unfold stored in Hold. lia.
Qed.

Lemma winv_pop_ok v c : is_pop (ops x) = true -> ch_contents (cs_chan s) = v :: ch_contents c ->
  ch_ok c -> ch_closed c = ch_closed (cs_chan s) ->
  winv (mk_channel_state c (tail (waiting_producers_ s)) (waiting_consumers_ s)
          (<[i := scheduling (head (waiting_producers_ s)) (returns (DidPop (Some v)) x)]> (contexts s))).
Proof.
  intros Hop Hcont Hok Hopen. destruct turn_not_linked as [Hp Hq].
  assert (Hpush : is_push (ops x) = false) by (by destruct x as [[|[] ?] ? ? ?]).
  set (x' := scheduling _ _). pose proof (turn_count is_push x') as Hcp. pose proof (turn_count is_pop x') as Hcc.
  rewrite Hpush in Hcp. rewrite Hop in Hcc.
  split; simpl; unfold stored; simpl; [done|..].
  - apply links_notified, Hs.
  - apply turn_heads; [|by destruct (waiting_producers_ s); set_solver].
    intros j Hj. apply (wi_producers _ Hs). by destruct (waiting_producers_ s); set_solver.
  - apply turn_heads; [apply Hs|done].
  - rewrite Hopen. intros E. destruct (wi_closed _ Hs E) as [-> ->]. done.
  - intros Hne. pose proof (wi_pops _ Hs Hne) as Hold. unfold stored in Hold. rewrite Hcont in Hold. simpl in *. lia.
  - intros Hne. pose proof (wi_pushes _ Hs) as Hold. unfold stored in Hold. rewrite Hcont in Hold.
    destruct (waiting_producers_ s); [done|]. simpl in *. specialize (Hold ltac:(done)). lia.
Qed.

(** [close] empties the queues. *)
Lemma close_notifies : let fs := notify_all this_ (waiting_consumers_ s) (notify_all this_ (waiting_producers_ s) (contexts s)) in
  links fs [] /\ map ops fs = map ops (contexts s) /\ fs !! i = Some x.
Proof.
  destruct turn_not_linked as [Hp Hq].
  destruct (notify_all_links this_ this_not_null _ _ _ (wi_links _ Hs)) as (Hl & Ho & Hk).
  rewrite <- (app_nil_r (waiting_consumers_ s)) in Hl.
  destruct (notify_all_links this_ this_not_null _ _ _ Hl) as (Hl' & Ho' & Hk').
  split_and!; [done|congruence|]. rewrite Hk', Hk by done. done.
Qed.

Lemma winv_close c : ch_ok c -> winv
  (mk_channel_state c [] [] (<[i := returns DidClose x]>
     (notify_all this_ (waiting_consumers_ s) (notify_all this_ (waiting_producers_ s) (contexts s))))).
Proof.
  intros Hok. destruct close_notifies as (Hl & _ & Hfi).
  split; simpl; [done| |by intros ? ?%elem_of_nil..|done|done|done]. by eapply links_stay.
Qed.

(** What a turn does to the channel and to the operations, in the specification. *)
Lemma ops_returns r c fs q q' (x' : context T) : apply_op (hd OpClose (todo x)) (cs_chan s) = Some (r, c) ->
  todo x <> [] -> map ops fs = map ops (contexts s) -> ops x' = ops (returns r x) ->
  retry_step (forget s) (forget (mk_channel_state c q q' (<[i := x']> fs))).
Proof.
  intros Ha Ht Ho Hx'. destruct (todo x) as [|o os] eqn:E; [done|]. unfold forget. simpl.
  assert (Hf : map ops (<[i := x']> fs) = <[i := (os, results x ++ [r])]> (map ops (contexts s))).
  { rewrite <- Ho. replace (os, results x ++ [r]) with (ops x'); [apply list_fmap_insert|].
    rewrite Hx'. unfold ops. simpl. by rewrite E. }
  rewrite Hf.
  apply (Retry i o os (results x) r c); [|done]. simpl. rewrite turn_ops. unfold ops. by rewrite E.
Qed.

End turn.

(** Every turn keeps the invariant and is a step of the specification or none. *)
Lemma push_turn_refines s i x v os : winv s -> contexts s !! i = Some x -> place x = FRun -> todo x = OpPush v :: os ->
  winv (push_turn this_ i x v s) /\
  (forget (push_turn this_ i x v s) = forget s \/ retry_step (forget s) (forget (push_turn this_ i x v s))).
Proof.
  intros Hs Hi Hx Ht. assert (Hop : is_push (ops x) = true) by (unfold is_push; simpl; by rewrite Ht).
  pose proof (push_law (cs_chan s) v (wi_ok _ Hs)) as Hlaw. unfold push_turn.
  rewrite (notify_one_first this_ this_not_null) by (intros j Hj; apply (wi_links _ Hs); set_solver).
  assert (Hret : forall r c q q' x', apply_op (OpPush v) (cs_chan s) = Some (r, c) -> ops x' = ops (returns r x) ->
    retry_step (forget s) (forget (mk_channel_state c q q' (<[i := x']> (contexts s))))).
  { intros r c q q' x' Ha Hx'. apply (ops_returns s i x Hi r); rewrite ?Ht; done. }
  destruct (ch_closed (cs_chan s)) eqn:Ec.
  - rewrite Hlaw. split; [by apply winv_closed|]. right. apply (Hret (DidPush false)); [|done]. simpl. by rewrite Hlaw.
  - destruct (length (ch_contents (cs_chan s)) <? ch_room) eqn:El.
    + destruct Hlaw as (c' & Hp & Hok & Hc & Hcl). rewrite Hp. apply Nat.ltb_lt in El.
      split; [by eapply winv_push_ok|]. right. apply (Hret (DidPush true)); [simpl; by rewrite Hp|].
      by destruct (waiting_consumers_ s).
    + rewrite Hlaw. apply Nat.ltb_ge in El. split; [by apply winv_push_wait|]. left. unfold forget. simpl.
      by rewrite (insert_ops _ _ x).
Qed.

Lemma pop_turn_refines s i x os : winv s -> contexts s !! i = Some x -> place x = FRun -> todo x = OpPop :: os ->
  winv (pop_turn this_ i x s) /\
  (forget (pop_turn this_ i x s) = forget s \/ retry_step (forget s) (forget (pop_turn this_ i x s))).
Proof.
  intros Hs Hi Hx Ht. assert (Hop : is_pop (ops x) = true) by (unfold is_pop; simpl; by rewrite Ht).
  pose proof (pop_law (cs_chan s) (wi_ok _ Hs)) as Hlaw. unfold pop_turn.
  rewrite (notify_one_first this_ this_not_null) by (intros j Hj; apply (wi_links _ Hs); set_solver).
  assert (Hret : forall r c q q' x', apply_op OpPop (cs_chan s) = Some (r, c) -> ops x' = ops (returns r x) ->
    retry_step (forget s) (forget (mk_channel_state c q q' (<[i := x']> (contexts s))))).
  { intros r c q q' x' Ha Hx'. apply (ops_returns s i x Hi r); rewrite ?Ht; done. }
  destruct (ch_contents (cs_chan s)) as [|v vs] eqn:Ev.
  - rewrite Hlaw. destruct (ch_closed (cs_chan s)) eqn:Ec.
    + split; [by apply winv_closed|]. right. apply (Hret (DidPop None)); [|done]. simpl. by rewrite Hlaw.
    + split; [apply winv_pop_wait; [done..|unfold stored; by rewrite Ev]|]. left. unfold forget. simpl.
      by rewrite (insert_ops _ _ x).
  - destruct Hlaw as (c' & Hp & Hok & Hc & Hcl). rewrite Hp.
    split; [eapply winv_pop_ok; [done..|by rewrite Hc|done|done]|]. right.
    apply (Hret (DidPop (Some v))); [simpl; by rewrite Hp|]. by destruct (waiting_producers_ s).
Qed.

Lemma close_turn_refines s i x os : winv s -> contexts s !! i = Some x -> place x = FRun -> todo x = OpClose :: os ->
  winv (close_turn this_ i x s) /\ retry_step (forget s) (forget (close_turn this_ i x s)).
Proof.
  intros Hs Hi Hx Ht. unfold close_turn. destruct (close_notifies s Hs i x Hi Hx) as (_ & Ho & _).
  destruct (ch_closed (cs_chan s)) eqn:Ec.
  - split; [by apply winv_closed|]. apply (ops_returns s i x Hi DidClose); rewrite ?Ht; simpl; rewrite ?Ec; done.
  - split; [apply winv_close; [done..|]; by apply close_law, Hs|].
    apply (ops_returns s i x Hi DidClose); rewrite ?Ht; simpl; rewrite ?Ec; done.
Qed.

Lemma schedule_turn_refines s i x j : winv s -> contexts s !! i = Some x -> place x = FSchedule j ->
  winv (schedule_turn i x j s) /\ forget (schedule_turn i x j s) = forget s.
Proof.
  intros Hs Hi Hx. assert (Ho : map ops (contexts (schedule_turn i x j s)) = map ops (contexts s)).
  { simpl. rewrite schedule_ops. by apply insert_ops with x. }
  split; [|unfold forget; by rewrite Ho]. pose proof Hs as [H1 H2 H3 H4 H5 H6 H7].
  split; rewrite ?Ho; try done. by apply links_schedule.
Qed.

Lemma step_refines s s' : winv s -> step s s' -> winv s' /\ rtc retry_step (forget s) (forget s').
Proof.
  intros Hs Hstep. inversion Hstep as [i x o os ? Hi Hx Ht|i x j ? Hi Hx]; subst.
  - destruct o; simpl.
    + destruct (push_turn_refines s i x value os) as [? [->|?]]; [done..|done|]. split; [done|by apply rtc_once].
    + destruct (pop_turn_refines s i x os) as [? [->|?]]; [done..|done|]. split; [done|by apply rtc_once].
    + destruct (close_turn_refines s i x os) as [? ?]; [done..|]. split; [done|by apply rtc_once].
  - destruct (schedule_turn_refines s i x j) as [? ->]; done.
Qed.

(** ** Every run ends *)

Definition place_steps (p : fiber_place) : nat := match p with FRun => 1 | FSuspended => 0 | FSchedule _ => 3 end.

(** Each operation left counts for the fibers a [close] can wake and three. *)
Definition fiber_steps (n : nat) x : nat := (n + 3) * length (todo x) + place_steps (place x).

Definition channel_steps (n : nat) s : nat := sum_list_with (fiber_steps n) (contexts s).

Lemma schedule_sum n j fs :
  sum_list_with (fiber_steps n) (schedule_fiber j fs) <= sum_list_with (fiber_steps n) fs + 1.
Proof.
  unfold schedule_fiber. revert j. induction fs as [|x fs IH]; intros [|j]; simpl; [lia|lia| |].
  - unfold fiber_steps. simpl. lia.
  - specialize (IH j). change (list_alter (set_place FRun) j fs) with (alter (set_place FRun) j fs). lia.
Qed.

Lemma notify_all_sum n q fs :
  sum_list_with (fiber_steps n) (notify_all this_ q fs) <= sum_list_with (fiber_steps n) fs + length q.
Proof.
  revert fs. induction q as [|j q IH]; intros fs; simpl; [lia|].
  destruct (fs !! j) as [x|] eqn:E; [|specialize (IH fs); lia].
  assert (Hw : sum_list_with (fiber_steps n) (<[j := set_twstatus (-1) x]> fs) = sum_list_with (fiber_steps n) fs).
  { pose proof (sum_insert (fiber_steps n) fs j x (set_twstatus (-1) x) E) as Hsum. unfold fiber_steps at 2 4 in Hsum.
    simpl in Hsum. lia. }
  destruct (twstatus x =? this_)%Z; [|destruct (twstatus x =? 0)%Z; [|specialize (IH fs); lia]].
  - specialize (IH (schedule_fiber j (<[j := set_twstatus (-1) x]> fs))).
    pose proof (schedule_sum n j (<[j := set_twstatus (-1) x]> fs)). lia.
  - specialize (IH (schedule_fiber j fs)). pose proof (schedule_sum n j fs). lia.
Qed.

Lemma links_size fs q : links fs q -> length q <= length fs.
Proof.
  intros Hl. rewrite <- (length_seq (length fs) 0). apply submseteq_length, NoDup_submseteq; [apply Hl|].
  intros j Hj. destruct (lk_linked _ _ Hl j Hj) as (x & Hx & _). apply elem_of_seq.
  apply lookup_lt_Some in Hx. lia.
Qed.

(** A turn with the operation done. *)
Lemma returns_sum n i x o os r w fs : fs !! i = Some x -> place x = FRun -> todo x = o :: os ->
  sum_list_with (fiber_steps n) (<[i := scheduling w (returns r x)]> fs) + n < sum_list_with (fiber_steps n) fs.
Proof.
  intros Hi Hx Ht. pose proof (sum_insert (fiber_steps n) fs i x (scheduling w (returns r x)) Hi) as Hsum.
  assert (Hold : fiber_steps n x = (n + 3) * S (length os) + 1) by (unfold fiber_steps; by rewrite Ht, Hx).
  assert (Hnew : fiber_steps n (scheduling w (returns r x)) <= (n + 3) * length os + 3)
    by (destruct w; unfold fiber_steps; simpl; rewrite Ht, ?Hx; simpl; lia).
  lia.
Qed.

Lemma suspended_sum n i x fs : fs !! i = Some x -> place x = FRun ->
  sum_list_with (fiber_steps n) (<[i := suspended x]> fs) < sum_list_with (fiber_steps n) fs.
Proof.
  intros Hi Hx. pose proof (sum_insert (fiber_steps n) fs i x (suspended x) Hi) as Hsum.
  assert (Hs : fiber_steps n x = fiber_steps n (suspended x) + 1) by (unfold fiber_steps; rewrite Hx; simpl; lia).
  lia.
Qed.

Lemma channel_step_decreases s s' n : winv s -> length (contexts s) = n -> step s s' -> channel_steps n s' < channel_steps n s.
Proof.
  intros Hs Hn Hstep. unfold channel_steps. inversion Hstep as [i x o os ? Hi Hx Ht|i x j ? Hi Hx]; subst.
  - assert (Hone : forall w r, sum_list_with (fiber_steps (length (contexts s)))
      (<[i := scheduling w (returns r x)]> (contexts s)) < sum_list_with (fiber_steps (length (contexts s))) (contexts s)).
    { intros w r. pose proof (returns_sum (length (contexts s)) i x o os r w _ Hi Hx Ht). lia. }
    pose proof (suspended_sum (length (contexts s)) i x _ Hi Hx) as Hsus.
    destruct o; simpl; unfold push_turn, pop_turn, close_turn;
      rewrite ?(notify_one_first this_ this_not_null) by (intros j Hj; apply (wi_links _ Hs); set_solver).
    + destruct (ch_push value (cs_chan s)) as [[] c]; simpl; [apply Hone|apply (Hone None)|apply Hsus].
    + destruct (ch_pop (cs_chan s)) as [[] c]; simpl; [apply Hone|apply (Hone None)|apply Hsus].
    + destruct (ch_closed (cs_chan s)); simpl; [apply (Hone None)|].
      destruct (close_notifies s Hs i x Hi Hx) as (_ & _ & Hfi).
      pose proof (returns_sum (length (contexts s)) i x OpClose os DidClose None _ Hfi Hx Ht) as Hr. simpl in Hr.
      pose proof (notify_all_sum (length (contexts s)) (waiting_producers_ s) (contexts s)).
      pose proof (notify_all_sum (length (contexts s)) (waiting_consumers_ s) (notify_all this_ (waiting_producers_ s) (contexts s))).
      pose proof (links_size _ _ (wi_links _ Hs)) as Hsize. rewrite length_app in Hsize. lia.
  - simpl. pose proof (schedule_sum (length (contexts s)) j (<[i := set_place FRun x]> (contexts s))) as Hone.
    pose proof (sum_insert (fiber_steps (length (contexts s))) _ i x (set_place FRun x) Hi) as Hsum.
    assert (Hp : fiber_steps (length (contexts s)) x = fiber_steps (length (contexts s)) (set_place FRun x) + 2)
      by (unfold fiber_steps; rewrite Hx; simpl; lia).
    lia.
Qed.

Lemma start_steps programs :
  channel_steps (length programs) (channel_start programs) <=
  (length programs + 3) * sum_list_with length programs + length programs.
Proof.
  unfold channel_steps. simpl. generalize (length programs) at 1 2 as n. intros n.
  induction programs as [|p programs IH]; simpl; [lia|]. unfold fiber_steps at 1. simpl. lia.
Qed.

Lemma retry_length (a b : retry_state T C) : rtc retry_step a b -> length (rt_fibers b) = length (rt_fibers a).
Proof. induction 1 as [|a b c Hab _ IH]; [done|]. rewrite IH. inversion Hab; subst. simpl. apply length_insert. Qed.

Lemma run_refines k s0 s : winv s0 -> nsteps step k s0 s ->
  winv s /\ rtc retry_step (forget s0) (forget s) /\
  k + channel_steps (length (contexts s0)) s <= channel_steps (length (contexts s0)) s0.
Proof.
  intros Hs Hk. induction Hk as [s0|k s0 s1 s2 Hstep Hk IH]; [by split_and!|].
  destruct (step_refines _ _ Hs Hstep) as [Hs1 Hr]. destruct (IH Hs1) as (Hs2 & Hr2 & Hle).
  pose proof (channel_step_decreases _ _ _ Hs eq_refl Hstep) as Hlt.
  assert (Hlen : length (contexts s1) = length (contexts s0)).
  { apply retry_length in Hr. unfold forget in Hr. simpl in Hr. by rewrite !length_map in Hr. }
  rewrite Hlen in Hle. split_and!; [done|by etrans|lia].
Qed.

(** ** A run that cannot go on *)

(** A fiber that is not finished waits in a queue. *)
Lemma stuck_linked s j x o os : winv s -> channel_stuck this_ s -> contexts s !! j = Some x -> todo x = o :: os ->
  j ∈ waiting_producers_ s ++ waiting_consumers_ s.
Proof.
  intros Hs Hst Hj Ht. assert (Hp : place x = FSuspended).
  { destruct (place x) eqn:E; [|done|]; exfalso; eapply Hst; [by eapply StepOp|by eapply StepSchedule]. }
  destruct (lk_suspended _ _ (wi_links _ Hs) j x Hj Hp) as [|[i (y & Hy & Hsch)]]; [done|].
  exfalso. eapply Hst. by eapply StepSchedule.
Qed.

Lemma not_push_and_pop (y : fiber_ops) : is_push y = true -> is_pop y = true -> False.
Proof. by destruct y as [[|[] ?] ?]. Qed.

(** All fibers at an operation are in its queue. *)
Lemma stuck_queue s (f g : fiber_ops -> bool) q q' : winv s -> channel_stuck this_ s ->
  (forall j, j ∈ q ++ q' <-> j ∈ waiting_producers_ s ++ waiting_consumers_ s) ->
  (forall y, f y = true -> y.1 <> []) -> (forall y, f y = true -> g y = true -> False) ->
  heads g (map ops (contexts s)) q' -> count_of f (map ops (contexts s)) <= length q.
Proof.
  intros Hs Hst Hq Hf Hfg Hg. apply count_at_most. intros j y Hy Hfy.
  assert (Hin : j ∈ q ++ q').
  { apply Hq. apply list_lookup_fmap_Some in Hy as (x & -> & Hx). specialize (Hf _ Hfy).
    destruct (todo x) as [|o os] eqn:E; [by unfold ops in Hf; simpl in Hf|]. by eapply stuck_linked. }
  apply elem_of_app in Hin as [|Hin]; [done|]. destruct (Hg j Hin) as (z & Hz & Hgz).
  exfalso. apply (Hfg y); [done|]. congruence.
Qed.

Lemma stuck_waits s i x o os : winv s -> channel_stuck this_ s -> contexts s !! i = Some x -> todo x = o :: os ->
  ch_closed (cs_chan s) = false /\ apply_op o (cs_chan s) = None.
Proof.
  intros Hs Hst Hi Ht. pose proof (stuck_linked _ _ _ _ _ Hs Hst Hi Ht) as Hin.
  assert (Hopen : ch_closed (cs_chan s) = false).
  { destruct (ch_closed (cs_chan s)) eqn:E; [|done]. destruct (wi_closed _ Hs E) as [Hp Hq].
    rewrite Hp, Hq in Hin. set_solver. }
  split; [done|]. pose proof (turn_ops s i x Hi) as Hops. apply elem_of_app in Hin as [Hin|Hin].
  - destruct (wi_producers _ Hs i Hin) as (y & Hy & Hpush). rewrite Hops in Hy. simplify_eq.
    unfold is_push in Hpush. simpl in Hpush. rewrite Ht in Hpush. destruct o as [v| |]; [|done..].
    assert (Hne : waiting_producers_ s <> []) by (intros E; rewrite E in Hin; set_solver).
    pose proof (wi_pushes _ Hs Hne) as Hle. pose proof (stuck_queue s is_push is_pop _ _ Hs Hst
      (fun j => iff_refl _) ltac:(by intros [[] ?]) not_push_and_pop (wi_consumers _ Hs)) as Hc.
    simpl. pose proof (push_law (cs_chan s) v (wi_ok _ Hs)) as Hlaw. rewrite Hopen in Hlaw. unfold stored in Hle.
    destruct (Nat.ltb_spec (length (ch_contents (cs_chan s))) ch_room); [lia|]. by rewrite Hlaw.
  - destruct (wi_consumers _ Hs i Hin) as (y & Hy & Hpop). rewrite Hops in Hy. simplify_eq.
    unfold is_pop in Hpop. simpl in Hpop. rewrite Ht in Hpop. destruct o; [done| |done].
    assert (Hne : waiting_consumers_ s <> []) by (intros E; rewrite E in Hin; set_solver).
    pose proof (wi_pops _ Hs Hne) as Hle. pose proof (stuck_queue s is_pop is_push (waiting_consumers_ s) (waiting_producers_ s) Hs Hst
      ltac:(set_solver) ltac:(by intros [[] ?]) (fun y a b => not_push_and_pop y b a) (wi_producers _ Hs)) as Hc.
    simpl. pose proof (pop_law (cs_chan s) (wi_ok _ Hs)) as Hlaw. rewrite Hopen in Hlaw. unfold stored in Hle.
    destruct (ch_contents (cs_chan s)); [by rewrite Hlaw|]. simpl in Hle. lia.
Qed.

(** C17. Fibers with any operations at a fresh channel, under every interleaving
    of their turns at the lock and of the schedulings after it: a run has at most
    [n + 3] steps an operation and one a fiber, for [n] fibers; its operations
    return what they return in a run of the channel without queues, where an
    operation that has to wait is not enabled, and the channel is the same; and
    when no step is left, a fiber that is not finished is at an operation that is
    not enabled there, a push to the full or a pop from the empty channel, which is
    open.  So no wakeup is lost. *)
Theorem channel_waiting_correct programs k s :
  nsteps step k (channel_start programs) s ->
  k <= (length programs + 3) * sum_list_with length programs + length programs /\
  rtc retry_step (retry_start programs) (forget s) /\
  (channel_stuck this_ s -> forall i x o os, contexts s !! i = Some x -> todo x = o :: os ->
     ch_closed (cs_chan s) = false /\ apply_op o (cs_chan s) = None).
Proof.
  intros Hk. destruct (run_refines k _ s (winv_start programs) Hk) as (Hs & Hr & Hle). split_and!.
  - simpl in Hle. rewrite length_map in Hle. etrans; [|apply start_steps]. lia.
  - replace (retry_start programs) with (forget (channel_start programs)); [done|].
    unfold forget, retry_start. simpl. by rewrite map_map.
  - intros Hst i x o os Hi Ht. by eapply stuck_waits.
Qed.

End facts.

(** Steps to a state that has been computed. *)
Lemma op_to {T C} `{Channel T C} this_ i x o os (s s' : channel_state T C) :
  contexts s !! i = Some x -> place x = FRun -> todo x = o :: os -> op_turn this_ i x o s = s' -> channel_step this_ s s'.
Proof. intros ? ? ? <-. by eapply StepOp. Qed.

Lemma schedule_to {T C} `{Channel T C} this_ i x j (s s' : channel_state T C) :
  contexts s !! i = Some x -> place x = FSchedule j -> schedule_turn i x j s = s' -> channel_step this_ s s'.
Proof. intros ? ? <-. by eapply StepSchedule. Qed.

(** A consumer that waits, and a producer: the value reaches it. *)
Lemma channel_waiting_correct_witness : exists s : channel_state nat (buffered_channel nat),
  nsteps (channel_step 8) 4 (channel_start [[OpPop]; [OpPush 5]]) s /\
  map results (contexts s) = [[DidPop (Some 5)]; [DidPush true]] /\
  4 <= (2 + 3) * 2 + 2 /\ rtc retry_step (retry_start [[OpPop]; [OpPush 5]]) (forget s).
Proof.
  assert (Hk : exists s, nsteps (channel_step (T := nat) (C := buffered_channel nat) 8) 4 (channel_start [[OpPop]; [OpPush 5]]) s /\
    map results (contexts s) = [[DidPop (Some 5)]; [DidPush true]]).
  { eexists. split; [|].
    - eapply nsteps_l; [eapply (op_to _ 0); (vm_compute; reflexivity)|].
      eapply nsteps_l; [eapply (op_to _ 1); (vm_compute; reflexivity)|].
      eapply nsteps_l; [eapply (schedule_to _ 1); (vm_compute; reflexivity)|].
      eapply nsteps_l; [eapply (op_to _ 0); (vm_compute; reflexivity)|]. constructor.
    - reflexivity. }
  destruct Hk as (s & Hk & Hres). exists s. split; [exact Hk|]. split; [exact Hres|].
  assert (H8 : 8%Z <> 0%Z) by discriminate.
  destruct (channel_waiting_correct 8 H8 [[OpPop]; [OpPush 5]] 4 _ Hk) as (Hle & Hr & _).
  split; [exact Hle|exact Hr].
Defined.
