(* ===== verification/WaitStuff.v ===== *)
(** * common/fiber/wait_stuff.hpp: waiting for the first or for all of some functions

    Every function runs in a fiber of its own and pushes what it gives into a
    channel that the caller reads.  The steps of the fibers and of the caller
    interleave; a step that has to wait is not enabled.  The functions of the
    header differ in what is pushed (a value, or a ready future), in whether the
    pushes go through an [nchannel], and in how the caller reads.  [T] is the
    result of the functions. *)
From stdpp Require Import prelude list relations.
From Stdlib Require Import Lia Arith.
From S2P Require Import Prelude Channel.

(** A ready future: what [packaged_task] made of a call. *)
Inductive ready (T E : Type) : Type :=
| Good (value : T)
| Bad (e : E).
Arguments Good {T E} value.
Arguments Bad {T E} e.

(** What a waiting function throws. *)
Inductive wait_exception (E : Type) : Type :=
| task_exception (e : E)
| exception_list (bundle : list E)
| fiber_error.                       (* the channel is closed *)
Arguments task_exception {E} e.
Arguments exception_list {E} bundle.
Arguments fiber_error {E}.

(** [exception_list::add] over the errors met so far, and the values. *)
Fixpoint errors {T E} (l : list (ready T E)) : list E :=
  match l with
  | [] => []
  | Good _ :: l' => errors l'
  | Bad e :: l' => e :: errors l'
  end.

Fixpoint values {T E} (l : list (ready T E)) : list T :=
  match l with
  | [] => []
  | Good v :: l' => v :: values l'
  | Bad _ :: l' => values l'
  end.

(** ** The caller's side *)

(** How the caller reads: after the items received so far, whether it returns
    now (and closes the channel), and what it returns when the channel is closed
    and empty; and whether the pushes are counted by an [nchannel]. *)
Record reader (A R : Type) : Type := mk_reader {
  counted : bool;
  rd_next : list A -> option (R * bool);
  rd_closed : list A -> R;
}.
Arguments mk_reader {A R}.
Arguments counted {A R}.
Arguments rd_next {A R}.
Arguments rd_closed {A R}.

Section readers.
Context {T E : Type}.
Abbreviation result X := (outcome (wait_exception E) X).

(** [wait_first_value] and [wait_first_value_c]. *)
Definition wait_first_value : reader T (result T) :=
  mk_reader false
    (fun l => match l with [] => None | v :: _ => Some (Ret v, true) end)
    (fun _ => Throw fiber_error).

(** [future.get()] of a ready future. *)
Definition ready_get (r : ready T E) : result T :=
  match r with Good v => Ret v | Bad e => Throw (task_exception e) end.

(** [wait_first_outcome] and [wait_first_outcome_c]. *)
Definition wait_first_outcome : reader (ready T E) (result T) :=
  mk_reader false
    (fun l => match l with [] => None | r :: _ => Some (ready_get r, true) end)
    (fun _ => Throw fiber_error).

(** [wait_first_success] and [wait_first_success_c] of [count] functions. *)
Fixpoint success_loop (count : nat) (exceptions : list E) (l : list (ready T E)) :
    option (result T * bool) :=
  match count, l with
  | O, _ => Some (Throw (exception_list exceptions), false)
  | S _, [] => None
  | S _, Good v :: _ => Some (Ret v, true)
  | S count', Bad e :: l' => success_loop count' (exceptions ++ [e]) l'
  end.

Definition wait_first_success (count : nat) : reader (ready T E) (result T) :=
  mk_reader false (success_loop count []) (fun _ => Throw fiber_error).

(** [wait_all_values] and [wait_all_values_c]. *)
Definition wait_all_values : reader T (result (list T)) :=
  mk_reader true (fun _ => None) (fun l => Ret l).

(** [wait_all_until_error] and [wait_all_until_error_c]: [future.get()] throws
    out of the loop. *)
Definition wait_all_until_error : reader (ready T E) (result (list T)) :=
  mk_reader true
    (fun l => match errors l with [] => None | e :: _ => Some (Throw (task_exception e), false) end)
    (fun l => Ret (values l)).

(** [wait_all_collect_errors] and [wait_all_collect_errors_c]. *)
Definition wait_all_collect_errors : reader (ready T E) (result (list T)) :=
  mk_reader true (fun _ => None)
    (fun l => match errors l with [] => Ret (values l) | es => Throw (exception_list es) end).

End readers.

(** [wait_first_value_het]: the values of functions with results of the types
    [Ts] go through one channel as a [boost::variant], a value with its type. *)
Definition variant (Ts : list Type) : Type := { i : nat & nth i Ts Empty_set }.

Definition wait_first_value_het {E} (Ts : list Type) :
    reader (variant Ts) (outcome (wait_exception E) (variant Ts)) := wait_first_value.

(** ** [wait_all_members] *)

(** The functions run in fibers of their own ([boost::fibers::async]), and
    [wait_all_members_get] calls [get] on their futures in the order of the
    arguments.  A future of a function that still runs makes [get] wait. *)
Section members.
Context {T E : Type} (futures : list (ready T E)).

Record members_state : Type := mk_members {
  mb_ready : list bool;              (* which functions have returned *)
  mb_got : list T;                   (* what [get] gave so far *)
  mb_result : option (outcome (wait_exception E) (list T));
}.

Definition members_init : members_state := mk_members (replicate (length futures) false) [] None.

Definition member_ends (i : nat) (s : members_state) : members_state :=
  mk_members (<[i := true]> (mb_ready s)) (mb_got s) (mb_result s).

(** [get] of the next future; an exception leaves the initializer list. *)
Definition member_get (f : ready T E) (s : members_state) : members_state :=
  match ready_get f with
  | Ret v => mk_members (mb_ready s) (mb_got s ++ [v]) None
  | Throw x => mk_members (mb_ready s) (mb_got s) (Some (Throw x))
  | Undef => s
  end.

Definition members_return (s : members_state) : members_state :=
  mk_members (mb_ready s) (mb_got s) (Some (Ret (mb_got s))).

Inductive members_step : members_state -> members_state -> Prop :=
| MemberEnds i s : mb_ready s !! i = Some false -> members_step s (member_ends i s)
| MemberGet f s :
    mb_result s = None -> futures !! length (mb_got s) = Some f -> mb_ready s !! length (mb_got s) = Some true ->
    members_step s (member_get f s)
| MembersReturn s :
    mb_result s = None -> length (mb_got s) = length futures -> members_step s (members_return s).
End members.

(** ** The system *)

Section system.
Context {A R C : Type} `{Channel A C}.

(** Where the fiber of a function is: running it, about to push, about to count
    the push ([nchannel::push]), returned. *)
Inductive task_pc : Type := TRun | TPush | TCount | TDone.

#[global] Instance task_pc_eq_dec : EqDecision task_pc.
Proof. solve_decision. Defined.

Record wait_state : Type := mk_wait_state {
  w_chan : C;
  w_tasks : list task_pc;
  w_limit : nat;                 (* limit_ of the nchannel *)
  w_received : list A;
  w_result : option R;
  w_pushed : list nat;           (* the tasks that pushed, in order *)
}.

(** The item the function of each fiber gives. *)
Context (rd : reader A R) (items : list A).

(** The channel and the [nchannel], whose constructor closes at limit 0. *)
Definition nchannel_new (limit : nat) (c : C) : C := if limit =? 0 then ch_close c else c.

Definition wait_init : wait_state :=
  let n := length items in
  mk_wait_state (if counted rd then nchannel_new n ch_new else ch_new) (replicate n TRun) n [] None [].

Definition set_task (i : nat) (t : task_pc) (s : wait_state) : wait_state :=
  mk_wait_state (w_chan s) (<[i := t]> (w_tasks s)) (w_limit s) (w_received s) (w_result s) (w_pushed s).

(** [chan->push(item)] of task [i]; [None] while it waits. *)
Definition push_step (i : nat) (a : A) (s : wait_state) : option wait_state :=
  match ch_push a (w_chan s) with
  | (PushOk, c) =>
      Some (mk_wait_state c (<[i := if counted rd then TCount else TDone]> (w_tasks s)) (w_limit s)
              (w_received s) (w_result s) (w_pushed s ++ [i]))
  | (PushClosed, _) => Some (set_task i TDone s)
  | (PushWait, _) => None
  end.

(** [--limit_ == 0], and the closing. *)
Definition count_step (i : nat) (s : wait_state) : wait_state :=
  let limit := pred (w_limit s) in
  mk_wait_state (if limit =? 0 then ch_close (w_chan s) else w_chan s) (<[i := TDone]> (w_tasks s)) limit
    (w_received s) (w_result s) (w_pushed s).

(** The caller: return, read the next item, or find the channel closed;
    [None] while it waits, or when it has returned. *)
Definition read_step (s : wait_state) : option wait_state :=
  match w_result s with
  | Some _ => None
  | None =>
      match rd_next rd (w_received s) with
      | Some (r, closes) =>
          Some (mk_wait_state (if (closes : bool) then ch_close (w_chan s) else w_chan s) (w_tasks s)
                  (w_limit s) (w_received s) (Some r) (w_pushed s))
      | None =>
          match ch_pop (w_chan s) with
          | (PopOk v, c) =>
              Some (mk_wait_state c (w_tasks s) (w_limit s) (w_received s ++ [v]) None (w_pushed s))
          | (PopClosed, _) =>
              Some (mk_wait_state (w_chan s) (w_tasks s) (w_limit s) (w_received s)
                      (Some (rd_closed rd (w_received s))) (w_pushed s))
          | (PopWait, _) => None
          end
      end
  end.

Inductive wait_step : wait_state -> wait_state -> Prop :=
| StepRun i s : w_tasks s !! i = Some TRun -> wait_step s (set_task i TPush s)
| StepPush i a s s' :
    w_tasks s !! i = Some TPush -> items !! i = Some a -> push_step i a s = Some s' -> wait_step s s'
| StepCount i s : w_tasks s !! i = Some TCount -> wait_step s (count_step i s)
| StepRead s s' : read_step s = Some s' -> wait_step s s'.

Definition wait_reachable : wait_state -> Prop := rtc wait_step wait_init.

(** No step is enabled. *)
Definition stuck (s : wait_state) : Prop := forall s', ~ wait_step s s'.

(** [limit_] is a plain [std::size_t]: when the fibers run on several threads
    [--limit_] is a load and a store that other steps may separate.  [loads]
    holds what each fiber has loaded and not yet stored. *)
Abbreviation torn_state := (wait_state * list (option nat))%type.

Definition store_step (i v : nat) (s : wait_state) : wait_state :=
  let limit := pred v in
  mk_wait_state (if limit =? 0 then ch_close (w_chan s) else w_chan s) (<[i := TDone]> (w_tasks s)) limit
    (w_received s) (w_result s) (w_pushed s).

Inductive torn_step : torn_state -> torn_state -> Prop :=
| TornRun i s ld : w_tasks s !! i = Some TRun -> torn_step (s, ld) (set_task i TPush s, ld)
| TornPush i a s s' ld :
    w_tasks s !! i = Some TPush -> items !! i = Some a -> push_step i a s = Some s' ->
    torn_step (s, ld) (s', ld)
| TornLoad i s ld :
    w_tasks s !! i = Some TCount -> ld !! i = Some None ->
    torn_step (s, ld) (s, <[i := Some (w_limit s)]> ld)
| TornStore i v s ld :
    w_tasks s !! i = Some TCount -> ld !! i = Some (Some v) ->
    torn_step (s, ld) (store_step i v s, <[i := None]> ld)
| TornRead s s' ld : read_step s = Some s' -> torn_step (s, ld) (s', ld).

Definition torn_init : torn_state := (wait_init, replicate (length items) None).

End system.
Arguments wait_state : clear implicits.
