(* ===== verification/WaitStuffFacts.v ===== *)
(** * Theorems on the waiting functions: termination, and what they return *)
From stdpp Require Import prelude list list_numbers relations.
From Stdlib Require Import Lia Arith.
From S2P Require Import Prelude Fleet Channel WaitStuff.

Lemma omap_lookup_seq {X} (pre l : list X) :
  base.omap (fun i => (pre ++ l) !! i) (seq (length pre) (length l)) = l.
Proof.
  revert pre. induction l as [|x l IH]; intros pre; [done|]. simpl.
  rewrite list_lookup_middle by done. f_equal. specialize (IH (pre ++ [x])).
  rewrite length_app, Nat.add_1_r, <- app_assoc in IH. exact IH.
Qed.

(** Reading all positions of a list once, in any order, gives a permutation of it. *)
Lemma lookup_all_permutation {X} (l : list X) (idx : list nat) (out : list X) :
  Forall2 (fun i x => l !! i = Some x) idx out -> NoDup idx ->
  (forall i, i < length l -> i ∈ idx) -> out ≡ₚ l.
Proof.
  intros Hf Hn Hall.
  assert (Hidx : idx ≡ₚ seq 0 (length l)).
  { apply NoDup_Permutation; [done|apply NoDup_seq|]. intros i. rewrite elem_of_seq. split.
    - intros Hi. split; [lia|]. apply list_elem_of_lookup in Hi as [k Hk].
      destruct (Forall2_lookup_l _ _ _ _ _ Hf Hk) as (x & _ & Hx). apply lookup_lt_Some in Hx. lia.
    - intros [_ Hi]. apply Hall. lia. }
  assert (Hout : out = base.omap (fun i => l !! i) idx).
  { clear -Hf. induction Hf as [|i x idx out Hx _ IH]; simpl; [done|]. rewrite Hx. f_equal. exact IH. }
  rewrite Hout, Hidx. pose proof (omap_lookup_seq [] l) as E. simpl in E. by rewrite E.
Qed.

Section facts.
Context {A R C : Type} `{ChannelLaws A C} (rd : reader A R) (items : list A).
Abbreviation wstate := (wait_state A R C).
Abbreviation step := (wait_step (C := C) rd items).
Implicit Types (s : wstate).

(** A counted reader leaves the closing to the [nchannel]. *)
Hypothesis counted_no_close :
  counted rd = true -> forall l r cl, rd_next rd l = Some (r, cl) -> cl = false.

Definition unfinished (t : task_pc) : nat := match t with TDone => 0 | _ => 1 end.

Definition running s : nat := sum_list_with unfinished (w_tasks s).

Record winv s : Prop := {
  wi_ok : ch_ok (w_chan s);
  wi_len : length (w_tasks s) = length items;
  wi_items : Forall2 (fun i a => items !! i = Some a) (w_pushed s)
               (w_received s ++ ch_contents (w_chan s));
  wi_nodup : NoDup (w_pushed s);
  wi_early i : w_tasks s !! i = Some TRun \/ w_tasks s !! i = Some TPush -> i ∉ w_pushed s;
  wi_count i : w_tasks s !! i = Some TCount -> i ∈ w_pushed s /\ counted rd = true;
  wi_done i : w_tasks s !! i = Some TDone ->
    i ∈ w_pushed s \/ counted rd = false /\ ch_closed (w_chan s) = true;
  wi_limit : counted rd = true ->
    w_limit s = running s /\ ch_closed (w_chan s) = (w_limit s =? 0);
  wi_close : counted rd = false -> ch_closed (w_chan s) = true -> is_Some (w_result s);
  wi_prefix p x q : w_received s = p ++ x :: q -> rd_next rd p = None;
  wi_result r : w_result s = Some r ->
    (exists cl, rd_next rd (w_received s) = Some (r, cl)) \/
    counted rd = true /\ rd_next rd (w_received s) = None /\ ch_closed (w_chan s) = true /\
    ch_contents (w_chan s) = [] /\ r = rd_closed rd (w_received s);
}.

Lemma running_init : sum_list_with unfinished (replicate (length items) TRun) = length items.
Proof. induction items as [|x l IH]; simpl; [done|]. by rewrite IH. Qed.

Lemma init_winv : winv (wait_init rd items).
Proof.
  destruct new_law as (Hok & Hc & Hcl).
  assert (Hchan : exists b, ch_ok (w_chan (wait_init rd items) : C) /\
    ch_contents (w_chan (wait_init rd items) : C) = [] /\
    ch_closed (w_chan (wait_init rd items) : C) = b /\
    b = counted rd && (length items =? 0)).
  { simpl. destruct (counted rd); simpl; [unfold nchannel_new; destruct (length items =? 0)|]; eauto.
    destruct (close_law ch_new Hok) as (H1 & H2 & H3). rewrite H2, H3. eauto. }
  destruct Hchan as (b & Hok' & Hc' & Hcl' & ->). split; simpl in *; rewrite ?Hc', ?Hcl'.
  - done.
  - apply length_replicate.
  - done.
  - constructor.
  - intros i _. apply not_elem_of_nil.
  - intros i Hi. apply lookup_replicate in Hi as [Hi _]. done.
  - intros i Hi. apply lookup_replicate in Hi as [Hi _]. done.
  - intros ->. unfold running. simpl. by rewrite running_init.
  - by intros ->.
  - intros p x q Hp. by destruct p.
  - done.
Qed.

Lemma run_winv s i : winv s -> w_tasks s !! i = Some TRun -> winv (set_task i TPush s).
Proof.
  intros Hw Hi. pose proof (sum_insert unfinished _ i TRun TPush Hi) as Hsum. simpl in Hsum.
  split; simpl; try apply Hw.
  - rewrite length_insert. apply Hw.
  - intros j Hj. apply (wi_early _ Hw). destruct Hj as [Hj|Hj];
      apply insert_lookup_cases in Hj as [[<- ?]|[_ Hj]]; auto; done.
  - intros j Hj. apply insert_lookup_cases in Hj as [[<- ?]|[_ Hj]]; [done|]. by apply (wi_count _ Hw).
  - intros j Hj. apply insert_lookup_cases in Hj as [[<- ?]|[_ Hj]]; [done|]. by apply (wi_done _ Hw).
  - intros Hc. destruct (wi_limit _ Hw Hc) as [-> ->]. unfold running in *. simpl. split; [lia|done].
Qed.

(** While a counted task is unfinished, the channel is open. *)
Lemma counted_open s i t :
  winv s -> counted rd = true -> w_tasks s !! i = Some t -> t <> TDone ->
  ch_closed (w_chan s) = false.
Proof.
  intros Hw Hc Hi Ht. destruct (wi_limit _ Hw Hc) as [Hl ->]. apply Nat.eqb_neq. rewrite Hl.
  pose proof (sum_lookup unfinished _ i t Hi) as Hs. unfold running. destruct t; simpl in Hs; [lia..|done].
Qed.

Lemma push_ok_winv s i a c :
  winv s -> w_tasks s !! i = Some TPush -> items !! i = Some a ->
  ch_ok c -> ch_contents c = ch_contents (w_chan s) ++ [a] ->
  ch_closed c = false -> ch_closed (w_chan s) = false ->
  winv (mk_wait_state c (<[i := if counted rd then TCount else TDone]> (w_tasks s)) (w_limit s)
          (w_received s) (w_result s) (w_pushed s ++ [i])).
Proof.
  intros Hw Hi Ha Hok Hc Hcl Hcl0. split; simpl.
  - done.
  - rewrite length_insert. apply Hw.
  - rewrite Hc, app_assoc. apply Forall2_app; [apply Hw|by repeat constructor].
  - apply NoDup_app. split; [apply Hw|]. split; [|apply NoDup_singleton].
    intros j Hj ->%list_elem_of_singleton. by apply (wi_early _ Hw i); [right|].
  - intros j Hj. assert (j <> i /\ j ∉ w_pushed s) as [Hne Hno].
    { destruct Hj as [Hj|Hj]; apply insert_lookup_cases in Hj as [[<- ?]|[? Hj]];
        try (by destruct (counted rd)); (split; [done|]); apply (wi_early _ Hw); auto. }
    rewrite elem_of_app, list_elem_of_singleton. naive_solver.
  - intros j Hj. apply insert_lookup_cases in Hj as [[<- E]|[_ Hj]].
    + split; [set_solver|]. by destruct (counted rd).
    + destruct (wi_count _ Hw j Hj). split; [set_solver|done].
  - intros j Hj. left. apply insert_lookup_cases in Hj as [[<- E]|[_ Hj]]; [set_solver|].
    destruct (wi_done _ Hw j Hj) as [?|[_ ?]]; [set_solver|congruence].
  - intros Hco. rewrite Hco. pose proof (sum_insert unfinished _ i TPush TCount Hi) as Hsum.
    destruct (wi_limit _ Hw Hco) as [Hl Hz]. unfold running in *. simpl in *. rewrite Hcl.
    split; [lia|]. by rewrite <- Hz.
  - congruence.
  - apply Hw.
  - intros r Hr. destruct (wi_result _ Hw r Hr) as [?|(_ & _ & ? & _)]; [by left|congruence].
Qed.

Lemma push_winv s s' i a :
  winv s -> w_tasks s !! i = Some TPush -> items !! i = Some a -> push_step rd i a s = Some s' -> winv s'.
Proof.
  intros Hw Hi Ha. unfold push_step. pose proof (push_law (w_chan s) a (wi_ok _ Hw)) as Hp.
  destruct (ch_closed (w_chan s)) eqn:Ec.
  - rewrite Hp. intros [= <-].
    assert (Hco : counted rd = false).
    { destruct (counted rd) eqn:Eco; [|done].
      by rewrite (counted_open s i TPush Hw Eco Hi) in Ec. }
    pose proof Hw as [? ? ? ? He Hcn Hd Hl ? ? ?]. split; simpl; try done.
    + by rewrite length_insert.
    + intros j Hj. apply He. destruct Hj as [Hj|Hj]; apply insert_lookup_cases in Hj as [[<- ?]|[_ Hj]]; auto; done.
    + intros j Hj. apply insert_lookup_cases in Hj as [[<- ?]|[_ Hj]]; [done|]. by apply Hcn.
    + intros j Hj. apply insert_lookup_cases in Hj as [[<- ?]|[_ Hj]]; [by right|]. by apply Hd.
    + congruence.
  - destruct (_ <? _).
    + destruct Hp as (c & -> & Hok & Hc & Hcl). intros [= <-]. by apply (push_ok_winv s i a c).
    + by rewrite Hp.
Qed.

Lemma count_winv s i : winv s -> w_tasks s !! i = Some TCount -> winv (count_step i s).
Proof.
  intros Hw Hi. destruct (wi_count _ Hw i Hi) as [Hpi Hco].
  pose proof (counted_open s i TCount Hw Hco Hi ltac:(done)) as Hopen.
  destruct (wi_limit _ Hw Hco) as [Hl Hz].
  pose proof (sum_insert unfinished _ i TCount TDone Hi) as Hsum. simpl in Hsum.
  destruct (close_law (w_chan s) (wi_ok _ Hw)) as (Hok & Hc & Hcl).
  set (c := if pred (w_limit s) =? 0 then ch_close (w_chan s) else w_chan s).
  assert (Hch : ch_ok c /\ ch_contents c = ch_contents (w_chan s) /\
    ch_closed c = (pred (w_limit s) =? 0)).
  { unfold c. destruct (pred (w_limit s) =? 0); [done|]. split; [apply Hw|]. by rewrite Hopen. }
  destruct Hch as (Hok' & Hc' & Hcl'). split; simpl; fold c; rewrite ?Hc', ?Hcl'.
  - done.
  - rewrite length_insert. apply Hw.
  - apply Hw.
  - apply Hw.
  - intros j Hj. apply (wi_early _ Hw). destruct Hj as [Hj|Hj];
      apply insert_lookup_cases in Hj as [[<- ?]|[_ Hj]]; auto; done.
  - intros j Hj. apply insert_lookup_cases in Hj as [[<- ?]|[_ Hj]]; [done|]. by apply (wi_count _ Hw).
  - intros j Hj. left. apply insert_lookup_cases in Hj as [[<- ?]|[_ Hj]]; [done|].
    destruct (wi_done _ Hw j Hj) as [?|[? _]]; [done|congruence].
  - intros _. unfold running in *. simpl. split; [lia|done].
  - congruence.
  - apply Hw.
  - intros r Hr. destruct (wi_result _ Hw r Hr) as [?|(_ & _ & ? & _)]; [by left|congruence].
Qed.

Lemma read_winv s s' : winv s -> read_step rd s = Some s' -> winv s'.
Proof.
  intros Hw. unfold read_step. destruct (w_result s) as [r|] eqn:Er; [done|].
  pose proof Hw as [Hok Hlen Hit Hnd He Hcn Hd Hl Hcl Hpre Hres].
  destruct (rd_next rd (w_received s)) as [[r cl]|] eqn:En.
  - destruct (close_law (w_chan s) Hok) as (Hok' & Hc' & Hcl').
    intros [= <-]. destruct cl.
    + assert (counted rd = false) as Hco.
      { destruct (counted rd) eqn:E; [|done]. by specialize (counted_no_close eq_refl _ _ _ En). }
      split; simpl; rewrite ?Hc'; try done.
      * intros i Hi. destruct (Hd i Hi) as [?|[? _]]; auto.
      * congruence.
      * intros r' [= <-]. left. eauto.
    + split; simpl; try done. intros r' [= <-]. left. eauto.
  - pose proof (pop_law (w_chan s) Hok) as Hp. destruct (ch_contents (w_chan s)) as [|v rest] eqn:Ec.
    + rewrite Hp. destruct (ch_closed (w_chan s)) eqn:Ecl; [|done]. intros [= <-].
      split; simpl; rewrite ?Ec, ?Ecl; try done.
      intros r' [= <-]. right. split; [|by rewrite En].
      destruct (counted rd) eqn:Eco; [done|]. destruct (Hcl eq_refl eq_refl). congruence.
    + destruct Hp as (c & -> & Hok' & Hc' & Hcl'). intros [= <-].
      split; simpl; rewrite ?Hc', ?Hcl'; try done.
      * by rewrite <- app_assoc.
      * intros Hco Hx. destruct (Hcl Hco Hx) as [? ?]. congruence.
      * intros p x q Hp. destruct q as [|y q _] using rev_ind.
        { apply app_inj_tail in Hp as [<- _]. done. }
        rewrite app_comm_cons, app_assoc in Hp. apply app_inj_tail in Hp as [Hp _]. by eapply Hpre.
Qed.

Lemma step_winv s s' : step s s' -> winv s -> winv s'.
Proof.
  intros [i s0 Hi|i a s0 s1 Hi Ha Hp|i s0 Hi|s0 s1 Hr] Hw.
  - by apply run_winv.
  - by eapply push_winv.
  - by apply count_winv.
  - by eapply read_winv.
Qed.

Lemma reachable_winv s : wait_reachable rd items s -> winv s.
Proof.
  revert s. apply (rtc_ind_r (R := step) winv (wait_init rd items)); [apply init_winv|].
  intros ? ? _ Hs Hi. by eapply step_winv.
Qed.

(** ** Termination *)

Definition weight (t : task_pc) : nat :=
  match t with TRun => 6 | TPush => 4 | TCount => 2 | TDone => 0 end.

Definition measure s : nat :=
  sum_list_with weight (w_tasks s) + length (ch_contents (w_chan s)) +
  match w_result s with None => 1 | Some _ => 0 end.

Lemma step_measure s s' : winv s -> step s s' -> measure s' < measure s.
Proof.
  intros Hw Hs. unfold measure. pose proof (wi_ok _ Hw) as Hok.
  destruct (close_law (w_chan s) Hok) as (_ & Hclose & _).
  destruct Hs as [i s Hi|i a s s' Hi Ha Hp|i s Hi|s s' Hr].
  - pose proof (sum_insert weight _ i TRun TPush Hi) as Hsum. simpl in *. lia.
  - unfold push_step in Hp. pose proof (push_law (w_chan s) a Hok) as Hl.
    destruct (ch_closed (w_chan s)).
    + rewrite Hl in Hp. injection Hp as <-.
      pose proof (sum_insert weight _ i TPush TDone Hi) as Hsum. simpl in *. lia.
    + destruct (_ <? _); [|by rewrite Hl in Hp].
      destruct Hl as (c & E & _ & Hc & _). rewrite E in Hp. injection Hp as <-. simpl.
      rewrite Hc, length_app. simpl.
      pose proof (sum_insert weight _ i TPush (if counted rd then TCount else TDone) Hi) as Hsum.
      destruct (counted rd); simpl in *; lia.
  - pose proof (sum_insert weight _ i TCount TDone Hi) as Hsum. simpl in *.
    destruct (pred (w_limit s) =? 0); rewrite ?Hclose; lia.
  - unfold read_step in Hr. destruct (w_result s); [done|].
    destruct (rd_next rd (w_received s)) as [[r cl]|].
    + injection Hr as <-. simpl. destruct cl; rewrite ?Hclose; lia.
    + pose proof (pop_law (w_chan s) Hok) as Hl.
      destruct (ch_contents (w_chan s)) as [|v rest] eqn:Ec.
      * rewrite Hl in Hr. destruct (ch_closed (w_chan s)); [|done]. injection Hr as <-. simpl.
        rewrite Ec. simpl. lia.
      * destruct Hl as (c & E & _ & Hc & _). rewrite E in Hr. injection Hr as <-. simpl.
        rewrite Hc. lia.
Qed.

Lemma measure_init : measure (wait_init rd items) = 6 * length items + 1.
Proof.
  unfold measure. destruct new_law as (Hok & Hc & _).
  destruct (close_law ch_new Hok) as (_ & Hcl & _).
  assert (ch_contents (w_chan (wait_init rd items) : C) = []) as ->.
  { simpl. unfold nchannel_new. destruct (counted rd); [destruct (_ =? 0)|]; congruence. }
  simpl. assert (forall k, sum_list_with weight (replicate k TRun) = 6 * k) as ->; [|lia].
  induction k; simpl; lia.
Qed.

(** No run is longer than the measure of its start. *)
Lemma run_bounded k s : nsteps step k (wait_init rd items) s -> k <= 6 * length items + 1.
Proof.
  intros Hk. rewrite <- measure_init.
  assert (G : forall k s0 s, winv s0 -> nsteps step k s0 s -> k + measure s <= measure s0).
  { clear Hk k s. induction k as [|k IH]; intros s0 s Hw Hk; inversion_clear Hk as [|? ? ? ? Hs Hn]; [lia|].
    pose proof (step_measure _ _ Hw Hs). specialize (IH _ _ (step_winv _ _ Hs Hw) Hn). lia. }
  specialize (G k _ s init_winv Hk). lia.
Qed.

(** ** Progress *)

(** A reader that does not wait for the closing has seen enough after all items. *)
Definition enough : Prop :=
  counted rd = false -> forall l, length l = length items -> rd_next rd l <> None.

(** Every index that pushed, once all have. *)
Lemma all_pushed s :
  winv s -> (forall i, i < length items -> i ∈ w_pushed s) ->
  w_received s ++ ch_contents (w_chan s) ≡ₚ items.
Proof.
  intros Hw Hall. by apply (lookup_all_permutation items (w_pushed s)); [apply Hw..|].
Qed.

Lemma all_done_pushed s :
  winv s -> (forall i t, w_tasks s !! i = Some t -> t = TDone) ->
  counted rd = true \/ ch_closed (w_chan s) = false ->
  forall i, i < length items -> i ∈ w_pushed s.
Proof.
  intros Hw Hall Hc i Hi. rewrite <- (wi_len _ Hw) in Hi. apply lookup_lt_is_Some in Hi as [t Ht].
  pose proof (Hall i t Ht) as ->. destruct (wi_done _ Hw i Ht) as [?|[? ?]]; [done|].
  destruct Hc; congruence.
Qed.

Lemma stuck_tasks s i t :
  winv s -> stuck rd items s -> ch_contents (w_chan s) = [] -> w_tasks s !! i = Some t -> t = TDone.
Proof.
  intros Hw Hs Hc Hi. destruct t; [| | |done]; exfalso.
  - by apply (Hs (set_task i TPush s)), StepRun.
  - assert (i < length items) as [a Ha]%lookup_lt_is_Some
      by (rewrite <- (wi_len _ Hw); by eapply lookup_lt_Some).
    pose proof (push_law (w_chan s) a (wi_ok _ Hw)) as Hp. rewrite Hc in Hp.
    destruct (ch_closed (w_chan s)).
    + apply (Hs (set_task i TDone s)), (StepPush rd items i a); [done..|].
      unfold push_step. by rewrite Hp.
    + pose proof room_pos as Hr. destruct (Nat.ltb_spec (length (@nil A)) ch_room); [|simpl in *; lia].
      destruct Hp as (c & E & _). eapply Hs, (StepPush rd items i a); [done..|].
      unfold push_step. by rewrite E.
  - by apply (Hs (count_step i s)), StepCount.
Qed.

Lemma stuck_returned s : winv s -> enough -> stuck rd items s -> is_Some (w_result s).
Proof.
  intros Hw He Hs. destruct (w_result s) as [r|] eqn:Er; [eauto|]. exfalso.
  destruct (read_step rd s) as [s'|] eqn:Es; [by apply (Hs s'), StepRead|].
  unfold read_step in Es. rewrite Er in Es.
  destruct (rd_next rd (w_received s)) as [[r cl]|] eqn:En; [done|].
  pose proof (pop_law (w_chan s) (wi_ok _ Hw)) as Hp.
  destruct (ch_contents (w_chan s)) as [|v rest] eqn:Ec.
  2: { destruct Hp as (c & E & _). by rewrite E in Es. }
  rewrite Hp in Es. destruct (ch_closed (w_chan s)) eqn:Ecl; [done|].
  pose proof (stuck_tasks s) as Hdone.
  assert (Hall : forall i t, w_tasks s !! i = Some t -> t = TDone) by (intros i t; by apply Hdone).
  destruct (counted rd) eqn:Eco.
  - destruct (wi_limit _ Hw Eco) as [Hl Hz]. rewrite Ecl in Hz. symmetry in Hz. apply Nat.eqb_neq in Hz.
    apply Hz. rewrite Hl. apply sum_zero. intros i t Hi. by rewrite (Hall i t Hi).
  - apply (He Eco (w_received s)); [|done].
    pose proof (all_pushed s Hw (all_done_pushed s Hw Hall (or_intror Ecl))) as Hperm.
    rewrite Ec, app_nil_r in Hperm. by rewrite Hperm.
Qed.

(** What the caller has received when it returns. *)
Lemma returned_outcome s r :
  winv s -> w_result s = Some r ->
  (exists cl, rd_next rd (w_received s) = Some (r, cl) /\
     forall p x q, w_received s = p ++ x :: q -> rd_next rd p = None) \/
  counted rd = true /\ w_received s ≡ₚ items /\ r = rd_closed rd (w_received s) /\
  rd_next rd (w_received s) = None.
Proof.
  intros Hw Hr. destruct (wi_result _ Hw r Hr) as [[cl Hn]|(Hco & Hn & Hcl & Hc & ->)].
  - left. exists cl. split; [done|]. apply Hw.
  - right. split; [done|]. split; [|done].
    destruct (wi_limit _ Hw Hco) as [Hl Hz]. rewrite Hcl in Hz. symmetry in Hz. apply Nat.eqb_eq in Hz.
    pose proof (all_pushed s Hw) as Hp. rewrite Hc, app_nil_r in Hp. apply Hp.
    apply all_done_pushed; [done| |by left]. intros i t Hi.
    pose proof (sum_lookup unfinished _ i t Hi) as Hle. unfold running in Hl. destruct t; simpl in Hle; lia || done.
Qed.

(** The items received are items of the functions; all of them, when they are as many. *)
Lemma received_items s a : winv s -> a ∈ w_received s -> a ∈ items.
Proof.
  intros Hw Ha. assert (Ha' : a ∈ w_received s ++ ch_contents (w_chan s)) by set_solver.
  apply list_elem_of_lookup in Ha' as [k Hk].
  destruct (Forall2_lookup_r _ _ _ _ _ (wi_items _ Hw) Hk) as (i & _ & Hi). by eapply list_elem_of_lookup_2.
Qed.

Lemma received_all s : winv s -> length (w_received s) = length items -> w_received s ≡ₚ items.
Proof.
  intros Hw Hlen. pose proof (wi_items _ Hw) as Hf.
  assert (Hb : forall i, i ∈ w_pushed s -> i < length items).
  { intros i Hi. apply list_elem_of_lookup in Hi as [k Hk].
    destruct (Forall2_lookup_l _ _ _ _ _ Hf Hk) as (a & _ & Ha). by eapply lookup_lt_Some. }
  assert (Hsub : w_pushed s ⊆+ seq 0 (length items)).
  { apply NoDup_submseteq; [apply Hw|]. intros i Hi. apply elem_of_seq. specialize (Hb i Hi). lia. }
  pose proof (submseteq_length _ _ Hsub) as Hle. rewrite length_seq in Hle.
  pose proof (Forall2_length _ _ _ Hf) as Hl. rewrite length_app in Hl.
  assert (ch_contents (w_chan s) = []) as Hc by (apply nil_length_inv; lia).
  pose proof (all_pushed s Hw) as Hp. rewrite Hc, app_nil_r in Hp. apply Hp. intros i Hi.
  assert (Hperm : w_pushed s ≡ₚ seq 0 (length items)).
  { apply submseteq_length_Permutation; [done|]. rewrite length_seq. lia. }
  rewrite Hperm. apply elem_of_seq. lia.
Qed.

End facts.

(** ** Concrete runs *)

(** A schedule names the step taken; [Load] and [Store] only happen when the
    count is torn. *)
Inductive move : Type := Run (i : nat) | Push (i : nat) | Count (i : nat) | Load (i : nat) | Store (i : nat) | Read.

Section schedules.
Context {A R C : Type} `{Channel A C} (rd : reader A R) (items : list A).

Definition at_pc (i : nat) (t : task_pc) (s : wait_state A R C) : bool :=
  bool_decide (w_tasks s !! i = Some t).

Definition exec (m : move) (s : wait_state A R C) : option (wait_state A R C) :=
  match m with
  | Run i => if at_pc i TRun s then Some (set_task i TPush s) else None
  | Push i => if at_pc i TPush s then items !! i ≫= (fun a => push_step rd i a s) else None
  | Count i => if at_pc i TCount s then Some (count_step i s) else None
  | Read => read_step rd s
  | _ => None
  end.

Fixpoint schedule (ms : list move) (s : wait_state A R C) : option (wait_state A R C) :=
  match ms with [] => Some s | m :: ms' => exec m s ≫= schedule ms' end.

Lemma schedule_run ms s s' :
  schedule ms s = Some s' -> nsteps (wait_step rd items) (length ms) s s'.
Proof.
  revert s. induction ms as [|m ms IH]; intros s Hs; simpl in *; [simplify_eq; constructor|].
  apply bind_Some in Hs as (s1 & He & Hs). econstructor; [|by apply IH]. clear Hs IH.
  unfold exec, at_pc in He. destruct m as [i|i|i|i|i|]; try case_bool_decide; simplify_eq.
  - by apply StepRun.
  - apply bind_Some in He as (a & Ha & He). by eapply StepPush.
  - by apply StepCount.
  - by apply StepRead.
Qed.

Definition torn_exec (m : move) (st : wait_state A R C * list (option nat)) :
    option (wait_state A R C * list (option nat)) :=
  let '(s, ld) := st in
  match m with
  | Load i =>
      if at_pc i TCount s then
        match ld !! i with Some None => Some (s, <[i := Some (w_limit s)]> ld) | _ => None end
      else None
  | Store i =>
      if at_pc i TCount s then
        match ld !! i with Some (Some v) => Some (store_step i v s, <[i := None]> ld) | _ => None end
      else None
  | Count i => None
  | m => s' ← exec m s; Some (s', ld)
  end.

Fixpoint torn_schedule (ms : list move) st :=
  match ms with [] => Some st | m :: ms' => torn_exec m st ≫= torn_schedule ms' end.

Lemma torn_schedule_run ms st st' : torn_schedule ms st = Some st' -> rtc (torn_step rd items) st st'.
Proof.
  revert st. induction ms as [|m ms IH]; intros [s ld] Hs; cbn [torn_schedule] in *; [simplify_eq; constructor|].
  apply bind_Some in Hs as (s1 & He & Hs). econstructor; [|by apply IH]. clear Hs IH.
  unfold torn_exec, exec, at_pc in He. destruct m as [i|i|i|i|i|]; try case_bool_decide; simplify_eq/=.
  - by apply TornRun.
  - apply bind_Some in He as (s2 & He & ?). apply bind_Some in He as (a & Ha & He). simplify_eq. by eapply TornPush.
  - destruct (ld !! i) as [[v|]|] eqn:El; simplify_eq. by apply TornLoad.
  - destruct (ld !! i) as [[v|]|] eqn:El; simplify_eq. by apply TornStore.
  - apply bind_Some in He as (s2 & He & ?). simplify_eq. by apply TornRead.
Qed.

(** When every function has ended, only the caller may move. *)
Definition all_done (s : wait_state A R C) : bool := forallb (fun t => bool_decide (t = TDone)) (w_tasks s).

Lemma all_done_pc s i t : all_done s = true -> w_tasks s !! i = Some t -> t = TDone.
Proof.
  intros Hd Hi. apply Is_true_true in Hd. apply forallb_True in Hd.
  apply (Forall_lookup_1 _ _ _ _ Hd) in Hi. by apply bool_decide_unpack in Hi.
Qed.

Lemma done_stuck s : all_done s = true -> read_step rd s = None -> stuck rd items s.
Proof.
  intros Hd Hr s' Hs. inversion Hs; simplify_eq;
    repeat match goal with Hi : w_tasks _ !! _ = Some _ |- _ => apply (all_done_pc _ _ _ Hd) in Hi end; congruence.
Qed.

Lemma done_torn_stuck s ld st :
  all_done s = true -> read_step rd s = None -> ~ torn_step rd items (s, ld) st.
Proof.
  intros Hd Hr Hs. inversion Hs; simplify_eq;
    repeat match goal with Hi : w_tasks _ !! _ = Some _ |- _ => apply (all_done_pc _ _ _ Hd) in Hi end; congruence.
Qed.

End schedules.

(** [wait_all_values] of two functions, torn: both fibers load the limit 2. *)
Definition torn_moves : list move :=
  [Run 0; Run 1; Push 0; Push 1; Load 0; Load 1; Store 0; Store 1; Read; Read].

(** The count of [nchannel::push] is lost when two fibers on different
    threads interleave its load and its store: both functions have returned and
    their values are received, no step is left, but the channel was never closed
    and the caller has not returned. *)
Lemma torn_count_waits_forever {T E} `{Inhabited T} (v0 v1 : T) :
  exists (s : wait_state T (outcome (wait_exception E) (list T)) (buffered_channel T)) ld,
    rtc (torn_step wait_all_values [v0; v1]) (torn_init wait_all_values [v0; v1]) (s, ld) /\
    (forall st, ~ torn_step wait_all_values [v0; v1] (s, ld) st) /\
    w_tasks s = [TDone; TDone] /\ w_received s = [v0; v1] /\ closed_ (w_chan s) = false /\ w_result s = None.
Proof.
  destruct (torn_schedule wait_all_values [v0; v1] torn_moves
    (torn_init (R := outcome (wait_exception E) (list T)) (C := buffered_channel T) wait_all_values [v0; v1]))
    as [[s ld]|] eqn:Ex; [|vm_compute in Ex; discriminate].
  exists s, ld. split; [by eapply torn_schedule_run|].
  vm_compute in Ex. injection Ex as <- <-. split_and!; [|done..].
  intros st. by apply done_torn_stuck.
Qed.

(** ** [wait_all_members] *)

Section members.
Context {T E : Type} (futures : list (ready T E)).
Implicit Type s : members_state (T := T) (E := E).

(** What the futures hold: all values, or the leftmost exception. *)
Definition members_outcome : outcome (wait_exception E) (list T) :=
  match errors futures with [] => Ret (values futures) | e :: _ => Throw (task_exception e) end.

Definition running_members (l : list bool) : nat := sum_list_with (fun b : bool => if b then 0 else 1) l.

Definition members_left s : nat :=
  running_members (mb_ready s) + match mb_result s with Some _ => 0 | None => S (length futures - length (mb_got s)) end.

Record members_inv s : Prop := {
  mi_length : length (mb_ready s) = length futures;
  mi_got : mb_result s = None -> exists rest, futures = map Good (mb_got s) ++ rest;
  mi_result r : mb_result s = Some r -> r = members_outcome;
}.

Lemma values_good (l : list T) (rest : list (ready T E)) :
  values (map Good l ++ rest) = l ++ values rest /\ errors (map Good l ++ rest) = errors rest.
Proof. induction l as [|v l [IH1 IH2]]; simpl; [done|]. by rewrite IH1, IH2. Qed.

Lemma members_step_inv s s' :
  members_step futures s s' -> members_inv s -> members_inv s' /\ members_left s' < members_left s.
Proof.
  intros Hs [Hl Hg Hr]. unfold members_left, running_members in *. destruct Hs as [i s Hi|f s Hn Hf Hready|s Hn Hlen].
  - split; [by split; simpl; rewrite ?length_insert|]. simpl.
    pose proof (sum_insert (fun b : bool => if b then 0 else 1) (mb_ready s) i false true Hi). simpl in *. lia.
  - destruct (Hg Hn) as [rest Hrest]. assert (Hlt := lookup_lt_Some _ _ _ Hf).
    assert (exists rest', rest = f :: rest') as [rest' ->].
    { rewrite Hrest, lookup_app_r, length_map, Nat.sub_diag in Hf by (by rewrite length_map).
      destruct rest as [|x rest']; simplify_eq/=. eauto. }
    rewrite Hn. destruct f as [v|e]; unfold member_get; simpl.
    + split; [split; simpl; try done|rewrite length_app; simpl; lia]. intros _. exists rest'.
      rewrite map_app, <- app_assoc. done.
    + split; [split; simpl; try done|lia]. intros r [= <-]. unfold members_outcome. rewrite Hrest.
      by rewrite (proj2 (values_good _ _)).
  - destruct (Hg Hn) as [rest Hrest]. rewrite Hn. split; [split; simpl; try done|simpl; lia].
    assert (rest = []) as ->.
    { apply nil_length_inv. apply (f_equal length) in Hrest. rewrite length_app, length_map in Hrest. lia. }
    intros r [= <-]. unfold members_outcome. rewrite Hrest. destruct (values_good (mb_got s) []) as [-> ->].
    simpl. by rewrite app_nil_r.
Qed.

Lemma members_run k s :
  nsteps (members_step futures) k (members_init futures) s ->
  members_inv s /\ k + members_left s <= 2 * length futures + 1.
Proof.
  intros Hk. remember (members_init futures) as s0 eqn:E0.
  assert (H0 : members_inv s0 /\ members_left s0 <= 2 * length futures + 1).
  { subst. split; [split; simpl; [by rewrite length_replicate|by exists futures|done]|].
    unfold members_left, running_members. simpl. rewrite sum_replicate. lia. }
  clear E0. destruct H0 as [Hs0 Hb].
  assert (members_inv s /\ k + members_left s <= members_left s0); [|naive_solver lia].
  clear Hb. induction Hk as [|k x y z Hxy _ IH]; [done|].
  destruct (members_step_inv _ _ Hxy Hs0) as [Hy Hlt]. destruct (IH Hy) as [? ?]. split; [done|lia].
Qed.

Lemma members_stuck s :
  members_inv s -> (forall s', ~ members_step futures s s') -> mb_result s = Some members_outcome.
Proof.
  intros [Hl Hg Hr] Hst. destruct (mb_result s) as [r|] eqn:Er; [by rewrite (Hr r eq_refl)|]. exfalso.
  destruct (Hg eq_refl) as [rest Hrest]. destruct rest as [|f rest].
  - assert (Hn : length (mb_got s) = length futures) by (by rewrite Hrest, length_app, length_map, Nat.add_0_r).
    by apply (Hst _ (MembersReturn _ s Er Hn)).
  - assert (Hf : futures !! length (mb_got s) = Some f).
    { by rewrite Hrest, lookup_app_r, length_map, Nat.sub_diag by (by rewrite length_map). }
    destruct (lookup_lt_is_Some_2 (mb_ready s) (length (mb_got s))) as [[] Hb].
    { rewrite Hl. by eapply lookup_lt_Some. }
    + by apply (Hst _ (MemberGet _ f s Er Hf Hb)).
    + by apply (Hst _ (MemberEnds _ _ s Hb)).
Qed.
End members.

(** ** The waiting functions over the ring buffer *)

Definition no_close {A R} (rd : reader A R) : Prop :=
  counted rd = true -> forall l r cl, rd_next rd l = Some (r, cl) -> cl = false.

#[global] Instance ready_inhabited {T E} `{Inhabited T} : Inhabited (ready T E) := populate (Good inhabitant).

Section functions.
Context {T E : Type} `{Inhabited T}.
Implicit Types (l : list (ready T E)).

Lemma errors_perm l l' : l ≡ₚ l' -> errors l ≡ₚ errors l'.
Proof. induction 1 as [|[v|e] l l' _ IH|[v|e] [v'|e'] l|]; simpl; eauto using Permutation; by rewrite IH. Qed.

Lemma values_perm l l' : l ≡ₚ l' -> values l ≡ₚ values l'.
Proof. induction 1 as [|[v|e] l l' _ IH|[v|e] [v'|e'] l|]; simpl; eauto using Permutation; by rewrite IH. Qed.

Lemma elem_errors l e : e ∈ errors l <-> Bad e ∈ l.
Proof. induction l as [|[v|e'] l IH]; simpl; set_solver. Qed.

Lemma elem_values l v : v ∈ values l <-> Good v ∈ l.
Proof. induction l as [|[v'|e] l IH]; simpl; set_solver. Qed.

Lemma success_loop_spec count ex l :
  match success_loop count ex l with
  | None => values l = [] /\ length l < count
  | Some (Ret v, true) => exists es l', l = map Bad es ++ Good v :: l'
  | Some (Throw (exception_list es), false) =>
      (count <= length l)%nat /\ (length l = count -> es = ex ++ errors l /\ values l = [])
  | _ => False
  end.
Proof.
  revert count ex. induction l as [|[v|e] l IH]; intros [|count] ex; simpl; try lia.
  - split; [lia|]. intros _. by rewrite app_nil_r.
  - split; [done|lia].
  - by exists [], l.
  - specialize (IH count (ex ++ [e])). destruct (success_loop count _ l) as [[[v|[|es|]|] []]|]; try done.
    + destruct IH as (es & l' & ->). by exists (e :: es), l'.
    + destruct IH as [Hle Heq]. split; [lia|]. intros Hl. destruct (Heq ltac:(lia)) as [-> ->].
      by rewrite <- app_assoc.
    + destruct IH as [-> ?]. split; [done|lia].
Qed.

Abbreviation result X := (outcome (wait_exception E) X).

(** A run of [k] steps from the start of a waiting function. *)
Abbreviation run rd items k s := (nsteps (wait_step (C := buffered_channel _) rd items) k (wait_init rd items) s).

Lemma run_reachable {A R C} `{ChannelLaws A C} (rd : reader A R) items k s :
  nsteps (wait_step (C := C) rd items) k (wait_init rd items) s -> wait_reachable rd items s.
Proof. intros Hk. apply rtc_nsteps. eauto. Qed.

(** C9. The functions that wait for all, with any number of functions.  When the
    fibers share a thread, so that [--limit_] is one step, then in any
    interleaving no run is longer than six steps a function and one, and when no
    step is left the caller has returned: [wait_all_values] returns all values,
    in any order; [wait_all_collect_errors] all values, or throws all exceptions
    when there is one; [wait_all_until_error] all values, or throws one of the
    exceptions.  [wait_all_members] needs no count: within two steps a function and
    one it returns all values in the order of the functions, or throws the leftmost
    exception, also when functions further to the left return later.  On several
    threads the count can be lost: there is a run of [wait_all_values] in which both
    functions have ended and their values are received, and the caller waits for
    ever. *)
Theorem wait_all_correct :
  (forall (items : list T) k s,
     run wait_all_values items k s ->
     (k <= 6 * length items + 1)%nat /\
     (stuck wait_all_values items s ->
      exists vs, w_result s = Some (Ret vs : result (list T)) /\ vs ≡ₚ items)) /\
  (forall (items : list (ready T E)) k s,
     run wait_all_collect_errors items k s ->
     (k <= 6 * length items + 1)%nat /\
     (stuck wait_all_collect_errors items s ->
      match errors items with
      | [] => exists vs, w_result s = Some (Ret vs) /\ vs ≡ₚ values items
      | _ => exists es, w_result s = Some (Throw (exception_list es)) /\ es ≡ₚ errors items
      end)) /\
  (forall (items : list (ready T E)) k s,
     run wait_all_until_error items k s ->
     (k <= 6 * length items + 1)%nat /\
     (stuck wait_all_until_error items s ->
      match errors items with
      | [] => exists vs, w_result s = Some (Ret vs) /\ vs ≡ₚ values items
      | _ => exists e, w_result s = Some (Throw (task_exception e)) /\ Bad e ∈ items
      end)) /\
  (forall (futures : list (ready T E)) k s,
     nsteps (members_step futures) k (members_init futures) s ->
     (k <= 2 * length futures + 1)%nat /\
     ((forall s', ~ members_step futures s s') ->
      mb_result s = Some (match errors futures with
                          | [] => Ret (values futures)
                          | e :: _ => Throw (task_exception e)
                          end))) /\
  (forall v0 v1 : T,
     exists (s : wait_state T (result (list T)) (buffered_channel T)) ld,
       rtc (torn_step wait_all_values [v0; v1]) (torn_init wait_all_values [v0; v1]) (s, ld) /\
       (forall st, ~ torn_step wait_all_values [v0; v1] (s, ld) st) /\
       w_tasks s = [TDone; TDone] /\ w_received s = [v0; v1] /\ w_result s = None).
Proof.
  split_and!; [intros items k s Hk..| |].
  - assert (Hn : no_close (A := T) (R := result (list T)) wait_all_values) by done.
    split; [by apply (run_bounded _ _ Hn) in Hk|]. intros Hs.
    pose proof (reachable_winv _ _ Hn s (run_reachable _ _ _ _ Hk)) as Hw.
    destruct (stuck_returned _ _ Hn s Hw) as [r Hr]; [done..|].
    destruct (returned_outcome _ _ s r Hw Hr) as [(cl & ? & _)|(_ & Hp & -> & _)]; [done|]. exists (w_received s). done.
  - assert (Hn : no_close (A := ready T E) (R := result (list T)) wait_all_collect_errors) by done.
    split; [by apply (run_bounded _ _ Hn) in Hk|]. intros Hs.
    pose proof (reachable_winv _ _ Hn s (run_reachable _ _ _ _ Hk)) as Hw.
    destruct (stuck_returned _ _ Hn s Hw) as [r Hr]; [done..|].
    destruct (returned_outcome _ _ s r Hw Hr) as [(cl & ? & _)|(_ & Hp & -> & _)]; [done|]. simpl in Hr.
    pose proof (errors_perm _ _ Hp) as He. destruct (errors items) as [|e es] eqn:Ei.
    + apply Permutation_nil_r in He. rewrite He in Hr. eauto using values_perm.
    + destruct (errors (w_received s)) as [|e' es'] eqn:Er; [by apply Permutation_nil_l in He|].
      exists (e' :: es'). done.
  - assert (Hn : no_close (A := ready T E) (R := result (list T)) wait_all_until_error).
    { intros _ l r cl Hl. simpl in Hl. destruct (errors l); congruence. }
    split; [by apply (run_bounded _ _ Hn) in Hk|]. intros Hs.
    pose proof (reachable_winv _ _ Hn s (run_reachable _ _ _ _ Hk)) as Hw.
    destruct (stuck_returned _ _ Hn s Hw) as [r Hr]; [done..|].
    destruct (returned_outcome _ _ s r Hw Hr) as [(cl & Hnext & _)|(_ & Hp & -> & Hnone)]; simpl in *.
    + destruct (errors (w_received s)) as [|e es] eqn:Er; [done|]. injection Hnext as <- <-.
      assert (Hb : Bad e ∈ items).
      { eapply (received_items _ _ Hn); [done|]. apply elem_errors. rewrite Er. set_solver. }
      destruct (errors items) as [|e' es'] eqn:Ei; [|eauto].
      apply elem_errors in Hb. rewrite Ei in Hb. set_solver.
    + pose proof (errors_perm _ _ Hp) as He.
      destruct (errors (w_received s)) eqn:Er; [|done]. apply Permutation_nil_l in He.
      rewrite <- He. eauto using values_perm.
  - intros futures k s Hk. destruct (members_run futures k s Hk) as [Hi Hb]. split; [lia|by apply members_stuck].
  - intros v0 v1. destruct (torn_count_waits_forever (E := E) v0 v1) as (s & ld & H1 & H2 & H3 & H4 & _ & H5).
    by exists s, ld.
Qed.

(** What the first item pushed is. *)
Lemma first_pushed {A R C} `{ChannelLaws A C} (rd : reader A R) items (s : wait_state A R C) (a : A) (l : list A) :
  winv rd items s -> w_received s = a :: l ->
  exists i, head (w_pushed s) = Some i /\ items !! i = Some a.
Proof.
  intros Hw Hr. pose proof (wi_items _ _ _ Hw) as Hf. rewrite Hr in Hf. simpl in Hf.
  destruct (w_pushed s) as [|i idx]; [by apply Forall2_nil_cons_inv in Hf|].
  apply Forall2_cons_1 in Hf as [Hi _]. by exists i.
Qed.

(** [wait_first_success], from the items received when it returned. *)
Lemma first_success_returned (items : list (ready T E)) (s : wait_state (ready T E) (result T) (buffered_channel (ready T E))) r cl :
  winv (wait_first_success (length items)) items s ->
  success_loop (length items) [] (w_received s) = Some (r, cl) ->
  (forall a p, w_received s = p ++ [a] -> success_loop (length items) [] p = None) ->
  match values items with
  | [] => exists es, r = Throw (exception_list es) /\ es ≡ₚ errors items
  | _ => exists before i after v, r = Ret v /\ w_pushed s = before ++ i :: after /\ items !! i = Some (Good v) /\
      Forall (fun j => exists e, items !! j = Some (Bad e)) before
  end.
Proof.
  intros Hw Hx Hpre.
  assert (Hn : no_close (A := ready T E) (R := result T) (wait_first_success (length items))) by done.
  pose proof (success_loop_spec (length items) [] (w_received s)) as Hsp. rewrite Hx in Hsp.
  destruct r as [v|[|es|]|]; [|done| |done..]; destruct cl; try done.
  - destruct Hsp as (es & l & Hl). pose proof (wi_items _ _ _ Hw) as Hf. rewrite Hl, <- app_assoc in Hf.
    apply Forall2_app_inv_r in Hf as (before & rest & Hbad & Hf & Hp). simpl in Hf.
    apply Forall2_cons_inv_r in Hf as (i & after & Hi & _ & ->).
    assert (Hv : v ∈ values items) by (apply elem_values; by eapply list_elem_of_lookup_2).
    destruct (values items); [set_solver|]. exists before, i, after, v. split_and!; [done|done|done|].
    eapply Forall2_Forall_l; [exact Hbad|]. apply Forall_map, Forall_true. simpl. eauto.
  - destruct Hsp as [Hle Heq].
    assert (Hlen : length (w_received s) = length items).
    { clear Hw Hx Heq. destruct (w_received s) as [|a l _] using rev_ind; [simpl in *; lia|].
      specialize (Hpre a l eq_refl). pose proof (success_loop_spec (length items) [] l) as Hx'.
      rewrite Hpre in Hx'. rewrite length_app in *. simpl in *. lia. }
    destruct (Heq Hlen) as [-> Hval]. pose proof (received_all _ _ s Hw Hlen) as Hp.
    pose proof (values_perm _ _ Hp) as Hpv. rewrite Hval in Hpv. apply Permutation_nil_l in Hpv.
    rewrite <- Hpv. eauto using errors_perm.
Qed.

(** C18. The functions that wait for the first, given at least one function: no
    run is longer than six steps a function and one, and when no step is left
    the caller has returned.  [wait_first_value] and [wait_first_outcome] give
    the value (or exception) of the function that pushed first, whatever the
    others do; [wait_first_success] gives the value of the first function in the
    order of the pushes that did not throw, and throws all the exceptions when
    every function threw. *)
Theorem wait_first_correct :
  (forall (items : list T) k s,
     items <> [] -> run wait_first_value items k s ->
     (k <= 6 * length items + 1)%nat /\
     (stuck wait_first_value items s ->
      exists i v, head (w_pushed s) = Some i /\ items !! i = Some v /\
        w_result s = Some (Ret v : result T))) /\
  (forall (items : list (ready T E)) k s,
     items <> [] -> run wait_first_outcome items k s ->
     (k <= 6 * length items + 1)%nat /\
     (stuck wait_first_outcome items s ->
      exists i r, head (w_pushed s) = Some i /\ items !! i = Some r /\
        w_result s = Some (ready_get r))) /\
  (forall (items : list (ready T E)) k s,
     run (wait_first_success (length items)) items k s ->
     (k <= 6 * length items + 1)%nat /\
     (stuck (wait_first_success (length items)) items s ->
      match values items with
      | [] => exists es, w_result s = Some (Throw (exception_list es)) /\ es ≡ₚ errors items
      | _ => exists before i after v, w_result s = Some (Ret v) /\ w_pushed s = before ++ i :: after /\
          items !! i = Some (Good v) /\ Forall (fun j => exists e, items !! j = Some (Bad e)) before
      end)).
Proof.
  split_and!.
  - intros items k s Hne Hk.
    assert (Hn : no_close (A := T) (R := result T) wait_first_value) by done.
    split; [by apply (run_bounded _ _ Hn) in Hk|]. intros Hs.
    pose proof (reachable_winv _ _ Hn s (run_reachable _ _ _ _ Hk)) as Hw.
    destruct (stuck_returned _ _ Hn s Hw) as [r Hr]; [by intros _ [|] ?; destruct items|done|].
    destruct (returned_outcome _ _ s r Hw Hr) as [(cl & Hx & _)|(? & _)]; [|done].
    destruct (w_received s) as [|v l] eqn:El; [done|]. injection Hx as <- <-.
    destruct (first_pushed _ _ _ _ _ Hw El) as (i & Hi & Hv). by exists i, v.
  - intros items k s Hne Hk.
    assert (Hn : no_close (A := ready T E) (R := result T) wait_first_outcome) by done.
    split; [by apply (run_bounded _ _ Hn) in Hk|]. intros Hs.
    pose proof (reachable_winv _ _ Hn s (run_reachable _ _ _ _ Hk)) as Hw.
    destruct (stuck_returned _ _ Hn s Hw) as [r Hr]; [by intros _ [|] ?; destruct items|done|].
    destruct (returned_outcome _ _ s r Hw Hr) as [(cl & Hx & _)|(? & _)]; [|done].
    destruct (w_received s) as [|v l] eqn:El; [done|]. injection Hx as <- <-.
    destruct (first_pushed _ _ _ _ _ Hw El) as (i & Hi & Hv). by exists i, v.
  - intros items k s Hk.
    assert (Hn : no_close (A := ready T E) (R := result T) (wait_first_success (length items))) by done.
    split; [by apply (run_bounded _ _ Hn) in Hk|]. intros Hs.
    pose proof (reachable_winv _ _ Hn s (run_reachable _ _ _ _ Hk)) as Hw.
    assert (Hen : enough (wait_first_success (T := T) (E := E) (length items)) items).
    { intros _ l Hl Hnone. simpl in Hnone. pose proof (success_loop_spec (length items) [] l) as Hx.
      rewrite Hnone in Hx. lia. }
    destruct (stuck_returned _ _ Hn s Hw Hen Hs) as [r Hr].
    destruct (returned_outcome _ _ s r Hw Hr) as [(cl & Hx & Hpre)|(? & _)]; [|done].
    pose proof (first_success_returned items s r cl Hw Hx (fun a p => Hpre p a [])) as Hv.
    rewrite Hr. destruct (values items); naive_solver.
Qed.

End functions.

(** Two functions, waited for with each of the functions. *)
Abbreviation ring_init rd items := (wait_init (C := buffered_channel _) rd items).

Lemma wait_all_correct_witness :
  exists s, stuck wait_all_until_error [Good 7; Bad tt] s /\ w_result s = Some (Throw (task_exception tt)).
Proof.
  destruct (schedule wait_all_until_error [Good 7; Bad tt]
    [Run 0; Run 1; Push 0; Push 1; Read; Count 1; Read; Read; Count 0]
    (ring_init wait_all_until_error [Good 7; Bad tt])) as [s|] eqn:E; [|vm_compute in E; discriminate].
  assert (Hs : stuck wait_all_until_error [Good 7; Bad tt] s).
  { vm_compute in E. injection E as <-. by apply done_stuck. }
  apply schedule_run in E. exists s. split; [done|].
  destruct (proj1 (proj2 (proj2 (@wait_all_correct nat unit _))) _ _ _ E) as [_ Hr].
  destruct (Hr Hs) as ([] & He & _). exact He.
Defined.

Lemma wait_first_correct_witness :
  exists s, stuck (wait_first_success 2) [Bad tt; Good 7] s /\ w_result s = Some (Ret 7).
Proof.
  destruct (schedule (wait_first_success 2) [Bad tt; Good 7]
    [Run 0; Run 1; Push 0; Push 1; Read; Read; Read]
    (ring_init (wait_first_success 2) [Bad tt; Good 7])) as [s|] eqn:E; [|vm_compute in E; discriminate].
  assert (Hs : stuck (wait_first_success 2) [Bad tt; Good 7] s).
  { vm_compute in E. injection E as <-. by apply done_stuck. }
  apply schedule_run in E. exists s. split; [done|].
  destruct (proj2 (proj2 (@wait_first_correct nat unit _)) [Bad tt; Good 7] _ s E) as [_ Hr].
  destruct (Hr Hs) as (before & i & after & v & He & _ & Hv & _).
  destruct i as [|[|i]]; [discriminate Hv|injection Hv as <-; exact He|discriminate Hv].
Defined.
