(* ===== verification/WaitAllSimple.v ===== *)
(** * common/fiber/wait_stuff.hpp: [wait_all_simple]

    The caller starts a fiber per function and waits at a barrier for as many
    fibers as there are functions and itself; a fiber waits there when its
    function has returned.  The barrier is the fiber library's, of which the
    repository has the declaration only: an interface.  The starts, the returns
    of the functions and the arrivals interleave in any order. *)
From stdpp Require Import prelude list list_numbers relations.
From Stdlib Require Import Lia Arith.
From S2P Require Import Prelude Fleet.

(** ** The barrier *)

(** A fiber that calls [wait] arrives; it may return when it is released. *)
Class Barrier (B : Type) : Type := {
  bar_new : nat -> B;
  bar_arrive : nat -> B -> B;
  bar_released : nat -> B -> bool;
}.

(** A barrier for [n] fibers after the arrivals [fs] of distinct fibers: they are
    released when [n] have arrived, and not before. *)
Class BarrierLaws (B : Type) `{Barrier B} : Prop :=
  released_law n fs i : NoDup fs -> length fs <= n ->
    bar_released i (fold_left (fun b f => bar_arrive f b) fs (bar_new n)) =
      bool_decide (i ∈ fs /\ length fs = n).

(** A barrier that keeps the fibers that have arrived. *)
Record list_barrier : Type := mk_list_barrier { lb_initial : nat; lb_arrived : list nat }.

#[export] Instance list_Barrier : Barrier list_barrier := {|
  bar_new n := mk_list_barrier n [];
  bar_arrive f b := mk_list_barrier (lb_initial b) (lb_arrived b ++ [f]);
  bar_released i b := bool_decide (i ∈ lb_arrived b /\ length (lb_arrived b) = lb_initial b);
|}.

#[export] Instance list_BarrierLaws : BarrierLaws list_barrier.
Proof.
  intros n fs i _ _. assert (E : forall l, fold_left (fun b f => bar_arrive f b) fs (mk_list_barrier n l) =
    mk_list_barrier n (l ++ fs)).
  { induction fs as [|f fs IH]; intros l; simpl; [by rewrite app_nil_r|]. by rewrite IH, <- app_assoc. }
  simpl. by rewrite E.
Qed.

(** ** The system *)

(** Where a fiber is: in its function, about to call [wait], in [wait], past it.
    For the caller the first is the loop that starts the fibers. *)
Inductive bar_pc : Type := BRun | BCall | BWait | BPassed.

#[export] Instance bar_pc_eq_dec : EqDecision bar_pc.
Proof. solve_decision. Defined.

Section system.
Context {B : Type} `{Barrier B}.

Record simple_state : Type := mk_simple_state {
  ss_barrier : B;
  ss_started : nat;              (* the fibers started *)
  ss_fibers : list bar_pc;       (* of the functions, then the caller *)
}.

(** [count] functions; which of them return. *)
Context (count : nat) (returns : nat -> bool).

(** [wait_all_simple] and [wait_all_simple_c]. *)
Definition wait_all_simple : simple_state :=
  mk_simple_state (bar_new (count + 1)) 0 (replicate (count + 1) BRun).

Definition move_fiber (i : nat) (t : bar_pc) (s : simple_state) : simple_state :=
  mk_simple_state (ss_barrier s) (ss_started s) (<[i := t]> (ss_fibers s)).

(** [wait_all_simple_impl]: the next fiber is started. *)
Definition start_fiber (s : simple_state) : simple_state :=
  mk_simple_state (ss_barrier s) (S (ss_started s)) (ss_fibers s).

(** [barrier->wait()]. *)
Definition arrive (i : nat) (s : simple_state) : simple_state :=
  mk_simple_state (bar_arrive i (ss_barrier s)) (ss_started s) (<[i := BWait]> (ss_fibers s)).

(** A function returns in a started fiber; the caller is done starting. *)
Definition may_return (i : nat) (s : simple_state) : bool :=
  if i =? count then ss_started s =? count else (i <? ss_started s) && returns i.

Inductive simple_step : simple_state -> simple_state -> Prop :=
| SimpleStart s : ss_started s < count -> simple_step s (start_fiber s)
| SimpleReturn i s :
    ss_fibers s !! i = Some BRun -> may_return i s = true -> simple_step s (move_fiber i BCall s)
| SimpleArrive i s : ss_fibers s !! i = Some BCall -> simple_step s (arrive i s)
| SimplePass i s :
    ss_fibers s !! i = Some BWait -> bar_released i (ss_barrier s) = true -> simple_step s (move_fiber i BPassed s).

Definition simple_stuck (s : simple_state) : Prop := forall s', ~ simple_step s s'.

(** The caller is back. *)
Definition simple_returned (s : simple_state) : Prop := ss_fibers s !! count = Some BPassed.

(** Function [i] has returned. *)
Definition function_returned (s : simple_state) (i : nat) : Prop :=
  exists t, ss_fibers s !! i = Some t /\ t <> BRun.

End system.
Arguments simple_state : clear implicits.

(** ** The invariant *)

Section facts.
Context {B : Type} `{BarrierLaws B} (count : nat) (returns : nat -> bool).
Abbreviation step := (simple_step count returns).

(** The arrivals [fs] are those of the fibers at or past [wait]. *)
Record simple_inv (s : simple_state B) (fs : list nat) : Prop := {
  si_length : length (ss_fibers s) = count + 1;
  si_started : ss_started s <= count;
  si_barrier : ss_barrier s = fold_left (fun b f => bar_arrive f b) fs (bar_new (count + 1));
  si_nodup : NoDup fs;
  si_arrived i : i ∈ fs <-> ss_fibers s !! i = Some BWait \/ ss_fibers s !! i = Some BPassed;
  si_passed i : ss_fibers s !! i = Some BPassed -> length fs = count + 1;
}.

Lemma simple_init_inv : simple_inv (wait_all_simple count) [].
Proof.
  split; simpl; rewrite ?length_replicate; try done; try lia.
  - constructor.
  - intros i. split; [set_solver|]. by intros [[? _]%lookup_replicate|[? _]%lookup_replicate].
  - by intros i [? _]%lookup_replicate.
Qed.

Lemma arrivals_lt s fs i : simple_inv s fs -> i ∈ fs -> i < count + 1.
Proof.
  intros Hs Hi. apply (si_arrived _ _ Hs) in Hi. rewrite <- (si_length _ _ Hs).
  destruct Hi; by eapply lookup_lt_Some.
Qed.

Lemma arrivals_length s fs : simple_inv s fs -> length fs <= count + 1.
Proof.
  intros Hs. rewrite <- (length_seq (count + 1) 0). apply submseteq_length, NoDup_submseteq; [apply Hs|].
  intros i Hi. apply elem_of_seq. pose proof (arrivals_lt _ _ _ Hs Hi). lia.
Qed.

(** All have arrived when as many have. *)
Lemma all_arrived s fs i : simple_inv s fs -> length fs = count + 1 -> i < count + 1 -> i ∈ fs.
Proof.
  intros Hs Hlen Hi. assert (Hp : fs ≡ₚ seq 0 (count + 1)).
  { apply submseteq_length_Permutation; [|rewrite length_seq; lia].
    apply NoDup_submseteq; [apply Hs|]. intros j Hj. apply elem_of_seq.
    pose proof (arrivals_lt _ _ _ Hs Hj). lia. }
  rewrite Hp. apply elem_of_seq. lia.
Qed.

Lemma released_iff s fs i : simple_inv s fs ->
  bar_released i (ss_barrier s) = true <-> i ∈ fs /\ length fs = count + 1.
Proof.
  intros Hs. rewrite (si_barrier _ _ Hs), released_law; [|apply Hs|by eapply arrivals_length].
  apply bool_decide_eq_true.
Qed.

Lemma simple_step_inv s s' fs : simple_inv s fs -> step s s' -> exists fs', simple_inv s' fs'.
Proof.
  intros Hs Hstep. pose proof Hs as [H1 H2 H3 H4 H5 H6].
  inversion Hstep as [? Hlt|i ? Hi Hr|i ? Hi|i ? Hi Hr]; subst.
  - exists fs. split; simpl; auto.
  - exists fs. assert (Hin : i ∉ fs) by (rewrite H5; naive_solver congruence).
    split; simpl; rewrite ?length_insert; auto.
    + intros k. destruct (decide (i = k)) as [<-|Hne]; [|by rewrite list_lookup_insert_ne].
      rewrite list_lookup_insert_eq by (by eapply lookup_lt_Some). naive_solver.
    + intros k [[-> ?]|[_ Hk]]%insert_lookup_cases; eauto; done.
  - exists (fs ++ [i]). assert (Hin : i ∉ fs) by (rewrite H5; naive_solver congruence).
    split; simpl; rewrite ?length_insert; auto.
    + by rewrite fold_left_app, H3.
    + apply NoDup_app. split_and!; [done|set_solver|apply NoDup_singleton].
    + intros k. destruct (decide (i = k)) as [<-|Hne].
      * rewrite list_lookup_insert_eq by (by eapply lookup_lt_Some). set_solver.
      * rewrite list_lookup_insert_ne by done. rewrite <- H5. set_solver.
    + intros k [[-> ?]|[_ Hk]]%insert_lookup_cases; [done|]. exfalso. apply Hin.
      apply (all_arrived s fs); [done|by eapply H6|]. rewrite <- H1. by eapply lookup_lt_Some.
  - apply (released_iff _ _ _ Hs) in Hr as [Hin Hlen]. exists fs. split; simpl; rewrite ?length_insert; auto.
    intros k. destruct (decide (i = k)) as [<-|Hne]; [|by rewrite list_lookup_insert_ne].
    rewrite list_lookup_insert_eq by (by eapply lookup_lt_Some). naive_solver.
Qed.

(** ** Every run ends *)

Definition bar_steps (t : bar_pc) : nat :=
  match t with BRun => 3 | BCall => 2 | BWait => 1 | BPassed => 0 end.

Definition simple_steps (s : simple_state B) : nat :=
  sum_list_with bar_steps (ss_fibers s) + (count - ss_started s).

Lemma step_decreases_simple s s' : step s s' -> simple_steps s' < simple_steps s.
Proof.
  unfold simple_steps. inversion 1 as [? Hlt|i ? Hi Hr|i ? Hi|i ? Hi Hr]; subst; simpl; [lia|..].
  - pose proof (sum_insert bar_steps _ _ _ BCall Hi) as Hx. simpl in Hx. lia.
  - pose proof (sum_insert bar_steps _ _ _ BWait Hi) as Hx. simpl in Hx. lia.
  - pose proof (sum_insert bar_steps _ _ _ BPassed Hi) as Hx. simpl in Hx. lia.
Qed.

Lemma run_simple_inv k s :
  nsteps step k (wait_all_simple count) s -> (exists fs, simple_inv s fs) /\ k <= 4 * count + 3.
Proof.
  intros Hk. remember (wait_all_simple count) as s0 eqn:E.
  assert (Hinit : (exists fs, simple_inv s0 fs) /\ simple_steps s0 <= 4 * count + 3).
  { subst. split; [eexists; apply simple_init_inv|]. unfold simple_steps. simpl. rewrite sum_replicate. simpl. lia. }
  clear E. destruct Hinit as [Hs0 Hb].
  assert ((exists fs, simple_inv s fs) /\ k + simple_steps s <= simple_steps s0); [|naive_solver lia].
  clear Hb. induction Hk as [|k x y z Hxy _ IH]; [done|].
  pose proof (step_decreases_simple _ _ Hxy). destruct Hs0 as [fs Hs0].
  destruct IH as [? ?]; [by eapply simple_step_inv|]. split; [done|lia].
Qed.

(** ** A run that cannot go on *)

Lemma stuck_started s fs : simple_inv s fs -> simple_stuck count returns s -> ss_started s = count.
Proof.
  intros Hs Hst. pose proof (si_started _ _ Hs). destruct (decide (ss_started s = count)); [done|].
  exfalso. eapply Hst, SimpleStart. lia.
Qed.

(** A fiber whose function returns has arrived. *)
Lemma stuck_arrived s fs i : simple_inv s fs -> simple_stuck count returns s -> i < count + 1 ->
  (i < count -> returns i = true) -> i ∈ fs.
Proof.
  intros Hs Hst Hi Hr. pose proof (stuck_started _ _ Hs Hst) as Hn.
  destruct (lookup_lt_is_Some_2 (ss_fibers s) i) as [t Ht]; [rewrite (si_length _ _ Hs); lia|].
  apply (si_arrived _ _ Hs). destruct t; [exfalso..|by left|by right].
  - eapply Hst, (SimpleReturn _ _ i); [done|]. unfold may_return. rewrite Hn.
    destruct (Nat.eqb_spec i count) as [->|]; [apply Nat.eqb_refl|].
    rewrite Hr by lia. rewrite andb_true_r. apply Nat.ltb_lt. lia.
  - by eapply Hst, (SimpleArrive _ _ i).
Qed.

Lemma passed_returned s fs i j : simple_inv s fs -> ss_fibers s !! i = Some BPassed -> j < count ->
  function_returned s j.
Proof.
  intros Hs Hi Hj. assert (Hin : j ∈ fs).
  { apply (all_arrived s fs); [done|by eapply (si_passed _ _ Hs)|lia]. }
  apply (si_arrived _ _ Hs) in Hin. destruct Hin as [E|E]; by eexists.
Qed.

Lemma stuck_all_passed s fs : simple_inv s fs -> simple_stuck count returns s ->
  (forall i, i < count -> returns i = true) -> Forall (eq BPassed) (ss_fibers s).
Proof.
  intros Hs Hst Hr. assert (Hall : forall i, i < count + 1 -> i ∈ fs).
  { intros i Hi. eapply stuck_arrived; eauto. }
  assert (Hlen : length fs = count + 1).
  { pose proof (arrivals_length _ _ Hs). assert (length (seq 0 (count + 1)) <= length fs) as Hle.
    { apply submseteq_length, NoDup_submseteq; [apply NoDup_seq|]. intros i Hi. apply Hall.
      apply elem_of_seq in Hi. lia. }
    rewrite length_seq in Hle. lia. }
  apply Forall_lookup_2. intros i t Hi. assert (Hin : i ∈ fs).
  { apply Hall. rewrite <- (si_length _ _ Hs). by eapply lookup_lt_Some. }
  pose proof (proj1 (si_arrived _ _ Hs i) Hin) as [E|E]; [|by simplify_eq]. exfalso.
  eapply Hst, (SimplePass _ _ i); [done|]. by apply (released_iff _ _ _ Hs).
Qed.

(** A function that does not return stays where it is. *)
Lemma never_returns k s i : nsteps step k (wait_all_simple count) s -> i < count -> returns i = false ->
  ss_fibers s !! i = Some BRun.
Proof.
  intros Hk Hi Hr. assert (Hkeep : forall x y, step x y -> ss_fibers x !! i = Some BRun ->
    ss_fibers y !! i = Some BRun).
  { intros x y Hxy Hx. inversion Hxy as [? Hlt|j ? Hj Hm|j ? Hj|j ? Hj Hm]; subst; simpl; [done|..].
    all: rewrite list_lookup_insert_ne; [done|]; intros ->; try congruence.
    unfold may_return in Hm. rewrite Hr, andb_false_r in Hm.
    destruct (Nat.eqb_spec i count); [lia|done]. }
  assert (Hx : ss_fibers (wait_all_simple (B := B) count) !! i = Some BRun) by (apply lookup_replicate; split; [done|lia]).
  revert Hx. induction Hk; eauto.
Qed.

(** C27. [wait_all_simple] and [wait_all_simple_c], in any interleaving: no run
    has more than four steps a function and three; the caller comes back only
    when every function has returned; and when no step is left, the caller and
    all fibers are past the barrier if every function returns, and otherwise the
    caller waits for ever. *)
Theorem wait_all_simple_correct k s :
  nsteps step k (wait_all_simple count) s ->
  k <= 4 * count + 3 /\
  (simple_returned count s -> forall i, i < count -> function_returned s i) /\
  (simple_stuck count returns s ->
   if forallb returns (seq 0 count)
   then simple_returned count s /\ Forall (eq BPassed) (ss_fibers s)
   else ss_fibers s !! count = Some BWait).
Proof.
  intros Hk. destruct (run_simple_inv k s Hk) as [[fs Hs] Hle]. split; [done|]. split.
  { intros Hret i Hi. by eapply passed_returned. }
  intros Hst. destruct (forallb returns (seq 0 count)) eqn:E.
  - rewrite forallb_forall in E. assert (Hp : Forall (eq BPassed) (ss_fibers s)).
    { eapply stuck_all_passed; [done..|]. intros i Hi. apply E. apply in_seq. lia. }
    split; [|done]. destruct (lookup_lt_is_Some_2 (ss_fibers s) count) as [t Ht];
      [rewrite (si_length _ _ Hs); lia|].
    unfold simple_returned. rewrite Ht. f_equal. symmetry. by eapply Forall_lookup_1.
  - apply not_true_iff_false in E. rewrite forallb_forall in E.
    assert (Hin : count ∈ fs) by (apply (stuck_arrived s fs); [done|done|lia|intros; lia]).
    apply (si_arrived _ _ Hs) in Hin as [Hc|Hc]; [done|]. exfalso. apply E. intros i Hi. apply in_seq in Hi.
    destruct (returns i) eqn:Er; [done|].
    destruct (passed_returned s fs count i Hs Hc ltac:(lia)) as (t & Ht & Hne).
    rewrite (never_returns k s i Hk ltac:(lia) Er) in Ht. congruence.
Qed.

End facts.

(** One function: a run to the end. *)
Lemma wait_all_simple_correct_witness : exists s : simple_state list_barrier,
  nsteps (simple_step 1 (fun _ => true)) 7 (wait_all_simple 1) s /\
  7 <= 4 * 1 + 3 /\ simple_returned 1 s /\ function_returned s 0.
Proof.
  eexists. assert (Hk : nsteps (simple_step (B := list_barrier) 1 (fun _ => true)) 7 (wait_all_simple 1)
    (mk_simple_state (mk_list_barrier 2 [1; 0]) 1 [BPassed; BPassed])).
  { eapply nsteps_l; [by apply SimpleStart; simpl; lia|].
    eapply nsteps_l; [by apply (SimpleReturn _ _ 1)|]. eapply nsteps_l; [by apply (SimpleArrive _ _ 1)|].
    eapply nsteps_l; [by apply (SimpleReturn _ _ 0)|]. eapply nsteps_l; [by apply (SimpleArrive _ _ 0)|].
    eapply nsteps_l; [by apply (SimplePass _ _ 1)|]. eapply nsteps_l; [by apply (SimplePass _ _ 0)|].
    cbn. constructor. }
  split; [exact Hk|].
  destruct (wait_all_simple_correct 1 (fun _ => true) 7 _ Hk) as (Hle & Hf & _).
  split; [exact Hle|]. split; [reflexivity|]. apply (Hf eq_refl 0). lia.
Defined.
