(* ===== verification/FlagWait.v ===== *)
(** * A flag, a mutex and a condition variable: [Done] of common/fiber/wait_stuff.hpp and
      common/fiber/fiber_frame_context.hpp

    [Done::wait] and [FiberFrameContext::wait] wait for a flag under a mutex;
    [Done::notify] and [FiberFrameContext::notify_stop] set the flag under the
    mutex and notify after releasing it, one waiter or all of them.  The waiters
    and the setters interleave at the points where they take or leave the mutex.
    The first waiter is the caller, who joins the threads of the others.  Which
    waiters a notification wakes is a parameter: the fiber library's
    [notify_one] and [notify_all] are not part of the repository. *)
From stdpp Require Import prelude list list_numbers relations.
From Stdlib Require Import Lia Arith.
From S2P Require Import Prelude Fleet.

(** ** The system *)

(** Where a waiter is: about to take the mutex, testing the flag with the mutex
    held, in the queue of the condition variable, past the wait. *)
Inductive waiter : Type := WLock | WTest | WSleep | WPassed.

(** Where a setter is: running what comes before the notification, about to take
    the mutex, holding it, about to notify, returned. *)
Inductive setter : Type := SRun | SLock | SSet | SNotify | SDone.

#[export] Instance waiter_eq_dec : EqDecision waiter.
Proof. solve_decision. Defined.

#[export] Instance setter_eq_dec : EqDecision setter.
Proof. solve_decision. Defined.

Record flag_state : Type := mk_flag_state {
  fl_ready : bool;               (* ready, or not m_running *)
  fl_locked : bool;              (* the mutex is held *)
  fl_queue : list nat;           (* the waiters in the queue, oldest first *)
  fl_waiters : list waiter;
  fl_setters : list setter;
  fl_joined : nat;               (* the threads joined *)
}.

(** [n] waiters and [m] setters. *)
Definition flag_init (n m : nat) : flag_state :=
  mk_flag_state false false [] (replicate n WLock) (replicate m SRun) 0.

(** [Done::wait]: the lock is taken, at first or after the sleep. *)
Definition flag_lock (i : nat) (s : flag_state) : flag_state :=
  mk_flag_state (fl_ready s) true (fl_queue s) (<[i := WTest]> (fl_waiters s)) (fl_setters s) (fl_joined s).

(** The test of the predicate; a waiter that has to wait is queued and leaves
    the mutex in one step. *)
Definition flag_test (i : nat) (s : flag_state) : flag_state :=
  if fl_ready s
  then mk_flag_state (fl_ready s) false (fl_queue s) (<[i := WPassed]> (fl_waiters s)) (fl_setters s) (fl_joined s)
  else mk_flag_state (fl_ready s) false (fl_queue s ++ [i]) (<[i := WSleep]> (fl_waiters s)) (fl_setters s) (fl_joined s).

(** [Done::notify]: the flag is set and the mutex left. *)
Definition flag_set (j : nat) (s : flag_state) : flag_state :=
  mk_flag_state true false (fl_queue s) (fl_waiters s) (<[j := SNotify]> (fl_setters s)) (fl_joined s).

Definition setter_moves (j : nat) (t : setter) (locked : bool) (s : flag_state) : flag_state :=
  mk_flag_state (fl_ready s) locked (fl_queue s) (fl_waiters s) (<[j := t]> (fl_setters s)) (fl_joined s).

Section system.
(** Which waiters of a queue [notify_one] or [notify_all] of the fiber library wakes. *)
Context (woken : list nat -> list nat).

Definition left_asleep (q : list nat) : list nat := filter (fun i => i ∉ woken q) q.

Definition flag_notify (j : nat) (s : flag_state) : flag_state :=
  mk_flag_state (fl_ready s) (fl_locked s) (left_asleep (fl_queue s))
    (imap (fun i w => if bool_decide (i ∈ woken (fl_queue s)) then WLock else w) (fl_waiters s))
    (<[j := SDone]> (fl_setters s)) (fl_joined s).

(** [t.join()] of the next thread. *)
Definition flag_join (s : flag_state) : flag_state :=
  mk_flag_state (fl_ready s) (fl_locked s) (fl_queue s) (fl_waiters s) (fl_setters s) (S (fl_joined s)).

Inductive flag_step : flag_state -> flag_state -> Prop :=
| FlagLock i s : fl_waiters s !! i = Some WLock -> fl_locked s = false -> flag_step s (flag_lock i s)
| FlagTest i s : fl_waiters s !! i = Some WTest -> flag_step s (flag_test i s)
| FlagRun j s : fl_setters s !! j = Some SRun -> flag_step s (setter_moves j SLock (fl_locked s) s)
| FlagSetLock j s :
    fl_setters s !! j = Some SLock -> fl_locked s = false -> flag_step s (setter_moves j SSet true s)
| FlagSet j s : fl_setters s !! j = Some SSet -> flag_step s (flag_set j s)
| FlagNotify j s : fl_setters s !! j = Some SNotify -> flag_step s (flag_notify j s)
| FlagJoin s :
    fl_waiters s !! 0 = Some WPassed -> fl_waiters s !! S (fl_joined s) = Some WPassed ->
    flag_step s (flag_join s).

Definition flag_stuck (s : flag_state) : Prop := forall s', ~ flag_step s s'.

End system.

(** What the library promises: [notify_one] wakes one of the waiters if there are
    any, [notify_all] wakes all of them. *)
Definition wakes_one (woken : list nat -> list nat) : Prop :=
  forall q, woken q ⊆ q /\ (q <> [] -> woken q <> []).

Definition wakes_all (woken : list nat -> list nat) : Prop :=
  forall q, woken q ⊆ q /\ q ⊆ woken q.

(** [wait_first_simple] of [m] functions: one waiter, who is notified alone. *)
Definition wait_first_simple (m : nat) : flag_state := flag_init 1 m.

(** The threads [FiberFrameContext::init] starts, and [wait] against [m] calls of
    [notify_stop]. *)
Definition frame_threads (run_thread_count : Z) : nat :=
  if (run_thread_count <? 2)%Z then 0 else Z.to_nat (run_thread_count - 1).

Definition frame_start (run_thread_count : Z) (m : nat) : flag_state :=
  flag_init (S (frame_threads run_thread_count)) m.

(** The caller is back from [wait]. *)
Definition flag_returned (s : flag_state) : Prop :=
  fl_waiters s !! 0 = Some WPassed /\ S (fl_joined s) = length (fl_waiters s).

(** ** The invariant *)

Definition testing (w : waiter) : nat := match w with WTest => 1 | _ => 0 end.
Definition setting (t : setter) : nat := match t with SSet => 1 | _ => 0 end.

Section facts.
Context (woken : list nat -> list nat) (n m : nat).
(** One notification is enough when all are woken, or there is one waiter. *)
Hypothesis enough_woken : wakes_all woken \/ wakes_one woken /\ n = 1.
Abbreviation step := (flag_step woken).

Record finv (s : flag_state) : Prop := {
  fi_waiters : length (fl_waiters s) = n;
  fi_setters : length (fl_setters s) = m;
  fi_lock : sum_list_with testing (fl_waiters s) + sum_list_with setting (fl_setters s) =
            if fl_locked s then 1 else 0;
  fi_nodup : NoDup (fl_queue s);
  fi_queue i : i ∈ fl_queue s <-> fl_waiters s !! i = Some WSleep;
  fi_told j : fl_setters s !! j = Some SNotify \/ fl_setters s !! j = Some SDone -> fl_ready s = true;
  fi_ready : fl_ready s = true ->
    exists j, fl_setters s !! j = Some SNotify \/ fl_setters s !! j = Some SDone;
  fi_passed i : fl_waiters s !! i = Some WPassed -> fl_ready s = true;
  fi_wake i : fl_ready s = true -> fl_waiters s !! i = Some WSleep ->
    exists j, fl_setters s !! j = Some SNotify;
  fi_joined : fl_joined s <= pred n;
}.

Lemma init_finv : finv (flag_init n m).
Proof.
  split; simpl; try done; rewrite ?length_replicate, ?sum_replicate; try done; try lia.
  - cbn. lia.
  - constructor.
  - intros i. split; [set_solver|]. by intros [? _]%lookup_replicate.
  - by intros j [[? _]%lookup_replicate|[? _]%lookup_replicate].
  - by intros i [? _]%lookup_replicate.
Qed.

(** A waiter that moves, the setters as they were. *)
Lemma waiter_moves_finv s i w w' (ready locked : bool) q :
  finv s -> ready = fl_ready s -> fl_waiters s !! i = Some w -> w <> WSleep ->
  testing w' + (if fl_locked s then 1 else 0) = testing w + (if locked then 1 else 0) ->
  q = (if decide (w' = WSleep) then fl_queue s ++ [i] else fl_queue s) ->
  (w' = WSleep -> fl_ready s = false) -> (w' = WPassed -> fl_ready s = true) ->
  finv (mk_flag_state ready locked q (<[i := w']> (fl_waiters s)) (fl_setters s) (fl_joined s)).
Proof.
  intros Hs -> Hi Hw Hc -> Hsl Hpa. destruct Hs as [H1 H2 H3 H4 H5 H6 H7 H8 H9 H10].
  assert (Hiq : i ∉ fl_queue s) by (intros Hq; apply H5 in Hq; congruence).
  assert (Hlt : i < length (fl_waiters s)) by (by eapply lookup_lt_Some).
  split; simpl; rewrite ?length_insert; try done.
  - pose proof (sum_insert testing (fl_waiters s) i w w' Hi). lia.
  - case_decide; [|done]. apply NoDup_app. split_and!; [done|set_solver|apply NoDup_singleton].
  - intros k. destruct (decide (k = i)) as [->|Hne].
    + rewrite list_lookup_insert_eq by done. case_decide; split; intros; simplify_eq; set_solver.
    + rewrite list_lookup_insert_ne by done. rewrite <- H5. case_decide; set_solver.
  - intros k [[-> ->]|[_ Hk]]%insert_lookup_cases; eauto.
  - intros k Hr [[-> ->]|[_ Hk]]%insert_lookup_cases; [rewrite Hsl in Hr; done|eauto].
Qed.

(** A setter that moves before it notifies. *)
Lemma setter_moves_finv s j t t' (locked ready : bool) :
  finv s -> fl_setters s !! j = Some t ->
  setting t' + (if fl_locked s then 1 else 0) = setting t + (if locked then 1 else 0) ->
  t <> SNotify -> t <> SDone -> t' <> SDone -> (t' = SNotify -> ready = true) -> (t' <> SNotify -> ready = fl_ready s) ->
  finv (mk_flag_state ready locked (fl_queue s) (fl_waiters s) (<[j := t']> (fl_setters s)) (fl_joined s)).
Proof.
  intros Hs Hj Hc Hn Hd Hd' Hr1 Hr2. destruct Hs as [H1 H2 H3 H4 H5 H6 H7 H8 H9 H10].
  assert (Hlt : j < length (fl_setters s)) by (by eapply lookup_lt_Some).
  assert (Hother : forall k x, fl_setters s !! k = Some x -> x = SNotify \/ x = SDone ->
            <[j := t']> (fl_setters s) !! k = Some x).
  { intros k x Hk Hx. rewrite list_lookup_insert_ne; [done|]. intros ->. destruct Hx; congruence. }
  split; simpl; rewrite ?length_insert; try done.
  - pose proof (sum_insert setting (fl_setters s) j t t' Hj). lia.
  - intros k Hk. destruct (decide (t' = SNotify)) as [Ht|Ht]; [auto|]. rewrite Hr2 by done.
    destruct Hk as [[[-> ?]|[_ Hk]]%insert_lookup_cases|[[-> ?]|[_ Hk]]%insert_lookup_cases]; try done; eauto.
  - intros Hr. destruct (decide (t' = SNotify)) as [->|Ht].
    + exists j. rewrite list_lookup_insert_eq; auto.
    + rewrite Hr2 in Hr by done. destruct (H7 Hr) as (k & [Hk|Hk]); exists k; auto.
  - intros i Hi. destruct (decide (t' = SNotify)) as [Ht|Ht]; [auto|]. rewrite Hr2; eauto.
  - intros i Hr Hi. destruct (decide (t' = SNotify)) as [->|Ht].
    + exists j. by rewrite list_lookup_insert_eq.
    + rewrite Hr2 in Hr by done. destruct (H9 i Hr Hi) as (k & Hk). exists k. auto.
Qed.

Lemma woken_queue q : woken q ⊆ q.
Proof. destruct enough_woken as [Hw|[Hw _]]; apply Hw. Qed.

(** The notification reaches every waiter in the queue. *)
Lemma all_woken s i : finv s -> fl_waiters s !! i = Some WSleep -> i ∈ woken (fl_queue s).
Proof.
  intros Hs Hi. pose proof (proj2 (fi_queue _ Hs i) Hi) as Hq. pose proof (woken_queue (fl_queue s)) as Hsub.
  destruct enough_woken as [Hw|[Hw Hn]]; [by apply Hw|].
  assert (Hz : forall k, k ∈ fl_queue s -> k = 0).
  { intros k Hk. apply (fi_queue _ Hs), lookup_lt_Some in Hk. rewrite (fi_waiters _ Hs) in Hk. lia. }
  rewrite (Hz i Hq). destruct (woken (fl_queue s)) as [|k l] eqn:E.
  - apply Hw in E; [done|]. intros E'. rewrite E' in Hq. set_solver.
  - rewrite <- (Hz k); [set_solver|]. apply Hsub. set_solver.
Qed.

Lemma notified_lookup s j i w :
  fl_waiters (flag_notify woken j s) !! i = Some w <->
  exists w0, fl_waiters s !! i = Some w0 /\ w = (if bool_decide (i ∈ woken (fl_queue s)) then WLock else w0).
Proof.
  simpl. rewrite list_lookup_imap. destruct (fl_waiters s !! i) as [w0|]; simpl; naive_solver.
Qed.

Lemma no_sleeper s j i : finv s -> fl_waiters (flag_notify woken j s) !! i <> Some WSleep.
Proof.
  intros Hs (w0 & Hw & Hx)%notified_lookup. case_bool_decide; [done|]. subst w0.
  by apply (all_woken s i Hs) in Hw.
Qed.

Lemma notify_testing s j :
  finv s -> sum_list_with testing (fl_waiters (flag_notify woken j s)) = sum_list_with testing (fl_waiters s).
Proof.
  intros Hs. apply sum_imap_same. intros i w Hw. case_bool_decide as Hb; [|done].
  assert (Hq : i ∈ fl_queue s) by (by apply woken_queue).
  apply (fi_queue _ Hs) in Hq. by simplify_eq.
Qed.

Lemma notify_finv s j : finv s -> fl_setters s !! j = Some SNotify -> finv (flag_notify woken j s).
Proof.
  intros Hs Hj. pose proof (notify_testing s j Hs) as Hc. pose proof (no_sleeper s j) as Hns.
  pose proof Hs as [H1 H2 H3 H4 H5 H6 H7 H8 H9 H10].
  assert (Hlt : j < length (fl_setters s)) by (by eapply lookup_lt_Some).
  pose proof (sum_insert setting (fl_setters s) j SNotify SDone Hj) as Hsum. simpl in Hsum.
  assert (Hr : fl_ready s = true) by eauto.
  split; cbn [fl_ready fl_locked fl_queue fl_setters fl_joined flag_notify]; rewrite ?length_insert; try done.
  - simpl. by rewrite length_imap.
  - rewrite Hc. lia.
  - by apply NoDup_filter.
  - intros i. unfold left_asleep. rewrite list_elem_of_filter. split; [|by intros ?%Hns].
    intros [Hn Hq]. apply H5 in Hq. by apply (all_woken s i Hs) in Hq.
  - intros _. exists j. rewrite list_lookup_insert_eq; auto.
  - intros i _ Hi. by apply Hns in Hi.
Qed.

Lemma step_finv s s' : finv s -> step s s' -> finv s'.
Proof.
  intros Hs Hstep. inversion Hstep as [i ? Hi Hl|i ? Hi|j ? Hj|j ? Hj Hl|j ? Hj|j ? Hj|? H0 Hj]; subst.
  - eapply (waiter_moves_finv _ _ WLock WTest); rewrite ?Hl; eauto; done.
  - assert (Hl : fl_locked s = true).
    { pose proof (fi_lock _ Hs) as Hx. pose proof (sum_lookup testing _ _ _ Hi) as Hy. simpl in Hy.
      destruct (fl_locked s); [done|lia]. }
    unfold flag_test. destruct (fl_ready s) eqn:Er;
      eapply (waiter_moves_finv _ _ WTest); rewrite ?Hl; eauto; done.
  - eapply setter_moves_finv; eauto; done.
  - eapply setter_moves_finv; eauto; rewrite ?Hl; done.
  - assert (Hl : fl_locked s = true).
    { pose proof (fi_lock _ Hs) as Hx. pose proof (sum_lookup setting _ _ _ Hj) as Hy. simpl in Hy.
      destruct (fl_locked s); [done|lia]. }
    eapply setter_moves_finv; eauto; rewrite ?Hl; done.
  - by apply notify_finv.
  - destruct Hs. apply lookup_lt_Some in Hj. split; simpl in *; try done. lia.
Qed.

(** ** Every run ends *)

Definition waiter_steps (ready : bool) (w : waiter) : nat :=
  match w with
  | WLock => if ready then 2 else 5
  | WTest => if ready then 1 else 4
  | WSleep => 3
  | WPassed => 0
  end.

Definition setter_steps (t : setter) : nat :=
  match t with SRun => 4 | SLock => 3 | SSet => 2 | SNotify => 1 | SDone => 0 end.

Definition flag_steps (s : flag_state) : nat :=
  sum_list_with (waiter_steps (fl_ready s)) (fl_waiters s) + sum_list_with setter_steps (fl_setters s) +
  (pred n - fl_joined s).

Lemma notify_steps s j :
  finv s -> fl_ready s = true ->
  sum_list_with (waiter_steps true) (fl_waiters (flag_notify woken j s)) <=
  sum_list_with (waiter_steps true) (fl_waiters s).
Proof.
  intros Hs Hr. apply sum_le. intros i w Hw. case_bool_decide as Hb; [|done].
  assert (Hq : i ∈ fl_queue s) by (by apply woken_queue).
  apply (fi_queue _ Hs) in Hq. simplify_eq. simpl. lia.
Qed.

Lemma step_decreases s s' : finv s -> step s s' -> flag_steps s' < flag_steps s.
Proof.
  intros Hs Hstep. unfold flag_steps.
  inversion Hstep as [i ? Hi Hl|i ? Hi|j ? Hj|j ? Hj Hl|j ? Hj|j ? Hj|? H0 Hj]; subst.
  - simpl. pose proof (sum_insert (waiter_steps (fl_ready s)) _ _ _ WTest Hi) as Hx.
    simpl in Hx. destruct (fl_ready s); lia.
  - unfold flag_test. destruct (fl_ready s) eqn:Er; simpl.
    + pose proof (sum_insert (waiter_steps true) _ _ _ WPassed Hi) as Hx. simpl in Hx. lia.
    + pose proof (sum_insert (waiter_steps false) _ _ _ WSleep Hi) as Hx. simpl in Hx. lia.
  - simpl. pose proof (sum_insert setter_steps _ _ _ SLock Hj) as Hx. simpl in Hx. lia.
  - simpl. pose proof (sum_insert setter_steps _ _ _ SSet Hj) as Hx. simpl in Hx. lia.
  - simpl. pose proof (sum_insert setter_steps _ _ _ SNotify Hj) as Hx. simpl in Hx.
    assert (sum_list_with (waiter_steps true) (fl_waiters s) <=
            sum_list_with (waiter_steps (fl_ready s)) (fl_waiters s)); [|lia].
    apply sum_mono. intros [] _; destruct (fl_ready s); simpl; lia.
  - assert (Hr : fl_ready s = true) by (eapply (fi_told _ Hs); eauto).
    pose proof (notify_steps s j Hs Hr) as Hx. pose proof (sum_insert setter_steps _ _ _ SDone Hj) as Hy.
    cbn [fl_ready fl_setters fl_joined flag_notify setter_steps] in *. rewrite Hr. lia.
  - simpl. apply lookup_lt_Some in Hj. rewrite (fi_waiters _ Hs) in Hj. lia.
Qed.

Lemma run_finv k s : nsteps step k (flag_init n m) s -> finv s /\ k + flag_steps s <= 6 * n + 4 * m.
Proof.
  intros Hk. remember (flag_init n m) as s0 eqn:E.
  assert (H0 : finv s0 /\ flag_steps s0 <= 6 * n + 4 * m).
  { subst. split; [apply init_finv|]. unfold flag_steps. simpl. rewrite !sum_replicate. simpl. lia. }
  clear E. destruct H0 as [Hs0 Hb].
  assert (finv s /\ k + flag_steps s <= flag_steps s0); [|naive_solver lia].
  clear Hb. induction Hk as [|k x y z Hxy _ IH]; [done|].
  pose proof (step_decreases _ _ Hs0 Hxy). destruct IH as [? ?]; [by eapply step_finv|]. split; [done|lia].
Qed.

(** ** No wakeup is lost *)

Lemma stuck_unlocked s : finv s -> flag_stuck woken s -> fl_locked s = false.
Proof.
  intros Hs Hst. destruct (fl_locked s) eqn:El; [|done]. exfalso. pose proof (fi_lock _ Hs) as Hx. rewrite El in Hx.
  rewrite (sum_zero testing), (sum_zero setting) in Hx; [done|..].
  - intros j [] Hj; try done. exfalso. eapply Hst, FlagSet, Hj.
  - intros i [] Hi; try done. exfalso. eapply Hst, FlagTest, Hi.
Qed.

Lemma stuck_setters s j t : finv s -> flag_stuck woken s -> fl_setters s !! j = Some t -> t = SDone.
Proof.
  intros Hs Hst Hj. pose proof (stuck_unlocked s Hs Hst) as Hl. destruct t; [exfalso; eapply Hst..|done].
  - by eapply FlagRun.
  - by eapply FlagSetLock.
  - by eapply FlagSet.
  - by eapply FlagNotify.
Qed.

Lemma stuck_waiters s i w :
  finv s -> flag_stuck woken s -> fl_waiters s !! i = Some w -> w = (if fl_ready s then WPassed else WSleep).
Proof.
  intros Hs Hst Hi. pose proof (stuck_unlocked s Hs Hst) as Hl. destruct w.
  - exfalso. by eapply Hst, FlagLock.
  - exfalso. by eapply Hst, FlagTest.
  - destruct (fl_ready s) eqn:Er; [|done]. destruct (fi_wake _ Hs i Er Hi) as (j & Hj).
    by apply (stuck_setters s j _ Hs Hst) in Hj.
  - by rewrite (fi_passed _ Hs i Hi).
Qed.

Lemma flag_stuck_returned s :
  finv s -> 0 < n -> 0 < m -> flag_stuck woken s ->
  flag_returned s /\ Forall (eq WPassed) (fl_waiters s).
Proof.
  intros Hs Hn Hm Hst.
  assert (Hr : fl_ready s = true).
  { destruct (lookup_lt_is_Some_2 (fl_setters s) 0) as [t Ht]; [rewrite (fi_setters _ Hs); lia|].
    apply (fi_told _ Hs 0). right. by rewrite <- (stuck_setters s 0 t Hs Hst Ht). }
  assert (Hp : forall i, i < n -> fl_waiters s !! i = Some WPassed).
  { intros i Hi. destruct (lookup_lt_is_Some_2 (fl_waiters s) i) as [w Hw]; [rewrite (fi_waiters _ Hs); lia|].
    pose proof (stuck_waiters s i w Hs Hst Hw) as ->. by rewrite Hr in Hw. }
  split.
  - split; [by apply Hp|]. rewrite (fi_waiters _ Hs). pose proof (fi_joined _ Hs).
    destruct (decide (S (fl_joined s) = n)) as [|Hne]; [done|]. exfalso.
    apply (Hst (flag_join s)), FlagJoin; apply Hp; lia.
  - apply Forall_lookup_2. intros i w Hi. rewrite (Hp i) in Hi; [by simplify_eq|].
    apply lookup_lt_Some in Hi. by rewrite (fi_waiters _ Hs) in Hi.
Qed.

End facts.

(** C13. Waiting for the flag, in any interleaving: no run is longer than a
    number of steps linear in the waiters and the setters; nobody passes before
    a setter has set the flag; and no wakeup is lost.  When no step is left,
    [wait_first_simple] of at least one function has returned, and
    [FiberFrameContext::wait] has returned with all threads ended and joined if
    [notify_stop] was called at least once.  Without a function, or without a
    call of [notify_stop], all wait for ever. *)
Theorem flag_wait_correct notify_one notify_all :
  wakes_one notify_one -> wakes_all notify_all ->
  (forall m k s,
     nsteps (flag_step notify_one) k (wait_first_simple m) s ->
     k <= 4 * m + 6 /\
     (flag_returned s -> exists j, fl_setters s !! j = Some SNotify \/ fl_setters s !! j = Some SDone) /\
     (flag_stuck notify_one s -> if m =? 0 then fl_waiters s = [WSleep] else flag_returned s)) /\
  (forall run_thread_count m k s,
     nsteps (flag_step notify_all) k (frame_start run_thread_count m) s ->
     k <= 4 * m + 6 * S (frame_threads run_thread_count) /\
     (flag_returned s -> exists j, fl_setters s !! j = Some SNotify \/ fl_setters s !! j = Some SDone) /\
     (flag_stuck notify_all s ->
      if m =? 0 then Forall (eq WSleep) (fl_waiters s)
      else flag_returned s /\ Forall (eq WPassed) (fl_waiters s))).
Proof.
  intros Hone Hall. assert (Hgen : forall b n m k s, wakes_all b \/ wakes_one b /\ n = 1 -> 0 < n ->
    nsteps (flag_step b) k (flag_init n m) s ->
    k <= 4 * m + 6 * n /\ length (fl_waiters s) = n /\
    (flag_returned s -> exists j, fl_setters s !! j = Some SNotify \/ fl_setters s !! j = Some SDone) /\
    (flag_stuck b s -> if m =? 0 then Forall (eq WSleep) (fl_waiters s)
                       else flag_returned s /\ Forall (eq WPassed) (fl_waiters s))).
  { intros b n m k s Hb Hn Hk. destruct (run_finv b n m Hb k s Hk) as [Hs Hle].
    split_and!; [lia|apply Hs| |].
    - intros [Hp _]. by apply (fi_ready _ _ _ Hs), (fi_passed _ _ _ Hs 0).
    - intros Hst. destruct (Nat.eqb_spec m 0) as [->|]; [|apply (flag_stuck_returned b n m); auto; lia].
      apply Forall_lookup_2. intros i w Hi. rewrite (stuck_waiters b n 0 s i w Hs Hst Hi).
      destruct (fl_ready s) eqn:Er; [|done]. destruct (fi_ready _ _ _ Hs Er) as (j & Hj).
      pose proof (fi_setters _ _ _ Hs) as Hx. apply nil_length_inv in Hx. rewrite Hx in Hj. naive_solver. }
  split.
  - intros m k s Hk. destruct (Hgen notify_one 1 m k s) as (H1 & Hlen & H2 & H3); [auto|lia|done|].
    split_and!; [lia|done|]. intros Hst. specialize (H3 Hst). destruct (m =? 0); [|apply H3].
    destruct (fl_waiters s) as [|w [|]]; try done. apply Forall_cons in H3 as [<- _]. done.
  - intros c m k s Hk. destruct (Hgen notify_all (S (frame_threads c)) m k s) as (H1 & _ & H2 & H3); [auto|lia|done|].
    done.
Qed.

Lemma flag_wait_correct_witness :
  exists s, flag_stuck (take 1) s /\ fl_waiters s = [WPassed] /\ flag_returned s.
Proof.
  set (s := mk_flag_state true false [] [WPassed] [SDone] 0). exists s.
  assert (Hst : flag_stuck (take 1) s).
  { intros s' Hs. unfold s in Hs. inversion Hs; simplify_eq; repeat (simplify_eq/=; match goal with
      | H : [_] !! ?i = Some _ |- _ => destruct i end); simplify_eq/=. }
  split; [done|]. split; [done|].
  assert (Hk : nsteps (flag_step (take 1)) 8 (wait_first_simple 1) s).
  { eapply nsteps_l; [by apply (FlagLock _ 0)|]. eapply nsteps_l; [by apply (FlagTest _ 0)|].
    eapply nsteps_l; [by apply (FlagRun _ 0)|]. eapply nsteps_l; [by apply (FlagSetLock _ 0)|].
    eapply nsteps_l; [by apply (FlagSet _ 0)|]. eapply nsteps_l; [by apply (FlagNotify _ 0)|].
    eapply nsteps_l; [by apply (FlagLock _ 0)|]. eapply nsteps_l; [by apply (FlagTest _ 0)|].
    cbn. constructor. }
  assert (H1 : wakes_one (take 1)).
  { intros q. split; [apply subseteq_take|]. by destruct q. }
  assert (H2 : wakes_all id) by done.
  exact (proj2 (proj2 (proj1 (flag_wait_correct (take 1) id H1 H2) 1 8 s Hk)) Hst).
Defined.
