(* ===== verification/ServerMain.v ===== *)
(** * [main] of examples/http/server_main.cpp

    The scheduler set-up and the server put together: [main] starts the threads of
    [FiberFrameContext], starts the server and waits for a [notify_stop] that
    nobody calls.  The threads of the frame, the accept fiber and the sessions
    interleave with [main]; nothing calls [start] again or [stop]. *)
From stdpp Require Import prelude list relations.
From Stdlib Require Import ZArith Lia.
From S2P Require Import Prelude Fleet FlagWait ServerLifecycle.

(** Where [main] is: about to call [init], about to start the server, in [wait], returned. *)
Inductive main_pc : Type := MInit | MStart | MWait | MReturned.

Record main_state : Type := mk_main {
  main_at : main_pc;
  frame : flag_state;
  api : lifecycle;
}.

Definition main_begin : main_state := mk_main MInit (flag_init 0 0) lifecycle_new.

(** [frame_cxt.run_thread_count = 3; frame_cxt.init()]: no [notify_stop] follows. *)
Definition main_init (s : main_state) : main_state := mk_main MStart (frame_start 3 0) (api s).

(** [TestApi api(...); api.start()], with three threads. *)
Definition main_start (s : main_state) : main_state := mk_main MWait (frame s) (start 3 (api s)).

(** The accept fiber and the sessions: the steps of the server that are not in
    [start] or [stop]. *)
Inductive serve : lifecycle -> lifecycle -> Prop :=
| ServeOpen ok s : lc_status s = Alive -> acc s = AccOpen -> serve s (accept_open ok s)
| ServeAccept s : lc_status s = Alive -> acc s = AccLoop -> serve s (accept_start s)
| ServeComplete r s :
    lc_status s = Alive -> acc s = AccWait -> r <> operation_aborted -> serve s (with_acc (AccGot r) s)
| ServeGot r s : lc_status s = Alive -> acc s = AccGot r -> serve s (accept_got r s)
| ServeCount s : lc_status s = Alive -> acc s = AccSpawned -> serve s (accept_count s)
| ServeFinish s : lc_status s = Alive -> (0 < live s)%nat -> serve s (session_finished s).

Section main.
Context (notify_all : list nat -> list nat).

(** The process runs until [main] returns or an exception leaves a fiber.  The
    first waiter of the frame is [main] itself, which moves only once it waits. *)
Inductive main_step : main_state -> main_state -> Prop :=
| MainInit s : main_at s = MInit -> main_step s (main_init s)
| MainStart s : main_at s = MStart -> main_step s (main_start s)
| MainFrame s f :
    main_at s = MStart \/ main_at s = MWait -> lc_status (api s) = Alive -> flag_step notify_all (frame s) f ->
    (main_at s = MStart -> fl_waiters f !! 0 = Some WLock) ->
    main_step s (mk_main (main_at s) f (api s))
| MainServe s a : main_at s = MWait -> serve (api s) a -> main_step s (mk_main MWait (frame s) a)
| MainReturn s :
    main_at s = MWait -> lc_status (api s) = Alive -> flag_returned (frame s) ->
    main_step s (mk_main MReturned (frame s) (api s)).

(** ** The server serves for ever *)

(** A server that was started and that nobody stops: the acceptor is open from the
    first step of the accept fiber on, which is never told to end. *)
Record serving (a : lifecycle) : Prop := {
  sv_running : m_running a = true;
  sv_idle : stop_at a = StIdle;
  sv_fiber : acc a <> AccNone /\ acc a <> AccEnded /\ acc a <> AccGot operation_aborted;
  sv_open : acceptor_is_open a = match acc a with AccOpen => false | _ => true end;
  sv_number : m_session_number a = (Z.of_nat (live a) - uncounted a)%Z;
  sv_threads : m_threads a = [true; true; true];
}.

Lemma serve_is_step a a' : serve a a' -> step 3 a a'.
Proof. destruct 1; by constructor. Qed.

Lemma serve_serving a a' : serve a a' -> serving a -> lc_status a' = Alive -> serving a'.
Proof.
  intros Hs [H1 H2 H3 H4 H5 H6] Ha. destruct Hs as [ok a _ Hp|a _ Hp|r a _ Hp Hr|r a _ Hp|a _ Hp|a _ Hp].
  all: rewrite ?Hp in *; unfold accept_open, accept_start, accept_got, session_finished, uncounted in *;
    repeat (case_match; simpl in *; simplify_eq); split; unfold uncounted; simpl in *; rewrite ?Hp; naive_solver lia.
Qed.

(** The accept fiber always has a step: the one thing it waits for is a completion. *)
Lemma serving_goes_on a : serving a -> lc_status a = Alive -> exists a', serve a a'.
Proof.
  intros [_ _ (H1 & H2 & _) _ _ _] Ha. destruct (acc a) as [| | | |r| |] eqn:E; try done; eexists.
  - by apply (ServeOpen true).
  - by apply ServeAccept.
  - by apply (ServeComplete accepted).
  - by eapply ServeGot.
  - by apply ServeCount.
Qed.

(** Nobody is past the wait of the frame. *)
Definition closed_frame (f : flag_state) : Prop :=
  fl_ready f = false /\ fl_setters f = [] /\ Forall (fun w => w <> WPassed) (fl_waiters f).

Lemma frame_stays f f' : flag_step notify_all f f' -> closed_frame f -> closed_frame f'.
Proof.
  intros Hs (Hr & Ht & Hw). inversion Hs as [i ? Hi Hl|i ? Hi|j ? Hj|j ? Hj Hl|j ? Hj|j ? Hj|? H0 Hj]; subst.
  1: split_and!; simpl; [done|done|by apply Forall_insert].
  1: unfold flag_test; rewrite Hr; split_and!; simpl; [done|done|by apply Forall_insert].
  all: rewrite ?Ht in *; simplify_eq/=.
  by destruct (Forall_lookup_1 _ _ _ _ Hw H0 eq_refl).
Qed.

Record main_inv (s : main_state) : Prop := {
  mi_frame : closed_frame (frame s);
  mi_before : main_at s = MInit \/ main_at s = MStart -> api s = lifecycle_new;
  mi_serving : main_at s = MWait -> lc_status (api s) = Alive -> serving (api s);
  mi_stays : main_at s <> MReturned;
}.

Lemma main_step_inv s s' : main_step s s' -> main_inv s -> main_inv s'.
Proof.
  intros Hs [Hf Hb Hv Hr]. destruct Hs as [s Hp|s Hp|s f Hp Ha Hs _|s a Hp Hs|s Hp Ha [Hret _]].
  - split; simpl; try done; [split_and!; [done|done|by repeat constructor]|auto].
  - split; simpl; try done; [naive_solver|]. rewrite (Hb (or_intror Hp)). intros _ _. by split.
  - split; simpl; try done. by eapply frame_stays.
  - split; simpl; try done; [naive_solver|]. intros _ Ha. eapply serve_serving; [done| |done].
    apply Hv; [done|]. by destruct Hs.
  - destruct Hf as (_ & _ & Hw). by destruct (Forall_lookup_1 _ _ _ _ Hw Hret eq_refl).
Qed.

(** [main] of the sample server never returns: in every interleaving it waits, with
    the server running, every session counted and the accept fiber able to go on,
    as long as no exception leaves that fiber. *)
Lemma server_main_serves s :
  rtc main_step main_begin s ->
  main_at s <> MReturned /\ fl_ready (frame s) = false /\
  (main_at s = MWait -> lc_status (api s) = Alive -> serving (api s) /\ exists a, serve (api s) a).
Proof.
  intros Hr. assert (Hi : main_inv s).
  { revert s Hr. apply rtc_ind_r; [|intros ? ? _ Hs Hi; by eapply main_step_inv].
    split; simpl; done. }
  destruct Hi as [(Hf & _) _ Hv Hm]. split_and!; [done|done|]. intros Hw Ha. specialize (Hv Hw Ha).
  split; [done|by apply serving_goes_on].
Qed.

(** What ends the process: the acceptor could not be opened, or [async_accept]
    completed with another error than the two that are handled. *)
Lemma server_main_ends a a' :
  serve a a' -> serving a -> lc_status a' <> Alive -> acc a = AccOpen \/ acc a = AccGot other_error.
Proof.
  intros Hs _ Ha. destruct Hs as [ok a _ Hp|a Hl Hp|r a Hl Hp Hr|r a Hl Hp|a Hl Hp|a Hl Hp]; auto;
    unfold accept_start in *; try case_match; try done.
  destruct r; try done. by right.
Qed.
End main.
