(* ===== verification/ClientRounds.v ===== *)
(** * examples/http/client_main.cpp and client2_main.cpp: rounds of requests

    The main fiber starts [g_request_count] fibers, each of which makes a request
    and then counts it under a mutex; the one that counts the last response
    notifies the main fiber, which waits for the count on a condition variable.
    A fiber whose request throws is not counted. *)
From stdpp Require Import prelude list list_numbers relations strings.
From Stdlib Require Import Ascii Lia Arith ZArith.
From S2P Require Import Prelude Fleet CxxLib FlagWait.

(** ** The system *)

(** Where the fiber of [do_session] is: making its request, about to take the
    mutex, counting, returned, returned through the [catch]. *)
Inductive requester : Type := RRequest | RLock | RCount | RDone | RFailed.

#[export] Instance requester_eq_dec : EqDecision requester.
Proof. solve_decision. Defined.

Record round_state : Type := mk_round_state {
  g_response_count : Z;
  g_mux : bool;                  (* held *)
  main_fiber : waiter;
  fibers : list requester;
}.

Section system.
Context (g_request_count : Z) (responds : nat -> bool).

(** The top of the loop of [main]. *)
Definition round_start : round_state :=
  mk_round_state 0 false WLock (replicate (Z.to_nat g_request_count) RRequest).

Definition fiber_moves (i : nat) (r : requester) (held : bool) (s : round_state) : round_state :=
  mk_round_state (g_response_count s) held (main_fiber s) (<[i := r]> (fibers s)).

(** The request of [do_session], and the [catch]. *)
Definition request_step (i : nat) (s : round_state) : round_state :=
  fiber_moves i (if responds i then RLock else RFailed) (g_mux s) s.

(** The counting, the notification and the release of the mutex. *)
Definition count_response (i : nat) (s : round_state) : round_state :=
  let n := (g_response_count s + 1)%Z in
  mk_round_state n false
    (match main_fiber s with WSleep => if (n =? g_request_count)%Z then WLock else WSleep | w => w end)
    (<[i := RDone]> (fibers s)).

(** The predicate of [g_cnd.wait]. *)
Definition main_test (s : round_state) : round_state :=
  mk_round_state (g_response_count s) false
    (if (g_response_count s =? g_request_count)%Z then WPassed else WSleep) (fibers s).

Inductive round_step : round_state -> round_state -> Prop :=
| RoundRequest i s : fibers s !! i = Some RRequest -> round_step s (request_step i s)
| RoundLock i s : fibers s !! i = Some RLock -> g_mux s = false -> round_step s (fiber_moves i RCount true s)
| RoundCount i s : fibers s !! i = Some RCount -> round_step s (count_response i s)
| RoundMainLock s :
    main_fiber s = WLock -> g_mux s = false ->
    round_step s (mk_round_state (g_response_count s) true WTest (fibers s))
| RoundMainTest s : main_fiber s = WTest -> round_step s (main_test s).

Definition round_stuck (s : round_state) : Prop := forall s', ~ round_step s s'.

End system.

(** The arguments of [main]: [None] is the exit with the usage text. *)
Definition client_main (argv : list str) : option (str * str * str * Z) :=
  match argv with
  | [_; g_host; g_port; g_target; count] => Some (g_host, g_port, g_target, atoi count)
  | _ => None
  end.

(** ** The invariant *)

Definition counting (r : requester) : nat := match r with RCount => 1 | _ => 0 end.
Definition counted_one (r : requester) : nat := match r with RDone => 1 | _ => 0 end.

Section facts.
Context (g_request_count : Z) (responds : nat -> bool).
Abbreviation step := (round_step g_request_count responds).
Abbreviation n := (Z.to_nat g_request_count).

Definition reached (s : round_state) : bool := (g_response_count s =? g_request_count)%Z.

Record rinv (s : round_state) : Prop := {
  ri_len : length (fibers s) = n;
  ri_lock : sum_list_with counting (fibers s) + testing (main_fiber s) = if g_mux s then 1 else 0;
  ri_count : g_response_count s = Z.of_nat (sum_list_with counted_one (fibers s));
  ri_sleep : main_fiber s = WSleep -> reached s = false;
  ri_passed : main_fiber s = WPassed -> reached s = true;
  ri_failed i : fibers s !! i = Some RFailed -> responds i = false;
  ri_ok i r : fibers s !! i = Some r -> r <> RRequest -> r <> RFailed -> responds i = true;
}.

Lemma start_rinv : rinv (round_start g_request_count).
Proof.
  split; simpl; rewrite ?length_replicate, ?sum_replicate; try done; try lia.
  - simpl. lia.
  - simpl. lia.
  - by intros i [? _]%lookup_replicate.
  - by intros i r [? _]%lookup_replicate.
Qed.

(** No more responses are counted than there are fibers, and fewer while one counts. *)
Lemma counted_le s : rinv s -> sum_list_with counted_one (fibers s) <= n.
Proof.
  intros Hs. rewrite <- (ri_len _ Hs). clear. induction (fibers s) as [|[] l IH]; simpl; lia.
Qed.

Lemma counted_lt s i r : rinv s -> fibers s !! i = Some r -> r <> RDone -> sum_list_with counted_one (fibers s) < n.
Proof.
  intros Hs Hi Hr. rewrite <- (ri_len _ Hs). clear Hs. revert i Hi.
  induction (fibers s) as [|x l IH]; intros [|i] Hi; simplify_eq/=.
  - assert (sum_list_with counted_one l <= length l) by (clear; induction l as [|[] l IH]; simpl; lia).
    destruct r; simpl; done || lia.
  - specialize (IH i Hi). destruct x; simpl; lia.
Qed.

Lemma not_reached s i r : rinv s -> fibers s !! i = Some r -> r <> RDone -> reached s = false.
Proof.
  intros Hs Hi Hr. pose proof (counted_lt s i r Hs Hi Hr). apply Z.eqb_neq. rewrite (ri_count _ Hs). lia.
Qed.

(** A fiber that moves without counting. *)
Lemma fiber_moves_rinv s i r r' (held : bool) :
  rinv s -> fibers s !! i = Some r -> r <> RDone -> r' <> RDone ->
  counting r' + (if g_mux s then 1 else 0) = counting r + (if held then 1 else 0) ->
  (r' = RFailed -> responds i = false) -> (r' <> RRequest -> r' <> RFailed -> responds i = true) ->
  rinv (fiber_moves i r' held s).
Proof.
  intros Hs Hi Hr Hr' Hc Hf Ho. destruct Hs as [H1 H2 H3 H4 H5 H6 H7].
  pose proof (sum_insert counting _ _ _ r' Hi) as Hx. pose proof (sum_insert counted_one _ _ _ r' Hi) as Hy.
  assert (Hz : counted_one r = 0 /\ counted_one r' = 0) by (by destruct r, r'). destruct Hz as [Hz Hz'].
  split; simpl; rewrite ?length_insert; try done; [lia|lia|..].
  - intros j [[<- ->]|[_ Hj]]%insert_lookup_cases; eauto.
  - intros j r0 [[<- ->]|[_ Hj]]%insert_lookup_cases; eauto.
Qed.

Lemma holder_locked s i : rinv s -> fibers s !! i = Some RCount -> g_mux s = true /\ main_fiber s <> WTest.
Proof.
  intros Hs Hi. pose proof (ri_lock _ Hs) as Hl. pose proof (sum_lookup counting _ _ _ Hi) as Hx. simpl in Hx.
  destruct (g_mux s); [|lia]. split; [done|]. intros E. rewrite E in Hl. simpl in Hl. lia.
Qed.

Lemma count_rinv s i : rinv s -> fibers s !! i = Some RCount -> rinv (count_response g_request_count i s).
Proof.
  intros Hs Hi. destruct (holder_locked s i Hs Hi) as [Hm Ht].
  pose proof (not_reached s i RCount Hs Hi ltac:(done)) as Hnr.
  pose proof (sum_insert counting _ _ _ RDone Hi) as Hx. pose proof (sum_insert counted_one _ _ _ RDone Hi) as Hy.
  simpl in Hx, Hy. destruct Hs as [H1 H2 H3 H4 H5 H6 H7]. rewrite Hm in H2. simpl in H2.
  split; unfold reached in *; simpl; rewrite ?length_insert; try done.
  - destruct (main_fiber s); simpl in *; repeat case_match; simpl; done || lia.
  - lia.
  - destruct (main_fiber s) eqn:E; try done. case_match; done.
  - intros Hp. rewrite H5 in Hnr; [done|]. destruct (main_fiber s); try done. by case_match.
  - intros j [[<- ?]|[_ Hj]]%insert_lookup_cases; [done|eauto].
  - intros j r [[<- <-]|[_ Hj]]%insert_lookup_cases; [|eauto]. intros _ _. by eapply (H7 i RCount).
Qed.

Lemma round_step_rinv s s' : rinv s -> step s s' -> rinv s'.
Proof.
  intros Hs Hstep. inversion Hstep as [i ? Hi|i ? Hi Hm|i ? Hi|? Hw Hm|? Hw]; subst.
  - unfold request_step. destruct (responds i) eqn:E; eapply fiber_moves_rinv; eauto; done.
  - eapply fiber_moves_rinv; eauto; try done; [by rewrite Hm|].
    intros _ _. by eapply (ri_ok _ Hs i RLock).
  - by apply count_rinv.
  - destruct Hs as [H1 H2 H3 H4 H5 H6 H7]. rewrite Hw, Hm in H2. simpl in H2.
    split; simpl; try done. lia.
  - destruct Hs as [H1 H2 H3 H4 H5 H6 H7]. rewrite Hw in H2. simpl in H2.
    assert (Hz : sum_list_with counting (fibers s) = 0) by (destruct (g_mux s); lia).
    split; unfold reached; simpl; rewrite ?Hz; try done;
      by destruct (g_response_count s =? g_request_count)%Z.
Qed.

(** ** Every round's run ends *)

Definition fiber_steps (r : requester) : nat :=
  match r with RRequest => 3 | RLock => 2 | RCount => 1 | _ => 0 end.

Definition round_steps (s : round_state) : nat :=
  sum_list_with fiber_steps (fibers s) + waiter_steps (reached s) (main_fiber s).

Lemma round_step_decreases s s' : rinv s -> step s s' -> round_steps s' < round_steps s.
Proof.
  intros Hs Hstep. unfold round_steps.
  inversion Hstep as [i ? Hi|i ? Hi Hm|i ? Hi|? Hw Hm|? Hw]; subst; unfold reached; simpl.
  - pose proof (sum_insert fiber_steps _ _ _ (if responds i then RLock else RFailed) Hi) as Hx.
    simpl in Hx. destruct (responds i); simpl in *; lia.
  - pose proof (sum_insert fiber_steps _ _ _ RCount Hi) as Hx. simpl in Hx. lia.
  - pose proof (sum_insert fiber_steps _ _ _ RDone Hi) as Hx. simpl in Hx.
    pose proof (not_reached s i RCount Hs Hi ltac:(done)) as Hnr. unfold reached in Hnr. rewrite Hnr.
    destruct (main_fiber s); simpl; repeat case_match; simpl; lia.
  - rewrite Hw. simpl. case_match; lia.
  - rewrite Hw. simpl. case_match; simpl; lia.
Qed.

Lemma round_run k s : nsteps step k (round_start g_request_count) s -> rinv s /\ k + round_steps s <= 3 * n + 5.
Proof.
  intros Hk. remember (round_start g_request_count) as s0 eqn:E.
  assert (H0 : rinv s0 /\ round_steps s0 <= 3 * n + 5).
  { subst. split; [apply start_rinv|]. unfold round_steps. simpl. rewrite sum_replicate. simpl.
    case_match; lia. }
  clear E. destruct H0 as [Hs0 Hb].
  assert (rinv s /\ k + round_steps s <= round_steps s0); [|naive_solver lia].
  clear Hb. induction Hk as [|k x y z Hxy _ IH]; [done|].
  pose proof (round_step_decreases _ _ Hs0 Hxy). destruct IH as [? ?]; [by eapply round_step_rinv|]. split; [done|lia].
Qed.

(** ** What is left when no step is *)

Lemma round_stuck_unlocked s : rinv s -> round_stuck g_request_count responds s -> g_mux s = false.
Proof.
  intros Hs Hst. destruct (g_mux s) eqn:El; [|done]. exfalso. pose proof (ri_lock _ Hs) as Hx. rewrite El in Hx.
  rewrite (sum_zero counting) in Hx.
  - destruct (main_fiber s) eqn:Ew; simpl in Hx; try done. by eapply Hst, RoundMainTest.
  - intros i [] Hi; try done. exfalso. eapply Hst, RoundCount, Hi.
Qed.

Lemma round_stuck_fibers s i r : rinv s -> round_stuck g_request_count responds s ->
  fibers s !! i = Some r -> r = if responds i then RDone else RFailed.
Proof.
  intros Hs Hst Hi. pose proof (round_stuck_unlocked s Hs Hst) as Hm. destruct r.
  - exfalso. eapply Hst, RoundRequest, Hi.
  - exfalso. by eapply Hst, RoundLock.
  - exfalso. eapply Hst, RoundCount, Hi.
  - by rewrite (ri_ok _ Hs i RDone).
  - by rewrite (ri_failed _ Hs i).
Qed.

Lemma round_stuck_main s : rinv s -> round_stuck g_request_count responds s ->
  main_fiber s = if reached s then WPassed else WSleep.
Proof.
  intros Hs Hst. pose proof (round_stuck_unlocked s Hs Hst) as Hm. destruct (main_fiber s) eqn:Ew.
  - exfalso. by eapply Hst, RoundMainLock.
  - exfalso. by eapply Hst, RoundMainTest.
  - by rewrite (ri_sleep _ Hs Ew).
  - by rewrite (ri_passed _ Hs Ew).
Qed.

(** All fibers counted: the count is their number. *)
Lemma all_counted s : rinv s -> (forall i r, fibers s !! i = Some r -> r = RDone) ->
  sum_list_with counted_one (fibers s) = n.
Proof.
  intros Hs Hall. rewrite <- (ri_len _ Hs). clear Hs. revert Hall. induction (fibers s) as [|x l IH]; intros Hall; simpl; [done|].
  rewrite (Hall 0 x eq_refl), IH; [done|]. intros i r Hi. by apply (Hall (S i)).
Qed.

(** Past its wait, the main fiber leaves nothing behind. *)
Lemma passed_all_done s : rinv s -> main_fiber s = WPassed ->
  g_response_count s = g_request_count /\ g_mux s = false /\ Forall (eq RDone) (fibers s).
Proof.
  intros Hs Hp. pose proof (ri_passed _ Hs Hp) as Hr.
  assert (Hall : Forall (eq RDone) (fibers s)).
  { apply Forall_lookup_2. intros i r Hi. destruct (decide (r = RDone)) as [->|Hne]; [done|].
    by rewrite (not_reached s i r Hs Hi Hne) in Hr. }
  split; [by apply Z.eqb_eq|]. split; [|done]. pose proof (ri_lock _ Hs) as Hl. rewrite Hp in Hl.
  rewrite (sum_zero counting) in Hl; [by destruct (g_mux s)|].
  intros i r Hi. by rewrite <- (Forall_lookup_1 _ _ _ _ Hall Hi).
Qed.

End facts.

(** A round of [g_request_count] requests. *)
Lemma round_result g_request_count responds k s :
  nsteps (round_step g_request_count responds) k (round_start g_request_count) s ->
  let n := Z.to_nat g_request_count in
  k <= 3 * n + 5 /\
  (main_fiber s = WPassed ->
   g_response_count s = g_request_count /\ g_mux s = false /\ Forall (eq RDone) (fibers s)) /\
  (round_stuck g_request_count responds s ->
   if (0 <=? g_request_count)%Z && forallb responds (seq 0 n)
   then main_fiber s = WPassed /\ g_response_count s = g_request_count
   else main_fiber s = WSleep).
Proof.
  intros Hk n. destruct (round_run g_request_count responds k s Hk) as [Hs Hb]. split; [unfold n; lia|].
  split; [by apply (passed_all_done _ responds)|]. intros Hst. rewrite (round_stuck_main g_request_count responds s Hs Hst). unfold reached.
  pose proof (ri_count _ _ _ Hs) as Hcount.
  destruct (Z.leb_spec 0 g_request_count) as [Hpos|]; simpl; [|by destruct (Z.eqb_spec (g_response_count s) g_request_count); [lia|]].
  destruct (forallb responds (seq 0 n)) eqn:Hall.
  - rewrite forallb_forall in Hall. assert (Hc : g_response_count s = g_request_count); [|by rewrite Hc, Z.eqb_refl].
    rewrite Hcount, (all_counted g_request_count responds s Hs); [lia|].
    intros i r Hi. pose proof (round_stuck_fibers _ _ s i r Hs Hst Hi) as ->.
    rewrite Hall; [done|]. apply in_seq. apply lookup_lt_Some in Hi. rewrite (ri_len _ _ _ Hs) in Hi. unfold n. lia.
  - destruct (Z.eqb_spec (g_response_count s) g_request_count) as [E|]; [exfalso|done].
    assert (Hn : forallb responds (seq 0 n) = true); [|congruence]. apply forallb_forall. intros i Hi%in_seq.
    destruct (lookup_lt_is_Some_2 (fibers s) i) as [r Hr]; [rewrite (ri_len _ _ _ Hs); fold n; lia|].
    destruct (responds i) eqn:Hf; [done|]. pose proof (round_stuck_fibers _ _ s i r Hs Hst Hr) as ->. rewrite Hf in Hr.
    pose proof (not_reached _ _ s i RFailed Hs Hr ltac:(done)) as Hnr. unfold reached in Hnr.
    by rewrite E, Z.eqb_refl in Hnr.
Qed.

(** C29. The sample clients: with other than four arguments they exit; otherwise
    each round, in any interleaving, takes at most three steps a request and
    five.  Whenever the main fiber is past its wait, every request was counted,
    the mutex is free and no fiber of the round is running, so that the next round
    starts like the first.  When no step is left, the main fiber is past its wait if the count is
    not negative and every request returned, and then as many responses are
    counted as were asked for; otherwise it waits for ever, because a request
    that throws is not counted. *)
Theorem client_rounds argv :
  match client_main argv with
  | None => length argv <> 5
  | Some (_, _, _, g_request_count) =>
      forall responds k s,
        nsteps (round_step g_request_count responds) k (round_start g_request_count) s ->
        let n := Z.to_nat g_request_count in
        k <= 3 * n + 5 /\
        (main_fiber s = WPassed ->
         g_response_count s = g_request_count /\ g_mux s = false /\ Forall (eq RDone) (fibers s)) /\
        (round_stuck g_request_count responds s ->
         if (0 <=? g_request_count)%Z && forallb responds (seq 0 n)
         then main_fiber s = WPassed /\ g_response_count s = g_request_count
         else main_fiber s = WSleep)
  end.
Proof.
  unfold client_main. destruct argv as [|? [|? [|? [|? [|? [|]]]]]]; try done.
  intros responds k s. apply round_result.
Qed.

Lemma client_rounds_witness :
  exists s, round_stuck 1 (fun _ => true) s /\ main_fiber s = WPassed /\ g_response_count s = 1%Z.
Proof.
  set (s := mk_round_state 1 false WPassed [RDone]). exists s.
  assert (Hk : nsteps (round_step 1 (fun _ => true)) 7 (round_start 1) s).
  { eapply nsteps_l; [by apply RoundMainLock|]. eapply nsteps_l; [by apply RoundMainTest|].
    eapply nsteps_l; [by apply (RoundRequest _ _ 0)|]. eapply nsteps_l; [by apply (RoundLock _ _ 0)|].
    eapply nsteps_l; [by apply (RoundCount _ _ 0)|]. eapply nsteps_l; [by apply RoundMainLock|].
    eapply nsteps_l; [by apply RoundMainTest|]. cbn. constructor. }
  assert (Hst : round_stuck 1 (fun _ => true) s).
  { intros s' Hs. unfold s in Hs. inversion Hs; simplify_eq; repeat (simplify_eq/=; match goal with
      | H : [_] !! ?i = Some _ |- _ => destruct i end); simplify_eq/=. }
  pose proof (client_rounds [lit "c"; lit "127.0.0.1"; lit "28080"; lit "/test_api"; lit "1"]) as Hc.
  assert (Ha : atoi (lit "1") = 1%Z) by (vm_compute; reflexivity).
  cbn [client_main] in Hc. rewrite Ha in Hc. split; [exact Hst|]. exact (proj2 (proj2 (Hc _ 7 s Hk)) Hst).
Defined.
