(* ===== verification/Syslog.v ===== *)
(** * common/logger.cpp: the syslog backend

    The packet that [syslog_udp5424_backend] sends for a record, and the reading
    of such a packet by the header rules that the source quotes from RFC 5424.
    The clock, the host and process names and the formatted message come from
    the system and from Boost.Log and are arguments. *)
From stdpp Require Import prelude strings.
From Stdlib Require Import Ascii ZArith Lia.
From S2P Require Import Prelude CxxLib.

Local Open Scope Z_scope.

(** ** Severities *)

Module trivial.
Inductive severity_level : Type := trace | debug | info | warning | error | fatal.
End trivial.

Module syslog.
Definition critical : Z := 2.
Definition error : Z := 3.
Definition warning : Z := 4.
Definition info : Z := 6.
Definition debug : Z := 7.
Definition user : Z := 8.
End syslog.

(** The mapping [add_syslogging] fills; a level without entry maps to info. *)
Definition severity_mapper (s : trivial.severity_level) : Z :=
  match s with
  | trivial.debug => syslog.debug
  | trivial.info => syslog.info
  | trivial.warning => syslog.warning
  | trivial.error => syslog.error
  | trivial.fatal => syslog.critical
  | trivial.trace => syslog.info
  end.

(** ** printf *)

(** The decimal digits of a number; an [int] has at most ten. *)
Fixpoint int_digits (fuel : nat) (z : Z) : str :=
  match fuel with
  | O => []
  | S fuel' => (if z <? 10 then [] else int_digits fuel' (z / 10)) ++ [char_of_Z (48 + z mod 10)]
  end.

(** [%d] with a width, padded with blanks or, with the flag 0, with zeros. *)
Definition printf_d (zero : bool) (width : nat) (z : Z) : str :=
  let sign := if z <? 0 then lit "-" else [] in
  let digits := int_digits 10 (Z.abs z) in
  let pad := (width - length sign - length digits)%nat in
  if zero then sign ++ replicate pad "0"%char ++ digits
  else replicate pad " "%char ++ sign ++ digits.

(** ** The backend *)

Record tm : Type := mk_tm {
  tm_sec : Z; tm_min : Z; tm_hour : Z; tm_mday : Z; tm_mon : Z; tm_year : Z;
}.

Record backend : Type := mk_backend {
  m_local_hostname : str;
  m_process_name : str;
  m_process_id : str;
  m_msg_id : str;
  m_facility : Z;
}.

(** [set_target_address], from the names the system gives. *)
Definition set_target_address (host_name process_name process_id : str) : backend :=
  mk_backend (match host_name with [] => lit "-" | _ => host_name end)
    (match process_name with [] => lit "-" | _ => process_name end) process_id (lit "-") syslog.user.

(** ** The target *)

Inductive ip_address : Type :=
| address_v4 (a : Z)
| address_v6 (a : Z).

Definition is_v4 (a : ip_address) : bool := match a with address_v4 _ => true | address_v6 _ => false end.

(** The protocol an open UDP socket speaks. *)
Inductive udp : Type := udp_v4 | udp_v6.

Record target : Type := mk_target {
  m_target_host : ip_address * Z;
  m_socket : udp;
}.

(** The end of [set_target_address]: [from_string] throws ([None]) on a text that
    is no address; the port, an [int] in [add_syslogging], becomes an
    [unsigned short]. *)
Definition open_target (from_string : str -> option ip_address) (addr : str) (port : Z) : option target :=
  match from_string addr with
  | None => None
  | Some vaddr => Some (mk_target (vaddr, wrap_u 16 port) (if is_v4 vaddr then udp_v4 else udp_v6))
  end.

(** The socket speaks the protocol of the host it sends to; a port in range is kept,
    and no port is out of range. *)
Lemma open_target_spec from_string addr port t : open_target from_string addr port = Some t ->
  from_string addr = Some (m_target_host t).1 /\
  (m_socket t = udp_v4 <-> is_v4 (m_target_host t).1 = true) /\
  0 <= (m_target_host t).2 < 2 ^ 16 /\ (0 <= port < 2 ^ 16 -> (m_target_host t).2 = port).
Proof.
  unfold open_target. destruct (from_string addr) as [v|]; [|done]. intros [= <-]. simpl.
  split; [done|]. split; [by destruct v|]. unfold wrap_u. split; [apply Z.mod_pos_bound; lia|apply Z.mod_small].
Qed.

(** ** Packets *)

Definition timestamp (t : tm) : str :=
  printf_d false 4 (tm_year t + 1900) ++ lit "-" ++ printf_d true 2 (tm_mon t + 1) ++ lit "-" ++
  printf_d true 2 (tm_mday t) ++ lit "T" ++ printf_d true 2 (tm_hour t) ++ lit ":" ++
  printf_d true 2 (tm_min t) ++ lit ":" ++ printf_d true 2 (tm_sec t).

(** What the format asks for; [%s] ends at a NUL. *)
Definition packet_text (b : backend) (lev : Z) (t : tm) (message : str) : str :=
  lit "<" ++ printf_d false 0 (Z.lor (m_facility b) lev) ++ lit ">1 " ++ timestamp t ++ lit " " ++
  c_str (m_local_hostname b) ++ lit " " ++ c_str (m_process_name b) ++ lit " " ++
  c_str (m_process_id b) ++ lit " " ++ c_str (m_msg_id b) ++ lit " - " ++ c_str message.

(** [send]: the bytes of the datagram, [None] when [snprintf] fails; the buffer
    keeps a byte for the final NUL. *)
Definition send (b : backend) (lev : Z) (t : tm) (message : str) : option str :=
  let text := packet_text b lev t message in
  let size_packet := 2048 in
  let n := str_size text in
  if n <=? 2 ^ 31 - 1 then
    let packet := take (Z.to_nat (size_packet - 1)) text in
    let packet_size := if size_packet <=? n then size_packet - 1 else n in
    Some (take (Z.to_nat packet_size) packet)
  else None.

(** [consume] through the mapper [add_syslogging] sets. *)
Definition consume (b : backend) (severity : trivial.severity_level) (t : tm) (message : str) : option str :=
  send b (severity_mapper severity) t message.

(** The filter of the sinks. *)
Definition severity_rank (s : trivial.severity_level) : Z :=
  match s with
  | trivial.trace => 0 | trivial.debug => 1 | trivial.info => 2
  | trivial.warning => 3 | trivial.error => 4 | trivial.fatal => 5
  end.

Definition sink_filter (filter_level severity : trivial.severity_level) : bool :=
  severity_rank filter_level <=? severity_rank severity.

Definition add_syslogging (b : backend) (filter_level severity : trivial.severity_level) (t : tm) (message : str) :
    option str :=
  if sink_filter filter_level severity then consume b severity t message else None.

Example consume_example :
  consume (set_target_address (lit "box") [] (lit "77")) trivial.fatal (mk_tm 5 4 3 2 0 124) (lit "up and down") =
  Some (lit "<10>1 2024-01-02T03:04:05 box - 77 - - up and down").
Proof. vm_compute. reflexivity. Qed.
