(* ===== verification/SyslogFacts.v ===== *)
(** * Theorems on the syslog packets: a reader recovers what was logged *)
From stdpp Require Import prelude strings.
From Stdlib Require Import Ascii ZArith Lia.
From S2P Require Import Prelude CxxLib Syslog.

Local Open Scope Z_scope.

(** ** A reader, by the header rules quoted in the source *)

Record packet_fields : Type := mk_packet_fields {
  p_pri : Z; p_time : str; p_host : str; p_app : str; p_procid : str; p_msgid : str; p_msg : str;
}.

(** A field and the blank after it. *)
Definition read_field (p : str) : option (str * str) :=
  let '(field, rest) := scan (Ascii.eqb " ") p in
  match field, eat " " rest with
  | _ :: _, Some rest' => Some (field, rest')
  | _, _ => None
  end.

Definition read_pri (p : str) : option (Z * str) :=
  p1 ← eat "<" p;
  let '(digits, rest) := scan (Ascii.eqb ">") p1 in
  rest' ← eat ">" rest;
  if (1 <=? length digits)%nat && (length digits <=? 3)%nat && forallb is_digit digits
  then Some (decimal_value digits, rest') else None.

Definition read_packet (p : str) : option packet_fields :=
  '(pri, p) ← read_pri p;
  p ← eat "1" p; p ← eat " " p;
  '(time, p) ← read_field p;
  '(host, p) ← read_field p;
  '(app, p) ← read_field p;
  '(procid, p) ← read_field p;
  '(msgid, p) ← read_field p;
  p ← eat "-" p; p ← eat " " p;
  Some (mk_packet_fields pri time host app procid msgid p).

(** FULL-DATE T PARTIAL-TIME, and what follows it. *)
Definition read_time (s : str) : option (tm * str) :=
  match s with
  | y1 :: y2 :: y3 :: y4 :: d1 :: m1 :: m2 :: d2 :: a1 :: a2 :: T :: h1 :: h2 :: c1 :: i1 :: i2 :: c2 :: s1 :: s2 :: rest =>
      if forallb is_digit [y1; y2; y3; y4; m1; m2; a1; a2; h1; h2; i1; i2; s1; s2] &&
         bool_decide ([d1; d2; T; c1; c2] = lit "--T::")
      then Some (mk_tm (decimal_value [s1; s2]) (decimal_value [i1; i2]) (decimal_value [h1; h2])
                   (decimal_value [a1; a2]) (decimal_value [m1; m2] - 1) (decimal_value [y1; y2; y3; y4] - 1900), rest)
      else None
  | _ => None
  end.

(** TIME-OFFSET: Z, or a sign, hours and minutes. *)
Definition time_offset (s : str) : bool :=
  match s with
  | ["Z"%char] => true
  | [sg; h1; h2; c; m1; m2] =>
      (Ascii.eqb sg "+" || Ascii.eqb sg "-") && forallb is_digit [h1; h2; m1; m2] && Ascii.eqb c ":"
  | _ => false
  end.

(** TIMESTAMP without fraction of a second. *)
Definition full_timestamp (s : str) : bool :=
  match read_time s with Some (_, offset) => time_offset offset | None => false end.

(** ** Numbers *)

Definition check_d (zero : bool) (width : nat) (x : Z) : bool :=
  let s := printf_d zero width x in
  (length s =? width)%nat && forallb is_digit s && (decimal_value s =? x).

Definition range (lo : Z) (n : nat) : list Z := map (fun i => lo + Z.of_nat i) (seq 0 n).

Lemma range_all (P : Z -> bool) lo n x : forallb P (range lo n) = true -> lo <= x < lo + Z.of_nat n -> P x = true.
Proof.
  intros Hp Hx. rewrite forallb_forall in Hp. apply Hp, in_map_iff. exists (Z.to_nat (x - lo)).
  split; [lia|]. apply in_seq. lia.
Qed.

Lemma two_digit_field x :
  0 <= x < 100 -> exists a b, printf_d true 2 x = [a; b] /\ forallb is_digit [a; b] = true /\ decimal_value [a; b] = x.
Proof.
  intros Hx. assert (Hc : check_d true 2 x = true).
  { apply (range_all _ 0 100); [vm_compute; reflexivity|lia]. }
  unfold check_d in Hc. destruct (printf_d true 2 x) as [|a [|b [|]]]; try done.
  exists a, b. split; [done|]. apply andb_true_iff in Hc as [Hc ?%Z.eqb_eq].
  by apply andb_true_iff in Hc as [_ Hc].
Qed.

Lemma year_field x :
  1000 <= x < 10000 -> exists a b c d, printf_d false 4 x = [a; b; c; d] /\
    forallb is_digit [a; b; c; d] = true /\ decimal_value [a; b; c; d] = x.
Proof.
  intros Hx. assert (Hc : check_d false 4 x = true).
  { apply (range_all _ 1000 (Z.to_nat 9000)); [vm_compute; reflexivity|lia]. }
  unfold check_d in Hc. destruct (printf_d false 4 x) as [|a [|b [|c [|d [|]]]]]; try done.
  exists a, b, c, d. split; [done|]. apply andb_true_iff in Hc as [Hc ?%Z.eqb_eq].
  by apply andb_true_iff in Hc as [_ Hc].
Qed.

(** ** The timestamp *)

Record tm_ok (t : tm) : Prop := {
  ok_sec : 0 <= tm_sec t <= 60;
  ok_min : 0 <= tm_min t < 60;
  ok_hour : 0 <= tm_hour t < 24;
  ok_mday : 1 <= tm_mday t <= 31;
  ok_mon : 0 <= tm_mon t < 12;
  ok_year : 1000 <= tm_year t + 1900 < 10000;
}.

Lemma digit_no_blank s : forallb is_digit s = true -> none (Ascii.eqb " ") s = true.
Proof.
  induction s as [|c s IH]; simpl; [done|]. intros [Hc Hs]%andb_true_iff. rewrite IH by done.
  destruct (Ascii.eqb_spec " " c) as [<-|]; done.
Qed.

Lemma timestamp_read t rest : tm_ok t ->
  read_time (timestamp t ++ rest) = Some (t, rest) /\ none (Ascii.eqb " ") (timestamp t) = true.
Proof.
  intros [Hs Hi Hh Hd Hm Hy]. unfold timestamp.
  destruct (year_field (tm_year t + 1900)) as (y1 & y2 & y3 & y4 & -> & Dy & Vy); [done|].
  destruct (two_digit_field (tm_mon t + 1)) as (m1 & m2 & -> & Dm & Vm); [lia|].
  destruct (two_digit_field (tm_mday t)) as (a1 & a2 & -> & Da & Va); [lia|].
  destruct (two_digit_field (tm_hour t)) as (h1 & h2 & -> & Dh & Vh); [lia|].
  destruct (two_digit_field (tm_min t)) as (i1 & i2 & -> & Di & Vi); [lia|].
  destruct (two_digit_field (tm_sec t)) as (s1 & s2 & -> & Ds & Vs); [lia|].
  split.
  - cbn [app lit String.list_ascii_of_string read_time].
    change [y1; y2; y3; y4; m1; m2; a1; a2; h1; h2; i1; i2; s1; s2] with
      ([y1; y2; y3; y4] ++ [m1; m2] ++ [a1; a2] ++ [h1; h2] ++ [i1; i2] ++ [s1; s2]).
    rewrite !forallb_app, Dy, Dm, Da, Dh, Di, Ds, Vy, Vm, Va, Vh, Vi, Vs. cbn.
    destruct t; simpl. do 3 f_equal; lia.
  - rewrite !none_app. by rewrite (digit_no_blank _ Dy), (digit_no_blank _ Dm), (digit_no_blank _ Da),
      (digit_no_blank _ Dh), (digit_no_blank _ Di), (digit_no_blank _ Ds).
Qed.

(** ** The packet *)

(** A name that the header can carry. *)
Definition plain_name (s : str) : Prop := none (Ascii.eqb " ") s = true /\ none (Ascii.eqb NUL) s = true.

Definition or_nil (s : str) : str := match s with [] => lit "-" | _ => s end.

Lemma or_nil_plain s : plain_name s -> plain_name (or_nil s) /\ or_nil s <> [].
Proof. by destruct s. Qed.

Lemma read_field_app s rest :
  none (Ascii.eqb " ") s = true -> s <> [] -> read_field (s ++ lit " " ++ rest) = Some (s, rest).
Proof.
  intros Hs Hne. unfold read_field. rewrite scan_app by (done || by right).
  change (lit " " ++ rest) with (" "%char :: rest). rewrite eat_cons. by destruct s.
Qed.

Lemma read_pri_level s rest :
  read_pri (lit "<" ++ printf_d false 0 (Z.lor syslog.user (severity_mapper s)) ++ lit ">" ++ rest) =
  Some (8 + severity_mapper s, rest).
Proof. by destruct s. Qed.

Lemma packet_read host app procid severity t message :
  plain_name host -> plain_name app -> plain_name procid -> procid <> [] -> tm_ok t ->
  read_packet (packet_text (set_target_address host app procid) (severity_mapper severity) t message) =
  Some (mk_packet_fields (8 + severity_mapper severity) (timestamp t) (or_nil host) (or_nil app) procid (lit "-") (c_str message)).
Proof.
  intros Hh Ha [Hp0 Hp1] Hpne Ht. apply or_nil_plain in Hh as [[Hh0 Hh1] Hhne], Ha as [[Ha0 Ha1] Hane].
  destruct (timestamp_read t [] Ht) as [Htime Hnb].
  assert (Htne : timestamp t <> []) by (intros E; by rewrite E in Htime).
  unfold packet_text, read_packet. cbn [m_local_hostname m_process_name m_process_id m_msg_id m_facility set_target_address].
  fold (or_nil host) (or_nil app). rewrite !c_str_id by done.
  change (lit ">1 ") with (lit ">" ++ lit "1 "). rewrite <- (app_assoc (lit ">")), read_pri_level. cbn [mbind option_bind].
  change (lit "1 " ++ ?x) with ("1"%char :: " "%char :: x). rewrite eat_cons. cbn [mbind option_bind].
  rewrite eat_cons. cbn [mbind option_bind]. do 4 (rewrite read_field_app by done; cbn [mbind option_bind]).
  change (lit "-" ++ lit " - " ++ c_str message) with (lit "-" ++ lit " " ++ "-"%char :: " "%char :: c_str message).
  rewrite read_field_app by done. cbn [mbind option_bind]. rewrite eat_cons. cbn [mbind option_bind].
  rewrite eat_cons. done.
Qed.

(** C37. The packet sent for a record, for names without blank and NUL and a
    time of the years 1000 to 9999: below 2048 bytes it is sent whole, otherwise
    its first 2047 bytes; a reader by the header rules recovers the priority
    (facility user and the level of the severity), the time, the names ("-" for
    an empty one) and the message up to a NUL.  The timestamp is FULL-DATE "T"
    PARTIAL-TIME and reads back as the time, but nothing follows it: the
    TIME-OFFSET the rules require is missing. *)
Theorem syslog_packet_spec host app procid severity t message :
  plain_name host -> plain_name app -> plain_name procid -> procid <> [] -> tm_ok t ->
  let b := set_target_address host app procid in
  let text := packet_text b (severity_mapper severity) t message in
  (str_size text < 2048 -> consume b severity t message = Some text) /\
  (2048 <= str_size text <= 2 ^ 31 - 1 ->
   exists packet rest, consume b severity t message = Some packet /\ text = packet ++ rest /\ str_size packet = 2047) /\
  (exists time,
     read_packet text =
       Some (mk_packet_fields (8 + severity_mapper severity) time (or_nil host) (or_nil app) procid (lit "-") (c_str message)) /\
     read_time time = Some (t, []) /\ full_timestamp time = false).
Proof.
  intros Hh Ha Hp Hpne Ht b text. unfold consume, send. fold text. unfold str_size in *. split_and!.
  - intros Hs. destruct (Z.leb_spec (Z.of_nat (length text)) (2 ^ 31 - 1)) as [_|]; [|lia].
    destruct (Z.leb_spec 2048 (Z.of_nat (length text))); [lia|]. f_equal. rewrite !take_ge; [done|lia|].
    rewrite take_ge; lia.
  - intros Hs. destruct (Z.leb_spec (Z.of_nat (length text)) (2 ^ 31 - 1)) as [_|]; [|lia].
    destruct (Z.leb_spec 2048 (Z.of_nat (length text))); [|lia].
    exists (take (Z.to_nat (2048 - 1)) text), (drop (Z.to_nat (2048 - 1)) text).
    rewrite take_take, Nat.min_id, take_drop, length_take. split; [done|]. split; [done|]. lia.
  - exists (timestamp t). split; [by apply packet_read|].
    destruct (timestamp_read t [] Ht) as [Hr _]. rewrite app_nil_r in Hr.
    unfold full_timestamp. by rewrite Hr.
Qed.

Lemma syslog_packet_spec_witness :
  exists time, read_packet (lit "<10>1 2024-01-02T03:04:05 box - 77 - - up and down") =
    Some (mk_packet_fields 10 time (lit "box") (lit "-") (lit "77") (lit "-") (lit "up and down")) /\
  read_time time = Some (mk_tm 5 4 3 2 0 124, []).
Proof.
  destruct (syslog_packet_spec (lit "box") [] (lit "77") trivial.fatal (mk_tm 5 4 3 2 0 124) (lit "up and down"))
    as (_ & _ & time & Hr & Ht & _); [by split..|done|split; simpl; lia|].
  exists time. split; [exact Hr|exact Ht].
Defined.
