(* ===== verification/Logger.v ===== *)
(** * common/logger.h and common/logger.cpp: sinks, formatters and the log functions

    [init_logging] installs a file sink and a console sink, [add_syslogging] the
    sink of Syslog.v; a log function opens a record, formats its text only if some
    sink wants the record, and hands it to the sinks.  The core of Boost.Log, its
    date and severity texts, boost.format and the path functions of
    boost.filesystem are not in the repository and are interfaces; the stream
    buffer and the size limit of the messages are headers of the repository and
    are modelled. *)
From stdpp Require Import prelude strings list.
From Stdlib Require Import Ascii ZArith Lia.
From S2P Require Import Prelude CxxLib Syslog.

Local Open Scope Z_scope.
Local Open Scope cxx_scope.

(** ** The stream buffer (boost/log/detail/attachable_sstream_buf.hpp) *)

Record storage_state : Type := mk_storage_state {
  storage : str;
  max_size : Z;
  overflow : bool;
}.

(** [std::string::max_size]. *)
Definition string_max_size : Z := 2 ^ 63 - 1.

Section buffer.
(** [length_until_boundary s max]: the bytes of the whole characters of the
    locale in the first [max] bytes. *)
Context (length_until_boundary : str -> Z -> Z).

Definition ensure_max_size (st : storage_state) : storage_state :=
  if max_size st <? str_size (storage st)
  then mk_storage_state (take (Z.to_nat (length_until_boundary (storage st) (max_size st))) (storage st))
         (max_size st) true
  else st.

(** [max_size(size)]. *)
Definition set_max_size (size : Z) (st : storage_state) : storage_state :=
  ensure_max_size (mk_storage_state (storage st) (if string_max_size <? size then string_max_size else size)
                     (overflow st)).

Definition set_overflow (f : bool) (st : storage_state) : storage_state :=
  mk_storage_state (storage st) (max_size st) f.

Definition size_left (st : storage_state) : Z :=
  if str_size (storage st) <? max_size st then max_size st - str_size (storage st) else 0.

Definition append (s : str) (st : storage_state) : storage_state :=
  if overflow st then st
  else if str_size s <=? size_left st then mk_storage_state (storage st ++ s) (max_size st) false
  else mk_storage_state (storage st ++ take (Z.to_nat (length_until_boundary s (size_left st))) s)
         (max_size st) true.

(** [max_size_decor(m_max_size, m_overflow_marker)[subactor]]: the call operator
    of [max_size_decorator_output_terminal]. *)
Definition max_size_decor (m_max_size : Z) (m_overflow_marker : str)
    (subactor : storage_state -> storage_state) (strm : storage_state) : storage_state :=
  if overflow strm then strm
  else
    let old_max_size := max_size strm in
    let start_pos := str_size (storage strm) in
    let max_size_left := string_max_size - start_pos in
    let st1 := set_max_size (start_pos + (if m_max_size <=? max_size_left then m_max_size else max_size_left)) strm in
    let st2 := subactor st1 in
    let st3 :=
      if overflow st2 then
        if negb (bool_decide (m_overflow_marker = [])) then
          append m_overflow_marker
            (set_overflow false
              (set_max_size string_max_size
                (set_max_size (max_size st2 - str_size m_overflow_marker) st2)))
        else set_overflow false st2
      else st2 in
    set_max_size old_max_size st3.

(** ** The formatters *)

(** The attributes of a record, as the stream prints them. *)
Record log_record : Type := mk_log_record {
  r_severity : trivial.severity_level;
  r_timestamp : str;
  r_thread_pid : str;
  r_fiber_id : str;
  r_message : str;
}.

(** [to_string] of a severity. *)
Context (severity_text : trivial.severity_level -> str).

Definition stream_header (r : log_record) (st : storage_state) : storage_state :=
  fold_left (fun st s => append s st)
    [lit "["; r_timestamp r; lit "]"; lit "["; severity_text (r_severity r); lit "]";
     lit "["; r_thread_pid r; lit "]"; lit "["; r_fiber_id r; lit "]"; lit " "] st.

(** A formatter starts with an empty string. *)
Definition empty_storage : storage_state := mk_storage_state [] string_max_size false.

(** The formatter of the file and of the console. *)
Definition limited_formatter (r : log_record) : str :=
  storage (max_size_decor (1024 * 50) (lit ">>>") (append (r_message r)) (stream_header r empty_storage)).

(** The formatter of the syslog sink. *)
Definition syslog_formatter (r : log_record) : str :=
  storage (append (r_message r) (stream_header r empty_storage)).

(** ** Sinks *)

Inductive sink_backend : Type :=
| text_file_backend (file_name : str) (rotation_size : Z) (auto_flush : bool)
    (target : str) (collector_max_size min_free_space : Z)
| text_ostream_backend (auto_flush : bool)       (* std::clog *)
| syslog_udp5424_backend (b : Syslog.backend).

Record sink : Type := mk_sink {
  sk_backend : sink_backend;
  sk_filter : trivial.severity_level -> bool;
  sk_formatter : log_record -> str;
}.

(** [parent_path], [stem] and [extension] of boost.filesystem. *)
Class PathOps : Type := {
  parent_path : str -> str;
  stem : str -> str;
  extension : str -> str;
}.

Class PathLaws `{PathOps} : Prop := {
  name_parts dir name : name <> [] -> has_char "/" name = false ->
    (dir = [] \/ last dir <> Some "/"%char) ->
    let p := match dir with [] => name | _ => dir ++ lit "/" ++ name end in
    parent_path p = dir /\ stem p ++ extension p = name;
}.

(** [logging::core]: where a sink is added, whether a record of a severity is
    opened, and what the sinks are given for a record. *)
Class LogCore (Core : Type) : Type := {
  core_init : Core;
  add_sink : sink -> Core -> Core;
  open_record : Core -> trivial.severity_level -> bool;
  push_record : Core -> log_record -> list (sink_backend * str);
}.

(** What the documentation of the core promises: a record is opened when the filter
    of some sink lets it pass, and is given once to each of those sinks, in no
    particular order. *)
Definition sink_output (r : log_record) (k : sink) : list (sink_backend * str) :=
  if sk_filter k (r_severity r) then [(sk_backend k, sk_formatter k r)] else [].

Class LogCoreLaws (Core : Type) `{LogCore Core} : Prop := {
  open_law ks severity : ks <> [] ->
    open_record (fold_left (fun c k => add_sink k c) ks core_init) severity =
      existsb (fun k => sk_filter k severity) ks;
  push_law ks r : ks <> [] ->
    push_record (fold_left (fun c k => add_sink k c) ks core_init) r ≡ₚ ks ≫= sink_output r;
}.

Section logging.
Context `{PathOps} {Core : Type} `{LogCore Core}.

(** The file sink of [init_logging]: the branches of KLOGGER_FORBIDDEN_AUTO_FLUSH
    are the same for the file. *)
Definition file_sink (forbidden_auto_flush : bool) (log_path : str) (filter_level : trivial.severity_level) : sink :=
  mk_sink
    (text_file_backend (parent_path log_path ++ lit "/" ++ stem log_path ++ lit "_%6N" ++ extension log_path)
       (50 * 1024 * 1024) (if forbidden_auto_flush then true else true)
       (parent_path log_path) (5 * 1024 * 1024 * 1024) (100 * 1024 * 1024))
    (sink_filter filter_level) limited_formatter.

Definition console_sink (forbidden_auto_flush : bool) (filter_level : trivial.severity_level) : sink :=
  mk_sink (text_ostream_backend (if forbidden_auto_flush then false else true))
    (sink_filter filter_level) limited_formatter.

Definition init_logging (forbidden_auto_flush : bool) (log_path : str)
    (filter_level : trivial.severity_level) (core : Core) : Core :=
  add_sink (console_sink forbidden_auto_flush filter_level)
    (add_sink (file_sink forbidden_auto_flush log_path filter_level) core).

(** The sink of [add_syslogging], for the backend with its addresses set. *)
Definition syslog_sink (b : Syslog.backend) (filter_level : trivial.severity_level) : sink :=
  mk_sink (syslog_udp5424_backend b) (sink_filter filter_level) syslog_formatter.

Definition install_syslog (b : Syslog.backend) (filter_level : trivial.severity_level) (core : Core) : Core :=
  add_sink (syslog_sink b filter_level) core.

(** ** The log functions *)

(** [boost::format(fmt) % args ...], which throws for a format or a number of
    arguments that does not fit. *)
Context {Arg E : Type} (format : str -> list Arg -> outcome E str).

(** What the core knows at the call: the clock, the thread and the fiber. *)
Record log_site : Type := mk_log_site {
  now_text : str;
  thread_text : str;
  fiber_text : str;
}.

(** BOOST_LOG_TRIVIAL(lvl) << ...: the text is built only for an opened record,
    and a record whose text throws is not pushed. *)
Definition log_trivial (core : Core) (site : log_site) (lvl : trivial.severity_level) (text : outcome E str) :
    outcome E (list (sink_backend * str)) :=
  if open_record core lvl then
    let! message := text in
    Ret (push_record core (mk_log_record lvl (now_text site) (thread_text site) (fiber_text site) message))
  else Ret [].

(** The position of LogDebugExt and the like, and of the [_prefix] functions. *)
Definition prefix (file : str) (line : Z) : str := file ++ lit ",line " ++ printf_d false 0 line ++ lit ",".

Definition log_trace core site fmt args := log_trivial core site trivial.trace (format fmt args).

Definition log_debug core site fmt args := log_trivial core site trivial.debug (format fmt args).

Definition log_info core site fmt args := log_trivial core site trivial.info (format fmt args).

Definition log_warning core site fmt args := log_trivial core site trivial.warning (format fmt args).

Definition log_error core site fmt args := log_trivial core site trivial.error (format fmt args).

Definition log_fatal core site fmt args := log_trivial core site trivial.fatal (format fmt args).

Definition prefixed (file : str) (line : Z) (fmt : str) (args : list Arg) : outcome E str :=
  let! text := format fmt args in Ret (prefix file line ++ text).

Definition log_warning_prefix core site file line fmt args :=
  log_trivial core site trivial.warning (prefixed file line fmt args).

Definition log_error_with_prefix core site file line fmt args :=
  log_trivial core site trivial.error (prefixed file line fmt args).

Definition log_fatal_prefix core site file line fmt args :=
  log_trivial core site trivial.fatal (prefixed file line fmt args).

End logging.
End buffer.
