(* ===== verification/LoggerFacts.v ===== *)
(** * What the log functions write

    The size limit of the messages, and the composition of the sinks of
    [init_logging] and [add_syslogging] with the log functions of logger.h. *)
From stdpp Require Import prelude strings list.
From Stdlib Require Import Ascii ZArith Lia.
From S2P Require Import Prelude CxxLib Syslog Logger.

Local Open Scope Z_scope.
Local Open Scope cxx_scope.

Lemma str_size_take n s : 0 <= n <= str_size s -> str_size (take (Z.to_nat n) s) = n.
Proof. unfold str_size. intros Hn. rewrite length_take. lia. Qed.

Section facts.
Context (length_until_boundary : str -> Z -> Z) (severity_text : trivial.severity_level -> str).

(** The boundary lies within the bytes looked at. *)
Hypothesis boundary_law : forall s n, 0 <= n <= str_size s -> 0 <= length_until_boundary s n <= n.

Abbreviation append := (append length_until_boundary).
Abbreviation set_max_size := (set_max_size length_until_boundary).

(** ** The buffer *)

Lemma append_fits s st :
  overflow st = false -> str_size (storage st) + str_size s <= max_size st ->
  append s st = mk_storage_state (storage st ++ s) (max_size st) false.
Proof.
  intros Ho Hs. unfold Logger.append, size_left. rewrite Ho. pose proof (str_size_nonneg s).
  destruct (Z.ltb_spec (str_size (storage st)) (max_size st)) as [Hlt|Hge].
  - by rewrite (proj2 (Z.leb_le _ _)) by lia.
  - assert (str_size s = 0) as Hz by lia. by rewrite Hz.
Qed.

Lemma set_max_size_fits n st :
  str_size (storage st) <= n <= string_max_size ->
  set_max_size n st = mk_storage_state (storage st) n (overflow st).
Proof.
  intros Hn. unfold Logger.set_max_size, ensure_max_size.
  rewrite (proj2 (Z.ltb_ge string_max_size n)) by lia. simpl.
  by rewrite (proj2 (Z.ltb_ge n _)) by lia.
Qed.

(** The text before the message. *)
Definition header_text (r : log_record) : str :=
  lit "[" ++ r_timestamp r ++ lit "][" ++ severity_text (r_severity r) ++ lit "][" ++ r_thread_pid r ++
  lit "][" ++ r_fiber_id r ++ lit "] ".

Lemma fold_append l st :
  overflow st = false -> str_size (storage st) + str_size (concat l) <= max_size st ->
  fold_left (fun st s => append s st) l st = mk_storage_state (storage st ++ concat l) (max_size st) false.
Proof.
  revert st. induction l as [|s l IH]; intros st Ho Hs; simpl in *.
  - rewrite app_nil_r. destruct st. simpl in *. by subst.
  - rewrite str_size_app in Hs. pose proof (str_size_nonneg (concat l)).
    rewrite append_fits by (done || lia). rewrite IH; simpl; [|done|rewrite str_size_app; lia].
    by rewrite <- app_assoc.
Qed.

Lemma stream_header_text r :
  str_size (header_text r) <= string_max_size ->
  stream_header length_until_boundary severity_text r empty_storage =
    mk_storage_state (header_text r) string_max_size false.
Proof.
  intros Hs. unfold stream_header. set (l := [lit "["; _; _; _; _; _; _; _; _; _; _; _; _]).
  assert (E : concat l = header_text r).
  { done. }
  rewrite fold_append; [by rewrite E|done|by rewrite E].
Qed.

(** ** The size limit *)

(** Lowering the limit of a buffer that has overflowed. *)
Lemma set_max_size_cut n st :
  0 <= n <= string_max_size -> exists m, 0 <= m <= n /\
    set_max_size n st = mk_storage_state (take (Z.to_nat m) (storage st)) n
      (overflow st || (n <? str_size (storage st))) /\
    (m = str_size (storage st) \/ n < str_size (storage st) /\ m = length_until_boundary (storage st) n).
Proof.
  intros Hn. unfold Logger.set_max_size, ensure_max_size.
  rewrite (proj2 (Z.ltb_ge string_max_size n)) by lia. simpl.
  destruct (Z.ltb_spec n (str_size (storage st))) as [Hlt|Hge].
  - exists (length_until_boundary (storage st) n). rewrite orb_true_r.
    split; [apply boundary_law; lia|]. split; [done|by right].
  - exists (str_size (storage st)). pose proof (str_size_nonneg (storage st)). split; [lia|].
    rewrite orb_false_r. split; [|by left]. f_equal. unfold str_size. rewrite Nat2Z.id. symmetry. apply firstn_all.
Qed.

(** A message over the limit: what the buffer holds before the marker. *)
Lemma overflowed_cut h msg lim :
  0 <= lim -> 3 <= lim -> lim < str_size msg -> str_size h + lim <= string_max_size ->
  let st2 := append msg (mk_storage_state h (str_size h + lim) false) in
  overflow st2 = true /\ max_size st2 = str_size h + lim /\
  exists n, 0 <= n <= str_size h + (lim - 3) /\
    set_max_size (max_size st2 - 3) st2 =
      mk_storage_state (take (Z.to_nat n) (h ++ msg)) (str_size h + (lim - 3)) true /\
    ((forall s k, length_until_boundary s k = k) -> n = str_size h + (lim - 3)).
Proof.
  intros H0 H3 Hm Hmax. pose proof (str_size_nonneg h). unfold Logger.append, size_left. cbn [overflow storage max_size].
  rewrite (proj2 (Z.ltb_lt (str_size h) _)) by lia. replace (str_size h + lim - str_size h) with lim by lia.
  rewrite (proj2 (Z.leb_gt _ _)) by lia. simpl. split; [done|]. split; [done|].
  pose proof (boundary_law msg lim ltac:(lia)) as Hb. set (b := length_until_boundary msg lim) in *.
  set (s2 := h ++ take (Z.to_nat b) msg).
  assert (Es : s2 = take (Z.to_nat (str_size h + b)) (h ++ msg)).
  { unfold s2, str_size. replace (Z.to_nat (Z.of_nat (length h) + b)) with (length h + Z.to_nat b)%nat by lia.
    by rewrite take_app_add. }
  assert (Hs2 : str_size s2 = str_size h + b).
  { unfold s2. rewrite str_size_app, str_size_take; lia. }
  destruct (set_max_size_cut (str_size h + lim - 3) (mk_storage_state s2 (str_size h + lim) true) ltac:(lia))
    as (m & Hm1 & -> & Hm2). simpl in *. exists m. split; [lia|]. split.
  - f_equal; [|lia]. rewrite Es, take_take. f_equal. destruct Hm2 as [->|[Hlt _]]; lia.
  - intros Hid. unfold b in Hs2. rewrite Hid in Hs2. destruct Hm2 as [->|[_ ->]]; [lia|]. rewrite Hid. lia.
Qed.

(** The text of the file and of the console: the whole message up to 51200
    bytes, and otherwise a cut one with the marker, within the limit. *)
Definition limited_text (r : log_record) (text : str) : Prop :=
  let h := header_text r in
  if str_size (r_message r) <=? 51200 then text = h ++ r_message r
  else exists n, 0 <= n <= str_size h + 51197 /\ text = take (Z.to_nat n) (h ++ r_message r) ++ lit ">>>" /\
    ((forall s k, length_until_boundary s k = k) -> text = h ++ take (Z.to_nat 51197) (r_message r) ++ lit ">>>").

Lemma limited_formatter_text r :
  str_size (header_text r) + 51200 <= string_max_size ->
  limited_text r (limited_formatter length_until_boundary severity_text r).
Proof.
  intros Hs. unfold limited_formatter, limited_text. rewrite stream_header_text by lia.
  set (h := header_text r) in *. set (msg := r_message r). pose proof (str_size_nonneg h).
  unfold max_size_decor. cbn [overflow storage max_size].
  rewrite (proj2 (Z.leb_le (1024 * 50) _)) by lia. change (1024 * 50) with 51200.
  rewrite (set_max_size_fits (str_size h + 51200)) by (cbn [storage]; lia). cbn [storage overflow].
  destruct (Z.leb_spec (str_size msg) 51200) as [Hle|Hgt].
  { rewrite append_fits; cbn [storage overflow max_size]; [|done|lia].
    rewrite set_max_size_fits; [done|]. cbn [storage]. rewrite str_size_app. lia. }
  destruct (overflowed_cut h msg 51200 ltac:(lia) ltac:(lia) Hgt Hs) as (Ho & Hmx & n & Hn & Ecut & Hexact).
  rewrite Ho. rewrite bool_decide_eq_false_2 by done. cbn [negb].
  change (str_size (lit ">>>")) with 3. rewrite Ecut.
  assert (Hsz : str_size (take (Z.to_nat n) (h ++ msg)) = n) by (apply str_size_take; rewrite str_size_app; lia).
  rewrite (set_max_size_fits string_max_size (mk_storage_state (take _ _) _ _)) by (cbn [storage]; lia).
  unfold set_overflow. cbn [storage max_size overflow].
  rewrite append_fits; cbn [storage max_size overflow]; [|done|rewrite Hsz; change (str_size (lit ">>>")) with 3; lia].
  rewrite set_max_size_fits by (cbn [storage]; rewrite str_size_app, Hsz; change (str_size (lit ">>>")) with 3; lia).
  cbn [storage]. exists n. split; [lia|]. split; [done|]. intros Hid. rewrite (Hexact Hid).
  rewrite Z2Nat.inj_add by lia. unfold str_size at 1. rewrite Nat2Z.id.
  by rewrite take_app_add, <- app_assoc.
Qed.

(** ** The sinks *)

Section sinks.
Context `{PathOps} {Core : Type} `{LogCoreLaws Core} {Arg E : Type} (format : str -> list Arg -> outcome E str).
Context (forbidden_auto_flush : bool) (log_path : str) (b : Syslog.backend)
  (level syslog_level : trivial.severity_level).

Abbreviation file := (sk_backend (file_sink length_until_boundary severity_text forbidden_auto_flush log_path level)).
Abbreviation console := (sk_backend (console_sink length_until_boundary severity_text forbidden_auto_flush level)).
Abbreviation core := (install_syslog length_until_boundary severity_text b syslog_level
  (init_logging length_until_boundary severity_text forbidden_auto_flush log_path level (core_init (Core := Core)))).

(** What a call that logs [text] at [lvl] does. *)
Definition logged (site : log_site) (lvl : trivial.severity_level) (text : outcome E str)
    (out : outcome E (list (sink_backend * str))) : Prop :=
  if sink_filter level lvl || sink_filter syslog_level lvl then
    match text with
    | Throw e => out = Throw e
    | Undef => out = Undef
    | Ret message =>
        let r := mk_log_record lvl (now_text site) (thread_text site) (fiber_text site) message in
        str_size (header_text r) + str_size message + 51200 <= string_max_size ->
        exists limited written, limited_text r limited /\ out = Ret written /\
          written ≡ₚ (if sink_filter level lvl then [(file, limited); (console, limited)] else []) ++
                     (if sink_filter syslog_level lvl
                      then [(syslog_udp5424_backend b, header_text r ++ message)] else [])
    end
  else out = Ret [].

Lemma syslog_formatter_text r :
  str_size (header_text r) + str_size (r_message r) <= string_max_size ->
  syslog_formatter length_until_boundary severity_text r = header_text r ++ r_message r.
Proof.
  intros Hs. pose proof (str_size_nonneg (r_message r)). unfold syslog_formatter.
  rewrite stream_header_text by lia. by rewrite append_fits.
Qed.

Lemma log_trivial_logged site lvl text : logged site lvl text (log_trivial core site lvl text).
Proof.
  set (ks := [file_sink length_until_boundary severity_text forbidden_auto_flush log_path level;
    console_sink length_until_boundary severity_text forbidden_auto_flush level;
    syslog_sink length_until_boundary severity_text b syslog_level]).
  change core with (fold_left (fun c k => add_sink k c) ks (core_init (Core := Core))).
  unfold logged, log_trivial. rewrite open_law by done.
  replace (existsb _ ks) with (sink_filter level lvl || sink_filter syslog_level lvl)
    by (simpl; by destruct (sink_filter level lvl), (sink_filter syslog_level lvl)).
  destruct (_ || _); [|done].
  destruct text as [message|e|]; [|done..]. cbn [obind]. intros Hs.
  set (r := mk_log_record _ _ _ _ _) in *. pose proof (str_size_nonneg message).
  exists (limited_formatter length_until_boundary severity_text r). eexists.
  split; [apply limited_formatter_text; lia|]. split; [done|]. rewrite push_law by done.
  unfold ks, sink_output. cbn [mbind list_bind sk_filter sk_backend sk_formatter file_sink console_sink syslog_sink].
  rewrite syslog_formatter_text by (simpl; lia). cbn [r_severity r_message r].
  destruct (sink_filter level lvl), (sink_filter syslog_level lvl); done.
Qed.

(** C31. The log functions of logger.h with the sinks of [init_logging] and
    [add_syslogging], over a core that gives an opened record once to each sink
    whose filter lets it pass.  A call below both levels writes nothing, and its
    arguments are not even formatted, so that a wrong format does not throw;
    otherwise a text that does not format throws and writes nothing.  What is
    written, in some order: file and console, both at the first level, get the
    header and the message up to 51200 bytes, or one cut to end with the marker
    ">>>" within that limit; syslog, at its own level, gets header and message
    whole. *)
Theorem logging_spec site fmt args pos line :
  logged site trivial.trace (format fmt args) (log_trace format core site fmt args) /\
  logged site trivial.debug (format fmt args) (log_debug format core site fmt args) /\
  logged site trivial.info (format fmt args) (log_info format core site fmt args) /\
  logged site trivial.warning (format fmt args) (log_warning format core site fmt args) /\
  logged site trivial.error (format fmt args) (log_error format core site fmt args) /\
  logged site trivial.fatal (format fmt args) (log_fatal format core site fmt args) /\
  logged site trivial.warning (prefixed format pos line fmt args)
    (log_warning_prefix format core site pos line fmt args) /\
  logged site trivial.error (prefixed format pos line fmt args)
    (log_error_with_prefix format core site pos line fmt args) /\
  logged site trivial.fatal (prefixed format pos line fmt args)
    (log_fatal_prefix format core site pos line fmt args).
Proof. split_and!; apply log_trivial_logged. Qed.

End sinks.
End facts.

(** Where the log files go: to the directory of the path, under a name with a
    counter; a path without a directory puts them into the root directory,
    although the directory the collector keeps them in is then the empty path. *)
Theorem log_file_place `{PathLaws} boundary severity_text forbidden dir name level :
  name <> [] -> has_char "/" name = false -> (dir = [] \/ last dir <> Some "/"%char) ->
  let p := match dir with [] => name | _ => dir ++ lit "/" ++ name end in
  exists file_name rotation auto_flush target size free,
    sk_backend (file_sink boundary severity_text forbidden p level) =
      text_file_backend file_name rotation auto_flush target size free /\
    target = dir /\ auto_flush = true /\
    (exists base ext, name = base ++ ext /\ file_name = dir ++ lit "/" ++ base ++ lit "_%6N" ++ ext) /\
    (dir = [] -> head file_name = Some "/"%char).
Proof.
  intros Hn Hs Hd p. destruct (name_parts dir name Hn Hs Hd) as [Hp Hst]. fold p in Hp, Hst.
  eexists _, _, _, _, _, _. split; [reflexivity|]. split; [done|]. split; [by destruct forbidden|].
  rewrite Hp. split; [|by intros ->]. by exists (stem p), (extension p).
Qed.

(** ** Instances *)

(** A core that keeps its sinks. *)
#[export] Instance list_LogCore : LogCore (list sink) := {|
  core_init := [];
  add_sink k ks := ks ++ [k];
  open_record ks severity := existsb (fun k => sk_filter k severity) ks;
  push_record ks r := ks ≫= sink_output r;
|}.

Lemma list_core_sinks ks l : fold_left (fun c k => add_sink k c) ks (l : list sink) = l ++ ks.
Proof.
  revert l. induction ks as [|k ks IH]; intros l; simpl; [by rewrite app_nil_r|]. by rewrite IH, <- app_assoc.
Qed.

#[export] Instance list_LogCoreLaws : LogCoreLaws (list sink).
Proof. split; intros ks x _; by rewrite list_core_sinks. Qed.

(** Paths cut at the last slash, names at the last dot. *)
Fixpoint cut_last (c : ascii) (s : str) : option (str * str) :=
  match s with
  | [] => None
  | d :: s' =>
      match cut_last c s' with
      | Some (a, b) => Some (d :: a, b)
      | None => if Ascii.eqb d c then Some ([], s') else None
      end
  end.

Lemma cut_last_None c s : has_char c s = false -> cut_last c s = None.
Proof.
  unfold has_char. induction s as [|d s IH]; simpl; [done|]. rewrite Ascii.eqb_sym.
  intros [-> Hs]%orb_false_iff. by rewrite IH.
Qed.

Lemma cut_last_app c a b : has_char c b = false -> cut_last c (a ++ c :: b) = Some (a, b).
Proof.
  intros Hb. induction a as [|d a IH]; simpl; [by rewrite cut_last_None, Ascii.eqb_refl|]. by rewrite IH.
Qed.

Lemma cut_last_Some c s a b : cut_last c s = Some (a, b) -> s = a ++ c :: b.
Proof.
  revert a b. induction s as [|d s IH]; intros a b; simpl; [done|].
  destruct (cut_last c s) as [[a' b']|]; [intros [= <- <-]; by rewrite (IH a' b')|].
  destruct (Ascii.eqb_spec d c) as [->|]; [|done]. by intros [= <- <-].
Qed.

Definition file_name_of (p : str) : str := match cut_last "/" p with Some (_, n) => n | None => p end.

#[export] Instance text_PathOps : PathOps := {|
  parent_path p := match cut_last "/" p with Some (d, _) => d | None => [] end;
  stem p := match cut_last "." (file_name_of p) with Some (a, _) => a | None => file_name_of p end;
  extension p := match cut_last "." (file_name_of p) with Some (_, e) => "."%char :: e | None => [] end;
|}.

#[export] Instance text_PathLaws : PathLaws.
Proof.
  split. intros dir name Hn Hs Hd. simpl. set (p := match dir with [] => _ | _ => _ end).
  assert (Hp : match cut_last "/" p with Some (d, _) => d | None => [] end = dir /\ file_name_of p = name).
  { unfold p, file_name_of. destruct dir as [|d dir]; [by rewrite cut_last_None|].
    change (cut_last _ _) with (cut_last "/" ((d :: dir) ++ "/"%char :: name)). by rewrite cut_last_app. }
  destruct Hp as [-> ->]. split; [done|]. destruct (cut_last "." name) as [[a e]|] eqn:E.
  - symmetry. by apply cut_last_Some.
  - by rewrite app_nil_r.
Qed.

Definition sample_site : log_site := mk_log_site (lit "2024-01-02 03:04:05.000006") (lit "77") (lit "0x1").

Definition sample_format (fmt : str) (args : list str) : outcome unit str :=
  match args with [] => Ret fmt | _ => Throw tt end.

Definition sample_core : list sink :=
  install_syslog (fun _ n => n) (fun _ => lit "sev") (set_target_address (lit "box") [] (lit "77")) trivial.fatal
    (init_logging (fun _ n => n) (fun _ => lit "sev") false (lit "./log/a.log") trivial.info core_init).

(** An error goes to the file and the console, a debug line nowhere. *)
Lemma logging_spec_witness :
  log_debug sample_format sample_core sample_site (lit "x") [lit "1"] = Ret [] /\
  exists limited written, log_error sample_format sample_core sample_site (lit "x") [] = Ret written /\
    written ≡ₚ [(text_file_backend (lit "./log/a_%6N.log") 52428800 true (lit "./log") 5368709120 104857600, limited);
         (text_ostream_backend true, limited)] /\
  limited = lit "[2024-01-02 03:04:05.000006][sev][77][0x1] x".
Proof.
  destruct (logging_spec (fun _ n => n) (fun _ => lit "sev") ltac:(intros s n Hn; lia) sample_format false
    (lit "./log/a.log") (set_target_address (lit "box") [] (lit "77")) trivial.info trivial.fatal
    sample_site (lit "x") [lit "1"] [] 0) as (_ & Hd & _).
  destruct (logging_spec (fun _ n => n) (fun _ => lit "sev") ltac:(intros s n Hn; lia) sample_format false
    (lit "./log/a.log") (set_target_address (lit "box") [] (lit "77")) trivial.info trivial.fatal
    sample_site (lit "x") [] [] 0) as (_ & _ & _ & _ & He & _).
  split; [exact Hd|]. destruct He as (limited & written & Hl & He & Hw); [vm_compute; discriminate|].
  exists limited, written. split; [exact He|]. split; [exact Hw|exact Hl].
Defined.
